(* ===== verification/_CoqProject ===== *)
-Q . S2P
Prelude.v
Block.v
Segments.v
InputStream.v
OutputStream.v
Streams.v
Types.v
Conn.v
Connection.v
Coroutine.v
ConnectionProofs.v
Sender.v
Poller.v
Uring.v
Wire.v
Protocol.v
Receiver.v
PollReceiver.v
HangUp.v
UringRead.v
Server.v
ServerProofs.v
Refusal.v
UringServer.v
Executor.v
Sockets.v
Start.v
EventLoop.v
EventLoopProofs.v
ServerSide.v
ServerProcess.v
Closing.v
EventLoopServer.v
RpcExamples.v
Client.v
ClientProofs.v
ClientLife.v
ClientClose.v
EndToEnd.v
System.v
Straddle.v
Mpmc.v
MpmcSafety.v
MpmcSeq.v
MpmcBugs.v
ExecutorFds.v
Press.v
Service.v
Example.v
StreamTheorems.v
ConnectionTheorems.v
RpcTheorems.v
LoopTheorems.v
QueueTheorems.v
ExecutorTheorems.v
ExampleTheorems.v
