(* ===== verification/Prelude.v ===== *)
(** * Verification of the xuanqiong RPC framework

    xuanqiong is a C++20 framework for protobuf calls over TCP.  A process has a
    scheduler with one executor: a thread with a task queue that sleeps in epoll,
    kqueue or io_uring.  Every connection is served on that thread by two
    coroutines.  [recv_fn] reads frames and handles them; [send_fn] writes what
    was put in the connection's send buffer.  Between the sockets and protobuf
    lie two byte queues made of linked blocks, which implement protobuf's
    zero-copy streams.

    ** How the parts interact

    [ClientChannel::CallMethod] spawns a task that serializes a request into the
    send buffer and resumes [send_fn], which hands the buffer to [writev].  The
    server's [recv_fn] reads the bytes into its receive buffer, parses the
    request through the stream, calls the method, serializes the response and
    resumes its own [send_fn]; the client's [recv_fn] parses the response and
    completes the call by its id.  Executors resume the coroutines when the
    sockets are ready and run the spawned tasks.

    ** How the code is modelled

    C++ code that runs on one thread is a computation of the monad [M S] below:
    it takes a state of type [S] and returns a result and a new state, or is
    undefined behaviour ([Faulted], with the reason), or does not finish within
    its fuel ([OutOfFuel]).  Integers are [Z] at the width of the source: [int]
    computations fault when they overflow, [size_t] and [uint32_t] wrap around.
    Loops are [iter fuel step], one [step] being one round.  [wp m Q s] says that
    [m] ends normally from [s] with [Q]; a theorem with [wp] therefore states
    that nothing faults and that every loop ends.  Fuel bounds in theorems are
    linear in the bytes or frames in play; every loop that ends needs less, and
    where the code does not end ([Skip], [send_add]) the theorem is for all fuel.

    Coroutines are their suspension points: [send_fn] is a field of the
    connection, [recv_fn] a state per waiting loop ([recv_pc], [client_pc]).
    Resuming a coroutine that is not suspended is a fault.  The kernel's answers
    to [read] and [writev] are lists in the state, over which the theorems
    quantify.

    Code of several threads (the queue, the executors' wake-up protocol, the accept
    loop beside its executor, the workers of the pressure tool) is a machine whose
    step is one access to shared memory, under every interleaving and sequential
    consistency; reachability is an inductive relation.  Code that makes system
    calls for descriptors works on the open descriptors of a process, with a list
    that says which calls the kernel refuses.

    ** Files

    - Prelude.v: outcomes, the monad and its rules, machine integers, tactics.
    - Block.v, Segments.v: util/buffer_block.h, a heap of linked blocks, and the
      shape of block chains that both buffers share.
    - InputStream.v, OutputStream.v: [InputBuffer] and [OutputBuffer] of
      util/input_stream.cc and util/output_stream.cc, one definition per method,
      their invariants and the behaviour of every method.
    - Streams.v: [NetInputStream] and [NetOutputStream]; protobuf's stream
      interfaces as classes with laws, the instances, and clients proved against
      the laws.
    - Types.v: the machine types of the members of both buffers, and a small logic
      for showing that every method keeps them.
    - Conn.v: what a coroutine sees of a connection, the virtual methods of
      net/connection.h as a class.  Connection.v: [Connection] and [PollConnection]
      (net/poll_connection.cc), the awaiters of scheduler/awaitable.cc and the
      coroutine [send_fn].  Coroutine.v: scheduler/awaitable.h and scheduler/task.h,
      [co_await] as the language defines it, and [send_fn] one [co_await] at a time.
      ConnectionProofs.v: what reading and writing do to the byte streams.  Sender.v:
      the sending side over the life of a connection.
    - Poller.v: event registration and dispatch of scheduler/epoll_exector.cc and
      scheduler/kqueue_executor.cc.
      EventLoop.v: the loops over the events of one [epoll_wait] or [kevent], on a heap of
      connections with the registrations of their descriptors; a [Kernel] is a poller
      with its loop and with what it may report.  EventLoopProofs.v: what the epoll loop
      does at each socket, and what the events of any [Framed] poller leave alone.
    - Uring.v: the sending side of net/uring_connection.cc with the completions of
      scheduler/uring_exector.cc.  UringRead.v: its receiving side, with the tags
      that match submissions and completions.
    - Wire.v: proto/message.proto, and the documented format of the header with its
      round trip.  Protocol.v: frames; protobuf as a class with the laws it documents,
      and an instance.
    - Receiver.v: the laws [ConnLaws] that a connection promises to a receiving
      coroutine, and the waiting loops proved against them.  PollReceiver.v,
      UringRead.v: the two connections satisfy them.  HangUp.v: the end of the stream.
    - Server.v, ServerProofs.v: [RpcServer::recv_fn] of server/rpc_server.cc, over any
      connection.  Refusal.v: requests on the way to one that is refused.  UringServer.v:
      over io_uring, driven by completions, to any end.  Closing.v: polled connections
      that end, by the peer at any point of the stream or by a request that is refused.
      ServerSide.v: the laws [ServerLaws] that a server promises to its peers, and that
      both servers satisfy them.  ServerProcess.v: the accepting thread, the executor and
      all connections, over any such server.  EventLoopServer.v: the connections of a
      server in the event loop, over any poller that is [serving]; epoll and kqueue are.
    - Client.v, ClientProofs.v: client/client_channel.cc.  ClientLife.v: a channel with
      everything that happens to it, and the small machine that it refines.
      ClientClose.v: a channel that its program closes.
      EndToEnd.v: calls, requests and responses.  System.v: a client, any server with
      [ServerLaws] and the network between them.  Straddle.v: length prefixes that lie
      in two blocks.
    - Mpmc.v: util/mpmc_queue.h and util/mpmc_queue.inl.h.  MpmcSafety.v: what holds
      under every interleaving.  MpmcSeq.v: calls that do not overlap, against a
      list.  MpmcBugs.v: interleavings that go wrong.
    - Executor.v: the threads, [spawn] and [stop] of the three executors, and
      scheduler/scheduler.cc.
    - Sockets.v: net/socket_utils.cc, net/accepter.cc, net/socket.h and the
      constructor of [ClientChannel].
    - Start.v: the constructor and the accept loop of [RpcServer], beside its
      executor.  ExecutorFds.v: the constructors and destructors of the executors.
    - Press.v: the workers, the counters and the waiting of press/rpc_press.cc.
    - Service.v: util/service.cc and example/echo_service.cc.  Example.v: the programs
      example/echo_server.cc and example/echo_client.cc.
    - RpcExamples.v: the services and requests of the concrete instances.
    - StreamTheorems.v, ConnectionTheorems.v, RpcTheorems.v, LoopTheorems.v,
      QueueTheorems.v, ExecutorTheorems.v, ExampleTheorems.v: the properties, each
      with a concrete instance.

    ** What the theorems show

    - Streams: both buffers are FIFO byte queues over any sequence of operations,
      free all their memory, keep every member in the range of its type, and
      satisfy the laws a protobuf parser or serializer relies on.  Exceptions are
      exact: a length prefix across a block boundary is stored out of bounds, [BackUp] gives nothing back once a block was handed out
      to its end, and [Skip] has the wrong guard.
    - Connections: the sender puts on the wire what was submitted, in order, and
      never waits for data while bytes are unsent, for kernels that refuse the
      next [writev] after a partial one; otherwise bytes are sent twice.  The same
      over io_uring for writes that complete in full; after a short one nothing is
      ever sent again.  A sender that waits for its socket has write events
      registered.  Reading appends what the peer sent, unchanged and in order,
      through errors and to the end of the stream.  The coroutine in direct style does
      what the source does with its awaiters.
    - Calls: the server answers any valid requests, in any fragmentation, in order
      and completely, over poll and over io_uring.  The client refines the machine of
      its table: a call enters it under a fresh id, and a response completes its call
      when its last byte arrives.  A client and either server with a network between
      them: in any order of events nothing faults, the calls that have completed are
      the first ones, each with what its method returned, and all can complete.  The
      whole server process, with connections accepted while others are served: nothing
      faults, each connection writes the responses to its own requests, in order, and
      all of them can get out.  A peer that closes between requests or before a body
      ends both coroutines; one that closes inside a body, or right behind a request, makes the server resume a
      finished coroutine (over io_uring the loop that waits for the body never ends);
      a refused request leaves the sender suspended for good (over io_uring unless a
      write is in flight); a server that closes, and a program that closes its channel,
      leave calls pending.
    - Event loop: handling the events of one [epoll_wait] comes to dispatching each of
      them at its own socket, in any order.  With the registrations that the coroutines
      make, with epoll and with kqueue, every peer of a server gets its responses; the
      proof is for any poller that keeps read events registered, and write events
      where a sender waits for them.  With both a hang-up leaves the
      connection allocated for good, and reports that outlive their connection are
      used after it is destroyed.
    - Examples: the echo server answers all 1001 requests of the echo client, which
      completes 361 of its calls and then stores a length prefix out of bounds.
    - Queue: under every interleaving a pop with ticket [i] takes the value of the
      [i]-th push, and no value is taken twice, as long as no freed chunk is
      accessed; interleavings that access one, leak one or spin forever.  Calls that
      do not overlap return what a list would, in a bounded number of steps.
    - Executors: a sleeping executor is woken for
      every task but one that is spawned between its last look at the queue and
      the setting of its flag, which waits for the next one; [stop] wakes only
      kqueue.  The accept loop hands every connection over, [send_fn] first, and the
      tasks run once and in order.
      Executors close their descriptors, and the io_uring executor one too many.
    - Sockets and controllers: what is open after [accept] and after the
      constructor of a channel; what a controller reports.
    - Pressure tool: every call is issued once, no counter overflows, the workers
      end.

    ** What is not modelled

    Protobuf, the kernel, io_uring and the C++ runtime are parameters or
    nondeterministic answers.  Weak memory orders are not modelled, nor is the
    reuse of freed addresses.  Logging has no effect.  In the model of the
    wake-up protocol tasks are opaque; in that of the server process the executor
    handles the events of its connections in any order, and nothing is said about
    fairness between them.  Of io_uring one read and one write per connection are in flight,
    and the ring always has room.  The latency report of the pressure tool, the end of
    the example client (it sleeps and stops the scheduler) and the tests are left out;
    so are exceptions and the ownership of messages and controllers. *)
From stdpp Require Export base tactics list numbers gmap relations.

#[global] Set Default Goal Selector "!".
#[global] Coercion Z.of_nat : nat >-> Z.

(** ** Outcomes of running C++ code

    A run of an operation ends normally, ends in undefined behaviour (with the
    reason), or did not finish within the fuel given to its loops. *)
Inductive fault :=
  | NullDeref          (** a null pointer was dereferenced *)
  | UseAfterFree       (** a pointer to no live object was dereferenced *)
  | OutOfBounds        (** an access outside of its object *)
  | SignedOverflow     (** an [int] computation left the range of [int] *)
  | ResumeDestroyed.   (** a coroutine handle that is not suspended was resumed *)

#[global] Instance fault_eq_dec : EqDecision fault.
Proof. solve_decision. Defined.

Inductive outcome (A : Type) :=
  | Done (a : A)
  | Faulted (f : fault)
  | OutOfFuel.
Arguments Done {A} a.
Arguments Faulted {A} f.
Arguments OutOfFuel {A}.

(** ** The state monad of the imperative code *)
Definition M (S A : Type) : Type := S → outcome (A * S).

#[global] Instance M_ret {S} : MRet (M S) := λ A a s, Done (a, s).
#[global] Instance M_bind {S} : MBind (M S) := λ A B k m s,
  match m s with
  | Done (a, s') => k a s'
  | Faulted f => Faulted f
  | OutOfFuel => OutOfFuel
  end.

Definition gets {S A} (f : S → A) : M S A := λ s, Done (f s, s).
Definition modify {S} (f : S → S) : M S unit := λ s, Done (tt, f s).
Definition fail_with {S A} (f : fault) : M S A := λ _, Faulted f.

(** A loop: [body] returns [inl l] to go round again with the locals [l], and
    [inr r] to leave the loop with [r]. *)
Fixpoint iter {S L R} (fuel : nat) (body : L → M S (L + R)) (l : L) : M S R :=
  match fuel with
  | O => λ _, OutOfFuel
  | Datatypes.S n =>
      r ← body l;
      match r with
      | inl l' => iter n body l'
      | inr r => mret r
      end
  end.

(** ** Total correctness

    [wp m Q s]: run from [s], [m] neither faults nor runs out of fuel, and its
    result and final state satisfy [Q]. *)
Definition wp {S A} (m : M S A) (Q : A → S → Prop) (s : S) : Prop :=
  match m s with
  | Done (a, s') => Q a s'
  | _ => False
  end.

Section wp.
Context {S : Type}.
Implicit Types s : S.

Lemma wp_done {A} (m : M S A) Q s :
  wp m Q s ↔ ∃ a s', m s = Done (a, s') ∧ Q a s'.
Proof.
  unfold wp. split.
  - destruct (m s) as [[a s']| |]; naive_solver.
  - intros (a & s' & -> & HQ). done.
Qed.

Lemma wp_ret {A} (a : A) Q s : Q a s → wp (mret a) Q s.
Proof. done. Qed.

Lemma wp_gets {A} (f : S → A) Q s : Q (f s) s → wp (gets f) Q s.
Proof. done. Qed.

Lemma wp_modify (f : S → S) Q s : Q tt (f s) → wp (modify f) Q s.
Proof. done. Qed.

Lemma wp_bind {A B} (m : M S A) (k : A → M S B) Q s :
  wp m (λ a s', wp (k a) Q s') s → wp (m ≫= k) Q s.
Proof.
  unfold wp, mbind, M_bind. by destruct (m s) as [[a s']| |].
Qed.
Lemma wp_bind_inv {A B} (m : M S A) (k : A → M S B) Q s :
  wp (m ≫= k) Q s → wp m (λ a s', wp (k a) Q s') s.
Proof.
  unfold wp, mbind, M_bind. by destruct (m s) as [[a s']| |].
Qed.

(** Running a bind whose first command ends normally. *)
Lemma bind_done {A B} (m : M S A) (k : A → M S B) s a s' :
  m s = Done (a, s') → (m ≫= k) s = k a s'.
Proof. unfold mbind, M_bind. by intros ->. Qed.

Lemma wp_mono {A} (m : M S A) (Q Q' : A → S → Prop) s :
  wp m Q s → (∀ a s', Q a s' → Q' a s') → wp m Q' s.
Proof. unfold wp. destruct (m s) as [[a s']| |]; naive_solver. Qed.

(** The postcondition may mention the run. *)
Lemma wp_with_run {A} (m : M S A) Q s :
  wp m Q s → wp m (λ a s', m s = Done (a, s') ∧ Q a s') s.
Proof. unfold wp. by destruct (m s) as [[a s']| |]. Qed.

(** One round of a loop. *)
Lemma wp_iter_step {L R} (body : L → M S (L + R)) n l Q s :
  wp (body l) (λ x s', match x with
                       | inl l' => wp (iter n body l') Q s'
                       | inr r => Q r s'
                       end) s →
  wp (iter (Datatypes.S n) body l) Q s.
Proof.
  intros H. cbn [iter]. apply wp_bind. eapply wp_mono; [exact H|]. by intros [l'|r] s'.
Qed.

(** One round of a loop, as equations. *)
Lemma iter_next {L R} (body : L → M S (L + R)) n l l' s s' :
  body l s = Done (inl l', s') → iter (Datatypes.S n) body l s = iter n body l' s'.
Proof. cbn [iter]. unfold mbind, M_bind. by intros ->. Qed.

Lemma iter_faults {L R} (body : L → M S (L + R)) n l s f :
  body l s = Faulted f → iter (Datatypes.S n) body l s = Faulted f.
Proof. cbn [iter]. unfold mbind, M_bind. by intros ->. Qed.

(** A loop depends on its state only through its first round. *)
Lemma iter_same_step {L R} (body : L → M S (L + R)) n l s s' :
  body l s = body l s' → iter (Datatypes.S n) body l s = iter (Datatypes.S n) body l s'.
Proof. intros Hb. simpl. unfold mbind, M_bind. by rewrite Hb. Qed.

Lemma bind_faults {A B} (m : M S A) (k : A → M S B) s f :
  m s = Faulted f → (m ≫= k) s = Faulted f.
Proof. unfold mbind, M_bind. by intros ->. Qed.

Lemma wp_and {A} (m : M S A) (Q Q' : A → S → Prop) s :
  wp m Q s → wp m Q' s → wp m (λ a s', Q a s' ∧ Q' a s') s.
Proof. unfold wp. by destruct (m s) as [[a s']| |]. Qed.

Lemma bind_diverges {A B} (m : M S A) (k : A → M S B) s :
  m s = OutOfFuel → (m ≫= k) s = OutOfFuel.
Proof. unfold mbind, M_bind. by intros ->. Qed.

(** Running a bind whose first command has a specification. *)
Lemma bind_wp {A B} (m : M S A) (k : A → M S B) (o : outcome (B * S)) s :
  wp m (λ a s', k a s' = o) s → (m ≫= k) s = o.
Proof. unfold wp, mbind, M_bind. by destruct (m s) as [[a s']| |]. Qed.

Lemma wp_iter {L R} (I : L → S → Prop) (μ : L → S → nat)
    (body : L → M S (L + R)) Q :
  (∀ l s, I l s →
    wp (body l) (λ x s', match x with
                         | inl l' => I l' s' ∧ μ l' s' < μ l s
                         | inr r => Q r s'
                         end) s) →
  ∀ fuel l s, I l s → μ l s < fuel → wp (iter fuel body l) Q s.
Proof.
  intros Hbody fuel. induction fuel as [|fuel IH]; intros l s HI Hμ; [lia|].
  simpl. apply wp_bind. eapply wp_mono; [by apply Hbody|].
  intros [l1|r] s1 Hx; simpl in Hx.
  - destruct Hx. apply IH; [done|lia].
  - by apply wp_ret.
Qed.

(** A loop whose body always goes round again never ends: it uses up any
    amount of fuel. *)
Lemma iter_diverges {L R} (I : L → S → Prop) (body : L → M S (L + R)) :
  (∀ l s, I l s → ∃ l' s', body l s = Done (inl l', s') ∧ I l' s') →
  ∀ fuel l s, I l s → iter fuel body l s = OutOfFuel.
Proof.
  intros Hbody fuel. induction fuel as [|fuel IH]; intros l s HI; [done|].
  destruct (Hbody l s HI) as (l' & s' & Hb & HI').
  simpl. unfold mbind, M_bind. rewrite Hb. by apply IH.
Qed.
End wp.

(** ** Machine integers *)
Definition INT32_MAX : Z := 2147483647.
Definition INT32_MIN : Z := -2147483648.
Definition u64 (z : Z) : Z := z mod 2 ^ 64.
Definition u32 (z : Z) : Z := z mod 2 ^ 32.

(** The value of an [int] expression: out of range is undefined behaviour. *)
Definition int32 {S} (z : Z) : M S Z :=
  if decide (INT32_MIN ≤ z ≤ INT32_MAX)%Z then mret z
  else fail_with SignedOverflow.

Lemma wp_int32 {S} z (Q : Z → S → Prop) s :
  (INT32_MIN ≤ z ≤ INT32_MAX)%Z → Q z s → wp (int32 z) Q s.
Proof. intros Hz HQ. unfold int32. rewrite decide_True; done. Qed.

Lemma u64_small z : (0 ≤ z < 2 ^ 64)%Z → u64 z = z.
Proof. apply Z.mod_small. Qed.

Lemma u64_range z : (0 ≤ u64 z < 2 ^ 64)%Z.
Proof. by apply Z.mod_pos_bound. Qed.

Lemma u64_add_l a b : u64 (u64 a + b) = u64 (a + b).
Proof. apply Zplus_mod_idemp_l. Qed.

Lemma u64_sub_l a b : u64 (u64 a - b) = u64 (a - b).
Proof. apply Zminus_mod_idemp_l. Qed.

(** Conversions to [int] and [int64_t], modulo the width. *)
Definition to_int32 (z : Z) : Z := ((z + 2 ^ 31) mod 2 ^ 32 - 2 ^ 31)%Z.
Definition to_int64 (z : Z) : Z := ((z + 2 ^ 63) mod 2 ^ 64 - 2 ^ 63)%Z.

Lemma to_int32_small z : (INT32_MIN ≤ z ≤ INT32_MAX)%Z → to_int32 z = z.
Proof.
  unfold INT32_MIN, INT32_MAX, to_int32. intros Hz. rewrite Z.mod_small; lia.
Qed.

Lemma to_int64_small z : (- 2 ^ 63 ≤ z < 2 ^ 63)%Z → to_int64 z = z.
Proof. unfold to_int64. intros Hz. rewrite Z.mod_small; lia. Qed.

(** ** Lists *)
Lemma prefix_shorter {A} (l1 l2 l : list A) :
  l1 `prefix_of` l → l2 `prefix_of` l → length l1 ≤ length l2 → l1 `prefix_of` l2.
Proof.
  intros [k1 Hk1] [k2 ->] Hle. exists (drop (length l1) l2). apply (f_equal (take (length l2))) in Hk1.
  rewrite take_app_length, take_app_ge in Hk1 by done. rewrite Hk1. by rewrite drop_app_length.
Qed.

Lemma concat_take_le {A} (fs : list (list A)) i j :
  Forall (λ f, f ≠ []) fs → i ≤ length fs →
  length (concat (take i fs)) ≤ length (concat (take j fs)) → i ≤ j.
Proof.
  intros Hne Hi Hle. destruct (decide (i ≤ j)) as [|Hji]; [done|]. exfalso.
  destruct (lookup_lt_is_Some_2 fs j ltac:(lia)) as [f Hf].
  assert (f ≠ []) as Hfne by (eapply Forall_lookup in Hne; done).
  assert (take i fs = take j fs ++ f :: take (i - S j) (drop (S j) fs)) as Heq.
  { rewrite <-(take_drop_middle fs j f Hf) at 1. rewrite take_app_ge by (rewrite length_take; lia).
    rewrite length_take, Nat.min_l by (apply lookup_lt_Some in Hf; lia). f_equal.
    replace (i - j) with (S (i - S j)) by lia. done. }
  rewrite Heq, concat_app, !length_app in Hle. simpl in Hle. rewrite length_app in Hle.
  destruct f; [done|simpl in Hle; lia].
Qed.

(** ** Proof steps on monadic code *)
Create HintDb wp discriminated.
#[export] Hint Resolve wp_ret wp_gets wp_modify : wp.

(** One step through a monadic program: split a bind and run a basic command. *)
Ltac wp_step :=
  lazymatch goal with
  | |- wp (_ ≫= _) _ _ => apply wp_bind
  | |- wp (mret _) _ _ => apply wp_ret
  | |- wp (gets _) _ _ => apply wp_gets
  | |- wp (modify _) _ _ => apply wp_modify
  end; cbv beta.
Ltac wp_steps := repeat wp_step; simpl.

(** A decidable goal without variables. *)
Ltac decided := refine (bool_decide_unpack _ _); vm_compute; exact I.

(** ** What a program does to its state, and leaves alone *)

(** Whenever [m] returns, the states before and after are related. *)
Definition follows {S A} (R : S → S → Prop) (m : M S A) : Prop :=
  ∀ s a s', m s = Done (a, s') → R s s'.

(** [m] does not change the part [f] of the state. *)
Definition kept {S B} (f : S → B) (s s' : S) : Prop := f s' = f s.
#[export] Instance kept_preorder {S B} (f : S → B) : PreOrder (kept f).
Proof. split; [done|]. intros s1 s2 s3 H1 H2. unfold kept in *. congruence. Qed.
Abbreviation preserves f := (follows (kept f)).

Section follows.
Context {S : Type} (R : S → S → Prop) `{!PreOrder R}.

Lemma follows_ret {A} (a : A) : follows R (mret a).
Proof. intros s a' s' [= <- <-]. done. Qed.
Lemma follows_gets {A} (g : S → A) : follows R (gets g).
Proof. intros s a' s' [= <- <-]. done. Qed.
Lemma follows_modify (g : S → S) : (∀ s, R s (g s)) → follows R (modify g).
Proof. intros Hg s a' s' [= <- <-]. done. Qed.
Lemma follows_fail {A} (e : fault) : follows R (fail_with (A := A) e).
Proof. by intros s a s'. Qed.
Lemma follows_bind {A A'} (m : M S A) (k : A → M S A') :
  follows R m → (∀ a, follows R (k a)) → follows R (m ≫= k).
Proof.
  intros Hm Hk s a s' Hrun. unfold mbind, M_bind in Hrun.
  destruct (m s) as [[a1 s1]| |] eqn:Hms; [|done|done].
  etrans; [by eapply Hm|by eapply Hk].
Qed.
Lemma follows_iter {L T} n (body : L → M S (L + T)) l :
  (∀ l, follows R (body l)) → follows R (iter n body l).
Proof.
  intros Hbody. revert l. induction n as [|n IH]; intros l; [by intros s a s'|].
  apply follows_bind; [apply Hbody|]. intros [l'|r]; [apply IH|apply follows_ret].
Qed.

(** What [m] does to the state depends on its result; [Q] may be preceded by steps of
    [R]. *)
Definition leads {A} (Q : A → S → S → Prop) (m : M S A) : Prop :=
  ∀ s a s', m s = Done (a, s') → Q a s s'.
Definition after_steps {A} (Q : A → S → S → Prop) : Prop :=
  ∀ a s1 s2 s3, R s1 s2 → Q a s2 s3 → Q a s1 s3.

Lemma leads_ret {A} (Q : A → S → S → Prop) a : (∀ s, Q a s s) → leads Q (mret a).
Proof. by intros HQ s a' s' [= <- <-]. Qed.
Lemma leads_bind {A A'} (P : A → S → S → Prop) (Q : A' → S → S → Prop) (m : M S A) (k : A → M S A') :
  leads P m → (∀ a, leads (λ b s1 s', ∀ s, P a s s1 → Q b s s') (k a)) → leads Q (m ≫= k).
Proof.
  intros Hm Hk s b s' Hrun. unfold mbind, M_bind in Hrun.
  destruct (m s) as [[a1 s1]| |] eqn:Hms; [|done|done]. eapply Hk; [done|by apply Hm].
Qed.
Lemma leads_after {A A'} (Q : A' → S → S → Prop) (m : M S A) (k : A → M S A') :
  after_steps Q → follows R m → (∀ a, leads Q (k a)) → leads Q (m ≫= k).
Proof.
  intros HQ Hm Hk. apply (leads_bind (λ _, R)); [done|].
  intros a s1 b s' Hrun s Hs. eapply HQ; [done|by eapply Hk].
Qed.
Lemma leads_iter {L T} n (Q : T → S → S → Prop) (body : L → M S (L + T)) l :
  after_steps Q →
  (∀ l, leads (λ x s s', match x with inl _ => R s s' | inr t => Q t s s' end) (body l)) →
  leads Q (iter n body l).
Proof.
  intros HQ Hbody. revert l. induction n as [|n IH]; intros l; [by intros s a s'|].
  eapply leads_bind; [apply Hbody|]. intros [l'|t] s1 b s' Hrun s Hs; simpl in Hs.
  - eapply HQ; [done|by eapply IH].
  - by injection Hrun as <- <-.
Qed.

(** A run with a postcondition also does this. *)
Lemma wp_follows {A} (m : M S A) (Q : A → S → Prop) s :
  follows R m → wp m Q s → wp m (λ a s', Q a s' ∧ R s s') s.
Proof.
  unfold wp. intros Hm HQ. destruct (m s) as [[a s']| |] eqn:Hms; [|done|done].
  split; [done|]. by eapply Hm.
Qed.
End follows.

Lemma preserves_modify {S B} (f : S → B) (g : S → S) :
  (∀ s, f (g s) = f s) → preserves f (modify g).
Proof. intros Hg. by apply follows_modify. Qed.

Create HintDb preserves discriminated.
#[export] Hint Resolve follows_ret follows_gets follows_fail follows_bind follows_iter : preserves.

(** Through a program by its shape. *)
Ltac preserve :=
  repeat first
    [ progress (eauto 2 with preserves typeclass_instances nocore)
    | match goal with
      | |- follows ?R (iter _ _ _) => apply (follows_iter R); intros ?
      | |- follows ?R (_ ≫= _) => apply (follows_bind R); [|intros ?]
      | |- follows _ (if ?b then _ else _) => destruct b
      | |- follows _ (match ?x with _ => _ end) => destruct x
      end ].
