(* ===== verification/Block.v ===== *)
(** * Buffer blocks (util/buffer_block.h) and the heap they live in

    [BufferBlock] is the node of the singly linked lists that both stream
    buffers are made of.  A buffer's blocks live in a heap of its own, a finite
    map from locations to blocks; a pointer is an optional location, [None]
    being [nullptr].  [new] takes a location that is not in use, [delete] removes
    it, and dereferencing anything else is a fault.

    The bytes of a fresh block are indeterminate in C++ ([new BufferBlock] does
    not initialise [data]), so a cell is an optional byte.

    The second half is the theory shared by the two buffers: [chain h ns] says
    that the heap [h] consists exactly of the nodes [ns], linked in this order,
    and the lemmas say how a chain evolves under a field update, an allocation at
    the end and a deallocation at the front. *)
From S2P Require Import Prelude.

Definition kBlockSize : Z := 8192.

Lemma kBlockSize_val : kBlockSize = 8192%Z.
Proof. reflexivity. Qed.
#[global] Opaque kBlockSize.

(** [lia] with the block size and the [int] bounds unfolded. *)
Ltac blia :=
  pose proof kBlockSize_val; unfold INT32_MAX, INT32_MIN in *; lia.

Abbreviation cell := (option Z).
Abbreviation loc := positive.
Abbreviation ptr := (option loc).

Record BufferBlock := mkBlock {
  begin : Z;
  end_ : Z;
  data : list cell;
  next : ptr;
}.

Definition set_begin (z : Z) (b : BufferBlock) : BufferBlock :=
  mkBlock z (end_ b) (data b) (next b).
Definition set_end (z : Z) (b : BufferBlock) : BufferBlock :=
  mkBlock (begin b) z (data b) (next b).
Definition set_data (d : list cell) (b : BufferBlock) : BufferBlock :=
  mkBlock (begin b) (end_ b) d (next b).
Definition set_next (p : ptr) (b : BufferBlock) : BufferBlock :=
  mkBlock (begin b) (end_ b) (data b) p.

(** The object a [new BufferBlock] creates. *)
Definition new_block : BufferBlock :=
  mkBlock 0 0 (replicate (Z.to_nat kBlockSize) None) None.

Abbreviation heap := (gmap loc BufferBlock).

Definition fresh_loc (h : heap) : loc :=
  map_fold (λ l _ m, Pos.max (Pos.succ l) m) 1%positive h.

Lemma fresh_loc_fresh (h : heap) : h !! fresh_loc h = None.
Proof.
  cut (∀ l, is_Some (h !! l) → (l < fresh_loc h)%positive).
  { intros Hlt. apply eq_None_not_Some. intros Hs%Hlt. lia. }
  unfold fresh_loc. apply (map_fold_weak_ind
    (λ (r : positive) (m : heap), ∀ l, is_Some (m !! l) → (l < r)%positive)).
  - intros l [? Hl]. by rewrite lookup_empty in Hl.
  - intros i b m r Hi IH l. rewrite lookup_insert. case_decide as Hil.
    + intros _. subst. lia.
    + intros Hs%IH. lia.
Qed.

(** ** Memory operations, for any state that holds a heap of blocks *)
Class HasHeap (S : Type) := {
  heap_of : S → heap;
  with_heap : heap → S → S;
}.

Section memory.
Context {S : Type} `{!HasHeap S}.

Definition deref (p : ptr) : M S BufferBlock := λ s,
  match p with
  | None => Faulted NullDeref
  | Some l => match heap_of s !! l with
              | None => Faulted UseAfterFree
              | Some b => Done (b, s)
              end
  end.

Definition store (p : ptr) (f : BufferBlock → BufferBlock) : M S unit := λ s,
  match p with
  | None => Faulted NullDeref
  | Some l => match heap_of s !! l with
              | None => Faulted UseAfterFree
              | Some b => Done (tt, with_heap (<[l := f b]> (heap_of s)) s)
              end
  end.

(** [new BufferBlock] *)
Definition alloc_block : M S ptr := λ s,
  let l := fresh_loc (heap_of s) in
  Done (Some l, with_heap (<[l := new_block]> (heap_of s)) s).

(** [delete p]; deleting a null pointer has no effect. *)
Definition delete_block (p : ptr) : M S unit := λ s,
  match p with
  | None => Done (tt, s)
  | Some l => match heap_of s !! l with
              | None => Faulted UseAfterFree
              | Some _ => Done (tt, with_heap (delete l (heap_of s)) s)
              end
  end.

Lemma deref_done l b s : heap_of s !! l = Some b → deref (Some l) s = Done (b, s).
Proof. intros Hl. unfold deref. by rewrite Hl. Qed.

Lemma store_done l b f s :
  heap_of s !! l = Some b →
  store (Some l) f s = Done (tt, with_heap (<[l := f b]> (heap_of s)) s).
Proof. intros Hl. unfold store. by rewrite Hl. Qed.

Lemma wp_deref l b Q s :
  heap_of s !! l = Some b → Q b s → wp (deref (Some l)) Q s.
Proof. intros Hl HQ. unfold wp, deref. by rewrite Hl. Qed.

Lemma wp_store l b f Q s :
  heap_of s !! l = Some b → Q tt (with_heap (<[l := f b]> (heap_of s)) s) →
  wp (store (Some l) f) Q s.
Proof. intros Hl HQ. unfold wp, store. by rewrite Hl. Qed.

Lemma wp_alloc Q s :
  (∀ l, heap_of s !! l = None →
     Q (Some l) (with_heap (<[l := new_block]> (heap_of s)) s)) →
  wp alloc_block Q s.
Proof. intros HQ. unfold wp, alloc_block. apply HQ, fresh_loc_fresh. Qed.

Lemma wp_delete l b Q s :
  heap_of s !! l = Some b → Q tt (with_heap (delete l (heap_of s)) s) →
  wp (delete_block (Some l)) Q s.
Proof. intros Hl HQ. unfold wp, delete_block. by rewrite Hl. Qed.
End memory.

(** ** [memcpy] between byte arrays *)

(** The [n] cells of [d] from offset [off]; [None] when they do not all exist. *)
Definition read_cells (d : list cell) (off n : Z) : option (list cell) :=
  if decide (0 ≤ off ∧ 0 ≤ n ∧ off + n ≤ length d)%Z
  then Some (take (Z.to_nat n) (drop (Z.to_nat off) d))
  else None.

(** [d] with the cells [src] written from offset [off]. *)
Definition write_cells (d : list cell) (off : Z) (src : list cell) : option (list cell) :=
  if decide (0 ≤ off ∧ off + length src ≤ length d)%Z
  then Some (take (Z.to_nat off) d ++ src ++ drop (Z.to_nat off + length src) d)
  else None.

Definition in_bounds {S A} (o : option A) : M S A :=
  match o with
  | Some a => mret a
  | None => fail_with OutOfBounds
  end.

Lemma wp_in_bounds {S A} (a : A) (Q : A → S → Prop) o s :
  o = Some a → Q a s → wp (in_bounds o) Q s.
Proof. by intros -> HQ. Qed.

Lemma in_bounds_done {S A} (a : A) o (s : S) : o = Some a → in_bounds o s = Done (a, s).
Proof. by intros ->. Qed.

Lemma read_cells_Some d off n :
  (0 ≤ off)%Z → (0 ≤ n)%Z → (off + n ≤ length d)%Z →
  read_cells d off n = Some (take (Z.to_nat n) (drop (Z.to_nat off) d)).
Proof. intros. unfold read_cells. by rewrite decide_True. Qed.

Lemma write_cells_Some d off src :
  (0 ≤ off)%Z → (off + length src ≤ length d)%Z →
  write_cells d off src =
    Some (take (Z.to_nat off) d ++ src ++ drop (Z.to_nat off + length src) d).
Proof. intros. unfold write_cells. by rewrite decide_True. Qed.

Lemma length_write_cells d off src d' :
  write_cells d off src = Some d' → length d' = length d.
Proof.
  unfold write_cells. case_decide; [|done]. intros [= <-].
  rewrite !length_app, length_take, length_drop. lia.
Qed.

Lemma write_cells_nil d off : (0 ≤ off ≤ length d)%Z → write_cells d off [] = Some d.
Proof.
  intros H. rewrite write_cells_Some by (simpl; lia). simpl.
  by rewrite Nat.add_0_r, take_drop.
Qed.

(** Two writes next to each other are one. *)
Lemma write_cells_app d off src1 src2 d1 d2 :
  write_cells d off src1 = Some d1 → write_cells d1 (off + length src1) src2 = Some d2 →
  write_cells d off (src1 ++ src2) = Some d2.
Proof.
  intros H1 H2. pose proof (length_write_cells _ _ _ _ H1) as Hlen.
  unfold write_cells in *. rewrite length_app.
  repeat case_decide; simplify_eq; try lia. f_equal.
  replace (Z.to_nat (off + length src1)) with (Z.to_nat off + length src1) by lia.
  set (o := Z.to_nat off). rewrite (app_assoc (take o d) src1).
  assert (length (take o d ++ src1) = o + length src1) as Ht
    by (rewrite length_app, length_take; lia).
  rewrite take_app_length' by done. rewrite drop_app_ge by lia. rewrite drop_drop, Ht.
  rewrite <-!app_assoc. do 3 f_equal. f_equal. lia.
Qed.

(** ** Regions handed to the outside

    A region [[sp_off, sp_off + sp_len)] of the [data] array of a block: what the
    buffers hand to [read], to [writev] and to protobuf as pointer and length. *)
Record span := mkSpan { sp_block : ptr; sp_off : Z; sp_len : Z }.

(** The holder of a region stores bytes at its start. *)
Definition write_span {S} `{!HasHeap S} (sp : span) (bytes : list cell) : M S unit :=
  b ← deref (sp_block sp);
  d ← in_bounds (write_cells (data b) (sp_off sp) bytes);
  store (sp_block sp) (set_data d).

(** The holder of a region loads its bytes. *)
Definition read_span {S} `{!HasHeap S} (sp : span) : M S (list cell) :=
  b ← deref (sp_block sp);
  in_bounds (read_cells (data b) (sp_off sp) (sp_len sp)).

(** ** Chains of blocks *)
Abbreviation node := (loc * BufferBlock)%type.

Fixpoint linked (ns : list node) : Prop :=
  match ns with
  | [] => True
  | (_, b) :: rest => next b = head rest.*1 ∧ linked rest
  end.

(** The heap holds exactly the nodes [ns], linked in this order: no node is
    missing (no dangling pointer) and no other is allocated (no leak). *)
Definition chain (h : heap) (ns : list node) : Prop :=
  h = list_to_map ns ∧ NoDup ns.*1 ∧ linked ns.

Lemma head_app_cons {A} (l1 l2 : list A) x :
  head (l1 ++ x :: l2) = Some (default x (head l1)).
Proof. by destruct l1. Qed.

Lemma linked_update pre l b b' post :
  next b' = next b → linked (pre ++ (l, b) :: post) → linked (pre ++ (l, b') :: post).
Proof.
  intros Hn. induction pre as [|[l0 b0] pre IH]; csimpl.
  - intros [H1 H2]. by rewrite Hn.
  - intros [-> H2]. split; [|by apply IH].
    rewrite !fmap_app. csimpl. by rewrite !head_app_cons.
Qed.

Lemma linked_suffix pre ns : linked (pre ++ ns) → linked ns.
Proof. induction pre as [|[l b] pre IH]; csimpl; naive_solver. Qed.

Lemma linked_snoc pre l b l' b' :
  next b' = None → linked (pre ++ [(l, b)]) →
  linked (pre ++ [(l, set_next (Some l') b); (l', b')]).
Proof.
  intros Hn. induction pre as [|[l0 b0] pre IH]; csimpl.
  - done.
  - intros [-> H2]. split; [|by apply IH].
    rewrite !fmap_app. csimpl. by rewrite !head_app_cons.
Qed.

Section chain.
Implicit Types (h : heap) (ns pre post : list node).

Lemma chain_lookup h pre l b post :
  chain h (pre ++ (l, b) :: post) → h !! l = Some b.
Proof.
  intros (-> & Hnd & _). apply elem_of_list_to_map_1; [done|].
  apply elem_of_app. right. by left.
Qed.

Lemma chain_next h pre l b post :
  chain h (pre ++ (l, b) :: post) → next b = head post.*1.
Proof. by intros (_ & _ & [? _]%linked_suffix). Qed.

Lemma chain_update h pre l b b' post :
  next b' = next b → chain h (pre ++ (l, b) :: post) →
  chain (<[l := b']> h) (pre ++ (l, b') :: post).
Proof.
  intros Hn (-> & Hnd & Hl). split_and!.
  - rewrite !list_to_map_app. csimpl.
    rewrite fmap_app in Hnd. csimpl in Hnd.
    apply NoDup_app in Hnd as (_ & Hd & _).
    assert ((list_to_map pre : heap) !! l = None) as Hno.
    { apply not_elem_of_list_to_map_1. intros Hin. apply (Hd l); [done|by left]. }
    rewrite !insert_union_r by done. by rewrite insert_insert_eq.
  - by rewrite fmap_app in Hnd |- *.
  - by eapply linked_update.
Qed.

Lemma chain_snoc h pre l b l' b' :
  next b' = None → h !! l' = None → chain h (pre ++ [(l, b)]) →
  chain (<[l := set_next (Some l') b]> (<[l' := b']> h))
    (pre ++ [(l, set_next (Some l') b); (l', b')]).
Proof.
  intros Hn Hf (-> & Hnd & Hl).
  assert (l' ∉ (pre ++ [(l, b)]).*1) as Hni.
  { intros Hin. apply list_elem_of_fmap in Hin as ([k x] & -> & Hin).
    csimpl in Hf. apply not_elem_of_list_to_map_2 in Hf. apply Hf.
    by apply (list_elem_of_fmap_2 fst) in Hin. }
  assert (l ≠ l') as Hne.
  { intros ->. apply Hni. rewrite fmap_app. set_solver. }
  split_and!.
  - rewrite list_to_map_app in Hf |- *. csimpl. rewrite !list_to_map_app. csimpl.
    rewrite fmap_app in Hnd. csimpl in Hnd. apply NoDup_app in Hnd as (_ & Hd & _).
    assert ((list_to_map pre : heap) !! l = None) as Hl1.
    { apply not_elem_of_list_to_map_1. intros Hin. apply (Hd l); [done|by left]. }
    assert ((list_to_map pre : heap) !! l' = None) as Hl2.
    { apply lookup_union_None in Hf. naive_solver. }
    rewrite !insert_union_r by done. f_equal.
    apply map_eq. intros i. rewrite !lookup_insert, !lookup_empty.
    repeat case_decide; naive_solver.
  - rewrite fmap_app in Hnd, Hni |- *. csimpl in *.
    replace [l; l'] with ([l] ++ [l']) by done. rewrite app_assoc.
    apply NoDup_app. split_and!; [done| |by apply NoDup_singleton].
    set_solver.
  - by apply linked_snoc.
Qed.

Lemma chain_delete_head h l b ns :
  chain h ((l, b) :: ns) → chain (delete l h) ns.
Proof.
  intros (-> & Hnd & Hl). csimpl in *. apply NoDup_cons in Hnd as [Hni Hnd].
  split_and!; [|done|by destruct Hl].
  rewrite delete_insert_id; [done|]. by apply not_elem_of_list_to_map_1.
Qed.

Lemma chain_singleton l b : next b = None → chain {[ l := b ]} [(l, b)].
Proof.
  intros Hn. split_and!; [done|apply NoDup_singleton|done].
Qed.

Lemma chain_nil h : chain h [] ↔ h = ∅.
Proof. split; [by intros (-> & _)|]. intros ->. by split_and!; [|apply NoDup_nil_2|]. Qed.
End chain.

(** ** The bytes a block, and a list of blocks, holds *)
Definition block_ok (b : BufferBlock) : Prop :=
  (0 ≤ begin b ≤ end_ b)%Z ∧ (end_ b ≤ kBlockSize)%Z ∧
  (length (data b) : Z) = kBlockSize.

Definition slice (b : BufferBlock) : list cell :=
  take (Z.to_nat (end_ b - begin b)) (drop (Z.to_nat (begin b)) (data b)).

Definition contents (bs : list BufferBlock) : list cell := concat (slice <$> bs).

Lemma length_slice b : block_ok b → (length (slice b) : Z) = (end_ b - begin b)%Z.
Proof. unfold slice, block_ok. rewrite length_take, length_drop. lia. Qed.

Lemma contents_app bs1 bs2 : contents (bs1 ++ bs2) = contents bs1 ++ contents bs2.
Proof. unfold contents. by rewrite fmap_app, concat_app. Qed.

Lemma contents_cons b bs : contents (b :: bs) = slice b ++ contents bs.
Proof. done. Qed.

Lemma contents_singleton b : contents [b] = slice b.
Proof. unfold contents. csimpl. by rewrite app_nil_r. Qed.

Lemma slice_set_next p b : slice (set_next p b) = slice b.
Proof. done. Qed.

Lemma new_block_ok : block_ok new_block.
Proof.
  unfold block_ok, new_block. simpl. rewrite length_replicate. blia.
Qed.

Lemma slice_new_block : slice new_block = [].
Proof. done. Qed.

(** Consuming from the front of a block. *)
Lemma slice_set_begin z b :
  block_ok b → (begin b ≤ z ≤ end_ b)%Z →
  slice (set_begin z b) = drop (Z.to_nat (z - begin b)) (slice b).
Proof.
  unfold block_ok, slice. simpl. intros Hb Hz.
  rewrite skipn_firstn_comm, drop_drop. f_equal; [lia|]. f_equal. lia.
Qed.

Lemma slice_prefix b n :
  block_ok b → (0 ≤ n ≤ end_ b - begin b)%Z →
  take (Z.to_nat n) (drop (Z.to_nat (begin b)) (data b)) = take (Z.to_nat n) (slice b).
Proof. intros Hb Hn. unfold slice. rewrite take_take. f_equal. lia. Qed.

(** Appending at the end of a block. *)
Lemma slice_append b d src :
  block_ok b → write_cells (data b) (end_ b) src = Some d →
  slice (set_end (end_ b + length src) (set_data d b)) = slice b ++ src.
Proof.
  unfold write_cells. case_decide as Hb; [|done]. intros Hok [= <-].
  unfold slice. simpl. unfold block_ok in Hok.
  replace (Z.to_nat (end_ b)) with (Z.to_nat (begin b) + Z.to_nat (end_ b - begin b)) by lia.
  rewrite drop_app_le by (rewrite length_take; lia).
  rewrite skipn_firstn_comm.
  replace (Z.to_nat (begin b) + Z.to_nat (end_ b - begin b) - Z.to_nat (begin b))
    with (Z.to_nat (end_ b - begin b)) by lia.
  rewrite take_app_ge by (rewrite length_take, length_drop; lia).
  f_equal. rewrite length_take, length_drop.
  rewrite take_app_le by lia. rewrite take_ge by lia. done.
Qed.

(** [fill P bs]: every block but the last is filled up to its capacity, and the
    fill level of the last satisfies [P]. *)
Fixpoint fill (P : Z → Prop) (bs : list BufferBlock) : Prop :=
  match bs with
  | [] => False
  | [b] => P (end_ b)
  | b :: bs' => end_ b = kBlockSize ∧ fill P bs'
  end.

Lemma fill_cons P b bs :
  bs ≠ [] → fill P (b :: bs) ↔ end_ b = kBlockSize ∧ fill P bs.
Proof. by destruct bs. Qed.

Lemma fill_app P bs1 bs2 :
  bs2 ≠ [] → fill P (bs1 ++ bs2) ↔ Forall (λ b, end_ b = kBlockSize) bs1 ∧ fill P bs2.
Proof.
  intros Hne. induction bs1 as [|b bs1 IH]; simpl app.
  - split; [|naive_solver]. intros H. split; [constructor|done].
  - rewrite fill_cons by (destruct bs1; [done|discriminate]).
    rewrite IH, Forall_cons. tauto.
Qed.

(** A non-empty list of nodes, seen from its end. *)
Lemma snoc_inv {A} (l : list A) : l ≠ [] → ∃ l' x, l = l' ++ [x].
Proof. destruct l as [|x l] using rev_ind; [done|eauto]. Qed.

(** ** Following the [next] pointers *)
Fixpoint walk (fuel : nat) (h : heap) (p : ptr) : list BufferBlock :=
  match fuel, p with
  | S fuel, Some l => match h !! l with
                      | Some b => b :: walk fuel h (next b)
                      | None => []
                      end
  | _, _ => []
  end.

Lemma chain_size h ns : chain h ns → size h = length ns.
Proof.
  intros (-> & Hnd & _). induction ns as [|[l b] ns IH]; [done|]. csimpl in *.
  apply NoDup_cons in Hnd as [Hni Hnd].
  rewrite map_size_insert_None by (by apply not_elem_of_list_to_map_1).
  by rewrite IH.
Qed.

Lemma chain_walk h pre suf fuel :
  chain h (pre ++ suf) → length suf ≤ fuel → walk fuel h (head suf.*1) = suf.*2.
Proof.
  revert pre fuel. induction suf as [|[l b] suf IH]; intros pre fuel Hc Hf.
  - by destruct fuel.
  - destruct fuel as [|fuel]; [csimpl in *; lia|]. csimpl.
    rewrite (chain_lookup _ _ _ _ _ Hc). f_equal.
    rewrite (chain_next _ _ _ _ _ Hc). apply (IH (pre ++ [(l, b)])).
    + by rewrite <-app_assoc.
    + csimpl in Hf. lia.
Qed.

(** Consuming [k] bytes of the first block. *)
Lemma contents_consume k b bs :
  block_ok b → (0 ≤ k ≤ end_ b - begin b)%Z →
  contents (b :: bs) =
    take (Z.to_nat k) (slice b) ++ contents (set_begin (begin b + k) b :: bs).
Proof.
  intros Hb Hk. rewrite !contents_cons, slice_set_begin by (done || lia).
  replace (begin b + k - begin b)%Z with k by lia.
  by rewrite app_assoc, take_drop.
Qed.
