(* ===== verification/Segments.v ===== *)
(** * Segmented byte queues: the shape both stream buffers share

    Both buffers are a chain of blocks [pre ++ suf] of which [pre] is read to
    the end and [suf] starts with the block that is being read.  They differ in
    how full the last block may be, the parameter [P]: the receive buffer
    allocates the next block as soon as one is full, the send buffer may leave a
    full block last. *)
From S2P Require Import Prelude Block.

(** The blocks are [pre ++ suf]: [pre] is read to the end and kept only for
    [back_up], [suf] starts with the current block.  Every block but the last is
    filled; the blocks after the current one are unread. *)
Record buf_shape (P : Z → Prop) (h : heap) (f c l : ptr) (pre suf : list node) : Prop := {
  shape_chain : chain h (pre ++ suf);
  shape_first : f = head (pre ++ suf).*1;
  shape_cur : c = head suf.*1;
  shape_last : l = last suf.*1;
  shape_spent : Forall (λ n, block_ok n.2 ∧ begin n.2 = kBlockSize) pre;
  shape_ok : Forall (λ n, block_ok n.2) suf;
  shape_fill : fill P suf.*2;
  shape_unread : Forall (λ n, begin n.2 = 0%Z) (tail suf);
}.

Arguments shape_chain {P h f c l pre suf} _.
Arguments shape_ok {P h f c l pre suf} _.
Arguments shape_unread {P h f c l pre suf} _.

(** The current block has not been read to its end. *)
Definition settled (suf : list node) : Prop :=
  match suf with
  | [] => False
  | (_, b) :: _ => (begin b < kBlockSize)%Z
  end.

Section shape_lemmas.
Context {P : Z → Prop} {h : heap} {f c l : ptr}.

Lemma shape_suf_ne pre suf : buf_shape P h f c l pre suf → suf ≠ [].
Proof. intros [? ? ? ? ? ? Hf ?] ->. done. Qed.

Lemma shape_cur_inv pre suf :
  buf_shape P h f c l pre suf →
  ∃ p b rest, suf = (p, b) :: rest ∧ c = Some p ∧ h !! p = Some b ∧
    block_ok b ∧ next b = head rest.*1.
Proof.
  intros Hs. pose proof (shape_suf_ne _ _ Hs). destruct suf as [|[p b] rest]; [done|].
  exists p, b, rest. destruct Hs. split_and!; [done|done| | |].
  - by eapply chain_lookup.
  - by apply Forall_inv in shape_ok0.
  - by eapply chain_next.
Qed.

Lemma shape_last_inv pre suf :
  buf_shape P h f c l pre suf →
  ∃ ini p b, suf = ini ++ [(p, b)] ∧ l = Some p ∧ h !! p = Some b ∧
    block_ok b ∧ P (end_ b).
Proof.
  intros Hs. destruct (snoc_inv _ (shape_suf_ne _ _ Hs)) as (ini & [p b] & ->).
  exists ini, p, b. destruct Hs as [Hc _ _ -> _ Hok Hf _]. split_and!.
  - done.
  - rewrite fmap_app. csimpl. by rewrite last_snoc.
  - rewrite app_assoc in Hc. by eapply chain_lookup.
  - apply Forall_app in Hok as [_ Hok]. by apply Forall_inv in Hok.
  - rewrite fmap_app in Hf. apply fill_app in Hf as [_ Hf]; done.
Qed.

(** Moving the read position inside the current block. *)
Lemma shape_set_begin pre p b rest z :
  buf_shape P h f c l pre ((p, b) :: rest) → (0 ≤ z ≤ end_ b)%Z →
  buf_shape P (<[p := set_begin z b]> h) f c l pre ((p, set_begin z b) :: rest).
Proof.
  intros [Hc Hf Hcur Hl Hsp Hok Hfill Hun] Hz. split.
  - by apply (chain_update _ _ _ b).
  - rewrite Hf, !fmap_app. by destruct pre.
  - done.
  - done.
  - done.
  - apply Forall_cons in Hok as [Hb Hok]. apply Forall_cons. split; [|done].
    unfold block_ok in *. simpl in *. lia.
  - csimpl in *. destruct rest; [done|]. done.
  - done.
Qed.

(** Leaving a block that is read to its end. *)
Lemma shape_advance pre p b rest :
  buf_shape P h f c l pre ((p, b) :: rest) → begin b = kBlockSize → rest ≠ [] →
  buf_shape P h f (next b) l (pre ++ [(p, b)]) rest ∧
  contents ((p, b) :: rest).*2 = contents rest.*2 ∧ settled rest.
Proof.
  intros [Hc Hf Hcur Hl Hsp Hok Hfill Hun] Hb Hne. apply Forall_cons in Hok as [Hbok Hok].
  split_and!.
  - split.
    + by rewrite <-app_assoc.
    + by rewrite <-app_assoc.
    + by rewrite (chain_next _ _ _ _ _ Hc).
    + rewrite Hl. destruct rest; done.
    + apply Forall_app. split; [done|]. by apply Forall_singleton.
    + done.
    + apply (fill_app _ [b]) in Hfill as [_ Hfill]; [done|]. by destruct rest.
    + destruct rest; [done|]. by apply Forall_cons in Hun as [_ Hun].
  - csimpl. rewrite contents_cons. unfold slice.
    replace (end_ b - begin b)%Z with 0%Z by (unfold block_ok in Hbok; simpl in *; lia).
    done.
  - destruct rest as [|[p' b'] rest]; [done|]. simpl in *.
    apply Forall_cons in Hun as [Hun _]. simpl in Hun. blia.
Qed.

(** The first block, read to its end, is freed. *)
Lemma shape_drop_head p b pre suf :
  buf_shape P h f c l ((p, b) :: pre) suf → suf ≠ [] →
  buf_shape P (delete p h) (head (pre ++ suf).*1) c l pre suf.
Proof.
  intros [Hc Hf Hcur Hl Hsp Hok Hfill Hun] Hne. split; try done.
  - by eapply chain_delete_head.
  - by apply Forall_cons in Hsp as [_ Hsp].
Qed.
End shape_lemmas.


Section append.
Context {P : Z → Prop} {h : heap} {f c l : ptr} {pre ini : list node} {p : loc} {b : BufferBlock}.
Hypothesis Hshape : buf_shape P h f c l pre (ini ++ [(p, b)]).

Lemma shape_unread_last b' :
  begin b' = begin b → Forall (λ n, begin n.2 = 0%Z) (tail (ini ++ [(p, b)])) →
  Forall (λ n, begin n.2 = 0%Z) (tail (ini ++ [(p, b')])).
Proof.
  intros Hb. destruct ini as [|n ini']; [done|]. simpl.
  rewrite !Forall_app, !Forall_singleton. simpl. by rewrite Hb.
Qed.

(** The last block is replaced by one that is still not full. *)
Lemma shape_update_last b' :
  next b' = next b → begin b' = begin b → block_ok b' → P (end_ b') →
  buf_shape P (<[p := b']> h) f c l pre (ini ++ [(p, b')]).
Proof.
  intros Hn Hbg Hok' He. destruct Hshape as [Hc Hf Hcur Hl Hsp Hok Hfill Hun]. split.
  - rewrite app_assoc in Hc |- *. by apply (chain_update _ _ _ b).
  - by rewrite Hf, !fmap_app.
  - by rewrite Hcur, !fmap_app.
  - by rewrite Hl, !fmap_app.
  - done.
  - rewrite Forall_app in Hok |- *. split; [naive_solver|]. by apply Forall_singleton.
  - rewrite fmap_app in Hfill |- *. apply fill_app in Hfill; [|done].
    apply fill_app; [done|]. naive_solver.
  - by apply shape_unread_last.
Qed.

(** The last block has become full, and an empty block follows it. *)
Lemma shape_snoc_last b' q :
  next b' = next b → begin b' = begin b → block_ok b' → end_ b' = kBlockSize → P 0%Z →
  (<[p := b']> h) !! q = None →
  buf_shape P (<[p := set_next (Some q) b']> (<[q := new_block]> (<[p := b']> h)))
    f c (Some q) pre (ini ++ [(p, set_next (Some q) b'); (q, new_block)]).
Proof.
  intros Hn Hbg Hok' He HP0 Hq. destruct Hshape as [Hc Hf Hcur Hl Hsp Hok Hfill Hun]. split.
  - rewrite app_assoc in Hc |- *. apply chain_snoc; [done|done|].
    by apply (chain_update _ _ _ b).
  - rewrite Hf, !fmap_app. csimpl. rewrite app_assoc, !head_app_cons, app_assoc.
    by rewrite head_app_cons.
  - rewrite Hcur, !fmap_app. csimpl. by rewrite !head_app_cons.
  - rewrite fmap_app. csimpl. by rewrite last_app_cons.
  - done.
  - rewrite Forall_app in Hok |- *. split; [naive_solver|].
    apply Forall_cons. split; [done|]. apply Forall_singleton, new_block_ok.
  - rewrite fmap_app in Hfill |- *. apply fill_app in Hfill; [|done].
    apply fill_app; [done|]. split; [naive_solver|]. done.
  - apply (shape_unread_last (set_next (Some q) b')) in Hun; [|done].
    clear -Hun. destruct ini; simpl in *; [by repeat constructor|].
    rewrite Forall_app in Hun |- *. rewrite Forall_singleton in Hun.
    split; [naive_solver|]. by repeat (constructor; [naive_solver|]).
Qed.
End append.

(** [u64] of a count that loses, or gains, [k] bytes. *)
Lemma u64_count_sub (bytes cs : list cell) k :
  (length bytes : Z) = k → u64 (u64 (length (bytes ++ cs)) - k) = u64 (length cs).
Proof. intros <-. rewrite u64_sub_l, length_app. f_equal. lia. Qed.

Lemma u64_count_add (bytes cs : list cell) k :
  (length bytes : Z) = k → u64 (u64 (length cs) + k) = u64 (length (cs ++ bytes)).
Proof. intros <-. rewrite u64_add_l, length_app. f_equal. lia. Qed.
