(* ===== verification/InputStream.v ===== *)
(** * The receive buffer (util/input_stream.h, util/input_stream.cc)

    [InputBuffer] is the byte queue between [read] and the protobuf parser: the
    connection writes received bytes into the block [get_buffer] hands out and
    reports them with [recv_add]; the parser takes them out with [fetch_uint32],
    [next], [back_up] and [skip].  [NetInputStream] is the view of the buffer
    that implements protobuf's [ZeroCopyInputStream]. *)
From S2P Require Import Prelude Block Segments.

(** ** Model *)
Record InputBuffer := mkInput {
  in_heap : heap;              (** the blocks the buffer has allocated *)
  read_bytes_ : Z;             (** [size_t] *)
  consumed_bytes_ : Z;         (** [size_t] *)
  limit_ : Z;                  (** [int] *)
  first_block_ : ptr;
  cur_block_ : ptr;
  last_block_ : ptr;
}.

#[export] Instance InputBuffer_heap : HasHeap InputBuffer := {
  heap_of := in_heap;
  with_heap h s := mkInput h (read_bytes_ s) (consumed_bytes_ s) (limit_ s)
                     (first_block_ s) (cur_block_ s) (last_block_ s);
}.

Definition set_read_bytes (z : Z) (s : InputBuffer) : InputBuffer :=
  mkInput (in_heap s) z (consumed_bytes_ s) (limit_ s)
    (first_block_ s) (cur_block_ s) (last_block_ s).
Definition set_consumed_bytes (z : Z) (s : InputBuffer) : InputBuffer :=
  mkInput (in_heap s) (read_bytes_ s) z (limit_ s)
    (first_block_ s) (cur_block_ s) (last_block_ s).
Definition set_limit (z : Z) (s : InputBuffer) : InputBuffer :=
  mkInput (in_heap s) (read_bytes_ s) (consumed_bytes_ s) z
    (first_block_ s) (cur_block_ s) (last_block_ s).
Definition set_first_block (p : ptr) (s : InputBuffer) : InputBuffer :=
  mkInput (in_heap s) (read_bytes_ s) (consumed_bytes_ s) (limit_ s)
    p (cur_block_ s) (last_block_ s).
Definition set_cur_block (p : ptr) (s : InputBuffer) : InputBuffer :=
  mkInput (in_heap s) (read_bytes_ s) (consumed_bytes_ s) (limit_ s)
    (first_block_ s) p (last_block_ s).
Definition set_last_block (p : ptr) (s : InputBuffer) : InputBuffer :=
  mkInput (in_heap s) (read_bytes_ s) (consumed_bytes_ s) (limit_ s)
    (first_block_ s) (cur_block_ s) p.

(** [InputBuffer::InputBuffer]: one fresh block, all three pointers to it. *)
Definition InputBuffer_new : InputBuffer :=
  mkInput {[ 1%positive := new_block ]} 0 0 INT32_MAX
    (Some 1%positive) (Some 1%positive) (Some 1%positive).

(** [InputBuffer::~InputBuffer] *)
Definition InputBuffer_destroy (fuel : nat) : M InputBuffer unit :=
  iter fuel (λ _ : unit,
    block ← gets first_block_;
    match block with
    | None => mret (inr tt)
    | Some _ =>
        b ← deref block;
        modify (set_first_block (next b));;
        delete_block block;;
        mret (inl tt)
    end) tt.

(** [InputBuffer::get_buffer] *)
Definition InputBuffer_get_buffer : M InputBuffer span :=
  p ← gets last_block_;
  b ← deref p;
  room ← int32 (kBlockSize - end_ b);
  mret (mkSpan p (end_ b) room).

(** [InputBuffer::recv_add] *)
Definition InputBuffer_recv_add (nread : Z) : M InputBuffer unit :=
  if decide (0 < nread)%Z then
    last ← gets last_block_;
    b ← deref last;
    e ← int32 (end_ b + nread);
    store last (set_end e);;
    rb ← gets read_bytes_;
    modify (set_read_bytes (u64 (rb + nread)));;
    if decide (e = kBlockSize) then
      l' ← alloc_block;
      store last (set_next l');;
      modify (set_last_block l')
    else mret tt
  else mret tt.

(** The last step of [fetch_uint32], [next] and the loop of [skip]: leave a block
    that is read to its end, if there is a next one. *)
Definition advance_if_spent : M InputBuffer unit :=
  cur ← gets cur_block_;
  b ← deref cur;
  if decide (begin b = kBlockSize ∧ next b ≠ None)
  then modify (set_cur_block (next b))
  else mret tt.

(** [InputBuffer::fetch_uint32]; [value] is the memory of the caller's
    [uint32_t], four cells.  The second [memcpy] goes to [value + copy_len],
    which is [4 * copy_len] bytes further since [value] is a [uint32_t*]. *)
Definition InputBuffer_fetch_uint32 (value : list cell) : M InputBuffer (bool * list cell) :=
  rb ← gets read_bytes_;
  if decide (rb < 4)%Z then mret (false, value)
  else
    cur ← gets cur_block_;
    b ← deref cur;
    avail ← int32 (end_ b - begin b);
    let copy_len := u64 (Z.min avail 4) in
    src ← in_bounds (read_cells (data b) (begin b) copy_len);
    value1 ← in_bounds (write_cells value 0 src);
    store cur (set_begin (to_int32 (u64 (begin b + copy_len))));;
    value2 ← (if decide (copy_len < 4)%Z then
                b ← deref cur;
                modify (set_cur_block (next b));;
                let cur' := next b in
                b' ← deref cur';
                src' ← in_bounds (read_cells (data b') (begin b') (4 - copy_len));
                v ← in_bounds (write_cells value1 (4 * copy_len) src');
                store cur' (set_begin (to_int32 (u64 (begin b' + (4 - copy_len)))));;
                mret v
              else mret value1);
    advance_if_spent;;
    cb ← gets consumed_bytes_;
    modify (set_consumed_bytes (u64 (cb + 4)));;
    rb ← gets read_bytes_;
    modify (set_read_bytes (u64 (rb - 4)));;
    mret (true, value2).

(** [InputBuffer::next]; [None] is the result [false]. *)
Definition InputBuffer_next : M InputBuffer (option span) :=
  cur ← gets cur_block_;
  b ← deref cur;
  limit ← gets limit_;
  if decide (begin b = end_ b ∨ limit = 0)%Z then mret None
  else
    avail ← int32 (end_ b - begin b);
    let size := Z.min avail limit in
    limit' ← int32 (limit - (if decide (limit = INT32_MAX) then 0 else size));
    modify (set_limit limit');;
    bg ← int32 (begin b + size);
    store cur (set_begin bg);;
    cb ← gets consumed_bytes_;
    modify (set_consumed_bytes (u64 (cb + size)));;
    advance_if_spent;;
    rb ← gets read_bytes_;
    modify (set_read_bytes (u64 (rb - size)));;
    mret (Some (mkSpan cur (begin b) size)).

(** [InputBuffer::back_up] *)
Definition InputBuffer_back_up (fuel : nat) (n : Z) : M InputBuffer unit :=
  cur ← gets cur_block_;
  b ← deref cur;
  let backup_bytes := Z.min n (begin b) in
  bg ← int32 (begin b - backup_bytes);
  store cur (set_begin bg);;
  rb ← gets read_bytes_;
  modify (set_read_bytes (u64 (rb + backup_bytes)));;
  limit ← gets limit_;
  limit' ← int32 (limit + (if decide (limit = INT32_MAX) then 0 else backup_bytes));
  modify (set_limit limit');;
  cb ← gets consumed_bytes_;
  modify (set_consumed_bytes (u64 (cb - backup_bytes)));;
  iter fuel (λ _ : unit,
    block ← gets first_block_;
    cur ← gets cur_block_;
    if decide (block = cur) then mret (inr tt)
    else
      b ← deref block;
      modify (set_first_block (next b));;
      delete_block block;;
      mret (inl tt)) tt.

(** [InputBuffer::byte_count] *)
Definition InputBuffer_byte_count (s : InputBuffer) : Z := to_int64 (consumed_bytes_ s).

(** [InputBuffer::bytes] *)
Definition InputBuffer_bytes (s : InputBuffer) : Z := read_bytes_ s.

(** One round of the loop of [InputBuffer::skip], with [n] bytes to go. *)
Definition InputBuffer_skip_step (n : Z) : M InputBuffer (Z + bool) :=
  if decide (0 < n)%Z then
    cur ← gets cur_block_;
    b ← deref cur;
    avail ← int32 (end_ b - begin b);
    let to_skip := Z.min n avail in
    bg ← int32 (begin b + to_skip);
    store cur (set_begin bg);;
    n' ← int32 (n - to_skip);
    cb ← gets consumed_bytes_;
    modify (set_consumed_bytes (u64 (cb + to_skip)));;
    rb ← gets read_bytes_;
    modify (set_read_bytes (u64 (rb - to_skip)));;
    advance_if_spent;;
    mret (inl n')
  else mret (inr true).

(** [InputBuffer::skip] *)
Definition InputBuffer_skip (fuel : nat) (n : Z) : M InputBuffer bool :=
  bc ← gets InputBuffer_byte_count;
  if decide (bc < n)%Z then mret false
  else iter fuel InputBuffer_skip_step n.

(** [InputBuffer::push_limit], [InputBuffer::pop_limit] *)
Definition InputBuffer_push_limit (limit : Z) : M InputBuffer unit :=
  modify (set_limit limit).
Definition InputBuffer_pop_limit : M InputBuffer unit :=
  modify (set_limit INT32_MAX).

(** ** Representation invariant *)

(** The shape of a receive buffer: its last block is never full. *)
Abbreviation input_shape := (buf_shape (λ e, e < kBlockSize)%Z).
Abbreviation shape s :=
  (input_shape (in_heap s) (first_block_ s) (cur_block_ s) (last_block_ s)).

(** Block boundaries lie at the multiples of [kBlockSize] of the whole stream:
    the read position in the current block is given by the number of bytes
    consumed so far. *)
Definition aligned (consumed : Z) (suf : list node) : Prop :=
  match suf with
  | [] => False
  | (_, b) :: _ => begin b = (consumed mod kBlockSize)%Z
  end.

Definition input_inv (s : InputBuffer) : Prop :=
  ∃ pre suf, shape s pre suf ∧ settled suf ∧
    read_bytes_ s = u64 (length (contents suf.*2)) ∧
    (0 ≤ limit_ s ≤ INT32_MAX)%Z ∧
    aligned (consumed_bytes_ s) suf.

(** The abstract value of a receive buffer: the bytes received and not yet
    consumed, oldest first. *)
Definition input_contents (s : InputBuffer) : list cell :=
  contents (walk (size (in_heap s)) (in_heap s) (cur_block_ s)).

Lemma shape_contents pre suf s :
  shape s pre suf → input_contents s = contents suf.*2.
Proof.
  intros [Hc _ Hcur _ _ _ _ _]. unfold input_contents. rewrite Hcur.
  rewrite (chain_walk _ pre suf); [done|done|].
  rewrite (chain_size _ _ Hc), length_app. lia.
Qed.

(** A block that is read to its end is full, hence not the last. *)
Lemma spent_not_last h f c l pre p b rest :
  input_shape h f c l pre ((p, b) :: rest) → begin b = kBlockSize → rest ≠ [].
Proof.
  intros [_ _ _ _ _ Hok Hfill _] Hb ->. apply Forall_inv in Hok.
  csimpl in Hfill. unfold block_ok in Hok. simpl in *. lia.
Qed.

Lemma wp_advance_if_spent pre p b rest (Q : unit → InputBuffer → Prop) s :
  shape s pre ((p, b) :: rest) →
  (∀ c' pre' suf', let s' := set_cur_block c' s in
    shape s' pre' suf' → settled suf' →
    contents suf'.*2 = contents ((p, b) :: rest).*2 →
    suf' = (if decide (begin b = kBlockSize) then rest else (p, b) :: rest) → Q tt s') →
  wp advance_if_spent Q s.
Proof.
  intros Hs HQ. destruct (shape_cur_inv _ _ Hs) as (? & ? & ? & [= <- <- <-] & Hc & Hh & Hok & Hn).
  unfold advance_if_spent. wp_steps. rewrite Hc. eapply wp_deref; [done|].
  destruct (decide (begin b = kBlockSize ∧ next b ≠ None)) as [Hd|Hd].
  - destruct Hd as [Hb _]. pose proof (spent_not_last _ _ _ _ _ _ _ _ Hs Hb) as Hne.
    destruct (shape_advance _ _ _ _ Hs Hb Hne) as (Hs' & Hct & Hset).
    wp_steps. eapply HQ; [done|done|done|]. by rewrite decide_True.
  - wp_steps. specialize (HQ (cur_block_ s) pre ((p, b) :: rest)). simpl in HQ.
    assert (begin b ≠ kBlockSize) as Hb.
    { intros Hb. pose proof (spent_not_last _ _ _ _ _ _ _ _ Hs Hb) as Hne. apply Hd.
      split; [done|]. rewrite Hn. by destruct rest. }
    destruct s. simpl in *. apply HQ; [done| |done|by rewrite decide_False].
    unfold block_ok in Hok. lia.
Qed.

(** ** Receiving *)
Lemma input_inv_new : input_inv InputBuffer_new ∧ input_contents InputBuffer_new = [].
Proof.
  assert (shape InputBuffer_new [] [(1%positive, new_block)]) as Hs.
  { split; try done.
    - by apply chain_singleton.
    - apply Forall_singleton, new_block_ok. }
  split; [|done]. exists [], [(1%positive, new_block)]. by split_and!.
Qed.

Lemma u64_mod_block z : (u64 z mod kBlockSize = z mod kBlockSize)%Z.
Proof.
  rewrite kBlockSize_val. unfold u64. apply Z.mod_mod_divide. by exists (2 ^ 51)%Z.
Qed.

(** The position after [k] more bytes of the current block. *)
Lemma aligned_consume {h f c l} pre p b rest suf' k consumed :
  input_shape h f c l pre ((p, set_begin (begin b + k) b) :: rest) →
  aligned consumed ((p, b) :: rest) →
  suf' = (if decide (begin b + k = kBlockSize)%Z then rest
          else (p, set_begin (begin b + k) b) :: rest) →
  aligned (u64 (consumed + k)) suf'.
Proof.
  intros Hs Hal ->. simpl in Hal. pose proof (shape_ok Hs) as Hok.
  apply Forall_inv in Hok as (Hb1 & Hb2 & _). simpl in Hb1, Hb2.
  pose proof kBlockSize_val as HK.
  case_decide as Hd.
  - pose proof (spent_not_last _ _ _ _ _ _ _ _ Hs Hd) as Hne.
    pose proof (shape_unread Hs) as Hun. destruct rest as [|[q b'] rest]; [done|].
    apply Forall_inv in Hun. simpl in *. rewrite Hun, u64_mod_block, Z.add_mod by lia.
    rewrite <-Hal, <-Zplus_mod_idemp_l, Zplus_mod_idemp_r. rewrite Zplus_mod_idemp_l, Hd.
    by rewrite Z_mod_same_full.
  - simpl. rewrite u64_mod_block, <-Zplus_mod_idemp_l, <-Hal. rewrite Z.mod_small; lia.
Qed.

(** [src] has been stored behind the contents of the last block; reporting it
    makes it part of the contents. *)
Lemma wp_recv_add_last (src : list cell) pre ini p b d (Q : unit → InputBuffer → Prop) s :
  shape s pre (ini ++ [(p, b)]) → src ≠ [] → write_cells (data b) (end_ b) src = Some d →
  (∀ s' suf', shape s' pre suf' → (settled (ini ++ [(p, b)]) → settled suf') →
    (∀ k, aligned k (ini ++ [(p, b)]) → aligned k suf') →
    contents suf'.*2 = contents (ini ++ [(p, b)]).*2 ++ src →
    read_bytes_ s' = u64 (read_bytes_ s + length src) →
    limit_ s' = limit_ s → consumed_bytes_ s' = consumed_bytes_ s → Q tt s') →
  wp (InputBuffer_recv_add (length src)) Q (with_heap (<[p := set_data d b]> (in_heap s)) s).
Proof.
  intros Hs Hne Hd HQ.
  destruct (shape_last_inv _ _ Hs) as (i & p' & b' & Heq & Hl & Hp & Hok & He).
  apply app_inj_tail in Heq as [<- [= <- <-]].
  assert (0 < length src) by (destruct src; simpl; [done|lia]).
  pose proof (length_write_cells _ _ _ _ Hd) as Hlen.
  assert (end_ b + length src ≤ kBlockSize)%Z as Hroom.
  { unfold write_cells in Hd. case_decide; [|done]. unfold block_ok in Hok. lia. }
  set (b1 := set_end (end_ b + length src) (set_data d b)).
  assert (block_ok b1) as Hok1 by (unfold block_ok in *; simpl in *; lia).
  assert (slice b1 = slice b ++ src) as Hsl by by apply slice_append.
  unfold InputBuffer_recv_add. rewrite decide_True by lia. wp_steps. rewrite Hl in Hs |- *.
  eapply wp_deref; [by apply lookup_insert_eq|]. wp_steps.
  apply wp_int32; [unfold block_ok in Hok; simpl; blia|]. wp_steps.
  eapply wp_store; [by apply lookup_insert_eq|]. wp_steps.
  rewrite insert_insert_eq. fold b1. case_decide as He1.
  - wp_steps. apply wp_alloc. intros q Hq. simpl in Hq. wp_steps.
    assert (p ≠ q) as Hpq by (intros ->; by rewrite lookup_insert_eq in Hq).
    eapply wp_store; [simpl; rewrite lookup_insert_ne by done; by apply lookup_insert_eq|].
    wp_steps. eapply HQ; [by apply (shape_snoc_last Hs b1)| | | |done|done|done].
    + by destruct ini.
    + by destruct ini.
    + rewrite !fmap_app, !contents_app. csimpl. rewrite !contents_cons.
      rewrite slice_set_next, Hsl, slice_new_block. unfold contents. csimpl.
      by rewrite !app_nil_r, app_assoc.
  - wp_steps. eapply HQ; [apply (shape_update_last Hs b1); try done| | | |done|done|done].
    + unfold b1, block_ok in *. simpl in *. lia.
    + by destruct ini.
    + by destruct ini.
    + rewrite !fmap_app, !contents_app. csimpl.
      by rewrite !contents_singleton, Hsl, app_assoc.
Qed.

(** Storing [src] at the end of the last block and reporting it. *)
Lemma wp_fill_last (src : list cell) pre ini p b (Q : unit → InputBuffer → Prop) s :
  shape s pre (ini ++ [(p, b)]) → src ≠ [] → (end_ b + length src ≤ kBlockSize)%Z →
  (∀ s' suf', shape s' pre suf' → (settled (ini ++ [(p, b)]) → settled suf') →
    (∀ k, aligned k (ini ++ [(p, b)]) → aligned k suf') →
    contents suf'.*2 = contents (ini ++ [(p, b)]).*2 ++ src →
    read_bytes_ s' = u64 (read_bytes_ s + length src) →
    limit_ s' = limit_ s → consumed_bytes_ s' = consumed_bytes_ s → Q tt s') →
  wp (write_span (mkSpan (Some p) (end_ b) (kBlockSize - end_ b)) src;;
      InputBuffer_recv_add (length src)) Q s.
Proof.
  intros Hs Hne Hroom HQ.
  destruct (shape_last_inv _ _ Hs) as (i & p' & b' & Heq & Hl & Hp & Hok & He).
  apply app_inj_tail in Heq as [<- [= <- <-]].
  destruct (write_cells (data b) (end_ b) src) as [d|] eqn:Hd;
    [|unfold write_cells, block_ok in *; case_decide; [done|lia]].
  apply wp_bind. unfold write_span. wp_steps. eapply wp_deref; [done|].
  wp_steps. eapply wp_in_bounds; [done|]. eapply wp_store; [done|].
  by eapply wp_recv_add_last.
Qed.

(** ** Specifications of the operations *)

(** Unread bytes of the current block. *)
Definition current_avail (s : InputBuffer) : Z :=
  match walk (size (in_heap s)) (in_heap s) (cur_block_ s) with
  | [] => 0
  | b :: _ => end_ b - begin b
  end.

Lemma shape_current_avail pre p b rest s :
  shape s pre ((p, b) :: rest) → current_avail s = (end_ b - begin b)%Z.
Proof.
  intros [Hc _ Hcur _ _ _ _ _]. unfold current_avail. rewrite Hcur.
  rewrite (chain_walk _ pre ((p, b) :: rest)); [done|done|].
  rewrite (chain_size _ _ Hc), length_app. lia.
Qed.

(** The bytes of the current block that have been read already. *)
Definition current_read (s : InputBuffer) : list cell :=
  match walk (size (in_heap s)) (in_heap s) (cur_block_ s) with
  | [] => []
  | b :: _ => take (Z.to_nat (begin b)) (data b)
  end.

Lemma shape_current_read pre p b rest s :
  shape s pre ((p, b) :: rest) → current_read s = take (Z.to_nat (begin b)) (data b).
Proof.
  intros [Hc _ Hcur _ _ _ _ _]. unfold current_read. rewrite Hcur.
  rewrite (chain_walk _ pre ((p, b) :: rest)); [done|done|].
  rewrite (chain_size _ _ Hc), length_app. lia.
Qed.

(** An exhausted current block that is settled is the last one. *)
Lemma shape_nonempty_avail h f c l pre p b rest :
  input_shape h f c l pre ((p, b) :: rest) → settled ((p, b) :: rest) →
  begin b = end_ b → contents (b :: rest.*2) = [].
Proof.
  intros [_ _ _ _ _ Hok Hfill _] Hset Hbe. apply Forall_cons in Hok as [Hb _].
  simpl in Hset. destruct rest as [|r rest].
  - csimpl. rewrite contents_singleton. unfold slice.
    by replace (end_ b - begin b)%Z with 0%Z by lia.
  - csimpl in Hfill. lia.
Qed.

Lemma current_avail_pos s :
  input_inv s → input_contents s ≠ [] → (0 < current_avail s)%Z.
Proof.
  intros (pre & suf & Hs & Hset & _ & _) Hne.
  destruct (shape_cur_inv _ _ Hs) as (p & b & rest & -> & _ & _ & Hok & _).
  rewrite (shape_current_avail _ _ _ _ _ Hs). rewrite (shape_contents _ _ _ Hs) in Hne.
  destruct (decide (begin b = end_ b)) as [Hbe|Hbe].
  - by apply (shape_nonempty_avail _ _ _ _ _ _ _ _ Hs Hset) in Hbe.
  - unfold block_ok in Hok. lia.
Qed.

(** The room [get_buffer] offers is never empty, and bytes stored there and
    reported to [recv_add] are appended to the contents. *)
Lemma InputBuffer_receive s :
  input_inv s →
  wp InputBuffer_get_buffer (λ sp s1, s1 = s ∧ (0 < sp_len sp ≤ kBlockSize)%Z ∧
    ∀ bytes, bytes ≠ [] → (length bytes ≤ sp_len sp)%Z →
      wp (write_span sp bytes;; InputBuffer_recv_add (length bytes))
        (λ _ s', input_inv s' ∧ input_contents s' = input_contents s ++ bytes ∧
                 limit_ s' = limit_ s ∧ consumed_bytes_ s' = consumed_bytes_ s) s) s.
Proof.
  intros (pre & suf & Hs & Hset & Hrb & Hlim & Hal).
  destruct (shape_last_inv _ _ Hs) as (ini & p & b & -> & Hl & Hp & Hok & He).
  unfold InputBuffer_get_buffer. wp_steps. rewrite Hl. eapply wp_deref; [done|]. wp_steps.
  apply wp_int32; [unfold block_ok in Hok; blia|]. wp_steps.
  split_and!; [done|lia|unfold block_ok in Hok; lia|].
  intros bytes Hne Hlen. eapply wp_fill_last; [done|done|lia|].
  intros s' suf' Hs' Hset' Hal' Hct Hrb' Hlim' Hcb'. split_and!; [|..|done|done].
  - exists pre, suf'. split_and!; [done|by apply Hset'| |lia|lia|rewrite Hcb'; by apply Hal'].
    rewrite Hrb', Hrb, Hct. by apply u64_count_add.
  - by rewrite (shape_contents _ _ _ Hs), (shape_contents _ _ _ Hs').
Qed.

(** Reading [size] more bytes of the current block, and leaving it when that
    was the rest of it. *)
Lemma current_read_consume s s' pre pre' p b rest suf' size :
  shape s pre ((p, b) :: rest) → (0 ≤ size ≤ end_ b - begin b)%Z →
  shape s' pre' suf' → settled suf' →
  suf' = (if decide (begin b + size = kBlockSize)%Z then rest
          else (p, set_begin (begin b + size) b) :: rest) →
  let read := take (Z.to_nat (begin b)) (data b) ++ take (Z.to_nat size) (slice b) in
  current_read s' = (if decide ((length read : Z) = kBlockSize) then [] else read).
Proof.
  intros Hs Hsize Hs' Hset' Hsuf' read.
  assert (block_ok b) as Hok by (pose proof (shape_ok Hs) as H; by apply Forall_inv in H).
  assert (read = take (Z.to_nat (begin b + size)) (data b)) as ->.
  { unfold read. unfold block_ok in Hok. rewrite <-slice_prefix by (done || lia).
    rewrite take_take_drop. f_equal. lia. }
  rewrite length_take. unfold block_ok in Hok.
  destruct (decide (begin b + size = kBlockSize)%Z) as [Hk|Hk]; subst suf'.
  - rewrite decide_True by lia. destruct rest as [|[p' b'] rest]; [done|].
    erewrite shape_current_read by exact Hs'.
    pose proof (shape_unread Hs) as Hun. apply Forall_inv in Hun. simpl in Hun.
    by rewrite Hun.
  - rewrite decide_False by lia. by erewrite shape_current_read by exact Hs'.
Qed.

(** [next] hands out a non-empty prefix of the contents, within the limit, or
    fails without effect because nothing is left or the limit is reached. *)
Lemma InputBuffer_next_spec s :
  input_inv s →
  wp InputBuffer_next (λ r s', input_inv s' ∧
    match r with
    | None => s' = s ∧ (input_contents s = [] ∨ limit_ s = 0%Z)
    | Some sp => ∃ bytes,
        wp (read_span sp) (λ bs s'', bs = bytes ∧ s'' = s') s' ∧
        bytes ≠ [] ∧ input_contents s = bytes ++ input_contents s' ∧
        (length bytes : Z) = Z.min (current_avail s) (limit_ s) ∧
        limit_ s' = (if decide (limit_ s = INT32_MAX) then INT32_MAX
                     else limit_ s - length bytes)%Z ∧
        consumed_bytes_ s' = u64 (consumed_bytes_ s + length bytes) ∧
        sp_len sp = length bytes ∧
        current_read s' =
          (if decide ((length (current_read s ++ bytes) : Z) = kBlockSize) then []
           else current_read s ++ bytes)
    end) s.
Proof.
  intros (pre & suf & Hs & Hset & Hrb & Hlim & Hal).
  destruct (shape_cur_inv _ _ Hs) as (p & b & rest & -> & Hc & Hp & Hok & Hn).
  pose proof Hok as [Hb1 [Hb2 Hb3]].
  unfold InputBuffer_next. wp_steps. rewrite Hc. eapply wp_deref; [done|]. wp_steps.
  case_decide as Hstop.
  { wp_steps. split; [by exists pre, ((p, b) :: rest)|]. split; [done|].
    destruct Hstop as [Hbe|]; [left|by right]. rewrite (shape_contents _ _ _ Hs).
    by eapply shape_nonempty_avail. }
  set (size := Z.min (end_ b - begin b) (limit_ s)).
  assert (0 < size ≤ end_ b - begin b)%Z as Hsize by lia.
  wp_steps. apply wp_int32; [blia|]. wp_steps.
  apply wp_int32; [case_decide; blia|]. wp_steps.
  apply wp_int32; [fold size; blia|]. wp_steps. fold size.
  eapply wp_store; [done|]. wp_steps.
  pose proof (shape_set_begin _ _ _ _ (begin b + size) Hs ltac:(lia)) as Hs1.
  pose proof (contents_consume size b rest.*2 Hok ltac:(lia)) as Hct.
  set (bytes := take (Z.to_nat size) (slice b)) in *.
  assert ((length bytes : Z) = size) as Hlen.
  { unfold bytes. rewrite length_take. pose proof (length_slice b Hok). lia. }
  eapply wp_advance_if_spent; [exact Hs1|]. intros c' pre' suf' s' Hs' Hset' Hct' Hsuf'.
  wp_steps. assert (contents ((p, b) :: rest).*2 = bytes ++ contents suf'.*2) as Hall.
  { rewrite Hct'. exact Hct. }
  split.
  { exists pre', suf'. split_and!; [done|done| | | |by eapply aligned_consume]; simpl.
    - rewrite Hrb, Hall. by apply u64_count_sub.
    - clear Hsuf'. case_decide; lia.
    - clear Hsuf'. case_decide; lia. }
  exists bytes. rewrite (shape_current_avail _ _ _ _ _ Hs).
  rewrite (shape_contents _ _ _ Hs).
  erewrite (shape_contents pre' suf') by exact Hs'.
  split_and!; simpl.
  - unfold read_span. wp_steps. eapply wp_deref; [simpl; by apply lookup_insert_eq|].
    eapply wp_in_bounds; [apply read_cells_Some; simpl; lia|]. split; [|done].
    apply (slice_prefix b); [done|lia].
  - intros Hnil. rewrite Hnil in Hlen. simpl in Hlen. lia.
  - done.
  - done.
  - clear Hsuf'. rewrite Hlen. case_decide; lia.
  - by rewrite Hlen.
  - done.
  - rewrite (shape_current_read _ _ _ _ _ Hs).
    eapply current_read_consume; [exact Hs|lia|exact Hs'|done|done].
Qed.

(** [fetch_uint32] with fewer than four unread bytes: [false], no effect. *)
Lemma InputBuffer_fetch_short value s :
  input_inv s → (length (input_contents s) < 4)%Z →
  InputBuffer_fetch_uint32 value s = Done ((false, value), s).
Proof.
  intros (pre & suf & Hs & _ & Hrb & _). rewrite (shape_contents _ _ _ Hs). intros Hlen.
  unfold InputBuffer_fetch_uint32. unfold mbind, M_bind, gets.
  rewrite decide_True; [done|]. rewrite Hrb, u64_small; lia.
Qed.

(** [fetch_uint32] when the current block holds the four bytes. *)
Lemma InputBuffer_fetch_spec value s :
  input_inv s → length value = 4 → (4 ≤ current_avail s)%Z →
  (length (input_contents s) < 2 ^ 64)%Z →
  wp (InputBuffer_fetch_uint32 value) (λ r s', input_inv s' ∧ r.1 = true ∧
    input_contents s = r.2 ++ input_contents s' ∧ length r.2 = 4 ∧
    limit_ s' = limit_ s ∧
    consumed_bytes_ s' = u64 (consumed_bytes_ s + 4)) s.
Proof.
  intros (pre & suf & Hs & Hset & Hrb & Hlim & Hal) Hv Hav Hsmall.
  destruct (shape_cur_inv _ _ Hs) as (p & b & rest & -> & Hc & Hp & Hok & Hn).
  rewrite (shape_current_avail _ _ _ _ _ Hs) in Hav.
  rewrite (shape_contents _ _ _ Hs) in Hsmall |- *.
  pose proof Hok as [Hb1 [Hb2 Hb3]].
  pose proof (contents_consume 4 b rest.*2 Hok ltac:(lia)) as Hct.
  assert (length (take (Z.to_nat 4) (slice b)) = 4) as Hlen.
  { rewrite length_take. pose proof (length_slice b Hok). lia. }
  assert (4 ≤ length (contents ((p, b) :: rest).*2))%Z as Hge.
  { change (contents ((p, b) :: rest).*2) with (contents (b :: rest.*2)).
    rewrite Hct, length_app. lia. }
  unfold InputBuffer_fetch_uint32. wp_steps.
  rewrite decide_False by (rewrite Hrb, u64_small; lia).
  wp_steps. rewrite Hc. eapply wp_deref; [done|]. wp_steps.
  apply wp_int32; [blia|]. wp_steps.
  replace (u64 ((end_ b - begin b) `min` 4)) with 4%Z by (rewrite u64_small; lia).
  eapply wp_in_bounds; [apply read_cells_Some; lia|]. wp_steps.
  rewrite slice_prefix by (done || lia). set (bytes := take (Z.to_nat 4) (slice b)) in *.
  eapply wp_in_bounds.
  { rewrite write_cells_Some by lia. rewrite Hlen, drop_ge by lia.
    by rewrite app_nil_r. }
  wp_steps. replace (to_int32 (u64 (begin b + 4))) with (begin b + 4)%Z
    by (rewrite u64_small, to_int32_small; blia).
  eapply wp_store; [done|]. wp_steps. 
  pose proof (shape_set_begin _ _ _ _ (begin b + 4) Hs ltac:(lia)) as Hs1.
  eapply wp_advance_if_spent; [exact Hs1|]. intros c' pre' suf' s' Hs' Hset' Hct' Hsuf'.
  wp_steps. erewrite (shape_contents pre' suf') by exact Hs'.
  assert (contents ((p, b) :: rest).*2 = bytes ++ contents suf'.*2) as Hall
    by (rewrite Hct'; exact Hct).
  split_and!; [|done|done|done|done|done].
  exists pre', suf'. split_and!; [done|done| |simpl; lia|simpl; lia|by eapply aligned_consume].
  simpl. rewrite Hrb, Hall. apply u64_count_sub. lia.
Qed.

(** [fetch_uint32] when the four bytes straddle two blocks: the second [memcpy]
    stores past the end of the caller's variable. *)
Lemma InputBuffer_fetch_straddle value s :
  input_inv s → length value = 4 → (current_avail s < 4)%Z →
  (4 ≤ length (input_contents s) < 2 ^ 64)%Z →
  InputBuffer_fetch_uint32 value s = Faulted OutOfBounds.
Proof.
  intros Hinv Hv Hav Hsmall.
  assert (0 < current_avail s)%Z as Hpos.
  { apply current_avail_pos; [done|]. intros Hnil. rewrite Hnil in Hsmall. simpl in *. lia. }
  destruct Hinv as (pre & suf & Hs & Hset & Hrb & Hlim & Hal).
  destruct (shape_cur_inv _ _ Hs) as (p & b & rest & -> & Hc & Hp & Hok & Hn).
  rewrite (shape_current_avail _ _ _ _ _ Hs) in Hav, Hpos.
  rewrite (shape_contents _ _ _ Hs) in Hsmall. pose proof Hok as [Hb1 [Hb2 Hb3]].
  set (k := (end_ b - begin b)%Z) in *.
  destruct rest as [|[p' b'] rest].
  { csimpl in Hsmall. rewrite contents_singleton in Hsmall.
    pose proof (length_slice b Hok). lia. }
  pose proof (shape_ok Hs) as Hoks. apply Forall_cons in Hoks as [_ Hoks].
  apply Forall_cons in Hoks as [[_ [_ Hb3']] _]. simpl in Hb3'.
  pose proof (shape_unread Hs) as Hun. apply Forall_inv in Hun. simpl in Hun.
  pose proof (shape_chain Hs) as Hch.
  assert (in_heap s !! p' = Some b') as Hp'.
  { apply (chain_lookup _ (pre ++ [(p, b)]) p' b' rest). by rewrite <-app_assoc. }
  assert (p ≠ p') as Hne.
  { intros <-. destruct Hch as (_ & Hnd & _). rewrite fmap_app in Hnd.
    apply NoDup_app in Hnd as (_ & _ & Hnd). csimpl in Hnd.
    apply NoDup_cons in Hnd as [Hnd _]. set_solver. }
  unfold InputBuffer_fetch_uint32.
  rewrite (bind_done _ _ _ (read_bytes_ s) s) by done.
  rewrite decide_False by (rewrite Hrb, u64_small; lia).
  rewrite (bind_done _ _ _ (Some p) s) by (unfold gets; by rewrite Hc).
  rewrite (bind_done _ _ _ b s) by (by apply deref_done).
  rewrite (bind_done _ _ _ k s) by (unfold int32; rewrite decide_True; [done|blia]).
  replace (u64 (k `min` 4)) with k by (rewrite u64_small; lia). cbv zeta.
  erewrite bind_done by (apply in_bounds_done, read_cells_Some; lia).
  rewrite slice_prefix by (done || lia).
  assert ((length (take (Z.to_nat k) (slice b)) : Z) = k) as Hlen.
  { rewrite length_take. pose proof (length_slice b Hok). lia. }
  erewrite bind_done by (apply in_bounds_done, write_cells_Some; lia).
  erewrite bind_done by (by apply store_done).
  rewrite decide_True by lia. unfold mbind at 1, M_bind at 1.
  erewrite bind_done by (apply deref_done; simpl; by apply lookup_insert_eq).
  erewrite bind_done by done. simpl next. rewrite Hn. csimpl.
  erewrite bind_done by (apply deref_done; simpl; rewrite lookup_insert_ne; done).
  erewrite bind_done by (apply in_bounds_done, read_cells_Some; blia).
  unfold mbind, M_bind, in_bounds, write_cells. rewrite decide_False; [done|].
  rewrite !length_app, !length_take, !length_drop. lia.
Qed.

(** The four bytes are in one block unless the position of the first is one of
    the last three of a block. *)
Lemma current_avail_aligned s :
  input_inv s → (4 ≤ length (input_contents s))%Z →
  (4 ≤ current_avail s)%Z ↔ (consumed_bytes_ s mod kBlockSize ≤ kBlockSize - 4)%Z.
Proof.
  intros (pre & suf & Hs & Hset & Hrb & Hlim & Hal) Hlen.
  destruct (shape_cur_inv _ _ Hs) as (p & b & rest & -> & Hc & Hp & (Hb1 & Hb2 & Hb3) & Hn).
  rewrite (shape_current_avail _ _ _ _ _ Hs). rewrite (shape_contents _ _ _ Hs) in Hlen.
  simpl in Hal. rewrite <-Hal. destruct rest as [|r rest].
  - csimpl in Hlen. rewrite contents_singleton in Hlen.
    pose proof (length_slice b ltac:(done)). lia.
  - destruct Hs as [_ _ _ _ _ _ Hfill _]. csimpl in Hfill. lia.
Qed.

(** The deallocation loop of [back_up] leaves exactly the blocks from the
    current one on. *)
Lemma wp_drop_spent pre suf fuel (Q : unit → InputBuffer → Prop) s :
  shape s pre suf → length pre < fuel →
  (∀ h, let s' := set_first_block (cur_block_ s) (with_heap h s) in
     shape s' [] suf → Q tt s') →
  wp (iter fuel (λ _ : unit,
        block ← gets first_block_;
        cur ← gets cur_block_;
        if decide (block = cur) then mret (inr tt)
        else
          b ← deref block;
          modify (set_first_block (next b));;
          delete_block block;;
          mret (inl tt)) tt) Q s.
Proof.
  intros Hs Hfuel HQ.
  apply (wp_iter
    (λ _ s1, ∃ pre1, shape s1 pre1 suf ∧ s1 = set_first_block (first_block_ s1) (with_heap (in_heap s1) s))
    (λ _ s1, size (in_heap s1) - length suf)).
  - intros [] s1 (pre1 & Hs1 & Heq). wp_steps.
    pose proof (shape_suf_ne _ _ Hs1) as Hne. destruct suf as [|[p b] rest]; [done|].
    pose proof Hs1 as [Hc Hf Hcur Hl Hsp Hok Hfill Hun].
    destruct pre1 as [|[q d] pre1].
    + simpl in Hf. rewrite decide_True by (by rewrite Hf, Hcur). wp_steps.
      assert (s1 = set_first_block (cur_block_ s) (with_heap (in_heap s1) s)) as Hs1'.
      { rewrite Heq. f_equal. rewrite Hf. rewrite Heq in Hcur. simpl in Hcur. by rewrite Hcur. }
      rewrite Hs1'. apply HQ. by rewrite <-Hs1'.
    + assert (q ≠ p) as Hqp.
      { destruct Hc as (_ & Hnd & _). csimpl in Hnd. apply NoDup_cons in Hnd as [Hni _].
        rewrite fmap_app in Hni. set_solver. }
      csimpl in Hf. csimpl in Hcur. rewrite decide_False by (rewrite Hf, Hcur; congruence).
      pose proof (chain_lookup _ [] _ _ _ Hc) as Hq.
      wp_steps. rewrite Hf. eapply wp_deref; [done|]. wp_steps.
      eapply wp_delete; [done|]. wp_steps. split.
      * exists pre1. split; [|by rewrite Heq]. split; simpl; try done.
        -- by eapply chain_delete_head.
        -- exact (chain_next _ [] _ _ _ Hc).
        -- by apply Forall_cons in Hsp as [_ Hsp].
      * rewrite map_size_delete_Some by eauto.
        rewrite (chain_size _ _ Hc). simpl. rewrite length_app. simpl. lia.
  - exists pre. split; [done|]. by destruct s.
  - rewrite (chain_size _ _ (shape_chain Hs)), length_app. lia.
Qed.

(** Un-reading [k] bytes of the current block. *)
Lemma contents_unread k b bs :
  block_ok b → (0 ≤ k ≤ begin b)%Z →
  contents (set_begin (begin b - k) b :: bs) =
    drop (Z.to_nat (begin b) - Z.to_nat k) (take (Z.to_nat (begin b)) (data b)) ++
    contents (b :: bs).
Proof.
  intros Hok Hk. assert (block_ok (set_begin (begin b - k) b)) as Hok'
    by (unfold block_ok in *; simpl in *; lia).
  rewrite (contents_consume k _ bs Hok') by (unfold block_ok in *; simpl in *; lia).
  simpl begin. f_equal.
  - rewrite skipn_firstn_comm. rewrite <-(slice_prefix _ k Hok') by (unfold block_ok in *; simpl in *; lia).
    simpl. f_equal; [lia|]. f_equal. lia.
  - destruct b. unfold set_begin. simpl. do 2 f_equal. f_equal. lia.
Qed.

(** [back_up] makes the last [n] read bytes of the current block unread again
    (all of them when there are fewer than [n]), and frees every block before
    the current one. *)
Lemma InputBuffer_back_up_spec fuel n s :
  input_inv s → (0 ≤ n ≤ INT32_MAX)%Z → size (in_heap s) < fuel →
  limit_ s = INT32_MAX ∨ (limit_ s + n ≤ INT32_MAX)%Z →
  wp (InputBuffer_back_up fuel n) (λ _ s', input_inv s' ∧
    let back := drop (length (current_read s) - Z.to_nat n) (current_read s) in
    input_contents s' = back ++ input_contents s ∧
    first_block_ s' = cur_block_ s' ∧ cur_block_ s' = cur_block_ s ∧
    consumed_bytes_ s' = u64 (consumed_bytes_ s - length back) ∧
    limit_ s' = (if decide (limit_ s = INT32_MAX) then INT32_MAX
                 else limit_ s + length back)%Z) s.
Proof.
  intros (pre & suf & Hs & Hset & Hrb & Hlim & Hal) Hn Hfuel Hroom.
  destruct (shape_cur_inv _ _ Hs) as (p & b & rest & -> & Hc & Hp & Hok & Hnx).
  pose proof Hok as [Hb1 [Hb2 Hb3]].
  rewrite (shape_current_read _ _ _ _ _ Hs), (shape_contents _ _ _ Hs).
  set (k := Z.min n (begin b)). assert (0 ≤ k ≤ begin b)%Z as Hk by lia.
  pose proof (contents_unread k b rest.*2 Hok Hk) as Hct.
  set (read := take (Z.to_nat (begin b)) (data b)) in *.
  assert ((length read : Z) = begin b) as Hlen by (unfold read; rewrite length_take; lia).
  replace (Z.to_nat (begin b) - Z.to_nat k) with (length read - Z.to_nat n) in Hct by lia.
  set (back := drop (length read - Z.to_nat n) read) in *.
  assert ((length back : Z) = k) as Hback by (unfold back; rewrite length_drop; lia).
  unfold InputBuffer_back_up. wp_steps. rewrite Hc. eapply wp_deref; [done|]. wp_steps.
  fold k. apply wp_int32; [blia|]. wp_steps. eapply wp_store; [done|]. wp_steps.
  apply wp_int32; [case_decide; blia|]. wp_steps.
  pose proof (shape_set_begin _ _ _ _ (begin b - k) Hs ltac:(lia)) as Hs1.
  eapply (wp_drop_spent pre); [exact Hs1| |].
  { rewrite (chain_size _ _ (shape_chain Hs)), length_app in Hfuel. lia. }
  intros h s' Hs'. erewrite (shape_contents [] _ s') by exact Hs'. cbv zeta. split_and!.
  - eexists [], _. split_and!; [exact Hs'|simpl in Hset |- *; lia| | | |]; simpl.
    + rewrite Hrb. csimpl. rewrite Hct, <-Hback, u64_add_l, length_app. f_equal. lia.
    + case_decide; lia.
    + case_decide; lia.
    + simpl in Hset, Hal. rewrite u64_mod_block, <-Zminus_mod_idemp_l, <-Hal, Z.mod_small; lia.
  - exact Hct.
  - simpl. by rewrite Hc.
  - done.
  - simpl. by rewrite Hback.
  - simpl. rewrite Hback. case_decide; lia.
Qed.

(** One round of [skip] consumes what it can of the current block. *)
Lemma wp_skip_step n s :
  input_inv s → (0 < n ≤ INT32_MAX)%Z →
  wp (InputBuffer_skip_step n) (λ r s', input_inv s' ∧ ∃ bytes,
    r = inl (n - length bytes)%Z ∧ (length bytes : Z) = Z.min n (current_avail s) ∧
    input_contents s = bytes ++ input_contents s' ∧
    consumed_bytes_ s' = u64 (consumed_bytes_ s + length bytes)) s.
Proof.
  intros (pre & suf & Hs & Hset & Hrb & Hlim & Hal) Hn.
  destruct (shape_cur_inv _ _ Hs) as (p & b & rest & -> & Hc & Hp & Hok & Hnx).
  pose proof Hok as [Hb1 [Hb2 Hb3]].
  rewrite (shape_current_avail _ _ _ _ _ Hs), (shape_contents _ _ _ Hs).
  set (k := Z.min n (end_ b - begin b)). assert (0 ≤ k ≤ end_ b - begin b)%Z as Hk by lia.
  pose proof (contents_consume k b rest.*2 Hok Hk) as Hct.
  set (bytes := take (Z.to_nat k) (slice b)) in *.
  assert ((length bytes : Z) = k) as Hlen.
  { unfold bytes. rewrite length_take. pose proof (length_slice b Hok). lia. }
  unfold InputBuffer_skip_step. rewrite decide_True by lia.
  wp_steps. rewrite Hc. eapply wp_deref; [done|]. wp_steps.
  apply wp_int32; [blia|]. wp_steps. fold k. apply wp_int32; [blia|]. wp_steps.
  eapply wp_store; [done|]. wp_steps. apply wp_int32; [blia|]. wp_steps.
  eapply wp_advance_if_spent; [exact (shape_set_begin _ _ _ _ (begin b + k) Hs ltac:(lia))|].
  intros c' pre' suf' s' Hs' Hset' Hct' Hsuf'. wp_steps.
  assert (contents ((p, b) :: rest).*2 = bytes ++ contents suf'.*2) as Hall
    by (rewrite Hct'; exact Hct).
  split.
  - exists pre', suf'.
    split_and!; [done|done| |simpl; lia|simpl; lia|
      eapply aligned_consume; [apply (shape_set_begin _ _ _ _ _ Hs); lia|done|done]].
    simpl. rewrite Hrb, Hall. by apply u64_count_sub.
  - exists bytes. rewrite Hlen. erewrite (shape_contents pre' suf') by exact Hs'. done.
Qed.

(** [skip n] drops the next [n] bytes, when that many are unread and at least
    that many have been consumed before. *)
Lemma InputBuffer_skip_spec (fuel : nat) n s :
  input_inv s → (0 ≤ n ≤ INT32_MAX)%Z → (n ≤ length (input_contents s))%Z →
  (n ≤ InputBuffer_byte_count s)%Z → (n < fuel)%Z →
  wp (InputBuffer_skip fuel n) (λ r s', r = true ∧ input_inv s' ∧
    input_contents s' = drop (Z.to_nat n) (input_contents s) ∧
    u64 (consumed_bytes_ s') = u64 (consumed_bytes_ s + n)) s.
Proof.
  intros Hinv Hn Hlen Hbc Hfuel. unfold InputBuffer_skip. wp_steps.
  rewrite decide_False by lia.
  apply (wp_iter (λ m s1, input_inv s1 ∧ (0 ≤ m ≤ n)%Z ∧
    u64 (consumed_bytes_ s1 + m) = u64 (consumed_bytes_ s + n) ∧
    ∃ bytes, input_contents s = bytes ++ input_contents s1 ∧
      (length bytes : Z) = (n - m)%Z) (λ m _, Z.to_nat m)).
  - intros m s1 (Hinv1 & Hm & Hz & bytes & Hct & Hb).
    destruct (decide (0 < m)%Z) as [Hpos|Hpos].
    + eapply wp_mono; [apply wp_skip_step; [done|lia]|].
      intros r s2 (Hinv2 & bytes2 & -> & Hl2 & Hct2 & Hc2).
      assert (0 < length bytes2)%Z.
      { rewrite Hl2. apply Z.min_glb_lt; [lia|]. apply current_avail_pos; [done|].
        intros Hnil. rewrite Hct, Hnil, app_nil_r in Hlen. lia. }
      split; [|lia]. split_and!; [done|lia|lia| |].
      * rewrite Hc2, u64_add_l, <-Hz. f_equal. lia.
      * exists (bytes ++ bytes2). rewrite <-app_assoc, <-Hct2, length_app. split; [done|lia].
    + unfold InputBuffer_skip_step. rewrite decide_False by lia. wp_steps.
      assert (m = 0%Z) as -> by lia. split_and!; [done|done| |].
      * rewrite Hct. by rewrite drop_app_length' by lia.
      * by rewrite Z.add_0_r in Hz.
  - split_and!; [done|lia|lia|done|]. exists []. split; [done|simpl; lia].
  - lia.
Qed.

(** [skip] compares its argument with the bytes consumed so far, not with the
    bytes there are to skip: asked for more than are unread, it never returns. *)
Lemma InputBuffer_skip_diverges (fuel : nat) n s :
  input_inv s → (n ≤ INT32_MAX)%Z → (length (input_contents s) < n)%Z →
  (n ≤ InputBuffer_byte_count s)%Z → InputBuffer_skip fuel n s = OutOfFuel.
Proof.
  intros Hinv Hn Hlen Hbc. unfold InputBuffer_skip. rewrite (bind_done _ _ _ _ _ eq_refl).
  rewrite decide_False by lia.
  apply (iter_diverges (λ m s1, input_inv s1 ∧ (length (input_contents s1) < m ≤ INT32_MAX)%Z));
    [|done].
  intros m s1 [Hinv1 Hm].
  pose proof (wp_skip_step m s1 Hinv1 ltac:(lia)) as Hwp. apply wp_done in Hwp.
  destruct Hwp as (r & s2 & Hrun & Hinv2 & bytes & -> & Hl & Hct & _).
  exists (m - length bytes)%Z, s2. split; [done|]. split; [done|].
  rewrite Hct, length_app in Hm. lia.
Qed.

(** ... and asked for bytes that are there, it refuses when fewer have been
    consumed before. *)
Lemma InputBuffer_skip_refuses fuel n s :
  (InputBuffer_byte_count s < n)%Z → InputBuffer_skip fuel n s = Done (false, s).
Proof.
  intros Hbc. unfold InputBuffer_skip. rewrite (bind_done _ _ _ _ _ eq_refl).
  by rewrite decide_True.
Qed.

(** The destructor frees every block, each once. *)
Lemma InputBuffer_destroy_spec fuel s :
  input_inv s → size (in_heap s) < fuel →
  wp (InputBuffer_destroy fuel) (λ _ s', in_heap s' = ∅) s.
Proof.
  intros (pre & suf & [Hc Hf _ _ _ _ _ _] & _) Hfuel.
  apply (wp_iter (λ _ s1, ∃ ns, chain (in_heap s1) ns ∧ first_block_ s1 = head ns.*1)
    (λ _ s1, size (in_heap s1))); [|by eauto|done].
  intros [] s1 (ns & Hc1 & Hf1). wp_steps. rewrite Hf1. destruct ns as [|[p b] ns]; csimpl.
  - wp_steps. by apply chain_nil in Hc1.
  - pose proof (chain_lookup _ [] _ _ _ Hc1) as Hp. wp_steps.
    eapply wp_deref; [done|]. wp_steps. eapply wp_delete; [done|]. wp_steps. split.
    + exists ns. split; [by eapply chain_delete_head|]. exact (chain_next _ [] _ _ _ Hc1).
    + rewrite map_size_delete_Some by eauto. rewrite (chain_size _ _ Hc1). simpl. lia.
Qed.
