(* ===== verification/OutputStream.v ===== *)
(** * The send buffer (util/output_stream.h, util/output_stream.cc)

    [OutputBuffer] is the byte queue between the serializers and [writev]:
    [append] and protobuf's [Next]/[BackUp] protocol put bytes in at the end,
    [get_iovecs] describes the unsent bytes and [send_add] takes those out that
    were sent.  [NetOutputStream] is the view of the buffer that implements
    protobuf's [ZeroCopyOutputStream]. *)
From S2P Require Import Prelude Block Segments.

(** ** Model *)
Record OutputBuffer := mkOutput {
  out_heap : heap;             (** the blocks the buffer has allocated *)
  out_cur_block_ : ptr;
  out_last_block_ : ptr;
  to_write_bytes_ : Z;         (** [size_t] *)
  total_bytes_ : Z;            (** [size_t] *)
}.

#[export] Instance OutputBuffer_heap : HasHeap OutputBuffer := {
  heap_of := out_heap;
  with_heap h s := mkOutput h (out_cur_block_ s) (out_last_block_ s)
                     (to_write_bytes_ s) (total_bytes_ s);
}.

Definition set_out_cur (p : ptr) (s : OutputBuffer) : OutputBuffer :=
  mkOutput (out_heap s) p (out_last_block_ s) (to_write_bytes_ s) (total_bytes_ s).
Definition set_out_last (p : ptr) (s : OutputBuffer) : OutputBuffer :=
  mkOutput (out_heap s) (out_cur_block_ s) p (to_write_bytes_ s) (total_bytes_ s).
Definition set_to_write (z : Z) (s : OutputBuffer) : OutputBuffer :=
  mkOutput (out_heap s) (out_cur_block_ s) (out_last_block_ s) z (total_bytes_ s).
Definition set_total (z : Z) (s : OutputBuffer) : OutputBuffer :=
  mkOutput (out_heap s) (out_cur_block_ s) (out_last_block_ s) (to_write_bytes_ s) z.

(** [OutputBuffer::OutputBuffer] *)
Definition OutputBuffer_new : OutputBuffer :=
  mkOutput {[ 1%positive := new_block ]} (Some 1%positive) (Some 1%positive) 0 0.

(** [OutputBuffer::~OutputBuffer] *)
Definition OutputBuffer_destroy (fuel : nat) : M OutputBuffer unit :=
  iter fuel (λ _ : unit,
    cur ← gets out_cur_block_;
    match cur with
    | None => mret (inr tt)
    | Some _ =>
        b ← deref cur;
        delete_block cur;;
        modify (set_out_cur (next b));;
        mret (inl tt)
    end) tt.

(** [last_block_->next = new BufferBlock; last_block_ = last_block_->next] *)
Definition extend : M OutputBuffer unit :=
  last ← gets out_last_block_;
  l' ← alloc_block;
  store last (set_next l');;
  modify (set_out_last l').

(** [OutputBuffer::next]; it always succeeds. *)
Definition OutputBuffer_next : M OutputBuffer span :=
  last ← gets out_last_block_;
  b ← deref last;
  (if decide (end_ b = kBlockSize) then extend else mret tt);;
  last ← gets out_last_block_;
  b ← deref last;
  size ← int32 (kBlockSize - end_ b);
  tw ← gets to_write_bytes_;
  modify (set_to_write (u64 (tw + size)));;
  tb ← gets total_bytes_;
  modify (set_total (u64 (tb + size)));;
  e ← int32 (end_ b + size);
  store last (set_end e);;
  mret (mkSpan last (end_ b) size).

(** [OutputBuffer::back_up] *)
Definition OutputBuffer_back_up (count : Z) : M OutputBuffer unit :=
  last ← gets out_last_block_;
  b ← deref last;
  let to_backup := Z.min count (end_ b) in
  tw ← gets to_write_bytes_;
  modify (set_to_write (u64 (tw - to_backup)));;
  tb ← gets total_bytes_;
  modify (set_total (u64 (tb - to_backup)));;
  e ← int32 (end_ b - to_backup);
  store last (set_end e).

(** One round of the loop of [OutputBuffer::append]; [src] is what is left of the
    caller's bytes, so [size] is its length. *)
Definition OutputBuffer_append_step (src : list cell) : M OutputBuffer (list cell + unit) :=
  if decide (0 < length src)%Z then
    last ← gets out_last_block_;
    b ← deref last;
    room ← int32 (kBlockSize - end_ b);
    let to_write := Z.min (length src) room in
    chunk ← in_bounds (read_cells src 0 to_write);
    d ← in_bounds (write_cells (data b) (end_ b) chunk);
    store last (set_data d);;
    e ← int32 (end_ b + to_write);
    store last (set_end e);;
    tw ← gets to_write_bytes_;
    modify (set_to_write (u64 (tw + to_write)));;
    (if decide (e = kBlockSize) then extend else mret tt);;
    mret (inl (drop (Z.to_nat to_write) src))
  else mret (inr tt).

(** [OutputBuffer::append] *)
Definition OutputBuffer_append (fuel : nat) (src : list cell) : M OutputBuffer unit :=
  iter fuel OutputBuffer_append_step src.

(** [IOV_MAX] of <limits.h> on Linux *)
Definition IOV_MAX : Z := 1024.

(** [OutputBuffer::get_iovecs] *)
Definition OutputBuffer_get_iovecs (fuel : nat) : M OutputBuffer (list span) :=
  cur ← gets out_cur_block_;
  iter fuel (λ '(block, iovs),
    match block with
    | None => mret (inr iovs)
    | Some _ =>
        if decide (length iovs < IOV_MAX)%Z then
          b ← deref block;
          size ← int32 (end_ b - begin b);
          mret (inl (next b, iovs ++ [mkSpan block (begin b) (u64 size)]))
        else mret (inr iovs)
    end) (cur, []).

(** One round of the loop of [OutputBuffer::send_add]. *)
Definition OutputBuffer_send_step (left : Z) : M OutputBuffer (Z + unit) :=
  if decide (0 < left)%Z then
    cur ← gets out_cur_block_;
    b ← deref cur;
    avail ← int32 (end_ b - begin b);
    let cur_write := Z.min left avail in
    left' ← int32 (left - cur_write);
    bg ← int32 (begin b + cur_write);
    store cur (set_begin bg);;
    (if decide (bg = kBlockSize) then
       b ← deref cur;
       (if decide (next b = None) then extend else mret tt);;
       b ← deref cur;
       delete_block cur;;
       modify (set_out_cur (next b))
     else mret tt);;
    mret (inl left')
  else mret (inr tt).

(** [OutputBuffer::send_add] *)
Definition OutputBuffer_send_add (fuel : nat) (nwrite : Z) : M OutputBuffer unit :=
  if decide (nwrite ≤ 0)%Z then mret tt
  else
    tw ← gets to_write_bytes_;
    modify (set_to_write (u64 (tw - nwrite)));;
    iter fuel OutputBuffer_send_step nwrite.

(** [OutputBuffer::bytes], [OutputBuffer::byte_count] *)
Definition OutputBuffer_bytes (s : OutputBuffer) : Z := to_write_bytes_ s.
Definition OutputBuffer_byte_count (s : OutputBuffer) : Z := to_int64 (to_write_bytes_ s).

(** ** Representation invariant *)

Abbreviation output_shape h c l ns := (buf_shape (λ _, True) h c c l [] ns).
Abbreviation oshape s ns :=
  (output_shape (out_heap s) (out_cur_block_ s) (out_last_block_ s) ns).

Definition output_inv (s : OutputBuffer) : Prop :=
  ∃ ns, oshape s ns ∧ settled ns ∧ to_write_bytes_ s = u64 (length (contents ns.*2)).

(** The abstract value of a send buffer: the bytes not yet sent, oldest first. *)
Definition output_contents (s : OutputBuffer) : list cell :=
  contents (walk (size (out_heap s)) (out_heap s) (out_cur_block_ s)).

Lemma oshape_contents ns s : oshape s ns → output_contents s = contents ns.*2.
Proof.
  intros [Hc _ Hcur _ _ _ _ _]. unfold output_contents. rewrite Hcur.
  rewrite (chain_walk _ [] ns); [done|done|]. by rewrite (chain_size _ _ Hc).
Qed.

Lemma output_inv_new : output_inv OutputBuffer_new ∧ output_contents OutputBuffer_new = [].
Proof.
  split; [|done]. exists [(1%positive, new_block)]. split_and!; [|done|done].
  split; try done.
  - by apply chain_singleton.
  - apply Forall_singleton, new_block_ok.
Qed.

(** The last block is full: an empty one is linked behind it. *)
Lemma wp_extend ini p b (Q : unit → OutputBuffer → Prop) s :
  oshape s (ini ++ [(p, b)]) → end_ b = kBlockSize →
  (∀ h q, let s' := set_out_last (Some q) (with_heap h s) in
    oshape s' (ini ++ [(p, set_next (Some q) b); (q, new_block)]) →
    h !! p = Some (set_next (Some q) b) → Q tt s') →
  wp extend Q s.
Proof.
  intros Hs He HQ.
  destruct (shape_last_inv _ _ Hs) as (ini' & p' & b' & Heq & Hl & Hp & Hok & _).
  apply app_inj_tail in Heq as [<- [= <- <-]].
  unfold extend. wp_steps. rewrite Hl. apply wp_alloc. intros q Hq. simpl in Hq. wp_steps.
  assert (p ≠ q) as Hne by (intros ->; congruence).
  eapply wp_store; [simpl; by rewrite lookup_insert_ne|]. wp_steps. apply HQ.
  - pose proof (shape_snoc_last Hs b q eq_refl eq_refl Hok He I) as Hs'.
    rewrite (insert_id (out_heap s)) in Hs' by done. by apply Hs'.
  - apply lookup_insert_eq.
Qed.

Lemma contents_snoc_new ini p b q :
  contents (ini ++ [(p, set_next (Some q) b); (q, new_block)]).*2 =
  contents (ini ++ [(p, b)]).*2.
Proof.
  rewrite !fmap_app, !contents_app. csimpl.
  rewrite !contents_cons, slice_set_next, slice_new_block. done.
Qed.

(** Room is made at the end when the last block is full. *)
Lemma wp_make_room ns (Q : unit → OutputBuffer → Prop) s p b ini :
  oshape s ns → settled ns → ns = ini ++ [(p, b)] →
  (∀ h l ini' p' b', let s' := set_out_last l (with_heap h s) in
    oshape s' (ini' ++ [(p', b')]) → settled (ini' ++ [(p', b')]) →
    (end_ b' < kBlockSize)%Z →
    contents (ini' ++ [(p', b')]).*2 = contents ns.*2 → Q tt s') →
  wp (if decide (end_ b = kBlockSize) then extend else mret tt) Q s.
Proof.
  intros Hs Hset -> HQ. destruct (decide (end_ b = kBlockSize)) as [He|He].
  - eapply wp_extend; [done|done|]. intros h q s' Hs' _.
    apply (HQ h (Some q) (ini ++ [(p, set_next (Some q) b)]) q new_block).
    + by rewrite <-app_assoc.
    + rewrite <-app_assoc. by destruct ini as [|[]].
    + simpl. blia.
    + rewrite <-app_assoc. apply contents_snoc_new.
  - wp_steps. destruct s. apply (HQ out_heap0 out_last_block_0 ini p b); [done|done| |done].
    pose proof (shape_ok Hs) as Hok. apply Forall_app in Hok as [_ Hok].
    apply Forall_inv in Hok as (_ & Hok & _). simpl in Hok. lia.
Qed.

(** ** Specifications of the operations *)

Lemma contents_update_last (ini : list node) p b b' src :
  slice b' = slice b ++ src →
  contents (ini ++ [(p, b')]).*2 = contents (ini ++ [(p, b)]).*2 ++ src.
Proof.
  intros Hsl. rewrite !fmap_app, !contents_app. csimpl.
  by rewrite !contents_singleton, Hsl, app_assoc.
Qed.

Lemma settled_update_last ini p b b' :
  begin b' = begin b → settled (ini ++ [(p, b)]) → settled (ini ++ [(p, b')]).
Proof. intros Hb. destruct ini as [|[]]; simpl; [by rewrite Hb|done]. Qed.

(** Extending the last block to its capacity takes in the rest of its cells. *)
Lemma slice_extend b :
  block_ok b → slice (set_end kBlockSize b) = slice b ++ drop (Z.to_nat (end_ b)) (data b).
Proof.
  intros (Hb1 & Hb2 & Hb3). unfold slice. simpl.
  rewrite (take_ge (drop _ _)) by (rewrite length_drop; lia).
  rewrite <-(take_drop (Z.to_nat (end_ b - begin b)) (drop (Z.to_nat (begin b)) (data b))) at 1.
  f_equal. rewrite drop_drop. f_equal. lia.
Qed.

(** [bytes] stored in the region [Next] handed out, and the rest given back:
    [b] is the last block before [Next]. *)
Lemma wp_write_back ini p b bytes s :
  let room := (kBlockSize - end_ b)%Z in
  oshape s (ini ++ [(p, set_end kBlockSize b)]) → block_ok b →
  settled (ini ++ [(p, b)]) → (length bytes ≤ room)%Z →
  to_write_bytes_ s = u64 (length (contents (ini ++ [(p, b)]).*2) + room) →
  wp (write_span (mkSpan (Some p) (end_ b) room) bytes;;
      OutputBuffer_back_up (room - length bytes))
    (λ _ s', output_inv s' ∧
             output_contents s' = contents (ini ++ [(p, b)]).*2 ++ bytes) s.
Proof.
  intros room Hs Hok Hset Hlen Htw. pose proof Hok as (Hb1 & Hb2 & Hb3).
  destruct (shape_last_inv _ _ Hs) as (ini' & p' & b' & Heq & Hl & Hp & _).
  apply app_inj_tail in Heq as [<- [= <- <-]].
  destruct (write_cells (data b) (end_ b) bytes) as [d|] eqn:Hd;
    [|unfold write_cells in Hd; case_decide; [done|lia]].
  pose proof (length_write_cells _ _ _ _ Hd) as Hld.
  unfold write_span, OutputBuffer_back_up. wp_steps. eapply wp_deref; [done|]. wp_steps.
  eapply wp_in_bounds; [exact Hd|]. eapply wp_store; [done|]. wp_steps. rewrite Hl in Hs |- *.
  eapply wp_deref; [apply lookup_insert_eq|]. wp_steps.
  apply wp_int32; [blia|]. eapply wp_store; [apply lookup_insert_eq|]. wp_steps.
  rewrite insert_insert_eq. set (b3 := set_end (end_ b + length bytes) (set_data d b)).
  replace (set_end _ (set_data d _)) with b3
    by (unfold b3, set_end, set_data; simpl; f_equal; lia).
  assert (block_ok b3) as Hok3 by (unfold block_ok; simpl; lia).
  pose proof (shape_update_last Hs b3 eq_refl eq_refl Hok3 I) as Hs3.
  pose proof (contents_update_last ini p _ _ _ (slice_append _ _ _ Hok Hd)) as Hct3.
  split.
  - eexists. split_and!; [exact Hs3|by apply (settled_update_last _ _ b)|]. simpl.
    fold b3 in Hct3. rewrite Hct3, Htw, u64_sub_l, length_app. f_equal. lia.
  - erewrite oshape_contents by exact Hs3. exact Hct3.
Qed.

(** Protobuf's writer protocol: [Next] hands out a non-empty region behind the
    contents; storing [bytes] at its start and giving back the rest with
    [BackUp] appends exactly [bytes]. *)
Lemma OutputBuffer_next_spec s :
  output_inv s →
  wp OutputBuffer_next (λ sp s', output_inv s' ∧ (0 < sp_len sp ≤ kBlockSize)%Z ∧
    (∃ junk, output_contents s' = output_contents s ++ junk ∧
             (length junk : Z) = sp_len sp) ∧
    ∀ bytes, (length bytes ≤ sp_len sp)%Z →
      wp (write_span sp bytes;; OutputBuffer_back_up (sp_len sp - length bytes))
        (λ _ s'', output_inv s'' ∧ output_contents s'' = output_contents s ++ bytes) s') s.
Proof.
  intros (ns & Hs & Hset & Htw).
  destruct (shape_last_inv _ _ Hs) as (ini & p & b & Hns & Hl & Hp & _ & _).
  unfold OutputBuffer_next. wp_steps. rewrite Hl. eapply wp_deref; [done|]. wp_steps.
  eapply wp_make_room; [exact Hs|done|done|].
  intros h l ini1 p1 b1 s1 Hs1 Hset1 He1 Hct1.
  destruct (shape_last_inv _ _ Hs1) as (ini' & p' & b' & Heq & Hl1 & Hp1 & Hok1 & _).
  apply app_inj_tail in Heq as [<- [= <- <-]]. simpl in Hl1. subst l.
  pose proof Hok1 as (Hb1 & Hb2 & Hb3). set (room := (kBlockSize - end_ b1)%Z) in *.
  wp_steps. eapply wp_deref; [done|]. wp_steps. apply wp_int32; [blia|]. wp_steps.
  apply wp_int32; [blia|]. wp_steps. eapply wp_store; [done|]. wp_steps. fold room.
  replace (end_ b1 + room)%Z with kBlockSize by lia.
  assert (block_ok (set_end kBlockSize b1)) as Hok2 by (unfold block_ok; simpl; lia).
  assert (length (drop (Z.to_nat (end_ b1)) (data b1)) = Z.to_nat room) as Hjunk
    by (rewrite length_drop; lia).
  pose proof (shape_update_last Hs1 (set_end kBlockSize b1) eq_refl eq_refl Hok2 I) as Hs2.
  pose proof (contents_update_last ini1 p1 _ _ _ (slice_extend b1 Hok1)) as Hct2.
  rewrite (oshape_contents _ _ Hs). split_and!; [|lia|lia| |].
  - eexists. split_and!; [exact Hs2|by apply (settled_update_last _ _ b1)|]. simpl.
    rewrite Htw, Hct2, Hct1. apply u64_count_add. lia.
  - eexists. erewrite oshape_contents by exact Hs2.
    rewrite Hct2, Hct1. split; [done|lia].
  - intros bytes Hlen. rewrite <-Hct1. apply wp_write_back; [exact Hs2|done|done|done|].
    simpl. by rewrite Htw, u64_add_l, Hct1.
Qed.

(** Room left in the last block. *)
Definition last_room (s : OutputBuffer) : Z :=
  match out_last_block_ s ≫= (λ l, out_heap s !! l) with
  | Some b => kBlockSize - end_ b
  | None => 0
  end.

Lemma oshape_last_room ini p b s :
  oshape s (ini ++ [(p, b)]) → last_room s = (kBlockSize - end_ b)%Z.
Proof.
  intros Hs. destruct (shape_last_inv _ _ Hs) as (ini' & p' & b' & Heq & Hl & Hp & _).
  apply app_inj_tail in Heq as [<- [= <- <-]]. unfold last_room. rewrite Hl. simpl.
  by rewrite Hp.
Qed.

(** One round of [append] copies what fits, and leaves room behind it. *)
Lemma wp_append_step src s :
  output_inv s → src ≠ [] → (length src ≤ INT32_MAX)%Z →
  wp (OutputBuffer_append_step src) (λ r s', output_inv s' ∧ (0 < last_room s')%Z ∧
    let k := Z.to_nat (Z.min (length src) (last_room s)) in
    r = inl (drop k src) ∧ output_contents s' = output_contents s ++ take k src) s.
Proof.
  intros (ns & Hs & Hset & Htw) Hne Hmax.
  destruct (shape_last_inv _ _ Hs) as (ini & p & b & -> & Hl & Hp & Hok & _).
  pose proof Hok as (Hb1 & Hb2 & Hb3).
  rewrite (oshape_last_room _ _ _ _ Hs), (oshape_contents _ _ Hs).
  set (k := Z.min (length src) (kBlockSize - end_ b)).
  assert (0 < length src) by (destruct src; simpl; [done|lia]).
  assert ((length (take (Z.to_nat k) src) : Z) = k) as Hlen by (rewrite length_take; lia).
  destruct (write_cells (data b) (end_ b) (take (Z.to_nat k) src)) as [d|] eqn:Hd;
    [|unfold write_cells in Hd; case_decide; [done|lia]].
  pose proof (length_write_cells _ _ _ _ Hd) as Hld.
  pose proof (slice_append _ _ _ Hok Hd) as Hsl. rewrite Hlen in Hsl.
  unfold OutputBuffer_append_step. rewrite decide_True by lia.
  wp_steps. rewrite Hl. eapply wp_deref; [done|]. wp_steps. apply wp_int32; [blia|]. wp_steps.
  fold k. eapply wp_in_bounds; [apply read_cells_Some; lia|]. wp_steps.
  eapply wp_in_bounds; [exact Hd|]. wp_steps. eapply wp_store; [done|]. wp_steps.
  apply wp_int32; [blia|]. wp_steps. eapply wp_store; [apply lookup_insert_eq|]. wp_steps.
  rewrite insert_insert_eq. set (b1 := set_end (end_ b + k) (set_data d b)) in *.
  assert (block_ok b1) as Hok1 by (unfold block_ok; simpl; lia).
  pose proof (shape_update_last Hs b1 eq_refl eq_refl Hok1 I) as Hs1.
  eapply (wp_make_room _ _ _ p b1 ini);
    [exact Hs1|by apply (settled_update_last _ _ b)|done|].
  intros h l ini' p' b' s' Hs' Hset' He' Hct'. wp_steps.
  rewrite (contents_update_last ini p _ _ _ Hsl) in Hct'.
  erewrite oshape_contents by exact Hs'. erewrite oshape_last_room by exact Hs'.
  split_and!; [|lia|done|done].
  eexists. split_and!; [exact Hs'|done|]. simpl. rewrite Htw, Hct'. by apply u64_count_add.
Qed.

(** [append] appends its argument to the contents, whatever its size and
    however full the last block is. *)
Lemma OutputBuffer_append_spec fuel src s :
  output_inv s → (length src ≤ INT32_MAX)%Z → 2 * length src + 1 < fuel →
  wp (OutputBuffer_append fuel src)
    (λ _ s', output_inv s' ∧ output_contents s' = output_contents s ++ src) s.
Proof.
  intros Hinv Hmax Hfuel.
  apply (wp_iter (λ src1 s1, output_inv s1 ∧ (length src1 ≤ INT32_MAX)%Z ∧
      output_contents s1 ++ src1 = output_contents s ++ src)
    (λ src1 s1, 2 * length src1 + if decide (0 < last_room s1)%Z then 0 else 1)).
  - intros src1 s1 (Hinv1 & Hmax1 & Hct1). destruct (decide (src1 = [])) as [->|Hne].
    + unfold OutputBuffer_append_step. simpl. wp_steps. by rewrite app_nil_r in Hct1.
    + eapply wp_mono; [by apply wp_append_step|].
      intros r s2 (Hinv2 & Hroom2 & Hr & Hct2). cbv zeta in *.
      set (k := Z.to_nat (Z.min (length src1) (last_room s1))) in *. subst r.
      assert (0 < length src1) by (destruct src1; simpl; [done|lia]).
      rewrite length_drop. split_and!; [done|lia| |].
      * by rewrite Hct2, <-app_assoc, take_drop.
      * rewrite (decide_True (P := (0 < last_room s2)%Z)) by done. case_decide; lia.
  - done.
  - case_decide; lia.
Qed.

(** An exhausted first block that is settled is the last one. *)
Lemma oshape_exhausted h c l p b rest :
  output_shape h c l ((p, b) :: rest) → settled ((p, b) :: rest) →
  begin b = end_ b → contents (b :: rest.*2) = [].
Proof.
  intros [_ _ _ _ _ Hok Hfill _] Hset Hbe. apply Forall_cons in Hok as [Hb _].
  simpl in Hset. destruct rest as [|r rest].
  - csimpl. rewrite contents_singleton. unfold slice.
    by replace (end_ b - begin b)%Z with 0%Z by lia.
  - csimpl in Hfill. lia.
Qed.

(** Leaving a block that is sent to its end: the next block is allocated if
    there is none, and the block is freed. *)
Lemma wp_free_sent p b rest (Q : unit → OutputBuffer → Prop) s :
  oshape s ((p, b) :: rest) → begin b = kBlockSize →
  (∀ h c l ns', let s' := set_out_cur c (set_out_last l (with_heap h s)) in
    oshape s' ns' → settled ns' → contents ns'.*2 = contents rest.*2 → Q tt s') →
  wp (b ← deref (Some p);
      (if decide (next b = None) then extend else mret tt);;
      b ← deref (Some p);
      delete_block (Some p);;
      modify (set_out_cur (next b))) Q s.
Proof.
  intros Hs Hb HQ.
  assert (∀ l h b' rest', let s1 := set_out_last l (with_heap h s) in
    oshape s1 ((p, b') :: rest') → begin b' = kBlockSize → rest' ≠ [] →
    contents rest'.*2 = contents rest.*2 →
    wp (b ← deref (Some p); delete_block (Some p);; modify (set_out_cur (next b))) Q s1)
    as Hfree.
  { intros l h b' rest' s1 Hs1 Hb' Hne Hct.
    destruct (shape_advance _ _ _ _ Hs1 Hb' Hne) as (Hs2 & _ & Hset2).
    pose proof (shape_drop_head _ _ _ _ Hs2 Hne) as Hs3.
    pose proof (chain_lookup _ [] _ _ _ (shape_chain Hs1)) as Hp.
    pose proof (chain_next _ [] _ _ _ (shape_chain Hs1)) as Hn.
    wp_steps. eapply wp_deref; [done|]. wp_steps. eapply wp_delete; [done|]. wp_steps.
    eapply (HQ _ _ _ rest'); [|done|done]. simpl. simpl in Hs3. by rewrite Hn in Hs3 |- *. }
  pose proof (chain_lookup _ [] _ _ _ (shape_chain Hs)) as Hp.
  pose proof (chain_next _ [] _ _ _ (shape_chain Hs)) as Hn. simpl in Hn.
  wp_steps. eapply wp_deref; [done|]. wp_steps. rewrite Hn.
  destruct rest as [|[p' b'] rest]; csimpl.
  - assert (end_ b = kBlockSize) as He.
    { pose proof (shape_ok Hs) as Hok. apply Forall_inv in Hok as (H1 & H2 & _).
      simpl in *. lia. }
    eapply (wp_extend [] p b); [done|done|]. intros h q s' Hs' Hp'.
    by eapply Hfree; [exact Hs'| |..].
  - apply wp_ret. destruct s. by apply (Hfree out_last_block_0 out_heap0 b ((p', b') :: rest)).
Qed.

(** One round of [send_add] takes what it can from the first block. *)
Lemma wp_send_step n p b rest s :
  oshape s ((p, b) :: rest) → settled ((p, b) :: rest) → (0 < n ≤ INT32_MAX)%Z →
  wp (OutputBuffer_send_step n) (λ r s', ∃ ns' sent,
    r = inl (n - length sent)%Z ∧ (length sent : Z) = Z.min n (end_ b - begin b) ∧
    oshape s' ns' ∧ settled ns' ∧ contents ((p, b) :: rest).*2 = sent ++ contents ns'.*2 ∧
    to_write_bytes_ s' = to_write_bytes_ s) s.
Proof.
  intros Hs Hset Hn.
  destruct (shape_cur_inv _ _ Hs) as (? & ? & ? & [= <- <- <-] & Hc & Hp & Hok & _).
  pose proof Hok as (Hb1 & Hb2 & Hb3). set (k := Z.min n (end_ b - begin b)).
  pose proof (contents_consume k b rest.*2 Hok ltac:(lia)) as Hct.
  set (sent := take (Z.to_nat k) (slice b)) in *.
  assert ((length sent : Z) = k) as Hlen.
  { unfold sent. rewrite length_take. pose proof (length_slice b Hok). lia. }
  unfold OutputBuffer_send_step. rewrite decide_True by lia. wp_steps. rewrite Hc.
  eapply wp_deref; [done|]. wp_steps. apply wp_int32; [blia|]. wp_steps. fold k.
  apply wp_int32; [blia|]. wp_steps. apply wp_int32; [blia|]. wp_steps.
  eapply wp_store; [done|]. wp_steps. rewrite <-Hlen.
  pose proof (shape_set_begin _ _ _ _ (begin b + k) Hs ltac:(lia)) as Hs1.
  rewrite <-Hlen in Hs1, Hct. case_decide as Hk.
  - eapply (wp_free_sent p _ rest); [exact Hs1|done|].
    intros h c l ns' s' Hs' Hset' Hct'. wp_steps. exists ns', sent.
    split_and!; [done|lia|done|done| |done].
    etransitivity; [exact Hct|]. rewrite contents_cons, Hct'. f_equal. unfold slice. simpl.
    by replace (end_ b - (begin b + length sent))%Z with 0%Z by lia.
  - wp_steps. eexists _, sent. split_and!; [done|lia|exact Hs1| |exact Hct|done].
    simpl. lia.
Qed.

(** [send_add n] removes the first [n] bytes. *)
Lemma OutputBuffer_send_add_spec (fuel : nat) n s :
  output_inv s → (0 ≤ n ≤ length (output_contents s))%Z → (n ≤ INT32_MAX)%Z → (n < fuel)%Z →
  wp (OutputBuffer_send_add fuel n) (λ _ s', output_inv s' ∧
    output_contents s' = drop (Z.to_nat n) (output_contents s)) s.
Proof.
  intros (ns & Hs & Hset & Htw) Hlen Hmax Hfuel. rewrite (oshape_contents _ _ Hs) in Hlen |- *.
  unfold OutputBuffer_send_add. case_decide as H0.
  { assert (n = 0%Z) as -> by lia. wp_steps. split; [by exists ns|].
    by apply oshape_contents. }
  wp_steps. apply (wp_iter (λ left s1, (0 ≤ left ≤ n)%Z ∧
      to_write_bytes_ s1 = u64 (length (contents ns.*2) - n) ∧
      ∃ ns1 sent, oshape s1 ns1 ∧ settled ns1 ∧
        contents ns.*2 = sent ++ contents ns1.*2 ∧ (length sent : Z) = (n - left)%Z)
    (λ left _, Z.to_nat left)).
  - intros left s1 (Hl & Htw1 & ns1 & sent & Hs1 & Hset1 & Hct1 & Hsent).
    destruct (decide (0 < left)%Z) as [Hpos|Hpos].
    + destruct ns1 as [|[p b] rest]; [done|].
      eapply wp_mono; [apply wp_send_step; [done|done|lia]|].
      intros r s2 (ns2 & sent2 & -> & Hl2 & Hs2 & Hset2 & Hct2 & Htw2).
      assert (0 < length sent2)%Z.
      { destruct (decide (begin b = end_ b)) as [Hbe|Hbe].
        - pose proof (oshape_exhausted _ _ _ _ _ _ Hs1 Hset1 Hbe) as Hnil. csimpl in *.
          rewrite Hct1, Hnil, app_nil_r in Hlen. lia.
        - pose proof (shape_ok Hs1) as Hok. apply Forall_inv in Hok as (? & _). simpl in *. lia. }
      split; [|lia]. split_and!; [lia|lia|by rewrite Htw2|]. exists ns2, (sent ++ sent2).
      rewrite <-app_assoc, <-Hct2, length_app. split_and!; [done|done|done|lia].
    + unfold OutputBuffer_send_step. rewrite decide_False by lia. wp_steps.
      rewrite (oshape_contents _ _ Hs1), Hct1, drop_app_length' by lia. split; [|done].
      exists ns1. split_and!; [done|done|]. rewrite Htw1, Hct1, length_app. f_equal. lia.
  - split_and!; [lia|lia|simpl; by rewrite Htw, u64_sub_l|]. exists ns, [].
    split_and!; [exact Hs|done|done|simpl; lia].
  - lia.
Qed.

(** Told of more bytes than there are, [send_add] never returns. *)
Lemma OutputBuffer_send_add_diverges (fuel : nat) n s :
  output_inv s → (length (output_contents s) < n ≤ INT32_MAX)%Z →
  OutputBuffer_send_add fuel n s = OutOfFuel.
Proof.
  intros (ns & Hs & Hset & _). rewrite (oshape_contents _ _ Hs). intros Hn.
  unfold OutputBuffer_send_add. rewrite decide_False by lia.
  do 2 (rewrite (bind_done _ _ _ _ _ eq_refl)).
  apply (iter_diverges (λ left s1, ∃ ns1, oshape s1 ns1 ∧ settled ns1 ∧
    (length (contents ns1.*2) < left ≤ INT32_MAX)%Z)); [|by exists ns].
  intros left s1 (ns1 & Hs1 & Hset1 & Hleft). destruct ns1 as [|[p b] rest]; [done|].
  pose proof (wp_send_step left p b rest s1 Hs1 Hset1 ltac:(lia)) as Hwp.
  apply wp_done in Hwp as (r & s2 & Hrun & ns2 & sent & -> & _ & Hs2 & Hset2 & Hct & _).
  exists (left - length sent)%Z, s2. split; [done|]. exists ns2.
  rewrite Hct, length_app in Hleft. split_and!; [done|done|lia|lia].
Qed.

(** The unsent bytes of a node, as a region. *)
Definition span_of (n : node) : span :=
  mkSpan (Some n.1) (begin n.2) (end_ n.2 - begin n.2).

Lemma wp_read_span p b (Q : list cell → OutputBuffer → Prop) s :
  out_heap s !! p = Some b → block_ok b → Q (slice b) s →
  wp (read_span (span_of (p, b))) Q s.
Proof.
  intros Hp (Hb1 & Hb2 & Hb3) HQ. unfold read_span. wp_steps. eapply wp_deref; [done|].
  eapply wp_in_bounds; [apply read_cells_Some; simpl; lia|]. done.
Qed.

Lemma wp_read_spans ns (Q : list (list cell) → OutputBuffer → Prop) s :
  (∀ n, n ∈ ns → out_heap s !! n.1 = Some n.2 ∧ block_ok n.2) →
  Q (slice <$> ns.*2) s → wp (mapM read_span (span_of <$> ns)) Q s.
Proof.
  revert Q. induction ns as [|[p b] ns IH]; intros Q Hns HQ; [done|].
  csimpl. destruct (Hns (p, b)) as [Hp Hok]; [by left|].
  apply wp_bind, wp_read_span; [done|done|]. apply wp_bind, IH; [|done].
  intros n Hn. apply Hns. by right.
Qed.

Lemma wp_get_iovecs ns fuel (Q : list span → OutputBuffer → Prop) s :
  oshape s ns → size (out_heap s) < fuel → Q (span_of <$> take (Z.to_nat IOV_MAX) ns) s →
  wp (OutputBuffer_get_iovecs fuel) Q s.
Proof.
  intros Hs Hfuel HQ. pose proof (shape_chain Hs) as Hc. simpl in Hc.
  unfold OutputBuffer_get_iovecs. wp_steps.
  apply (wp_iter (λ '(block, iovs) s1, s1 = s ∧ ∃ don rest, ns = don ++ rest ∧
      block = head rest.*1 ∧ iovs = span_of <$> don ∧ (length don ≤ IOV_MAX)%Z)
    (λ '(_, iovs) s1, size (out_heap s1) - length iovs)).
  - intros [block iovs] s1 (-> & don & rest & -> & -> & -> & Hmax).
    destruct rest as [|[p b] rest]; csimpl.
    + wp_steps. rewrite app_nil_r in HQ. by rewrite take_ge in HQ by lia.
    + rewrite length_fmap. case_decide as Hd.
      * pose proof (chain_lookup _ _ _ _ _ Hc) as Hp.
        pose proof (shape_ok Hs) as Hok. apply Forall_app in Hok as [_ Hok].
        apply Forall_inv in Hok as (H1 & H2 & _). simpl in H1, H2.
        wp_steps. eapply wp_deref; [done|]. wp_steps. apply wp_int32; [blia|]. wp_steps.
        rewrite (chain_next _ _ _ _ _ Hc), (chain_size _ _ Hc), !length_app. csimpl.
        rewrite !length_fmap. split; [|lia]. split; [done|]. exists (don ++ [(p, b)]), rest.
        rewrite <-app_assoc, fmap_app, length_app. csimpl. split_and!; [done|done| |lia].
        rewrite u64_small; [done|]. blia.
      * wp_steps. by rewrite take_app_length' in HQ by lia.
  - split; [done|]. exists [], ns. split_and!; [done| |done|done].
    by destruct Hs.
  - simpl. lia.
Qed.

(** [get_iovecs] describes the contents, up to [IOV_MAX] blocks: the bytes of its
    regions are a prefix of the contents, all of them when there are few enough
    blocks, and at least one when there is one. *)
Lemma OutputBuffer_get_iovecs_spec fuel s :
  output_inv s → size (out_heap s) < fuel →
  wp (OutputBuffer_get_iovecs fuel) (λ iovs s', s' = s ∧ (length iovs ≤ IOV_MAX)%Z ∧
    wp (mapM read_span iovs) (λ bss s'', s'' = s ∧
      concat bss `prefix_of` output_contents s ∧
      ((size (out_heap s) ≤ IOV_MAX)%Z → concat bss = output_contents s) ∧
      (output_contents s ≠ [] → concat bss ≠ [])) s) s.
Proof.
  intros (ns & Hs & Hset & _) Hfuel. rewrite (oshape_contents _ _ Hs).
  assert (0 < IOV_MAX)%Z as Hiov by done.
  eapply wp_get_iovecs; [done|done|]. set (ms := take (Z.to_nat IOV_MAX) ns).
  assert (contents ns.*2 = contents ms.*2 ++ contents (drop (Z.to_nat IOV_MAX) ns).*2) as Hct.
  { unfold ms. by rewrite <-contents_app, <-fmap_app, take_drop. }
  pose proof (shape_chain Hs) as Hc. simpl in Hc.
  split_and!; [done|rewrite length_fmap; unfold ms; rewrite length_take; lia|].
  apply wp_read_spans.
  { intros [p b] Hin. assert ((p, b) ∈ ns) as Hin' by (by eapply subseteq_take).
    split; [|by apply (proj1 (Forall_forall _ _) (shape_ok Hs))].
    apply list_elem_of_split in Hin' as (l1 & l2 & ->). by eapply chain_lookup. }
  fold (contents ms.*2). split_and!; [done|by rewrite Hct; apply prefix_app_r| |].
  - intros Hle. rewrite (chain_size _ _ Hc) in Hle. unfold ms. by rewrite take_ge by lia.
  - intros Hne. destruct ns as [|[p b] rest]; [done|]. intros Hnil.
    assert (begin b = end_ b) as Hbe.
    { unfold ms in Hnil. destruct (Z.to_nat IOV_MAX) eqn:HN; [lia|].
      csimpl in Hnil. apply app_eq_nil in Hnil as [Hnil _].
      pose proof (shape_ok Hs) as Hok. apply Forall_inv in Hok.
      pose proof (length_slice _ Hok) as Hlen. simpl in *. rewrite Hnil in Hlen. simpl in Hlen. lia. }
    by apply Hne, (oshape_exhausted _ _ _ _ _ _ Hs).
Qed.

(** The destructor frees every block, each once. *)
Lemma OutputBuffer_destroy_spec fuel s :
  output_inv s → size (out_heap s) < fuel →
  wp (OutputBuffer_destroy fuel) (λ _ s', out_heap s' = ∅) s.
Proof.
  intros (ns & Hs & _) Hfuel. destruct Hs as [Hc Hf _ _ _ _ _ _].
  apply (wp_iter (λ _ s1, ∃ ns, chain (out_heap s1) ns ∧ out_cur_block_ s1 = head ns.*1)
    (λ _ s1, size (out_heap s1))); [|by eauto|done].
  intros [] s1 (ns1 & Hc1 & Hf1). wp_steps. rewrite Hf1. destruct ns1 as [|[p b] ns1]; csimpl.
  - wp_steps. by apply chain_nil in Hc1.
  - pose proof (chain_lookup _ [] _ _ _ Hc1) as Hp. wp_steps.
    eapply wp_deref; [done|]. wp_steps. eapply wp_delete; [done|]. wp_steps. split.
    + exists ns1. split; [by eapply chain_delete_head|]. exact (chain_next _ [] _ _ _ Hc1).
    + rewrite map_size_delete_Some by eauto. rewrite (chain_size _ _ Hc1). simpl. lia.
Qed.

(** Every block but the first and the last is full of unsent bytes, so the number
    of blocks is bounded by the number of bytes. *)
Lemma output_blocks_bound s :
  output_inv s →
  ((size (out_heap s) - 2) * kBlockSize ≤ length (output_contents s))%Z.
Proof.
  intros (ns & Hs & _ & _). rewrite (oshape_contents _ _ Hs).
  destruct Hs as [Hc _ _ _ _ Hok Hfill Hun]. simpl in Hc.
  rewrite (chain_size _ _ Hc). clear Hc. pose proof kBlockSize_val as HK.
  destruct ns as [|[p b] ns]; [simpl; lia|]. simpl in Hun. csimpl in *.
  rewrite contents_cons, length_app. apply Forall_cons in Hok as [_ Hok].
  enough ((length ns - 1) * kBlockSize ≤ length (contents ns.*2))%Z by lia.
  assert (fill (λ _, True) ns.*2 ∨ ns = []) as [Hf| ->];
    [destruct ns; [by right|left; by destruct Hfill]| |simpl; lia].
  clear Hfill p b. induction ns as [|[p b] ns IH]; [simpl; lia|]. csimpl in *.
  apply Forall_cons in Hun as [Hb Hun]. apply Forall_cons in Hok as [Hbok Hok].
  rewrite contents_cons, length_app. destruct ns as [|n ns]; [simpl; lia|].
  csimpl in Hf. destruct Hf as [He Hf]. specialize (IH Hok Hun Hf).
  pose proof (length_slice b Hbok) as Hls. simpl in *. lia.
Qed.
