(* ===== verification/Streams.v ===== *)
(** * The protobuf stream interfaces (NetInputStream, NetOutputStream)

    util/input_stream.h and util/output_stream.h wrap the two buffers in
    implementations of protobuf's [ZeroCopyInputStream] and
    [ZeroCopyOutputStream].  The interfaces are type classes here: the
    operations, and the laws that a protobuf parser or serializer relies on.
    The two buffers are shown to satisfy the laws; the clients that follow are
    proved against the laws alone.  A client is what a protobuf parser does with
    an input stream (it takes chunks until [Next] fails) and what a serializer
    does with an output stream (it fills chunks and gives back what is left). *)
From S2P Require Import Prelude Block Segments InputStream OutputStream.

(** ** Interfaces *)
Class ZeroCopyInputStream (S : Type) := {
  Next : M S (option (list cell));   (** the chunk, as bytes *)
  BackUp : nat → Z → M S unit;
  Skip : nat → Z → M S bool;
  ByteCount : S → Z;
}.

Class ZeroCopyInputLaws (S : Type) `{!ZeroCopyInputStream S} := {
  zin_ok : S → Prop;
  zin_bytes : S → list cell;         (** what is left to read *)
  zin_limit : S → Z;                 (** how much of it may be read *)
  zin_consumed : S → Z;              (** bytes read so far, modulo [2 ^ 64] *)
  zin_limit_nonneg s : zin_ok s → (0 ≤ zin_limit s ≤ INT32_MAX)%Z;
  zin_next s : zin_ok s →
    wp Next (λ r s', zin_ok s' ∧
      match r with
      | None => s' = s ∧ (zin_bytes s = [] ∨ zin_limit s = 0%Z)
      | Some chunk => chunk ≠ [] ∧ zin_bytes s = chunk ++ zin_bytes s' ∧
          (length chunk ≤ zin_limit s)%Z ∧
          zin_consumed s' = u64 (zin_consumed s + length chunk) ∧
          zin_limit s' = (if decide (zin_limit s = INT32_MAX) then INT32_MAX
                          else zin_limit s - length chunk)%Z
      end) s;
}.

Class ZeroCopyOutputStream (S : Type) `{!HasHeap S} := {
  ONext : M S span;
  OBackUp : Z → M S unit;
  OByteCount : S → Z;
}.

Class ZeroCopyOutputLaws (S : Type) `{ZeroCopyOutputStream S} := {
  zout_ok : S → Prop;
  zout_bytes : S → list cell;        (** what has been written *)
  zout_next s : zout_ok s →
    wp ONext (λ sp s', (0 < sp_len sp)%Z ∧
      ∀ bytes, (length bytes ≤ sp_len sp)%Z →
        wp (write_span sp bytes;; OBackUp (sp_len sp - length bytes))
          (λ _ s'', zout_ok s'' ∧ zout_bytes s'' = zout_bytes s ++ bytes) s') s;
}.

(** ** Implementations *)

(** [NetInputStream::Next]; the caller reads the chunk it was handed. *)
Definition NetInputStream_Next : M InputBuffer (option (list cell)) :=
  r ← InputBuffer_next;
  match r with
  | None => mret None
  | Some sp => bytes ← read_span sp; mret (Some bytes)
  end.

#[export] Instance NetInputStream : ZeroCopyInputStream InputBuffer := {
  Next := NetInputStream_Next;
  BackUp := InputBuffer_back_up;
  Skip := InputBuffer_skip;
  ByteCount := InputBuffer_byte_count;
}.

Lemma NetInputStream_next_law s :
  input_inv s →
  wp NetInputStream_Next (λ r s', input_inv s' ∧
    match r with
    | None => s' = s ∧ (input_contents s = [] ∨ limit_ s = 0%Z)
    | Some chunk => chunk ≠ [] ∧ input_contents s = chunk ++ input_contents s' ∧
        (length chunk ≤ limit_ s)%Z ∧
        consumed_bytes_ s' = u64 (consumed_bytes_ s + length chunk) ∧
        limit_ s' = (if decide (limit_ s = INT32_MAX) then INT32_MAX
                     else limit_ s - length chunk)%Z
    end) s.
Proof.
  intros Hinv. unfold NetInputStream_Next. apply wp_bind.
  eapply wp_mono; [by apply InputBuffer_next_spec|]. intros [sp|] s' [Hinv' H]; [|done].
  destruct H as (bytes & Hrd & Hne & Hct & Hlen & Hlim & Hcb & _).
  apply wp_bind. eapply wp_mono; [exact Hrd|]. intros bs s'' [-> ->]. apply wp_ret.
  split_and!; [done|done|done|lia|done|done].
Qed.

#[export] Program Instance NetInputStream_laws : ZeroCopyInputLaws InputBuffer := {|
  zin_ok := input_inv;
  zin_bytes := input_contents;
  zin_limit := limit_;
  zin_consumed := consumed_bytes_;
|}.
Next Obligation. by intros s (? & ? & _ & _ & _ & ? & _). Qed.
Next Obligation. intros s Hs. by apply NetInputStream_next_law. Qed.

#[export] Instance NetOutputStream : ZeroCopyOutputStream OutputBuffer := {
  ONext := OutputBuffer_next;
  OBackUp := OutputBuffer_back_up;
  OByteCount := OutputBuffer_byte_count;
}.

#[export] Program Instance NetOutputStream_laws : ZeroCopyOutputLaws OutputBuffer := {|
  zout_ok := output_inv;
  zout_bytes := output_contents;
|}.
Next Obligation.
  intros s Hs. eapply wp_mono; [by apply OutputBuffer_next_spec|].
  intros sp s' (_ & Hlen & _ & Hw). split; [lia|]. exact Hw.
Qed.

(** ** Clients *)
Section drain.
Context {S : Type} `{ZeroCopyInputLaws S}.

(** Take chunks until the stream ends, as a parser does. *)
Definition drain (fuel : nat) : M S (list cell) :=
  iter fuel (λ acc,
    r ← Next;
    match r with
    | None => mret (inr acc)
    | Some chunk => mret (inl (acc ++ chunk))
    end) [].

(** A drained stream has given out its bytes in order up to the limit, and
    the rest is still there. *)
Lemma drain_spec (fuel : nat) s :
  zin_ok s → length (zin_bytes s) < fuel → zin_limit s ≠ INT32_MAX →
  (zin_limit s ≤ length (zin_bytes s))%Z →
  wp (drain fuel) (λ bytes s', zin_ok s' ∧ zin_limit s' = 0%Z ∧
    (length bytes : Z) = zin_limit s ∧ zin_bytes s = bytes ++ zin_bytes s' ∧
    u64 (zin_consumed s') = u64 (zin_consumed s + length bytes)) s.
Proof.
  intros Hok Hfuel Hlim Hle. unfold drain.
  apply (wp_iter (λ acc s1, zin_ok s1 ∧ zin_bytes s = acc ++ zin_bytes s1 ∧
      zin_limit s1 ≠ INT32_MAX ∧
      (zin_limit s1 + length acc = zin_limit s)%Z ∧
      u64 (zin_consumed s1) = u64 (zin_consumed s + length acc))
    (λ _ s1, length (zin_bytes s1))).
  - intros acc s1 (Hok1 & Hb1 & Hl1 & Hs1 & Hc1). apply wp_bind.
    eapply wp_mono; [by apply zin_next|]. intros [chunk|] s2 [Hok2 Hr].
    + destruct Hr as (Hne & Hb2 & Hlen & Hc2 & Hl2). rewrite decide_False in Hl2 by done.
      assert (0 < length chunk) by (destruct chunk; simpl; [done|lia]).
      pose proof (zin_limit_nonneg s1 Hok1). apply wp_ret.
      rewrite <-app_assoc, <-Hb2, !length_app.
      split_and!; [done|done|lia|lia| |].
      * rewrite Hc2. unfold u64 in *.
        rewrite Zmod_mod, <-Zplus_mod_idemp_l, Hc1, Zplus_mod_idemp_l. f_equal. lia.
      * rewrite Hb2, length_app. lia.
    + destruct Hr as [-> Hr]. apply wp_ret. split_and!; [done| | |done|done].
      * destruct Hr as [Hr|Hr]; [|done]. rewrite Hb1, Hr, app_nil_r in Hle.
        pose proof (zin_limit_nonneg s1 Hok1). lia.
      * destruct Hr as [Hr|Hr]; [|lia]. rewrite Hb1, Hr, app_nil_r in Hle.
        pose proof (zin_limit_nonneg s1 Hok1). lia.
  - split_and!; [done|done|done|simpl; lia|]. simpl. by rewrite Z.add_0_r.
  - done.
Qed.
End drain.

Section emit.
Context {S : Type} `{ZeroCopyOutputLaws S}.

(** Fill chunks with [bytes] and give back what is left of the last one, as a
    serializer does. *)
Definition emit (fuel : nat) (bytes : list cell) : M S unit :=
  iter fuel (λ bytes,
    if decide (bytes = []) then mret (inr tt)
    else
      sp ← ONext;
      let chunk := take (Z.to_nat (sp_len sp)) bytes in
      write_span sp chunk;;
      OBackUp (sp_len sp - length chunk);;
      mret (inl (drop (Z.to_nat (sp_len sp)) bytes))) bytes.

Lemma emit_spec fuel bytes s :
  zout_ok s → length bytes < fuel →
  wp (emit fuel bytes) (λ _ s', zout_ok s' ∧ zout_bytes s' = zout_bytes s ++ bytes) s.
Proof.
  intros Hok Hfuel. unfold emit.
  apply (wp_iter (λ bs s1, zout_ok s1 ∧ zout_bytes s1 ++ bs = zout_bytes s ++ bytes)
    (λ bs _, length bs)); [|done|done].
  intros bs s1 [Hok1 Hb1]. case_decide as Hnil.
  - subst bs. apply wp_ret. by rewrite app_nil_r in Hb1.
  - apply wp_bind. eapply wp_mono; [by apply zout_next|]. intros sp s2 [Hlen Hw].
    specialize (Hw (take (Z.to_nat (sp_len sp)) bs) ltac:(rewrite length_take; lia)).
    assert (0 < length bs) by (destruct bs; simpl; [done|lia]).
    apply wp_done in Hw as ([] & s3 & Hrun & Hok3 & Hb3).
    unfold mbind, M_bind in Hrun. unfold wp, mbind, M_bind.
    destruct (write_span sp _ s2) as [[[] s2']| |]; [|done|done]. rewrite Hrun. simpl.
    rewrite length_drop. split_and!; [done| |lia].
    by rewrite Hb3, <-app_assoc, take_drop.
Qed.
End emit.

(** ** The send buffer over its whole life *)

(** What the connection does with a send buffer. *)
Inductive out_op :=
  | OpAppend (src : list cell)       (** [append] of a length prefix *)
  | OpStream (bytes : list cell)     (** a message serialized through the stream *)
  | OpSent (n : Z).                  (** [send_add] after a [writev] *)

Definition run_out_op (fuel : nat) (op : out_op) : M OutputBuffer unit :=
  match op with
  | OpAppend src => OutputBuffer_append fuel src
  | OpStream bytes => emit fuel bytes
  | OpSent n => OutputBuffer_send_add fuel n
  end.

Fixpoint run_out (fuel : nat) (ops : list out_op) : M OutputBuffer unit :=
  match ops with
  | [] => mret tt
  | op :: ops => run_out_op fuel op;; run_out fuel ops
  end.

(** Bytes put in, and number of bytes taken out, by a sequence of operations. *)
Definition out_written (ops : list out_op) : list cell :=
  concat ((λ op, match op with
                 | OpAppend bs | OpStream bs => bs
                 | OpSent _ => []
                 end) <$> ops).
Definition out_sent (ops : list out_op) : nat :=
  sum_list ((λ op, match op with OpSent n => Z.to_nat n | _ => 0 end) <$> ops).

(** Sizes are [int]s within the fuel, and no more is reported sent than is
    pending. *)
Fixpoint out_legal (fuel : nat) (pending : Z) (ops : list out_op) : Prop :=
  match ops with
  | [] => True
  | OpAppend bs :: ops =>
      (length bs ≤ INT32_MAX)%Z ∧ 2 * length bs + 1 < fuel ∧
      out_legal fuel (pending + length bs) ops
  | OpStream bs :: ops => length bs < fuel ∧ out_legal fuel (pending + length bs) ops
  | OpSent n :: ops =>
      (0 ≤ n ≤ pending)%Z ∧ (n ≤ INT32_MAX)%Z ∧ (n < fuel)%Z ∧
      out_legal fuel (pending - n) ops
  end.

Lemma run_out_spec fuel ops s :
  output_inv s → out_legal fuel (length (output_contents s)) ops →
  wp (run_out fuel ops) (λ _ s', output_inv s' ∧
    output_contents s' = drop (out_sent ops) (output_contents s ++ out_written ops)) s.
Proof.
  revert s. induction ops as [|op ops IH]; intros s Hinv Hlegal.
  { apply wp_ret. split; [done|]. unfold out_written. csimpl. by rewrite app_nil_r. }
  simpl. apply wp_bind. unfold out_written, out_sent. csimpl.
  fold (out_written ops) (out_sent ops). destruct op as [bs|bs|n]; simpl in Hlegal |- *.
  - destruct Hlegal as (H1 & H2 & H3).
    eapply wp_mono; [by apply OutputBuffer_append_spec|]. intros [] s1 [Hinv1 Hct1].
    eapply wp_mono; [apply IH; [done|]|].
    + rewrite Hct1, length_app. by rewrite Nat2Z.inj_add.
    + intros [] s2 [Hinv2 Hct2]. split; [done|]. by rewrite Hct2, Hct1, <-app_assoc.
  - destruct Hlegal as (H1 & H2).
    eapply wp_mono; [by apply (emit_spec (S := OutputBuffer))|]. intros [] s1 [Hinv1 Hct1].
    simpl in Hct1. eapply wp_mono; [apply IH; [done|]|].
    + rewrite Hct1, length_app. by rewrite Nat2Z.inj_add.
    + intros [] s2 [Hinv2 Hct2]. split; [done|]. by rewrite Hct2, Hct1, <-app_assoc.
  - destruct Hlegal as (H1 & H2 & H3 & H4).
    eapply wp_mono; [by apply OutputBuffer_send_add_spec|]. intros [] s1 [Hinv1 Hct1].
    eapply wp_mono; [apply IH; [done|]|].
    + rewrite Hct1, length_drop. replace (_ : Z) with (length (output_contents s) - n)%Z; [done|lia].
    + intros [] s2 [Hinv2 Hct2]. split; [done|].
      rewrite Hct2, Hct1. rewrite <-(drop_drop _ _ (Z.to_nat n)).
      by rewrite (drop_app_le (output_contents s)) by lia.
Qed.

(** ** The receive buffer over its whole life *)
Inductive in_op :=
  | OpReceive (bytes : list cell)    (** [get_buffer], [read], [recv_add] *)
  | OpFetch                          (** [fetch_uint32] *)
  | OpNext                           (** [Next] *)
  | OpLimit (n : Z)                  (** [push_limit] *)
  | OpNoLimit.                       (** [pop_limit] *)

(** Runs an operation; returns the bytes received and the bytes delivered. *)
Definition run_in_op (op : in_op) : M InputBuffer (list cell * list cell) :=
  match op with
  | OpReceive bytes =>
      sp ← InputBuffer_get_buffer;
      let got := take (Z.to_nat (sp_len sp)) bytes in
      write_span sp got;;
      InputBuffer_recv_add (length got);;
      mret (got, [])
  | OpFetch =>
      '(ok, value) ← InputBuffer_fetch_uint32 (replicate 4 None);
      mret ([], if (ok : bool) then value else [])
  | OpNext =>
      r ← NetInputStream_Next;
      mret ([], default [] r)
  | OpLimit n => InputBuffer_push_limit n;; mret ([], [])
  | OpNoLimit => InputBuffer_pop_limit;; mret ([], [])
  end.

Fixpoint run_in (ops : list in_op) : M InputBuffer (list cell * list cell) :=
  match ops with
  | [] => mret ([], [])
  | op :: ops =>
      '(got, out) ← run_in_op op;
      '(gots, outs) ← run_in ops;
      mret (got ++ gots, out ++ outs)
  end.

Definition in_op_legal (op : in_op) : Prop :=
  match op with
  | OpReceive bytes => bytes ≠ []
  | OpLimit n => (0 ≤ n ≤ INT32_MAX)%Z
  | _ => True
  end.

(** The only way for an operation to go wrong is a [fetch_uint32] across a block
    boundary. *)
Definition in_op_post (op : in_op) (s : InputBuffer)
    (o : outcome ((list cell * list cell) * InputBuffer)) : Prop :=
  match o with
  | Done ((got, out), s') =>
      input_inv s' ∧ input_contents s ++ got = out ++ input_contents s'
  | Faulted f => f = OutOfBounds ∧ op = OpFetch ∧ (0 < current_avail s < 4)%Z
  | OutOfFuel => False
  end.

(** A run that meets [Q], seen as an outcome. *)
Lemma wp_outcome {S A} (m : M S A) Q (P : outcome (A * S) → Prop) s :
  wp m Q s → (∀ a s', Q a s' → P (Done (a, s'))) → P (m s).
Proof. intros (a & s' & -> & HQ)%wp_done HP. by apply HP. Qed.

Lemma run_in_op_spec op s :
  input_inv s → in_op_legal op → (length (input_contents s) < 2 ^ 64)%Z →
  in_op_post op s (run_in_op op s).
Proof.
  intros Hinv Hlegal Hsmall. destruct op as [bytes| | |n|]; simpl run_in_op.
  - eapply (wp_outcome _ (λ r s', input_inv s' ∧ r.2 = [] ∧
      input_contents s' = input_contents s ++ r.1)).
    + apply wp_bind. eapply wp_mono; [by apply InputBuffer_receive|].
      intros sp s1 (-> & Hlen & Hw). set (got := take (Z.to_nat (sp_len sp)) bytes).
      assert (got ≠ []) as Hne.
      { intros Hnil. apply (f_equal length) in Hnil. unfold got in Hnil.
        rewrite length_take in Hnil. simpl in *. destruct bytes; [done|]. simpl in *. lia. }
      assert (length got ≤ sp_len sp)%Z as Hle by (unfold got; rewrite length_take; lia).
      specialize (Hw got Hne Hle). apply wp_done in Hw as ([] & s2 & Hrun & Hinv2 & Hct2 & _).
      unfold mbind, M_bind in Hrun. unfold wp, mbind, M_bind.
      destruct (write_span sp got s) as [[[] s']| |]; [|done|done]. by rewrite Hrun.
    + intros [got out] s' (Hinv' & Hout & Hct'). simpl in *. subst out. by rewrite Hct'.
  - destruct (decide (length (input_contents s) < 4)%Z) as [Hshort|Hlong].
    { erewrite bind_done by (by apply InputBuffer_fetch_short). simpl.
      split; [done|]. by rewrite app_nil_r. }
    destruct (decide (4 ≤ current_avail s)%Z) as [Hav|Hav].
    + eapply (wp_outcome _ (λ r s', input_inv s' ∧ r.1 = [] ∧
        input_contents s = r.2 ++ input_contents s')).
      * apply wp_bind. eapply wp_mono; [by apply InputBuffer_fetch_spec|].
        intros [ok v] s1 (Hinv1 & Hok & Hct & _). simpl in *. subst ok. by apply wp_ret.
      * intros [got out] s' (Hinv' & Hgot & Hct'). simpl in *. subst got.
        by rewrite app_nil_r.
    + unfold mbind, M_bind. rewrite InputBuffer_fetch_straddle; [|done|done|lia|lia].
      split_and!; [done|done| |lia]. apply current_avail_pos; [done|].
      intros Hnil. rewrite Hnil in Hlong. simpl in Hlong. lia.
  - eapply (wp_outcome _ (λ r s', input_inv s' ∧ r.1 = [] ∧
      input_contents s = r.2 ++ input_contents s')).
    + apply wp_bind. eapply wp_mono; [by apply NetInputStream_next_law|].
      intros [chunk|] s1 [Hinv1 Hr]; apply wp_ret; simpl; [naive_solver|].
      by destruct Hr as [-> _].
    + intros [got out] s' (Hinv' & Hgot & Hct'). simpl in *. subst got.
      by rewrite app_nil_r.
  - destruct Hinv as (pre & suf & Hs & Hset & Hrb & _ & Hal). simpl.
    split; [by exists pre, suf|]. by rewrite app_nil_r.
  - destruct Hinv as (pre & suf & Hs & Hset & Hrb & _ & Hal). simpl.
    split; [exists pre, suf; by split_and!|]. by rewrite app_nil_r.
Qed.

(** Bytes a sequence of operations may receive. *)
Definition in_size (ops : list in_op) : nat :=
  sum_list ((λ op, match op with OpReceive bs => length bs | _ => 0 end) <$> ops).

Definition in_post (ops : list in_op) (s : InputBuffer)
    (o : outcome ((list cell * list cell) * InputBuffer)) : Prop :=
  match o with
  | Done ((got, out), s') =>
      input_inv s' ∧ input_contents s ++ got = out ++ input_contents s'
  | Faulted f => f = OutOfBounds ∧ OpFetch ∈ ops
  | OutOfFuel => False
  end.

Lemma run_in_op_length op s got out s' :
  run_in_op op s = Done ((got, out), s') → length got ≤ in_size [op].
Proof.
  unfold in_size. destruct op as [bytes| | |n|]; simpl; unfold mbind, M_bind; intros H;
    repeat (case_match; try done); simplify_eq; rewrite ?length_take; simpl; try lia;
    unfold mret, M_ret in *; simplify_eq; simpl; rewrite ?length_take; lia.
Qed.

Lemma run_in_spec ops s :
  input_inv s → Forall in_op_legal ops →
  (length (input_contents s) + in_size ops < 2 ^ 64)%Z →
  in_post ops s (run_in ops s).
Proof.
  revert s. induction ops as [|op ops IH]; intros s Hinv Hlegal Hsize.
  { simpl. split; [done|]. by rewrite app_nil_r. }
  apply Forall_cons in Hlegal as [Hop Hops].
  assert (in_size (op :: ops) = in_size [op] + in_size ops) as Hsz
    by (unfold in_size; csimpl; lia).
  pose proof (run_in_op_spec op s Hinv Hop ltac:(lia)) as Hpost.
  simpl. unfold mbind, M_bind.
  destruct (run_in_op op s) as [[[got out] s1]|f|] eqn:Hrun; simpl in Hpost;
    [|naive_solver (set_solver)|done].
  destruct Hpost as [Hinv1 Hct1]. pose proof (run_in_op_length _ _ _ _ _ Hrun) as Hlen.
  assert (length (input_contents s1) ≤ length (input_contents s) + in_size [op]).
  { apply (f_equal length) in Hct1. rewrite !length_app in Hct1. lia. }
  specialize (IH s1 Hinv1 Hops ltac:(lia)).
  destruct (run_in ops s1) as [[[gots outs] s2]|f|]; simpl in IH |- *;
    [|naive_solver (set_solver)|done].
  destruct IH as [Hinv2 Hct2]. split; [done|].
  by rewrite app_assoc, Hct1, <-!app_assoc, Hct2.
Qed.
