(* ===== verification/Types.v ===== *)
(** * The buffers stay within their types

    Every member of the two stream buffers and of their blocks has a machine type:
    [int] offsets and limits, [size_t] counters, arrays of [kBlockSize] bytes.  The
    model keeps them as unbounded integers and lists, with wrap-around and overflow
    written out where the code computes; here is the proof that this keeps every
    member in the range of its type, for any calls whatever, in or out of protocol,
    as long as their arguments are in range and nothing faults.

    [keeps T P m] says that [m] leads from states in [T] to states in [T] with
    results in [P]; the rules for it follow the constructors of the monad. *)
From S2P Require Import Prelude Block InputStream OutputStream.

(** ** Machine types *)
Definition is_int (z : Z) : Prop := (INT32_MIN ≤ z ≤ INT32_MAX)%Z.
Definition is_size (z : Z) : Prop := (0 ≤ z < 2 ^ 64)%Z.
Definition is_byte (c : cell) : Prop := match c with Some v => (0 ≤ v < 256)%Z | None => True end.

Record block_typed (b : BufferBlock) : Prop := {
  bt_begin : is_int (begin b);
  bt_end : is_int (end_ b);
  bt_size : Z.of_nat (length (data b)) = kBlockSize;
  bt_bytes : Forall is_byte (data b);
}.
Definition heap_typed (h : heap) : Prop := map_Forall (λ _, block_typed) h.

Record input_typed (s : InputBuffer) : Prop := {
  it_heap : heap_typed (in_heap s);
  it_read : is_size (read_bytes_ s);
  it_consumed : is_size (consumed_bytes_ s);
  it_limit : is_int (limit_ s);
}.
Record output_typed (s : OutputBuffer) : Prop := {
  ot_heap : heap_typed (out_heap s);
  ot_write : is_size (to_write_bytes_ s);
  ot_total : is_size (total_bytes_ s);
}.

Lemma u64_size z : is_size (u64 z).
Proof. apply Z.mod_pos_bound. lia. Qed.
Lemma to_int32_int z : is_int (to_int32 z).
Proof.
  unfold is_int, to_int32, INT32_MIN, INT32_MAX.
  pose proof (Z.mod_pos_bound (z + 2 ^ 31) (2 ^ 32)). lia.
Qed.
Lemma INT32_MAX_int : is_int INT32_MAX.
Proof. unfold is_int, INT32_MIN, INT32_MAX. lia. Qed.
Lemma zero_int : is_int 0.
Proof. unfold is_int, INT32_MIN, INT32_MAX. lia. Qed.

Lemma new_block_typed : block_typed new_block.
Proof.
  split; simpl; try apply zero_int.
  - rewrite length_replicate. blia.
  - apply Forall_replicate. done.
Qed.
Lemma set_begin_typed z b : is_int z → block_typed b → block_typed (set_begin z b).
Proof. intros Hz []. by split. Qed.
Lemma set_end_typed z b : is_int z → block_typed b → block_typed (set_end z b).
Proof. intros Hz []. by split. Qed.
Lemma set_next_typed p b : block_typed b → block_typed (set_next p b).
Proof. intros []. by split. Qed.
Lemma set_data_typed d b :
  Z.of_nat (length d) = kBlockSize → Forall is_byte d → block_typed b → block_typed (set_data d b).
Proof. intros Hl Hd []. by split. Qed.

Lemma read_cells_typed d off n bs :
  Forall is_byte d → read_cells d off n = Some bs → Forall is_byte bs.
Proof.
  unfold read_cells. intros Hd. case_decide; [|done]. intros [= <-]. by apply Forall_take, Forall_drop.
Qed.
Lemma write_cells_typed d off src d' :
  Forall is_byte d → Forall is_byte src → write_cells d off src = Some d' →
  Forall is_byte d' ∧ length d' = length d.
Proof.
  intros Hd Hs Hw. split; [|by eapply length_write_cells]. unfold write_cells in Hw.
  case_decide; [|done]. injection Hw as <-. rewrite !Forall_app.
  split_and!; [by apply Forall_take|done|by apply Forall_drop].
Qed.

(** ** Rules *)
Create HintDb types.

Definition keeps {S A} (T : S → Prop) (P : A → Prop) (m : M S A) : Prop :=
  ∀ s a s', T s → m s = Done (a, s') → T s' ∧ P a.

Section rules.
Context {S : Type} (T : S → Prop).

Lemma keeps_ret {A} (P : A → Prop) a : P a → keeps T P (mret a).
Proof. by intros HP s b s' Hs [= <- <-]. Qed.
Lemma keeps_bind {A B} (P : A → Prop) (Q : B → Prop) m k :
  keeps T P m → (∀ a, P a → keeps T Q (k a)) → keeps T Q (m ≫= k).
Proof.
  intros Hm Hk s b s' Hs. unfold mbind, M_bind. destruct (m s) as [[a s1]| |] eqn:Hrun; [|done|done].
  destruct (Hm _ _ _ Hs Hrun) as [Hs1 Ha]. by apply Hk.
Qed.
Lemma keeps_mono {A} (P Q : A → Prop) m : keeps T P m → (∀ a, P a → Q a) → keeps T Q m.
Proof. intros Hm HPQ s a s' Hs Hrun. destruct (Hm _ _ _ Hs Hrun). auto. Qed.
Lemma keeps_gets {A} (P : A → Prop) (f : S → A) : (∀ s, T s → P (f s)) → keeps T P (gets f).
Proof. intros Hf s a s' Hs [= <- <-]. auto. Qed.
Lemma keeps_modify (f : S → S) : (∀ s, T s → T (f s)) → keeps T (λ _, True) (modify f).
Proof. intros Hf s a s' Hs [= <- <-]. auto. Qed.
Lemma keeps_fail {A} (P : A → Prop) f : keeps T P (fail_with f).
Proof. done. Qed.
Lemma keeps_int32 z : keeps T is_int (int32 z).
Proof. unfold int32. case_decide; [by apply keeps_ret|apply keeps_fail]. Qed.
Lemma keeps_in_bounds {A} (P : A → Prop) o : (∀ a, o = Some a → P a) → keeps T P (in_bounds o).
Proof. intros HP. destruct o; [by apply keeps_ret, HP|apply keeps_fail]. Qed.
Lemma keeps_iter {L R} (I : L → Prop) (Q : R → Prop) body n l :
  (∀ l, I l → keeps T (λ x, match x with inl l => I l | inr r => Q r end) (body l)) → I l →
  keeps T Q (iter n body l).
Proof.
  intros Hbody. revert l. induction n as [|n IH]; intros l Hl; [done|]. simpl.
  eapply keeps_bind; [by apply Hbody|]. intros [l'|r] Hx; [by apply IH|by apply keeps_ret].
Qed.
End rules.

(** States that hold a typed heap. *)
Class TypedHeap {S} `{!HasHeap S} (T : S → Prop) : Prop := {
  typed_heap s : T s → heap_typed (heap_of s);
  typed_with_heap h s : T s → heap_typed h → T (with_heap h s);
}.

Section memory.
Context {S : Type} `{!HasHeap S} (T : S → Prop) `{!TypedHeap T}.

Lemma keeps_deref p : keeps T block_typed (deref p).
Proof.
  intros s b s' Hs. unfold deref. destruct p as [l|]; [|done].
  destruct (heap_of s !! l) as [b'|] eqn:Hl; [|done]. intros [= <- <-].
  split; [done|]. apply typed_heap in Hs. by apply (Hs l).
Qed.
Lemma keeps_store p f :
  (∀ b, block_typed b → block_typed (f b)) → keeps T (λ _, True) (store p f).
Proof.
  intros Hf s b s' Hs. unfold store. destruct p as [l|]; [|done].
  destruct (heap_of s !! l) as [b'|] eqn:Hl; [|done]. intros [= <- <-]. split; [|done].
  apply typed_with_heap; [done|]. apply typed_heap in Hs.
  apply map_Forall_insert_2; [|done]. apply Hf. by apply (Hs l).
Qed.
Lemma keeps_alloc : keeps T (λ _, True) alloc_block.
Proof.
  intros s b s' Hs [= <- <-]. split; [|done]. apply typed_with_heap; [done|].
  apply map_Forall_insert_2; [apply new_block_typed|by apply typed_heap].
Qed.
Lemma keeps_delete p : keeps T (λ _, True) (delete_block p).
Proof.
  intros s b s' Hs. unfold delete_block. destruct p as [l|]; [|by intros [= <- <-]].
  destruct (heap_of s !! l); [|done]. intros [= <- <-]. split; [|done].
  apply typed_with_heap; [done|]. by apply map_Forall_delete, typed_heap.
Qed.

Lemma keeps_write_span sp bytes :
  Forall is_byte bytes → keeps T (λ _, True) (write_span sp bytes).
Proof.
  intros Hb. unfold write_span. eapply keeps_bind; [apply keeps_deref|]. intros b Hbt.
  eapply (keeps_bind _ (λ d, Z.of_nat (length d) = kBlockSize ∧ Forall is_byte d)).
  - apply keeps_in_bounds. intros d Hd.
    destruct (write_cells_typed _ _ _ _ (bt_bytes _ Hbt) Hb Hd) as [H1 H2]. split; [|done].
    rewrite H2. apply Hbt.
  - intros d [Hd1 Hd2]. apply keeps_store. intros b'. by apply set_data_typed.
Qed.
Lemma keeps_read_span sp : keeps T (Forall is_byte) (read_span sp).
Proof.
  unfold read_span. eapply keeps_bind; [apply keeps_deref|]. intros b Hbt.
  apply keeps_in_bounds. intros bs. apply read_cells_typed. apply Hbt.
Qed.
End memory.

#[export] Instance input_typed_heap : TypedHeap input_typed.
Proof. split; [by intros s []|]. intros h s [] Hh. by split. Qed.
#[export] Instance output_typed_heap : TypedHeap output_typed.
Proof. split; [by intros s []|]. intros h s [] Hh. by split. Qed.

#[export] Hint Resolve u64_size to_int32_int INT32_MAX_int zero_int set_begin_typed set_end_typed
  set_next_typed bt_begin bt_end bt_size bt_bytes it_read it_consumed it_limit ot_write ot_total
  read_cells_typed : types.

(** One rule per constructor of the monad; what is left are the ranges. *)
Ltac types_step :=
  match goal with
  | |- keeps _ _ (mret _) => apply keeps_ret
  | |- keeps _ _ (gets _ ≫= _) => eapply (keeps_bind _ (λ _, True)); [by apply keeps_gets|intros]
  | |- keeps _ _ (modify _ ≫= _) => eapply keeps_bind; [apply keeps_modify|intros]
  | |- keeps _ _ (modify _) => eapply keeps_mono; [apply keeps_modify|done]
  | |- keeps _ _ (deref _ ≫= _) => eapply keeps_bind; [apply (keeps_deref _)|intros]
  | |- keeps _ _ (store _ _ ≫= _) => eapply keeps_bind; [apply (keeps_store _)|intros]
  | |- keeps _ _ (store _ _) => eapply keeps_mono; [apply (keeps_store _)|done]
  | |- keeps _ _ (alloc_block ≫= _) => eapply keeps_bind; [apply (keeps_alloc _)|intros]
  | |- keeps _ _ (delete_block _ ≫= _) => eapply keeps_bind; [apply (keeps_delete _)|intros]
  | |- keeps _ _ (int32 _ ≫= _) => eapply keeps_bind; [apply keeps_int32|intros]
  | |- keeps _ _ (let _ := _ in _) => cbv zeta
  | |- keeps _ _ (if decide _ then _ else _) => case_decide
  end.
Ltac types := repeat types_step; try done; eauto 3 with types.

(** ** The receive buffer *)
Lemma set_read_typed z s : is_size z → input_typed s → input_typed (set_read_bytes z s).
Proof. intros Hz []. by split. Qed.
Lemma set_consumed_typed z s : is_size z → input_typed s → input_typed (set_consumed_bytes z s).
Proof. intros Hz []. by split. Qed.
Lemma set_limit_typed z s : is_int z → input_typed s → input_typed (set_limit z s).
Proof. intros Hz []. by split. Qed.
Lemma set_first_typed p s : input_typed s → input_typed (set_first_block p s).
Proof. intros []. by split. Qed.
Lemma set_cur_typed p s : input_typed s → input_typed (set_cur_block p s).
Proof. intros []. by split. Qed.
Lemma set_last_typed p s : input_typed s → input_typed (set_last_block p s).
Proof. intros []. by split. Qed.
#[export] Hint Resolve set_read_typed set_consumed_typed set_limit_typed set_first_typed
  set_cur_typed set_last_typed : types.

Lemma input_new_typed : input_typed InputBuffer_new.
Proof.
  split; simpl; [|unfold is_size; lia|unfold is_size; lia|apply INT32_MAX_int].
  apply map_Forall_singleton, new_block_typed.
Qed.

Abbreviation anything := (λ _, True).

Lemma get_buffer_typed : keeps input_typed (λ sp, is_int (sp_len sp)) InputBuffer_get_buffer.
Proof. unfold InputBuffer_get_buffer. types. Qed.

Lemma recv_add_typed n : keeps input_typed anything (InputBuffer_recv_add n).
Proof. unfold InputBuffer_recv_add. types. Qed.

Lemma advance_typed : keeps input_typed anything advance_if_spent.
Proof. unfold advance_if_spent. types. Qed.

Lemma fetch_typed value :
  Forall is_byte value →
  keeps input_typed (λ r, Forall is_byte r.2) (InputBuffer_fetch_uint32 value).
Proof.
  intros Hv. unfold InputBuffer_fetch_uint32. types.
  eapply (keeps_bind _ (Forall is_byte)); [apply keeps_in_bounds; intros; by eauto with types|].
  intros src Hsrc.
  eapply (keeps_bind _ (Forall is_byte)).
  { apply keeps_in_bounds. intros v Hw. by destruct (write_cells_typed _ _ _ _ Hv Hsrc Hw). }
  intros value1 Hv1. types. eapply (keeps_bind _ (Forall is_byte)).
  - types. eapply (keeps_bind _ (Forall is_byte)); [apply keeps_in_bounds; intros; by eauto with types|].
    intros src' Hsrc'. eapply (keeps_bind _ (Forall is_byte)).
    { apply keeps_in_bounds. intros v Hw. by destruct (write_cells_typed _ _ _ _ Hv1 Hsrc' Hw). }
    intros v Hv'. types.
  - intros value2 Hv2. eapply keeps_bind; [apply advance_typed|]. intros _ _. types.
Qed.

Lemma input_next_typed :
  keeps input_typed (λ r, match r with Some sp => is_int (sp_off sp) | None => True end) InputBuffer_next.
Proof.
  unfold InputBuffer_next. types. eapply keeps_bind; [apply advance_typed|]. intros _ _. types.
Qed.

Lemma input_back_up_typed fuel n : keeps input_typed anything (InputBuffer_back_up fuel n).
Proof.
  unfold InputBuffer_back_up. types. apply (keeps_iter _ anything); [|done]. intros [] _. types.
Qed.

Lemma skip_step_typed n :
  is_int n →
  keeps input_typed (λ x, match x with inl n => is_int n | inr _ => True end) (InputBuffer_skip_step n).
Proof.
  intros Hn. unfold InputBuffer_skip_step. types. eapply keeps_bind; [apply advance_typed|].
  intros _ _. types.
Qed.

Lemma skip_typed fuel n : is_int n → keeps input_typed anything (InputBuffer_skip fuel n).
Proof.
  intros Hn. unfold InputBuffer_skip. types.
  apply (keeps_iter _ is_int); [|done]. intros m Hm.
  eapply keeps_mono; [by apply skip_step_typed|]. by intros [].
Qed.

Lemma input_destroy_typed fuel : keeps input_typed anything (InputBuffer_destroy fuel).
Proof.
  unfold InputBuffer_destroy. apply (keeps_iter _ anything); [|done]. intros [] _. types.
  case_match; types.
Qed.

(** Any call of the receive buffer; the result is what the caller gets to see. *)
Inductive in_call :=
  | CallGetBuffer
  | CallFill (sp : span) (bytes : list cell)   (** bytes stored in a region *)
  | CallRecvAdd (nread : Z)
  | CallFetch (value : list cell)
  | CallNext
  | CallRead (sp : span)                       (** the bytes of a region *)
  | CallBackUp (n : Z)
  | CallSkip (n : Z)
  | CallPushLimit (limit : Z)
  | CallPopLimit.

Definition run_in_call (fuel : nat) (c : in_call) : M InputBuffer (list cell) :=
  match c with
  | CallGetBuffer => InputBuffer_get_buffer;; mret []
  | CallFill sp bytes => write_span sp bytes;; mret []
  | CallRecvAdd n => InputBuffer_recv_add n;; mret []
  | CallFetch value => r ← InputBuffer_fetch_uint32 value; mret r.2
  | CallNext => InputBuffer_next;; mret []
  | CallRead sp => read_span sp
  | CallBackUp n => InputBuffer_back_up fuel n;; mret []
  | CallSkip n => InputBuffer_skip fuel n;; mret []
  | CallPushLimit limit => InputBuffer_push_limit limit;; mret []
  | CallPopLimit => InputBuffer_pop_limit;; mret []
  end.
Fixpoint run_in_calls (fuel : nat) (cs : list in_call) : M InputBuffer (list cell) :=
  match cs with
  | [] => mret []
  | c :: cs => out ← run_in_call fuel c; outs ← run_in_calls fuel cs; mret (out ++ outs)
  end.

(** The arguments are in the range of their types. *)
Definition in_call_typed (c : in_call) : Prop :=
  match c with
  | CallFill _ bytes | CallFetch bytes => Forall is_byte bytes
  | CallRecvAdd n | CallBackUp n | CallSkip n | CallPushLimit n => is_int n
  | _ => True
  end.

Lemma run_in_call_typed fuel c :
  in_call_typed c → keeps input_typed (Forall is_byte) (run_in_call fuel c).
Proof.
  intros Hc. destruct c as [|sp bytes|n|value| |sp|n|n|limit|]; simpl in *.
  - eapply keeps_bind; [apply get_buffer_typed|]. intros _ _. by apply keeps_ret.
  - eapply keeps_bind; [by apply (keeps_write_span _)|]. intros _ _. by apply keeps_ret.
  - eapply keeps_bind; [apply recv_add_typed|]. intros _ _. by apply keeps_ret.
  - eapply keeps_bind; [by apply fetch_typed|]. intros r Hr. by apply keeps_ret.
  - eapply keeps_bind; [apply input_next_typed|]. intros _ _. by apply keeps_ret.
  - apply (keeps_read_span _).
  - eapply keeps_bind; [apply input_back_up_typed|]. intros _ _. by apply keeps_ret.
  - eapply keeps_bind; [by apply skip_typed|]. intros _ _. by apply keeps_ret.
  - unfold InputBuffer_push_limit. types.
  - unfold InputBuffer_pop_limit. types.
Qed.

Lemma run_in_calls_typed fuel cs :
  Forall in_call_typed cs → keeps input_typed (Forall is_byte) (run_in_calls fuel cs).
Proof.
  induction 1 as [|c cs Hc _ IH]; simpl; [by apply keeps_ret|].
  eapply keeps_bind; [by apply run_in_call_typed|]. intros out Hout.
  eapply keeps_bind; [exact IH|]. intros outs Houts. apply keeps_ret. by apply Forall_app.
Qed.

(** ** The send buffer *)
Lemma set_out_cur_typed p s : output_typed s → output_typed (set_out_cur p s).
Proof. intros []. by split. Qed.
Lemma set_out_last_typed p s : output_typed s → output_typed (set_out_last p s).
Proof. intros []. by split. Qed.
Lemma set_to_write_typed z s : is_size z → output_typed s → output_typed (set_to_write z s).
Proof. intros Hz []. by split. Qed.
Lemma set_total_typed z s : is_size z → output_typed s → output_typed (set_total z s).
Proof. intros Hz []. by split. Qed.
#[export] Hint Resolve set_out_cur_typed set_out_last_typed set_to_write_typed set_total_typed : types.

Lemma output_new_typed : output_typed OutputBuffer_new.
Proof.
  split; simpl; [|unfold is_size; lia|unfold is_size; lia].
  apply map_Forall_singleton, new_block_typed.
Qed.

Lemma extend_typed : keeps output_typed anything extend.
Proof. unfold extend. types. Qed.

Lemma output_next_typed : keeps output_typed (λ sp, is_int (sp_off sp) ∧ is_int (sp_len sp)) OutputBuffer_next.
Proof.
  unfold OutputBuffer_next. types. eapply (keeps_bind _ anything).
  - types. apply extend_typed.
  - intros _ _. types.
Qed.

Lemma output_back_up_typed n : keeps output_typed anything (OutputBuffer_back_up n).
Proof. unfold OutputBuffer_back_up. types. Qed.

Lemma append_step_typed src :
  Forall is_byte src →
  keeps output_typed (λ x, match x with inl src => Forall is_byte src | inr _ => True end)
    (OutputBuffer_append_step src).
Proof.
  intros Hsrc. unfold OutputBuffer_append_step. types.
  eapply (keeps_bind _ (Forall is_byte)); [apply keeps_in_bounds; intros; by eauto with types|].
  intros chunk Hchunk.
  eapply (keeps_bind _ (λ d, Z.of_nat (length d) = kBlockSize ∧ Forall is_byte d)).
  { apply keeps_in_bounds. intros d Hd.
    match goal with Hb : block_typed _ |- _ =>
      destruct (write_cells_typed _ _ _ _ (bt_bytes _ Hb) Hchunk Hd) as [Ht Hl];
      split; [rewrite Hl; apply Hb|done] end. }
  intros d [Hd1 Hd2]. types.
  - intros b Hb. by apply set_data_typed.
  - eapply (keeps_bind _ anything); [types; apply extend_typed|]. intros _ _. types.
    by apply Forall_drop.
Qed.

Lemma append_typed fuel src :
  Forall is_byte src → keeps output_typed anything (OutputBuffer_append fuel src).
Proof.
  intros Hsrc. unfold OutputBuffer_append. apply (keeps_iter _ (Forall is_byte)); [|done].
  intros l Hl. eapply keeps_mono; [by apply append_step_typed|]. by intros [].
Qed.

Lemma get_iovecs_typed fuel :
  keeps output_typed (Forall (λ sp, is_int (sp_off sp) ∧ is_size (sp_len sp))) (OutputBuffer_get_iovecs fuel).
Proof.
  unfold OutputBuffer_get_iovecs. types.
  apply (keeps_iter _ (λ l, Forall (λ sp, is_int (sp_off sp) ∧ is_size (sp_len sp)) l.2)); [|done].
  intros [[l|] iovs] Hiovs; simpl in *; types.
  apply Forall_app. split; [done|]. apply Forall_singleton. simpl. eauto with types.
Qed.

Lemma send_step_typed n :
  is_int n →
  keeps output_typed (λ x, match x with inl n => is_int n | inr _ => True end) (OutputBuffer_send_step n).
Proof.
  intros Hn. unfold OutputBuffer_send_step. types.
  eapply (keeps_bind _ anything).
  - types. eapply (keeps_bind _ anything); [types; apply extend_typed|]. intros _ _. types.
  - intros _ _. types.
Qed.

Lemma send_add_typed fuel n : is_int n → keeps output_typed anything (OutputBuffer_send_add fuel n).
Proof.
  intros Hn. unfold OutputBuffer_send_add. types.
  apply (keeps_iter _ is_int); [|done]. intros m Hm.
  eapply keeps_mono; [by apply send_step_typed|]. by intros [].
Qed.

Lemma output_destroy_typed fuel : keeps output_typed anything (OutputBuffer_destroy fuel).
Proof.
  unfold OutputBuffer_destroy. apply (keeps_iter _ anything); [|done]. intros [] _. types.
  case_match; types.
Qed.

(** Any call of the send buffer. *)
Inductive out_call :=
  | CallOutNext
  | CallStore (sp : span) (bytes : list cell)
  | CallOutBackUp (count : Z)
  | CallAppend (src : list cell)
  | CallIovecs                                 (** [get_iovecs], and the bytes there *)
  | CallSendAdd (nwrite : Z).

Definition run_out_call (fuel : nat) (c : out_call) : M OutputBuffer (list cell) :=
  match c with
  | CallOutNext => OutputBuffer_next;; mret []
  | CallStore sp bytes => write_span sp bytes;; mret []
  | CallOutBackUp n => OutputBuffer_back_up n;; mret []
  | CallAppend src => OutputBuffer_append fuel src;; mret []
  | CallIovecs => iovs ← OutputBuffer_get_iovecs fuel; bss ← mapM read_span iovs; mret (concat bss)
  | CallSendAdd n => OutputBuffer_send_add fuel n;; mret []
  end.
Fixpoint run_out_calls (fuel : nat) (cs : list out_call) : M OutputBuffer (list cell) :=
  match cs with
  | [] => mret []
  | c :: cs => out ← run_out_call fuel c; outs ← run_out_calls fuel cs; mret (out ++ outs)
  end.

Definition out_call_typed (c : out_call) : Prop :=
  match c with
  | CallStore _ bytes | CallAppend bytes => Forall is_byte bytes
  | CallOutBackUp n | CallSendAdd n => is_int n
  | _ => True
  end.

Lemma read_spans_typed iovs : keeps output_typed (Forall (Forall is_byte)) (mapM read_span iovs).
Proof.
  induction iovs as [|sp iovs IH]; simpl; [by apply keeps_ret|].
  eapply keeps_bind; [apply (keeps_read_span _)|]. intros bs Hbs.
  eapply keeps_bind; [exact IH|]. intros bss Hbss. apply keeps_ret. by constructor.
Qed.

Lemma run_out_call_typed fuel c :
  out_call_typed c → keeps output_typed (Forall is_byte) (run_out_call fuel c).
Proof.
  intros Hc. destruct c as [|sp bytes|n|src| |n]; simpl in *.
  - eapply keeps_bind; [apply output_next_typed|]. intros _ _. by apply keeps_ret.
  - eapply keeps_bind; [by apply (keeps_write_span _)|]. intros _ _. by apply keeps_ret.
  - eapply keeps_bind; [apply output_back_up_typed|]. intros _ _. by apply keeps_ret.
  - eapply keeps_bind; [by apply append_typed|]. intros _ _. by apply keeps_ret.
  - eapply keeps_bind; [apply get_iovecs_typed|]. intros iovs _.
    eapply keeps_bind; [apply read_spans_typed|]. intros bss Hbss. apply keeps_ret. by apply Forall_concat.
  - eapply keeps_bind; [by apply send_add_typed|]. intros _ _. by apply keeps_ret.
Qed.

Lemma run_out_calls_typed fuel cs :
  Forall out_call_typed cs → keeps output_typed (Forall is_byte) (run_out_calls fuel cs).
Proof.
  induction 1 as [|c cs Hc _ IH]; simpl; [by apply keeps_ret|].
  eapply keeps_bind; [by apply run_out_call_typed|]. intros out Hout.
  eapply keeps_bind; [exact IH|]. intros outs Houts. apply keeps_ret. by apply Forall_app.
Qed.
