(* ===== verification/Conn.v ===== *)
(** * The interface of connections (net/connection.h)

    [RpcServer::recv_fn] and [ClientChannel::recv_fn] are written against the
    abstract class [net::Connection]; [PollConnection] and [UringConnection] derive
    from it.  Here is that class as they see it: first the two buffers a connection
    owns, then the members they use.  What the implementations promise is stated in
    [Receiver]. *)
From S2P Require Import Prelude Block Segments InputStream OutputStream.

(** ** The buffers *)
Class Buffers (S : Type) := {
  in_buf : S → InputBuffer;                    (** [read_buf_] *)
  set_in_buf : InputBuffer → S → S;
  out_buf : S → OutputBuffer;                  (** [write_buf_] *)
  set_out_buf : OutputBuffer → S → S;
}.
#[global] Hint Mode Buffers ! : typeclass_instances.

(** The operations of the two buffers, on the connection that owns them: what
    [get_input_stream] and [get_output_stream] give access to. *)
Definition on_read_buf `{Buffers C} {A} (m : M InputBuffer A) : M C A := λ c,
  match m (in_buf c) with
  | Done (a, b) => Done (a, set_in_buf b c)
  | Faulted f => Faulted f
  | OutOfFuel => OutOfFuel
  end.
Definition on_write_buf `{Buffers C} {A} (m : M OutputBuffer A) : M C A := λ c,
  match m (out_buf c) with
  | Done (a, b) => Done (a, set_out_buf b c)
  | Faulted f => Faulted f
  | OutOfFuel => OutOfFuel
  end.

(** [Connection::read_bytes] and [Connection::write_bytes] *)
Definition Connection_read_bytes `{Buffers C} (c : C) : Z := InputBuffer_bytes (in_buf c).
Definition Connection_write_bytes `{Buffers C} (c : C) : Z := OutputBuffer_bytes (out_buf c).

(** A send buffer of at most 1022 blocks' worth of bytes is offered to [writev]
    as a whole. *)
Definition kWindow : Z := 1022 * 8192.

(** The two buffers are separate members. *)
Class BuffersLaws C `{Buffers C} := {
  in_set_in b (c : C) : in_buf (set_in_buf b c) = b;
  in_set_out b (c : C) : in_buf (set_out_buf b c) = in_buf c;
  out_set_out b (c : C) : out_buf (set_out_buf b c) = b;
  out_set_in b (c : C) : out_buf (set_in_buf b c) = out_buf c;
  set_in_set_in b b' (c : C) : set_in_buf b (set_in_buf b' c) = set_in_buf b c;
  set_out_set_out b b' (c : C) : set_out_buf b (set_out_buf b' c) = set_out_buf b c;
}.

Lemma wp_read_buf `{Buffers C} {A} (m : M InputBuffer A) (Q : A → C → Prop) c :
  wp m (λ a b, Q a (set_in_buf b c)) (in_buf c) → wp (on_read_buf m) Q c.
Proof. unfold wp, on_read_buf. by destruct (m (in_buf c)) as [[a b]| |]. Qed.
Lemma wp_write_buf `{Buffers C} {A} (m : M OutputBuffer A) (Q : A → C → Prop) c :
  wp m (λ a b, Q a (set_out_buf b c)) (out_buf c) → wp (on_write_buf m) Q c.
Proof. unfold wp, on_write_buf. by destruct (m (out_buf c)) as [[a b]| |]. Qed.


Lemma follows_read_buf `{Buffers C} {A} (R : C → C → Prop) (m : M InputBuffer A) :
  (∀ b c, R c (set_in_buf b c)) → follows R (on_read_buf m).
Proof.
  intros HR c a c' Hrun. unfold on_read_buf in Hrun.
  destruct (m (in_buf c)) as [[a1 b]| |]; [|done|done]. by injection Hrun as <- <-.
Qed.
Lemma follows_write_buf `{Buffers C} {A} (R : C → C → Prop) (m : M OutputBuffer A) :
  (∀ b c, R c (set_out_buf b c)) → follows R (on_write_buf m).
Proof.
  intros HR c a c' Hrun. unfold on_write_buf in Hrun.
  destruct (m (out_buf c)) as [[a1 b]| |]; [|done|done]. by injection Hrun as <- <-.
Qed.

(** ** The members that the receiving coroutines use *)
Class Conn C `{Buffers C} := {
  is_closed : C → bool;                        (** [closed()] *)
  close_conn : M C unit;                       (** [close()] *)
  register_read : M C unit;                    (** [co_await RegisterReadAwaiter] *)
  (** [co_await conn->async_read()]: the result is whether the coroutine is
      suspended. *)
  await_read : nat → M C bool;
  resume_sender : nat → M C unit;              (** [resume_write()] *)
}.
#[global] Hint Mode Conn ! - : typeclass_instances.
