(* ===== verification/Connection.v ===== *)
(** * Connections (net/connection.h, net/poll_connection.cc), the awaiters
    (scheduler/awaitable.cc) and the sending coroutine (RpcServer::send_fn,
    ClientChannel::send_fn)

    A [Connection] owns the two stream buffers, the socket and the handles of
    the two coroutines that serve it.  All of it runs on the thread of its
    executor, so the code is sequential; what is concurrent is the kernel, whose
    answers are part of the state here: [rx] holds what the coming calls of [read]
    will return and [tx] what the coming calls of [writev] will, both arbitrary.
    When an answer list is used up the kernel answers [EAGAIN].

    A coroutine is its suspension point.  Resuming one that is not suspended, in
    particular one whose frame is destroyed because it has returned, is a
    fault. *)
From S2P Require Import Prelude Block Segments InputStream OutputStream Conn.

(** ** The kernel's answers *)
Inductive errno := EAGAIN | EWOULDBLOCK | EINTR | EOTHER.
#[export] Instance errno_eq_dec : EqDecision errno.
Proof. solve_decision. Defined.

Inductive read_answer :=
  | RdBytes (bytes : list cell)    (** bytes of the stream, at least one *)
  | RdEof
  | RdErr (e : errno).

Inductive write_answer :=
  | WrAccept (n : nat)             (** as much of the data, at most *)
  | WrErr (e : errno).

(** ** Events (scheduler/scheduler.h) *)
Inductive EventType := READ | WRITE | DELETE | UNKNOWN.
#[export] Instance EventType_eq_dec : EqDecision EventType.
Proof. solve_decision. Defined.

(** ** Connection *)

(** Where the sending coroutine stands. *)
Inductive send_state :=
  | SendNotStarted                 (** [write_handle_] is not set *)
  | SendWaiting                    (** suspended in [WaitWriteAwaiter] *)
  | SendWriting                    (** suspended in [WriteAwaiter] *)
  | SendDone.                      (** returned, its frame destroyed *)
#[export] Instance send_state_eq_dec : EqDecision send_state.
Proof. solve_decision. Defined.

Record Connection := mkConn {
  read_buf_ : InputBuffer;
  write_buf_ : OutputBuffer;
  closed_ : bool;                  (** of the socket *)
  send_co : send_state;            (** what [write_handle_] refers to *)
  events : list EventType;         (** history: the [add_event] calls *)
  rx : list read_answer;           (** the kernel, receiving *)
  tx : list write_answer;          (** the kernel, sending *)
  wire : list cell;                (** history: the bytes the kernel accepted *)
}.

Definition set_read_buf b c := mkConn b (write_buf_ c) (closed_ c) (send_co c) (events c) (rx c) (tx c) (wire c).
Definition set_write_buf b c := mkConn (read_buf_ c) b (closed_ c) (send_co c) (events c) (rx c) (tx c) (wire c).
Definition set_closed b c := mkConn (read_buf_ c) (write_buf_ c) b (send_co c) (events c) (rx c) (tx c) (wire c).
Definition set_send_co b c := mkConn (read_buf_ c) (write_buf_ c) (closed_ c) b (events c) (rx c) (tx c) (wire c).
Definition log_event e c := mkConn (read_buf_ c) (write_buf_ c) (closed_ c) (send_co c) (events c ++ [e]) (rx c) (tx c) (wire c).
Definition set_rx b c := mkConn (read_buf_ c) (write_buf_ c) (closed_ c) (send_co c) (events c) b (tx c) (wire c).
Definition set_tx b c := mkConn (read_buf_ c) (write_buf_ c) (closed_ c) (send_co c) (events c) (rx c) b (wire c).
Definition put_wire bs c := mkConn (read_buf_ c) (write_buf_ c) (closed_ c) (send_co c) (events c) (rx c) (tx c) (wire c ++ bs).

(** [Connection::Connection], for a socket whose kernel answers with [rx], [tx]. *)
Definition Connection_new (rx : list read_answer) (tx : list write_answer) : Connection :=
  mkConn InputBuffer_new OutputBuffer_new false SendNotStarted [] rx tx [].

#[export] Instance Connection_buffers : Buffers Connection := {|
  in_buf := read_buf_;
  set_in_buf := set_read_buf;
  out_buf := write_buf_;
  set_out_buf := set_write_buf;
|}.
#[export] Instance Connection_buffers_laws : BuffersLaws Connection.
Proof. by split. Qed.

(** [Socket::close]: shut down once. *)
Definition Connection_close : M Connection unit := modify (set_closed true).

(** [Executor::add_event], as far as the connection can see it: its result is
    not used. *)
Definition add_event (e : EventType) : M Connection unit := modify (log_event e).

(** ** System calls *)

(** [read] into the region at [off] of block [p] with room for [max] bytes;
    returns the answer, cut to the room. *)
Definition sys_read (p : ptr) (off max : Z) : M Connection read_answer :=
  answers ← gets rx;
  match answers with
  | [] => mret (RdErr EAGAIN)
  | RdEof :: _ => mret RdEof
  | RdErr e :: rest => modify (set_rx rest);; mret (RdErr e)
  | RdBytes bytes :: rest =>
      let got := take (Z.to_nat max) bytes in
      let left := drop (Z.to_nat max) bytes in
      on_read_buf (write_span (mkSpan p off max) got);;
      modify (set_rx (if decide (left = []) then rest else RdBytes left :: rest));;
      mret (RdBytes got)
  end.

(** [writev]: the kernel takes a prefix of the bytes of the regions. *)
Definition sys_writev (iovs : list span) : M Connection write_answer :=
  answers ← gets tx;
  match answers with
  | [] => mret (WrErr EAGAIN)
  | WrErr e :: rest => modify (set_tx rest);; mret (WrErr e)
  | WrAccept n :: rest =>
      bss ← on_write_buf (mapM read_span iovs);
      let sent := take n (concat bss) in
      modify (put_wire sent);;
      modify (set_tx rest);;
      mret (WrAccept (length sent))
  end.

(** ** PollConnection *)

(** One round of the loop of [PollConnection::async_write]. *)
Definition async_write_step (fuel : nat) (need_write nwrite : Z) : M Connection (Z + Z) :=
  if decide (nwrite < need_write)%Z then
    iovs ← on_write_buf (OutputBuffer_get_iovecs fuel);
    r ← sys_writev iovs;
    match r with
    | WrAccept n => nwrite' ← int32 (nwrite + n); mret (inl nwrite')
    | WrErr EINTR => mret (inl nwrite)
    | WrErr _ => mret (inr nwrite)
    end
  else mret (inr nwrite).

(** [PollConnection::async_write]; returns [should_suspend]. *)
Definition PollConnection_async_write (fuel : nat) : M Connection bool :=
  wb ← gets Connection_write_bytes;
  let need_write := to_int32 wb in
  nwrite ← iter fuel (async_write_step fuel need_write) 0%Z;
  on_write_buf (OutputBuffer_send_add fuel nwrite);;
  cl ← gets closed_;
  mret (negb cl && bool_decide (nwrite < need_write)%Z).

(** One round of the loop of [PollConnection::async_read]; the locals are
    [buffer], as an offset in the block, [max_size] and [read_bytes]. *)
Definition async_read_step (p : ptr) (l : Z * Z * Z) : M Connection ((Z * Z * Z) + Z) :=
  let '(buffer, max_size, read_bytes) := l in
  if decide (0 < max_size)%Z then
    r ← sys_read p buffer max_size;
    match r with
    | RdEof | RdBytes [] => Connection_close;; mret (inr read_bytes)
    | RdBytes got =>
        rb ← int32 (read_bytes + length got);
        ms ← int32 (max_size - length got);
        mret (inl (buffer + length got, ms, rb)%Z)
    | RdErr (EAGAIN | EWOULDBLOCK) => mret (inr read_bytes)
    | RdErr EINTR => mret (inl (buffer, max_size, read_bytes))
    | RdErr EOTHER => Connection_close;; mret (inr read_bytes)
    end
  else mret (inr read_bytes).

(** [PollConnection::async_read]; returns [should_suspend].  [resume_write] is
    [Connection::resume_write]. *)
Definition PollConnection_async_read (resume_write : M Connection unit) (fuel : nat)
    : M Connection bool :=
  sp ← on_read_buf InputBuffer_get_buffer;
  read_bytes ← iter fuel (async_read_step (sp_block sp)) (sp_off sp, sp_len sp, 0%Z);
  cl ← gets closed_;
  (if (cl : bool) then resume_write else mret tt);;
  on_read_buf (InputBuffer_recv_add read_bytes);;
  cl ← gets closed_;
  mret (negb cl && bool_decide (read_bytes ≤ 0)%Z).

(** ** Awaiters *)

(** [RegisterReadAwaiter::await_suspend]: does not suspend. *)
Definition RegisterReadAwaiter_await : M Connection bool :=
  add_event READ;; mret false.

(** [ReadAwaiter]: never ready; [await_suspend] decides whether to suspend. *)
Definition ReadAwaiter_await_suspend (should_suspend : bool) : M Connection bool :=
  cl ← gets closed_;
  (if (cl : bool) then add_event DELETE else mret tt);;
  mret (negb cl && should_suspend).

(** [WaitWriteAwaiter::await_ready] *)
Definition WaitWriteAwaiter_await_ready (c : Connection) : bool :=
  closed_ c || bool_decide (0 < Connection_write_bytes c)%Z.

(** ** The sending coroutine *)

(** The body of the loop from [co_await conn->async_write()] on: suspended in
    [WriteAwaiter], or round the loop. *)
Definition send_write (fuel : nat) : M Connection bool :=
  suspend ← PollConnection_async_write fuel;
  if (suspend : bool)
  then modify (set_send_co SendWriting);; add_event WRITE;; mret true
  else mret false.

(** One round of the loop of [send_fn]; it is left when the coroutine suspends or
    returns. *)
Definition send_body (fuel : nat) (_ : unit) : M Connection (unit + unit) :=
  cl ← gets closed_;
  if (cl : bool) then modify (set_send_co SendDone);; mret (inr tt)
  else
    rdy ← gets WaitWriteAwaiter_await_ready;
    if (rdy : bool) then
      suspended ← send_write fuel;
      mret (if (suspended : bool) then inr tt else inl tt)
    else modify (set_send_co SendWaiting);; mret (inr tt).

(** [send_fn] from the head of its loop until it suspends or returns. *)
Definition send_loop (fuel : nat) : M Connection unit := iter fuel (send_body fuel) tt.

(** The task that [RpcServer::start] and the [ClientChannel] constructor spawn. *)
Definition send_fn (fuel : nat) : M Connection unit := send_loop fuel.

(** [Connection::resume_write] *)
Definition resume_write (fuel : nat) : M Connection unit :=
  st ← gets send_co;
  match st with
  | SendWaiting =>
      suspended ← send_write fuel;
      if (suspended : bool) then mret tt else send_loop fuel
  | SendWriting => send_loop fuel
  | SendNotStarted | SendDone => fail_with ResumeDestroyed
  end.

(** ** The connection as the receiving coroutines see it *)
#[export] Instance PollConnection_conn : Conn Connection := {|
  is_closed := closed_;
  close_conn := Connection_close;
  register_read := RegisterReadAwaiter_await;; mret tt;
  await_read fuel :=
    should_suspend ← PollConnection_async_read (resume_write fuel) fuel;
    ReadAwaiter_await_suspend should_suspend;
  resume_sender := resume_write;
|}.
