(* ===== verification/Coroutine.v ===== *)
(** * Coroutines (scheduler/awaitable.h, scheduler/awaitable.cc, scheduler/task.h)

    A [co_await] asks the awaiter whether it is ready; if not, it hands it the handle
    of the coroutine, and the coroutine stays suspended unless [await_suspend] returns
    [false].  [Task] suspends neither before its body nor after it: calling a
    coroutine runs it, and when it returns its frame is gone.

    Connection.v models [send_fn] and the waiting loops in direct style.  Here the same
    code is written with the awaiters, one [co_await] at a time, and proved to do the
    same. *)
From S2P Require Import Prelude Block Segments InputStream OutputStream Streams Conn Connection.

(** ** Awaiters *)

(** A handle is the state in which it leaves the coroutine that it resumes. *)
Record Awaiter := mkAwaiter {
  await_ready : M Connection bool;
  await_suspend : send_state → M Connection bool;     (** whether to stay suspended *)
}.

(** Whether the coroutine suspends. *)
Definition co_await (a : Awaiter) (handle : send_state) : M Connection bool :=
  ready ← await_ready a;
  if (ready : bool) then mret false else await_suspend a handle.

(** The handle of the receiver is set once; it is not part of the state. *)
Definition RegisterReadAwaiter : Awaiter := {|
  await_ready := mret false;
  await_suspend _ := add_event READ;; mret false;
|}.
Definition ReadAwaiter (should_suspend : bool) : Awaiter := {|
  await_ready := mret false;
  await_suspend _ := ReadAwaiter_await_suspend should_suspend;
|}.
Definition WriteAwaiter (should_suspend : bool) : Awaiter := {|
  await_ready := mret (negb should_suspend);
  await_suspend handle := modify (set_send_co handle);; add_event WRITE;; mret true;
|}.
Definition WaitWriteAwaiter : Awaiter := {|
  await_ready := gets WaitWriteAwaiter_await_ready;
  await_suspend handle := modify (set_send_co handle);; mret true;
|}.

(** [std::suspend_never], which [Task::promise_type] returns at both ends. *)
Definition suspend_never : Awaiter := {|
  await_ready := mret true;
  await_suspend _ := mret true;
|}.
Definition initial_suspend : Awaiter := suspend_never.
Definition final_suspend : Awaiter := suspend_never.

(** ** [send_fn] *)

(** From one [co_await] to the next. *)
Inductive send_pc := HeadOfLoop | BeforeWrite.

Definition send_step (fuel : nat) (pc : send_pc) : M Connection (send_pc + unit) :=
  match pc with
  | HeadOfLoop =>
      cl ← gets closed_;
      if (cl : bool) then
        suspended ← co_await final_suspend SendDone;
        if (suspended : bool) then mret (inr tt)
        else modify (set_send_co SendDone);; mret (inr tt)
      else
        suspended ← co_await WaitWriteAwaiter SendWaiting;
        mret (if (suspended : bool) then inr tt else inl BeforeWrite)
  | BeforeWrite =>
      should_suspend ← PollConnection_async_write fuel;
      suspended ← co_await (WriteAwaiter should_suspend) SendWriting;
      mret (if (suspended : bool) then inr tt else inl HeadOfLoop)
  end.

(** The coroutine from [pc] until it suspends or returns, and its call. *)
Definition send_from (fuel : nat) (pc : send_pc) : M Connection unit :=
  iter (2 * fuel + 1) (send_step fuel) pc.
Definition send_call (fuel : nat) : M Connection unit :=
  suspended ← co_await initial_suspend SendNotStarted;
  if (suspended : bool) then mret tt else send_from fuel HeadOfLoop.

(** [handle.resume()]. *)
Definition resume_handle (fuel : nat) : M Connection unit :=
  handle ← gets send_co;
  match handle with
  | SendWaiting => send_from fuel BeforeWrite
  | SendWriting => send_from fuel HeadOfLoop
  | SendNotStarted | SendDone => fail_with ResumeDestroyed
  end.

(** ** The two styles agree *)
Lemma send_step_write fuel n c :
  iter (S n) (send_step fuel) BeforeWrite c =
  (suspended ← send_write fuel;
   if (suspended : bool) then mret tt else iter n (send_step fuel) HeadOfLoop) c.
Proof.
  cbn [iter send_step]. unfold send_write, mbind, M_bind.
  destruct (PollConnection_async_write fuel c) as [[[] c1]| |]; done.
Qed.

(** The head of the loop, in the two styles. *)
Lemma send_body_head fuel c :
  send_body fuel tt c =
    if closed_ c then Done (inr tt, set_send_co SendDone c)
    else if WaitWriteAwaiter_await_ready c
    then (suspended ← send_write fuel; mret (if (suspended : bool) then inr tt else inl tt)) c
    else Done (inr tt, set_send_co SendWaiting c).
Proof.
  unfold send_body, mbind, M_bind, gets, modify. destruct (closed_ c); [done|].
  by destruct (WaitWriteAwaiter_await_ready c).
Qed.
Lemma send_step_head fuel c :
  send_step fuel HeadOfLoop c =
    if closed_ c then Done (inr tt, set_send_co SendDone c)
    else if WaitWriteAwaiter_await_ready c then Done (inl BeforeWrite, c)
    else Done (inr tt, set_send_co SendWaiting c).
Proof.
  unfold send_step, co_await, mbind, M_bind, gets, modify. destruct (closed_ c); [done|]. simpl.
  by destruct (WaitWriteAwaiter_await_ready c).
Qed.

Lemma send_loop_steps fuel n c o :
  iter n (send_body fuel) tt c = o → o ≠ OutOfFuel →
  iter (2 * n) (send_step fuel) HeadOfLoop c = o.
Proof.
  revert c. induction n as [|n IH]; intros c Ho Hne; [simpl in Ho; congruence|].
  replace (2 * S n) with (S (S (2 * n))) by lia.
  assert (iter (S (S (2 * n))) (send_step fuel) HeadOfLoop c =
    (x ← send_step fuel HeadOfLoop;
     match x with inl pc => iter (S (2 * n)) (send_step fuel) pc | inr r => mret r end) c) as -> by done.
  cbn [iter] in Ho. unfold mbind, M_bind in Ho |- *. rewrite send_body_head in Ho. rewrite send_step_head.
  destruct (closed_ c); [exact Ho|]. destruct (WaitWriteAwaiter_await_ready c); [|exact Ho].
  rewrite send_step_write. unfold mbind, M_bind in Ho |- *.
  destruct (send_write fuel c) as [[[] c1]| |]; try exact Ho. by apply IH.
Qed.

Lemma iter_more {S L R} (body : L → M S (L + R)) n m l s o :
  iter n body l s = o → o ≠ OutOfFuel → n ≤ m → iter m body l s = o.
Proof.
  revert m l s. induction n as [|n IH]; intros m l s Ho Hne Hle; [simpl in Ho; congruence|].
  destruct m as [|m]; [lia|]. cbn [iter] in Ho |- *. unfold mbind, M_bind in Ho |- *.
  destruct (body l s) as [[[l'|r] s']| |]; try exact Ho. apply IH; [done|done|lia].
Qed.

Lemma coroutine_send fuel c o :
  send_fn fuel c = o → o ≠ OutOfFuel → send_call fuel c = o.
Proof.
  intros Ho Hne. apply (iter_more _ (2 * fuel)); [|done|lia]. by apply send_loop_steps.
Qed.

Lemma coroutine_resume fuel c o :
  resume_write fuel c = o → o ≠ OutOfFuel → resume_handle fuel c = o.
Proof.
  unfold resume_write, resume_handle, mbind at 1 3, M_bind at 1 3, gets. intros Ho Hne.
  destruct (send_co c); try exact Ho.
  - unfold send_from. rewrite Nat.add_1_r, send_step_write. unfold mbind, M_bind in Ho |- *.
    destruct (send_write fuel c) as [[[] c1]| |]; try exact Ho. by apply send_loop_steps.
  - by apply (coroutine_send fuel c).
Qed.

(** What the receiver waits for. *)
Lemma coroutine_read fuel c :
  await_read (C := Connection) fuel c =
    (should_suspend ← PollConnection_async_read (resume_write fuel) fuel;
     co_await (ReadAwaiter should_suspend) SendNotStarted) c.
Proof. reflexivity. Qed.
Lemma coroutine_register c :
  register_read (C := Connection) c = (co_await RegisterReadAwaiter SendNotStarted;; mret tt) c.
Proof. reflexivity. Qed.
