(* ===== verification/ConnectionProofs.v ===== *)
(** * What a connection does to the byte streams

    Writing: [PollConnection::async_write] calls [writev] in a loop without
    removing from the send buffer what was accepted, so each round offers the
    same bytes again ([tx_effect] is this in closed form).  When at most one
    [writev] of a call is accepted in part, the stream is intact; otherwise bytes
    are sent twice and others never.

    Reading: [PollConnection::async_read] appends to the receive buffer exactly
    the bytes the kernel handed over. *)
From S2P Require Import Prelude Block Segments InputStream OutputStream Streams Conn Connection.

Lemma wp_on_write_buf {A} (m : M OutputBuffer A) (Q : A → Connection → Prop) c :
  wp m (λ a b, Q a (set_write_buf b c)) (write_buf_ c) → wp (on_write_buf m) Q c.
Proof. exact (wp_write_buf m Q c). Qed.

Lemma wp_on_read_buf {A} (m : M InputBuffer A) (Q : A → Connection → Prop) c :
  wp m (λ a b, Q a (set_read_buf b c)) (read_buf_ c) → wp (on_read_buf m) Q c.
Proof. exact (wp_read_buf m Q c). Qed.

Lemma set_write_buf_id c : set_write_buf (write_buf_ c) c = c.
Proof. by destruct c. Qed.
Lemma set_read_buf_id c : set_read_buf (read_buf_ c) c = c.
Proof. by destruct c. Qed.

Abbreviation unsent c := (output_contents (write_buf_ c)).
Abbreviation unread c := (input_contents (read_buf_ c)).

(** ** Writing *)

(** The rounds of the write loop: [offer] is what every [writev] is given.
    Returns [nwrite], the answers left and the bytes accepted. *)
Fixpoint tx_effect (need : Z) (offer : list cell) (nwrite : Z) (answers : list write_answer)
    : Z * list write_answer * list cell :=
  match answers with
  | [] => (nwrite, [], [])
  | a :: rest =>
      if decide (nwrite < need)%Z then
        match a with
        | WrAccept n =>
            let sent := take n offer in
            let r := tx_effect need offer (nwrite + length sent) rest in
            (r.1.1, r.1.2, sent ++ r.2)
        | WrErr EINTR => tx_effect need offer nwrite rest
        | WrErr _ => (nwrite, rest, [])
        end
      else (nwrite, a :: rest, [])
  end.

(** The send buffer fits the [int] arithmetic and one [writev]. *)
Definition writable (c : Connection) : Prop :=
  output_inv (write_buf_ c) ∧ (length (unsent c) ≤ 2 ^ 30)%Z ∧
  (size (out_heap (write_buf_ c)) ≤ IOV_MAX)%Z.

Lemma window_writable c :
  output_inv (write_buf_ c) → (length (unsent c) ≤ kWindow)%Z → writable c.
Proof.
  intros Hinv Hlen. pose proof (output_blocks_bound _ Hinv) as Hb.
  pose proof kBlockSize_val as HK. unfold kWindow, writable, IOV_MAX in *.
  split_and!; [done|lia|nia].
Qed.

Lemma wp_offer {A} fuel (k : write_answer → M Connection A) Q c :
  writable c → size (out_heap (write_buf_ c)) < fuel →
  match tx c with
  | [] => wp (k (WrErr EAGAIN)) Q c
  | WrErr e :: rest => wp (k (WrErr e)) Q (set_tx rest c)
  | WrAccept n :: rest =>
      let sent := take n (unsent c) in
      wp (k (WrAccept (length sent))) Q (set_tx rest (put_wire sent c))
  end →
  wp (iovs ← on_write_buf (OutputBuffer_get_iovecs fuel); r ← sys_writev iovs; k r) Q c.
Proof.
  intros (Hinv & _ & Hiov) Hfuel HQ. apply wp_bind, wp_on_write_buf.
  eapply wp_mono; [by apply OutputBuffer_get_iovecs_spec|].
  intros iovs b (-> & _ & Hrd). rewrite set_write_buf_id.
  apply wp_bind. unfold sys_writev. apply wp_bind, wp_gets.
  destruct (tx c) as [|[n|e] rest].
  - by apply wp_ret.
  - apply wp_bind, wp_on_write_buf. eapply wp_mono; [exact Hrd|].
    intros bss b (-> & _ & Hall & _). rewrite set_write_buf_id, Hall by done. by wp_steps.
  - by wp_steps.
Qed.

Lemma wp_async_write_loop fuel0 fuel nwrite c :
  let need := (length (unsent c) : Z) in
  let r := tx_effect need (unsent c) nwrite (tx c) in
  writable c → size (out_heap (write_buf_ c)) < fuel0 → S (length (tx c)) < fuel →
  (0 ≤ nwrite ≤ 2 * need)%Z →
  wp (iter fuel (async_write_step fuel0 need) nwrite)
    (λ n c', n = r.1.1 ∧ c' = set_tx r.1.2 (put_wire r.2 c) ∧ (0 ≤ n ≤ 2 * need)%Z) c.
Proof.
  intros need r Hwr Hf0 Hf Hn. pose proof Hwr as (_ & Hsmall & _).
  remember (tx c) as answers eqn:Htx.
  revert c nwrite fuel need r Hwr Hf0 Hf Hn Hsmall Htx.
  induction answers as [|a answers IH]; intros c nwrite fuel need r Hwr Hf0 Hf Hn Hsmall Htx;
    (destruct fuel as [|fuel]; [simpl in Hf; lia|]); cbn [iter]; apply wp_bind;
    unfold async_write_step; destruct (decide (nwrite < need)%Z) as [Hlt|Hge].
  all: try (apply wp_ret, wp_ret; unfold r; simpl; rewrite ?decide_False by done;
    split_and!; [done| |lia|lia]; destruct c; unfold set_tx, put_wire; simpl in *;
    by rewrite app_nil_r, Htx).
  - apply wp_offer; [done|done|]. rewrite <-Htx. apply wp_ret, wp_ret.
    split_and!; [done| |lia|lia]. destruct c. unfold set_tx, put_wire. simpl in *.
    by rewrite app_nil_r, Htx.
  - apply wp_offer; [done|done|]. rewrite <-Htx. unfold r. cbn [tx_effect].
    rewrite decide_True by done. simpl in Hf. destruct a as [n|e].
    + set (sent := take n (unsent c)). assert (length sent ≤ length (unsent c))
        by (unfold sent; rewrite length_take; lia).
      cbv zeta. unfold need in *.
      apply wp_bind, wp_int32; [unfold INT32_MIN, INT32_MAX; lia|]. apply wp_ret.
      eapply wp_mono; [apply (IH (set_tx answers (put_wire sent c))); simpl; try done; lia|].
      intros n1 c1 (-> & -> & Hn1). split_and!; [done| |apply Hn1|apply Hn1].
      destruct c. unfold set_tx, put_wire. simpl. by rewrite app_assoc.
    + destruct e.
      * apply wp_ret, wp_ret. split_and!; [done| |lia|lia]. destruct c.
        unfold set_tx, put_wire. simpl. by rewrite app_nil_r.
      * apply wp_ret, wp_ret. split_and!; [done| |lia|lia]. destruct c.
        unfold set_tx, put_wire. simpl. by rewrite app_nil_r.
      * apply wp_ret. eapply wp_mono; [apply (IH (set_tx answers c)); simpl; try done; lia|].
        intros n1 c1 (-> & -> & Hn1). split_and!; [done|by destruct c|apply Hn1|apply Hn1].
      * apply wp_ret, wp_ret. split_and!; [done| |lia|lia]. destruct c.
        unfold set_tx, put_wire. simpl. by rewrite app_nil_r.
Qed.

(** [async_write] sends what [tx_effect] says, and drops as many bytes as were
    accepted in all, when there are that many. *)
Lemma wp_async_write fuel c :
  let need := (length (unsent c) : Z) in
  let r := tx_effect need (unsent c) 0 (tx c) in
  writable c → (r.1.1 ≤ need)%Z →
  size (out_heap (write_buf_ c)) < fuel → S (length (tx c)) < fuel → (need < fuel)%Z →
  wp (PollConnection_async_write fuel) (λ suspend c',
    wire c' = wire c ++ r.2 ∧ tx c' = r.1.2 ∧ output_inv (write_buf_ c') ∧
    unsent c' = drop (Z.to_nat r.1.1) (unsent c) ∧
    suspend = negb (closed_ c) && bool_decide (r.1.1 < need)%Z ∧
    read_buf_ c' = read_buf_ c ∧ closed_ c' = closed_ c ∧ rx c' = rx c ∧
    send_co c' = send_co c ∧ events c' = events c) c.
Proof.
  intros need r Hwr Hle Hf0 Hf Hneed. pose proof Hwr as (Hinv & Hsmall & Hiov).
  unfold PollConnection_async_write. apply wp_bind, wp_gets.
  assert (to_int32 (Connection_write_bytes c) = need) as ->.
  { destruct Hinv as (ns & Hs & _ & Htw). unfold Connection_write_bytes, OutputBuffer_bytes. simpl.
    rewrite Htw, <-(oshape_contents _ _ Hs), u64_small, to_int32_small; unfold INT32_MIN, INT32_MAX; lia. }
  cbv zeta. apply wp_bind. eapply wp_mono; [apply wp_async_write_loop; try done; lia|].
  intros n c1 (-> & -> & Hn). fold need r in Hn |- *. apply wp_bind, wp_on_write_buf.
  eapply wp_mono.
  { apply OutputBuffer_send_add_spec; [done|simpl; lia|unfold INT32_MAX; lia|lia]. }
  intros [] b (Hinv' & Hct'). apply wp_bind, wp_gets, wp_ret. by split_and!.
Qed.

(** The kernel's answers to one call of [async_write] that leave the stream
    intact: after a [writev] accepted in part, the next is refused. *)
Fixpoint refused (answers : list write_answer) : bool :=
  match answers with
  | [] => true
  | WrErr EINTR :: rest => refused rest
  | WrErr _ :: _ => true
  | WrAccept _ :: _ => false
  end.
Fixpoint calm (need : nat) (answers : list write_answer) : bool :=
  match answers with
  | [] => true
  | WrErr EINTR :: rest => calm need rest
  | WrErr _ :: _ => true
  | WrAccept n :: rest => (need <=? n)%nat || refused rest
  end.

Lemma tx_effect_refused need offer n answers :
  refused answers = true →
  (tx_effect need offer n answers).1.1 = n ∧ (tx_effect need offer n answers).2 = [].
Proof.
  induction answers as [|[k|[]] answers IH]; simpl; intros H; try done; case_decide; auto.
Qed.

Lemma tx_effect_calm (offer : list cell) answers :
  calm (length offer) answers = true →
  let r := tx_effect (length offer) offer 0 answers in
  (0 ≤ r.1.1 ≤ length offer)%Z ∧ r.2 = take (Z.to_nat r.1.1) offer.
Proof.
  induction answers as [|[k|e] answers IH]; cbn [calm tx_effect]; intros H;
    [simpl; split; [lia|done]| |].
  - case_decide as Hpos; [|simpl; split; [lia|done]]. cbv zeta. rewrite Z.add_0_l. simpl.
    apply orb_true_iff in H as [H|H].
    + apply Nat.leb_le in H. rewrite (take_ge offer k) by lia.
      assert (tx_effect (length offer) offer (length offer) answers =
                (length offer : Z, answers, [])) as ->
        by (destruct answers; simpl; [done|by rewrite decide_False by lia]).
      simpl. rewrite app_nil_r, Nat2Z.id, take_ge by lia. split; [lia|done].
    + destruct (tx_effect_refused (length offer) offer (length (take k offer)) answers H) as [-> ->].
      rewrite app_nil_r, Nat2Z.id, length_take. split; [lia|].
      destruct (decide (k ≤ length offer)).
      * by rewrite Nat.min_l.
      * by rewrite Nat.min_r, !take_ge by lia.
  - case_decide; [|simpl; split; [lia|done]].
    destruct e; simpl; try (split; [lia|done]). by apply IH.
Qed.

(** Answers that are calm at every point of a longer run, whatever is offered
    then. *)
Fixpoint placid (answers : list write_answer) : bool :=
  match answers with
  | [] => true
  | WrErr _ :: rest => placid rest
  | WrAccept n :: rest => (bool_decide (kWindow ≤ n)%Z || refused rest) && placid rest
  end.

Lemma placid_calm (need : nat) answers :
  (need ≤ kWindow)%Z → placid answers = true → calm need answers = true.
Proof.
  intros Hneed. induction answers as [|[n|e] answers IH]; simpl; [done| |by destruct e; auto].
  intros [[H|H]%orb_true_iff _]%andb_true_iff; [|by rewrite H, orb_true_r].
  apply bool_decide_eq_true in H. apply orb_true_iff. left. apply Nat.leb_le. lia.
Qed.

Lemma tx_effect_suffix need offer n answers :
  (tx_effect need offer n answers).1.2 `suffix_of` answers.
Proof.
  revert n. induction answers as [|[k|e] answers IH]; intros n; simpl; [done|..];
    case_decide; simpl; try done; [by apply suffix_cons_r|].
  destruct e; simpl; by apply suffix_cons_r.
Qed.

Lemma placid_suffix answers rest :
  rest `suffix_of` answers → placid answers = true → placid rest = true.
Proof.
  intros [used ->]. induction used as [|[k|e] used IH]; simpl; [done| |done].
  intros [_ H]%andb_true_iff. auto.
Qed.

(** ** Reading *)

(** The rounds of the read loop with [room] bytes of room: the bytes taken, the
    answers left, and whether the connection is closed. *)
Fixpoint rx_effect (room : nat) (answers : list read_answer)
    : list cell * list read_answer * bool :=
  match answers with
  | [] => ([], [], false)
  | a :: rest =>
      if decide (room = 0) then ([], a :: rest, false)
      else
        match a with
        | RdBytes [] => ([], rest, true)
        | RdBytes bytes =>
            if decide (drop room bytes = [])
            then let r := rx_effect (room - length bytes) rest in
                 (bytes ++ r.1.1, r.1.2, r.2)
            else (take room bytes, RdBytes (drop room bytes) :: rest, false)
        | RdEof => ([], RdEof :: rest, true)
        | RdErr EINTR => rx_effect room rest
        | RdErr EOTHER => ([], rest, true)
        | RdErr _ => ([], rest, false)
        end
  end.

Section read_loop.
(** The receive buffer when the loop starts, and its last block. *)
Context (s : InputBuffer) (p : loc) (b : BufferBlock).
Hypothesis Hok : block_ok b.

(** The receive buffer after [d] has been stored in that block. *)
Let buf (d : list cell) := with_heap (<[p := set_data d b]> (in_heap s)) s.

Lemma wp_sys_read {A} (k : read_answer → M Connection A) off max d Q c :
  read_buf_ c = buf d → length d = length (data b) → (0 ≤ off)%Z → (0 ≤ max)%Z →
  (off + max ≤ kBlockSize)%Z →
  match rx c with
  | [] => wp (k (RdErr EAGAIN)) Q c
  | RdEof :: _ => wp (k RdEof) Q c
  | RdErr e :: rest => wp (k (RdErr e)) Q (set_rx rest c)
  | RdBytes bytes :: rest =>
      let got := take (Z.to_nat max) bytes in
      let left := drop (Z.to_nat max) bytes in
      ∀ d', write_cells d off got = Some d' →
        wp (k (RdBytes got)) Q
          (set_rx (if decide (left = []) then rest else RdBytes left :: rest)
             (set_read_buf (buf d') c))
  end →
  wp (r ← sys_read (Some p) off max; k r) Q c.
Proof.
  intros Hbuf Hlen H0 H1 H2 HQ. pose proof Hok as (Hb1 & Hb2 & Hb3).
  apply wp_bind. unfold sys_read. apply wp_bind, wp_gets.
  destruct (rx c) as [|[bytes| |e] rest]; [by apply wp_ret| |by apply wp_ret|by wp_steps].
  set (got := take (Z.to_nat max) bytes) in *. set (left := drop (Z.to_nat max) bytes) in *.
  destruct (write_cells d off got) as [d'|] eqn:Hd; cycle 1.
  { unfold write_cells, got in Hd. case_decide as Hn; [done|].
    rewrite length_take in Hn. lia. }
  apply wp_bind, wp_on_read_buf. rewrite Hbuf. unfold write_span.
  apply wp_bind. eapply wp_deref; [apply lookup_insert_eq|].
  apply wp_bind. eapply wp_in_bounds; [exact Hd|]. eapply wp_store; [apply lookup_insert_eq|].
  wp_steps. rewrite insert_insert_eq. by apply HQ.
Qed.

(** What the loop leaves behind when it started on [c] with the bytes [acc] read
    and the kernel then acted as [r] says. *)
Definition read_post (c : Connection) (acc : list cell) (r : list cell * list read_answer * bool)
    (n : Z) (c' : Connection) : Prop :=
  n = length (acc ++ r.1.1) ∧ ∃ d',
    write_cells (data b) (end_ b) (acc ++ r.1.1) = Some d' ∧
    c' = set_rx r.1.2 (set_closed (closed_ c || r.2) (set_read_buf (buf d') c)).

(** Nothing more is read. *)
Lemma read_post_stop c acc d rest cl c' :
  read_buf_ c = buf d → write_cells (data b) (end_ b) acc = Some d →
  c' = set_rx rest (if (cl : bool) then set_closed true c else c) →
  read_post c acc ([], rest, cl) (length acc) c'.
Proof.
  intros Hbuf Hd ->. unfold read_post. simpl. rewrite app_nil_r. split; [done|].
  exists d. split; [done|]. destruct cl, c; unfold set_rx, set_closed, set_read_buf; simpl in *;
    rewrite ?orb_true_r, ?orb_false_r; by rewrite Hbuf.
Qed.

(** [g] was read first, and stored. *)
Lemma read_post_cons c acc g d rest0 r n c' :
  read_post (set_rx rest0 (set_read_buf (buf d) c)) (acc ++ g) r n c' →
  read_post c acc (g ++ r.1.1, r.1.2, r.2) n c'.
Proof.
  intros (-> & d' & Hd' & ->). unfold read_post. simpl. rewrite <-app_assoc in *.
  split; [done|]. exists d'. split; [done|]. by destruct c.
Qed.

(** The loop from a state in which the bytes [acc] have been read. *)
Definition read_loop_ok (answers : list read_answer) : Prop :=
  ∀ fuel acc d c, rx c = answers → read_buf_ c = buf d → S (length answers) < fuel →
  write_cells (data b) (end_ b) acc = Some d →
  wp (iter fuel (async_read_step (Some p))
        (end_ b + length acc, kBlockSize - end_ b - length acc, length acc : Z)%Z)
    (read_post c acc (rx_effect (Z.to_nat (kBlockSize - end_ b) - length acc) answers)) c.

Lemma write_cells_fits acc d :
  write_cells (data b) (end_ b) acc = Some d → (end_ b + length acc ≤ kBlockSize)%Z.
Proof. pose proof Hok as (? & ? & ?). unfold write_cells. intros Hd. case_decide; [lia|done]. Qed.

(** The kernel hands over the first of [x :: bytes]. *)
Lemma read_loop_bytes x bytes answers fuel acc d c :
  let room := Z.to_nat (kBlockSize - end_ b) - length acc in
  let g := take room (x :: bytes) in
  let left := drop room (x :: bytes) in
  read_loop_ok answers → 0 < room → S (length answers) < fuel →
  write_cells (data b) (end_ b) (acc ++ g) = Some d →
  wp (iter fuel (async_read_step (Some p))
        (end_ b + length (acc ++ g), kBlockSize - end_ b - length (acc ++ g),
         length (acc ++ g) : Z)%Z)
    (read_post c acc (rx_effect room (RdBytes (x :: bytes) :: answers)))
    (set_rx (if decide (left = []) then answers else RdBytes left :: answers)
       (set_read_buf (buf d) c)).
Proof.
  intros room g left IH Hroom Hf Hd. pose proof (write_cells_fits _ _ Hd) as Hfit.
  assert (length g = min room (length (x :: bytes))) as Hlg by apply length_take.
  cbn [rx_effect]. rewrite (decide_False (P := room = 0)) by lia. fold left g.
  case_decide as Hleft.
  - assert (g = x :: bytes) as Hgx
      by (unfold g; rewrite <-(take_drop room (x :: bytes)) at 2; fold left;
          by rewrite Hleft, app_nil_r).
    eapply wp_mono; [by apply (IH fuel (acc ++ g) d)|]. intros n c' Hpost.
    apply read_post_cons in Hpost. rewrite length_app, Nat.sub_add_distr in Hpost. fold room in Hpost.
    by rewrite Hgx in Hpost.
  - assert (length g = room) as Hfull.
    { destruct (decide (length (x :: bytes) ≤ room)); [|lia].
      by destruct Hleft; apply skipn_all2. }
    destruct fuel as [|fuel]; [lia|]. cbn [iter]. apply wp_bind. unfold async_read_step.
    rewrite decide_False by (rewrite length_app in *; lia). apply wp_ret, wp_ret.
    split; [done|]. exists d. split; [done|]. simpl. rewrite orb_false_r. by destruct c.
Qed.

Lemma wp_async_read_loop answers : read_loop_ok answers.
Proof.
  pose proof Hok as (Hb1 & Hb2 & Hb3). pose proof kBlockSize_val as HK.
  induction answers as [|a answers IH]; intros fuel acc d c Hrx Hbuf Hf Hd;
    pose proof (write_cells_fits _ _ Hd) as Hacc; pose proof (length_write_cells _ _ _ _ Hd) as Hlen;
    (destruct fuel as [|fuel]; [simpl in Hf; lia|]); cbn [iter]; apply wp_bind;
    unfold async_read_step; case_decide as Hroom;
    set (room := Z.to_nat (kBlockSize - end_ b) - length acc) in *.
  all: assert (set_rx (rx c) c = c) as Hid by (by destruct c).
  1: eapply wp_sys_read; [done|done|lia|lia|lia|].
  3: eapply wp_sys_read; [done|done|lia|lia|lia|].
  1, 2: rewrite ?Hrx; apply wp_ret, wp_ret; apply (read_post_stop c acc d _ false); [done..|];
    by rewrite <-Hrx, Hid.
  2: { apply wp_ret, wp_ret. cbn [rx_effect]. rewrite decide_True by lia.
       apply (read_post_stop c acc d _ false); [done..|]. by rewrite <-Hrx, Hid. }
  rewrite Hrx. simpl in Hf. destruct a as [[|x bytes]| |e].
  - cbn [rx_effect]. rewrite (decide_False (P := room = 0)) by lia. cbv zeta. intros d1 Hd1.
    rewrite take_nil in *. rewrite write_cells_nil in Hd1 by lia. simplify_eq. wp_steps.
    apply (read_post_stop c acc d1 _ true); [done..|]. rewrite drop_nil, decide_True by done.
    rewrite <-Hbuf, set_read_buf_id. by destruct c.
  - set (max := (kBlockSize - end_ b - length acc)%Z) in *.
    assert (Z.to_nat max = room) as -> by lia. cbv zeta. intros d1 Hd1.
    pose proof (write_cells_app _ _ _ _ _ _ Hd Hd1) as Hdd.
    assert (length (take room (x :: bytes)) ≤ room) as Hle by (rewrite length_take; lia).
    destruct (take room (x :: bytes)) as [|y got] eqn:Hgot.
    { assert (room ≠ 0) as Hr0 by lia. clearbody room. by destruct room. }
    apply wp_bind, wp_int32; [unfold INT32_MIN, INT32_MAX; lia|].
    apply wp_bind, wp_int32; [unfold INT32_MIN, INT32_MAX; lia|]. apply wp_ret.
    rewrite <-Hgot in *. set (g := take room (x :: bytes)) in *.
    replace ((end_ b + length acc + length g), (max - length g), (length acc + length g))%Z with
      ((end_ b + length (acc ++ g)), (kBlockSize - end_ b - length (acc ++ g)),
       length (acc ++ g) : Z)%Z by (rewrite length_app; f_equal; [f_equal|]; lia).
    by apply read_loop_bytes; [|lia|lia|].
  - cbn [rx_effect]. rewrite (decide_False (P := room = 0)) by lia. wp_steps.
    apply (read_post_stop c acc d _ true); [done..|]. rewrite <-Hrx. by destruct c.
  - cbn [rx_effect]. rewrite (decide_False (P := room = 0)) by lia.
    destruct e; wp_steps; [by apply (read_post_stop c acc d _ false)..| |].
    + eapply wp_mono; [by apply (IH fuel acc d (set_rx answers c)); [| |lia|]|].
      intros n c' (-> & d' & Hd' & ->). split; [done|]. exists d'. split; [done|]. by destruct c.
    + apply (read_post_stop c acc d _ true); [done..|]. by destruct c.
Qed.
End read_loop.

(** Room in the block that [get_buffer] hands out. *)
Definition recv_room (s : InputBuffer) : nat :=
  match last_block_ s ≫= (λ l, in_heap s !! l) with
  | Some b => Z.to_nat (kBlockSize - end_ b)
  | None => 0
  end.

Lemma input_size_recv s : input_inv s → 0 < recv_room s.
Proof.
  intros (pre & suf & Hs & _). destruct (shape_last_inv _ _ Hs) as (ini & p & b & -> & Hl & Hp & Hok & He).
  unfold recv_room. rewrite Hl. simpl. rewrite Hp. lia.
Qed.

(** The part of [async_read] that reads: the bytes are stored behind those of the
    last block. *)
Lemma read_kernel fuel c :
  let s := read_buf_ c in
  let r := rx_effect (recv_room s) (rx c) in
  input_inv s → S (length (rx c)) < fuel →
  ∃ sp p b d, InputBuffer_get_buffer s = Done (sp, s) ∧
    last_block_ s = Some p ∧ in_heap s !! p = Some b ∧
    write_cells (data b) (end_ b) r.1.1 = Some d ∧
    iter fuel (async_read_step (sp_block sp)) (sp_off sp, sp_len sp, 0%Z) c =
      Done (length r.1.1 : Z,
            set_rx r.1.2 (set_closed (closed_ c || r.2)
              (set_read_buf (with_heap (<[p := set_data d b]> (in_heap s)) s) c))).
Proof.
  intros s r Hinv Hf. pose proof Hinv as (pre & suf & Hs & _).
  destruct (shape_last_inv _ _ Hs) as (ini & p & b & -> & Hl & Hp & Hok & He).
  pose proof Hok as (Hb1 & Hb2 & Hb3). pose proof kBlockSize_val as HK.
  assert (recv_room s = Z.to_nat (kBlockSize - end_ b)) as Hroom
    by (unfold recv_room; rewrite Hl; simpl; by rewrite Hp).
  assert (with_heap (<[p := set_data (data b) b]> (in_heap s)) s = s) as Hsame.
  { destruct b, s. simpl in *. unfold set_data. simpl. by rewrite insert_id. }
  pose proof (wp_async_read_loop s p b Hok (rx c) fuel [] (data b) c eq_refl) as Hloop.
  unfold read_post in Hloop. simpl in Hloop.
  rewrite Z.add_0_r, Z.sub_0_r, Nat.sub_0_r, <-Hroom in Hloop. fold r in Hloop.
  specialize (Hloop (eq_sym Hsame) Hf ltac:(apply write_cells_nil; lia)).
  apply wp_done in Hloop as (n & c1 & Hrun & -> & d & Hd & ->).
  exists (mkSpan (Some p) (end_ b) (kBlockSize - end_ b)), p, b, d.
  split_and!; [|done|done|done|exact Hrun].
  enough (wp InputBuffer_get_buffer (λ sp s', sp = mkSpan (Some p) (end_ b) (kBlockSize - end_ b) ∧ s' = s) s)
    as (? & ? & -> & -> & ->)%wp_done by done.
  unfold InputBuffer_get_buffer. wp_steps. rewrite Hl. eapply wp_deref; [done|]. wp_steps.
  apply wp_int32; [blia|]. by wp_steps.
Qed.

(** [async_read] appends exactly the bytes the kernel handed over.  When the
    peer has closed, the sending coroutine is resumed first, which must leave the
    receive side alone; [R] is what is known of the connection afterwards. *)
Lemma wp_async_read (R : Connection → Prop) rw fuel c :
  let r := rx_effect (recv_room (read_buf_ c)) (rx c) in
  let cl := closed_ c || r.2 in
  input_inv (read_buf_ c) → S (length (rx c)) < fuel →
  (cl = true → ∀ c1, closed_ c1 = true → rx c1 = r.1.2 → send_co c1 = send_co c →
    write_buf_ c1 = write_buf_ c → tx c1 = tx c → wire c1 = wire c →
    wp rw (λ _ c2, read_buf_ c2 = read_buf_ c1 ∧ rx c2 = rx c1 ∧ closed_ c2 = true ∧
                   ∀ b, R (set_read_buf b c2)) c1) →
  wp (PollConnection_async_read rw fuel) (λ suspend c',
    input_inv (read_buf_ c') ∧ unread c' = unread c ++ r.1.1 ∧ rx c' = r.1.2 ∧
    closed_ c' = cl ∧ suspend = negb cl && bool_decide (r.1.1 = []) ∧
    limit_ (read_buf_ c') = limit_ (read_buf_ c) ∧
    consumed_bytes_ (read_buf_ c') = consumed_bytes_ (read_buf_ c) ∧
    (cl = true → R c') ∧
    (cl = false → send_co c' = send_co c ∧ write_buf_ c' = write_buf_ c ∧
                  tx c' = tx c ∧ wire c' = wire c ∧ events c' = events c)) c.
Proof.
  intros r cl Hinv Hf Hrw. pose proof Hinv as (pre & suf & Hs & Hset & Hrb & Hlim & Hal).
  destruct (read_kernel fuel c Hinv Hf) as (sp & p & b & d & Hget & Hl & Hp & Hd & Hrun).
  destruct (shape_last_inv _ _ Hs) as (ini & p' & b' & -> & Hl' & Hp' & Hok & He).
  rewrite Hl in Hl'. injection Hl' as <-. rewrite Hp in Hp'. injection Hp' as <-.
  pose proof Hok as (Hb1 & Hb2 & Hb3). pose proof kBlockSize_val as HK. fold r in Hd, Hrun.
  unfold PollConnection_async_read. apply wp_bind, wp_on_read_buf. unfold wp. rewrite Hget.
  rewrite set_read_buf_id. rewrite (bind_done _ _ _ _ _ Hrun). fold cl.
  set (s := read_buf_ c) in *. set (c1 := set_rx _ _).
  change (wp (cl ← gets closed_; (if (cl : bool) then rw else mret tt);;
    on_read_buf (InputBuffer_recv_add (length r.1.1));;
    cl ← gets closed_; mret (negb cl && bool_decide (length r.1.1 ≤ 0)%Z)) (λ suspend c',
      input_inv (read_buf_ c') ∧ unread c' = unread c ++ r.1.1 ∧ rx c' = r.1.2 ∧
      closed_ c' = cl ∧ suspend = negb cl && bool_decide (r.1.1 = []) ∧
      limit_ (read_buf_ c') = limit_ s ∧ consumed_bytes_ (read_buf_ c') = consumed_bytes_ s ∧
      (cl = true → R c') ∧
      (cl = false → send_co c' = send_co c ∧ write_buf_ c' = write_buf_ c ∧
                    tx c' = tx c ∧ wire c' = wire c ∧ events c' = events c)) c1).
  apply wp_bind, wp_gets. simpl. apply wp_bind.
  assert (with_heap (<[p := set_data (data b) b]> (in_heap s)) s = s) as Hsame.
  { destruct b, s. simpl in *. unfold set_data. simpl. by rewrite insert_id. }
  assert (wp (if cl then rw else mret tt) (λ _ c2, read_buf_ c2 = read_buf_ c1 ∧
    rx c2 = rx c1 ∧ closed_ c2 = cl ∧ (cl = true → ∀ b, R (set_read_buf b c2)) ∧
    (cl = false → c2 = c1)) c1) as Hmid.
  { destruct cl eqn:Hcl; [|by apply wp_ret].
    eapply wp_mono; [apply Hrw; [done|..]; done|]. intros _ c2 (-> & -> & -> & HR). by split_and!. }
  eapply wp_mono; [exact Hmid|]. intros _ c2 (Hb2' & Hrx2 & Hcl2 & HR & Hsame2).
  apply wp_bind, wp_on_read_buf. rewrite Hb2'. simpl read_buf_.
  assert (bool_decide (length r.1.1 ≤ 0)%Z = bool_decide (r.1.1 = [])) as Hbd.
  { apply bool_decide_ext. destruct (r.1.1); simpl; [naive_solver|]. split; [lia|done]. }
  assert (cl = false → send_co c2 = send_co c ∧ write_buf_ c2 = write_buf_ c ∧
    tx c2 = tx c ∧ wire c2 = wire c ∧ events c2 = events c) as Hrest
    by (intros H; by rewrite (Hsame2 H)).
  destruct (decide (r.1.1 = [])) as [Hnil|Hne].
  - rewrite Hnil in *. rewrite write_cells_nil in Hd by lia. injection Hd as <-.
    match goal with |- wp _ _ ?x => replace x with s by exact (eq_sym Hsame) end.
    unfold InputBuffer_recv_add. simpl. wp_steps. rewrite Hcl2, app_nil_r.
    split_and!; auto.
  - eapply wp_recv_add_last; [exact Hs|done|exact Hd|].
    intros s' suf' Hs' Hset' Hal' Hct Hrb' Hlim' Hcb'. apply wp_bind, wp_gets, wp_ret. simpl.
    rewrite Hcl2, Hbd. split_and!; auto.
    + exists pre, suf'. split_and!; [done|by apply Hset'| |lia|lia|rewrite Hcb'; by apply Hal'].
      rewrite Hrb', Hrb, Hct. by apply u64_count_add.
    + rewrite (shape_contents _ _ _ Hs'). fold s. by rewrite (shape_contents _ _ _ Hs).
Qed.

(** When it closes the connection and the coroutine it resumes faults, so does
    [async_read]. *)
Lemma async_read_faults rw fuel f c :
  let r := rx_effect (recv_room (read_buf_ c)) (rx c) in
  input_inv (read_buf_ c) → S (length (rx c)) < fuel → closed_ c || r.2 = true →
  (∀ c1, send_co c1 = send_co c → rw c1 = Faulted f) →
  PollConnection_async_read rw fuel c = Faulted f.
Proof.
  intros r Hinv Hf Hcl Hrw.
  destruct (read_kernel fuel c Hinv Hf) as (sp & p & b & d & Hget & _ & _ & _ & Hrun).
  unfold PollConnection_async_read. fold r in Hrun. rewrite Hcl in Hrun.
  assert (on_read_buf InputBuffer_get_buffer c = Done (sp, c)) as Hget'
    by (unfold on_read_buf; simpl; by rewrite Hget, set_read_buf_id).
  rewrite (bind_done _ _ _ _ _ Hget'), (bind_done _ _ _ _ _ Hrun).
  unfold mbind, M_bind, gets. simpl. by rewrite Hrw.
Qed.
