(* ===== verification/Sender.v ===== *)
(** * The sending side of a connection over its life

    [RpcServer::send_fn] / [ClientChannel::send_fn] wait for bytes, write them,
    and wait for the socket to become writable when the kernel does not take all
    of them.  The producers ([RpcServer::recv_fn], the closure of
    [ClientChannel::CallMethod]) append to the send buffer and call
    [resume_write].

    Under calm kernel answers (see [ConnectionProofs]) the coroutine is never
    left waiting for data while there are unsent bytes, and what reached the wire
    followed by what is still buffered is what was submitted, in order. *)
From S2P Require Import Prelude Block Segments InputStream OutputStream Streams Conn Connection ConnectionProofs.

(** The sender took a prefix of the unsent bytes to the wire and touched nothing
    of the receiving side. *)
Record sent_some (c c' : Connection) : Prop := {
  ss_inv : output_inv (write_buf_ c');
  ss_bytes : wire c' ++ unsent c' = wire c ++ unsent c;
  ss_wire : wire c `prefix_of` wire c';
  ss_read_buf : read_buf_ c' = read_buf_ c;
  ss_closed : closed_ c' = closed_ c;
  ss_rx : rx c' = rx c;
  ss_tx : tx c' `suffix_of` tx c;
}.

Lemma sent_some_co co c : output_inv (write_buf_ c) → sent_some c (set_send_co co c).
Proof. by intros. Qed.

Lemma sent_some_trans c1 c2 c3 : sent_some c1 c2 → sent_some c2 c3 → sent_some c1 c3.
Proof.
  intros [] []. split; [done|congruence|by etrans|congruence|congruence|congruence|by etrans].
Qed.

Lemma sent_some_shrinks c c' : sent_some c c' → length (unsent c') ≤ length (unsent c).
Proof.
  intros [_ Hb [sent Hw] _ _ _ _]. apply (f_equal length) in Hb.
  rewrite Hw, !length_app in Hb. lia.
Qed.

(** What one run of the coroutine needs: the unsent bytes fit one [writev], the
    kernel is calm, and the fuel covers both. *)
Definition send_ready (fuel : nat) (c : Connection) : Prop :=
  output_inv (write_buf_ c) ∧ (length (unsent c) ≤ kWindow)%Z ∧
  calm (length (unsent c)) (tx c) = true ∧
  length (unsent c) + 3 < fuel ∧ S (length (tx c)) < fuel.

(** Where the coroutine stands when it has given up control. *)
Definition send_settled (c : Connection) : Prop :=
  match send_co c with
  | SendNotStarted => False
  | SendWaiting => closed_ c = false ∧ unsent c = []
  | SendWriting => closed_ c = false ∧ unsent c ≠ []
  | SendDone => closed_ c = true
  end.

(** A kernel that takes all that is offered leaves nothing unsent. *)
Definition flushed (c c' : Connection) : Prop :=
  ∀ k, tx c = [WrAccept k] → length (unsent c) ≤ k → closed_ c = false → unsent c' = [].

Lemma flushed_nil c c' : unsent c' = [] → flushed c c'.
Proof. by intros ? ?. Qed.

Lemma wp_send_write fuel c :
  send_ready fuel c →
  wp (send_write fuel) (λ suspended c', sent_some c c' ∧
    suspended = negb (closed_ c) && bool_decide (unsent c' ≠ []) ∧
    send_co c' = (if suspended then SendWriting else send_co c) ∧
    events c' = events c ++ (if suspended then [WRITE] else []) ∧ flushed c c') c.
Proof.
  intros (Hinv & Hwin & Hcalm & Hf1 & Hf2).
  pose proof (window_writable c Hinv Hwin) as Hwr.
  destruct (tx_effect_calm _ _ Hcalm) as [Hr1 Hr2].
  pose proof (output_blocks_bound _ Hinv) as Hbl. pose proof kBlockSize_val as HK.
  unfold send_write. apply wp_bind.
  pose proof (wp_async_write fuel c Hwr ltac:(lia) ltac:(nia) Hf2 ltac:(lia)) as Hw.
  apply wp_done in Hw as (suspend & c1 & Hrun & H1 & H2 & H3 & H4 & H5 & H6 & H7 & H8 & H9 & Hev).
  unfold wp. rewrite Hrun.
  set (r := tx_effect _ _ _ _) in *.
  assert (sent_some c c1) as Hsome.
  { split; try done.
    - rewrite H1, H4, Hr2, <-app_assoc. by rewrite take_drop.
    - rewrite H1. by eexists.
    - rewrite H2. apply tx_effect_suffix. }
  assert (bool_decide (r.1.1 < length (unsent c))%Z = bool_decide (unsent c1 ≠ [])) as Hbd.
  { apply bool_decide_ext. rewrite H4. split.
    - intros Hlt Hnil. apply (f_equal length) in Hnil. rewrite length_drop in Hnil.
      simpl in Hnil. lia.
    - intros Hne. destruct (decide (r.1.1 < length (unsent c))%Z); [done|].
      exfalso. apply Hne. rewrite drop_ge by lia. done. }
  assert (flushed c c1) as Hfl.
  { intros k Htx Hk _. rewrite H4. apply drop_ge. unfold r. rewrite Htx. cbn [tx_effect].
    destruct (decide (unsent c = [])) as [Hnil|Hne]; [rewrite Hnil; simpl; lia|].
    rewrite decide_True by (destruct (unsent c); [done|simpl; lia]).
    cbn [fst snd]. rewrite length_take. lia. }
  rewrite Hbd in H5. destruct suspend; simpl.
  - split_and!; [|done|done|by rewrite Hev|done]. destruct Hsome. by split.
  - split_and!; [done|done|done|by rewrite app_nil_r|done].
Qed.

Lemma await_ready_unsent c :
  output_inv (write_buf_ c) → (length (unsent c) ≤ kWindow)%Z → closed_ c = false →
  WaitWriteAwaiter_await_ready c = bool_decide (unsent c ≠ []).
Proof.
  intros (ns & Hs & _ & Htw) Hw Hcl. unfold WaitWriteAwaiter_await_ready. rewrite Hcl.
  simpl. apply bool_decide_ext. unfold Connection_write_bytes, OutputBuffer_bytes. simpl.
  rewrite Htw, <-(oshape_contents _ _ Hs), u64_small by (unfold kWindow in *; lia).
  destruct (unsent c); simpl; split; first [intros; lia | done | by intros ?].
Qed.

(** What a run of the coroutine ends with. *)
Definition send_post (c : Connection) (_ : unit) (c' : Connection) : Prop :=
  sent_some c c' ∧ send_settled c' ∧
  events c' = events c ++ (if decide (send_co c' = SendWriting) then [WRITE] else []) ∧
  flushed c c'.

(** The loop has nothing to write: it ends, or waits for data. *)
Lemma wp_send_loop_idle fuel n c :
  output_inv (write_buf_ c) → closed_ c = true ∨ unsent c = [] → 0 < n →
  wp (iter n (send_body fuel) tt) (send_post c) c.
Proof.
  intros Hinv Hidle Hn. unfold send_body, send_post. destruct n as [|n]; [lia|].
  cbn [iter]. apply wp_bind, wp_bind, wp_gets. destruct (closed_ c) eqn:Hcl.
  { wp_steps. rewrite app_nil_r. split_and!; [by apply sent_some_co|done|done|].
    intros k _ _ Hop. congruence. }
  destruct Hidle as [?|Hnil]; [done|].
  apply wp_bind, wp_gets. rewrite await_ready_unsent; [|done|by rewrite Hnil|done].
  rewrite bool_decide_eq_false_2 by auto.
  wp_steps. rewrite app_nil_r. split_and!; [by apply sent_some_co|done|done|by apply flushed_nil].
Qed.

(** After a round of writing the loop suspends or has nothing left to write. *)
Lemma wp_send_round fuel n c :
  send_ready fuel c → 0 < n →
  wp (suspended ← send_write fuel; 
      if (suspended : bool) then mret tt else iter n (send_body fuel) tt)
    (send_post c) c.
Proof.
  intros Hready Hn. apply wp_bind. eapply wp_mono; [by apply wp_send_write|].
  intros suspended c1 (Hsome & Hsus & Hco & Hev & Hfl). symmetry in Hsus. destruct suspended.
  - apply wp_ret. unfold send_post. rewrite Hev, Hco. split_and!; [done| |done|done].
    unfold send_settled. apply andb_true_iff in Hsus as [Hcl Hne].
    rewrite Hco, (ss_closed _ _ Hsome). apply negb_true_iff in Hcl. split; [done|].
    by eapply bool_decide_eq_true_1.
  - rewrite app_nil_r in Hev. eapply wp_mono.
    { apply wp_send_loop_idle; [apply Hsome| |done].
      rewrite (ss_closed _ _ Hsome). destruct (closed_ c); [by left|right].
      by apply bool_decide_eq_false, dec_stable in Hsus. }
    intros [] c2 (Hsome2 & Hset & Hev2 & _). unfold send_post. rewrite Hev2, Hev.
    split_and!; [by eapply sent_some_trans|done|done|]. intros k Htx Hk Hop.
    apply sent_some_shrinks in Hsome2. rewrite (Hfl k Htx Hk Hop) in Hsome2.
    by destruct (unsent c2); [|simpl in Hsome2; lia].
Qed.

(** [send_fn] from the head of its loop: it gives up control in a settled
    state, after at most one round of writing. *)
Lemma wp_send_loop fuel c :
  send_ready fuel c → wp (send_loop fuel) (send_post c) c.
Proof.
  intros Hready. pose proof Hready as (Hinv & Hwin & _ & Hf & _).
  destruct (decide (closed_ c = true ∨ unsent c = [])) as [Hidle|Hbusy].
  { apply wp_send_loop_idle; [done|done|lia]. }
  assert (closed_ c = false) as Hcl by (destruct (closed_ c); naive_solver).
  unfold send_loop. destruct fuel as [|fuel]; [lia|]. cbn [iter]. set (f := S fuel) in *.
  assert (0 < fuel) as Hpos by lia.
  pose proof (wp_send_round f fuel c Hready Hpos) as Hround.
  unfold send_body at 1.
  apply wp_bind, wp_bind, wp_gets. rewrite Hcl. apply wp_bind, wp_gets.
  rewrite await_ready_unsent, bool_decide_eq_true_2 by naive_solver.
  apply wp_bind. unfold wp, mbind, M_bind in Hround |- *.
  by destruct (send_write f c) as [[[] c1]| |].
Qed.

Lemma wp_resume_write fuel c :
  send_ready fuel c → send_co c = SendWaiting ∨ send_co c = SendWriting →
  wp (resume_write fuel) (send_post c) c.
Proof.
  intros Hready Hco. unfold resume_write. apply wp_bind, wp_gets.
  destruct Hco as [Hco|Hco]; rewrite Hco; [|by apply wp_send_loop].
  apply wp_send_round; [done|]. destruct Hready as (_ & _ & _ & Hf & _). lia.
Qed.

(** ** A connection that sends *)

(** What happens to the sending side: a producer submits bytes, or the executor
    finds the socket writable.  The latter may come late, when the sender does not
    wait for it any more.
    [answers] is what the kernel then says to [writev]. *)
Inductive send_op :=
  | Submit (bytes : list cell) (answers : list write_answer)
  | Writable (answers : list write_answer).

Definition run_send_op (fuel : nat) (op : send_op) : M Connection unit :=
  match op with
  | Submit bytes answers =>
      modify (set_tx answers);;
      on_write_buf (OutputBuffer_append fuel bytes);;
      resume_write fuel
  | Writable answers =>
      modify (set_tx answers);;
      resume_write fuel
  end.

Fixpoint run_send (fuel : nat) (ops : list send_op) : M Connection unit :=
  match ops with
  | [] => mret tt
  | op :: ops => run_send_op fuel op;; run_send fuel ops
  end.

Definition submitted (ops : list send_op) : list cell :=
  concat ((λ op, match op with Submit bytes _ => bytes | Writable _ => [] end) <$> ops).
Definition op_answers (op : send_op) : list write_answer :=
  match op with Submit _ answers | Writable answers => answers end.

(** The kernel is calm, however many bytes it is offered. *)
Definition steady (fuel : nat) (op : send_op) : Prop :=
  placid (op_answers op) = true ∧ S (length (op_answers op)) < fuel.

(** The sending side of an open connection between two operations. *)
Definition sender_inv (done : list cell) (c : Connection) : Prop :=
  output_inv (write_buf_ c) ∧ closed_ c = false ∧ send_settled c ∧
  wire c ++ unsent c = done.

(** The socket has not been taken out of the executor's registration. *)
Definition registered (c : Connection) : Prop := DELETE ∉ events c.

Lemma settled_open c :
  closed_ c = false → send_settled c → send_co c = SendWaiting ∨ send_co c = SendWriting.
Proof. unfold send_settled. intros Hcl. rewrite Hcl. destruct (send_co c); naive_solver. Qed.

Lemma resume_keeps_inv fuel done c :
  output_inv (write_buf_ c) → closed_ c = false → wire c ++ unsent c = done →
  send_co c = SendWaiting ∨ send_co c = SendWriting →
  (length done ≤ kWindow)%Z → placid (tx c) = true →
  length done + 3 < fuel → S (length (tx c)) < fuel →
  wp (resume_write fuel) (λ _ c', sender_inv done c' ∧ wire c `prefix_of` wire c' ∧
    read_buf_ c' = read_buf_ c ∧ rx c' = rx c ∧ tx c' `suffix_of` tx c ∧
    (registered c → registered c')) c.
Proof.
  intros Hinv Hcl <- Hco Hwin Hcalm Hf1 Hf2. rewrite length_app in Hwin, Hf1.
  eapply wp_mono; [apply wp_resume_write; [|done]|].
  - split_and!; [done|lia|apply placid_calm; [lia|done]|lia|lia].
  - intros [] c' (Hsome & Hset & Hev & _). split_and!; try apply Hsome.
    + split_and!; [apply Hsome| |done|apply Hsome]. by rewrite (ss_closed _ _ Hsome).
    + unfold registered. rewrite Hev. case_decide; set_solver.
Qed.

(** Resumed with a kernel that takes everything, the sender sends everything. *)
Lemma resume_flushes fuel done k c :
  output_inv (write_buf_ c) → closed_ c = false → wire c ++ unsent c = done →
  send_co c = SendWaiting ∨ send_co c = SendWriting →
  (length done ≤ kWindow)%Z → tx c = [WrAccept k] → (kWindow ≤ k)%Z →
  length done + 3 < fuel →
  wp (resume_write fuel) (λ _ c', unsent c' = []) c.
Proof.
  intros Hinv Hcl <- Hco Hwin Htx Hk Hf. rewrite length_app in Hwin, Hf.
  eapply wp_mono; [apply wp_resume_write; [|done]|].
  - split_and!; [done|lia| |lia|rewrite Htx; simpl; lia]. apply placid_calm; [lia|].
    rewrite Htx. simpl. by rewrite bool_decide_eq_true_2.
  - intros [] c' (_ & _ & _ & Hfl). apply (Hfl k); [done|lia|done].
Qed.

(** Resumed on a closed connection, the coroutine returns. *)
Lemma resume_closed fuel done c :
  output_inv (write_buf_ c) → closed_ c = true → wire c ++ unsent c = done →
  send_co c = SendWaiting ∨ send_co c = SendWriting →
  (length done ≤ kWindow)%Z → placid (tx c) = true →
  length done + 3 < fuel → S (length (tx c)) < fuel →
  wp (resume_write fuel) (λ _ c', send_co c' = SendDone ∧ closed_ c' = true ∧
    wire c' ++ unsent c' = done ∧ output_inv (write_buf_ c') ∧
    read_buf_ c' = read_buf_ c ∧ rx c' = rx c) c.
Proof.
  intros Hinv Hcl <- Hco Hwin Hcalm Hf1 Hf2. rewrite length_app in Hwin, Hf1.
  eapply wp_mono; [apply wp_resume_write; [|done]|].
  - split_and!; [done|lia|apply placid_calm; [lia|done]|lia|lia].
  - intros [] c' (Hsome & Hset & _). pose proof (ss_closed _ _ Hsome) as Hcl'. rewrite Hcl in Hcl'.
    split_and!; try apply Hsome; [|done]. unfold send_settled in Hset.
    destruct (send_co c'); naive_solver congruence.
Qed.

Lemma resume_done fuel c : send_co c = SendDone → resume_write fuel c = Faulted ResumeDestroyed.
Proof. unfold resume_write, mbind, M_bind, gets. by intros ->. Qed.

Lemma run_send_op_spec fuel op done c :
  let done' := done ++ submitted [op] in
  sender_inv done c → steady fuel op → (length done' ≤ kWindow)%Z →
  2 * length done' + 3 < fuel →
  wp (run_send_op fuel op) (λ _ c', sender_inv done' c' ∧ wire c `prefix_of` wire c') c.
Proof.
  intros done' (Hinv & Hcl & Hset & Hdone) [Hcalm Hans] Hwin Hf.
  pose proof (settled_open _ Hcl Hset) as Hco.
  destruct op as [bytes answers|answers]; simpl in Hcalm, Hans |- *.
  - apply wp_bind, wp_modify, wp_bind, wp_on_write_buf.
    assert (length done' = length done + length bytes) as Hlen 
      by (unfold done', submitted; csimpl; by rewrite app_nil_r, length_app).
    eapply wp_mono; [apply OutputBuffer_append_spec; [done|unfold kWindow, INT32_MAX in *; lia|lia]|].
    intros [] b [Hinv' Hct']. eapply wp_mono; [apply (resume_keeps_inv fuel done'); simpl; try done; [|lia]|naive_solver].
    unfold done', submitted. csimpl. simpl in Hct'.
    by rewrite app_nil_r, Hct', app_assoc, Hdone.
  - apply wp_bind, wp_modify.
    assert (done' = done) as Hsame by (unfold done', submitted; csimpl; by rewrite app_nil_r).
    rewrite Hsame in *.
    eapply wp_mono; [apply (resume_keeps_inv fuel done); simpl; try done; lia|naive_solver].
Qed.

Lemma submitted_cons op ops : submitted (op :: ops) = submitted [op] ++ submitted ops.
Proof. unfold submitted. csimpl. by rewrite app_nil_r. Qed.

Lemma run_send_spec fuel ops done c :
  let all := done ++ submitted ops in
  sender_inv done c → Forall (steady fuel) ops → (length all ≤ kWindow)%Z →
  2 * length all + 3 < fuel →
  wp (run_send fuel ops) (λ _ c', sender_inv all c' ∧ wire c `prefix_of` wire c') c.
Proof.
  revert done c. induction ops as [|op ops IH]; intros done c all Hinv Hst Hwin Hf.
  { apply wp_ret. unfold all, submitted. simpl. by rewrite app_nil_r. }
  apply Forall_cons in Hst as [Hop Hops]. unfold all in *. rewrite submitted_cons, app_assoc in *.
  rewrite length_app in Hwin, Hf. simpl. apply wp_bind.
  eapply wp_mono; [apply run_send_op_spec; [done|done|lia|lia]|].
  intros [] c1 [Hinv1 Hpre1]. eapply wp_mono; [apply IH; [done|done|rewrite length_app; lia..]|].
  intros [] c2 [Hinv2 Hpre2]. split; [done|by etrans].
Qed.

Lemma send_fn_starts fuel rx0 tx0 :
  0 < fuel →
  wp (send_fn fuel) (λ _ c, sender_inv [] c ∧ read_buf_ c = InputBuffer_new ∧
    rx c = rx0 ∧ tx c `suffix_of` tx0 ∧ registered c) (Connection_new rx0 tx0).
Proof.
  intros Hf. destruct output_inv_new as [Hinv Hct]. unfold send_fn, send_loop.
  eapply wp_mono; [apply wp_send_loop_idle; [done|by right|done]|].
  intros [] c (Hsome & Hset & Hev & _). split_and!; try apply Hsome.
  - split_and!; [apply Hsome|apply Hsome|done|]. by rewrite (ss_bytes _ _ Hsome).
  - unfold registered. rewrite Hev. case_decide; simpl; set_solver.
Qed.

(** ** Reading while the sender waits *)

(** The connection is closed and the sender has returned; [out] was handed to it. *)
Definition ended (out : list cell) (c : Connection) : Prop :=
  send_co c = SendDone ∧ closed_ c = true ∧ wire c ++ unsent c = out ∧
  output_inv (write_buf_ c).

(** [async_read] on an open connection: the bytes move to the receive buffer; when
    the stream has ended, or on an error, the connection is closed and the sender
    returns. *)
Lemma wp_async_read_open fuel out c :
  let r := rx_effect (recv_room (read_buf_ c)) (rx c) in
  input_inv (read_buf_ c) → sender_inv out c → placid (tx c) = true →
  (length out ≤ kWindow)%Z → length out + 3 < fuel →
  S (length (rx c)) < fuel → S (length (tx c)) < fuel →
  wp (PollConnection_async_read (resume_write fuel) fuel) (λ suspend c',
    input_inv (read_buf_ c') ∧ unread c' = unread c ++ r.1.1 ∧ rx c' = r.1.2 ∧
    closed_ c' = r.2 ∧ suspend = negb r.2 && bool_decide (r.1.1 = []) ∧
    limit_ (read_buf_ c') = limit_ (read_buf_ c) ∧
    consumed_bytes_ (read_buf_ c') = consumed_bytes_ (read_buf_ c) ∧
    if r.2 then ended out c' else sender_inv out c' ∧ tx c' = tx c ∧ events c' = events c) c.
Proof.
  intros r Hinv (Ho & Hcl & Hset & Hout) Hcalm Hwin Hf Hfr Hft.
  pose proof (settled_open _ Hcl Hset) as Hco.
  eapply wp_mono; [apply (wp_async_read (ended out)); [done|done|]|].
  - intros _ c1 Hcl1 Hrx1 Hco1 Hwb1 Htx1 Hw1.
    eapply wp_mono; [apply (resume_closed fuel out)|]; rewrite ?Hwb1, ?Hco1, ?Htx1, ?Hw1; try done.
    intros [] c2 (Hd & Hcl2 & Hout2 & Ho2 & Hrb2 & Hrx2). by split_and!.
  - rewrite Hcl. simpl. fold r.
    intros suspend c' (Hinv' & Hct & Hrx & Hcl' & Hsus & Hlim & Hcb & HR & Hrest).
    split_and!; try done. destruct (r.2) eqn:Hr; [by apply HR|].
    destruct (Hrest eq_refl) as (Hco' & Hwb & Htx & Hw & Hev). split_and!; try done.
    split_and!; [by rewrite Hwb|done| |by rewrite Hw, Hwb].
    unfold send_settled in *. rewrite Hco', Hwb, Hcl'. by rewrite Hcl in Hset.
Qed.
