(* ===== verification/Poller.v ===== *)
(** * Event registration and dispatch (scheduler/epoll_exector.cc,
      scheduler/kqueue_executor.cc)

    The executors register a connection's socket with epoll or kqueue when its
    coroutines ask for it ([add_event]) and resume the coroutines when events are
    reported.  What is registered for a socket is the state here.  The calls of
    [add_event] that a run of the coroutines makes are the events the connection
    logged in [events].

    The point of the dispatch is that a sender which waits for the socket to become
    writable has write events registered: otherwise it would never be resumed. *)
From S2P Require Import Prelude Block Segments InputStream OutputStream Streams Conn Connection ConnectionProofs Sender.

(** ** epoll *)

(** The registration of a socket: [None], or whether [EPOLLOUT] is among its
    events; [EPOLLIN] always is. *)
Abbreviation interest := (option bool).

(** [EpollExecutor::add_event]: its result and the registration after it.
    [epoll_ctl] fails when it adds a socket that is registered and when it changes
    or deletes one that is not. *)
Definition EpollExecutor_add_event (e : EventType) (i : interest) : bool * interest :=
  match e with
  | READ => match i with None => (true, Some false) | Some _ => (false, i) end
  | WRITE => match i with Some _ => (true, Some true) | None => (false, i) end
  | DELETE => match i with Some _ => (true, None) | None => (false, i) end
  | UNKNOWN => (true, i)
  end.

(** The registration after the calls of [add_event] between two states of the
    connection. *)
Definition epoll_events (i : interest) (c c' : Connection) : interest :=
  foldl (λ i e, (EpollExecutor_add_event e i).2) i (drop (length (events c)) (events c')).

(** The events reported for a socket. *)
Record epoll_report := mkReport { EPOLLIN : bool; EPOLLOUT : bool; EPOLLHUP : bool }.

(** The body of the dispatch loop of [EpollExecutor], for a connection that is not
    the dummy one; [X] is the connection with its coroutines, [resume_read] and
    [resume_write] resume them. *)
Definition epoll_dispatch {X} (conn_of : X → Connection) (close resume_read resume_write : M X unit)
    (ev : epoll_report) (i : interest) : M X interest :=
  if EPOLLHUP ev then close;; mret None
  else
    c ← gets conn_of;
    if EPOLLOUT ev && bool_decide (i = None) then mret i
    else
      (if EPOLLOUT ev then resume_write else mret tt);;
      c1 ← gets conn_of;
      (if EPOLLIN ev then resume_read else mret tt);;
      c2 ← gets conn_of;
      let i := if EPOLLOUT ev then Some false else i in
      mret (epoll_events (epoll_events i c c1) c1 c2).

(** ** kqueue *)

(** Which of the two filters are registered for a socket. *)
Record filters := mkFilters { EVFILT_READ : bool; EVFILT_WRITE : bool }.

(** [KqueueExecutor::add_event]; adding a filter again has no effect, and the
    result of deleting is not looked at. *)
Definition KqueueExecutor_add_event (e : EventType) (f : filters) : bool * filters :=
  match e with
  | READ => (true, mkFilters true (EVFILT_WRITE f))
  | WRITE => (true, mkFilters (EVFILT_READ f) true)
  | DELETE => (true, mkFilters false false)
  | UNKNOWN => (false, f)
  end.

Definition kqueue_events (f : filters) (c c' : Connection) : filters :=
  foldl (λ f e, (KqueueExecutor_add_event e f).2) f (drop (length (events c)) (events c')).

(** An event of one filter; [eof] is its [EV_EOF] flag. *)
Record kqueue_report := mkKReport { kwrite : bool; keof : bool }.

(** The body of the dispatch loop of [KqueueExecutor], for a socket. *)
Definition kqueue_dispatch {X} (conn_of : X → Connection) (close resume_read resume_write : M X unit)
    (ev : kqueue_report) (f : filters) : M X filters :=
  if keof ev then close;; mret (mkFilters false false)
  else
    c ← gets conn_of;
    (if kwrite ev then resume_write else resume_read);;
    c1 ← gets conn_of;
    let f := if kwrite ev then mkFilters (EVFILT_READ f) false else f in
    mret (kqueue_events f c c1).

(** ** Write events are registered when the sender waits for them *)
Definition epoll_armed (i : interest) (c : Connection) : Prop :=
  send_co c = SendWriting → i = Some true.
Definition kqueue_armed (f : filters) (c : Connection) : Prop :=
  send_co c = SendWriting → EVFILT_WRITE f = true.

Lemma drop_app_events (es new : list EventType) : drop (length es) (es ++ new) = new.
Proof. apply drop_app_length. Qed.

(** A run of the sender leaves the registration right, from any registration. *)
Lemma epoll_armed_send c c' (o : bool) :
  send_post c tt c' → epoll_armed (epoll_events (Some o) c c') c' ∧
    epoll_events (Some o) c c' = Some (bool_decide (send_co c' = SendWriting) || o).
Proof.
  intros (_ & _ & Hev & _). unfold epoll_events. rewrite Hev, drop_app_events. unfold epoll_armed.
  case_decide as Hw; simpl; [by rewrite bool_decide_eq_true_2|].
  rewrite bool_decide_eq_false_2 by done. done.
Qed.

Lemma kqueue_armed_send c c' f :
  send_post c tt c' → kqueue_armed (kqueue_events f c c') c' ∧
    EVFILT_READ (kqueue_events f c c') = EVFILT_READ f.
Proof.
  intros (_ & _ & Hev & _). unfold kqueue_events. rewrite Hev, drop_app_events. unfold kqueue_armed.
  by case_decide.
Qed.

(** Dispatching a write event: the sender runs, and afterwards write events are
    registered exactly if it waits for the socket again. *)
Lemma epoll_dispatch_write fuel resume_read (o : bool) c :
  send_ready fuel c → send_co c = SendWaiting ∨ send_co c = SendWriting →
  wp (epoll_dispatch id Connection_close resume_read (resume_write fuel) (mkReport false true false) (Some o))
    (λ i c', sent_some c c' ∧ send_settled c' ∧
             i = Some (bool_decide (send_co c' = SendWriting))) c.
Proof.
  intros Hr Hco. unfold epoll_dispatch. simpl. apply wp_bind, wp_gets.
  apply wp_bind.
  eapply wp_mono; [by apply wp_resume_write|]. intros [] c1 Hpost. wp_steps. unfold id.
  destruct (epoll_armed_send c c1 false Hpost) as [_ Heq]. rewrite Heq, orb_false_r.
  destruct Hpost as (Hsome & Hset & _). split_and!; [done|done|].
  unfold epoll_events. by rewrite drop_all.
Qed.

Lemma kqueue_dispatch_write fuel resume_read f c :
  send_ready fuel c → send_co c = SendWaiting ∨ send_co c = SendWriting →
  wp (kqueue_dispatch id Connection_close resume_read (resume_write fuel) (mkKReport true false) f)
    (λ f' c', sent_some c c' ∧ send_settled c' ∧ kqueue_armed f' c' ∧
              EVFILT_READ f' = EVFILT_READ f) c.
Proof.
  intros Hr Hco. unfold kqueue_dispatch. simpl. apply wp_bind, wp_gets, wp_bind.
  eapply wp_mono; [by apply wp_resume_write|]. intros [] c1 Hpost. wp_steps. unfold id.
  destruct (kqueue_armed_send c c1 (mkFilters (EVFILT_READ f) false) Hpost) as [H1 H2].
  destruct Hpost as (Hsome & Hset & _). by split_and!.
Qed.
