(* ===== verification/Uring.v ===== *)
(** * Connections over io_uring (net/uring_connection.h, net/uring_connection.cc,
      and the completions of scheduler/uring_exector.cc)

    [UringConnection::async_write] submits one [writev] for everything in the send
    buffer and submits nothing while [back_left_], the number of bytes submitted
    and not yet reported written, is positive.  When the write completes the
    executor calls [send_add] with the result and resumes the sending coroutine.

    A write that completes in full keeps the stream intact and the sender going.
    After a write that completes short, or with an error, [back_left_] stays
    positive while nothing is in flight: nothing is ever submitted again. *)
From S2P Require Import Prelude Block Segments OutputStream Conn Connection.

Record Uring := mkUring {
  u_buf : OutputBuffer;               (** [write_buf_] *)
  u_closed : bool;
  u_send : send_state;                (** what [write_handle_] refers to *)
  back_left_ : Z;                     (** [size_t] *)
  inflight : option (list cell);      (** the bytes of the write submitted *)
  u_wire : list cell;                 (** history: the bytes written *)
}.

Definition set_u_buf b u := mkUring b (u_closed u) (u_send u) (back_left_ u) (inflight u) (u_wire u).
Definition set_u_send st u := mkUring (u_buf u) (u_closed u) st (back_left_ u) (inflight u) (u_wire u).
Definition set_back_left z u := mkUring (u_buf u) (u_closed u) (u_send u) z (inflight u) (u_wire u).
Definition set_inflight o u := mkUring (u_buf u) (u_closed u) (u_send u) (back_left_ u) o (u_wire u).
Definition u_put_wire bs u := mkUring (u_buf u) (u_closed u) (u_send u) (back_left_ u) (inflight u) (u_wire u ++ bs).

(** [UringConnection::UringConnection] *)
Definition UringConnection_new : Uring := mkUring OutputBuffer_new false SendNotStarted 0 None [].

Definition on_u_buf {A} (m : M OutputBuffer A) : M Uring A := λ u,
  match m (u_buf u) with
  | Done (a, b) => Done (a, set_u_buf b u)
  | Faulted f => Faulted f
  | OutOfFuel => OutOfFuel
  end.

(** [UringConnection::send_add] *)
Definition UringConnection_send_add (fuel : nat) (nwrite : Z) : M Uring unit :=
  bl ← gets back_left_;
  modify (set_back_left (u64 (bl - nwrite)));;
  on_u_buf (OutputBuffer_send_add fuel nwrite).

(** [UringConnection::async_write]; returns [should_suspend]. *)
Definition UringConnection_async_write (fuel : nat) : M Uring bool :=
  bl ← gets back_left_;
  if decide (0 < bl)%Z then mret true
  else
    n ← gets (λ u, OutputBuffer_bytes (u_buf u));
    modify (set_back_left n);;
    if decide (n = 0)%Z then mret false
    else
      iovs ← on_u_buf (OutputBuffer_get_iovecs fuel);
      bss ← on_u_buf (mapM read_span iovs);
      modify (set_inflight (Some (concat bss)));;
      cl ← gets u_closed;
      mret (negb cl).

(** [send_fn] over this connection: one round of its loop, the loop, and
    [resume_write]; [add_event] of this executor does nothing. *)
Definition uring_send_write (fuel : nat) : M Uring bool :=
  suspend ← UringConnection_async_write fuel;
  if (suspend : bool) then modify (set_u_send SendWriting);; mret true else mret false.

Definition uring_send_body (fuel : nat) (_ : unit) : M Uring (unit + unit) :=
  cl ← gets u_closed;
  if (cl : bool) then modify (set_u_send SendDone);; mret (inr tt)
  else
    n ← gets (λ u, OutputBuffer_bytes (u_buf u));
    if decide (0 < n)%Z then
      suspended ← uring_send_write fuel;
      mret (if (suspended : bool) then inr tt else inl tt)
    else modify (set_u_send SendWaiting);; mret (inr tt).

Definition uring_send_fn (fuel : nat) : M Uring unit := iter fuel (uring_send_body fuel) tt.

Definition uring_resume_write (fuel : nat) : M Uring unit :=
  st ← gets u_send;
  match st with
  | SendWaiting =>
      suspended ← uring_send_write fuel;
      if (suspended : bool) then mret tt else uring_send_fn fuel
  | SendWriting => uring_send_fn fuel
  | SendNotStarted | SendDone => fail_with ResumeDestroyed
  end.

(** A producer appends bytes and resumes the sender. *)
Definition uring_submit (fuel : nat) (bytes : list cell) : M Uring unit :=
  on_u_buf (OutputBuffer_append fuel bytes);;
  uring_resume_write fuel.

(** The completion of the write in flight with result [res], negative for an
    error, as [UringExecutor] handles it; without a write in flight there is no
    completion. *)
Definition uring_complete (fuel : nat) (res : Z) : M Uring unit :=
  o ← gets inflight;
  match o with
  | None => mret tt
  | Some bytes =>
      modify (set_inflight None);;
      modify (u_put_wire (take (Z.to_nat res) bytes));;
      UringConnection_send_add fuel res;;
      uring_resume_write fuel
  end.

(** ** Proofs *)
Abbreviation u_unsent u := (output_contents (u_buf u)).

Lemma wp_on_u_buf {A} (m : M OutputBuffer A) (Q : A → Uring → Prop) u :
  wp m (λ a b, Q a (set_u_buf b u)) (u_buf u) → wp (on_u_buf m) Q u.
Proof. unfold wp, on_u_buf. by destruct (m (u_buf u)) as [[a b]| |]. Qed.

Lemma set_u_buf_id u : set_u_buf (u_buf u) u = u.
Proof. by destruct u. Qed.

(** Nothing here closes the connection. *)
Lemma uring_resume_preserves_closed fuel : preserves u_closed (uring_resume_write fuel).
Proof.
  assert (∀ A (m : M OutputBuffer A), preserves u_closed (on_u_buf m)) as Hbuf.
  { intros A m u a u' Hrun. unfold on_u_buf in Hrun.
    destruct (m (u_buf u)) as [[a1 b]| |]; [|done|done]. by injection Hrun as <- <-. }
  unfold uring_resume_write, uring_send_fn, uring_send_body, uring_send_write, UringConnection_async_write.
  preserve; by apply preserves_modify.
Qed.

(** The buffer fits one [writev] and the fuel. *)
Definition u_ready (fuel : nat) (u : Uring) : Prop :=
  output_inv (u_buf u) ∧ (length (u_unsent u) ≤ 1022 * 8192)%Z ∧ length (u_unsent u) + 3 < fuel.

Lemma u_ready_bytes fuel u :
  u_ready fuel u → OutputBuffer_bytes (u_buf u) = length (u_unsent u).
Proof.
  intros ((ns & Hs & _ & Htw) & Hlen & _). unfold OutputBuffer_bytes.
  rewrite Htw, (oshape_contents _ _ Hs) in *. apply u64_small. lia.
Qed.

(** A connection with a write in flight, and one without. *)
Definition writing (bytes : list cell) (u : Uring) : Prop :=
  inflight u = Some bytes ∧ u_send u = SendWriting ∧ back_left_ u = length bytes ∧
  bytes ≠ [] ∧ bytes `prefix_of` u_unsent u ∧ u_closed u = false.
Definition idle (u : Uring) : Prop :=
  inflight u = None ∧ u_send u = SendWaiting ∧ back_left_ u = 0%Z ∧ u_unsent u = [] ∧
  u_closed u = false.
(** Nothing is in flight, and [async_write] waits for it. *)
Definition stalled (u : Uring) : Prop :=
  inflight u = None ∧ u_send u = SendWriting ∧ (0 < back_left_ u)%Z ∧ u_unsent u ≠ [] ∧
  u_closed u = false.

(** With nothing in flight, everything is submitted. *)
Lemma wp_u_async_write fuel u :
  u_ready fuel u → back_left_ u = 0%Z → u_unsent u ≠ [] → u_closed u = false →
  wp (uring_send_write fuel) (λ r u', r = true ∧ u_buf u' = u_buf u ∧ u_wire u' = u_wire u ∧
    writing (u_unsent u) u') u.
Proof.
  intros Hr Hbl Hne Hcl. pose proof Hr as (Hinv & Hlen & Hf).
  pose proof (output_blocks_bound _ Hinv) as Hb. rewrite kBlockSize_val in Hb.
  unfold uring_send_write, UringConnection_async_write. wp_steps. rewrite Hbl. simpl. wp_steps.
  rewrite (u_ready_bytes _ _ Hr). rewrite decide_False by (destruct (u_unsent u); [done|simpl; lia]).
  apply wp_bind, wp_on_u_buf. eapply wp_mono; [apply OutputBuffer_get_iovecs_spec; [done|simpl; lia]|].
  intros iovs b (-> & _ & Hrd). apply wp_bind, wp_on_u_buf. eapply wp_mono; [exact Hrd|].
  intros bss b (-> & _ & Hall & _). rewrite Hall by (unfold IOV_MAX; simpl; lia).
  wp_steps. rewrite Hcl. simpl. wp_steps. split_and!; [done|done|done|].
  by split_and!.
Qed.

(** With something left to be reported, nothing is submitted. *)
Lemma wp_u_blocked fuel u :
  (0 < back_left_ u)%Z → wp (uring_send_write fuel) (λ r u', r = true ∧ u' = set_u_send SendWriting u) u.
Proof.
  intros Hbl. unfold uring_send_write, UringConnection_async_write. wp_steps.
  rewrite decide_True by done. by wp_steps.
Qed.

Lemma u_send_fn_busy fuel n u :
  u_ready fuel u → (0 < back_left_ u)%Z → u_unsent u ≠ [] → u_closed u = false → 0 < n →
  wp (iter n (uring_send_body fuel) tt) (λ _ u', u' = set_u_send SendWriting u) u.
Proof.
  intros Hr Hbl Hne Hcl Hn. destruct n as [|n]; [lia|]. apply wp_iter_step.
  unfold uring_send_body. wp_steps. rewrite Hcl. wp_steps. rewrite (u_ready_bytes _ _ Hr).
  rewrite decide_True by (destruct (u_unsent u); [done|simpl; lia]).
  apply wp_bind. eapply wp_mono; [by apply wp_u_blocked|]. intros r u' [-> ->]. by apply wp_ret.
Qed.

(** The loop when nothing is in flight: wait for data, or submit what there is. *)
Lemma u_send_fn_free fuel n u :
  u_ready fuel u → back_left_ u = 0%Z → inflight u = None → u_closed u = false → 0 < n →
  wp (iter n (uring_send_body fuel) tt) (λ _ u', u_buf u' = u_buf u ∧ u_wire u' = u_wire u ∧
    if decide (u_unsent u = []) then idle u' else writing (u_unsent u) u') u.
Proof.
  intros Hr Hbl Hfl Hcl Hn. destruct n as [|n]; [lia|]. apply wp_iter_step.
  unfold uring_send_body. wp_steps. rewrite Hcl. wp_steps. rewrite (u_ready_bytes _ _ Hr).
  case_decide as Hlen.
  - assert (u_unsent u ≠ []) as Hne by (intros Hnil; by rewrite Hnil in Hlen).
    apply wp_bind. eapply wp_mono; [by apply wp_u_async_write|].
    intros r u' (-> & Hb & Hw & Hwr). apply wp_ret. by rewrite decide_False.
  - assert (u_unsent u = []) as Hnil by (destruct (u_unsent u); [done|simpl in Hlen; lia]).
    wp_steps. rewrite decide_True by done. split_and!; [done|done|]. by split_and!.
Qed.

(** ** Submitting *)

(** The sender is resumed with [b] as the send buffer. *)
Lemma uring_resume_idle fuel b u :
  idle u → output_inv b → output_contents b ≠ [] → (length (output_contents b) ≤ 1022 * 8192)%Z →
  length (output_contents b) + 3 < fuel →
  wp (uring_resume_write fuel) (λ _ u', u_buf u' = b ∧ u_wire u' = u_wire u ∧
    writing (output_contents b) u') (set_u_buf b u).
Proof.
  intros (Hfl & Hst & Hbl & Hnil & Hcl) Hb Hne Hlen Hf.
  unfold uring_resume_write. apply wp_bind, wp_gets. simpl. rewrite Hst. apply wp_bind.
  eapply wp_mono; [by apply wp_u_async_write|].
  intros r u' (-> & Hb' & Hw & Hwr). by apply wp_ret.
Qed.

Lemma uring_resume_busy fuel b u :
  (0 < back_left_ u)%Z → u_send u = SendWriting → u_closed u = false → output_inv b →
  output_contents b ≠ [] → (length (output_contents b) ≤ 1022 * 8192)%Z →
  length (output_contents b) + 3 < fuel →
  wp (uring_resume_write fuel) (λ _ u', u' = set_u_buf b u) (set_u_buf b u).
Proof.
  intros Hbl Hst Hcl Hb Hne Hlen Hf.
  unfold uring_resume_write. apply wp_bind, wp_gets. simpl. rewrite Hst.
  unfold uring_send_fn. eapply wp_mono; [apply u_send_fn_busy; try done; lia|].
  intros [] u' ->. destruct u. simpl in *. by subst.
Qed.

Lemma uring_submit_busy fuel bytes u :
  (0 < back_left_ u)%Z → u_send u = SendWriting → u_closed u = false →
  output_inv (u_buf u) → u_unsent u ≠ [] →
  (length (u_unsent u ++ bytes) ≤ 1022 * 8192)%Z → 2 * length (u_unsent u ++ bytes) + 3 < fuel →
  wp (uring_submit fuel bytes) (λ _ u', ∃ b, u' = set_u_buf b u ∧ output_inv b ∧
    output_contents b = u_unsent u ++ bytes) u.
Proof.
  intros Hbl Hst Hcl Hinv Hne Hlen Hf. pose proof Hlen as Hlen'. pose proof Hf as Hf'.
  rewrite length_app in Hlen', Hf'. unfold uring_submit. apply wp_bind, wp_on_u_buf.
  eapply wp_mono; [apply OutputBuffer_append_spec; [done|unfold INT32_MAX; lia|lia]|].
  intros [] b [Hb Hct]. eapply wp_mono; [apply uring_resume_busy; rewrite ?Hct; try done; [|lia]|].
  { by intros [? _]%app_nil. }
  intros [] u' ->. by exists b.
Qed.

(** ** Completions *)
Lemma uring_complete_spec fuel bytes (n : nat) u :
  writing bytes u → u_ready fuel u → n ≤ length bytes →
  wp (uring_complete fuel n) (λ _ u', output_inv (u_buf u') ∧
    u_wire u' = u_wire u ++ take n bytes ∧ u_unsent u' = drop n (u_unsent u) ∧
    if decide (n = length bytes) then
      if decide (u_unsent u' = []) then idle u' else writing (u_unsent u') u'
    else stalled u') u.
Proof.
  intros (Hfl & Hst & Hbl & Hne & [more Hpre] & Hcl) (Hinv & Hlen & Hf) Hn.
  assert (length bytes ≤ length (u_unsent u)) as Hle by (rewrite Hpre, length_app; lia).
  unfold uring_complete, UringConnection_send_add. wp_steps. rewrite Hfl. wp_steps.
  apply wp_on_u_buf. eapply wp_mono.
  { apply OutputBuffer_send_add_spec; [done|simpl; lia|unfold INT32_MAX; lia|lia]. }
  simpl. rewrite Nat2Z.id. intros [] b [Hb Hct].
  unfold uring_resume_write. apply wp_bind, wp_gets. simpl. rewrite Hst.
  match goal with |- wp _ _ ?x => set (u1 := x) end.
  assert (back_left_ u1 = length bytes - n)%Z as Hbl1 by (simpl; rewrite Hbl, u64_small; lia).
  assert (u_ready fuel u1) as Hr1.
  { split_and!; simpl; rewrite ?Hct, ?length_drop; [done|lia|lia]. }
  unfold uring_send_fn. case_decide as Hfull.
  - eapply wp_mono; [apply u_send_fn_free; [done|lia|done|exact Hcl|lia]|].
    intros [] u' (Hb' & Hw' & Hst'). simpl in Hb', Hw', Hst'. rewrite Hb', Hw'.
    split_and!; [done|done|done|done].
  - assert (u_unsent u1 ≠ []) as Hne1.
    { simpl. rewrite Hct. intros Hnil. apply (f_equal length) in Hnil. rewrite length_drop in Hnil.
      simpl in Hnil. lia. }
    eapply wp_mono; [apply u_send_fn_busy; [done|lia|done|exact Hcl|lia]|].
    intros [] u' ->. split_and!; [done|done|done|]. split_and!; [done|done|simpl in *; lia|done|exact Hcl].
Qed.

(** An error counts as a negative number of bytes. *)
Lemma uring_complete_error fuel bytes res u :
  writing bytes u → u_ready fuel u → (- 2 ^ 31 ≤ res < 0)%Z →
  wp (uring_complete fuel res) (λ _ u', stalled u' ∧ u_wire u' = u_wire u ∧
    u_buf u' = u_buf u ∧ back_left_ u' = (length bytes - res)%Z) u.
Proof.
  intros (Hfl & Hst & Hbl & Hne & [more Hpre] & Hcl) (Hinv & Hlen & Hf) Hres.
  assert (length bytes ≤ length (u_unsent u)) as Hle by (rewrite Hpre, length_app; lia).
  unfold uring_complete, UringConnection_send_add. wp_steps. rewrite Hfl. wp_steps.
  apply wp_on_u_buf. unfold OutputBuffer_send_add. rewrite decide_True by lia. apply wp_ret.
  unfold uring_resume_write. apply wp_bind, wp_gets. simpl. rewrite Hst.
  match goal with |- wp _ _ ?x => set (u1 := x) end.
  assert (back_left_ u1 = length bytes - res)%Z as Hbl1 by (simpl; rewrite Hbl, u64_small; lia).
  assert (u_unsent u ≠ []) as Hne1 by (rewrite Hpre; by intros [? _]%app_nil).
  assert (u_wire u1 = u_wire u) as Hw1.
  { simpl. replace (Z.to_nat res) with 0 by lia. by rewrite take_0, app_nil_r. }
  unfold uring_send_fn. eapply wp_mono; [apply u_send_fn_busy; [done|lia|done|exact Hcl|lia]|].
  intros [] u' ->. split_and!; [|exact Hw1|done|exact Hbl1].
  split_and!; [done|done|simpl in *; lia|done|exact Hcl].
Qed.

(** A stalled connection stays stalled, whatever is submitted, and sends nothing. *)
Lemma stalled_submit fuel bytes u :
  stalled u → output_inv (u_buf u) →
  (length (u_unsent u ++ bytes) ≤ 1022 * 8192)%Z → 2 * length (u_unsent u ++ bytes) + 3 < fuel →
  wp (uring_submit fuel bytes) (λ _ u', stalled u' ∧ u_wire u' = u_wire u ∧
    output_inv (u_buf u') ∧ u_unsent u' = u_unsent u ++ bytes) u.
Proof.
  intros (Hfl & Hst & Hbl & Hne & Hcl) Hinv Hlen Hf.
  eapply wp_mono; [by apply uring_submit_busy|]. intros [] u' (b & -> & Hb & Hct).
  split_and!; [|done|done|done]. split_and!; simpl; try done.
  rewrite Hct. by intros [? _]%app_nil.
Qed.

Lemma stalled_complete fuel res u :
  stalled u → uring_complete fuel res u = Done (tt, u).
Proof.
  intros (Hfl & _). unfold uring_complete. rewrite (bind_done _ _ _ None u); [done|].
  unfold gets. by rewrite Hfl.
Qed.

(** ** The life of a connection whose writes complete in full *)
Inductive u_op :=
  | USubmit (bytes : list cell)
  | UComplete.                        (** the write in flight, if any *)

Definition run_u_op (fuel : nat) (op : u_op) : M Uring unit :=
  match op with
  | USubmit bytes => uring_submit fuel bytes
  | UComplete =>
      o ← gets inflight;
      uring_complete fuel (length (default [] o))
  end.
Fixpoint run_u (fuel : nat) (ops : list u_op) : M Uring unit :=
  match ops with
  | [] => mret tt
  | op :: ops => run_u_op fuel op;; run_u fuel ops
  end.

Definition u_submitted (ops : list u_op) : list cell :=
  concat ((λ op, match op with USubmit bytes => bytes | UComplete => [] end) <$> ops).

Definition u_inv (sub : list cell) (u : Uring) : Prop :=
  output_inv (u_buf u) ∧ u_wire u ++ u_unsent u = sub ∧ (idle u ∨ ∃ bytes, writing bytes u).

Lemma u_inv_open sub u : u_inv sub u → u_closed u = false.
Proof. by intros (_ & _ & [(_ & _ & _ & _ & ?)|(? & _ & _ & _ & _ & _ & ?)]). Qed.

(** Bytes put in the send buffer of a connection that is in order. *)
Lemma u_inv_resume fuel sub bytes b u :
  u_inv sub u → output_inv b → output_contents b = u_unsent u ++ bytes → bytes ≠ [] →
  (length (sub ++ bytes) ≤ 1022 * 8192)%Z → length (sub ++ bytes) + 3 < fuel →
  wp (uring_resume_write fuel) (λ _ u', u_inv (sub ++ bytes) u') (set_u_buf b u).
Proof.
  intros (Hinv & Hsub & Hcase) Hb Hct Hne Hlen Hf.
  assert (length (output_contents b) ≤ length (sub ++ bytes)) as Hle
    by (rewrite Hct, <-Hsub, !length_app; lia).
  assert (output_contents b ≠ []) as Hne' by (rewrite Hct; by intros [_ ?]%app_nil).
  rewrite <-Hsub, <-app_assoc, <-Hct. destruct Hcase as [Hi|(bs & Hw)].
  - eapply wp_mono; [apply uring_resume_idle; try done; lia|].
    intros [] u' (Hb' & Hwire & Hw'). split_and!; [by rewrite Hb'|by rewrite Hb', Hwire|by eauto].
  - pose proof Hw as (Hfl & Hst & Hbl & Hne2 & [more Hpre] & Hcl).
    eapply wp_mono; [apply uring_resume_busy; try done; try lia|].
    { destruct bs; [done|simpl in *; lia]. }
    intros [] u' ->. split_and!; [done|done|]. right. exists bs. split_and!; simpl; try done.
    rewrite Hct, Hpre, <-app_assoc. by eexists.
Qed.

(** The write in flight completes in full. *)
Lemma u_inv_complete fuel sub u :
  u_inv sub u → (length sub ≤ 1022 * 8192)%Z → length sub + 3 < fuel →
  wp (uring_complete fuel (length (default [] (inflight u)))) (λ _ u', u_inv sub u' ∧
    (∀ bytes, writing bytes u → u_wire u' = u_wire u ++ bytes) ∧
    (idle u' ∨ writing (u_unsent u') u') ∧ (idle u → u' = u)) u.
Proof.
  intros (Hinv & Hsub & Hcase) Hlen Hf.
  assert (length (u_unsent u) ≤ length sub) as Hle by (rewrite <-Hsub, length_app; lia).
  destruct Hcase as [Hi|(bs & Hw)].
  - pose proof Hi as (Hfl & _). rewrite Hfl. unfold uring_complete. wp_steps. rewrite Hfl.
    apply wp_ret. split; [by split_and!; [..|left]|]. split; [|by split; [left|]].
    intros bs (Hfl' & _). congruence.
  - pose proof Hw as (Hfl & _ & _ & _ & [more Hpre] & _). rewrite Hfl. simpl.
    eapply wp_mono; [apply (uring_complete_spec fuel bs); [done| |lia]|].
    { split_and!; [done|lia|lia]. }
    intros [] u' (Hinv' & Hwire & Hun & Hst). rewrite take_ge in Hwire by lia.
    rewrite decide_True in Hst by done.
    split; [split_and!; [done| |]|split_and!;
      [intros bs' (Hfl' & _); congruence|case_decide; [by left|by right]|intros (Hno & _); congruence]].
    + by rewrite Hwire, Hun, Hpre, drop_app_length, <-app_assoc, <-Hpre.
    + case_decide; [by left|right; by eexists].
Qed.

Lemma run_u_op_spec fuel op sub u :
  let sub' := sub ++ u_submitted [op] in
  u_inv sub u → (length sub' ≤ 1022 * 8192)%Z → 2 * length sub' + 3 < fuel →
  match op with USubmit bytes => bytes ≠ [] | UComplete => True end →
  wp (run_u_op fuel op) (λ _ u', u_inv sub' u') u.
Proof.
  intros sub' Hi Hlen Hf Hop.
  assert (u_submitted [op] = match op with USubmit bytes => bytes | UComplete => [] end) as Hop'
    by (unfold u_submitted; csimpl; apply app_nil_r).
  unfold sub' in *. rewrite Hop' in *. destruct op as [bytes|]; rewrite ?app_nil_r in *.
  - pose proof Hi as (Hinv & _). pose proof Hlen as Hlen'. pose proof Hf as Hf'.
    rewrite length_app in Hlen', Hf'. unfold uring_submit. apply wp_bind, wp_on_u_buf.
    eapply wp_mono; [apply OutputBuffer_append_spec; [done|unfold INT32_MAX; lia|lia]|].
    intros [] b [Hb Hct]. apply u_inv_resume; try done. lia.
  - apply wp_bind, wp_gets. eapply wp_mono; [apply u_inv_complete; [done|done|lia]|].
    by intros [] u' [? _].
Qed.

Lemma run_u_spec fuel ops sub u :
  let sub' := sub ++ u_submitted ops in
  u_inv sub u → (length sub' ≤ 1022 * 8192)%Z → 2 * length sub' + 3 < fuel →
  Forall (λ op, match op with USubmit bytes => bytes ≠ [] | UComplete => True end) ops →
  wp (run_u fuel ops) (λ _ u', u_inv sub' u') u.
Proof.
  revert sub u. induction ops as [|op ops IH]; intros sub u sub' Hinv Hlen Hf Hops.
  { apply wp_ret. unfold sub', u_submitted. simpl. by rewrite app_nil_r. }
  apply Forall_cons in Hops as [Hop Hops].
  assert (sub' = (sub ++ u_submitted [op]) ++ u_submitted ops) as Hs'
    by (unfold sub', u_submitted; csimpl; by rewrite app_nil_r, app_assoc).
  rewrite Hs' in *. rewrite length_app in Hlen, Hf. simpl. apply wp_bind.
  eapply wp_mono; [apply (run_u_op_spec fuel op sub u Hinv); [lia|lia|done]|].
  intros [] u1 Hinv1. apply IH; [done|rewrite length_app; lia|rewrite length_app; lia|done].
Qed.

Lemma uring_starts fuel :
  10 < fuel → wp (uring_send_fn fuel) (λ _ u, u_inv [] u) UringConnection_new.
Proof.
  intros Hf. destruct output_inv_new as [Hinv Hct]. unfold uring_send_fn.
  eapply wp_mono; [apply u_send_fn_free; simpl; try done; [|lia]|].
  { split_and!; simpl; [done|by rewrite Hct|rewrite Hct; simpl; lia]. }
  simpl. rewrite Hct. intros [] u (Hb & Hw & Hi). simpl in *.
  split_and!; [by rewrite Hb|by rewrite Hb, Hw, Hct|by left].
Qed.

(** No sequence of submissions and completions gets a stalled connection going. *)
Lemma run_u_stalled fuel ops u :
  stalled u → output_inv (u_buf u) →
  (length (u_unsent u ++ u_submitted ops) ≤ 1022 * 8192)%Z →
  2 * length (u_unsent u ++ u_submitted ops) + 3 < fuel →
  wp (run_u fuel ops) (λ _ u', stalled u' ∧ u_wire u' = u_wire u ∧
    u_unsent u' = u_unsent u ++ u_submitted ops) u.
Proof.
  revert u. induction ops as [|op ops IH]; intros u Hst Hinv Hlen Hf.
  { apply wp_ret. unfold u_submitted. simpl. by rewrite app_nil_r. }
  simpl. apply wp_bind. destruct op as [bytes|].
  - change (u_submitted (USubmit bytes :: ops)) with (bytes ++ u_submitted ops) in *.
    rewrite app_assoc in *. rewrite (length_app (u_unsent u ++ bytes)) in Hlen, Hf.
    eapply wp_mono; [apply stalled_submit; [done|done|lia|lia]|].
    intros [] u1 (Hst1 & Hw1 & Hinv1 & Hun1).
    eapply wp_mono; [apply IH; [done|done|rewrite Hun1, length_app; lia..]|].
    intros [] u2 (Hst2 & Hw2 & Hun2). split_and!; [done|congruence|by rewrite Hun2, Hun1].
  - change (u_submitted (UComplete :: ops)) with (u_submitted ops) in *.
    simpl. apply wp_bind, wp_gets. apply wp_done.
    exists tt, u. split; [by apply stalled_complete|]. by apply IH.
Qed.
