(* ===== verification/Wire.v ===== *)
(** * The header message and its wire format (proto/message.proto, util/common.h)

    [Header] is the message that precedes every request and response, [header_ok]
    says that its fields are in the range of their types.  [wire_header] is the
    encoding that the protobuf documentation gives for this message: the fields in
    the order of their numbers, numbers as varints and omitted when they are zero,
    strings with their length.  [parse_header] reads any sequence of fields, the last
    one of a number counts and unknown ones are skipped. *)
From Stdlib Require Import Ascii String.
From stdpp Require Import strings.
From S2P Require Import Prelude Block.

(** ** Messages *)
Inductive MessageType := MESSAGE_TYPE_UNSPECIFIED | REQUEST | RESPONSE.
#[export] Instance MessageType_eq_dec : EqDecision MessageType.
Proof. solve_decision. Defined.

Record Header := mkHeader {
  magic : Z;                     (** [uint64] *)
  version : Z;                   (** [int32] *)
  message_type : MessageType;
  request_id : Z;                (** [int64] *)
  service_name : option string;
  method_name : option string;
}.
#[export] Instance Header_eq_dec : EqDecision Header.
Proof. solve_decision. Defined.

Definition MAGIC_NUM : Z := 0x30F8CA9B.
Definition VERSION : Z := 1.

(** Names of services and methods are identifiers. *)
Definition byte_of (a : ascii) : Z := Z.of_N (N_of_ascii a).
Definition name_ok (s : string) : Prop :=
  (String.length s < 2 ^ 31)%Z ∧ Forall (λ a, byte_of a < 128)%Z (list_ascii_of_string s).
Definition header_ok (h : Header) : Prop :=
  (0 ≤ magic h < 2 ^ 64)%Z ∧ (INT32_MIN ≤ version h ≤ INT32_MAX)%Z ∧
  (- 2 ^ 63 ≤ request_id h < 2 ^ 63)%Z ∧
  from_option name_ok True (service_name h) ∧ from_option name_ok True (method_name h).
#[export] Instance name_ok_dec s : Decision (name_ok s).
Proof. unfold name_ok. apply _. Defined.
#[export] Instance header_ok_dec h : Decision (header_ok h).
Proof. unfold header_ok. destruct (service_name h), (method_name h); simpl; apply _. Defined.

(** ** Varints *)
Fixpoint varint (k : nat) (n : Z) : list Z :=
  match k with
  | 0 => []
  | S k => if decide (n < 128)%Z then [n] else (n mod 128 + 128)%Z :: varint k (n / 128)
  end.
Fixpoint read_varint (k : nat) (bs : list cell) : option (Z * list cell) :=
  match k, bs with
  | S k, Some b :: bs =>
      if decide (b < 128)%Z then Some (b, bs)
      else '(n, bs) ← read_varint k bs; Some (b - 128 + 128 * n, bs)%Z
  | _, _ => None
  end.

Lemma read_varint_spec (k : nat) n rest :
  0 < k → (0 ≤ n < 128 ^ k)%Z → read_varint k ((Some <$> varint k n) ++ rest) = Some (n, rest).
Proof.
  revert n. induction k as [|k IH]; intros n Hk Hn; [lia|].
  cbn [varint]. case_decide as Hs; [simpl; by rewrite decide_True|].
  cbn [fmap list_fmap app read_varint]. pose proof (Z.mod_pos_bound n 128). rewrite decide_False by lia.
  rewrite Nat2Z.inj_succ, Z.pow_succ_r in Hn by lia.
  rewrite IH; [simpl; do 2 f_equal; pose proof (Z.div_mod n 128); lia| |].
  - destruct k; [|lia]. change (128 ^ 0%nat)%Z with 1%Z in Hn. lia.
  - split; [apply Z.div_pos; lia|apply Z.div_lt_upper_bound; lia].
Qed.

(** ** Fields *)
Definition kVarint : nat := 10.          (** the bytes of a [uint64] at most *)

Definition number_field (field v : Z) : list cell :=
  if decide (v = 0)%Z then [] else Some (8 * field)%Z :: (Some <$> varint kVarint v).
Definition string_bytes (s : string) : list cell := (λ a, Some (byte_of a)) <$> list_ascii_of_string s.
Definition string_field (field : Z) (s : option string) : list cell :=
  match s with
  | None => []
  | Some s => Some (8 * field + 2)%Z :: (Some <$> varint kVarint (String.length s)) ++ string_bytes s
  end.

Definition type_number (t : MessageType) : Z :=
  match t with MESSAGE_TYPE_UNSPECIFIED => 0 | REQUEST => 1 | RESPONSE => 2 end.

Definition wire_header (h : Header) : list cell :=
  number_field 1 (magic h) ++ number_field 2 (u64 (version h)) ++
  number_field 3 (type_number (message_type h)) ++ number_field 4 (u64 (request_id h)) ++
  string_field 5 (service_name h) ++ string_field 6 (method_name h).

(** ** Parsing *)
Definition type_of (v : Z) : MessageType :=
  if decide (v = 1)%Z then REQUEST else if decide (v = 2)%Z then RESPONSE
  else MESSAGE_TYPE_UNSPECIFIED.

Definition set_number (field v : Z) (h : Header) : Header :=
  let '(mkHeader m ver t id s k) := h in
  match field with
  | 1 => mkHeader (u64 v) ver t id s k
  | 2 => mkHeader m (to_int32 v) t id s k
  | 3 => mkHeader m ver (type_of v) id s k
  | 4 => mkHeader m ver t (to_int64 v) s k
  | _ => h
  end%Z.
Definition set_string (field : Z) (v : string) (h : Header) : Header :=
  let '(mkHeader m ver t id s k) := h in
  match field with
  | 5 => mkHeader m ver t id (Some v) k
  | 6 => mkHeader m ver t id s (Some v)
  | _ => h
  end%Z.

Definition of_bytes (bs : list cell) : option string :=
  string_of_list_ascii <$> mapM (fmap (λ b, ascii_of_N (Z.to_N b))) bs.
Definition skip (n : nat) (bs : list cell) : option (list cell) :=
  if decide (n ≤ length bs) then Some (drop n bs) else None.

(** One field: its number and wire type, then its value. *)
Definition parse_field (h : Header) (bs : list cell) : option (Header * list cell) :=
  '(tag, bs) ← read_varint kVarint bs;
  match (tag mod 8)%Z with
  | 0 => '(v, bs) ← read_varint kVarint bs; Some (set_number (tag / 8) v h, bs)
  | 1 => bs ← skip 8 bs; Some (h, bs)
  | 2 => '(n, bs) ← read_varint kVarint bs;
         rest ← skip (Z.to_nat n) bs;
         s ← of_bytes (take (Z.to_nat n) bs);
         Some (set_string (tag / 8) s h, rest)
  | 5 => bs ← skip 4 bs; Some (h, bs)
  | _ => None
  end%Z.

Fixpoint parse_fields (fuel : nat) (h : Header) (bs : list cell) : option Header :=
  match bs, fuel with
  | [], _ => Some h
  | _, 0 => None
  | _, S fuel => '(h, bs) ← parse_field h bs; parse_fields fuel h bs
  end.

Definition empty_header : Header := mkHeader 0 0 MESSAGE_TYPE_UNSPECIFIED 0 None None.
Definition parse_header (bs : list cell) : option Header :=
  parse_fields (length bs) empty_header bs.

(** ** Round trip *)

(** From [h], the bytes [bs] lead to [h'] whatever follows. *)
Definition parses (h : Header) (bs : list cell) (h' : Header) : Prop :=
  ∀ rest fuel, length (bs ++ rest) ≤ fuel →
    ∃ fuel', length rest ≤ fuel' ∧ parse_fields fuel h (bs ++ rest) = parse_fields fuel' h' rest.

Lemma parses_nil h : parses h [] h.
Proof. intros rest fuel Hf. by exists fuel. Qed.

Lemma parses_app h1 bs1 h2 bs2 h3 :
  parses h1 bs1 h2 → parses h2 bs2 h3 → parses h1 (bs1 ++ bs2) h3.
Proof.
  intros H1 H2 rest fuel Hf. rewrite <-app_assoc in *.
  destruct (H1 _ _ Hf) as (f1 & Hf1 & ->). destruct (H2 _ _ Hf1) as (f2 & Hf2 & ->). by exists f2.
Qed.

Lemma parses_field h bs h' :
  bs ≠ [] → (∀ rest, parse_field h (bs ++ rest) = Some (h', rest)) → parses h bs h'.
Proof.
  intros Hne Hp rest fuel Hf. destruct bs as [|b bs]; [done|]. simpl in Hf.
  destruct fuel as [|fuel]; [lia|]. exists fuel. rewrite length_app in Hf. split; [lia|].
  specialize (Hp rest). cbn [app parse_fields] in *. by rewrite Hp.
Qed.

Lemma read_tag tag rest :
  (0 ≤ tag < 128)%Z → read_varint kVarint (Some tag :: rest) = Some (tag, rest).
Proof. intros Ht. unfold kVarint. cbn [read_varint]. by rewrite decide_True by lia. Qed.

Lemma parses_number field v h h' :
  (0 < field < 16)%Z → (0 ≤ v < 2 ^ 64)%Z → set_number field v h = h' →
  (v = 0%Z → h' = h) → parses h (number_field field v) h'.
Proof.
  intros Hfld Hv Hset Hz. unfold number_field. case_decide as H0; [rewrite Hz by done; apply parses_nil|].
  apply parses_field; [done|]. intros rest. cbn [app]. unfold parse_field. rewrite read_tag by lia.
  cbn [mbind option_bind]. rewrite Z.mul_comm, Z.mod_mul, Z.div_mul by lia.
  rewrite read_varint_spec by (unfold kVarint; lia). simpl. by rewrite Hset.
Qed.

Lemma of_string_bytes s : of_bytes (string_bytes s) = Some s.
Proof.
  unfold of_bytes, string_bytes, byte_of.
  assert (∀ l : list ascii, mapM (fmap (M := option) (λ b, ascii_of_N (Z.to_N b))) ((λ a, Some (Z.of_N (N_of_ascii a))) <$> l) = Some l)
    as Hl.
  { induction l as [|a l IH]; [done|]. cbn [fmap list_fmap mapM]. rewrite IH. simpl.
    by rewrite N2Z.id, ascii_N_embedding. }
  rewrite Hl. simpl. by rewrite string_of_list_ascii_of_string.
Qed.

Lemma length_string_bytes s : length (string_bytes s) = String.length s.
Proof. unfold string_bytes. rewrite length_fmap. induction s; simpl; [done|]. by f_equal. Qed.

Lemma parses_string field s h h' :
  (0 < field < 15)%Z → from_option name_ok True s →
  match s with Some s => set_string field s h = h' | None => h' = h end →
  parses h (string_field field s) h'.
Proof.
  intros Hfld Hok Hset. destruct s as [s|]; [|subst; apply parses_nil]. destruct Hok as [Hlen _].
  apply parses_field; [done|]. intros rest. cbn [string_field app]. unfold parse_field.
  rewrite read_tag by lia. cbn [mbind option_bind].
  replace (8 * field + 2)%Z with (2 + field * 8)%Z by lia. rewrite Z.mod_add, Z.div_add by lia.
  change (2 mod 8)%Z with 2%Z. change (2 / 8)%Z with 0%Z. rewrite <-app_assoc, read_varint_spec by (unfold kVarint; lia).
  cbn [mbind option_bind]. rewrite Nat2Z.id, <-length_string_bytes. unfold skip.
  rewrite decide_True by (rewrite length_app; lia). rewrite drop_app_length, take_app_length.
  cbn [mbind option_bind]. rewrite of_string_bytes. cbn [mbind option_bind]. by rewrite Z.add_0_l, Hset.
Qed.

Lemma to_int32_u64 z : (INT32_MIN ≤ z ≤ INT32_MAX)%Z → to_int32 (u64 z) = z.
Proof. unfold INT32_MIN, INT32_MAX, to_int32, u64. intros Hz. Z.to_euclidean_division_equations. lia. Qed.
Lemma to_int64_u64 z : (- 2 ^ 63 ≤ z < 2 ^ 63)%Z → to_int64 (u64 z) = z.
Proof. unfold to_int64, u64. intros Hz. Z.to_euclidean_division_equations. lia. Qed.

Lemma wire_roundtrip h : header_ok h → parse_header (wire_header h) = Some h.
Proof.
  destruct h as [m ver t id s k]. intros (Hm & Hver & Hid & Hs & Hk). simpl in *.
  assert (parses empty_header (wire_header (mkHeader m ver t id s k)) (mkHeader m ver t id s k)) as Hp.
  { assert (∀ z, 0 ≤ u64 z < 2 ^ 64)%Z as Hu by (intros z; apply Z.mod_pos_bound; lia).
    unfold wire_header. simpl. apply (parses_app _ _ (mkHeader m 0 MESSAGE_TYPE_UNSPECIFIED 0 None None)).
    { apply parses_number; [lia|done| |by intros ->]. simpl. unfold u64. by rewrite Z.mod_small. }
    apply (parses_app _ _ (mkHeader m ver MESSAGE_TYPE_UNSPECIFIED 0 None None)).
    { apply parses_number; [lia|done|simpl; by rewrite to_int32_u64|]. intros Hz.
      by rewrite <-(to_int32_u64 ver), Hz. }
    apply (parses_app _ _ (mkHeader m ver t 0 None None)).
    { apply parses_number; [lia|by destruct t|by destruct t|by destruct t]. }
    apply (parses_app _ _ (mkHeader m ver t id None None)).
    { apply parses_number; [lia|done|simpl; by rewrite to_int64_u64|]. intros Hz.
      by rewrite <-(to_int64_u64 id), Hz. }
    apply (parses_app _ _ (mkHeader m ver t id s None)); apply parses_string; try done; by destruct s, k. }
  unfold parse_header. specialize (Hp [] (length (wire_header (mkHeader m ver t id s k)))).
  rewrite app_nil_r in Hp. destruct Hp as (f & _ & ->); [done|]. by destruct f.
Qed.
