(* ===== verification/Protocol.v ===== *)
(** * The wire protocol: messages and their frames

    Both directions of a connection carry a sequence of frames.  A frame is the
    length of a header, the header, the length of a body and the body; lengths
    are [uint32_t] in the byte order of the machine, little-endian here.  The
    header is the protobuf message of proto/message.proto (Wire.v).

    Protobuf itself is not part of the repository.  What the code calls of it is
    a parameter: the class [Protobuf] holds the two stream operations and the wire
    format of the header, [ProtobufLaws] what protobuf documents about them.
    [protobuf_model] shows that the laws can hold: it has the documented wire format
    of the header, and parses and serializes through the stream interfaces the way
    protobuf does. *)
From stdpp Require Import strings.
From S2P Require Import Prelude Block Segments InputStream OutputStream Streams Wire.

(** ** Length prefixes *)

(** The four bytes of a [uint32_t] in memory, and the value of four bytes. *)
Definition u32_bytes (n : Z) : list cell :=
  [Some (n mod 256); Some (n / 2 ^ 8 mod 256); Some (n / 2 ^ 16 mod 256);
   Some (n / 2 ^ 24 mod 256)]%Z.
Definition u32_value (bs : list cell) : Z :=
  foldr (λ c acc, default 0 c + 256 * acc)%Z 0%Z bs.

Lemma u32_roundtrip n : (0 ≤ n < 2 ^ 32)%Z → u32_value (u32_bytes n) = n.
Proof.
  intros Hn. unfold u32_value, u32_bytes. cbn [foldr default from_option].
  change (2 ^ 8)%Z with 256%Z. change (2 ^ 16)%Z with 65536%Z.
  change (2 ^ 24)%Z with 16777216%Z. change (2 ^ 32)%Z with 4294967296%Z in Hn.
  pose proof (Z.div_mod n 256 ltac:(lia)). pose proof (Z.div_mod (n / 256) 256 ltac:(lia)).
  pose proof (Z.div_mod (n / 65536) 256 ltac:(lia)).
  assert (n / 256 / 256 = n / 65536)%Z by (by rewrite Z.div_div).
  assert (n / 65536 / 256 = n / 16777216)%Z by (by rewrite Z.div_div).
  assert (0 ≤ n / 16777216 < 256)%Z.
  { split; [apply Z.div_pos; lia|apply Z.div_lt_upper_bound; lia]. }
  rewrite (Z.mod_small (n / 16777216) 256) by lia. unfold id. lia.
Qed.

(** ** Protobuf *)
Class Protobuf := {
  header_encode : Header → list cell;
  header_decode : list cell → option Header;
  (** [Message::ParseFromZeroCopyStream], of a message with the given wire
      format; [None] is the result [false]. *)
  ParseFromZeroCopyStream {A} : (list cell → option A) → nat → M InputBuffer (option A);
  (** [Message::SerializeToZeroCopyStream], of a message with the given bytes. *)
  SerializeToZeroCopyStream : nat → list cell → M OutputBuffer unit;
}.

Class ProtobufLaws `{!Protobuf} := {
  header_roundtrip h : header_ok h → header_decode (header_encode h) = Some h;
  (** Parsing reads up to the limit of the stream, all of it if it succeeds. *)
  parse_law {A} (decode : list cell → option A) (fuel : nat) s :
    input_inv s → limit_ s ≠ INT32_MAX → (limit_ s ≤ length (input_contents s))%Z →
    length (input_contents s) < fuel →
    wp (ParseFromZeroCopyStream decode fuel) (λ r s', input_inv s' ∧
      r = decode (take (Z.to_nat (limit_ s)) (input_contents s)) ∧
      ∃ k : nat, (k ≤ limit_ s)%Z ∧ (r ≠ None → (k : Z) = limit_ s) ∧
        input_contents s' = drop k (input_contents s) ∧
        u64 (consumed_bytes_ s') = u64 (consumed_bytes_ s + k)) s;
  serialize_law fuel bytes s :
    output_inv s → length bytes < fuel →
    wp (SerializeToZeroCopyStream fuel bytes)
      (λ _ s', output_inv s' ∧ output_contents s' = output_contents s ++ bytes) s;
}.

(** ** An instance *)
Definition protobuf_model : Protobuf := {|
  header_encode := wire_header;
  header_decode := parse_header;
  ParseFromZeroCopyStream A decode fuel := bytes ← drain fuel; mret (decode bytes);
  SerializeToZeroCopyStream fuel bytes := emit fuel bytes;
|}.

Lemma protobuf_model_laws : @ProtobufLaws protobuf_model.
Proof.
  split.
  - exact wire_roundtrip.
  - intros A dec fuel s Hinv Hlim Hle Hf. simpl. apply wp_bind.
    eapply wp_mono; [by apply (drain_spec (S := InputBuffer))|].
    intros bytes s' (Hinv' & _ & Hlen & Hct & Hcb). simpl in *. apply wp_ret.
    split_and!; [done| |].
    + f_equal. rewrite Hct, <-Hlen, Nat2Z.id. by rewrite take_app_length.
    + exists (length bytes). split_and!; [lia|done| |done]. by rewrite Hct, drop_app_length.
  - intros fuel bytes s Hinv Hf. exact (emit_spec (S := OutputBuffer) fuel bytes s Hinv Hf).
Qed.

(** ** Frames *)
Definition frame (header body : list cell) : list cell :=
  u32_bytes (length header) ++ header ++ u32_bytes (length body) ++ body.

(** A header and a body that can be sent in a frame. *)
Definition frame_ok `{Protobuf} (k : Header * list cell) : Prop :=
  header_ok k.1 ∧ (length (frame (header_encode k.1) k.2) < 2 ^ 31)%Z.
#[export] Instance frame_ok_dec `{Protobuf} k : Decision (frame_ok k).
Proof. unfold frame_ok. apply _. Defined.
