(* ===== verification/Receiver.v ===== *)
(** * What the two receiving coroutines share

    [RpcServer::recv_fn] and [ClientChannel::recv_fn] wait for bytes in loops of
    the form [while (conn->read_bytes() < n && !conn->closed()) co_await
    conn->async_read();].  When the connection has nothing to read the coroutine is
    suspended inside such a loop, and [resume_read] goes on at its head.

    The code is written against the interface of connections ([Conn]).  The second
    half states what a connection promises to it ([ConnLaws]): as long as the peer
    sends, a read hands over bytes of the stream or suspends, and the sender takes
    what is put in the send buffer.  The pieces of a frame are then received, and
    sent, over any connection. *)
From stdpp Require Import strings.
From S2P Require Import Prelude Block Segments InputStream OutputStream Streams Conn Wire Protocol.

(** How a coroutine gives up control: suspended at a point, or returned, with what
    it leaves behind. *)
Inductive recv_exit (pc R : Type) :=
  | Suspended (p : pc)
  | Returned (r : R).
Arguments Suspended {pc R} p.
Arguments Returned {pc R} r.

Section receiver.
Context `{Conn C}.

(** One round of a waiting loop; [check_closed] says whether its condition has
    [&& !conn->closed()].  The result is whether the coroutine is suspended. *)
Definition wait_step (fuel : nat) (check_closed : bool) (need : Z) (_ : unit)
    : M C (unit + bool) :=
  rb ← gets Connection_read_bytes;
  cl ← gets is_closed;
  if bool_decide (rb < need)%Z && negb (check_closed && cl) then
    suspended ← await_read fuel;
    mret (if (suspended : bool) then inr true else inl tt)
  else mret (inr false).

Definition wait_bytes (fuel : nat) (check_closed : bool) (need : Z) : M C bool :=
  iter fuel (wait_step fuel check_closed need) tt.

(** [conn->closed() && conn->read_bytes() < need], after a waiting loop. *)
Definition cut_off (need : Z) (c : C) : bool :=
  is_closed c && bool_decide (Connection_read_bytes c < need)%Z.

(** The end of a receiving coroutine. *)
Definition recv_finish {pc R} (r : R) : M C (pc + recv_exit pc R) :=
  cl ← gets is_closed;
  (if (cl : bool) then mret tt else close_conn);;
  mret (inr (Returned r)).

(** [push_limit], parse, and [pop_limit] if that went well. *)
Definition parse_limited `{Protobuf} {A B} (fuel : nat) (dec : list cell → option A) (n : Z)
    (fail : M C B) (k : A → M C B) : M C B :=
  on_read_buf (InputBuffer_push_limit (to_int32 n));;
  r ← on_read_buf (ParseFromZeroCopyStream dec fuel);
  match r with
  | None => fail
  | Some m => on_read_buf InputBuffer_pop_limit;; k m
  end.

(** A frame put in the send buffer: [append] of the lengths, as [uint32_t], and
    the two messages through the stream. *)
Definition write_frame `{Protobuf} (fuel : nat) (header body : list cell) : M C unit :=
  on_write_buf (OutputBuffer_append fuel (u32_bytes (u32 (length header))));;
  on_write_buf (SerializeToZeroCopyStream fuel header);;
  on_write_buf (OutputBuffer_append fuel (u32_bytes (u32 (length body))));;
  on_write_buf (SerializeToZeroCopyStream fuel body).
End receiver.

(** ** What a connection promises *)

(** [pos] bytes of the stream have been consumed. *)
Definition at_pos `{Buffers C} (pos : Z) (c : C) : Prop :=
  u64 (consumed_bytes_ (in_buf c)) = u64 pos.

(** [good fuel out c]: an open connection whose buffers are sound, with a kernel
    that delivers, which has been given [out] to send.  [parked c]: the receiver
    may be suspended here, it will be resumed when there is more. *)
Class ConnLaws C `{Conn C} := {
  conn_buffers :: BuffersLaws C;
  kernel_rx : C → list cell;                   (** bytes the kernel will hand over *)
  good : nat → list cell → C → Prop;
  parked : C → Prop;
  good_input fuel out c : good fuel out c → input_inv (in_buf c);
  good_limit fuel out c : good fuel out c → limit_ (in_buf c) = INT32_MAX;
  good_output fuel out c : good fuel out c → output_inv (out_buf c);
  good_open fuel out c : good fuel out c → is_closed c = false;
  good_fuel fuel out c :
    good fuel out c → length (input_contents (in_buf c) ++ kernel_rx c) + 2 < fuel;
  good_small fuel out c :
    good fuel out c → (length (input_contents (in_buf c) ++ kernel_rx c) < 2 ^ 31 - 1)%Z;
  kernel_set_in b c : kernel_rx (set_in_buf b c) = kernel_rx c;
  good_set_in fuel out b c :
    good fuel out c → input_inv b → limit_ b = INT32_MAX →
    length (input_contents b) ≤ length (input_contents (in_buf c)) →
    good fuel out (set_in_buf b c);
  closed_set_in b (c : C) : is_closed (set_in_buf b c) = is_closed c;
  close_law (c : C) : wp close_conn (λ _ _, True) c;
  (** A read suspends, with nothing new in the buffer, or takes bytes from the
      kernel. *)
  await_law fuel out c :
    good fuel out c →
    wp (await_read fuel) (λ suspended c', good fuel out c' ∧
      input_contents (in_buf c') ++ kernel_rx c' = input_contents (in_buf c) ++ kernel_rx c ∧
      consumed_bytes_ (in_buf c') = consumed_bytes_ (in_buf c) ∧
      if suspended then parked c' ∧ input_contents (in_buf c') = input_contents (in_buf c)
      else length (kernel_rx c') < length (kernel_rx c)) c;
  (** Resuming the sender after [bytes] have been put in the send buffer. *)
  send_law fuel out bytes b c :
    good fuel out c → output_inv b → bytes ≠ [] →
    output_contents b = output_contents (out_buf c) ++ bytes →
    (length (out ++ bytes) ≤ kWindow)%Z → length (out ++ bytes) + 3 < fuel →
    wp (resume_sender fuel) (λ _ c', good fuel (out ++ bytes) c' ∧
      in_buf c' = in_buf c ∧ kernel_rx c' = kernel_rx c) (set_out_buf b c);
}.

(** ** The waiting loop *)

(** A length prefix at [pos] lies in one block. *)
Definition fits (pos : Z) : Prop := (pos mod kBlockSize ≤ kBlockSize - 4)%Z.
#[export] Instance fits_dec pos : Decision (fits pos).
Proof. unfold fits. apply _. Defined.

Lemma read_bytes_contents `{Buffers C} (c : C) :
  input_inv (in_buf c) → (length (input_contents (in_buf c)) < 2 ^ 64)%Z →
  Connection_read_bytes c = length (input_contents (in_buf c)).
Proof.
  intros (pre & suf & Hs & _ & Hrb & _) Hsm. unfold Connection_read_bytes, InputBuffer_bytes.
  rewrite Hrb, (shape_contents _ _ _ Hs) in *. apply u64_small. lia.
Qed.

Lemma at_pos_fits `{Buffers C} pos (c : C) :
  at_pos pos c → fits pos → fits (consumed_bytes_ (in_buf c)).
Proof.
  unfold at_pos, fits. intros Hp. rewrite <-(u64_mod_block pos), <-Hp. by rewrite u64_mod_block.
Qed.

Section connection.
Context `{ConnLaws C}.
Implicit Types c : C.
Abbreviation unread c := (input_contents (in_buf c)).

(** Bytes that are or can be read. *)
Definition incoming c : list cell := unread c ++ kernel_rx c.

Definition same_input c c' : Prop :=
  incoming c' = incoming c ∧ consumed_bytes_ (in_buf c') = consumed_bytes_ (in_buf c).

Lemma same_input_trans c1 c2 c3 : same_input c1 c2 → same_input c2 c3 → same_input c1 c3.
Proof. intros [??] [??]. split; congruence. Qed.

Lemma at_pos_same pos c c' : same_input c c' → at_pos pos c → at_pos pos c'.
Proof. intros [_ Hcb]. unfold at_pos. by rewrite Hcb. Qed.

Lemma same_input_app c c' a b :
  same_input c c' → incoming c = a ++ b → incoming c' = a ++ b.
Proof. intros [Hi _]. by rewrite Hi. Qed.

Lemma unread_incoming c : length (unread c) ≤ length (incoming c).
Proof. unfold incoming. rewrite length_app. lia. Qed.

Lemma unread_prefix c bytes rest :
  incoming c = bytes ++ rest → length bytes ≤ length (unread c) →
  unread c = bytes ++ drop (length bytes) (unread c).
Proof.
  unfold incoming. intros Hin Hlen. apply (f_equal (take (length bytes))) in Hin.
  rewrite take_app_length, take_app_le in Hin by lia. by rewrite <-Hin at 1; rewrite take_drop.
Qed.

(** The bounds of a good connection. *)
Lemma good_bounds fuel out c :
  good fuel out c → length (incoming c) + 2 < fuel ∧ (length (incoming c) < 2 ^ 31 - 1)%Z.
Proof. intros Hg. split; [by eapply good_fuel|by eapply good_small]. Qed.

Lemma good_read_bytes fuel out c :
  good fuel out c → Connection_read_bytes c = length (unread c).
Proof.
  intros Hg. pose proof (good_small _ _ _ Hg) as Hsm. rewrite length_app in Hsm.
  apply read_bytes_contents; [by eapply good_input|lia].
Qed.

(** A waiting loop ends with [need] bytes buffered, or parked with fewer. *)
Lemma wp_wait fuel out check need c :
  good fuel out c →
  wp (wait_bytes fuel check need) (λ suspended c', good fuel out c' ∧ same_input c c' ∧
    if suspended then parked c' ∧ (length (unread c') < need)%Z
    else (need ≤ length (unread c'))%Z) c.
Proof.
  intros Hg. unfold wait_bytes.
  apply (wp_iter (λ _ c1, good fuel out c1 ∧ same_input c c1)
    (λ _ c1, length (kernel_rx c1))); [|by split|].
  - intros [] c1 [Hg1 Hs1]. unfold wait_step. apply wp_bind, wp_gets, wp_bind, wp_gets.
    rewrite (good_open _ _ _ Hg1), (good_read_bytes _ _ _ Hg1), andb_false_r. simpl.
    case_bool_decide as Hlt; simpl; [|apply wp_ret; split_and!; [done|done|lia]].
    apply wp_bind. eapply wp_mono; [by apply await_law|].
    intros suspend c2 (Hg2 & Hin2 & Hcb2 & Hs). apply wp_ret.
    assert (same_input c c2) as Hsame by (by apply (same_input_trans _ c1)).
    destruct suspend; [|by split_and!]. destruct Hs as [Hp Hun].
    split_and!; [done|done|done|]. by rewrite Hun.
  - pose proof (good_fuel _ _ _ Hg) as Hf. rewrite length_app in Hf. lia.
Qed.

(** ** The pieces of a frame *)

(** The connection after the receive buffer has given up a prefix. *)
Lemma good_consume fuel out c b bytes rest :
  good fuel out c → input_inv b → limit_ b = INT32_MAX →
  unread c = bytes ++ input_contents b → incoming c = bytes ++ rest →
  good fuel out (set_in_buf b c) ∧ incoming (set_in_buf b c) = rest.
Proof.
  intros Hg Hinv Hlim Hun Hin. split.
  - apply good_set_in; try done. rewrite Hun, length_app. lia.
  - unfold incoming in *. rewrite in_set_in, kernel_set_in.
    rewrite Hun, <-app_assoc in Hin. by apply app_inv_head in Hin.
Qed.

(** The length prefix is in the receive buffer. *)
Lemma wp_fetch_buf pos n rest c :
  input_inv (in_buf c) → at_pos pos c → fits pos → unread c = u32_bytes n ++ rest →
  (length (unread c) < 2 ^ 31)%Z →
  wp (on_read_buf (InputBuffer_fetch_uint32 (replicate 4 None))) (λ r c', ∃ b,
    r = (true, u32_bytes n) ∧ c' = set_in_buf b c ∧ input_inv b ∧ input_contents b = rest ∧
    limit_ b = limit_ (in_buf c) ∧ at_pos (pos + 4) c') c.
Proof.
  intros Hinv Hpos Hfit Hun Hsm. apply wp_read_buf.
  assert (4 ≤ length (unread c))%Z as Hlen by (rewrite Hun, length_app; simpl; lia).
  eapply wp_mono.
  { apply InputBuffer_fetch_spec; [done|done| |lia].
    apply current_avail_aligned; [done|done|]. by apply (at_pos_fits pos). }
  intros [ok v] b (Hinv' & Hok & Hct & Hv & Hlim & Hcb). simpl in Hok, Hv, Hct. subst ok.
  rewrite Hun in Hct. apply app_inj_1 in Hct as [<- Hrest]; [|by rewrite Hv].
  exists b. split_and!; try done. unfold at_pos in *. rewrite in_set_in, Hcb.
  rewrite <-u64_add_l, Hpos. unfold u64. by rewrite !Zplus_mod_idemp_l, Zmod_mod.
Qed.

Lemma wp_fetch_len fuel out pos n rest c :
  good fuel out c → at_pos pos c → fits pos → (4 ≤ length (unread c))%Z →
  incoming c = u32_bytes n ++ rest →
  wp (on_read_buf (InputBuffer_fetch_uint32 (replicate 4 None))) (λ r c',
    r = (true, u32_bytes n) ∧ good fuel out c' ∧ incoming c' = rest ∧ at_pos (pos + 4) c') c.
Proof.
  intros Hg Hpos Hfit Hlen Hin. pose proof (good_bounds _ _ _ Hg) as [_ Hsm].
  pose proof (unread_incoming c) as Hui.
  pose proof (unread_prefix c _ _ Hin ltac:(simpl; lia)) as Hun.
  eapply wp_mono; [eapply (wp_fetch_buf pos n); [by eapply good_input|done|done|exact Hun|lia]|].
  intros r c' (b & -> & -> & Hinv & Hct & Hlim & Hpos'). rewrite (good_limit _ _ _ Hg) in Hlim.
  destruct (good_consume fuel out c b (u32_bytes n) rest) as [Hg' Hr']; try done.
  by rewrite Hct.
Qed.

Lemma input_inv_set_limit z s :
  input_inv s → (0 ≤ z ≤ INT32_MAX)%Z → input_inv (set_limit z s).
Proof. intros (pre & suf & Hs & Hset & Hrb & _ & Hal) Hz. by exists pre, suf. Qed.

(** The message is in the receive buffer. *)
Lemma parse_buf_run `{ProtobufLaws} {A} fuel pos (dec : list cell → option A) bytes rest c :
  input_inv (in_buf c) → at_pos pos c → unread c = bytes ++ rest →
  (length (unread c) < 2 ^ 31 - 1)%Z → length (unread c) < fuel →
  ∃ b, input_inv b ∧
    (dec bytes ≠ None → limit_ b = INT32_MAX ∧ input_contents b = rest ∧
       at_pos (pos + length bytes) (set_in_buf b c)) ∧
    ∀ B (fail : M C B) (k : A → M C B),
      parse_limited fuel dec (length bytes) fail k c =
        (match dec bytes with Some m => k m | None => fail end) (set_in_buf b c).
Proof.
  intros Hinv Hpos Hun Hsm Hf. pose proof (f_equal length Hun) as Hlen. rewrite length_app in Hlen.
  assert (wp (on_read_buf (InputBuffer_push_limit (to_int32 (length bytes)));;
              on_read_buf (ParseFromZeroCopyStream dec fuel))
    (λ r c', r = dec bytes ∧ ∃ b, c' = set_in_buf b c ∧ input_inv b ∧
       (r ≠ None → input_contents b = rest ∧ at_pos (pos + length bytes) c')) c) as Hparse.
  { apply wp_bind, wp_read_buf, wp_modify.
    rewrite to_int32_small by (unfold INT32_MIN, INT32_MAX; lia).
    apply wp_read_buf. rewrite in_set_in.
    eapply wp_mono; [apply parse_law; [|simpl; unfold INT32_MAX; lia|simpl..]|].
    { apply input_inv_set_limit; [done|unfold INT32_MAX; lia]. }
    { change (length bytes ≤ length (unread c))%Z. lia. }
    { change (length (unread c) < fuel). lia. }
    intros r b (Hinv' & Hr & n & Hn1 & Hn2 & Hct & Hcb). rewrite set_in_set_in.
    change (input_contents (set_limit (length bytes) (in_buf c))) with (unread c) in Hr, Hct.
    simpl in Hr, Hn1, Hn2, Hcb. rewrite Nat2Z.id, Hun, take_app_length in Hr. split; [done|].
    exists b. split_and!; [done|done|]. intros Hne.
    assert (n = length bytes) as -> by (specialize (Hn2 Hne); lia).
    rewrite Hun, drop_app_length in Hct. split; [done|].
    unfold at_pos in *. rewrite in_set_in, Hcb, <-u64_add_l, Hpos. by rewrite u64_add_l. }
  apply wp_done in Hparse as (r & c' & Hrun & -> & b & -> & Hib & Hb).
  assert (∀ B k', (on_read_buf (InputBuffer_push_limit (to_int32 (length bytes)));;
      r ← on_read_buf (ParseFromZeroCopyStream dec fuel); k' r) c =
      (k' : _ → M C B) (dec bytes) (set_in_buf b c)) as Hk.
  { intros B k'. unfold mbind, M_bind in Hrun |- *. destruct (on_read_buf _ c) as [[[] c1]| |]; [|done|done].
    by rewrite Hrun. }
  destruct (dec bytes) as [m|] eqn:Hdec.
  - exists (set_limit INT32_MAX b). destruct (Hb ltac:(done)) as [Hct Hp].
    split_and!; [by apply input_inv_set_limit|intros _|].
    + split_and!; [done|done|]. unfold at_pos in *. by rewrite in_set_in in Hp |- *.
    + intros B fail k. unfold parse_limited. rewrite Hk. unfold mbind, M_bind, on_read_buf.
      simpl. by rewrite in_set_in, set_in_set_in.
  - exists b. split_and!; [done|done|]. intros B fail k. unfold parse_limited. by rewrite Hk.
Qed.

Lemma wp_parse_limited `{ProtobufLaws} {A B} fuel out pos dec bytes rest m
    (fail : M C B) (k : A → M C B) Q c :
  good fuel out c → at_pos pos c → (length bytes ≤ length (unread c))%Z →
  incoming c = bytes ++ rest → dec bytes = Some m →
  (∀ c', good fuel out c' → incoming c' = rest → at_pos (pos + length bytes) c' →
    wp (k m) Q c') →
  wp (parse_limited fuel dec (length bytes) fail k) Q c.
Proof.
  intros Hl Hpos Hlen Hin Hdec HQ. pose proof (good_bounds _ _ _ Hl) as [Hf Hsm].
  pose proof (unread_incoming c) as Hui.
  pose proof (unread_prefix c _ _ Hin ltac:(lia)) as Hun.
  destruct (parse_buf_run fuel pos dec bytes _ c (good_input _ _ _ Hl) Hpos Hun)
    as (b & Hib & Hb & Hrun); [lia|lia|]. rewrite Hdec in Hb, Hrun.
  destruct (Hb ltac:(done)) as (Hlim & Hct & Hpos'). unfold wp. rewrite Hrun.
  destruct (good_consume fuel out c b bytes rest) as [Hl' Hr']; [done..|by rewrite Hct|done|].
  by apply HQ.
Qed.

Lemma wp_write_frame `{ProtobufLaws} fuel header body c :
  output_inv (out_buf c) → (length (frame header body) ≤ kWindow)%Z →
  length (frame header body) + 3 < fuel →
  wp (write_frame fuel header body) (λ _ c', ∃ b, c' = set_out_buf b c ∧ output_inv b ∧
    output_contents b = output_contents (out_buf c) ++ frame header body) c.
Proof.
  intros Hinv Hwin Hf. unfold frame in *. rewrite !length_app in Hwin, Hf.
  cbn [length u32_bytes] in Hwin, Hf. unfold kWindow in Hwin.
  assert (∀ n : nat, (n ≤ 2 ^ 30)%Z → u32 n = n) as Hu
    by (intros n Hn; apply Z.mod_small; lia).
  unfold write_frame. rewrite !Hu by lia.
  apply wp_bind, wp_write_buf. eapply wp_mono.
  { apply OutputBuffer_append_spec; [done|simpl; unfold INT32_MAX; lia|simpl; lia]. }
  intros [] b1 [Hinv1 Hct1]. apply wp_bind, wp_write_buf. rewrite out_set_out. eapply wp_mono.
  { apply serialize_law; [done|lia]. }
  intros [] b2 [Hinv2 Hct2]. rewrite set_out_set_out.
  apply wp_bind, wp_write_buf. rewrite out_set_out. eapply wp_mono.
  { apply OutputBuffer_append_spec; [done|simpl; unfold INT32_MAX; lia|simpl; lia]. }
  intros [] b3 [Hinv3 Hct3]. rewrite set_out_set_out.
  apply wp_write_buf. rewrite out_set_out. eapply wp_mono.
  { apply serialize_law; [done|lia]. }
  intros [] b4 [Hinv4 Hct4]. rewrite set_out_set_out. exists b4. split_and!; [done|done|].
  rewrite Hct4, Hct3, Hct2, Hct1. by rewrite <-!app_assoc.
Qed.

Lemma wp_send_frame `{ProtobufLaws} fuel out header body c :
  let out' := out ++ frame header body in
  good fuel out c → (length out' ≤ kWindow)%Z → length out' + 3 < fuel →
  wp (write_frame fuel header body;; resume_sender fuel) (λ _ c',
    good fuel out' c' ∧ same_input c c') c.
Proof.
  intros out' Hg Hwin Hf. pose proof Hwin as Hwin'. pose proof Hf as Hf'.
  unfold out' in Hwin', Hf'. rewrite length_app in Hwin', Hf'.
  apply wp_bind. eapply wp_mono; [apply wp_write_frame; [by eapply good_output|lia|lia]|].
  intros [] c1 (b & -> & Hb & Hct).
  eapply wp_mono; [by apply (send_law fuel out (frame header body) b c)|].
  intros [] c2 (Hg2 & Hin2 & Hk2). split; [done|]. unfold same_input, incoming. by rewrite Hin2, Hk2.
Qed.

(** ** Coroutines *)

Lemma app_split {A} (a f p q : list A) :
  a ++ f = p ++ q → length p ≤ length a → ∃ r, a = p ++ r ∧ r ++ f = q.
Proof.
  intros Heq Hlen. exists (drop (length p) a).
  pose proof (f_equal (take (length p)) Heq) as Ht. pose proof (f_equal (drop (length p)) Heq) as Hd.
  rewrite take_app_length, take_app_le in Ht by done.
  rewrite drop_app_length, drop_app_le in Hd by done.
  split; [|done]. by rewrite <-Ht at 1; rewrite take_drop.
Qed.

(** The waiting loop at [p], in front of anything. *)
Lemma wp_wait_then {pc R} fuel out check need (p : pc)
  (fin m : M C (pc + recv_exit pc R)) Q c :
  good fuel out c →
  (∀ c', good fuel out c' → same_input c c' → parked c' →
     (length (unread c') < need)%Z → Q (inr (Suspended p)) c') →
  (∀ c', good fuel out c' → same_input c c' → (need ≤ length (unread c'))%Z → wp m Q c') →
  wp (suspended ← wait_bytes fuel check need;
      if (suspended : bool) then mret (inr (Suspended p)) else
      cut ← gets (cut_off need);
      if (cut : bool) then fin else m) Q c.
Proof.
  intros Hl Hsusp Hgo. apply wp_bind. eapply wp_mono; [by apply wp_wait|].
  intros [] c1 (Hl1 & Hin1 & Hr).
  - destruct Hr as [Hrx Hlen]. by apply wp_ret, Hsusp.
  - apply wp_bind, wp_gets. unfold cut_off. rewrite (good_open _ _ _ Hl1). by apply Hgo.
Qed.

Lemma u32_length_bytes (n : nat) : (n < 2 ^ 31)%Z → u32_value (u32_bytes n) = n.
Proof. intros. apply u32_roundtrip. lia. Qed.

(** On a closed connection with too few bytes the loop is left at once, and the
    coroutine returns without a change. *)
Lemma wait_closed fuel need c :
  0 < fuel → is_closed c = true → (Connection_read_bytes c < need)%Z →
  wait_bytes fuel true need c = Done (false, c) ∧ cut_off need c = true.
Proof.
  intros Hf Hcl Hneed. split; [|unfold cut_off; by rewrite Hcl, bool_decide_eq_true_2].
  destruct fuel as [|fuel]; [lia|]. unfold wait_bytes. simpl.
  unfold wait_step, mbind, M_bind, gets. simpl. by rewrite Hcl, andb_false_r.
Qed.
Lemma wait_then_closed {pc R} fuel need (p : pc) (r : R) (m : M C (pc + recv_exit pc R)) c :
  0 < fuel → is_closed c = true → (Connection_read_bytes c < need)%Z →
  (suspended ← wait_bytes fuel true need;
   if (suspended : bool) then mret (inr (Suspended p)) else
   cut ← gets (cut_off need);
   if (cut : bool) then recv_finish r else m) c = Done (inr (Returned r), c).
Proof.
  intros Hf Hcl Hneed. destruct (wait_closed fuel need c Hf Hcl Hneed) as [Hw Hcut].
  rewrite (bind_done _ _ _ _ _ Hw), (bind_done _ _ _ true c) by (unfold gets; by rewrite Hcut).
  unfold recv_finish. by rewrite (bind_done _ _ _ true c) by (unfold gets; by rewrite Hcl).
Qed.

Section wait_rules.
Context {pc R : Type} {fin : M C (pc + recv_exit pc R)} (fuel : nat) (out : list cell) (check : bool) (p : pc).
Context (Q : pc + recv_exit pc R → C → Prop) (c : C) (pos : Z).
Context (future rest : list cell).
Hypothesis Hlive : good fuel out c.
Hypothesis Hpos : at_pos pos c.

(** What may happen at a waiting loop for [need] bytes, if they are missing. *)
Definition suspends (need : Z) : Prop :=
  ∀ c', good fuel out c' → same_input c c' → parked c' →
    (length (unread c') < need)%Z → Q (inr (Suspended p)) c'.

Lemma wp_wait_fetch (n : nat) (k : bool * list cell → M C (pc + recv_exit pc R)) :
  fits pos → incoming c ++ future = u32_bytes n ++ rest → suspends 4 →
  (∀ c', good fuel out c' → incoming c = u32_bytes n ++ incoming c' →
     at_pos (pos + 4) c' → wp (k (true, u32_bytes n)) Q c') →
  wp (suspended ← wait_bytes fuel check 4;
      if (suspended : bool) then mret (inr (Suspended p)) else
      cut ← gets (cut_off 4);
      if (cut : bool) then fin else
      r ← on_read_buf (InputBuffer_fetch_uint32 (replicate 4 None)); k r) Q c.
Proof.
  intros Hfit Hin Hsus Hk. eapply wp_wait_then; [done|done|]. intros c1 Hl1 Hs1 Hlen1.
  destruct (app_split _ _ _ _ Hin) as (r & Hr & _).
  { destruct Hs1 as [<- _]. pose proof (unread_incoming c1). simpl. lia. }
  pose proof (same_input_app _ _ _ _ Hs1 Hr) as Hr1. apply wp_bind. eapply wp_mono.
  { eapply (wp_fetch_len fuel out pos); [done|by eapply at_pos_same|done|done|done]. }
  intros x c2 (-> & Hl2 & Hin2 & Hpos2). apply Hk; [done|by rewrite Hin2|done].
Qed.

Lemma wp_wait_parse `{ProtobufLaws} {A} (dec : list cell → option A) bytes m
    (fail : M C (pc + recv_exit pc R)) k :
  incoming c ++ future = bytes ++ rest → dec bytes = Some m → suspends (length bytes) →
  (∀ c', good fuel out c' → incoming c = bytes ++ incoming c' →
     at_pos (pos + length bytes) c' → wp (k m) Q c') →
  wp (suspended ← wait_bytes fuel check (length bytes);
      if (suspended : bool) then mret (inr (Suspended p)) else
      cut ← gets (cut_off (length bytes));
      if (cut : bool) then fin else
      parse_limited fuel dec (length bytes) fail k) Q c.
Proof.
  intros Hin Hdec Hsus Hk. eapply wp_wait_then; [done|done|]. intros c1 Hl1 Hs1 Hlen1.
  destruct (app_split _ _ _ _ Hin) as (r & Hr & _).
  { destruct Hs1 as [<- _]. pose proof (unread_incoming c1). lia. }
  pose proof (same_input_app _ _ _ _ Hs1 Hr) as Hr1.
  eapply wp_parse_limited; [done|by eapply at_pos_same|done|done|done|].
  intros c2 Hl2 Hin2 Hpos2. apply Hk; [done|by rewrite Hin2|done].
Qed.
End wait_rules.

End connection.
