(* ===== verification/PollReceiver.v ===== *)
(** * The polled connection as a connection

    [PollConnection] keeps the promises of [ConnLaws] for a kernel that delivers
    bytes and is calm: a read that finds no byte suspends with the kernel drained,
    which is what edge-triggered notification requires. *)
From stdpp Require Import strings.
From S2P Require Import Prelude Block Segments InputStream OutputStream Streams Conn Connection ConnectionProofs Sender Wire Protocol Receiver.

(** ** A kernel that delivers *)

(** Bytes arrive; calls may be interrupted. *)
Definition delivers (answers : list read_answer) : Prop :=
  Forall (λ a, match a with
               | RdBytes bytes => bytes ≠ []
               | RdErr EINTR => True
               | _ => False
               end) answers.
Definition rx_bytes (answers : list read_answer) : list cell :=
  concat ((λ a, match a with RdBytes bytes => bytes | _ => [] end) <$> answers).

Lemma rx_effect_delivers room answers :
  delivers answers →
  let r := rx_effect room answers in
  delivers r.1.2 ∧ r.2 = false ∧ rx_bytes answers = r.1.1 ++ rx_bytes r.1.2 ∧
  length r.1.2 ≤ length answers ∧ (0 < room → r.1.1 = [] → r.1.2 = []).
Proof.
  revert room. induction answers as [|a answers IH]; intros room Hd; simpl; [done|].
  case_decide as Hroom; [split_and!; [done|done|done|done|lia]|].
  apply Forall_cons in Hd as [Ha Hd]. destruct a as [bytes| |e]; [|done|]; cycle 1.
  { destruct e; try done. destruct (IH room Hd) as (H1 & H2 & H3 & H4 & H5).
    split_and!; [done|done|done|simpl in *; lia|done]. }
  destruct bytes as [|x bytes]; [done|]. set (bs := x :: bytes) in *. case_decide as Hdrop; simpl.
  - destruct (IH (room - length bs) Hd) as (H1 & H2 & H3 & H4 & H5).
    split_and!; [done|done| |simpl in *; lia|done]. unfold rx_bytes in *. csimpl.
    by rewrite H3, app_assoc.
  - split_and!; [by constructor|done| |done|].
    + unfold rx_bytes. csimpl. by rewrite app_assoc, take_drop.
    + intros _ Hnil. by destruct room.
Qed.

(** ** A receiving connection *)

(** An open connection whose buffers are sound, whose kernel delivers and is
    calm, and which has been given [out] to send. *)
Record live (fuel : nat) (out : list cell) (c : Connection) : Prop := {
  live_input : input_inv (read_buf_ c);
  live_limit : limit_ (read_buf_ c) = INT32_MAX;
  live_sender : sender_inv out c;
  live_rx : delivers (rx c);
  live_tx : placid (tx c) = true;
  live_fuel_rx : S (length (rx c)) < fuel;
  live_fuel_tx : S (length (tx c)) < fuel;
  live_fuel : length (unread c ++ rx_bytes (rx c)) + 2 < fuel;
  live_small : (length (unread c ++ rx_bytes (rx c)) < 2 ^ 31 - 1)%Z;
  live_registered : registered c;
}.

Lemma live_open fuel out c : live fuel out c → closed_ c = false.
Proof. intros H. by destruct (live_sender _ _ _ H) as (_ & ? & _). Qed.

(** One call of [async_read]: bytes move from the kernel to the buffer; it asks
    for suspension exactly when the kernel had none. *)
Lemma wp_live_read fuel out rw c :
  live fuel out c →
  wp (PollConnection_async_read rw fuel) (λ suspend c', live fuel out c' ∧
    unread c' ++ rx_bytes (rx c') = unread c ++ rx_bytes (rx c) ∧
    consumed_bytes_ (read_buf_ c') = consumed_bytes_ (read_buf_ c) ∧ tx c' = tx c ∧
    if suspend then rx c' = [] ∧ unread c' = unread c
    else length (rx_bytes (rx c')) < length (rx_bytes (rx c))) c.
Proof.
  intros Hl. pose proof (live_open _ _ _ Hl) as Hcl.
  destruct (rx_effect_delivers (recv_room (read_buf_ c)) _ (live_rx _ _ _ Hl)) as (H1 & H2 & H3 & H4 & H5).
  specialize (H5 (input_size_recv _ (live_input _ _ _ Hl))).
  eapply wp_mono; [apply (wp_async_read (λ _, True)); [apply Hl|apply Hl|]|].
  { rewrite Hcl, H2. done. }
  rewrite Hcl, H2. simpl.
  intros suspend c' (Hinv & Hct & Hrx & Hcl' & -> & Hlim & Hcb & _ & Hrest).
  destruct (Hrest eq_refl) as (Hco & Hwb & Htx & Hw & Hev).
  assert (unread c' ++ rx_bytes (rx c') = unread c ++ rx_bytes (rx c)) as Hin
    by (by rewrite Hct, Hrx, <-app_assoc, <-H3).
  split_and!; [|done|done|done|].
  - destruct Hl as [_ Hlim0 (Ho & _ & Hset & Hout) _ Htx0 Hf1 Hf2 Hf3 Hsm Hreg].
    split; try (rewrite ?Htx, ?Hin, ?Hrx, ?Hlim; done); [|rewrite Hrx; lia|by unfold registered; rewrite Hev].
    split_and!; [by rewrite Hwb|done| |by rewrite Hw, Hwb].
    unfold send_settled. rewrite Hco, Hwb, Hcl'. unfold send_settled in Hset. by rewrite Hcl in Hset.
  - case_bool_decide as Hnil.
    + rewrite Hrx, Hct, Hnil, app_nil_r. split; [by apply H5|done].
    + rewrite Hrx, H3, length_app. destruct (rx_effect _ _) as [[[|x l] ?] ?]; [done|].
      simpl. lia.
Qed.

(** What is put in the send buffer reaches the sender. *)
Lemma live_send fuel out bytes b c :
  let out' := out ++ bytes in
  live fuel out c → output_inv b → output_contents b = unsent c ++ bytes →
  (length out' ≤ kWindow)%Z → length out' + 3 < fuel →
  wp (resume_write fuel) (λ _ c', live fuel out' c' ∧ read_buf_ c' = read_buf_ c ∧ rx c' = rx c)
    (set_write_buf b c).
Proof.
  intros out' Hl Hb Hct Hwin Hf. destruct (live_sender _ _ _ Hl) as (Ho & Hcl & Hset & Hout).
  eapply wp_mono.
  { apply (resume_keeps_inv fuel out'); simpl; try done.
    - by rewrite Hct, app_assoc, Hout.
    - by apply settled_open.
    - apply Hl.
    - apply Hl. }
  intros [] c2 (Hs2 & _ & Hrb2 & Hrx2 & Htx2 & Hreg2). simpl in Hrb2, Hrx2, Htx2.
  split_and!; [|done|done]. destruct Hl as [Hi Hlim _ Hrx Htx Hf1 Hf2 Hf3 Hsm Hreg].
  split; rewrite ?Hrb2, ?Hrx2; try done; [| |by apply Hreg2].
  - by eapply placid_suffix.
  - apply suffix_length in Htx2. lia.
Qed.

#[export] Instance PollConnection_laws : ConnLaws Connection.
Proof.
  refine {| kernel_rx c := rx_bytes (rx c); good := live; parked c := rx c = [] |}.
  - by intros fuel out c [].
  - by intros fuel out c [].
  - intros fuel out c Hl. by destruct (live_sender _ _ _ Hl).
  - intros fuel out c Hl. exact (live_open _ _ _ Hl).
  - by intros fuel out c [].
  - by intros fuel out c [].
  - done.
  - intros fuel out b c [] Hb Hlim Hle. simpl in *. rewrite length_app in *.
    split; simpl; rewrite ?length_app; try done; lia.
  - done.
  - done.
  - intros fuel out c Hl. simpl. apply wp_bind. eapply wp_mono; [by apply wp_live_read|].
    intros suspend c' (Hl' & Hin & Hcb & _ & Hs). unfold ReadAwaiter_await_suspend.
    apply wp_bind, wp_gets. rewrite (live_open _ _ _ Hl'). apply wp_bind, wp_ret, wp_ret.
    by destruct suspend.
  - intros fuel out bytes b c Hl Hb _ Hct Hwin Hf. simpl in *.
    eapply wp_mono; [by apply live_send|]. intros [] c' (? & Hrb & Hrx). simpl. by rewrite Hrx.
Defined.

(** The members of the interface at this connection. *)
Ltac poll := cbn [is_closed close_conn await_read resume_sender register_read in_buf out_buf
  set_in_buf set_out_buf parked kernel_rx good PollConnection_conn Connection_buffers
  PollConnection_laws] in *.

(** ** Events *)

(** What the executor of a connection sees: bytes arrive, or the socket becomes
    writable; each with what the kernel then answers to [writev]. *)
Inductive net_event :=
  | Arrives (r : list read_answer) (t : list write_answer)
  | CanWrite (t : list write_answer).

Definition event_bytes (e : net_event) : list cell :=
  match e with Arrives r _ => rx_bytes r | CanWrite _ => [] end.
Definition event_answers (e : net_event) : list write_answer :=
  match e with Arrives _ t | CanWrite t => t end.

(** The kernel delivers and is calm. *)
Definition event_ok (fuel : nat) (e : net_event) : Prop :=
  placid (event_answers e) = true ∧ S (length (event_answers e)) < fuel ∧
  match e with Arrives r _ => delivers r ∧ S (length r) < fuel | CanWrite _ => True end.

(** Bytes arrive at a suspended coroutine. *)
Lemma live_arrives fuel out r t c :
  live fuel out c → rx c = [] → event_ok fuel (Arrives r t) →
  (length (incoming c ++ rx_bytes r) < 2 ^ 31 - 1)%Z →
  length (incoming c ++ rx_bytes r) + 2 < fuel →
  let c' := set_rx (rx c ++ r) (set_tx t c) in
  live fuel out c' ∧ incoming c' = incoming c ++ rx_bytes r.
Proof.
  intros [Hi Hlim Hs _ _ _ _ _ _ Hreg] Hrx (Ht & Hft & Hr & Hfr) Hsm Hf c'. simpl in *.
  assert (unread c' ++ rx_bytes (rx c') = incoming c ++ rx_bytes r) as Hin
    by (unfold incoming; simpl; by rewrite Hrx, app_nil_r).
  split; [|done]. split; rewrite ?Hin; try done; simpl; by rewrite Hrx.
Qed.

Lemma live_set_tx fuel out t c :
  live fuel out c → event_ok fuel (CanWrite t) → live fuel out (set_tx t c).
Proof. intros [] (? & ? & _). by split. Qed.

(** The socket becomes writable. *)
Lemma live_can_write fuel out t c :
  live fuel out c → event_ok fuel (CanWrite t) → (length out ≤ kWindow)%Z → length out + 3 < fuel →
  wp (resume_write fuel) (λ _ c', live fuel out c' ∧ read_buf_ c' = read_buf_ c ∧ rx c' = rx c)
    (set_tx t c).
Proof.
  intros Hl (Ht & Hft & _) Hwin Hf. destruct (live_sender _ _ _ Hl) as (Ho & Hcl & Hset & Hout).
  eapply wp_mono; [apply (resume_keeps_inv fuel out); simpl; try done; by apply settled_open|].
  intros [] c2 (Hs2 & _ & Hrb2 & Hrx2 & Htx2 & Hreg2). simpl in Hrb2, Hrx2, Htx2.
  split_and!; [|done|done].
  destruct Hl. split; rewrite ?Hrb2, ?Hrx2; try done; [by eapply placid_suffix| |by apply Hreg2].
  apply suffix_length in Htx2. simpl in Hft. lia.
Qed.

(** A parked receiver has taken everything. *)
Lemma parked_unread (c : Connection) : parked c → incoming c = unread c.
Proof. intros Hp. unfold incoming. simpl in *. rewrite Hp. apply app_nil_r. Qed.

(** A waiting loop whose bytes are there does not suspend. *)
Lemma suspends_never {pc R} fuel out (p : pc) (Q : pc + recv_exit pc R → Connection → Prop)
    (c : Connection) need :
  (need ≤ length (incoming c))%Z → suspends fuel out p Q c need.
Proof.
  intros Hle c' _ [Hin _] Hp Hlt. rewrite <-Hin, (parked_unread _ Hp) in Hle. simpl in *. lia.
Qed.

(** A message that is in the receive buffer. *)
Lemma poll_parse_run `{ProtobufLaws} {A} fuel pos (dec : list cell → option A) bytes rest
    (c : Connection) :
  input_inv (read_buf_ c) → at_pos pos c → unread c = bytes ++ rest →
  (length (unread c) < 2 ^ 31 - 1)%Z → length (unread c) < fuel →
  ∃ b, input_inv b ∧
    (dec bytes ≠ None → limit_ b = INT32_MAX ∧ input_contents b = rest ∧
       at_pos (pos + length bytes) (set_read_buf b c)) ∧
    ∀ B (fail : M Connection B) (k : A → M Connection B),
      parse_limited fuel dec (length bytes) fail k c =
        (match dec bytes with Some m => k m | None => fail end) (set_read_buf b c).
Proof. exact (parse_buf_run fuel pos dec bytes rest c). Qed.

(** Both coroutines are started on a new connection. *)
Lemma wp_start {A} fuel (k : M Connection A) Q :
  3 < fuel →
  (∀ c, live fuel [] c → incoming c = [] → at_pos 0 c → rx c = [] → wp k Q c) →
  wp (send_fn fuel;; register_read;; k) Q (Connection_new [] []).
Proof.
  intros Hf Hk. destruct input_inv_new as [Hin0 Hct0]. apply wp_bind.
  eapply wp_mono; [apply send_fn_starts; lia|]. intros [] c (Hs & Hrb & Hrx & Htx & Hreg).
  apply suffix_nil_inv in Htx. simpl. unfold RegisterReadAwaiter_await, add_event. wp_steps.
  set (c1 := log_event READ c).
  assert (unread c1 ++ rx_bytes (rx c1) = []) as Hin by (simpl; by rewrite Hrb, Hrx, Hct0).
  apply Hk; [|exact Hin|unfold at_pos; simpl; by rewrite Hrb|done].
  split; rewrite ?Hin; simpl; rewrite ?Hrb, ?Hrx, ?Htx; try done; simpl; try lia; [by constructor|].
  unfold registered in *. simpl. set_solver.
Qed.
