(* ===== verification/HangUp.v ===== *)
(** * The peer closes the stream of a polled connection

    A receiving coroutine that waits for bytes when the stream ends: the read closes
    the connection and resumes [send_fn], which returns, and the socket is taken out
    of the registration.  A waiting loop that looks at [closed()] is then left and
    the coroutine returns; one that does not, reads again and resumes the coroutine
    that has returned. *)
From stdpp Require Import strings.
From S2P Require Import Prelude Block Segments InputStream OutputStream Streams Conn Connection ConnectionProofs Sender Wire Protocol Receiver PollReceiver.

(** An open connection with nothing to read but the end of the stream. *)
Record hung (fuel : nat) (out : list cell) (c : Connection) : Prop := {
  hung_input : input_inv (read_buf_ c);
  hung_sender : sender_inv out c;
  hung_rx : rx c = [RdEof];
  hung_tx : placid (tx c) = true;
  hung_window : (length out ≤ kWindow)%Z;
  hung_fuel : length out + 3 < fuel;
  hung_fuel_tx : S (length (tx c)) < fuel;
  hung_small : (length (unread c) < 2 ^ 31)%Z;
}.

Lemma hung_arrives fuel out t c :
  live fuel out c → rx c = [] → placid t = true → S (length t) < fuel →
  (length out ≤ kWindow)%Z → length out + 3 < fuel →
  hung fuel out (set_rx (rx c ++ [RdEof]) (set_tx t c)).
Proof.
  intros Hl Hrx Ht Hft Hwin Hf. pose proof (live_small _ _ _ Hl) as Hsm. rewrite length_app in Hsm.
  destruct Hl. split; try done; [by rewrite Hrx|simpl; lia].
Qed.

Lemma read_bytes_unread c :
  input_inv (read_buf_ c) → (length (unread c) < 2 ^ 64)%Z →
  Connection_read_bytes c = length (unread c).
Proof. exact (read_bytes_contents c). Qed.

Lemma rx_effect_eof s : input_inv s → rx_effect (recv_room s) [RdEof] = ([], [RdEof], true).
Proof. intros Hs. apply input_size_recv in Hs. simpl. by rewrite decide_False by lia. Qed.

(** The first round of a waiting loop: the sender returns, the socket is
    unregistered, and the loop goes round again. *)
Lemma wait_step_hung fuel out check need c :
  hung fuel out c → (length (unread c) < need)%Z →
  wp (wait_step fuel check need tt) (λ x c', x = inl tt ∧ ended out c' ∧
    input_inv (read_buf_ c') ∧ unread c' = unread c ∧ rx c' = [RdEof] ∧ ¬ registered c') c.
Proof.
  intros [Hi Hs Hrx Htx Hwin Hf Hft Hsm] Hneed. pose proof Hs as (_ & Hcl & _).
  pose proof (rx_effect_eof _ Hi) as Heff.
  unfold wait_step. apply wp_bind, wp_gets, wp_bind, wp_gets. poll.
  rewrite Hcl, andb_false_r, read_bytes_unread by (done || lia).
  rewrite bool_decide_eq_true_2 by done. simpl. apply wp_bind, wp_bind. eapply wp_mono.
  { apply (wp_async_read_open fuel out); try done. rewrite Hrx. simpl. lia. }
  rewrite Hrx, Heff. simpl. rewrite app_nil_r.
  intros suspend c' (Hi' & Hun & Hrx' & Hcl' & -> & _ & _ & Hend).
  unfold ReadAwaiter_await_suspend, add_event. apply wp_bind, wp_gets. rewrite Hcl'.
  wp_steps. split_and!; try done. unfold registered. simpl. set_solver.
Qed.

(** A loop that looks at [closed()] ends. *)
Lemma wait_hung fuel out need c :
  hung fuel out c → (length (unread c) < need)%Z →
  wp (wait_bytes fuel true need) (λ suspended c', suspended = false ∧ cut_off need c' = true ∧
    ended out c' ∧ ¬ registered c') c.
Proof.
  intros Hh Hneed. pose proof (hung_fuel _ _ _ Hh) as Hf. pose proof (hung_small _ _ _ Hh) as Hsm.
  unfold wait_bytes. destruct fuel as [|fuel]; [lia|]. apply wp_iter_step.
  eapply wp_mono; [by apply wait_step_hung|].
  intros x c1 (-> & Hend & Hi1 & Hun1 & Hrx1 & Hreg). pose proof Hend as (_ & Hcl & _).
  destruct fuel as [|fuel]; [lia|]. apply wp_iter_step. unfold wait_step.
  apply wp_bind, wp_gets, wp_bind, wp_gets. poll. rewrite Hcl, andb_false_r. apply wp_ret.
  split_and!; try done. unfold cut_off. poll.
  rewrite Hcl, read_bytes_unread by (done || rewrite Hun1; lia). rewrite Hun1.
  by rewrite bool_decide_eq_true_2.
Qed.

(** A loop that does not, resumes the sender again. *)
Lemma wait_hung_faults fuel out need c :
  hung fuel out c → (length (unread c) < need)%Z →
  wait_bytes fuel false need c = Faulted ResumeDestroyed.
Proof.
  intros Hh Hneed. pose proof (hung_fuel _ _ _ Hh) as Hf. pose proof (hung_small _ _ _ Hh) as Hsm.
  pose proof (wait_step_hung fuel out false need c Hh Hneed) as Hstep.
  apply wp_done in Hstep as (x & c1 & Hrun & -> & (Hdone & Hcl & _) & Hi1 & Hun1 & Hrx1 & _).
  assert (wait_step fuel false need tt c1 = Faulted ResumeDestroyed) as Hagain.
  { unfold wait_step. apply bind_wp, wp_gets. apply bind_wp, wp_gets.
    rewrite read_bytes_unread by (done || rewrite Hun1; lia). rewrite Hun1.
    rewrite bool_decide_eq_true_2 by done. apply bind_faults. simpl. apply bind_faults.
    apply async_read_faults; [done|rewrite Hrx1; simpl; lia|by rewrite Hcl|].
    intros c2 Hco. apply resume_done. by rewrite Hco. }
  unfold wait_bytes. revert Hrun Hagain. generalize (wait_step (C := Connection) fuel false need). intros body Hrun Hagain.
  destruct fuel as [|[|fuel]]; [lia|lia|].
  by rewrite (iter_next _ _ _ _ _ _ Hrun), (iter_faults _ _ _ _ _ Hagain).
Qed.

(** The loop with what follows it. *)
Lemma wait_then_hung {pc R} fuel out need (p : pc) (r : R)
    (m : M Connection (pc + recv_exit pc R)) c :
  hung fuel out c → (length (unread c) < need)%Z →
  wp (suspended ← wait_bytes fuel true need;
      if (suspended : bool) then mret (inr (Suspended p)) else
      cut ← gets (cut_off need);
      if (cut : bool) then recv_finish r else m)
    (λ x c', x = inr (Returned r) ∧ ended out c' ∧ ¬ registered c') c.
Proof.
  intros Hh Hneed. apply wp_bind. eapply wp_mono; [by apply wait_hung|].
  intros suspended c1 (-> & Hcut & Hend & Hreg). apply wp_bind, wp_gets. rewrite Hcut.
  unfold recv_finish. apply wp_bind, wp_gets. pose proof Hend as (_ & Hcl & _). poll. rewrite Hcl.
  wp_steps. by split_and!.
Qed.
