(* ===== verification/UringRead.v ===== *)
(** * Reading over io_uring (net/uring_connection.cc, scheduler/uring_exector.cc)

    [UringConnection::async_read] submits a read into the free part of the receive
    buffer and always asks for suspension; when the read completes, the executor
    reports the bytes with [recv_add], or closes the connection at the end of the
    stream, and resumes the receiver.  An error is reported to [recv_add] as a
    negative count, which has no effect: the receiver submits the same read again.

    A submission and its completion are matched by the 64 bits of [user_data]: the
    kind of the event in the top byte and the address of the connection below. *)
From S2P Require Import Prelude Block Segments InputStream OutputStream Conn Connection ConnectionProofs Uring Wire Protocol Sender Receiver PollReceiver.

(** ** The tag of a submission *)

(** [enum struct EventType] as a number. *)
Definition event_code (e : EventType) : Z :=
  match e with READ => 0 | WRITE => 1 | DELETE => 2 | UNKNOWN => 3 end.

(** [(static_cast<uint64_t>(type) << 56) | reinterpret_cast<uint64_t>(conn)] *)
Definition user_data (e : EventType) (conn : Z) : Z :=
  u64 (Z.lor (Z.shiftl (event_code e) 56) conn).

(** [user_data >> 56] and [user_data & ((1ULL << 56) - 1)] *)
Definition data_type (data : Z) : Z := Z.shiftr data 56.
Definition data_conn (data : Z) : Z := Z.land data (Z.shiftl 1 56 - 1).

Lemma lor_bound a b n : (0 < n)%Z → (0 ≤ a < 2 ^ n)%Z → (0 ≤ b < 2 ^ n)%Z → (0 ≤ Z.lor a b < 2 ^ n)%Z.
Proof.
  intros Hn Ha Hb. assert (0 ≤ Z.lor a b)%Z as Hnn by (apply Z.lor_nonneg; lia). split; [done|].
  destruct (decide (Z.lor a b = 0)%Z) as [->|]; [lia|]. apply Z.log2_lt_pow2; [lia|].
  rewrite Z.log2_lor by lia.
  assert (∀ x, (0 ≤ x < 2 ^ n)%Z → (Z.log2 x < n)%Z) as Hlog.
  { intros x Hx. destruct (decide (x = 0)%Z) as [->|]; [simpl; lia|]. apply Z.log2_lt_pow2; lia. }
  apply Z.max_lub_lt; apply Hlog; lia.
Qed.

Lemma user_data_decodes e conn :
  (0 ≤ conn < 2 ^ 56)%Z →
  data_type (user_data e conn) = event_code e ∧ data_conn (user_data e conn) = conn.
Proof.
  intros Hc. assert (0 ≤ Z.shiftl (event_code e) 56 < 2 ^ 64)%Z as Hs
    by (rewrite Z.shiftl_mul_pow2 by lia; destruct e; simpl event_code; lia).
  unfold user_data, data_type, data_conn.
  pose proof (lor_bound (Z.shiftl (event_code e) 56) conn 64 ltac:(lia) Hs ltac:(lia)).
  rewrite u64_small by lia. split.
  - rewrite Z.shiftr_lor, Z.shiftr_shiftl_l by lia. rewrite (Z.shiftr_div_pow2 conn) by lia.
    rewrite Z.div_small by lia. rewrite Z.lor_0_r. by destruct e.
  - change (Z.shiftl 1 56 - 1)%Z with (Z.ones 56). rewrite Z.land_lor_distr_l, !Z.land_ones by lia.
    rewrite Z.shiftl_mul_pow2, Z_mod_mult, Z.mod_small by lia. done.
Qed.

(** ** The connection with its receiving side *)
Record UringConn := mkUringConn {
  uc_out : Uring;                     (** the sending side *)
  uc_in : InputBuffer;                (** [read_buf_] *)
  uc_read : option span;              (** the read that is submitted *)
  uc_rx : list read_answer;           (** the kernel, receiving *)
}.
Definition set_uc_out u c := mkUringConn u (uc_in c) (uc_read c) (uc_rx c).
Definition set_uc_in b c := mkUringConn (uc_out c) b (uc_read c) (uc_rx c).
Definition set_uc_read o c := mkUringConn (uc_out c) (uc_in c) o (uc_rx c).
Definition set_uc_rx r c := mkUringConn (uc_out c) (uc_in c) (uc_read c) r.
Definition set_u_closed b u := mkUring (u_buf u) b (u_send u) (back_left_ u) (inflight u) (u_wire u).

Definition on_uc_out {A} (m : M Uring A) : M UringConn A := λ c,
  match m (uc_out c) with
  | Done (a, u) => Done (a, set_uc_out u c)
  | Faulted f => Faulted f
  | OutOfFuel => OutOfFuel
  end.
Abbreviation uc_closed c := (u_closed (uc_out c)).

(** [UringConnection::UringConnection], with what the kernel will answer to reads. *)
Definition UringConn_new (answers : list read_answer) : UringConn :=
  mkUringConn UringConnection_new InputBuffer_new None answers.

(** The buffers [read_buf_] and [write_buf_]. *)
#[export] Instance UringConn_buffers : Buffers UringConn := {|
  in_buf := uc_in;
  set_in_buf := set_uc_in;
  out_buf c := u_buf (uc_out c);
  set_out_buf b c := set_uc_out (set_u_buf b (uc_out c)) c;
|}.

(** [UringConnection::async_read]; returns [should_suspend]. *)
Definition UringConnection_async_read : M UringConn bool :=
  sp ← on_read_buf InputBuffer_get_buffer;
  modify (set_uc_read (Some sp));;
  mret true.

(** The connection as the receiving coroutines see it; [add_event] of this
    executor does nothing. *)
#[export] Instance UringConn_conn : Conn UringConn := {|
  is_closed c := uc_closed c;
  close_conn := on_uc_out (modify (set_u_closed true));
  register_read := mret tt;
  await_read _ :=
    should_suspend ← UringConnection_async_read;
    cl ← gets (λ c, uc_closed c);
    mret (negb cl && should_suspend);
  resume_sender fuel := on_uc_out (uring_resume_write fuel);
|}.

(** [errno] of a failed read, as a negative result. *)
Definition err_code (e : errno) : Z :=
  match e with EAGAIN | EWOULDBLOCK => -11 | EINTR => -4 | EOTHER => -104 end.

(** The completion of the submitted read as [UringExecutor] handles it, up to the
    resumption of the receiver; the result says whether there was one. *)
Definition uring_read_complete (fuel : nat) : M UringConn bool :=
  o ← gets uc_read;
  answers ← gets uc_rx;
  match o, answers with
  | Some sp, a :: rest =>
      modify (set_uc_read None);;
      match a with
      | RdEof | RdBytes [] =>
          on_uc_out (modify (set_u_closed true));;
          bl ← gets (λ c, back_left_ (uc_out c));
          if decide (bl = 0)%Z then on_uc_out (uring_resume_write fuel) else mret tt
      | RdBytes bytes =>
          let got := take (Z.to_nat (sp_len sp)) bytes in
          let left := drop (Z.to_nat (sp_len sp)) bytes in
          on_read_buf (write_span sp got);;
          modify (set_uc_rx (if decide (left = []) then rest else RdBytes left :: rest));;
          on_read_buf (InputBuffer_recv_add (length got))
      | RdErr e =>
          modify (set_uc_rx rest);;
          on_read_buf (InputBuffer_recv_add (err_code e))
      end;;
      mret true
  | _, _ => mret false
  end.

(** ** Proofs *)
Abbreviation uc_unread c := (input_contents (uc_in c)).

(** The members of the interface at this connection. *)
Ltac uring := cbn [is_closed close_conn await_read resume_sender register_read in_buf out_buf
  set_in_buf set_out_buf UringConn_conn UringConn_buffers] in *.

Lemma wp_on_uc_out {A} (m : M Uring A) (Q : A → UringConn → Prop) c :
  wp m (λ a u, Q a (set_uc_out u c)) (uc_out c) → wp (on_uc_out m) Q c.
Proof. unfold wp, on_uc_out. by destruct (m (uc_out c)) as [[a u]| |]. Qed.

#[export] Instance UringConn_buffers_laws : BuffersLaws UringConn.
Proof. by split. Qed.

Lemma set_uc_in_id c : set_uc_in (uc_in c) c = c.
Proof. by destruct c. Qed.

(** The region of a submitted read: what is stored there and reported is appended. *)
Definition offered (sp : span) (s : InputBuffer) : Prop :=
  (0 < sp_len sp)%Z ∧ ∀ bytes, bytes ≠ [] → (length bytes ≤ sp_len sp)%Z →
    wp (write_span sp bytes;; InputBuffer_recv_add (length bytes))
      (λ _ s', input_inv s' ∧ input_contents s' = input_contents s ++ bytes ∧
               limit_ s' = limit_ s ∧ consumed_bytes_ s' = consumed_bytes_ s) s.

(** A read is submitted. *)
Lemma wp_uring_async_read (Q : bool → UringConn → Prop) c :
  input_inv (uc_in c) →
  (∀ sp, offered sp (uc_in c) → Q true (set_uc_read (Some sp) c)) →
  wp UringConnection_async_read Q c.
Proof.
  intros Hi HQ. unfold UringConnection_async_read. apply wp_bind, wp_read_buf.
  eapply wp_mono; [by apply InputBuffer_receive|].
  intros sp s1 (-> & Hlen & Hoff). uring. rewrite set_uc_in_id. wp_steps. apply HQ.
  split; [lia|done].
Qed.

(** ** The connection keeps the promises of the interface *)

(** An open connection in order, which has been given [out] to send. *)
Record u_live (fuel : nat) (out : list cell) (c : UringConn) : Prop := {
  ul_input : input_inv (uc_in c);
  ul_limit : limit_ (uc_in c) = INT32_MAX;
  ul_sender : u_inv out (uc_out c);
  ul_window : (length out ≤ kWindow)%Z;
  ul_fuel_out : length out + 3 < fuel;
  ul_fuel : length (uc_unread c ++ rx_bytes (uc_rx c)) + 2 < fuel;
  ul_small : (length (uc_unread c ++ rx_bytes (uc_rx c)) < 2 ^ 31 - 1)%Z;
}.

(** The receiver waits for a read that is submitted. *)
Definition u_parked (c : UringConn) : Prop := ∃ sp, uc_read c = Some sp ∧ offered sp (uc_in c).

#[export] Instance UringConn_laws : ConnLaws UringConn.
Proof.
  refine {| kernel_rx c := rx_bytes (uc_rx c); good := u_live; parked := u_parked |}.
  - by intros fuel out c [].
  - by intros fuel out c [].
  - intros fuel out c Hl. by destruct (ul_sender _ _ _ Hl).
  - intros fuel out c Hl. exact (u_inv_open _ _ (ul_sender _ _ _ Hl)).
  - by intros fuel out c [].
  - by intros fuel out c [].
  - done.
  - intros fuel out b c [] Hb Hlim Hle. uring. rewrite length_app in *.
    split; simpl; rewrite ?length_app; try done; lia.
  - done.
  - done.
  - intros fuel out c Hl. uring. apply wp_bind, wp_uring_async_read; [apply Hl|].
    intros sp Hoff. wp_steps. simpl. rewrite (u_inv_open _ _ (ul_sender _ _ _ Hl)). simpl.
    split_and!; [by destruct Hl|done|done|by exists sp|done].
  - intros fuel out bytes b c Hl Hb Hne Hct Hwin Hf. uring. apply wp_on_uc_out.
    eapply wp_mono; [by apply (u_inv_resume fuel out bytes b); [apply Hl|..]|].
    intros [] u' Hu. split_and!; [|done|done]. by destruct Hl.
Defined.

Ltac uring_laws := uring; cbn [parked kernel_rx good UringConn_laws] in *.

(** The kernel has bytes and errors, not the end of the stream. *)
Definition keeps_on (answers : list read_answer) : Prop :=
  Forall (λ a, match a with RdBytes [] | RdEof => False | _ => True end) answers.

(** Completions it takes at most. *)
Definition rx_work (answers : list read_answer) : nat := length answers + length (rx_bytes answers).

(** A completion that is not the end of the stream, from which it stays as far
    away as [tail] says. *)
Lemma wp_uring_read_complete fuel out a rest tail c :
  u_live fuel out c → u_parked c → uc_rx c = a :: (rest ++ tail) → keeps_on (a :: rest) →
  rx_bytes tail = [] →
  wp (uring_read_complete fuel) (λ r c', r = true ∧ u_live fuel out c' ∧ same_input c c' ∧
    uc_read c' = None ∧ ∃ rest', uc_rx c' = rest' ++ tail ∧ keeps_on rest' ∧
    rx_work rest' < rx_work (a :: rest)) c.
Proof.
  intros Hl (sp & Hrd & Hlen & Hoff) Hrx Hk Htail. apply Forall_cons in Hk as [Ha Hk].
  unfold uring_read_complete. apply wp_bind, wp_gets, wp_bind, wp_gets. rewrite Hrd, Hrx.
  apply wp_bind, wp_modify. destruct a as [[|x bs]| |e]; try done.
  - set (bytes := x :: bs) in *. set (n := Z.to_nat (sp_len sp)) in *.
    assert (take n bytes ≠ []) as Hne by (unfold bytes, n; destruct (Z.to_nat (sp_len sp)) eqn:?; [lia|done]).
    specialize (Hoff _ Hne ltac:(rewrite length_take; lia)).
    apply wp_bind, wp_bind, wp_read_buf. uring. cbn [uc_in set_uc_read].
    apply wp_bind_inv in Hoff. eapply wp_mono; [exact Hoff|]. intros [] s1 Hrecv.
    apply wp_bind, wp_modify, wp_read_buf. uring. cbn [uc_in set_uc_rx set_uc_in].
    eapply wp_mono; [exact Hrecv|]. intros [] s2 (Hi2 & Hct2 & Hlim2 & Hcb2). apply wp_ret.
    set (rest' := if decide (drop n bytes = []) then rest else RdBytes (drop n bytes) :: rest).
    assert (rx_bytes rest' = drop n bytes ++ rx_bytes rest) as Hnew.
    { unfold rest'. case_decide as Hd; [by rewrite Hd|done]. }
    assert ((if decide (drop n bytes = []) then rest ++ tail else RdBytes (drop n bytes) :: rest ++ tail)
      = rest' ++ tail) as Hrx' by (unfold rest'; by case_decide).
    assert (∀ l, rx_bytes (l ++ tail) = rx_bytes l) as Happ.
    { intros l. unfold rx_bytes in *. by rewrite fmap_app, concat_app, Htail, app_nil_r. }
    assert (input_contents s2 ++ rx_bytes (rest' ++ tail) = uc_unread c ++ rx_bytes (uc_rx c)) as Hin.
    { rewrite Hrx. change (RdBytes bytes :: (rest ++ tail)) with ((RdBytes bytes :: rest) ++ tail).
      rewrite !Happ, Hct2, Hnew, <-app_assoc, (app_assoc (take n bytes)), take_drop. done. }
    split_and!; [done| |split; [|done]|done|].
    + destruct Hl. split; simpl; try done; rewrite ?Hrx', ?Hin; try done. by rewrite Hlim2.
    + unfold incoming. simpl. by rewrite Hrx', Hin.
    + exists rest'. simpl. split_and!; [done| |].
      * unfold rest'. case_decide as Hd; [done|]. constructor; [|done]. by destruct (drop n bytes).
      * unfold rx_work. rewrite Hnew. change (rx_bytes (RdBytes bytes :: rest)) with (bytes ++ rx_bytes rest).
        rewrite !length_app, length_drop. unfold n, bytes in *. simpl.
        assert (length rest' ≤ S (length rest)) by (unfold rest'; case_decide; simpl; lia). lia.
  - apply wp_bind, wp_bind, wp_modify, wp_read_buf. unfold InputBuffer_recv_add.
    rewrite decide_False by (destruct e; simpl; lia). apply wp_ret, wp_ret.
    assert (rx_bytes (uc_rx c) = rx_bytes (rest ++ tail)) as Hin by (by rewrite Hrx).
    uring. rewrite set_uc_in_id. split_and!; [done| |split; [|done]|done|].
    + destruct Hl. by split; simpl; rewrite <-?Hin.
    + unfold incoming. simpl. by rewrite Hin.
    + exists rest. split_and!; [done|done|]. unfold rx_work.
      change (rx_bytes (RdErr e :: rest)) with (rx_bytes rest). simpl. lia.
Qed.

(** ** The end of the stream *)

(** On a closed connection the sender returns when it is resumed. *)
Lemma uring_send_fn_closed fuel u :
  u_closed u = true → 0 < fuel →
  wp (uring_send_fn fuel) (λ _ u', u' = set_u_send SendDone u) u.
Proof.
  intros Hcl Hf. destruct fuel as [|fuel]; [lia|]. unfold uring_send_fn. apply wp_iter_step.
  unfold uring_send_body. wp_steps. rewrite Hcl. by wp_steps.
Qed.

Lemma idle_bytes u : idle u → output_inv (u_buf u) → OutputBuffer_bytes (u_buf u) = 0%Z.
Proof.
  intros (_ & _ & _ & Hnil & _) (ns & Hs & _ & Htw). unfold OutputBuffer_bytes.
  rewrite (oshape_contents _ _ Hs) in Hnil. by rewrite Htw, Hnil.
Qed.

(** A closed connection: the sender has returned, or it waits for the write in
    flight. *)
Definition u_ended (out : list cell) (u : Uring) : Prop :=
  u_closed u = true ∧ output_inv (u_buf u) ∧ u_wire u ++ u_unsent u = out ∧
  match u_send u with
  | SendDone => inflight u = None
  | SendWriting => ∃ bytes, inflight u = Some bytes ∧ back_left_ u = length bytes ∧
      bytes ≠ [] ∧ bytes `prefix_of` u_unsent u
  | _ => False
  end.

(** The completion of the read that finds the end of the stream. *)
Lemma wp_uring_eof fuel out rest c :
  u_live fuel out c → u_parked c → uc_rx c = RdEof :: rest →
  wp (uring_read_complete fuel) (λ r c', r = true ∧ uc_in c' = uc_in c ∧ uc_rx c' = uc_rx c ∧
    uc_read c' = None ∧ u_ended out (uc_out c')) c.
Proof.
  intros Hl (sp & Hrd & _) Hrx. pose proof (ul_fuel _ _ _ Hl) as Hf.
  destruct (ul_sender _ _ _ Hl) as (Ho & Hout & [Hi|(bytes & Hw)]).
  - pose proof (idle_bytes _ Hi Ho) as Hbytes. destruct Hi as (Hfl & Hst & Hbl & Hnil & Hcl).
    unfold uring_read_complete. apply wp_bind, wp_gets, wp_bind, wp_gets. rewrite Hrd, Hrx.
    apply wp_bind, wp_modify, wp_bind, wp_bind, wp_on_uc_out, wp_modify, wp_bind, wp_gets. simpl.
    rewrite Hbl, decide_True by done. apply wp_on_uc_out. simpl.
    unfold uring_resume_write. apply wp_bind, wp_gets. simpl. rewrite Hst.
    unfold uring_send_write, UringConnection_async_write. wp_steps. simpl. rewrite Hbl. simpl.
    wp_steps. rewrite Hbytes. simpl. wp_steps.
    eapply wp_mono; [apply uring_send_fn_closed; [done|lia]|]. intros [] u' ->. wp_steps.
    by split_and!.
  - destruct Hw as (Hfl & Hst & Hbl & Hne & Hpre & Hcl).
    unfold uring_read_complete. apply wp_bind, wp_gets, wp_bind, wp_gets. rewrite Hrd, Hrx.
    apply wp_bind, wp_modify, wp_bind, wp_bind, wp_on_uc_out, wp_modify, wp_bind, wp_gets. simpl.
    rewrite Hbl, decide_False by (destruct bytes; [done|simpl; lia]). apply wp_ret, wp_ret.
    split_and!; try done. split_and!; try done. simpl. rewrite Hst. by exists bytes.
Qed.

(** The write that was in flight completes in full: the sender returns; what was
    put in the buffer behind it is not sent. *)
Lemma u_ended_complete fuel out u :
  u_ended out u → (length out ≤ kWindow)%Z → length out + 3 < fuel →
  wp (uring_complete fuel (length (default [] (inflight u)))) (λ _ u',
    u_ended out u' ∧ u_send u' = SendDone ∧ u_wire u' = u_wire u ++ default [] (inflight u)) u.
Proof.
  intros (Hcl & Ho & Hout & Hst) Hwin Hf. destruct (u_send u) eqn:Hco; try done.
  - destruct Hst as (bytes & Hfl & Hbl & Hne & Hpre). rewrite Hfl. simpl.
    assert (length (u_unsent u) ≤ length out) by (rewrite <-Hout, length_app; lia).
    pose proof (prefix_length _ _ Hpre) as Hle. destruct Hpre as [more Hpre]. unfold kWindow in *.
    unfold uring_complete, UringConnection_send_add. wp_steps. rewrite Hfl. wp_steps.
    apply wp_on_u_buf. eapply wp_mono.
    { apply OutputBuffer_send_add_spec; [done|simpl; lia|unfold INT32_MAX; lia|lia]. }
    simpl. rewrite Nat2Z.id, firstn_all. intros [] b [Hb Hct].
    unfold uring_resume_write. apply wp_bind, wp_gets. simpl. rewrite Hco.
    eapply wp_mono; [apply uring_send_fn_closed; [done|lia]|]. intros [] u' ->.
    split_and!; try done. split_and!; try done. simpl. rewrite Hct, <-Hout, Hpre, drop_app_length.
    by rewrite <-app_assoc.
  - rewrite Hst. unfold uring_complete. wp_steps. rewrite Hst. apply wp_ret. simpl.
    rewrite app_nil_r. split_and!; try done. unfold u_ended. by rewrite Hco.
Qed.

(** The waiting loop that does not look at [closed()] submits reads for ever. *)
Lemma uring_wait_closed fuel need c :
  input_inv (uc_in c) → uc_closed c = true → (length (uc_unread c) < need)%Z →
  (length (uc_unread c) < 2 ^ 64)%Z →
  wait_bytes fuel false need c = OutOfFuel.
Proof.
  intros Hi Hcl Hneed Hsm. pose proof (read_bytes_contents c Hi Hsm) as Hb. uring.
  apply (iter_diverges (λ _ c', uc_in c' = uc_in c ∧ uc_closed c' = true)); [|done].
  intros [] c' [Hin' Hcl'].
  assert (wp (wait_step fuel false need tt) (λ x c2, x = inl tt ∧ uc_in c2 = uc_in c ∧
    uc_closed c2 = true) c') as Hstep.
  { unfold wait_step. apply wp_bind, wp_gets, wp_bind, wp_gets.
    unfold Connection_read_bytes in *. uring.
    rewrite Hin', Hb, bool_decide_eq_true_2 by done. simpl.
    apply wp_bind, wp_bind, wp_uring_async_read; [by rewrite Hin'|]. intros sp _.
    wp_steps. simpl. rewrite Hcl'. by wp_steps. }
  apply wp_done in Hstep as (x & c2 & Hrun & -> & ? & ?). by exists tt, c2.
Qed.
