(* ===== verification/Server.v ===== *)
(** * The server (server/rpc_server.h, server/rpc_server.cc)

    [RpcServer::recv_fn] serves one connection: it takes request frames from the
    stream, calls the method each names and puts the response frames in the send
    buffer.  It is modelled as the coroutine it is, with one program point per
    waiting loop; [send_fn] is in [Connection].  The
    coroutine is written against the interface of connections.

    The main theorem is about a peer that sends valid requests, cut into reads in
    any way: once everything that arrived has been handled, the responses to the
    complete requests, in order, are what has been handed to the sender. *)
From stdpp Require Import strings.
From S2P Require Import Prelude Block Segments InputStream OutputStream Streams Conn Connection ConnectionProofs Sender Wire Protocol Receiver PollReceiver.

(** ** Model *)

(** A method of a service: the formats of its request and response, and its
    implementation, which the server calls without controller and closure. *)
Record Method := mkMethod {
  Req : Type;
  Resp : Type;
  req_decode : list cell → option Req;
  resp_encode : Resp → list cell;
  CallMethod : Req → Resp;
}.

(** [FindMethodByName] of the descriptor of a service. *)
Abbreviation Service := (gmap string Method).

(** [RpcServer::register_service]: the last registration of a name counts. *)
Definition register_service (name : string) (service : Service)
    (name2service_ : gmap string Service) : gmap string Service :=
  <[name := service]> name2service_.

(** The waiting loops of [recv_fn], with the locals that are live there. *)
Inductive recv_pc :=
  | AtHeaderLen
  | AtHeader (header_len : Z)
  | AtRequestLen (header : Header)
  | AtRequest (header : Header) (method : Method) (request_len : Z).

(** The header of a response. *)
Definition resp_header (h : Header) : Header :=
  mkHeader MAGIC_NUM VERSION RESPONSE (request_id h) None None.

Section recv_fn.
Context `{Protobuf} (name2service_ : gmap string Service).
Context `{Conn C}.

(** [recv_fn] from one waiting loop to the next. *)
Definition recv_step (fuel : nat) (pc : recv_pc) : M C (recv_pc + recv_exit recv_pc unit) :=
  match pc with
  | AtHeaderLen =>
      suspended ← wait_bytes fuel true 4;
      if (suspended : bool) then mret (inr (Suspended pc)) else
      cut ← gets (cut_off 4);
      if (cut : bool) then recv_finish tt else
      '(ok, value) ← on_read_buf (InputBuffer_fetch_uint32 (replicate 4 None));
      if (ok : bool) then mret (inl (AtHeader (u32_value value))) else recv_finish tt
  | AtHeader header_len =>
      suspended ← wait_bytes fuel true header_len;
      if (suspended : bool) then mret (inr (Suspended pc)) else
      cut ← gets (cut_off header_len);
      if (cut : bool) then recv_finish tt else
      parse_limited fuel header_decode header_len (recv_finish tt) (λ header,
      if decide (magic header = MAGIC_NUM) then
        if decide (version header = VERSION) then mret (inl (AtRequestLen header))
        else recv_finish tt
      else recv_finish tt)
  | AtRequestLen header =>
      suspended ← wait_bytes fuel true 4;
      if (suspended : bool) then mret (inr (Suspended pc)) else
      cut ← gets (cut_off 4);
      if (cut : bool) then recv_finish tt else
      '(ok, value) ← on_read_buf (InputBuffer_fetch_uint32 (replicate 4 None));
      if (ok : bool) then
        match name2service_ !! default EmptyString (service_name header) with
        | None => recv_finish tt
        | Some service =>
            match service !! default EmptyString (method_name header) with
            | None => recv_finish tt
            | Some method => mret (inl (AtRequest header method (u32_value value)))
            end
        end
      else recv_finish tt
  | AtRequest header method request_len =>
      suspended ← wait_bytes fuel false request_len;
      if (suspended : bool) then mret (inr (Suspended pc)) else
      cut ← gets (cut_off request_len);
      if (cut : bool) then recv_finish tt else
      parse_limited fuel (req_decode method) request_len (recv_finish tt) (λ request,
      let response := CallMethod method request in
      write_frame fuel (header_encode (resp_header header)) (resp_encode method response);;
      resume_sender fuel;;
      mret (inl AtHeaderLen))
  end.

(** [recv_fn] until it gives up control, and its start. *)
Definition recv_run (fuel : nat) (pc : recv_pc) : M C (recv_exit recv_pc unit) :=
  iter fuel (recv_step fuel) pc.
Definition recv_fn (fuel : nat) : M C (recv_exit recv_pc unit) :=
  register_read;; recv_run fuel AtHeaderLen.
End recv_fn.

(** ** A polled connection of the server *)
Section serve.
Context `{Protobuf} (name2service_ : gmap string Service).
Abbreviation recv_run := (recv_run name2service_).
Abbreviation recv_fn := (recv_fn name2service_).

(** [resume_read] or [resume_write]; the latter may come when the sender does not
    wait for it any more. *)
Definition on_event (fuel : nat) (pc : recv_pc) (e : net_event)
    : M Connection (recv_exit recv_pc unit) :=
  match e with
  | Arrives r t =>
      modify (λ c, set_rx (rx c ++ r) (set_tx t c));;
      recv_run fuel pc
  | CanWrite t =>
      modify (set_tx t);;
      resume_write fuel;;
      mret (Suspended pc)
  end.

(** Events after [recv_fn] has returned: none is reported once the socket has been
    taken out of the registration; before that, arriving bytes resume a coroutine
    whose frame is destroyed. *)
Fixpoint after_return (fuel : nat) (es : list net_event) : M Connection (recv_exit recv_pc unit) :=
  match es with
  | [] => mret (Returned tt)
  | e :: es =>
      evs ← gets events;
      if decide (DELETE ∈ evs) then mret (Returned tt)
      else
        match e with
        | Arrives _ _ => fail_with ResumeDestroyed
        | CanWrite t => modify (set_tx t);; resume_write fuel;; after_return fuel es
        end
  end.

Fixpoint on_events (fuel : nat) (pc : recv_pc) (es : list net_event)
    : M Connection (recv_exit recv_pc unit) :=
  match es with
  | [] => mret (Suspended pc)
  | e :: es =>
      x ← on_event fuel pc e;
      match x with
      | Suspended pc' => on_events fuel pc' es
      | Returned _ => after_return fuel es
      end
  end.

(** The two tasks that [RpcServer::start] spawns for a connection, and the
    events that follow. *)
Definition serve (fuel : nat) (es : list net_event) : M Connection (recv_exit recv_pc unit) :=
  send_fn fuel;;
  x ← recv_fn fuel;
  match x with
  | Suspended pc => on_events fuel pc es
  | Returned _ => after_return fuel es
  end.
End serve.
