(* ===== verification/ServerProofs.v ===== *)
(** * The server answers valid requests in order *)
From stdpp Require Import strings.
From S2P Require Import Prelude Block Segments InputStream OutputStream Streams Conn Connection ConnectionProofs Sender Wire Protocol Receiver PollReceiver Server.

Section calls.
Context `{ProtobufLaws} (name2service_ : gmap string Service).

(** ** Specification *)

(** A call: the header of the request and its body. *)
Abbreviation call := (Header * list cell)%type.

Definition find_method (h : Header) : option Method :=
  service ← name2service_ !! default EmptyString (service_name h);
  service !! default EmptyString (method_name h).

(** The response to a call, [None] if the call is not valid. *)
Definition respond (k : call) : option (list cell) :=
  if decide (magic k.1 = MAGIC_NUM ∧ version k.1 = VERSION) then
    method ← find_method k.1;
    request ← req_decode method k.2;
    Some (frame (header_encode (resp_header k.1)) (resp_encode method (CallMethod method request)))
  else None.

Definition request_frame (k : call) : list cell := frame (header_encode k.1) k.2.
Definition request_stream (calls : list call) : list cell := concat (request_frame <$> calls).

Lemma request_stream_app ks ks' : request_stream (ks ++ ks') = request_stream ks ++ request_stream ks'.
Proof. unfold request_stream. by rewrite fmap_app, concat_app. Qed.

Lemma request_stream_one k : request_stream [k] = request_frame k.
Proof. unfold request_stream. cbn [fmap list_fmap concat]. by rewrite app_nil_r. Qed.

Lemma length_request_stream calls : length calls ≤ length (request_stream calls).
Proof.
  induction calls as [|k calls IH]; [done|].
  change (request_stream (k :: calls)) with (request_frame k ++ request_stream calls).
  unfold request_frame, frame. rewrite !length_app. simpl. lia.
Qed.

(** The calls, from position [pos] of the stream on, have lengths that a
    [uint32_t] and a limit can hold, and no length prefix crosses a block. *)
Fixpoint placed (pos : Z) (calls : list call) : Prop :=
  match calls with
  | [] => True
  | k :: calls =>
      frame_ok k ∧
      fits pos ∧ fits (pos + 4 + length (header_encode k.1)) ∧
      placed (pos + length (request_frame k)) calls
  end.

#[export] Instance placed_dec pos calls : Decision (placed pos calls).
Proof. revert pos. induction calls as [|k calls IH]; intros pos; simpl; apply _. Defined.

(** ** Where the coroutine stands in a call *)

(** At [pc] and stream position [pos], [todo] is what is left of the call. *)
Inductive pc_at (k : call) : recv_pc → Z → list cell → Prop :=
  | pc_header_len pos :
      fits pos → fits (pos + 4 + length (header_encode k.1)) →
      pc_at k AtHeaderLen pos (request_frame k)
  | pc_header pos :
      fits (pos + length (header_encode k.1)) →
      pc_at k (AtHeader (length (header_encode k.1))) pos
        (header_encode k.1 ++ u32_bytes (length k.2) ++ k.2)
  | pc_request_len pos :
      fits pos → pc_at k (AtRequestLen k.1) pos (u32_bytes (length k.2) ++ k.2)
  | pc_request pos method :
      find_method k.1 = Some method →
      pc_at k (AtRequest k.1 method (length k.2)) pos k.2.

(** Whether the coroutine waits for the body of a request. *)
Definition in_body (pc : recv_pc) : bool :=
  match pc with AtRequest _ _ _ => true | _ => false end.

(** What the waiting loop at [pc] waits for, and how many loops are left. *)
Definition pc_need (pc : recv_pc) : Z :=
  match pc with
  | AtHeaderLen | AtRequestLen _ => 4
  | AtHeader n | AtRequest _ _ n => n
  end.
Definition pc_left (pc : recv_pc) : nat :=
  match pc with
  | AtHeaderLen => 3 | AtHeader _ => 2 | AtRequestLen _ => 1 | AtRequest _ _ _ => 0
  end.

Lemma pc_at_need k pc pos todo : pc_at k pc pos todo → (pc_need pc ≤ length todo)%Z.
Proof.
  destruct 1; unfold request_frame, frame; rewrite ?length_app; simpl; rewrite ?length_app; lia.
Qed.

(** ** Runs *)

(** The coroutine stands at [pc], at position [pos]; [stream] is what is left of
    the stream of the calls that are not yet answered. *)
Definition at_point (calls : list call) (pc : recv_pc) (pos : Z) (stream : list cell) : Prop :=
  match calls with
  | [] => pc = AtHeaderLen ∧ stream = []
  | k :: calls => ∃ todo, pc_at k pc pos todo ∧ frame_ok k ∧
      placed (pos + length todo) calls ∧ stream = todo ++ request_stream calls
  end.

Lemma at_point_start calls pos :
  placed pos calls → at_point calls AtHeaderLen pos (request_stream calls).
Proof.
  destruct calls as [|k calls]; [done|]. intros (Hsm & H1 & H2 & H3).
  exists (request_frame k). split_and!; [by constructor|done|done|done].
Qed.

(** Loops left to go, at most. *)
Definition point_left (calls : list call) (pc : recv_pc) : nat :=
  match calls with
  | [] => 0
  | _ :: calls => pc_left pc + 4 * length calls + 1
  end.

Lemma point_left_start calls : point_left calls AtHeaderLen ≤ 4 * length calls.
Proof. destruct calls; simpl; lia. Qed.

Lemma at_point_length calls pc pos stream :
  at_point calls pc pos stream → length stream ≤ length (request_stream calls).
Proof.
  destruct calls as [|k calls]; [by intros [_ ->]|]. intros (todo & Hpc & _ & _ & ->).
  change (request_stream (k :: calls)) with (request_frame k ++ request_stream calls).
  rewrite !length_app. enough (length todo ≤ length (request_frame k)) by lia.
  destruct Hpc; unfold request_frame, frame; rewrite ?length_app; simpl; rewrite ?length_app; lia.
Qed.

End calls.

(** ** Over any connection *)
Section receive.
Context {Pb : Protobuf} {PbLaws : ProtobufLaws} (name2service_ : gmap string Service).
Context {C : Type} {Bufs : Buffers C} {Cn : Conn C} {CnLaws : ConnLaws C}.
Abbreviation call := (Header * list cell)%type.
Abbreviation respond := (respond name2service_).
Abbreviation find_method := (find_method name2service_).
Abbreviation pc_at := (pc_at name2service_).
Abbreviation at_point := (at_point name2service_).
Abbreviation unread c := (input_contents (in_buf c)).
Implicit Types c : C.

(** From one waiting loop to the next. *)
Definition step_post fuel out k reply pc pos todo c
    (x : recv_pc + recv_exit recv_pc unit) (c' : C) : Prop :=
  match x with
  | inr (Suspended pc') => pc' = pc ∧ good fuel out c' ∧ same_input c c' ∧ parked c' ∧
      (length (unread c') < pc_need pc)%Z
  | inr (Returned _) => False
  | inl pc' => ∃ part, incoming c = part ++ incoming c' ∧ at_pos (pos + length part) c' ∧
      ((∃ todo', pc_at k pc' (pos + length part) todo' ∧ todo = part ++ todo' ∧
         pc_left pc' < pc_left pc ∧ good fuel out c') ∨
       (pc' = AtHeaderLen ∧ part = todo ∧ good fuel (out ++ reply) c'))
  end.

Lemma recv_step_spec fuel out k reply pc pos todo future rest c :
  good fuel out c → at_pos pos c → pc_at k pc pos todo → frame_ok k →
  respond k = Some reply → incoming c ++ future = todo ++ rest →
  (length (out ++ reply) ≤ kWindow)%Z → length (out ++ reply) + 3 < fuel →
  wp (recv_step name2service_ fuel pc) (step_post fuel out k reply pc pos todo c) c.
Proof.
  intros Hl Hpos Hpc [Hok Hsmall] Hresp Hin Hwin Hf. unfold frame in Hsmall. rewrite !length_app in Hsmall.
  cbn [length u32_bytes] in Hsmall. unfold respond in Hresp.
  destruct (decide (magic k.1 = MAGIC_NUM ∧ version k.1 = VERSION)) as [[Hm Hv]|]; [|done].
  destruct (find_method k.1) as [method|] eqn:Hfind; [|done]. simpl in Hresp.
  destruct Hpc as [pos Hfit1 Hfit2|pos Hfit|pos Hfit|pos method' Hfind'].
  - assert (suspends fuel out AtHeaderLen (step_post fuel out k reply AtHeaderLen pos
      (request_frame k) c) c 4) as Hsus by (intros c' ????; by split_and!).
    unfold request_frame, frame in Hin. rewrite <-app_assoc in Hin.
    eapply (wp_wait_fetch fuel out true); try done. intros c2 Hl2 Hin2 Hpos2. apply wp_ret.
    rewrite u32_length_bytes by lia. exists (u32_bytes (length (header_encode k.1))).
    split_and!; [done|done|]. left. eexists. split_and!; [by constructor|done|simpl; lia|done].
  - set (pc := AtHeader _).
    assert (suspends fuel out pc (step_post fuel out k reply pc pos
      (header_encode k.1 ++ u32_bytes (length k.2) ++ k.2) c) c (length (header_encode k.1)))
      as Hsus by (intros c' ????; by split_and!).
    rewrite <-app_assoc in Hin.
    eapply (wp_wait_parse fuel out true); try done; [by apply header_roundtrip|].
    intros c2 Hl2 Hin2 Hpos2. rewrite !decide_True by done. apply wp_ret.
    exists (header_encode k.1). split_and!; [done|done|]. left.
    eexists. split_and!; [by constructor|done|simpl; lia|done].
  - set (pc := AtRequestLen _).
    assert (suspends fuel out pc (step_post fuel out k reply pc pos
      (u32_bytes (length k.2) ++ k.2) c) c 4) as Hsus by (intros c' ????; by split_and!).
    rewrite <-app_assoc in Hin.
    eapply (wp_wait_fetch fuel out true); try done. intros c2 Hl2 Hin2 Hpos2.
    unfold find_method in Hfind. apply bind_Some in Hfind as (service & Hsvc & Hmth).
    rewrite Hsvc, Hmth. apply wp_ret. rewrite u32_length_bytes by lia.
    exists (u32_bytes (length k.2)). split_and!; [done|done|]. left. eexists.
    split_and!; [constructor; unfold find_method; by rewrite Hsvc|done|simpl; lia|done].
  - rewrite Hfind in Hfind'. injection Hfind' as <-. set (pc := AtRequest _ _ _).
    destruct (req_decode method k.2) as [request|] eqn:Hdec; [|done].
    injection Hresp as Hreply.
    assert (suspends fuel out pc (step_post fuel out k reply pc pos k.2 c) c (length k.2))
      as Hsus by (intros c' ????; by split_and!).
    eapply (wp_wait_parse fuel out false); try done. intros c2 Hl2 Hin2 Hpos2.
    rewrite <-Hreply in Hwin, Hf.
    pose proof (wp_send_frame _ _ _ _ _ Hl2 Hwin Hf) as Hsend. cbv zeta in Hsend.
    apply wp_done in Hsend as ([] & c3 & Hrun & Hl3 & [Hin3 Hcb3]).
    unfold mbind, M_bind in Hrun. unfold wp, mbind, M_bind.
    destruct (write_frame _ _ _ c2) as [[[] c2']| |]; [|done|done]. rewrite Hrun. simpl.
    exists k.2. split_and!; [by rewrite Hin3|by apply (at_pos_same _ c2)|]. right.
    split_and!; [done|done|]. by rewrite <-Hreply.
Qed.

(** The coroutine goes as far as the bytes that have arrived allow, and
    suspends with the kernel drained; the stream ends at position [stop]. *)
Definition run_post fuel out future (stop : Z) (calls : list call) (replies : list (list cell))
    (x : recv_exit recv_pc unit) (c' : C) : Prop :=
  ∃ pc' pos' answered left replies1 replies2,
    x = Suspended pc' ∧ calls = answered ++ left ∧ replies = replies1 ++ replies2 ∧
    mapM respond answered = Some replies1 ∧ mapM respond left = Some replies2 ∧
    good fuel (out ++ concat replies1) c' ∧ parked c' ∧ at_pos pos' c' ∧
    at_point left pc' pos' (incoming c' ++ future) ∧
    (length (unread c') < pc_need pc')%Z ∧ (pos' + length (incoming c' ++ future) = stop)%Z.

(** Through one call, from any point of it: the coroutine suspends in it, or comes
    back to the first waiting loop with the call answered. *)
Lemma recv_call_spec fuel n out k reply pc pos todo future rest c
    (Q : recv_exit recv_pc unit → C → Prop) :
  good fuel out c → at_pos pos c → pc_at k pc pos todo → frame_ok k →
  respond k = Some reply → incoming c ++ future = todo ++ rest →
  (length (out ++ reply) ≤ kWindow)%Z → length (out ++ reply) + 3 < fuel → pc_left pc < n →
  (∀ pc' pos' todo' c', pc_at k pc' pos' todo' → good fuel out c' → parked c' → at_pos pos' c' →
     incoming c' ++ future = todo' ++ rest → (pos' + length todo' = pos + length todo)%Z →
     (length (unread c') < pc_need pc')%Z → Q (Suspended pc') c') →
  (∀ n' c', n ≤ n' + pc_left pc + 1 → good fuel (out ++ reply) c' →
     at_pos (pos + length todo) c' → incoming c' ++ future = rest →
     wp (iter n' (recv_step name2service_ fuel) AtHeaderLen) Q c') →
  wp (iter n (recv_step name2service_ fuel) pc) Q c.
Proof.
  intros Hl Hpos Hpc Hsm Hreply Hin Hwin Hf Hn Hsus Hgo.
  revert n pc pos todo c Hl Hpos Hpc Hin Hn Hsus Hgo.
  induction n as [|n IH]; intros pc pos todo c Hl Hpos Hpc Hin Hn Hsus Hgo; [lia|].
  apply wp_iter_step. eapply wp_mono; [by eapply recv_step_spec|].
  intros [pc'|[pc'|]] c1 Hpost; [| |done].
  - destruct Hpost as (part & Hpart & Hpos1 & [(todo' & Hpc1 & -> & Hless & Hl1)|(-> & -> & Hl1)]).
    + rewrite length_app, Nat2Z.inj_add, Z.add_assoc in Hsus, Hgo.
      rewrite Hpart, <-!app_assoc in Hin. apply app_inv_head in Hin.
      eapply (IH pc'); try done; [lia|]. intros n' c' Hn'. apply Hgo. lia.
    + rewrite Hpart, <-app_assoc in Hin. apply app_inv_head in Hin. apply Hgo; try done. lia.
  - destruct Hpost as (-> & Hl1 & [Hin1 Hcb1] & Hrx1 & Hlen1). apply (Hsus pc pos todo); try done.
    + by apply (at_pos_same _ c).
    + by rewrite Hin1.
Qed.

(** Between two calls, with nothing of the stream behind. *)
Lemma recv_idle_spec fuel n out pos c (Q : recv_exit recv_pc unit → C → Prop) :
  good fuel out c → at_pos pos c → incoming c = [] → 0 < n →
  (∀ c', good fuel out c' → parked c' → at_pos pos c' → incoming c' = [] →
     (length (unread c') < 4)%Z → Q (Suspended AtHeaderLen) c') →
  wp (iter n (recv_step name2service_ fuel) AtHeaderLen) Q c.
Proof.
  intros Hl Hpos Hnil Hn HQ. destruct n as [|n]; [lia|]. apply wp_iter_step.
  eapply wp_wait_then; [done| |]; intros c1 Hl1 Hs1.
  - intros Hp1 Hlen1. pose proof Hs1 as [Hin1 _]. rewrite Hnil in Hin1. apply wp_ret, HQ; try done.
    by apply (at_pos_same _ c).
  - intros Hlen1. pose proof Hs1 as [Hin1 _]. pose proof (unread_incoming c1) as Hu.
    rewrite Hin1, Hnil in Hu. simpl in Hu. lia.
Qed.

Lemma recv_run_spec fuel n calls replies pc pos out future c :
  good fuel out c → at_pos pos c → at_point calls pc pos (incoming c ++ future) →
  mapM respond calls = Some replies → point_left calls pc < n →
  (length (out ++ concat replies) ≤ kWindow)%Z → length (out ++ concat replies) + 3 < fuel →
  wp (iter n (recv_step name2service_ fuel) pc)
    (run_post fuel out future (pos + length (incoming c ++ future)) calls replies) c.
Proof.
  revert replies n pc pos out c.
  induction calls as [|k calls IH]; intros replies n pc pos out c Hl Hpos Hpt Hmap Hn Hwin Hf.
  - destruct Hpt as [-> Hnil]. apply app_nil in Hnil as [Hnil ->]. injection Hmap as <-.
    apply (recv_idle_spec fuel n out pos); try done. intros c1 Hl1 Hp1 Hpos1 Hin1 Hlen1.
    exists AtHeaderLen, pos, [], [], [], []. rewrite Hin1, Hnil. simpl. by rewrite app_nil_r.
  - destruct Hpt as (todo & Hpc & Hsm & Hplaced & Hstream). rewrite Hstream.
    simpl in Hmap. apply bind_Some in Hmap as (reply & Hreply & (replies' & Hmap & [= <-])%bind_Some).
    simpl in Hn. cbn [concat] in Hwin, Hf. rewrite app_assoc in Hwin, Hf. pose proof Hwin as Hwin1. pose proof Hf as Hf1.
    rewrite length_app in Hwin1, Hf1.
    eapply recv_call_spec; try done; [lia..| |].
    + intros pc' pos' todo' c' Hpc' Hl' Hp' Hpos' Hin' Hsum Hneed.
      exists pc', pos', [], (k :: calls), [], (reply :: replies'). simpl concat. rewrite app_nil_r.
      split_and!; try done.
      * by simpl; rewrite Hreply; simpl; rewrite Hmap.
      * exists todo'. by rewrite Hsum.
      * rewrite Hin', !length_app. lia.
    + intros n' c' Hn' Hl' Hpos' Hin'. pose proof (point_left_start calls).
      eapply wp_mono; [eapply (IH replies'); try done; [|lia]|].
      * rewrite Hin'. by apply at_point_start.
      * intros x c2 (pc2 & pos2 & ans & left & r1 & r2 & -> & -> & -> & H1 & H2 & H3 & H4 & H5 & H6 & H7 & H8).
        exists pc2, pos2, (k :: ans), left, (reply :: r1), r2. simpl.
        rewrite <-app_assoc in H3. split_and!; try done; [by rewrite Hreply; simpl; rewrite H1|].
        rewrite H8, Hin', length_app. lia.
Qed.

Lemma run_post_trans fuel future stop calls replies x c left r1 r2 ans :
  calls = ans ++ left → replies = r1 ++ r2 → mapM respond ans = Some r1 →
  run_post fuel (concat r1) future stop left r2 x c →
  run_post fuel [] future stop calls replies x c.
Proof.
  intros -> -> Hans (pc' & pos' & ans' & left' & s1 & s2 & -> & -> & -> & H1 & H2 & H3 & H4).
  exists pc', pos', (ans ++ ans'), left', (r1 ++ s1), s2.
  rewrite !app_assoc, concat_app. simpl. split_and!; try done; try apply H4.
  apply mapM_Some. apply Forall2_app; by apply mapM_Some.
Qed.

(** What the members of the connection do to it, [recv_fn] does. *)
Lemma recv_run_follows (R : C → C → Prop) `{!PreOrder R} fuel pc :
  (∀ b c, R c (set_in_buf b c)) → (∀ b c, R c (set_out_buf b c)) →
  follows R close_conn → follows R (await_read fuel) → follows R (resume_sender fuel) →
  follows R (recv_run name2service_ fuel pc).
Proof.
  intros Hi Ho Hc Ha Hs.
  assert (∀ A (m : M InputBuffer A), follows R (on_read_buf m)) as Hri
    by (intros; by apply follows_read_buf).
  assert (∀ A (m : M OutputBuffer A), follows R (on_write_buf m)) as Hro
    by (intros; by apply follows_write_buf).
  apply (follows_iter R). intros pc'.
  destruct pc'; unfold recv_step, wait_bytes, wait_step, parse_limited, write_frame, recv_finish;
    preserve.
Qed.

(** What [recv_fn] does when it returns, if reads that suspend and the end of the
    coroutine do something else than its other steps. *)
Lemma recv_run_returns (R F : C → C → Prop) `{!PreOrder R} fuel pc :
  (∀ b c, R c (set_in_buf b c)) → (∀ b c, R c (set_out_buf b c)) → follows R (resume_sender fuel) →
  leads (λ (suspended : bool) c c', if suspended then True else R c c') (await_read fuel) →
  (∀ c1 c2 c3, R c1 c2 → F c2 c3 → F c1 c3) → (∀ c, F c c) → leads (λ _, F) close_conn →
  leads (λ x c c', x = Returned tt → F c c') (recv_run name2service_ fuel pc).
Proof.
  intros Hi Ho Hs Ha HF Hid Hcl.
  assert (∀ A (m : M InputBuffer A), follows R (on_read_buf m)) as Hri
    by (intros; by apply follows_read_buf).
  assert (∀ A (m : M OutputBuffer A), follows R (on_write_buf m)) as Hro
    by (intros; by apply follows_write_buf).
  set (Q := λ (x : recv_pc + recv_exit recv_pc unit) c c', match x with
    | inl _ => R c c' | inr t => t = Returned tt → F c c' end).
  assert (after_steps R Q) as HQ.
  { unfold Q. intros [?|?] c1 c2 c3 H1 H2; [by etrans|]. intros Hret. by eapply HF, H2. }
  assert (leads Q (recv_finish tt)) as Hfin.
  { apply (leads_after R); [done|preserve|]. intros cl. apply (leads_bind (λ _, F)).
    - destruct cl; [by apply leads_ret|exact Hcl].
    - intros [] c1 x c2 [= <- <-] c Hc _. exact Hc. }
  set (W := λ (suspended : bool) c c', if suspended then True else R c c').
  set (Wx := λ (x : unit + bool) c c', match x with inl _ => R c c' | inr t => W t c c' end).
  assert (after_steps R W) as HW by (unfold W; intros [] c1 c2 c3 H1 H2; [done|by etrans]).
  assert (after_steps R Wx) as HWx
    by (unfold Wx, W; intros [?|[]] c1 c2 c3 H1 H2; [by etrans|done|by etrans]).
  assert (∀ check need, leads W (wait_bytes fuel check need)) as Hwait.
  { intros check need. apply (leads_iter R); [done|]. intros l. fold Wx. unfold wait_step.
    apply (leads_after R); [done|preserve|intros rb]. apply (leads_after R); [done|preserve|intros cl].
    destruct (_ && _); [|by apply leads_ret].
    apply (leads_bind W); [done|]. intros [] c1 x c2 [= <- <-] c Hc; exact Hc. }
  unfold recv_run. apply (leads_iter R); [intros x c1 c2 c3 ???; naive_solver|].
  intros pc'. fold Q. destruct pc'; cbn [recv_step];
    (apply (leads_bind W); [apply Hwait|]; intros [|];
     [by intros c1 x c2 [= <- <-]|intros c1 x c2 Hrun c Hc; apply (HQ x c c1 c2 Hc); clear c Hc; revert c1 x c2 Hrun]);
    match goal with |- ∀ c1 x c2, ?m c1 = _ → _ => change (leads Q m) end;
    unfold parse_limited;
    repeat first [ exact Hfin | apply (leads_ret Q); intros ?; reflexivity
      | apply (leads_after R Q); [exact HQ|unfold write_frame; preserve|intros ?]
      | match goal with
        | |- leads _ (if ?b then _ else _) => destruct b
        | |- leads _ (match ?x with _ => _ end) => destruct x
        end ].
Qed.

(** At most the stream of the calls is in the connection or to come. *)
Lemma run_post_total fuel future stop calls replies x c :
  run_post fuel [] future stop calls replies x c →
  length (incoming c ++ future) ≤ length (request_stream calls).
Proof.
  intros (? & ? & ans & left & ? & ? & _ & -> & _ & _ & _ & _ & _ & _ & Hpt & _).
  apply at_point_length in Hpt. rewrite request_stream_app, (length_app (request_stream ans)). lia.
Qed.

(** The suspended coroutine is resumed with [bytes] more of the stream. *)
Lemma recv_resume_spec fuel stop calls replies pc bytes future c c' :
  run_post fuel [] (bytes ++ future) stop calls replies (Suspended pc) c →
  (∀ out, good fuel out c → parked c → good fuel out c') →
  incoming c' = incoming c ++ bytes → consumed_bytes_ (in_buf c') = consumed_bytes_ (in_buf c) →
  4 * length calls + 4 < fuel →
  (length (concat replies) ≤ kWindow)%Z → length (concat replies) + 3 < fuel →
  wp (recv_run name2service_ fuel pc) (run_post fuel [] future stop calls replies) c'.
Proof.
  intros (pc' & pos & ans & left & r1 & r2 & [= <-] & Hcalls & Hreplies & H1 & H2 & Hl & Hp & Hpos & Hpt & Hneed & Hstop)
    Hg Hin Hcb Hfc Hwin Hfw.
  rewrite Hreplies, concat_app in Hwin, Hfw. eapply wp_mono.
  { eapply (recv_run_spec fuel fuel left r2 pc pos (concat r1)); try done.
    - by apply Hg.
    - unfold at_pos in *. by rewrite Hcb.
    - by rewrite Hin, <-app_assoc.
    - rewrite Hcalls, length_app in Hfc. destruct left; simpl in *; [lia|].
      assert (pc_left pc ≤ 3) by (destruct pc; simpl; lia). lia. }
  intros x c2 Hpost. rewrite Hin, <-app_assoc, Hstop in Hpost. by eapply run_post_trans.
Qed.

(** Something happens to a suspended connection that does not concern the
    receiver: the kernel gets [b] of the stream, maybe nothing. *)
Lemma run_post_frame fuel future stop calls replies x c :
  run_post fuel [] future stop calls replies x c →
  ∃ pc out, x = Suspended pc ∧ length out ≤ length (concat replies) ∧ good fuel out c ∧ parked c ∧
    ∀ b future' c', future = b ++ future' → good fuel out c' → parked c' →
      in_buf c' = in_buf c → kernel_rx c' = kernel_rx c ++ b →
      run_post fuel [] future' stop calls replies x c'.
Proof.
  intros (pc' & pos & ans & left & r1 & r2 & -> & Hcalls & Hreplies & H1 & H2 & Hl & Hp & Hpos & Hpt & Hneed & Hstop).
  exists pc', (concat r1). split_and!; [done| |done|done|].
  - rewrite Hreplies, concat_app, length_app. lia.
  - intros b future' c' -> Hg' Hp' Hin Hk. exists pc', pos, ans, left, r1, r2.
    unfold at_pos, incoming in *. rewrite app_assoc in Hpt, Hstop.
    rewrite Hin, Hk, (app_assoc (unread c)). by split_and!.
Qed.

(** Nothing of the stream is left to arrive: every call has been answered. *)
Lemma run_post_done fuel stop calls replies x c :
  kernel_rx c = [] → run_post fuel [] [] stop calls replies x c →
  x = Suspended AtHeaderLen ∧ good fuel (concat replies) c ∧ incoming c = [] ∧ parked c ∧
  at_pos stop c.
Proof.
  intros Hk (pc & pos & ans & left & r1 & r2 & -> & -> & -> & H1 & H2 & Hl & Hrx & Hpos & Hpt & Hneed & Hstop).
  assert (incoming c = unread c) as Hiu by (unfold incoming; by rewrite Hk, app_nil_r).
  rewrite app_nil_r in Hpt, Hstop. destruct left as [|k left].
  - destruct Hpt as [-> Hin]. injection H2 as <-. rewrite app_nil_r. rewrite Hin in Hstop.
    simpl in Hstop. rewrite Z.add_0_r in Hstop. subst stop. by split_and!.
  - destruct Hpt as (todo & Hpc & _ & _ & Hin). apply pc_at_need in Hpc.
    rewrite <-Hiu, Hin, length_app in Hneed. lia.
Qed.

(** Where the server stands when [part] of the frame of [k] has arrived behind
    complete requests. *)
Lemma run_post_cut fuel stop calls replies k all part future x c :
  mapM respond calls = Some replies →
  part ++ future = request_frame k → future ≠ [] →
  run_post fuel [] future stop (calls ++ [k]) all x c → kernel_rx c = [] →
  ∃ pc, x = Suspended pc ∧ good fuel (concat replies) c ∧ parked c ∧
    (length (unread c) < pc_need pc)%Z ∧
    in_body pc = bool_decide (8 + length (header_encode k.1) ≤ length part).
Proof.
  intros Hreplies Hpart Hfut
    (pc & pos & ans & left & r1 & r2 & -> & Hcalls & _ & H1 & _ & Hl & Hrx & _ & Hpt & Hneed & _) Hk.
  assert (incoming c = unread c) as Hiu by (unfold incoming; by rewrite Hk, app_nil_r).
  rewrite <-Hiu in Hneed |- *.
  apply (f_equal length) in Hpart. rewrite length_app in Hpart.
  assert (0 < length future) as Hfl by (destruct future; [done|simpl; lia]).
  destruct left as [|k' left _] using rev_ind.
  { destruct Hpt as [_ Hnil]. by apply app_nil in Hnil as [_ ->]. }
  rewrite app_assoc in Hcalls. apply app_inj_2 in Hcalls as [-> [= <-]]; [|done].
  destruct left as [|j left]; cycle 1.
  { destruct Hpt as (todo & Hpc & _ & _ & Hst). apply pc_at_need in Hpc.
    apply (f_equal length) in Hst.
    rewrite request_stream_app, request_stream_one, !length_app in Hst. lia. }
  rewrite app_nil_r in Hreplies. rewrite Hreplies in H1. injection H1 as <-. simpl in Hl.
  destruct Hpt as (todo & Hpc & _ & _ & Hst). unfold request_stream in Hst. simpl in Hst.
  rewrite app_nil_r in Hst. apply (f_equal length) in Hst. rewrite length_app in Hst.
  exists pc. split_and!; [done|done|done|lia|].
  unfold request_frame, frame in Hpart. rewrite !length_app in Hpart. cbn [length u32_bytes] in Hpart.
  destruct Hpc; simpl in Hneed |- *; unfold request_frame, frame in Hst;
    rewrite ?length_app in Hst; cbn [length u32_bytes] in Hst; symmetry;
    first [apply bool_decide_eq_false_2; lia | apply bool_decide_eq_true_2; lia].
Qed.

End receive.

(** ** A polled connection *)
Section serve.
Context `{ProtobufLaws} (name2service_ : gmap string Service).
Abbreviation call := (Header * list cell)%type.
Abbreviation respond := (respond name2service_).
Abbreviation at_point := (at_point name2service_).
Abbreviation run_post := (run_post name2service_ (C := Connection)).

Lemma on_event_spec fuel stop calls replies pc e future c :
  let total := length (request_stream calls) in
  run_post fuel [] (event_bytes e ++ future) stop calls replies (Suspended pc) c →
  event_ok fuel e → (total < 2 ^ 31 - 1)%Z → total + 2 < fuel →
  4 * length calls + 4 < fuel →
  (length (concat replies) ≤ kWindow)%Z → length (concat replies) + 3 < fuel →
  wp (on_event name2service_ fuel pc e) (run_post fuel [] future stop calls replies) c.
Proof.
  intros total Hpost He Hsm Hf Hfc Hwin Hfw.
  pose proof (run_post_total _ _ _ _ _ _ _ _ Hpost) as Htot. rewrite !length_app in Htot.
  destruct (run_post_frame _ _ _ _ _ _ _ _ Hpost) as (pc1 & out & [= <-] & Hlen & Hl & Hrx & Hframe).
  simpl in Hl, Hrx. destruct e as [r t|t]; cbn [event_bytes] in *.
  - apply wp_bind, wp_modify.
    assert (∀ out, live fuel out c → rx c = [] → let c' := set_rx (rx c ++ r) (set_tx t c) in
      live fuel out c' ∧ incoming c' = incoming c ++ rx_bytes r) as Hev.
    { intros out' Hl' _. apply live_arrives; try done; rewrite length_app; lia. }
    eapply (recv_resume_spec name2service_); try done; [|by apply (Hev out)].
    intros out' Hl' Hp'. by apply Hev.
  - apply wp_bind, wp_modify, wp_bind.
    eapply wp_mono; [apply (live_can_write fuel out); try done; lia|].
    intros [] c2 (Hl2 & Hrb2 & Hrx2). apply wp_ret, (Hframe []); poll; by rewrite ?app_nil_r, ?Hrb2, ?Hrx2.
Qed.

Lemma on_events_spec fuel stop calls replies es future pc c :
  let total := length (request_stream calls) in
  run_post fuel [] (concat (event_bytes <$> es) ++ future) stop calls replies (Suspended pc) c →
  Forall (event_ok fuel) es → (total < 2 ^ 31 - 1)%Z → total + 2 < fuel →
  4 * length calls + 4 < fuel →
  (length (concat replies) ≤ kWindow)%Z → length (concat replies) + 3 < fuel →
  wp (on_events name2service_ fuel pc es) (run_post fuel [] future stop calls replies) c.
Proof.
  intros total Hpost Hes Hsm Hf Hfc Hwin Hfw. revert pc c Hpost.
  induction es as [|e es IH]; intros pc c Hpost; [by apply wp_ret|].
  apply Forall_cons in Hes as [He Hes]. simpl. apply wp_bind.
  eapply wp_mono; [by apply (on_event_spec fuel stop calls replies pc e (concat (event_bytes <$> es) ++ future)); rewrite ?app_assoc|]. intros x c1 Hpost1.
  pose proof Hpost1 as (pc1 & ? & ? & ? & ? & ? & -> & _). by apply IH.
Qed.

(** On a polled connection a parked receiver has everything that has arrived. *)
Lemma run_post_kernel fuel out future stop calls replies x c :
  run_post fuel out future stop calls replies x c → kernel_rx c = [].
Proof.
  intros (? & ? & ? & ? & ? & ? & _ & _ & _ & _ & _ & _ & Hrx & _). poll. by rewrite Hrx.
Qed.

Lemma run_post_end fuel stop calls replies x c :
  run_post fuel [] [] stop calls replies x c →
  x = Suspended AtHeaderLen ∧ live fuel (concat replies) c ∧ incoming c = [] ∧ rx c = [] ∧
  at_pos stop c.
Proof.
  intros Hpost. pose proof (run_post_kernel _ _ _ _ _ _ _ _ Hpost) as Hk.
  by apply (run_post_done name2service_) in Hpost.
Qed.

(** The two coroutines have been started and wait for the first request. *)
Lemma serve_starts fuel calls replies :
  placed 0 calls → mapM respond calls = Some replies → 4 * length calls + 4 < fuel →
  (length (concat replies) ≤ kWindow)%Z → length (concat replies) + 3 < fuel →
  wp (send_fn fuel;; recv_fn name2service_ fuel)
    (run_post fuel [] (request_stream calls) (length (request_stream calls)) calls replies)
    (Connection_new [] []).
Proof.
  intros Hplaced Hresp Hfc Hwin Hfw. apply wp_start; [lia|]. intros c Hl Hin Hpos _.
  pose proof (recv_run_spec name2service_ fuel fuel calls replies AtHeaderLen 0 [] (request_stream calls) c) as Hrun.
  rewrite Hin in Hrun. simpl in Hrun. apply Hrun; try done.
  - by apply at_point_start.
  - pose proof (point_left_start calls). lia.
Qed.

(** The server after events that bring a part of the stream. *)
Lemma serve_part fuel calls replies es future :
  let total := length (request_stream calls) in
  placed 0 calls → mapM respond calls = Some replies →
  concat (event_bytes <$> es) ++ future = request_stream calls →
  Forall (event_ok fuel) es → (total < 2 ^ 31 - 1)%Z → total + 2 < fuel →
  4 * length calls + 4 < fuel →
  (length (concat replies) ≤ kWindow)%Z → length (concat replies) + 3 < fuel →
  wp (serve name2service_ fuel es) (run_post fuel [] future total calls replies)
    (Connection_new [] []).
Proof.
  intros total Hplaced Hresp Hbytes Hes Hsm Hf Hfc Hwin Hfw.
  pose proof (serve_starts fuel calls replies Hplaced Hresp Hfc Hwin Hfw) as Hstart.
  unfold serve. apply wp_bind. unfold wp in Hstart. unfold mbind, M_bind in Hstart. unfold wp at 1.
  destruct (send_fn fuel _) as [[[] c]| |]; [|done|done]. apply wp_bind.
  eapply wp_mono; [exact Hstart|].
  intros x c2 Hpost. pose proof Hpost as (pc & ? & ? & ? & ? & ? & -> & _).
  rewrite <-Hbytes in Hpost at 1. by eapply on_events_spec.
Qed.

Lemma serve_spec fuel calls replies es :
  let total := length (request_stream calls) in
  placed 0 calls → mapM respond calls = Some replies →
  concat (event_bytes <$> es) = request_stream calls →
  Forall (event_ok fuel) es → (total < 2 ^ 31 - 1)%Z → total + 2 < fuel →
  4 * length calls + 4 < fuel →
  (length (concat replies) ≤ kWindow)%Z → length (concat replies) + 3 < fuel →
  wp (serve name2service_ fuel es) (λ x c, x = Suspended AtHeaderLen ∧ unread c = [] ∧
    rx c = [] ∧ sender_inv (concat replies) c) (Connection_new [] []).
Proof.
  intros total Hplaced Hresp Hbytes Hes Hsm Hf Hfc Hwin Hfw.
  eapply wp_mono; [apply (serve_part fuel calls replies es []); by rewrite ?app_nil_r|].
  intros x c (-> & Hl & Hin & Hrx & _)%run_post_end. apply app_nil in Hin as [Hun _].
  split_and!; try done. apply Hl.
Qed.
End serve.
