(* ===== verification/Refusal.v ===== *)
(** * A request that the server refuses (server/rpc_server.cc)

    [RpcServer::recv_fn] leaves its loop when the magic number, the version, the
    service, the method or the body of a request is not what it accepts; it closes
    the connection and returns.  Here is what leads there, over any connection: the
    requests before it are answered, and the coroutine suspends at any point where
    bytes are missing.  What becomes of the sender depends on the connection. *)
From stdpp Require Import strings.
From S2P Require Import Prelude Block Segments InputStream OutputStream Streams Conn Wire Protocol Receiver Server ServerProofs.

Section refusal.
Context {Pb : Protobuf} {PbLaws : ProtobufLaws} (name2service_ : gmap string Service).
Context {C : Type} {Bufs : Buffers C} {Cn : Conn C} {CnLaws : ConnLaws C}.
Abbreviation call := (Header * list cell)%type.
Abbreviation respond := (respond name2service_).
Abbreviation pc_at := (pc_at name2service_).
Abbreviation unread c := (input_contents (in_buf c)).
Implicit Types (c : C) (k : call).

(** What [recv_fn] has checked of a request when it waits at [pc]. *)
Definition checked k (pc : recv_pc) : Prop :=
  pc_left pc ≤ 1 → magic k.1 = MAGIC_NUM ∧ version k.1 = VERSION.

(** An open connection that has been given [out] to send was closed; its receive
    buffer may be in the middle of a message. *)
Definition shut (fuel : nat) (out : list cell) c' : Prop :=
  ∃ c c1, good fuel out c ∧ (c1 = c ∨ ∃ b, c1 = set_in_buf b c) ∧ close_conn c1 = Done (tt, c').

Lemma wp_finish_shut {pc R} fuel out (r : R) (Q : pc + recv_exit pc R → C → Prop) c c1 :
  good fuel out c → c1 = c ∨ (∃ b, c1 = set_in_buf b c) →
  (∀ c', shut fuel out c' → Q (inr (Returned r)) c') → wp (recv_finish r) Q c1.
Proof.
  intros Hg Hc1 HQ. assert (is_closed c1 = false) as Hopen.
  { rewrite <-(good_open _ _ _ Hg). destruct Hc1 as [->|[b ->]]; [done|apply closed_set_in]. }
  unfold recv_finish. apply wp_bind, wp_gets. rewrite Hopen. apply wp_bind.
  pose proof (close_law c1) as Hcl. apply wp_done in Hcl as ([] & c' & Hrun & _).
  unfold wp. rewrite Hrun. apply HQ. by exists c, c1.
Qed.

(** From one waiting loop to the next, in a request that is refused. *)
Definition refuse_step_post fuel out k pc pos todo c (x : recv_pc + recv_exit recv_pc unit) c' : Prop :=
  match x with
  | inr (Suspended pc') => pc' = pc ∧ good fuel out c' ∧ same_input c c' ∧ parked c' ∧
      (length (unread c') < pc_need pc)%Z
  | inr (Returned _) => shut fuel out c'
  | inl pc' => good fuel out c' ∧ pc_left pc' < pc_left pc ∧ checked k pc' ∧
      ∃ part todo', incoming c = part ++ incoming c' ∧ todo = part ++ todo' ∧
        at_pos (pos + length part) c' ∧ pc_at k pc' (pos + length part) todo'
  end.

Lemma recv_step_refused fuel out k pc pos todo future rest c :
  good fuel out c → at_pos pos c → pc_at k pc pos todo → checked k pc → frame_ok k →
  respond k = None → incoming c ++ future = todo ++ rest →
  wp (recv_step name2service_ fuel pc) (refuse_step_post fuel out k pc pos todo c) c.
Proof.
  intros Hl Hpos Hpc Hhead [Hok Hsmall] Hresp Hin. unfold frame in Hsmall. rewrite !length_app in Hsmall.
  cbn [length u32_bytes] in Hsmall. unfold respond in Hresp.
  assert (∀ c', good fuel out c' → same_input c c' → parked c' → (length (unread c') < pc_need pc)%Z →
    refuse_step_post fuel out k pc pos todo c (inr (Suspended pc)) c') as Hsus by (intros; by split_and!).
  assert (∀ c2, good fuel out c2 →
    wp (recv_finish tt) (refuse_step_post fuel out k pc pos todo c) c2) as Hfin
    by (intros c2 Hg2; eapply wp_finish_shut; [exact Hg2|by left|done]).
  destruct Hpc as [pos Hfit1 Hfit2|pos Hfit|pos Hfit|pos method Hfind]; cbn [pc_need] in Hsus.
  - unfold request_frame, frame in Hin. rewrite <-app_assoc in Hin.
    eapply (wp_wait_fetch fuel out true); try done. intros c2 Hl2 Hin2 Hpos2. apply wp_ret.
    rewrite u32_length_bytes by lia. split_and!; [done|simpl; lia|intros ?; simpl in *; lia|].
    by eexists _, _; split_and!; [exact Hin2|reflexivity|exact Hpos2|constructor].
  - rewrite <-app_assoc in Hin.
    eapply (wp_wait_parse fuel out true); try done; [by apply header_roundtrip|].
    intros c2 Hl2 Hin2 Hpos2. specialize (Hfin c2 Hl2).
    destruct (decide (magic k.1 = MAGIC_NUM)) as [Hm|]; [|done].
    destruct (decide (version k.1 = VERSION)) as [Hv|]; [|done]. apply wp_ret.
    split_and!; [done|simpl; lia|done|].
    by eexists _, _; split_and!; [exact Hin2|reflexivity|exact Hpos2|constructor].
  - destruct (Hhead ltac:(simpl; lia)) as [Hm Hv]. rewrite <-app_assoc in Hin.
    eapply (wp_wait_fetch fuel out true); try done. intros c2 Hl2 Hin2 Hpos2. specialize (Hfin c2 Hl2).
    destruct (name2service_ !! _) as [service|] eqn:Hsvc; [|done].
    destruct (service !! _) as [method|] eqn:Hmth; [|done].
    apply wp_ret. rewrite u32_length_bytes by lia. split_and!; [done|simpl; lia|done|].
    eexists _, _; split_and!; [exact Hin2|reflexivity|exact Hpos2|].
    constructor. unfold find_method. by rewrite Hsvc.
  - destruct (Hhead ltac:(simpl; lia)) as [Hm Hv]. rewrite decide_True, Hfind in Hresp by done.
    simpl in Hresp. destruct (req_decode method k.2) as [request|] eqn:Hdec; [done|].
    eapply (wp_wait_then fuel out false); [done|by intros; apply Hsus|]. intros c1 Hl1 Hs1 Hlen1.
    destruct (app_split _ _ _ _ Hin) as (r & Hr & _).
    { destruct Hs1 as [<- _]. pose proof (unread_incoming c1). lia. }
    pose proof (unread_prefix c1 _ _ (same_input_app _ _ _ _ Hs1 Hr) ltac:(lia)) as Hun1.
    pose proof (unread_incoming c1). destruct (good_bounds fuel out c1 Hl1).
    destruct (parse_buf_run fuel pos (req_decode method) k.2 _ c1 (good_input _ _ _ Hl1)
      (at_pos_same _ _ _ Hs1 Hpos) Hun1) as (b & _ & _ & Hrun); [lia|lia|].
    unfold wp. rewrite Hrun, Hdec. eapply wp_finish_shut; [exact Hl1|right; by eexists|done].
Qed.

(** Where the coroutine stands before a refused request [k]: [calls] come first,
    and [rest] behind it. *)
Definition toward (calls : list call) k (rest : list cell) (pc : recv_pc) (pos : Z) (stream : list cell) : Prop :=
  match calls with
  | [] => ∃ todo, pc_at k pc pos todo ∧ frame_ok k ∧ checked k pc ∧ stream = todo ++ rest
  | k' :: calls => ∃ todo, pc_at k' pc pos todo ∧ frame_ok k' ∧
      placed (pos + length todo) (calls ++ [k]) ∧
      stream = todo ++ request_stream (calls ++ [k]) ++ rest
  end.

Lemma toward_start calls k rest pos :
  placed pos (calls ++ [k]) →
  toward calls k rest AtHeaderLen pos (request_stream (calls ++ [k]) ++ rest).
Proof.
  destruct calls as [|k' calls]; intros (Hsm & H1 & H2 & H3).
  - exists (request_frame k). cbn [app]. rewrite request_stream_one. split_and!; [by constructor|done|intros ?; simpl in *; lia|done].
  - exists (request_frame k'). change (request_stream ((k' :: calls) ++ [k])) with (request_frame k' ++ request_stream (calls ++ [k])).
    rewrite <-app_assoc. split_and!; [by constructor|done|done|done].
Qed.

(** Loops left to go, at most. *)
Definition toward_left (calls : list call) (pc : recv_pc) : nat := pc_left pc + 4 * length calls + 1.

(** The coroutine suspends where bytes are missing, or has closed the connection
    and returned, with all calls answered. *)
Definition refuse_post fuel out future (calls : list call) (replies : list (list cell)) k rest
    (x : recv_exit recv_pc unit) c' : Prop :=
  match x with
  | Suspended pc => ∃ pos answered left r1 r2, calls = answered ++ left ∧ replies = r1 ++ r2 ∧
      mapM respond answered = Some r1 ∧ mapM respond left = Some r2 ∧
      good fuel (out ++ concat r1) c' ∧ parked c' ∧ at_pos pos c' ∧
      toward left k rest pc pos (incoming c' ++ future) ∧ (length (unread c') < pc_need pc)%Z
  | Returned _ => shut fuel (out ++ concat replies) c'
  end.

Lemma refuse_post_trans fuel out future calls replies k rest x c ans left r1 r2 :
  calls = ans ++ left → replies = r1 ++ r2 → mapM respond ans = Some r1 →
  refuse_post fuel (out ++ concat r1) future left r2 k rest x c →
  refuse_post fuel out future calls replies k rest x c.
Proof.
  intros -> -> Hans. destruct x as [pc|[]]; simpl; [|by rewrite <-app_assoc, <-concat_app].
  intros (pos & ans' & left' & s1 & s2 & -> & -> & H1 & H2 & H3 & H4).
  exists pos, (ans ++ ans'), left', (r1 ++ s1), s2. rewrite concat_app, !app_assoc.
  split_and!; try done; try apply H4. apply mapM_Some, Forall2_app; by apply mapM_Some.
Qed.

Lemma recv_run_refused fuel n calls replies k rest pc pos out future c :
  good fuel out c → at_pos pos c → toward calls k rest pc pos (incoming c ++ future) →
  mapM respond calls = Some replies → respond k = None → toward_left calls pc < n →
  (length (out ++ concat replies) ≤ kWindow)%Z → length (out ++ concat replies) + 3 < fuel →
  wp (iter n (recv_step name2service_ fuel) pc) (refuse_post fuel out future calls replies k rest) c.
Proof.
  unfold toward_left. revert replies n pc pos out c.
  induction calls as [|k' calls IH]; intros replies n pc pos out c Hl Hpos Hpt Hmap Hk Hn Hwin Hf.
  - injection Hmap as <-. revert pc pos c Hl Hpos Hpt Hn.
    induction n as [|n IH]; intros pc pos c Hl Hpos (todo & Hpc & Hsm & Hch & Hstream) Hn; [lia|].
    apply wp_iter_step. eapply wp_mono; [by eapply recv_step_refused|].
    intros [pc'|[pc'|[]]] c1 Hpost.
    + destruct Hpost as (Hl1 & Hless & Hch1 & part & todo' & Hpart & -> & Hpos1 & Hpc1).
      apply (IH pc' (pos + length part)%Z); try done; [|simpl in *; lia].
      exists todo'. split_and!; try done. rewrite Hpart, <-!app_assoc in Hstream.
      by apply app_inv_head in Hstream.
    + destruct Hpost as (-> & Hl1 & [Hin1 Hcb1] & Hp1 & Hlen1).
      exists pos, [], [], [], []. simpl. rewrite app_nil_r. split_and!; try done; [by apply (at_pos_same _ c)|].
      exists todo. by rewrite Hin1.
    + simpl in *. by rewrite app_nil_r.
  - destruct Hpt as (todo & Hpc & Hsm & Hplaced & Hstream).
    pose proof Hmap as Hmap0. simpl in Hmap.
    apply bind_Some in Hmap as (reply & Hreply & (replies' & Hmap & [= <-])%bind_Some).
    cbn [concat length] in Hwin, Hf, Hn. rewrite app_assoc in Hwin, Hf. pose proof Hwin as Hwin1.
    pose proof Hf as Hf1. rewrite length_app in Hwin1, Hf1.
    eapply recv_call_spec; try done; [lia..| |].
    + intros pc' pos' todo' c' Hpc' Hl' Hp' Hpos' Hin' Hsum Hneed.
      exists pos', [], (k' :: calls), [], (reply :: replies'). simpl concat. rewrite app_nil_r.
      split_and!; try done. exists todo'. by rewrite Hsum.
    + intros n' c' Hn' Hl' Hpos' Hin'.
      eapply wp_mono; [eapply (IH replies'); try done; [|simpl; lia]|].
      * rewrite Hin'. by apply toward_start.
      * intros x c2 Hpost. apply (refuse_post_trans fuel out future (k' :: calls) (reply :: replies') k rest x c2
          [k'] calls [reply] replies'); try done; [by simpl; rewrite Hreply|].
        simpl. by rewrite app_nil_r.
Qed.

(** At most the stream is in the connection or to come. *)
Lemma refuse_post_total fuel out future calls replies k rest pc c :
  refuse_post fuel out future calls replies k rest (Suspended pc) c →
  length (incoming c ++ future) ≤ length (request_stream (calls ++ [k]) ++ rest).
Proof.
  intros (pos & ans & left & ? & ? & -> & _ & _ & _ & _ & _ & _ & Hpt & _).
  rewrite <-(app_assoc ans), request_stream_app, <-app_assoc, (length_app (request_stream ans)).
  enough (length (incoming c ++ future) ≤ length (request_stream (left ++ [k]) ++ rest)) by lia.
  assert (∀ k' pc pos todo, pc_at k' pc pos todo → length todo ≤ length (request_frame k')) as Hle.
  { intros k' pc' pos' todo Hpc. destruct Hpc; unfold request_frame, frame; rewrite ?length_app; simpl; rewrite ?length_app; lia. }
  destruct left as [|k' left]; destruct Hpt as (todo & Hpc%Hle & _ & _ & ->).
  - cbn [app]. rewrite request_stream_one, !length_app. lia.
  - change (request_stream ((k' :: left) ++ [k])) with (request_frame k' ++ request_stream (left ++ [k])).
    rewrite !length_app. lia.
Qed.

(** Something is missing as long as the coroutine is suspended. *)
Lemma refuse_post_missing fuel out future calls replies k rest pc c :
  refuse_post fuel out future calls replies k rest (Suspended pc) c → kernel_rx c ++ future ≠ [].
Proof.
  intros (pos & ans & left & ? & ? & _ & _ & _ & _ & _ & _ & _ & Hpt & Hneed) Hnil.
  unfold incoming in Hpt. rewrite <-app_assoc, Hnil, app_nil_r in Hpt.
  assert (∃ k' todo rest', pc_at k' pc pos todo ∧ unread c = todo ++ rest') as (k' & todo & rest' & Hpc & Hin)
    by (destruct left as [|k' left]; destruct Hpt as (todo & Hpc & _ & _ & Hst); by eexists _, _, _).
  apply pc_at_need in Hpc. rewrite Hin, length_app in Hneed. lia.
Qed.

(** The suspended coroutine is resumed with [bytes] more of the stream. *)
Lemma refuse_resume_spec fuel calls replies k rest pc bytes future c c' :
  refuse_post fuel [] (bytes ++ future) calls replies k rest (Suspended pc) c →
  (∀ out, good fuel out c → parked c → good fuel out c') →
  incoming c' = incoming c ++ bytes → consumed_bytes_ (in_buf c') = consumed_bytes_ (in_buf c) →
  respond k = None → 4 * length calls + 8 < fuel →
  (length (concat replies) ≤ kWindow)%Z → length (concat replies) + 3 < fuel →
  wp (recv_run name2service_ fuel pc) (refuse_post fuel [] future calls replies k rest) c'.
Proof.
  intros (pos & ans & left & r1 & r2 & Hcalls & Hreplies & H1 & H2 & Hl & Hp & Hpos & Hpt & Hneed)
    Hg Hin Hcb Hk Hfc Hwin Hfw.
  rewrite Hreplies, concat_app in Hwin, Hfw. simpl in Hl. eapply wp_mono.
  { eapply (recv_run_refused fuel fuel left r2 k rest pc pos (concat r1)); try done.
    - by apply Hg.
    - unfold at_pos in *. by rewrite Hcb.
    - by rewrite Hin, <-app_assoc.
    - unfold toward_left. rewrite Hcalls, length_app in Hfc.
      assert (pc_left pc ≤ 3) by (destruct pc; simpl; lia). lia. }
  intros x c2 Hpost. by eapply (refuse_post_trans fuel []).
Qed.

(** Something happens to a suspended connection that does not concern the receiver. *)
Lemma refuse_post_frame fuel future calls replies k rest pc c :
  refuse_post fuel [] future calls replies k rest (Suspended pc) c →
  ∃ out, length out ≤ length (concat replies) ∧ good fuel out c ∧ parked c ∧
    ∀ c', good fuel out c' → parked c' → in_buf c' = in_buf c → kernel_rx c' = kernel_rx c →
      refuse_post fuel [] future calls replies k rest (Suspended pc) c'.
Proof.
  intros (pos & ans & left & r1 & r2 & Hcalls & Hreplies & H1 & H2 & Hl & Hp & Hpos & Hpt & Hneed).
  exists (concat r1). split_and!; [rewrite Hreplies, concat_app, length_app; lia|done|done|].
  intros c' Hg' Hp' Hin Hk. exists pos, ans, left, r1, r2.
  unfold at_pos, incoming in *. rewrite Hin, Hk. by split_and!.
Qed.
End refusal.
