(* ===== verification/UringServer.v ===== *)
(** * The server over io_uring (server/rpc_server.cc, scheduler/uring_exector.cc)

    [RpcServer::recv_fn] on a [UringConnection]: the executor takes completions from
    the ring, reports them to the connection and resumes the coroutine that waits.
    The kernel answers reads one after the other; in which order the completions of
    reads and writes come is up to the schedule.

    - Requests that arrive in any pieces, with failed reads in between, are
      answered in order.
    - The peer closes the stream before a body: [recv_fn] returns, and [send_fn]
      returns when the write in flight, if any, has completed.
    - Within a body: the loop that waits for the body does not look at [closed()];
      it submits reads for ever. *)
From stdpp Require Import strings.
From S2P Require Import Prelude Block Segments InputStream OutputStream Streams Conn Connection Uring Wire Protocol Receiver PollReceiver UringRead Server ServerProofs Refusal.

Section uring_serve.
Context `{Protobuf} (name2service_ : gmap string Service).

(** What the executor takes from the ring for a connection; a write completes with
    a result, or in full. *)
Inductive uring_event :=
  | ReadDone
  | WriteDone (res : option Z).

(** The completion of a write, if one is in flight. *)
Definition write_done (fuel : nat) (res : option Z) : M Uring unit :=
  o ← gets inflight;
  uring_complete fuel (default (Z.of_nat (length (default [] o))) res).

(** A completion is handled, and the coroutine resumed. *)
Definition on_completion (fuel : nat) (pc : recv_pc) (e : uring_event)
    : M UringConn (recv_exit recv_pc unit) :=
  match e with
  | ReadDone =>
      completed ← uring_read_complete fuel;
      if (completed : bool) then recv_run name2service_ fuel pc else mret (Suspended pc)
  | WriteDone res => on_uc_out (write_done fuel res);; mret (Suspended pc)
  end.

(** Completions after [recv_fn] has returned. *)
Fixpoint after_done (fuel : nat) (es : list uring_event) : M UringConn (recv_exit recv_pc unit) :=
  match es with
  | [] => mret (Returned tt)
  | ReadDone :: es =>
      completed ← uring_read_complete fuel;
      if (completed : bool) then fail_with ResumeDestroyed else after_done fuel es
  | WriteDone res :: es => on_uc_out (write_done fuel res);; after_done fuel es
  end.

Fixpoint on_completions (fuel : nat) (pc : recv_pc) (es : list uring_event)
    : M UringConn (recv_exit recv_pc unit) :=
  match es with
  | [] => mret (Suspended pc)
  | e :: es =>
      x ← on_completion fuel pc e;
      match x with
      | Suspended pc' => on_completions fuel pc' es
      | Returned _ => after_done fuel es
      end
  end.

(** The two tasks that [RpcServer::start] spawns for a connection, and the
    completions that follow. *)
Definition uring_serve (fuel : nat) (es : list uring_event) : M UringConn (recv_exit recv_pc unit) :=
  on_uc_out (uring_send_fn fuel);;
  x ← recv_fn name2service_ fuel;
  match x with
  | Suspended pc => on_completions fuel pc es
  | Returned _ => after_done fuel es
  end.
End uring_serve.

(** ** Proofs *)

#[export] Instance uring_event_eq_dec : EqDecision uring_event.
Proof. solve_decision. Defined.

(** Writes complete in full; how many reads complete. *)
Definition in_full (e : uring_event) : Prop := e = ReadDone ∨ e = WriteDone None.
Definition reads (es : list uring_event) : nat := length (filter (λ e, e = ReadDone) es).

Lemma uring_run_preserves {Pb : Protobuf} name2service_ fuel pc :
  preserves uc_rx (recv_run name2service_ fuel pc).
Proof.
  assert (∀ A (m : M Uring A), preserves uc_rx (on_uc_out m)) as Hout.
  { intros A m c a c' Hrun. unfold on_uc_out in Hrun.
    destruct (m (uc_out c)) as [[a1 u]| |]; [|done|done]. by injection Hrun as <- <-. }
  apply (recv_run_follows _ _); try done; uring; try apply Hout.
  unfold UringConnection_async_read. preserve; [by apply follows_read_buf|by apply preserves_modify].
Qed.

(** A coroutine that returns on a connection that was open leaves no read submitted. *)
Lemma uring_run_returns {Pb : Protobuf} name2service_ fuel pc :
  leads (λ x c c', x = Returned tt → uc_closed c = false → uc_read c' = uc_read c)
    (recv_run name2service_ fuel pc).
Proof.
  set (R := λ c c', uc_closed c' = uc_closed c ∧ (uc_closed c = false → uc_read c' = uc_read c)).
  assert (PreOrder R) as HR.
  { split; [by intros c|]. intros c1 c2 c3 [H1 H2] [H3 H4]. split; [congruence|].
    intros Hcl. rewrite H4 by congruence. by apply H2. }
  apply (recv_run_returns _ R (λ c c', uc_closed c = false → uc_read c' = uc_read c)); try done.
  - uring. intros c [] c' Hrun. unfold on_uc_out in Hrun.
    destruct (uring_resume_write fuel (uc_out c)) as [[[] u]| |] eqn:Hres; [|done|done].
    injection Hrun as <-. split; [by apply (uring_resume_preserves_closed fuel) in Hres|done].
  - uring. intros c suspended c' Hrun. unfold UringConnection_async_read, mbind, M_bind in Hrun.
    destruct (on_read_buf _ c) as [[sp c1]| |] eqn:Hget; [|done|done].
    assert (uc_closed c1 = uc_closed c) as Hcl1.
    { unfold on_read_buf in Hget. destruct (InputBuffer_get_buffer _) as [[? ?]| |]; [|done|done].
      by injection Hget as <- <-. }
    injection Hrun as <- <-. simpl. rewrite Hcl1. destruct (uc_closed c) eqn:Hcl; [|done]. simpl.
    split; [by rewrite Hcl|by rewrite Hcl].
  - intros c1 c2 c3 [H1 H2] H3 Hcl. rewrite H3 by congruence. by apply H2.
  - by intros c [] c' [= <-].
Qed.

(** *** Coroutines that wait *)

(** [W pc c]: the receiver is suspended at [pc] and will go on to bytes that come;
    [R c]: it has returned. *)
Record waits (fuel : nat) {Pb : Protobuf} (name2service_ : gmap string Service)
    (W : recv_pc → UringConn → Prop) (R : UringConn → Prop) : Prop := {
  waits_frame pc c : W pc c →
    ∃ out, (length out ≤ kWindow)%Z ∧ length out + 3 < fuel ∧ u_live fuel out c ∧ u_parked c ∧
      ∀ c', u_live fuel out c' → u_parked c' → uc_in c' = uc_in c → uc_rx c' = uc_rx c → W pc c';
  waits_resume pc c c' : W pc c → (∀ out, u_live fuel out c → u_live fuel out c') → same_input c c' →
    wp (recv_run name2service_ fuel pc) (λ x c2, match x with
      | Suspended pc' => W pc' c2
      | Returned _ => R c2
      end) c';
}.

Section uring_proofs.
Context {Pb : Protobuf} {PbLaws : ProtobufLaws} (name2service_ : gmap string Service).
Context (fuel : nat) (W : recv_pc → UringConn → Prop) (R : UringConn → Prop).
Hypothesis HW : waits fuel name2service_ W R.

(** A write completes in full while the receiver waits. *)
Lemma waiting_write pc c :
  W pc c → wp (on_uc_out (write_done fuel None)) (λ _ c', W pc c' ∧ uc_rx c' = uc_rx c) c.
Proof.
  intros Hpost. destruct (waits_frame _ _ _ _ HW _ _ Hpost) as (out & Hwin & Hlen & Hl & Hp & Hframe).
  unfold kWindow in *. apply wp_on_uc_out, wp_bind, wp_gets. eapply wp_mono.
  { apply (u_inv_complete fuel out); [apply Hl|lia|lia]. }
  intros [] u' [Hu _]. split; [|done]. apply Hframe; try done. by destruct Hl.
Qed.

(** A read completes, not with the end of the stream. *)
Lemma waiting_read pc a rest tail c :
  W pc c → uc_rx c = a :: (rest ++ tail) → keeps_on (a :: rest) → rx_bytes tail = [] →
  wp (on_completion name2service_ fuel pc ReadDone) (λ x c',
    match x with Suspended pc' => W pc' c' | Returned _ => R c' ∧ uc_read c' = None end ∧
    ∃ rest', uc_rx c' = rest' ++ tail ∧ keeps_on rest' ∧ rx_work rest' < rx_work (a :: rest)) c.
Proof.
  intros Hpost Hrx Hk Htail.
  destruct (waits_frame _ _ _ _ HW _ _ Hpost) as (out & _ & _ & Hl & Hp & _).
  assert (∀ out, u_live fuel out c → wp (uring_read_complete fuel) (λ r c', r = true ∧
    u_live fuel out c' ∧ same_input c c' ∧ uc_read c' = None ∧ ∃ rest', uc_rx c' = rest' ++ tail ∧
    keeps_on rest' ∧ rx_work rest' < rx_work (a :: rest)) c) as Hread
    by (intros; by apply wp_uring_read_complete).
  pose proof (Hread out Hl) as Hone.
  apply wp_done in Hone as (r & c1 & Hrun & -> & Hl1 & Hin1 & Hrd1 & rest' & Hrx1 & Hk1 & Hw1).
  unfold wp, on_completion. rewrite (bind_done _ _ _ _ _ Hrun).
  assert (wp (recv_run name2service_ fuel pc) (λ x c2, match x with
      | Suspended pc' => W pc' c2 | Returned _ => R c2 end) c1) as Hgo.
  { apply (waits_resume _ _ _ _ HW pc c); [done| |done].
    intros out' Hl'. specialize (Hread out' Hl'). unfold wp in Hread. rewrite Hrun in Hread. apply Hread. }
  apply (wp_follows (kept uc_rx)) in Hgo; [|apply uring_run_preserves].
  apply wp_done in Hgo as (x & c2 & Hrun2 & Hpost2 & Hrx2). rewrite Hrun2.
  split; [|exists rest'; by rewrite Hrx2]. destruct x as [pc'|[]]; [done|]. split; [done|].
  rewrite (uring_run_returns _ _ _ _ _ _ Hrun2); [done|done|]. exact (u_inv_open _ _ (ul_sender _ _ _ Hl1)).
Qed.

Lemma on_completions_app pc es1 es2 c pc' c' :
  on_completions name2service_ fuel pc es1 c = Done (Suspended pc', c') →
  on_completions name2service_ fuel pc (es1 ++ es2) c = on_completions name2service_ fuel pc' es2 c'.
Proof.
  revert pc c. induction es1 as [|e es1 IH]; intros pc c Hrun; [by injection Hrun as -> ->|].
  simpl in *. unfold mbind, M_bind in *.
  destruct (on_completion name2service_ fuel pc e c) as [[[pc1|] c1]| |]; try done; [by apply IH|].
  exfalso. clear IH pc c. revert c1 Hrun.
  induction es1 as [|[|res] es1 IH]; intros c1 Hrun; simpl in Hrun; [done|..];
    unfold mbind, M_bind in Hrun.
  - destruct (uring_read_complete fuel c1) as [[[] c2]| |]; try done. by eapply IH.
  - destruct (on_uc_out _ c1) as [[[] c2]| |]; try done. by eapply IH.
Qed.

(** Completions until what the kernel has before [tail] has been taken, or the
    receiver has returned. *)
Lemma on_completions_until es pc rest tail c :
  W pc c → uc_rx c = rest ++ tail → keeps_on rest → rx_bytes tail = [] → Forall in_full es →
  (∃ pc' c' rest', on_completions name2service_ fuel pc es c = Done (Suspended pc', c') ∧
     W pc' c' ∧ uc_rx c' = rest' ++ tail ∧ keeps_on rest' ∧ rx_work rest' + reads es ≤ rx_work rest) ∨
  (∃ es1 es2 pc' c', es = es1 ++ ReadDone :: es2 ∧
     on_completions name2service_ fuel pc es1 c = Done (Suspended pc', c') ∧ W pc' c' ∧ uc_rx c' = tail) ∨
  (∃ es1 es2 c', es = es1 ++ es2 ∧ R c' ∧ uc_read c' = None ∧
     ∀ es2, on_completions name2service_ fuel pc (es1 ++ es2) c = after_done fuel es2 c').
Proof.
  intros Hpost Hrx Hk Htail Hes. revert pc rest c Hpost Hrx Hk.
  induction es as [|e es IH]; intros pc rest c Hpost Hrx Hk.
  { left. exists pc, c, rest. split_and!; try done. unfold reads. simpl. lia. }
  apply Forall_cons in Hes as [He Hes].
  destruct (decide (e = ReadDone ∧ rest = [])) as [[-> ->]|Hne].
  { right. left. by exists [], es, pc, c. }
  assert (∃ x c1, on_completion name2service_ fuel pc e c = Done (x, c1) ∧
    match x with Suspended pc' => W pc' c1 | Returned _ => R c1 ∧ uc_read c1 = None end ∧
    ∃ rest1, uc_rx c1 = rest1 ++ tail ∧ keeps_on rest1 ∧ rx_work rest1 + reads [e] ≤ rx_work rest)
    as (x & c1 & Hrun & Hpost1 & rest1 & Hrx1 & Hk1 & Hw1).
  { destruct He as [->| ->]; [destruct rest as [|a rest]; [naive_solver|]|].
    - pose proof (waiting_read pc a rest tail c Hpost Hrx Hk Htail) as Hw.
      apply wp_done in Hw as (x & c1 & Hrun & Hpost1 & rest1 & Hrx1 & Hk1 & Hw1).
      exists x, c1. split_and!; [done|done|]. exists rest1. split_and!; try done. unfold reads. simpl. lia.
    - pose proof (waiting_write pc c Hpost) as Hw.
      apply wp_done in Hw as ([] & c1 & Hrun & Hpost1 & Hrx1). exists (Suspended pc), c1.
      split_and!; [|done|exists rest; rewrite Hrx1; split_and!; try done; unfold reads; simpl; lia].
      unfold on_completion. by rewrite (bind_done _ _ _ _ _ Hrun). }
  assert (reads (e :: es) = reads [e] + reads es) as Hreads
    by (unfold reads; rewrite !filter_cons; case_decide; done).
  destruct x as [pc1|[]].
  - destruct (IH Hes pc1 rest1 c1 Hpost1 Hrx1 Hk1)
      as [(pc2 & c2 & rest2 & Hrun2 & ? & ? & ? & ?)|[(es1 & es2 & pc2 & c2 & -> & Hrun2 & ? & ?)|
          (es1 & es2 & c2 & -> & ? & ? & Hrun2)]].
    + left. exists pc2, c2, rest2. simpl. rewrite (bind_done _ _ _ _ _ Hrun). split_and!; try done. lia.
    + right. left. exists (e :: es1), es2, pc2, c2. simpl. rewrite (bind_done _ _ _ _ _ Hrun). by split_and!.
    + right. right. exists (e :: es1), es2, c2. split_and!; try done.
      intros es3. simpl. rewrite (bind_done _ _ _ _ _ Hrun). apply Hrun2.
  - destruct Hpost1 as [HR Hrd]. right. right. exists [e], es, c1. split_and!; try done.
    intros es3. simpl. by rewrite (bind_done _ _ _ _ _ Hrun).
Qed.

(** With nothing more to read, reads do not complete. *)
Lemma on_completions_drained es pc c :
  W pc c → uc_rx c = [] → Forall in_full es →
  wp (on_completions name2service_ fuel pc es) (λ x c', ∃ pc', x = Suspended pc' ∧ W pc' c' ∧
    uc_rx c' = []) c.
Proof.
  revert pc c. induction es as [|e es IH]; intros pc c Hpost Hrx Hes; [apply wp_ret; by exists pc|].
  apply Forall_cons in Hes as [He Hes]. cbn [on_completions]. apply wp_bind. destruct He as [->| ->].
  - apply wp_bind. unfold uring_read_complete. apply wp_bind, wp_gets, wp_bind, wp_gets. rewrite Hrx.
    destruct (uc_read c); apply wp_ret, wp_ret; by apply IH.
  - apply wp_bind. eapply wp_mono; [by apply waiting_write|]. intros [] c1 [Hpost1 Hrx1].
    apply wp_ret, IH; [done|by rewrite Hrx1|done].
Qed.
End uring_proofs.

(** The server with requests that it accepts waits so, and never returns. *)
Lemma run_post_waits {Pb : Protobuf} {PbLaws : ProtobufLaws} name2service_ fuel calls replies future stop :
  4 * length calls + 4 < fuel → (length (concat replies) ≤ kWindow)%Z → length (concat replies) + 3 < fuel →
  waits fuel name2service_
    (λ pc c, run_post name2service_ fuel [] future stop calls replies (Suspended pc) c) (λ _, False).
Proof.
  intros Hfc Hwin Hf. split.
  - intros pc c Hpost.
    destruct (run_post_frame name2service_ _ _ _ _ _ _ _ Hpost) as (pc1 & out & [= <-] & Hlen & Hl & Hp & Hframe).
    exists out. uring_laws. split_and!; [lia|lia|done|done|]. intros c' Hl' Hp' Hin Hrx.
    apply (Hframe []); try done. by rewrite Hrx, app_nil_r.
  - intros pc c c' Hpost Hl [Hin Hcb]. eapply wp_mono.
    + apply (recv_resume_spec name2service_ fuel stop calls replies pc [] future c); try done.
      * intros out Hg _. by apply Hl.
      * by rewrite app_nil_r.
    + intros x c2 Hpost2. pose proof Hpost2 as (pc2 & ? & ? & ? & ? & ? & -> & _). exact Hpost2.
Qed.

(** ** The life of a connection *)
Section uring_life.
Context {Pb : Protobuf} {PbLaws : ProtobufLaws} (name2service_ : gmap string Service).

(** The sender has been started; the receiver is about to be. *)
Lemma uring_serve_live fuel answers :
  (length (rx_bytes answers) < 2 ^ 31 - 1)%Z → length (rx_bytes answers) + 2 < fuel → 10 < fuel →
  ∃ c, (∀ es, uring_serve name2service_ fuel es (UringConn_new answers) =
      (x ← recv_run name2service_ fuel AtHeaderLen;
       match x with Suspended pc => on_completions name2service_ fuel pc es | Returned _ => after_done fuel es end) c) ∧
    u_live fuel [] c ∧ incoming c = rx_bytes answers ∧ at_pos 0 c ∧ uc_rx c = answers ∧ uc_read c = None.
Proof.
  intros Hsm Hf Hf10. destruct input_inv_new as [Hin0 Hct0].
  assert (wp (on_uc_out (uring_send_fn fuel)) (λ _ c, u_inv [] (uc_out c) ∧
    uc_in c = InputBuffer_new ∧ uc_rx c = answers ∧ uc_read c = None) (UringConn_new answers)) as Hstart.
  { apply wp_on_uc_out. eapply wp_mono; [apply uring_starts; lia|]. by intros [] u Hu. }
  apply wp_done in Hstart as ([] & c & Hrun & Hu & Hi & Hrx & Hrd). exists c.
  assert (incoming c = rx_bytes answers) as Hinc
    by (unfold incoming; uring_laws; by rewrite Hi, Hrx, Hct0).
  split_and!; try done.
  - intros es. unfold uring_serve. rewrite (bind_done _ _ _ _ _ Hrun). unfold recv_fn. uring.
    by unfold mbind at 2, M_bind at 2, mret at 1, M_ret at 1.
  - unfold incoming in Hinc. uring_laws. split; rewrite ?Hinc, ?Hi; try done; simpl; lia.
  - unfold at_pos. uring. by rewrite Hi.
Qed.

(** The two coroutines have been started. *)
Lemma uring_serve_starts fuel calls replies answers future :
  let total := length (request_stream calls) in
  placed 0 calls → mapM (respond name2service_) calls = Some replies →
  rx_bytes answers ++ future = request_stream calls →
  (total < 2 ^ 31 - 1)%Z → total + 2 < fuel → 4 * length calls + 4 < fuel →
  (length (concat replies) ≤ kWindow)%Z → length (concat replies) + 10 < fuel →
  ∃ pc c, (∀ es, uring_serve name2service_ fuel es (UringConn_new answers) =
             on_completions name2service_ fuel pc es c) ∧
    run_post name2service_ fuel [] future total calls replies (Suspended pc) c ∧
    uc_rx c = answers.
Proof.
  intros total Hplaced Hresp Hbytes Hsm Hf Hfc Hwin Hfw.
  assert (length (rx_bytes answers) ≤ total) as Hle
    by (unfold total; rewrite <-Hbytes, length_app; lia).
  destruct (uring_serve_live fuel answers) as (c & Hrun & Hl & Hinc & Hpos & Hrx & _); [lia..|].
  assert (wp (recv_run name2service_ fuel AtHeaderLen)
    (run_post name2service_ fuel [] future total calls replies) c) as Hgo.
  { pose proof (recv_run_spec name2service_ fuel fuel calls replies AtHeaderLen 0 [] future c) as Hspec.
    rewrite Hinc, Hbytes in Hspec. simpl in Hspec. apply Hspec; try done; [by apply at_point_start| |lia].
    pose proof (point_left_start calls). lia. }
  apply (wp_follows (kept uc_rx)) in Hgo; [|apply uring_run_preserves].
  apply wp_done in Hgo as (x & c1 & Hrun1 & Hpost & Hrx1).
  pose proof Hpost as (pc & ? & ? & ? & ? & ? & -> & _). exists pc, c1. split_and!; [|done|congruence].
  intros es. rewrite Hrun. by rewrite (bind_done _ _ _ _ _ Hrun1).
Qed.

Lemma uring_serve_spec fuel calls replies answers es :
  let total := length (request_stream calls) in
  placed 0 calls → mapM (respond name2service_) calls = Some replies →
  rx_bytes answers = request_stream calls → keeps_on answers →
  Forall in_full es → rx_work answers ≤ reads es →
  (total < 2 ^ 31 - 1)%Z → total + 2 < fuel → 4 * length calls + 4 < fuel →
  (length (concat replies) ≤ kWindow)%Z → length (concat replies) + 10 < fuel →
  wp (uring_serve name2service_ fuel es) (λ x c, x = Suspended AtHeaderLen ∧
    uc_unread c = [] ∧ u_inv (concat replies) (uc_out c)) (UringConn_new answers).
Proof.
  intros total Hplaced Hresp Hbytes Hk Hes Hreads Hsm Hf Hfc Hwin Hfw.
  destruct (uring_serve_starts fuel calls replies answers []) as (pc & c & Hrun & Hpost & Hrx);
    try done; [by rewrite app_nil_r|].
  assert (length (concat replies) + 3 < fuel) as Hfw' by lia.
  assert (∃ x c1, on_completions name2service_ fuel pc es c = Done (x, c1) ∧
    run_post name2service_ fuel [] [] total calls replies x c1 ∧ uc_rx c1 = [])
    as (x & c1 & Hrun1 & Hpost1 & Hrx1).
  { pose proof (run_post_waits name2service_ fuel calls replies [] total Hfc Hwin Hfw') as HW.
    destruct (on_completions_until name2service_ fuel _ _ HW es pc answers [] c)
      as [(pc' & c' & rest' & Hrun' & Hpost' & Hrx' & _ & Hw)|[(es1 & es2 & pc' & c' & -> & Hrun' & Hpost' & Hrx')|
          (? & ? & ? & _ & [] & _)]]; try done; [by rewrite app_nil_r| |].
    - exists (Suspended pc'), c'. split_and!; try done. rewrite Hrx', app_nil_r.
      unfold rx_work in Hw, Hreads. destruct rest'; [done|simpl in Hw; lia].
    - apply Forall_app in Hes as [_ Hes]. rewrite (on_completions_app _ _ _ _ _ _ _ _ Hrun').
      pose proof (on_completions_drained name2service_ fuel _ _ HW _ _ _ Hpost' Hrx' Hes) as Hd.
      apply wp_done in Hd as (x & c1 & Hrun1 & pc1 & -> & Hpost1 & Hrx1). by eexists _, c1. }
  unfold wp. rewrite Hrun, Hrun1.
  apply (run_post_done name2service_) in Hpost1 as (-> & Hl & Hin & _); [|uring_laws; by rewrite Hrx1].
  unfold incoming in Hin. uring_laws. apply app_nil in Hin as [Hun _]. split_and!; [done|done|apply Hl].
Qed.

(** ** The peer hangs up *)

(** The receiver, resumed on a closed connection with too few bytes. *)
Lemma uring_resume_closed fuel pc c :
  input_inv (uc_in c) → uc_closed c = true → (length (uc_unread c) < pc_need pc)%Z →
  (length (uc_unread c) < 2 ^ 31)%Z → 0 < fuel →
  recv_run name2service_ fuel pc c = if in_body pc then OutOfFuel else Done (Returned tt, c).
Proof.
  intros Hi Hcl Hneed Hsm Hf.
  pose proof (read_bytes_contents c Hi ltac:(uring; lia)) as Hb.
  assert (recv_step name2service_ fuel pc c =
    if in_body pc then OutOfFuel else Done (inr (Returned tt), c)) as Hstep.
  { destruct pc as [|n|h|h m n]; cbn [in_body pc_need recv_step] in *;
      [apply wait_then_closed; [done|done|by rewrite Hb]..|].
    apply bind_diverges, uring_wait_closed; [done|done|done|lia]. }
  unfold recv_run. destruct fuel as [|fuel]; [lia|]. cbn [iter]. unfold mbind, M_bind at 1.
  rewrite Hstep. by destruct (in_body pc).
Qed.

(** Both coroutines have returned, or will when the write in flight has completed. *)
Lemma after_done_ended fuel out es c :
  u_ended out (uc_out c) → uc_read c = None → Forall in_full es →
  (length out ≤ kWindow)%Z → length out + 3 < fuel →
  wp (after_done fuel es) (λ x c', x = Returned tt ∧ u_ended out (uc_out c') ∧
    (u_send (uc_out c) = SendDone ∨ WriteDone None ∈ es → u_send (uc_out c') = SendDone)) c.
Proof.
  intros He Hrd Hes Hwin Hf. revert c He Hrd.
  induction es as [|e es IH]; intros c He Hrd; [apply wp_ret; split_and!; [done|done|set_solver]|].
  apply Forall_cons in Hes as [[->| ->] Hes]; simpl; apply wp_bind.
  - unfold uring_read_complete. apply wp_bind, wp_gets, wp_bind, wp_gets. rewrite Hrd. apply wp_ret.
    eapply wp_mono; [by apply IH|]. intros x c' (-> & ? & Hd). split_and!; [done|done|].
    intros Hor. apply Hd. set_solver.
  - apply wp_on_uc_out, wp_bind, wp_gets. eapply wp_mono; [by apply u_ended_complete|].
    intros [] u' (He' & Hd' & _). eapply wp_mono; [by apply IH|].
    intros x c' (-> & ? & Hd). split_and!; [done|done|]. intros _. apply Hd. by left.
Qed.

Lemma uring_hangs_up fuel calls replies k reply part answers es :
  let stream := request_stream (calls ++ [k]) in
  placed 0 (calls ++ [k]) → mapM (respond name2service_) calls = Some replies →
  respond name2service_ k = Some reply →
  part `prefix_of` request_frame k → part ≠ request_frame k →
  rx_bytes answers = request_stream calls ++ part → keeps_on answers →
  Forall in_full es → rx_work answers < reads es →
  (length stream < 2 ^ 31 - 1)%Z → length stream + 2 < fuel → 4 * length calls + 8 < fuel →
  (length (concat replies ++ reply) ≤ kWindow)%Z → length (concat replies ++ reply) + 10 < fuel →
  let s := UringConn_new (answers ++ [RdEof]) in
  if decide (length part < 8 + length (header_encode k.1))
  then wp (uring_serve name2service_ fuel es) (λ x c, x = Returned tt ∧
    u_ended (concat replies) (uc_out c)) s
  else uring_serve name2service_ fuel es s = OutOfFuel.
Proof.
  intros stream Hplaced Hreplies Hreply [future Hpart] Hne Hbytes Hk Hes Hreads Hsm Hf Hfc Hwin Hfw s.
  pose proof Hwin as Hwin1. pose proof Hfw as Hfw1. rewrite length_app in Hwin1, Hfw1.
  assert (mapM (respond name2service_) (calls ++ [k]) = Some (replies ++ [reply])) as Hall.
  { apply mapM_Some, Forall2_app; [by apply mapM_Some|]. by repeat constructor. }
  assert (concat (replies ++ [reply]) = concat replies ++ reply) as Hcat
    by (rewrite concat_app; simpl; by rewrite app_nil_r).
  assert (rx_bytes (answers ++ [RdEof]) = rx_bytes answers) as Hrxb
    by (unfold rx_bytes; rewrite fmap_app, concat_app; simpl; by rewrite app_nil_r).
  assert (future ≠ []) as Hfut by (intros ->; rewrite app_nil_r in Hpart; by subst).
  assert (4 * length (calls ++ [k]) + 4 < fuel) as Hfc' by (rewrite length_app; simpl; lia).
  destruct (uring_serve_starts fuel (calls ++ [k]) (replies ++ [reply]) (answers ++ [RdEof]) future)
    as (pc & c & Hrun & Hpost & Hrx); rewrite ?Hcat; try done.
  { by rewrite Hrxb, Hbytes, <-app_assoc, <-Hpart, request_stream_app, request_stream_one. }
  rewrite Hrun. unfold wp. rewrite Hrun.
  pose proof (run_post_waits name2service_ fuel (calls ++ [k]) (replies ++ [reply]) future
    (length stream) Hfc' ltac:(by rewrite Hcat) ltac:(rewrite Hcat; lia)) as HW.
  destruct (on_completions_until name2service_ fuel _ _ HW es pc answers [RdEof] c)
    as [(pc' & c' & rest' & _ & _ & _ & _ & Hw)|[(es1 & es2 & pc1 & c1 & -> & Hrun1 & Hpost1 & Hrx1)|
        (? & ? & ? & _ & [] & _)]]; try done; [lia|].
  rewrite (on_completions_app _ _ _ _ _ _ _ _ Hrun1). apply Forall_app in Hes as [_ [_ Hes]%Forall_cons].
  apply (run_post_cut name2service_ _ _ calls replies k _ part) in Hpost1
    as (pc2 & [= <-] & Hl1 & Hp1 & Hneed1 & Hbody); try done; [|uring_laws; by rewrite Hrx1].
  uring_laws. pose proof (wp_uring_eof fuel _ [] c1 Hl1 Hp1 Hrx1) as Heof.
  apply wp_done in Heof as (r & c2 & Hrun2 & -> & Hin2 & _ & Hrd2 & He2).
  pose proof (ul_small _ _ _ Hl1) as Hsm1. rewrite length_app in Hsm1. pose proof He2 as (Hcl2 & _).
  cbn [on_completions on_completion].
  assert ((completed ← uring_read_complete fuel;
    if (completed : bool) then recv_run name2service_ fuel pc1 else mret (Suspended pc1)) c1 =
    if in_body pc1 then OutOfFuel else Done (Returned tt, c2)) as Hres.
  { rewrite (bind_done _ _ _ _ _ Hrun2). apply uring_resume_closed; rewrite ?Hin2; try done; try lia.
    apply Hl1. }
  rewrite Hbody in Hres. clear Hbody. case_bool_decide as Hle; case_decide as Hlt; [lia| | |lia]; cycle 1.
  - rewrite (bind_done _ _ _ _ _ Hres).
    pose proof (after_done_ended fuel (concat replies) es2 c2 He2 Hrd2 Hes ltac:(lia) ltac:(lia)) as Hend.
    eapply wp_mono in Hend; [exact Hend|]. by intros x c3 (-> & ? & _).
  - by apply bind_diverges.
Qed.

(** ** A refused request *)

(** The receiver has closed the connection: the sender waits for data that no one will
    put there, or for the write in flight, or it has returned. *)
Definition u_refused (out : list cell) (u : Uring) : Prop :=
  (u_closed u = true ∧ u_send u = SendWaiting ∧ inflight u = None ∧ u_wire u = out) ∨ u_ended out u.

Lemma shut_refused fuel out (c' : UringConn) : shut fuel out c' → u_refused out (uc_out c').
Proof.
  intros (c & c1 & Hl & Hc1 & Hrun). uring. unfold on_uc_out in Hrun. simpl in Hrun. injection Hrun as <-.
  simpl. assert (uc_out c1 = uc_out c) as -> by (by destruct Hc1 as [->|[b ->]]).
  destruct (ul_sender _ _ _ Hl) as (Ho & Hout & [(Hfl & Hst & _ & Hnil & _)|(bytes & Hfl & Hst & Hbl & Hne & Hpre & _)]).
  - left. simpl. rewrite Hnil, app_nil_r in Hout. by split_and!.
  - right. split_and!; try done. simpl. rewrite Hst. by exists bytes.
Qed.

Lemma after_done_refused fuel out es c :
  u_refused out (uc_out c) → uc_read c = None → Forall in_full es →
  (length out ≤ kWindow)%Z → length out + 3 < fuel →
  wp (after_done fuel es) (λ x c', x = Returned tt ∧ u_refused out (uc_out c') ∧
    (u_send (uc_out c) = SendWaiting → c' = c)) c.
Proof.
  intros Hu Hrd Hes Hwin Hf. destruct Hu as [(Hcl & Hst & Hfl & Hw)|He].
  - assert (∀ es, Forall in_full es → after_done fuel es c = Done (Returned tt, c)) as Hstuck.
    { clear es Hes. intros es Hes. induction Hes as [|e es [->| ->] _ IH]; [done|..]; cbn [after_done].
      - rewrite (bind_done _ _ _ false c); [done|]. unfold uring_read_complete, mbind, M_bind, gets. by rewrite Hrd.
      - rewrite (bind_done _ _ _ tt c); [done|]. unfold on_uc_out, write_done, uring_complete, mbind, M_bind, gets.
        rewrite Hfl. simpl. by destruct c. }
    unfold wp. rewrite Hstuck by done. split_and!; [done| |done]. by left.
  - eapply wp_mono; [by apply (after_done_ended fuel out)|]. intros x c' (-> & He' & _).
    split_and!; [done|by right|]. destruct He as (_ & _ & _ & Hst). intros Hco. by rewrite Hco in Hst.
Qed.

Lemma after_done_no_read fuel es c x c' :
  uc_read c = None → after_done fuel es c = Done (x, c') → uc_read c' = None.
Proof.
  revert c. induction es as [|[|res] es IH]; intros c Hrd; cbn [after_done]; [by intros [= _ <-]|..].
  - rewrite (bind_done _ _ _ false c); [by apply IH|]. unfold uring_read_complete, mbind, M_bind, gets. by rewrite Hrd.
  - unfold on_uc_out, mbind at 1, M_bind at 1.
    destruct (write_done fuel res (uc_out c)) as [[[] u]| |]; [by apply IH|done|done].
Qed.

(** The server on its way to a refused request. *)
Lemma refuse_post_waits fuel calls replies k rest :
  respond name2service_ k = None → 4 * length calls + 8 < fuel →
  (length (concat replies) ≤ kWindow)%Z → length (concat replies) + 3 < fuel →
  waits fuel name2service_
    (λ pc c, refuse_post name2service_ fuel [] [] calls replies k rest (Suspended pc) c)
    (λ c, u_refused (concat replies) (uc_out c)).
Proof.
  intros Hk Hfc Hwin Hf. split.
  - intros pc c Hpost.
    destruct (refuse_post_frame name2service_ _ _ _ _ _ _ _ _ Hpost) as (out & Hlen & Hl & Hp & Hframe).
    exists out. uring_laws. split_and!; [lia|lia|done|done|]. intros c' Hl' Hp' Hin Hrx.
    apply Hframe; try done. by rewrite Hrx.
  - intros pc c c' Hpost Hl [Hin Hcb]. eapply wp_mono.
    + apply (refuse_resume_spec name2service_ fuel calls replies k rest pc [] [] c); try done.
      * intros out Hg _. by apply Hl.
      * by rewrite app_nil_r.
    + intros [pc2|[]] c2 Hpost2; [done|]. by apply (shut_refused fuel).
Qed.

(** What becomes of the sender: it is never resumed again, or it returns with the
    write in flight, or has returned. *)
Lemma refused_ends fuel out c :
  u_refused out (uc_out c) → uc_read c = None → (length out ≤ kWindow)%Z → length out + 3 < fuel →
  uc_closed c = true ∧ u_wire (uc_out c) `prefix_of` out ∧
  match u_send (uc_out c) with
  | SendWaiting => u_wire (uc_out c) = out ∧
      ∀ es, Forall in_full es → after_done fuel es c = Done (Returned tt, c)
  | SendWriting => wp (write_done fuel None) (λ _ u, u_send u = SendDone) (uc_out c)
  | SendDone => True
  | SendNotStarted => False
  end.
Proof.
  intros Hu Hrd Hwin Hf. pose proof Hu as [(Hcl & Hst & _ & Hw)|(Hcl & Ho & Hout & Hst)].
  - rewrite Hst. split_and!; [done|by rewrite Hw|done|]. intros es Hes.
    pose proof (after_done_refused fuel out es c Hu Hrd Hes Hwin Hf) as Hd.
    apply wp_done in Hd as (x & c' & -> & -> & _ & Hsame). by rewrite Hsame.
  - split_and!; [done|by eexists|]. destruct (u_send (uc_out c)) eqn:Hco; try done.
    destruct Hst as (bytes & Hfl & Hrest). apply wp_bind, wp_gets.
    eapply wp_mono; [apply (u_ended_complete fuel out); [|done|done]|by intros [] u (_ & ? & _)].
    split_and!; try done. rewrite Hco. by exists bytes.
Qed.

(** Any complete requests, a request that is refused and anything behind it: the
    receiver returns, and no read is left submitted. *)
Lemma uring_refuses fuel calls replies k rest answers es :
  let stream := request_stream (calls ++ [k]) ++ rest in
  placed 0 (calls ++ [k]) → mapM (respond name2service_) calls = Some replies →
  respond name2service_ k = None →
  rx_bytes answers = stream → keeps_on answers → Forall in_full es → rx_work answers ≤ reads es →
  (length stream < 2 ^ 31 - 1)%Z → length stream + 2 < fuel → 4 * length calls + 8 < fuel →
  (length (concat replies) ≤ kWindow)%Z → length (concat replies) + 10 < fuel →
  wp (uring_serve name2service_ fuel es) (λ x c, x = Returned tt ∧ u_refused (concat replies) (uc_out c) ∧
    uc_read c = None) (UringConn_new answers).
Proof.
  intros stream Hplaced Hreplies Hk Hbytes Hkeep Hes Hreads Hsm Hf Hfc Hwin Hfw.
  destruct (uring_serve_live fuel answers) as (c & Hrun & Hl & Hinc & Hpos & Hrx & Hrd);
    [by rewrite Hbytes|by rewrite Hbytes|lia|].
  unfold wp. rewrite Hrun. clear Hrun.
  assert (wp (recv_run name2service_ fuel AtHeaderLen)
    (refuse_post name2service_ fuel [] [] calls replies k rest) c) as Hgo.
  { apply (recv_run_refused name2service_ fuel fuel calls replies k rest AtHeaderLen 0); try done; [| |simpl; lia].
    - rewrite app_nil_r, Hinc, Hbytes. by apply toward_start.
    - unfold toward_left. simpl. lia. }
  apply (wp_follows (kept uc_rx)) in Hgo; [|apply uring_run_preserves].
  apply wp_done in Hgo as (x & c1 & Hrun & Hpost & Hrx1). rewrite (bind_done _ _ _ _ _ Hrun).
  assert (∀ es c, Forall in_full es → u_refused (concat replies) (uc_out c) → uc_read c = None →
    wp (after_done fuel es) (λ x c, x = Returned tt ∧ u_refused (concat replies) (uc_out c) ∧ uc_read c = None) c)
    as Hend.
  { intros es' c' Hes' Hu Hrd'.
    pose proof (after_done_refused fuel (concat replies) es' c' Hu Hrd' Hes' Hwin ltac:(lia)) as Hd.
    apply wp_done in Hd as (y & c2 & Hrun2 & -> & Hu2 & _). unfold wp. rewrite Hrun2. split_and!; [done|done|].
    by eapply after_done_no_read. }
  destruct x as [pc|[]]; cycle 1.
  { apply Hend; [done|by apply (shut_refused fuel)|].
    rewrite (uring_run_returns _ _ _ _ _ _ Hrun); [done|done|exact (u_inv_open _ _ (ul_sender _ _ _ Hl))]. }
  pose proof (refuse_post_waits fuel calls replies k rest Hk Hfc Hwin ltac:(lia)) as HW.
  assert (∀ pc c, uc_rx c = [] →
    ¬ refuse_post name2service_ fuel [] [] calls replies k rest (Suspended pc) c) as Hmissing.
  { intros pc' c' Hnil Hp. apply (refuse_post_missing name2service_) in Hp. uring_laws. by rewrite Hnil in Hp. }
  destruct (on_completions_until name2service_ fuel _ _ HW es pc answers [] c1)
    as [(pc' & c' & rest' & _ & Hpost' & Hrx' & _ & Hw)|[(es1 & es2 & pc' & c' & -> & _ & Hpost' & Hrx')|
        (es1 & es2 & c' & -> & Hu & Hrd' & Hrun')]]; try done; [by rewrite app_nil_r, Hrx1| | |].
  - exfalso. apply (Hmissing pc' c'); [|done]. rewrite Hrx', app_nil_r.
    unfold rx_work in Hw, Hreads. destruct rest'; [done|simpl in Hw; lia].
  - by apply (Hmissing pc' c') in Hrx'.
  - rewrite Hrun'. apply Hend; try done. by apply Forall_app in Hes as [_ ?].
Qed.
End uring_life.
