(* ===== verification/Executor.v ===== *)
(** * Executors (scheduler/epoll_exector.cc, kqueue_executor.cc,
      uring_exector.cc)

    An executor is a thread that runs the tasks of a queue and sleeps in a system
    call when there are none.  [spawn], on any thread, pushes a task and wakes the
    executor if it is needed: the executor sets [should_notify_] before it goes to
    sleep, and the spawner that finds it set clears it and signals the executor's
    event.  The three executors share this protocol and differ in what the event
    is and when it is cleared.

    One transition is one access to the shared state; accesses are sequentially
    consistent.  The task queue is a list here, pushed and popped atomically: the
    queue's own interleavings are the subject of [Mpmc].  A task is opaque.  The
    network is an environment that may end the sleep at any time. *)
From S2P Require Import Prelude.

Inductive backend := EPOLL | KQUEUE | URING.
#[export] Instance backend_eq_dec : EqDecision backend.
Proof. solve_decision. Defined.

Section executor.
Context {Task : Type} (b : backend) (timeout : Z).

(** Where the executor's thread stands. *)
Inductive exec_pc :=
  | LoopTop                 (** at [while (!stop_)] *)
  | Drain                   (** at [while (task_queue_.pop(task))] *)
  | Arm                     (** the queue was found empty *)
  | Sleeping                (** in [epoll_wait], [kevent], [io_uring_wait_cqe] *)
  | Handle (notified : bool)  (** awake; [notified]: the event was reported *)
  | Exited.

(** Where a call of [spawn] stands. *)
Inductive spawn_pc :=
  | AtPush (t : Task)
  | AtCas
  | AtSignal
  | SpawnReturned (ok : bool).

Record State := mkState {
  at_ : exec_pc;
  task_queue_ : list Task;
  should_notify_ : bool;
  event : bool;                       (** the event is signalled *)
  stop_ : bool;
  spawners : gmap nat spawn_pc;       (** the calls of [spawn] so far *)
  ran : list Task;                    (** history: tasks run *)
  pushed : list Task;                 (** history: tasks pushed *)
  missed : bool;                      (** history: the queue was not empty when
                                          [should_notify_] was last set *)
}.

Definition set_at p s := mkState p (task_queue_ s) (should_notify_ s) (event s) (stop_ s) (spawners s) (ran s) (pushed s) (missed s).
Definition set_notify n s := mkState (at_ s) (task_queue_ s) n (event s) (stop_ s) (spawners s) (ran s) (pushed s) (missed s).
Definition set_event e s := mkState (at_ s) (task_queue_ s) (should_notify_ s) e (stop_ s) (spawners s) (ran s) (pushed s) (missed s).
Definition set_stop st s := mkState (at_ s) (task_queue_ s) (should_notify_ s) (event s) st (spawners s) (ran s) (pushed s) (missed s).
Definition set_missed m s := mkState (at_ s) (task_queue_ s) (should_notify_ s) (event s) (stop_ s) (spawners s) (ran s) (pushed s) m.
Definition set_spawner i p s := mkState (at_ s) (task_queue_ s) (should_notify_ s) (event s) (stop_ s) (<[i := p]> (spawners s)) (ran s) (pushed s) (missed s).
Definition push_task t s := mkState (at_ s) (task_queue_ s ++ [t]) (should_notify_ s) (event s) (stop_ s) (spawners s) (ran s) (pushed s ++ [t]) (missed s).
Definition run_task t q s := mkState (at_ s) q (should_notify_ s) (event s) (stop_ s) (spawners s) (ran s ++ [t]) (pushed s) (missed s).

(** The constructors, with [stop_] false; the kqueue executor starts with
    [should_notify_] set. *)
Definition exec_new : State :=
  mkState LoopTop [] (bool_decide (b = KQUEUE)) false false ∅ [] [] false.

(** One transition of the executor's thread; [None] when it is asleep and stays
    so.  [net] says that the network, or an interrupted call, ends the sleep,
    [expired] that the timeout does; [io_uring_wait_cqe] has none. *)
Definition exec_step (net expired : bool) (s : State) : option State :=
  match at_ s with
  | LoopTop => Some (set_at (if stop_ s then Exited else Drain) s)
  | Drain =>
      match task_queue_ s with
      | t :: q => Some (run_task t q s)
      | [] => Some (set_at Arm s)
      end
  | Arm =>
      Some (set_at Sleeping (set_notify true
        (set_missed (match task_queue_ s with [] => false | _ => true end) s)))
  | Sleeping =>
      if event s then
        (** kqueue and io_uring take the event out when they report it *)
        let s := if decide (b = EPOLL) then s else set_event false s in
        Some (set_at (Handle true) s)
      else if net then Some (set_at (Handle false) s)
      else if expired && bool_decide (0 ≤ timeout)%Z && bool_decide (b ≠ URING)
      then Some (set_at (Handle false) s)
      else None
  | Handle notified =>
      let s := if (notified : bool) then
                 (** epoll: the event is cleared by reading the eventfd *)
                 let s := if decide (b = EPOLL) then set_event false s else s in
                 set_notify false s
               else s in
      Some (set_at LoopTop s)
  | Exited => None
  end.

(** One transition of a call of [spawn].  [signal_ok]: the system call that
    signals the event succeeds; only the kqueue executor looks at that. *)
Definition spawn_step (signal_ok : bool) (i : nat) (s : State) : option State :=
  match spawners s !! i with
  | Some (AtPush t) => Some (set_spawner i AtCas (push_task t s))
  | Some AtCas =>
      if should_notify_ s
      then Some (set_spawner i AtSignal (set_notify false s))
      else Some (set_spawner i (SpawnReturned true) s)
  | Some AtSignal =>
      if (signal_ok : bool)
      then Some (set_spawner i (SpawnReturned true) (set_event true s))
      else if decide (b = KQUEUE)
      then Some (set_spawner i (SpawnReturned false) (set_notify true s))
      else Some (set_spawner i (SpawnReturned true) s)
  | _ => None
  end.

(** [stop]; only the kqueue executor signals its thread. *)
Definition exec_stop (s : State) : State :=
  let s := set_stop true s in
  if decide (b = KQUEUE) then set_event true s else s.

(** ** Runs *)
Inductive action :=
  | AExec (net expired : bool)
  | ACall (i : nat) (t : Task)        (** a thread calls [spawn(t)] *)
  | ASpawn (i : nat)
  | AStop.

(** A transition of the whole system, with signals that succeed. *)
Definition act (a : action) (s : State) : option State :=
  match a with
  | AExec net expired => exec_step net expired s
  | ACall i t =>
      match spawners s !! i with
      | None => Some (set_spawner i (AtPush t) s)
      | Some _ => None
      end
  | ASpawn i => spawn_step true i s
  | AStop => Some (exec_stop s)
  end.

Inductive reachable : State → Prop :=
  | reach_new : reachable exec_new
  | reach_act s a s' : reachable s → act a s = Some s' → reachable s'.

Fixpoint run (acts : list action) (s : State) : option State :=
  match acts with
  | [] => Some s
  | a :: acts => s' ← act a s; run acts s'
  end.

Lemma exec_run_reachable acts s s' : reachable s → run acts s = Some s' → reachable s'.
Proof.
  revert s. induction acts as [|a acts IH]; intros s Hs; simpl; [by intros [= <-]|].
  intros (s1 & H1 & H2)%bind_Some. eapply IH; [|done]. by eapply reach_act.
Qed.

(** ** Tasks run once each, in the order of their pushes *)
Lemma fifo_inv s : reachable s → ran s ++ task_queue_ s = pushed s.
Proof.
  induction 1 as [|s a s' _ IH Hact]; [done|]. destruct a as [net expired|i t|i|]; simpl in Hact.
  - unfold exec_step in Hact. destruct (at_ s) as [| | | |[]|]; simpl in Hact; simplify_eq/=; try done.
    + destruct (task_queue_ s) as [|t q] eqn:Hq; simplify_eq/=; [by rewrite Hq|].
      by rewrite <-app_assoc.
    + repeat case_match; simplify_eq/=; done.
    + by case_decide.
  - case_match; simplify_eq/=; done.
  - unfold spawn_step in Hact. repeat case_match; simplify_eq/=; try done.
    by rewrite <-IH, app_assoc.
  - simplify_eq/=. unfold exec_stop. by case_decide.
Qed.

(** ** Waking up *)
Definition calling (p : spawn_pc → Prop) (s : State) : Prop :=
  ∃ i q, spawners s !! i = Some q ∧ p q.

(** A spawner that cleared [should_notify_] signals the event; a task pushed
    before is not forgotten by its spawner; what is left is a task that was
    pushed between the last look at the queue and the setting of
    [should_notify_]. *)
Definition wake_inv (s : State) : Prop :=
  at_ s = Sleeping →
  (should_notify_ s = false → event s = true ∨ calling (λ q, q = AtSignal) s) ∧
  (task_queue_ s ≠ [] → missed s = false →
     event s = true ∨ calling (λ q, q = AtSignal ∨ q = AtCas) s).

Lemma calling_other p i q s :
  (∀ q', spawners s !! i = Some q' → ¬ p q') → calling p s → calling p (set_spawner i q s).
Proof.
  intros Hi (j & r & Hj & Hr). exists j, r. split; [|done]. simpl.
  rewrite lookup_insert_ne; [done|]. intros ->. by apply (Hi r).
Qed.

Lemma calling_self (p : spawn_pc → Prop) i q s : p q → calling p (set_spawner i q s).
Proof. intros Hq. exists i, q. split; [apply lookup_insert_eq|done]. Qed.

Lemma calling_mono (p q : spawn_pc → Prop) s :
  (∀ x, p x → q x) → calling p s → calling q s.
Proof. intros Hpq (i & r & Hi & Hr). exists i, r. auto. Qed.

Lemma exec_step_wake net expired s s' :
  exec_step net expired s = Some s' → wake_inv s'.
Proof.
  unfold exec_step, wake_inv. intros Hact.
  destruct (at_ s) as [| | | |[]|] eqn:Hpc; simpl in Hact; simplify_eq/=.
  - by case_match.
  - intros Hat. destruct (task_queue_ s); simplify_eq/=. congruence.
  - intros _. split; [done|]. by destruct (task_queue_ s).
  - repeat case_match; simplify_eq/=; done.
  - done.
  - done.
Qed.

Lemma spawn_step_wake i s s' :
  wake_inv s → spawn_step true i s = Some s' → wake_inv s'.
Proof.
  unfold spawn_step, wake_inv. intros Hinv Hact.
  destruct (spawners s !! i) as [[t| | |]|] eqn:Hi; try done.
  - simplify_eq/=. intros Hat. destruct (Hinv Hat) as [H1 H2]. split.
    + intros Hn. destruct (H1 Hn) as [?|Hc]; [by left|right].
      apply (calling_other _ i AtCas (push_task t s)); [|done].
      simpl. intros q' Hq' ->. by rewrite Hi in Hq'.
    + intros _ _. right. apply calling_self. by right.
  - destruct (should_notify_ s) eqn:Hn; simplify_eq/=; intros Hat; destruct (Hinv Hat) as [H1 H2].
    + split; intros; right; apply calling_self; auto.
    + rewrite Hn. assert (∀ q', spawners s !! i = Some q' → q' ≠ AtSignal) as Hne
        by (intros q' Hq' ->; by rewrite Hi in Hq').
      split; intros _; [|intros _]; (destruct (H1 eq_refl) as [?|Hc]; [by left|right]).
      * by apply calling_other.
      * apply (calling_mono (λ q, q = AtSignal)); [naive_solver|]. by apply calling_other.
  - simplify_eq/=. intros _. split; intros; by left.
Qed.

Lemma reachable_wake s : reachable s → wake_inv s.
Proof.
  induction 1 as [|s a s' _ IH Hact]; [done|]. destruct a as [net expired|i t|i|]; simpl in Hact.
  - by eapply exec_step_wake.
  - destruct (spawners s !! i) eqn:Hi; simplify_eq/=. unfold wake_inv in *. simpl. intros Hat.
    destruct (IH Hat) as [H1 H2].
    split; [intros Hn; destruct (H1 Hn)|intros Hq Hm; destruct (H2 Hq Hm)]; try (by left); right;
      apply calling_other; congruence.
  - by eapply spawn_step_wake.
  - simplify_eq/=. unfold wake_inv, exec_stop in *.
    case_decide; simpl; intros Hat; [split; intros; by left|]. by apply IH.
Qed.

(** ** Progress *)

(** [n] transitions of the executor's thread, with a silent network. *)
Fixpoint exec_steps (n : nat) (s : State) : option State :=
  match n with
  | 0 => Some s
  | S n => s' ← exec_step false false s; exec_steps n s'
  end.

Lemma exec_drain_queue q s :
  at_ s = Drain → task_queue_ s = q →
  exec_steps (length q) s =
    Some (mkState Drain [] (should_notify_ s) (event s) (stop_ s) (spawners s)
            (ran s ++ q) (pushed s) (missed s)).
Proof.
  revert s. induction q as [|t q IH]; intros s Hat Hq; simpl.
  - destruct s. simpl in *. subst. by rewrite app_nil_r.
  - unfold exec_step at 1. rewrite Hat, Hq. simpl. rewrite IH by done. simpl.
    by rewrite <-app_assoc.
Qed.

Lemma exec_steps_app n m s : exec_steps (n + m) s = exec_steps n s ≫= exec_steps m.
Proof.
  revert s. induction n as [|n IH]; intros s; [done|]. simpl.
  destruct (exec_step false false s); simpl; [apply IH|done].
Qed.

(** A signalled executor that is asleep and not stopped runs everything in the
    queue and goes to sleep again. *)
Lemma exec_wakes s :
  at_ s = Sleeping → event s = true → stop_ s = false →
  exec_steps (5 + length (task_queue_ s)) s =
    Some (mkState Sleeping [] true false false (spawners s) (ran s ++ task_queue_ s)
            (pushed s) false).
Proof.
  intros Hat Hev Hst. replace (5 + length (task_queue_ s)) with (3 + (length (task_queue_ s) + 2)) by lia.
  rewrite exec_steps_app.
  assert (exec_steps 3 s = Some (mkState Drain (task_queue_ s) false false false (spawners s)
    (ran s) (pushed s) (missed s))) as ->.
  { destruct s. simpl in *. subst. unfold exec_step. simpl.
    destruct (decide (b = EPOLL)); simpl; by rewrite ?decide_True, ?decide_False by done. }
  cbn [mbind option_bind]. rewrite exec_steps_app.
  by rewrite (exec_drain_queue (task_queue_ s)).
Qed.

Lemma spawner_self i p s : spawners (set_spawner i p s) !! i = Some p.
Proof. apply lookup_insert_eq. Qed.

(** A whole call of [spawn] that finds [should_notify_] set. *)
Lemma spawn_signals i t s :
  spawners s !! i = None → should_notify_ s = true →
  ∃ s', run [ACall i t; ASpawn i; ASpawn i; ASpawn i] s = Some s' ∧
    event s' = true ∧ at_ s' = at_ s ∧ stop_ s' = stop_ s ∧ ran s' = ran s ∧
    task_queue_ s' = task_queue_ s ++ [t] ∧ spawners s' !! i = Some (SpawnReturned true).
Proof.
  intros Hi Hn. cbn [run act]. rewrite Hi. cbn [mbind option_bind].
  unfold spawn_step. rewrite spawner_self. cbn [mbind option_bind]. rewrite spawner_self.
  cbn [should_notify_ set_spawner push_task]. rewrite Hn. cbn [mbind option_bind].
  rewrite spawner_self. cbn [mbind option_bind]. eexists. split; [done|].
  rewrite spawner_self. done.
Qed.
End executor.

(** ** The three executors

    The thread, [spawn] and [stop] of each, with its timeout. *)
Definition EpollExecutor_thread {Task} (timeout : Z) := @exec_step Task EPOLL timeout.
Definition EpollExecutor_spawn {Task} := @spawn_step Task EPOLL.
Definition EpollExecutor_stop {Task} := @exec_stop Task EPOLL.

Definition KqueueExecutor_thread {Task} (timeout : Z) := @exec_step Task KQUEUE timeout.
Definition KqueueExecutor_spawn {Task} := @spawn_step Task KQUEUE.
Definition KqueueExecutor_stop {Task} := @exec_stop Task KQUEUE.

Definition UringExecutor_thread {Task} (timeout : Z) := @exec_step Task URING timeout.
Definition UringExecutor_spawn {Task} := @spawn_step Task URING.
Definition UringExecutor_stop {Task} := @exec_stop Task URING.

(** ** Scheduler (scheduler/scheduler.h, scheduler/scheduler.cc)

    A scheduler owns one executor, of the kind that the options and the platform
    choose; [apple] is the platform macro. *)
Inductive SchedPolicy := POLL_POLICY | URING_POLICY.

Record SchedulerOptions := mkSchedulerOptions { timeout_ : Z; policy : SchedPolicy }.
Definition default_options : SchedulerOptions := mkSchedulerOptions (-1) POLL_POLICY.

Definition Scheduler_executor (apple : bool) (o : SchedulerOptions) : backend :=
  match policy o with
  | POLL_POLICY => if apple then KQUEUE else EPOLL
  | URING_POLICY => if apple then KQUEUE else URING
  end.

(** The thread of the scheduler's executor. *)
Definition Scheduler_thread {Task} (apple : bool) (o : SchedulerOptions)
    (net expired : bool) : @State Task → option State :=
  match Scheduler_executor apple o with
  | EPOLL => EpollExecutor_thread (timeout_ o) net expired
  | KQUEUE => KqueueExecutor_thread (timeout_ o) net expired
  | URING => UringExecutor_thread (timeout_ o) net expired
  end.

(** [Scheduler::stop] *)
Definition Scheduler_stop {Task} (apple : bool) (o : SchedulerOptions) : @State Task → State :=
  match Scheduler_executor apple o with
  | EPOLL => EpollExecutor_stop
  | KQUEUE => KqueueExecutor_stop
  | URING => UringExecutor_stop
  end.

Lemma Scheduler_thread_step {Task} apple o net expired (s : @State Task) :
  Scheduler_thread apple o net expired s = exec_step (Scheduler_executor apple o) (timeout_ o) net expired s.
Proof. unfold Scheduler_thread. by destruct (Scheduler_executor apple o). Qed.

Lemma Scheduler_stop_exec {Task} apple o (s : @State Task) :
  Scheduler_stop apple o s = exec_stop (Scheduler_executor apple o) s.
Proof. unfold Scheduler_stop. by destruct (Scheduler_executor apple o). Qed.

Lemma Scheduler_executor_kqueue apple o : Scheduler_executor apple o = KQUEUE ↔ apple = true.
Proof. unfold Scheduler_executor. destruct (policy o), apple; naive_solver. Qed.

(** The executor's thread takes transitions until it stops or sleeps. *)
Fixpoint Scheduler_steps {Task} (apple : bool) (o : SchedulerOptions) (n : nat) (s : @State Task) :
    option State :=
  match n with
  | 0 => Some s
  | S n => s' ← Scheduler_thread apple o false false s; Scheduler_steps apple o n s'
  end.
