(* ===== verification/Sockets.v ===== *)
(** * Sockets (net/socket.h, net/socket.cc, net/socket_utils.cc,
      net/accepter.cc, the constructor of client/client_channel.cc)

    The wrappers around the socket calls, the listening socket and the accepted
    ones.  The kernel's side of it is the set of open descriptors; every call
    that can fail takes whether the kernel refuses it as an argument, in the order
    of the calls, and a call on a descriptor that is not open fails in any case.
    A wrapper may end the process. *)
From S2P Require Import Prelude Executor.

(** ** The process *)
Record Process := mkProcess {
  open_fds : gset Z;
  bad_closes : list Z;               (** history: [close] of a descriptor that is
                                         not open, so perhaps another's *)
  shutdowns : list Z;                (** history: [shutdown] calls *)
  refusals : list bool;              (** whether the coming calls are refused *)
}.

(** A call returns or ends the process. *)
Inductive control (A : Type) :=
  | Return (a : A)
  | Exit.
Arguments Return {A} a.
Arguments Exit {A}.

Definition P (A : Type) : Type := Process → control A * Process.

#[export] Instance P_ret : MRet P := λ A a p, (Return a, p).
#[export] Instance P_bind : MBind P := λ A B k m p,
  match m p with
  | (Return a, p') => k a p'
  | (Exit, p') => (Exit, p')
  end.

(** Does the kernel refuse the next call on [fd]? *)
Definition refused_on (fd : Z) : P bool := λ p,
  let r := default false (head (refusals p)) in
  (Return (r || bool_decide (fd ∉ open_fds p)),
   mkProcess (open_fds p) (bad_closes p) (shutdowns p) (tail (refusals p))).

(** [::close] *)
Definition sys_close (fd : Z) : P unit := λ p,
  if decide (fd ∈ open_fds p)
  then (Return tt, mkProcess (open_fds p ∖ {[fd]}) (bad_closes p) (shutdowns p) (refusals p))
  else (Return tt, mkProcess (open_fds p) (bad_closes p ++ [fd]) (shutdowns p) (refusals p)).

(** A call that makes a descriptor: the least number that is not open, as POSIX
    prescribes, or [-1]. *)
Fixpoint least_free (n : nat) (fd : Z) (open : gset Z) : Z :=
  match n with
  | 0 => fd
  | S n => if decide (fd ∈ open) then least_free n (fd + 1) open else fd
  end.
Definition new_fd (refused : bool) : P Z := λ p,
  if refused then (Return (-1)%Z, p)
  else
    let fd := least_free (size (open_fds p)) 0 (open_fds p) in
    (Return fd, mkProcess (open_fds p ∪ {[fd]}) (bad_closes p) (shutdowns p) (refusals p)).

Definition next_refusal : P bool := λ p,
  (Return (default false (head (refusals p))),
   mkProcess (open_fds p) (bad_closes p) (shutdowns p) (tail (refusals p))).

Definition exit_failure {A} : P A := λ p, (Exit, p).

(** ** SocketUtils *)
Definition SocketUtils_socket : P Z :=
  r ← next_refusal;
  fd ← new_fd r;
  if decide (fd < 0)%Z then exit_failure else mret fd.

(** [SocketUtils::bind], [SocketUtils::listen] and [SocketUtils::connect]. *)
Definition fd_call_or_exit (fd : Z) : P unit :=
  r ← refused_on fd;
  if (r : bool) then sys_close fd;; exit_failure else mret tt.
Definition SocketUtils_bind (fd : Z) : P unit := fd_call_or_exit fd.
Definition SocketUtils_listen (fd : Z) : P unit := fd_call_or_exit fd.
Definition SocketUtils_connect (fd : Z) : P unit := fd_call_or_exit fd.

Definition SocketUtils_accept (fd : Z) : P Z :=
  r ← refused_on fd;
  new_fd r.

Definition SocketUtils_setsocketopt (fd : Z) : P unit :=
  r ← refused_on fd;
  if (r : bool) then sys_close fd else mret tt.

(** ** Accepter *)

(** [Accepter::Accepter]: [SO_REUSEADDR], bind, listen; the result is
    [sockfd_]. *)
Definition Accepter_new : P Z :=
  fd ← SocketUtils_socket;
  SocketUtils_setsocketopt fd;;
  SocketUtils_bind fd;;
  SocketUtils_listen fd;;
  mret fd.

(** [Accepter::~Accepter] *)
Definition Accepter_destroy (sockfd_ : Z) : P unit :=
  if decide (sockfd_ = -1)%Z then mret tt else sys_close sockfd_.

(** [Accepter::set_fd_param]: non-blocking mode, and the options [SO_SNDBUF],
    [SO_RCVBUF], [SO_KEEPALIVE], [TCP_NODELAY]. *)
Definition Accepter_set_fd_param (client_fd : Z) : P unit :=
  r ← refused_on client_fd;
  (if (r : bool) then sys_close client_fd else mret tt);;
  SocketUtils_setsocketopt client_fd;;
  SocketUtils_setsocketopt client_fd;;
  SocketUtils_setsocketopt client_fd;;
  SocketUtils_setsocketopt client_fd.

(** [Accepter::accept] *)
Definition Accepter_accept (sockfd_ : Z) : P Z :=
  client_fd ← SocketUtils_accept sockfd_;
  (if decide (client_fd = -1)%Z then mret tt else Accepter_set_fd_param client_fd);;
  mret client_fd.

(** ** Socket *)
Record Socket := mkSocket { sockfd_ : Z; sock_closed_ : bool }.
Definition Socket_new (fd : Z) : Socket := mkSocket fd false.

(** [Socket::close]: shuts the sending side down, once. *)
Definition Socket_close (s : Socket) : P Socket :=
  if sock_closed_ s then mret s
  else λ p, (Return (mkSocket (sockfd_ s) true),
             mkProcess (open_fds p) (bad_closes p) (shutdowns p ++ [sockfd_ s]) (refusals p)).

(** [Socket::~Socket] *)
Definition Socket_destroy (s : Socket) : P unit := sys_close (sockfd_ s).

(** ** Connecting *)

(** [SocketUtils::inet_pton]; the address is refused if it is not well formed. *)
Definition SocketUtils_inet_pton : P unit :=
  r ← next_refusal;
  if (r : bool) then exit_failure else mret tt.

(** [ClientChannel::ClientChannel] up to the start of the two coroutines: connects,
    sets non-blocking mode without looking whether that succeeds, and the options
    [SO_SNDBUF], [SO_RCVBUF], [TCP_NODELAY], [SO_LINGER].  The result is [conn_]:
    null unless the policy is to poll. *)
Definition ClientChannel_new (policy : SchedPolicy) : P (option Socket) :=
  fd ← SocketUtils_socket;
  SocketUtils_inet_pton;;
  SocketUtils_connect fd;;
  refused_on fd;;
  let conn_ := match policy with
               | POLL_POLICY => Some (Socket_new fd)
               | URING_POLICY => None
               end in
  SocketUtils_setsocketopt fd;;
  SocketUtils_setsocketopt fd;;
  SocketUtils_setsocketopt fd;;
  SocketUtils_setsocketopt fd;;
  mret conn_.

(** ** Accepting *)
Lemma least_free_spec n fd (open : gset Z) :
  size (filter (λ x, fd ≤ x)%Z open) ≤ n →
  (least_free n fd open ∉ open) ∧ (fd ≤ least_free n fd open)%Z.
Proof.
  revert fd. induction n as [|n IH]; intros fd Hn; simpl.
  - split; [|done]. intros Hin.
    assert (filter (λ x, fd ≤ x)%Z open ≡ ∅) as He by (apply size_empty_iff; lia).
    set_solver by lia.
  - case_decide as Hin; [|done]. destruct (IH (fd + 1)%Z) as [H1 H2]; [|split; [done|lia]].
    enough (size (filter (λ x, fd + 1 ≤ x)%Z open) < size (filter (λ x, fd ≤ x)%Z open)) by lia.
    apply subset_size. split; [set_solver by lia|]. intros Hsub.
    assert (fd ∈ filter (λ x, fd + 1 ≤ x)%Z open) as Hbad by set_solver by lia.
    apply elem_of_filter in Hbad as [Hbad _]. lia.
Qed.

Lemma new_fd_fresh p :
  let fd := least_free (size (open_fds p)) 0 (open_fds p) in
  (fd ∉ open_fds p) ∧ (0 ≤ fd)%Z.
Proof. apply least_free_spec. apply subseteq_size. set_solver. Qed.

(** What the kernel says to the next [n] calls. *)
Definition next_refusals (n : nat) (p : Process) : list bool :=
  take n (refusals p ++ replicate n false).

(** A call that closes the descriptor if it is refused, made once for each entry
    of [rs]: after the first refusal every call fails, and closes the descriptor
    again. *)
Fixpoint closes_again (rs : list bool) : nat :=
  match rs with
  | [] => 0
  | true :: rs => length rs
  | false :: rs => closes_again rs
  end.

Definition configured (fd : Z) (rs : list bool) (p p' : Process) : Prop :=
  open_fds p' = (if decide (true ∈ rs) then open_fds p ∖ {[fd]} else open_fds p) ∧
  bad_closes p' = bad_closes p ++ replicate (closes_again rs) fd ∧
  shutdowns p' = shutdowns p.

Lemma take_pad n (rs : list bool) :
  take n (rs ++ false :: replicate n false) = take n (rs ++ replicate n false).
Proof.
  change (false :: replicate n false) with (replicate (S n) false).
  rewrite replicate_S_end, app_assoc, take_app_le; [done|]. rewrite length_app, length_replicate. lia.
Qed.

Lemma next_refusals_S n p p' :
  refusals p' = tail (refusals p) →
  next_refusals (S n) p = default false (head (refusals p)) :: next_refusals n p'.
Proof.
  unfold next_refusals. intros ->. destruct (refusals p) as [|r rs]; [done|]. simpl. f_equal.
  apply take_pad.
Qed.

(** [n] calls on a descriptor that is not open. *)
Fixpoint opt_calls (n : nat) (fd : Z) : P unit :=
  match n with
  | 0 => mret tt
  | S n => SocketUtils_setsocketopt fd;; opt_calls n fd
  end.

Lemma opt_calls_closed n fd p :
  fd ∉ open_fds p →
  ∃ p', opt_calls n fd p = (Return tt, p') ∧ open_fds p' = open_fds p ∧
    bad_closes p' = bad_closes p ++ replicate n fd ∧ shutdowns p' = shutdowns p.
Proof.
  revert p. induction n as [|n IH]; intros p Hfd; simpl.
  { exists p. by rewrite app_nil_r. }
  unfold SocketUtils_setsocketopt, mbind, P_bind, refused_on.
  rewrite bool_decide_eq_true_2, orb_true_r by done. unfold sys_close at 1. simpl.
  rewrite decide_False by done.
  edestruct (IH (mkProcess (open_fds p) (bad_closes p ++ [fd]) (shutdowns p) (tail (refusals p))))
    as (p' & Hrun & H1 & H2 & H3); [done|]. exists p'. simpl in *.
  split_and!; [exact Hrun|done| |done]. by rewrite H2, <-app_assoc.
Qed.

Lemma opt_calls_open n fd p :
  fd ∈ open_fds p →
  ∃ p', opt_calls n fd p = (Return tt, p') ∧ configured fd (next_refusals n p) p p'.
Proof.
  revert p. induction n as [|n IH]; intros p Hfd.
  { exists p. split; [done|]. unfold configured, next_refusals. rewrite take_0. simpl.
    by rewrite app_nil_r. }
  set (p1 := mkProcess (open_fds p) (bad_closes p) (shutdowns p) (tail (refusals p))).
  rewrite (next_refusals_S n p p1) by done. simpl opt_calls.
  unfold SocketUtils_setsocketopt, mbind, P_bind, refused_on. fold p1.
  rewrite bool_decide_eq_false_2, orb_false_r by auto.
  destruct (default false (head (refusals p))).
  - unfold sys_close at 1. simpl. rewrite decide_True by done.
    edestruct (opt_calls_closed n fd (mkProcess (open_fds p ∖ {[fd]}) (bad_closes p) (shutdowns p)
      (tail (refusals p)))) as (p' & Hrun & H1 & H2 & H3); [simpl; set_solver|].
    exists p'. split; [exact Hrun|]. unfold configured. rewrite decide_True by set_solver.
    simpl in *. split_and!; [done| |done]. rewrite H2. do 2 f_equal. unfold next_refusals.
    rewrite length_take, length_app, length_replicate. lia.
  - destruct (IH p1 Hfd) as (p' & Hrun & H1 & H2 & H3). exists p'. split; [exact Hrun|].
    unfold configured. simpl. split_and!; [|done|done]. rewrite H1. simpl.
    repeat case_decide; set_solver.
Qed.

Lemma P_bind_assoc {A B C} (m : P A) (k : A → P B) (l : B → P C) p :
  ((m ≫= k) ≫= l) p = (m ≫= λ a, k a ≫= l) p.
Proof. unfold mbind, P_bind. by destruct (m p) as [[a|] p']. Qed.

Lemma P_bind_ext {A B} (m : P A) (k l : A → P B) p :
  (∀ a p', k a p' = l a p') → (m ≫= k) p = (m ≫= l) p.
Proof. intros Hk. unfold mbind, P_bind. destruct (m p) as [[a|] p']; [apply Hk|done]. Qed.

Lemma P_bind_ret (m : P unit) p : (m;; mret tt) p = m p.
Proof. unfold mbind, P_bind. by destruct (m p) as [[[]|] p']. Qed.

Lemma set_fd_param_opts fd p : Accepter_set_fd_param fd p = opt_calls 5 fd p.
Proof.
  unfold Accepter_set_fd_param. cbn [opt_calls]. rewrite <-(P_bind_assoc (refused_on fd)).
  do 4 (apply P_bind_ext; intros _ ?). by rewrite P_bind_ret.
Qed.

(** [accept] on the listening socket: it gives out a fresh descriptor, which is
    open exactly if no call of [set_fd_param] is refused. *)
Lemma accept_spec sockfd p :
  let rs := next_refusals 5 (mkProcess ∅ [] [] (tail (refusals p))) in
  sockfd ∈ open_fds p → default false (head (refusals p)) = false →
  ∃ fd p', Accepter_accept sockfd p = (Return fd, p') ∧ (0 ≤ fd)%Z ∧ (fd ∉ open_fds p) ∧
    open_fds p' = (if decide (true ∈ rs) then open_fds p else open_fds p ∪ {[fd]}) ∧
    bad_closes p' = bad_closes p ++ replicate (closes_again rs) fd.
Proof.
  intros rs Hin Hr. destruct (new_fd_fresh p) as [Hfresh Hpos].
  set (fd := least_free (size (open_fds p)) 0 (open_fds p)) in *.
  set (p1 := mkProcess (open_fds p ∪ {[fd]}) (bad_closes p) (shutdowns p) (tail (refusals p))).
  assert (SocketUtils_accept sockfd p = (Return fd, p1)) as Hacc.
  { unfold SocketUtils_accept, mbind, P_bind, refused_on.
    by rewrite Hr, bool_decide_eq_false_2 by auto. }
  destruct (opt_calls_open 5 fd p1) as (p' & Hrun & H1 & H2 & _); [simpl; set_solver|].
  exists fd, p'. unfold Accepter_accept. unfold mbind at 1, P_bind at 1. rewrite Hacc.
  rewrite decide_False by lia. unfold mbind, P_bind. rewrite set_fd_param_opts, Hrun.
  change (next_refusals 5 p1) with rs in H1, H2.
  split_and!; [done|done|done| |done]. rewrite H1. case_decide; [|done]. simpl. set_solver.
Qed.

(** [Socket::close] any number of times shuts the socket down once. *)
Fixpoint Socket_close_times (n : nat) (s : Socket) : P Socket :=
  match n with
  | 0 => mret s
  | S n => s' ← Socket_close s; Socket_close_times n s'
  end.

Lemma Socket_close_closed n s p :
  sock_closed_ s = true → Socket_close_times n s p = (Return s, p).
Proof.
  intros Hc. induction n as [|n IH]; [done|]. simpl. unfold mbind, P_bind, Socket_close.
  by rewrite Hc.
Qed.

Lemma Socket_close_once n fd p :
  ∃ p', Socket_close_times (S n) (Socket_new fd) p = (Return (mkSocket fd true), p') ∧
    shutdowns p' = shutdowns p ++ [fd] ∧ open_fds p' = open_fds p.
Proof.
  eexists. simpl. unfold mbind, P_bind. simpl. rewrite Socket_close_closed by done. done.
Qed.

(** ** A new client channel *)
Lemma client_opts {A} fd (c : A) p :
  (SocketUtils_setsocketopt fd;; SocketUtils_setsocketopt fd;; SocketUtils_setsocketopt fd;;
   SocketUtils_setsocketopt fd;; mret c) p = (opt_calls 4 fd;; mret c) p.
Proof.
  cbn [opt_calls]. rewrite !P_bind_assoc. apply P_bind_ext; intros _ ?.
  rewrite !P_bind_assoc. apply P_bind_ext; intros _ ?.
  rewrite !P_bind_assoc. apply P_bind_ext; intros _ ?.
  rewrite !P_bind_assoc. by apply P_bind_ext; intros _ ?.
Qed.

Definition after_calls (n : nat) (p : Process) : Process :=
  mkProcess (open_fds p) (bad_closes p) (shutdowns p) (drop n (refusals p)).

Lemma client_new_spec policy p :
  let rs := next_refusals 4 (after_calls 4 p) in
  let fd := least_free (size (open_fds p)) 0 (open_fds p) in
  take 3 (refusals p ++ replicate 3 false) = [false; false; false] →
  ∃ p', ClientChannel_new policy p =
          (Return (match policy with POLL_POLICY => Some (Socket_new fd) | URING_POLICY => None end), p') ∧
    open_fds p' = (if decide (true ∈ rs) then open_fds p else open_fds p ∪ {[fd]}) ∧
    bad_closes p' = bad_closes p ++ replicate (closes_again rs) fd.
Proof.
  intros rs fd Hr. destruct (new_fd_fresh p) as [Hfresh Hpos]. fold fd in Hfresh, Hpos.
  set (p1 := mkProcess (open_fds p ∪ {[fd]}) (bad_closes p) (shutdowns p) (drop 4 (refusals p))).
  destruct (opt_calls_open 4 fd p1) as (p' & Hrun & H1 & H2 & _); [simpl; set_solver|].
  change (next_refusals 4 p1) with rs in H1, H2. exists p'. split_and!; [| |exact H2].
  - set (conn_ := match policy with POLL_POLICY => _ | URING_POLICY => _ end).
    assert (ClientChannel_new policy p = (opt_calls 4 fd;; mret conn_) p1) as ->;
      [|unfold mbind, P_bind; by rewrite Hrun].
    rewrite <-client_opts. unfold ClientChannel_new, SocketUtils_socket, SocketUtils_inet_pton,
      SocketUtils_connect, fd_call_or_exit, next_refusal, refused_on, new_fd.
    unfold mbind, P_bind, mret, P_ret. simpl.
    destruct p as [fds bad shut rfs].
    destruct rfs as [|[] [|[] [|[] rfs]]]; simplify_eq/=;
      rewrite decide_False by (simpl in *; lia); simpl;
      rewrite bool_decide_eq_false_2 by set_solver; simpl; try done.
  - rewrite H1. case_decide; simpl; set_solver.
Qed.

Lemma not_refused n p :
  true ∉ take n (refusals p) → take n (refusals p ++ replicate n false) = replicate n false.
Proof.
  generalize (refusals p). induction n as [|n IH]; intros rs Hn; [done|].
  destruct rs as [|r rs].
  { rewrite app_nil_l. apply firstn_all2. rewrite length_replicate. lia. }
  simpl in Hn. destruct r; [set_solver|]. simpl. rewrite take_pad. f_equal. apply IH. set_solver.
Qed.

(** A refused socket, address or connection ends the process. *)
Lemma client_new_exits policy p :
  true ∈ take 3 (refusals p) → fst (ClientChannel_new policy p) = Exit.
Proof.
  destruct (new_fd_fresh p) as [_ Hpos]. intros Hr.
  unfold ClientChannel_new, SocketUtils_socket, SocketUtils_inet_pton,
    SocketUtils_connect, fd_call_or_exit, next_refusal, refused_on, new_fd, sys_close, exit_failure.
  unfold mbind, P_bind, mret, P_ret. destruct p as [fds bad shut rfs]. simpl in *.
  destruct rfs as [|[] [|[] [|[] rfs]]]; simpl in *; try done;
    rewrite ?decide_False by lia; try done.
  all: try (by exfalso; set_solver).
  simpl. by case_decide.
Qed.
