(* ===== verification/Start.v ===== *)
(** * The server's accept loop (server/rpc_server.h, server/rpc_server.cc)

    [RpcServer::RpcServer] opens the listening socket and makes the scheduler;
    [RpcServer::start] accepts connections for ever and hands two tasks per
    connection to the executor, [send_fn] and then [recv_fn], each with a call of
    [spawn] whose result it does not look at.

    The state is that of the process, of the thread in [start] and of the executor;
    a transition is one of that thread or one of the executor's thread, so the
    executor may run tasks of a connection while the thread is between its two
    calls of [spawn]. *)
From S2P Require Import Prelude Executor Sockets.

(** ** Construction *)
Record RpcServerOptions := mkRpcServerOptions {
  port : Z;
  backlog : Z;
  nodelay : Z;
  poll_timeout : Z;
  sched_policy : SchedPolicy;
}.
(** The defaults of the constructor of the options. *)
Definition RpcServerOptions_default (port : Z) : RpcServerOptions :=
  mkRpcServerOptions port 256 1 (-1) URING_POLICY.

Record RpcServer := mkRpcServer {
  options_ : RpcServerOptions;
  accepter_ : Z;                       (** the listening socket *)
  scheduler_ : SchedulerOptions;       (** what the scheduler is made of *)
}.

(** [RpcServer::RpcServer] *)
Definition RpcServer_new (o : RpcServerOptions) : P RpcServer :=
  fd ← Accepter_new;
  mret (mkRpcServer o fd (mkSchedulerOptions (poll_timeout o) (sched_policy o))).

(** ** The accept loop *)
Inductive conn_kind := PollKind | UringKind.
Inductive server_task := SendFn (conn : nat) | RecvFn (conn : nat).

(** Where [start] stands: in [accept], or in the first or the second [spawn] for
    the connection of that number. *)
Inductive start_pc := AtAccept | AtSpawnSend (conn : nat) | AtSpawnRecv (conn : nat).

Record start_state := mkStart {
  proc : Process;
  accepted : list (Z * conn_kind);     (** the connections made so far *)
  at_start : start_pc;
  exec : @State server_task;
}.

(** Which connection is made of an accepted socket. *)
Definition connection_kind (apple : bool) (policy : SchedPolicy) : conn_kind :=
  if apple then PollKind else match policy with POLL_POLICY => PollKind | URING_POLICY => UringKind end.

Section start.
Context (apple : bool) (srv : RpcServer).
Let b : backend := Scheduler_executor apple (scheduler_ srv).
Let timeout : Z := timeout_ (scheduler_ srv).

(** A step of call [i] of [spawn] with task [t]; when it has returned, [start]
    goes on at [pc]. *)
Definition spawn_next (i : nat) (t : server_task) (pc : start_pc) (s : start_state)
    : option start_state :=
  match spawners (exec s) !! i with
  | Some (SpawnReturned _) => Some (mkStart (proc s) (accepted s) pc (exec s))
  | None =>
      e ← act b timeout (ACall i t) (exec s);
      Some (mkStart (proc s) (accepted s) (at_start s) e)
  | Some _ =>
      e ← act b timeout (ASpawn i) (exec s);
      Some (mkStart (proc s) (accepted s) (at_start s) e)
  end.

(** One step of the thread in [RpcServer::start]; [None] when the process has
    ended. *)
Definition start_step (s : start_state) : option start_state :=
  match at_start s with
  | AtAccept =>
      match Accepter_accept (accepter_ srv) (proc s) with
      | (Return connfd, p) =>
          if decide (connfd = -1)%Z
          then Some (mkStart p (accepted s) AtAccept (exec s))
          else Some (mkStart p
                 (accepted s ++ [(connfd, connection_kind apple (sched_policy (options_ srv)))])
                 (AtSpawnSend (length (accepted s))) (exec s))
      | (Exit, _) => None
      end
  | AtSpawnSend n => spawn_next (2 * n) (SendFn n) (AtSpawnRecv n) s
  | AtSpawnRecv n => spawn_next (2 * n + 1) (RecvFn n) AtAccept s
  end.

(** The server: its own thread and the executor's. *)
Inductive server_action :=
  | StartStep
  | ExecStep (net expired : bool).

Definition server_act (a : server_action) (s : start_state) : option start_state :=
  match a with
  | StartStep => start_step s
  | ExecStep net expired =>
      e ← act b timeout (AExec net expired) (exec s);
      Some (mkStart (proc s) (accepted s) (at_start s) e)
  end.

Inductive server_reachable (p : Process) : start_state → Prop :=
  | server_reach_new : server_reachable p (mkStart p [] AtAccept (exec_new b))
  | server_reach_act s a s' :
      server_reachable p s → server_act a s = Some s' → server_reachable p s'.

Fixpoint server_run (acts : list server_action) (s : start_state) : option start_state :=
  match acts with
  | [] => Some s
  | a :: acts => s' ← server_act a s; server_run acts s'
  end.

Lemma server_run_reachable p acts s s' :
  server_reachable p s → server_run acts s = Some s' → server_reachable p s'.
Proof.
  revert s. induction acts as [|a acts IH]; intros s Hs; simpl; [by intros [= <-]|].
  intros (s1 & H1 & H2)%bind_Some. eapply IH; [|done]. by eapply server_reach_act.
Qed.

(** ** Invariant *)

(** The tasks of the first [n] connections. *)
Fixpoint conn_tasks (n : nat) : list server_task :=
  match n with
  | 0 => []
  | S n => conn_tasks n ++ [SendFn n; RecvFn n]
  end.

(** The calls of [spawn] below [i] have returned, call [i] is at [o] and later ones
    have not been made; [before] was pushed when call [i] began, with task [t]. *)
Definition calls_at (i : nat) (t : server_task) (before : list server_task) (e : @State server_task)
    : Prop :=
  (∀ j, j < i → spawners e !! j = Some (SpawnReturned true)) ∧
  (∀ j, i < j → spawners e !! j = None) ∧
  match spawners e !! i with
  | None => pushed e = before
  | Some (AtPush t') => t' = t ∧ pushed e = before
  | Some AtCas | Some AtSignal => pushed e = before ++ [t]
  | Some (SpawnReturned ok) => ok = true ∧ pushed e = before ++ [t]
  end.

Definition start_inv (s : start_state) : Prop :=
  reachable b timeout (exec s) ∧
  let n := length (accepted s) in
  match at_start s with
  | AtAccept => calls_at (2 * n) (SendFn n) (conn_tasks n) (exec s) ∧ spawners (exec s) !! (2 * n) = None
  | AtSpawnSend m => n = S m ∧ calls_at (2 * m) (SendFn m) (conn_tasks m) (exec s)
  | AtSpawnRecv m => n = S m ∧
      calls_at (2 * m + 1) (RecvFn m) (conn_tasks m ++ [SendFn m]) (exec s)
  end.

(** The executor's thread does not touch the calls. *)
Lemma exec_step_calls net expired s s' :
  exec_step b timeout net expired s = Some s' →
  spawners s' = spawners (Task := server_task) s ∧ pushed s' = pushed s.
Proof.
  unfold exec_step. intros H. destruct (at_ s) as [| | | |[]|]; simplify_eq/=; try done.
  - destruct (task_queue_ s); by simplify_eq/=.
  - repeat case_match; by simplify_eq/=.
  - by case_decide.
Qed.

Lemma calls_at_same i t before e e' :
  spawners e' = spawners e → pushed e' = pushed e → calls_at i t before e → calls_at i t before e'.
Proof. intros H1 H2. unfold calls_at. by rewrite H1, H2. Qed.

(** A step of [spawn_next] that stays in the call. *)
Lemma calls_at_call i t before e e' :
  calls_at i t before e → spawners e !! i = None →
  act b timeout (ACall i t) e = Some e' → calls_at i t before e'.
Proof.
  intros (H1 & H2 & H3) Hi Hact. simpl in Hact. rewrite Hi in *. simplify_eq/=. split_and!; simpl.
  - intros j Hj. rewrite lookup_insert_ne by lia. by apply H1.
  - intros j Hj. rewrite lookup_insert_ne by lia. by apply H2.
  - by rewrite lookup_insert_eq.
Qed.

Lemma calls_at_spawn i t before e e' :
  calls_at i t before e → act b timeout (ASpawn i) e = Some e' → calls_at i t before e'.
Proof.
  intros (H1 & H2 & H3) Hact. simpl in Hact. unfold spawn_step in Hact.
  assert (∀ p (e1 : @State server_task), spawners e1 = spawners e →
    (∀ j, j < i → spawners (set_spawner i p e1) !! j = Some (SpawnReturned true)) ∧
    (∀ j, i < j → spawners (set_spawner i p e1) !! j = None) ∧
    spawners (set_spawner i p e1) !! i = Some p) as Hset.
  { intros p e1 He1. simpl. rewrite He1. split_and!; [intros j Hj; rewrite lookup_insert_ne by lia..|].
    - by apply H1.
    - by apply H2.
    - apply lookup_insert_eq. }
  destruct (spawners e !! i) as [[t'| | |ok]|] eqn:Hi; simplify_eq/=; try done.
  - destruct H3 as [-> H3]. destruct (Hset AtCas (push_task t e) eq_refl) as (A1 & A2 & A3).
    simpl in *. split_and!; [done|done|]. simpl. rewrite A3. by rewrite H3.
  - destruct (should_notify_ e) eqn:Hn; simplify_eq/=.
    + destruct (Hset AtSignal (set_notify false e) eq_refl) as (A1 & A2 & A3).
      simpl in *. split_and!; [done|done|]. simpl. by rewrite A3.
    + destruct (Hset (SpawnReturned true) e eq_refl) as (A1 & A2 & A3).
      simpl in *. split_and!; [done|done|]. simpl. by rewrite A3.
  - destruct (Hset (SpawnReturned true) (set_event true e) eq_refl) as (A1 & A2 & A3).
    simpl in *. split_and!; [done|done|]. simpl. by rewrite A3.
Qed.

(** The call has returned: the next one can begin. *)
Lemma calls_at_next i t before ok t' e :
  calls_at i t before e → spawners e !! i = Some (SpawnReturned ok) →
  calls_at (S i) t' (before ++ [t]) e ∧ spawners e !! S i = None.
Proof.
  intros (H1 & H2 & H3) Hi. rewrite Hi in H3. destruct H3 as [-> H3].
  assert (spawners e !! S i = None) as Hn by (apply H2; lia). split; [|done]. split_and!.
  - intros j Hj. destruct (decide (j = i)) as [->|]; [done|]. apply H1. lia.
  - intros j Hj. apply H2. lia.
  - by rewrite Hn.
Qed.

Lemma start_inv_reachable p s : server_reachable p s → start_inv s.
Proof.
  induction 1 as [|s a s' _ [Hr Hinv] Hact].
  { split; [apply reach_new|]. simpl. split; [|done]. split_and!; [lia|done|done]. }
  assert (∀ i t pc, spawn_next i t pc s = Some s' →
    (∃ ok, spawners (exec s) !! i = Some (SpawnReturned ok) ∧ s' = mkStart (proc s) (accepted s) pc (exec s)) ∨
    (accepted s' = accepted s ∧ at_start s' = at_start s ∧ reachable b timeout (exec s') ∧
     ∀ before, calls_at i t before (exec s) → calls_at i t before (exec s'))) as Hspawn.
  { intros i t pc Hs. unfold spawn_next in Hs.
    destruct (spawners (exec s) !! i) as [[t'| | |ok]|] eqn:Hi; cycle 3.
    { injection Hs as <-. left. by exists ok. }
    all: right; apply bind_Some in Hs as (e & He & [= <-]); split_and!; [done|done|by eapply reach_act|];
      intros before Hc; by eauto using calls_at_call, calls_at_spawn. }
  destruct a as [|net expired]; simpl in Hact; cycle 1.
  { apply bind_Some in Hact as (e & He & [= <-]). simpl. split; [exact (reach_act _ _ _ (AExec net expired) _ Hr He)|].
    simpl in He. apply exec_step_calls in He as [H1 H2]. simpl.
    destruct (at_start s); rewrite ?H1; naive_solver eauto using calls_at_same. }
  unfold start_step in Hact. destruct (at_start s) as [|m|m] eqn:Hat.
  - destruct Hinv as [Hc Hnone]. destruct (Accepter_accept _ _) as [[connfd|] p']; [|done].
    case_decide; simplify_eq/=; [by split|]. split; [done|]. simpl. rewrite length_app. simpl.
    split; [lia|done].
  - destruct Hinv as [Hn Hc]. destruct (Hspawn _ _ _ Hact) as [(ok & Hok & ->)|(H1 & H2 & H3 & H4)].
    + split; [done|]. cbn [accepted at_start exec]. split; [done|].
      destruct (calls_at_next _ _ _ _ (RecvFn m) _ Hc Hok) as [Hc' _].
      by replace (2 * m + 1) with (S (2 * m)) by lia.
    + split; [done|]. rewrite H1, H2. split; [done|]. by apply H4.
  - destruct Hinv as [Hn Hc]. destruct (Hspawn _ _ _ Hact) as [(ok & Hok & ->)|(H1 & H2 & H3 & H4)].
    + split; [done|]. cbn [accepted at_start exec]. rewrite Hn.
      destruct (calls_at_next _ _ _ _ (SendFn (S m)) _ Hc Hok) as [Hc' Hnone].
      rewrite <-app_assoc in Hc'. cbv zeta. replace (2 * S m) with (S (2 * m + 1)) by lia. by split.
    + split; [done|]. rewrite H1, H2. split; [done|]. by apply H4.
Qed.

(** What has been pushed is a prefix of the tasks of the accepted connections. *)
Lemma calls_at_prefix i t before e :
  calls_at i t before e → pushed e `prefix_of` before ++ [t].
Proof.
  intros (_ & _ & H). destruct (spawners e !! i) as [[t'| | |ok]|].
  - destruct H as [_ ->]. by exists [t].
  - by rewrite H.
  - by rewrite H.
  - by destruct H as [_ ->].
  - rewrite H. by exists [t].
Qed.

Lemma start_pushed s :
  start_inv s →
  pushed (exec s) `prefix_of` conn_tasks (length (accepted s)) ∧
  (at_start s = AtAccept → pushed (exec s) = conn_tasks (length (accepted s)) ∧
     ∀ p, calling p (exec s) → p (SpawnReturned true)).
Proof.
  intros [_ Hinv]. destruct (at_start s) as [|m|m].
  - destruct Hinv as [(H1 & H2 & H3) Hnone]. rewrite Hnone in H3. rewrite H3. split; [done|].
    intros _. split; [done|]. intros p (i & q & Hi & Hq).
    destruct (decide (i < 2 * length (accepted s))) as [Hlt|Hge].
    + rewrite H1 in Hi by done. by injection Hi as <-.
    + destruct (decide (i = 2 * length (accepted s))) as [->|]; [by rewrite Hnone in Hi|].
      by rewrite H2 in Hi by lia.
  - destruct Hinv as [-> Hc]. split; [|done]. apply calls_at_prefix in Hc. simpl.
    etrans; [exact Hc|]. exists [RecvFn m]. by rewrite <-app_assoc.
  - destruct Hinv as [-> Hc]. split; [|done]. apply calls_at_prefix in Hc. simpl.
    by rewrite <-app_assoc in Hc.
Qed.
End start.
