(* ===== verification/EventLoop.v ===== *)
(** * The event loop and all its sockets (scheduler/epoll_exector.cc,
      scheduler/kqueue_executor.cc)

    [Poller] has the dispatch of one event at one socket.  Here is the loop over the
    events of one [epoll_wait] or [kevent], on a heap of connections and with a
    registration for every descriptor, which holds a pointer to the connection.

    A connection belongs to the frames of its coroutines: when both have returned it
    is destroyed, which closes the descriptor, and the kernel forgets its
    registration.  The events that were reported before still point to it: an access
    through such a pointer is a use after free.

    What a connection does is an [Endpoint], so that the same loop serves the
    connections of a server and the channels of clients. *)
From S2P Require Import Prelude Block Segments InputStream OutputStream Streams Conn Connection ConnectionProofs Sender Poller.

(** ** Connections with their coroutines *)
Record Endpoint := mkEndpoint {
  ep : Type;
  ep_task : Type;                      (** what the executor may run for it *)
  ep_conn : ep → Connection;
  ep_start : outcome ep;               (** its coroutines are started *)
  ep_run : ep_task → M ep unit;
  ep_close : M ep unit;                (** [close()] *)
  (** [resume_read()] and [resume_write()], with what the kernel answers to the
      system calls that follow *)
  ep_read : list read_answer → list write_answer → M ep unit;
  ep_write : list write_answer → M ep unit;
  ep_gone : ep → bool;                 (** nothing refers to the connection *)
}.

(** ** Pollers *)

(** What is registered for a descriptor, and [add_event]: its result, and what is
    registered then. *)
Record Poller := mkPoller {
  reg : Type;
  padd : EventType → option reg → bool * option reg;
}.
Definition Epoll : Poller := mkPoller bool EpollExecutor_add_event.
(** A descriptor without filters has no registration. *)
Definition Kqueue : Poller := mkPoller filters (λ e f,
  let '(ok, f) := KqueueExecutor_add_event e (default (mkFilters false false) f) in
  (ok, if EVFILT_READ f || EVFILT_WRITE f then Some f else None)).

(** ** The state of the loop *)
Abbreviation fd := nat.

Record obj (E : Endpoint) := mkObj { ofd : fd; body : ep E }.
Arguments mkObj {E} _ _.
Arguments ofd {E} _.
Arguments body {E} _.

Record loop (E : Endpoint) (P : Poller) := mkLoop {
  objs : gmap nat (obj E);             (** the connections, by address *)
  regs : gmap fd (reg P * nat);        (** the registrations, with the pointer *)
}.
Arguments mkLoop {E P} _ _.
Arguments objs {E P} _.
Arguments regs {E P} _.

Section loop.
Context {E : Endpoint} {P : Poller}.
Implicit Types (p : nat) (s : loop E P) (g : gmap fd (reg P * nat)).

Definition loop_new : loop E P := mkLoop ∅ ∅.

(** One call of [add_event] of the connection at [p]. *)
Definition add_reg (n : fd) p (e : EventType) g : gmap fd (reg P * nat) :=
  match padd P e (fst <$> g !! n) with
  | (true, Some r) => <[n := (r, p)]> g
  | (true, None) => delete n g
  | (false, _) => g
  end.
(** The calls of [add_event] between two states of a connection. *)
Definition new_events (c c' : Connection) : list EventType := drop (length (events c)) (events c').
Definition add_regs (n : fd) p (es : list EventType) g : gmap fd (reg P * nat) :=
  foldl (λ g e, add_reg n p e g) g es.

Definition unregister (n : fd) s : loop E P := mkLoop (objs s) (delete n (regs s)).
Definition register (n : fd) (r : reg P) p s : loop E P := mkLoop (objs s) (<[n := (r, p)]> (regs s)).

(** The connection at [p] has gone from [o] to [x]. *)
Definition moved p (o : obj E) (x : ep E) s : loop E P :=
  let g := add_regs (ofd o) p (new_events (ep_conn E (body o)) (ep_conn E x)) (regs s) in
  if ep_gone E x then mkLoop (delete p (objs s)) (delete (ofd o) g)
  else mkLoop (<[p := mkObj (ofd o) x]> (objs s)) g.

(** The object that a pointer of a connection points to. *)
Definition deref_conn p : M (loop E P) (obj E) := λ s,
  match objs s !! p with
  | Some o => Done (o, s)
  | None => Faulted UseAfterFree
  end.

(** A move of the connection at [p]. *)
Definition run_at p (m : M (ep E) unit) : M (loop E P) unit := λ s,
  match objs s !! p with
  | Some o =>
      match m (body o) with
      | Done (_, x) => Done (tt, moved p o x s)
      | Faulted f => Faulted f
      | OutOfFuel => OutOfFuel
      end
  | None => Faulted UseAfterFree
  end.

(** The two tasks of a connection are run: it is at [p] and its descriptor is [n]. *)
Definition accept_at p (n : fd) : M (loop E P) unit := λ s,
  match ep_start E with
  | Done x =>
      Done (tt, mkLoop (<[p := mkObj n x]> (objs s))
        (add_regs n p (events (ep_conn E x)) (regs s)))
  | Faulted f => Faulted f
  | OutOfFuel => OutOfFuel
  end.

(** The loop over what was reported. *)
Fixpoint handle_all {R} (handle : nat * R → M (loop E P) unit) (evs : list (nat * R)) : M (loop E P) unit :=
  match evs with
  | [] => mret tt
  | ev :: evs => handle ev;; handle_all handle evs
  end.
End loop.

(** ** epoll *)

(** What [epoll_wait] reports for a socket, with what its kernel answers to the
    system calls of the coroutines. *)
Record epoll_answer := mkAnswer {
  a_in : option (list read_answer * list write_answer);     (** [EPOLLIN] *)
  a_out : option (list write_answer);                       (** [EPOLLOUT] *)
  a_hup : bool;                                             (** [EPOLLHUP] *)
}.
Definition a_report (a : epoll_answer) : epoll_report :=
  mkReport (bool_decide (is_Some (a_in a))) (bool_decide (is_Some (a_out a))) (a_hup a).

Section epoll.
Context {E : Endpoint}.
Abbreviation loop := (loop E Epoll).

Definition answer_read (a : epoll_answer) : M (ep E) unit :=
  match a_in a with Some (r, t) => ep_read E r t | None => mret tt end.
Definition answer_write (a : epoll_answer) : M (ep E) unit :=
  match a_out a with Some t => ep_write E t | None => mret tt end.

(** The body of the loop of [EpollExecutor], for the pointer of an event. *)
Definition epoll_event (ev : nat * epoll_answer) : M loop unit :=
  let '(p, a) := ev in
  o ← deref_conn p;
  let read := if EPOLLIN (a_report a) then run_at p (answer_read a) else mret tt in
  if a_hup a then run_at p (ep_close E);; modify (unregister (ofd o))
  else if EPOLLOUT (a_report a) then
    registered ← gets (λ s, bool_decide (is_Some (regs s !! ofd o)));
    if (registered : bool) then
      modify (register (P := Epoll) (ofd o) false p);;
      run_at p (answer_write a);;
      read
    else mret tt                                   (** [epoll_ctl] fails: [continue] *)
  else read.

Definition epoll_events_handled : list (nat * epoll_answer) → M loop unit := handle_all epoll_event.
End epoll.

(** ** kqueue *)
Inductive kqueue_answer :=
  | KRead (r : list read_answer) (t : list write_answer)
  | KWrite (t : list write_answer)
  | KEof (w : bool).                   (** [EV_EOF], on the write filter or not *)
Definition on_write (a : kqueue_answer) : bool :=
  match a with KRead _ _ => false | KWrite _ => true | KEof w => w end.

Section kqueue.
Context {E : Endpoint}.
Abbreviation loop := (loop E Kqueue).

(** [ev.ident] is [n]. *)
Definition drop_write (n : fd) (s : loop) : loop :=
  match regs s !! n with
  | Some (f, q) =>
      if EVFILT_READ f then register (P := Kqueue) n (mkFilters true false) q s else unregister n s
  | None => s
  end.

(** The body of the loop of [KqueueExecutor], for the pointer and the descriptor of an
    event. *)
Definition kqueue_event (ev : nat * (fd * kqueue_answer)) : M loop unit :=
  let '(p, (n, a)) := ev in
  match a with
  | KEof _ => run_at p (ep_close E);; modify (unregister n)
  | KWrite t => modify (drop_write n);; run_at p (ep_write E t)
  | KRead r t => run_at p (ep_read E r t)
  end.
Definition kqueue_events_handled : list (nat * (fd * kqueue_answer)) → M loop unit := handle_all kqueue_event.
End kqueue.

(** ** Runs of an executor *)

(** A poller with the loop over its events, and with what the kernel may report. *)
Record Kernel (E : Endpoint) := mkKernel {
  poller : Poller;
  #[canonical=no] answer : Type;
  #[canonical=no] handle : nat * answer → M (loop E poller) unit;
  #[canonical=no] may_report : loop E poller → list (nat * answer) → Prop;
}.
Arguments poller {E} _.
Arguments answer {E} _.
Arguments handle {E} _ _.
Arguments may_report {E} _ _ _.

(** Every socket is reported at most once, with the pointer that is registered, and
    as writable only if that was asked for. *)
Definition EpollKernel (E : Endpoint) : Kernel E := {|
  poller := Epoll;
  answer := epoll_answer;
  handle := epoll_event;
  may_report s evs := NoDup evs.*1 ∧
    ∀ p a, (p, a) ∈ evs → ∃ n (b : reg Epoll), regs s !! n = Some (b, p) ∧ (is_Some (a_out a) → b = true);
|}.

(** Every filter of a socket is reported at most once. *)
Definition KqueueKernel (E : Endpoint) : Kernel E := {|
  poller := Kqueue;
  answer := fd * kqueue_answer;
  handle := kqueue_event;
  may_report s evs := NoDup ((λ ev, (ev.1, on_write ev.2.2)) <$> evs) ∧
    ∀ p n a, (p, (n, a)) ∈ evs → ∃ f : reg Kqueue, regs s !! n = Some (f, p) ∧
      (if on_write a then EVFILT_WRITE f else EVFILT_READ f) = true;
|}.

Canonical EpollKernel.
Canonical KqueueKernel.

Section runs.
Context {E : Endpoint} (K : Kernel E).
Abbreviation loop := (loop E (poller K)).
Implicit Types (p q : nat) (s : loop).

(** The executor runs the two tasks of a new connection, or another task, or handles
    what was reported. *)
Inductive loop_action :=
  | Accepts p (n : fd)
  | Runs p (k : ep_task E)
  | Reports (evs : list (nat * answer K)).

Definition loop_act (b : loop_action) : M loop unit :=
  match b with
  | Accepts p n => accept_at p n
  | Runs p k => run_at p (ep_run E k)
  | Reports evs => handle_all (handle K) evs
  end.

(** New connections have an address and a descriptor that are not in use. *)
Definition possible s (b : loop_action) : Prop :=
  match b with
  | Accepts p n => objs s !! p = None ∧ ∀ q o, objs s !! q = Some o → ofd o ≠ n
  | Runs p _ => is_Some (objs s !! p)
  | Reports evs => may_report K s evs
  end.

Inductive loop_steps s : list loop_action → loop → Prop :=
  | steps_none : loop_steps s [] s
  | steps_more l s1 b s2 :
      loop_steps s l s1 → possible s1 b → loop_act b s1 = Done (tt, s2) → loop_steps s (l ++ [b]) s2.
End runs.
Arguments Accepts {E K} p n.
Arguments Runs {E K} p k.
Arguments Reports {E K} evs.
Arguments loop_act {E K} b.
Arguments possible {E K} s b.
Arguments loop_steps {E K} s _ _.
