(* ===== verification/EventLoopProofs.v ===== *)
(** * The event loop: proofs

    One event is the dispatch of [Poller] at its own socket, if the connection is
    still there when it is needed; so the events of one [epoll_wait] do at every socket
    what one dispatch does, in any order.  Registrations always point to the
    connection whose descriptor they are for.  Where nothing is registered any more,
    nothing happens any more. *)
From S2P Require Import Prelude Block Segments InputStream OutputStream Streams Conn Connection ConnectionProofs Sender Poller EventLoop.

Lemma run_at_done {E P} p (o : obj E) m x (s : loop E P) :
  objs s !! p = Some o → m (body o) = Done (tt, x) → run_at p m s = Done (tt, moved p o x s).
Proof. intros Ho Hm. unfold run_at. by rewrite Ho, Hm. Qed.

(** ** Registrations and objects belong together *)
Section registrations.
Context {E : Endpoint} {P : Poller}.
Abbreviation loop := (loop E P).
Abbreviation interest := (option (reg P)).
Implicit Types (p : nat) (s : loop) (o : obj E) (b : reg P) (g : gmap fd (reg P * nat)).

Record loop_wf s : Prop := {
  wf_regs n b p : regs s !! n = Some (b, p) → ∃ o, objs s !! p = Some o ∧ ofd o = n;
  wf_fds p q o o' : objs s !! p = Some o → objs s !! q = Some o' → ofd o = ofd o' → p = q;
  wf_alive p o : objs s !! p = Some o → ep_gone E (body o) = false;
}.

Definition interest_of (n : fd) s : interest := fst <$> regs s !! n.

(** The connection of [o], at [p], is now [x] and [i] is registered for it. *)
Definition put p o (x : ep E) (i : interest) s : loop :=
  if ep_gone E x then mkLoop (delete p (objs s)) (delete (ofd o) (regs s))
  else mkLoop (<[p := mkObj (ofd o) x]> (objs s))
    (match i with Some b => <[ofd o := (b, p)]> (regs s) | None => delete (ofd o) (regs s) end).

Definition owns p o s : Prop := ∀ b q, regs s !! ofd o = Some (b, q) → q = p.

Lemma wf_owns p o s : loop_wf s → objs s !! p = Some o → owns p o s.
Proof.
  intros Hwf Ho b q Hq. destruct (wf_regs _ Hwf _ _ _ Hq) as (o' & Ho' & Hfd). by eapply wf_fds.
Qed.

(** What a run of [add_event] leaves. *)
Definition reg_map (n : fd) p (i : interest) g : gmap fd (reg P * nat) :=
  match i with Some b => <[n := (b, p)]> g | None => delete n g end.

Lemma reg_map_id n p g :
  (∀ b q, g !! n = Some (b, q) → q = p) → reg_map n p (fst <$> g !! n) g = g.
Proof.
  intros Hp. destruct (g !! n) as [[b q]|] eqn:Hn; simpl.
  - rewrite (Hp b q eq_refl) in Hn. by apply insert_id.
  - by apply delete_id.
Qed.

Lemma reg_map_twice n p i j g : reg_map n p j (reg_map n p i g) = reg_map n p j g.
Proof.
  apply map_eq. intros m. destruct (decide (m = n)) as [->|Hm]; unfold reg_map.
  - destruct i, j; by rewrite ?lookup_insert_eq, ?lookup_delete_eq.
  - destruct i, j; rewrite ?lookup_insert_ne, ?lookup_delete_ne, ?lookup_insert_ne; done.
Qed.

Lemma reg_map_self n p i g : reg_map n p i g !! n = (λ b, (b, p)) <$> i.
Proof. destruct i; simpl; [apply lookup_insert_eq|apply lookup_delete_eq]. Qed.

(** The registration after some calls of [add_event]. *)
Definition reg_after (e : EventType) (i : interest) : interest :=
  match padd P e i with (true, i') => i' | (false, _) => i end.
Definition regs_after (i : interest) (es : list EventType) : interest :=
  foldl (λ i e, reg_after e i) i es.

Lemma add_regs_map n p es g :
  (∀ b q, g !! n = Some (b, q) → q = p) →
  add_regs n p es g = reg_map n p (regs_after (fst <$> g !! n) es) g.
Proof.
  revert g. induction es as [|e es IH]; intros g Hp; [symmetry; by apply reg_map_id|].
  assert (add_reg n p e g = reg_map n p (reg_after e (fst <$> g !! n)) g) as Hone.
  { unfold add_reg, reg_after. destruct (padd P e _) as [[] [r|]]; try done; symmetry; by apply reg_map_id. }
  change (add_regs n p (e :: es) g) with (add_regs n p es (add_reg n p e g)).
  assert (fst <$> reg_map n p (reg_after e (fst <$> g !! n)) g !! n = reg_after e (fst <$> g !! n)) as Hself
    by (rewrite reg_map_self; by destruct (reg_after _ _)).
  rewrite Hone, IH, reg_map_twice, Hself; [done|].
  intros b q. rewrite reg_map_self. destruct (reg_after _ _); naive_solver.
Qed.

Lemma moved_put p o x s :
  owns p o s →
  moved p o x s =
    put p o x (regs_after (interest_of (ofd o) s) (new_events (ep_conn E (body o)) (ep_conn E x))) s.
Proof.
  intros Hp. unfold moved, put. rewrite add_regs_map by exact Hp. unfold interest_of. case_match; [|done]. f_equal.
  unfold reg_map. case_match; [apply delete_insert_eq|apply delete_delete_eq].
Qed.

Lemma put_twice p o x x' i i' s :
  ep_gone E x = false → put p (mkObj (ofd o) x) x' i' (put p o x i s) = put p o x' i' s.
Proof.
  intros Hx. unfold put. rewrite Hx. simpl. pose proof (reg_map_twice (ofd o) p) as Htw. unfold reg_map in Htw.
  destruct (ep_gone E x'); f_equal.
  - apply delete_insert_eq.
  - exact (Htw i None (regs s)).
  - apply insert_insert_eq.
  - apply Htw.
Qed.

Lemma put_register p o x i b s : put p o x i (register (ofd o) b p s) = put p o x i s.
Proof.
  pose proof (reg_map_twice (ofd o) p (Some b)) as Htw. unfold reg_map in Htw.
  unfold put, register. simpl. case_match; f_equal; [exact (Htw None (regs s))|apply Htw].
Qed.

Lemma put_id p o s :
  loop_wf s → objs s !! p = Some o → put p o (body o) (interest_of (ofd o) s) s = s.
Proof.
  intros Hwf Ho. unfold put. rewrite (wf_alive _ Hwf _ _ Ho). destruct s as [os g]. f_equal.
  - apply insert_id. simpl in Ho. rewrite Ho. by destruct o.
  - apply (reg_map_id (ofd o) p g). by apply (wf_owns _ _ _ Hwf).
Qed.

Lemma put_lookup p q o x i s :
  objs (put p o x i s) !! q =
    if decide (q = p) then if ep_gone E x then None else Some (mkObj (ofd o) x) else objs s !! q.
Proof.
  unfold put. case_decide as Hq; case_match; simpl; subst; rewrite ?lookup_delete_eq, ?lookup_insert_eq,
    ?lookup_delete_ne, ?lookup_insert_ne by done; done.
Qed.
Lemma put_regs p n o x i s :
  regs (put p o x i s) !! n =
    if decide (n = ofd o) then if ep_gone E x then None else (λ b, (b, p)) <$> i else regs s !! n.
Proof.
  unfold put. case_decide as Hn; case_match; [| |simpl|]; subst;
    try (destruct i); simpl; rewrite ?lookup_delete_eq, ?lookup_insert_eq,
    ?lookup_delete_ne, ?lookup_insert_ne by done; done.
Qed.

(** [o] is the object at [p], or is to be. *)
Definition fits_at p o s : Prop :=
  (∀ o1, objs s !! p = Some o1 → ofd o1 = ofd o) ∧
  ∀ q o1, objs s !! q = Some o1 → ofd o1 = ofd o → q = p.

Lemma wf_fits p o s : loop_wf s → objs s !! p = Some o → fits_at p o s.
Proof. intros Hwf Ho. split; [congruence|]. intros q o1 Hq Hfd. by eapply wf_fds. Qed.

Lemma fits_put_wf p o x i s : loop_wf s → fits_at p o s → loop_wf (put p o x i s).
Proof.
  intros Hwf [Hp Hfds]. split.
  - intros n b q. rewrite put_regs, put_lookup. case_decide as Hn.
    + destruct (ep_gone E x); [done|]. intros (? & _ & [= -> ->])%fmap_Some. rewrite decide_True by done.
      eexists. split; [done|]. by subst n.
    + intros Hr. destruct (wf_regs _ Hwf _ _ _ Hr) as (o' & Ho' & Hfd). exists o'.
      rewrite decide_False; [done|]. intros ->. apply Hp in Ho'. congruence.
  - intros q q' o1 o2. rewrite !put_lookup. intros H1 H2 Hfd.
    destruct (decide (q = p)) as [->|], (decide (q' = p)) as [->|]; try done.
    + destruct (ep_gone E x); [done|]. injection H1 as <-. symmetry. by eapply Hfds.
    + destruct (ep_gone E x); [done|]. injection H2 as <-. by eapply Hfds.
    + by eapply wf_fds.
  - intros q o'. rewrite put_lookup. case_decide; [|by apply wf_alive].
    destruct (ep_gone E x) eqn:Hx; [done|]. by intros [= <-].
Qed.
Lemma put_wf p o x i s : loop_wf s → objs s !! p = Some o → loop_wf (put p o x i s).
Proof. intros Hwf Ho. apply fits_put_wf; [done|]. by apply wf_fits. Qed.
Lemma put_unregister p o x i s :
  unregister (ofd o) (put p o x i s) = put p o x None s.
Proof.
  pose proof (reg_map_twice (ofd o) p i None (regs s)) as Htw. unfold reg_map in Htw.
  unfold unregister, put. destruct (ep_gone E x); simpl; f_equal; [apply delete_delete_eq|exact Htw].
Qed.

Lemma interest_register n b p s : interest_of n (register n b p s) = Some b.
Proof. unfold interest_of, register. simpl. by rewrite lookup_insert_eq. Qed.

Lemma interest_some n b p s : regs s !! n = Some (b, p) → interest_of n s ≠ None.
Proof. unfold interest_of. by intros ->. Qed.

Lemma owns_register p o b s : owns p o (register (ofd o) b p s).
Proof. intros b' q. unfold register. simpl. rewrite lookup_insert_eq. naive_solver. Qed.

Lemma interest_put p o x i s : ep_gone E x = false → interest_of (ofd o) (put p o x i s) = i.
Proof. intros Hx. unfold interest_of. rewrite put_regs, decide_True, Hx by done. by destruct i. Qed.

Lemma owns_put p o x i s : owns p (mkObj (ofd o) x) (put p o x i s).
Proof.
  intros b q. cbn [ofd]. rewrite put_regs, decide_True by done. case_match; [done|]. by destruct i; intros [= _ <-].
Qed.

(** The connection at [q] and its registration are as before. *)
Definition same_at q s s' : Prop :=
  objs s' !! q = objs s !! q ∧ ∀ o, objs s !! q = Some o → interest_of (ofd o) s' = interest_of (ofd o) s.

Lemma fits_same_at p q o x i s : fits_at p o s → q ≠ p → same_at q s (put p o x i s).
Proof.
  intros [_ Hfds] Hne. split; [by rewrite put_lookup, decide_False|].
  intros o' Ho'. unfold interest_of. rewrite put_regs, decide_False; [done|].
  intros Hfd. by apply Hne, (Hfds q o').
Qed.
Lemma same_at_put p q o x i s :
  loop_wf s → objs s !! p = Some o → q ≠ p → same_at q s (put p o x i s).
Proof. intros Hwf Ho. apply fits_same_at. by apply wf_fits. Qed.

Lemma same_at_trans q s1 s2 s3 : same_at q s1 s2 → same_at q s2 s3 → same_at q s1 s3.
Proof.
  intros [H1 H2] [H3 H4]. split; [congruence|]. intros o Ho. rewrite H4 by congruence. by apply H2.
Qed.

(** A new connection. *)
Definition start_interest (x : ep E) : interest := regs_after None (events (ep_conn E x)).

Lemma accept_put p (n : fd) s x :
  loop_wf s → objs s !! p = None → (∀ q o, objs s !! q = Some o → ofd o ≠ n) →
  ep_start E = Done x → ep_gone E x = false →
  fits_at p (mkObj n x) s ∧ accept_at p n s = Done (tt, put p (mkObj n x) x (start_interest x) s).
Proof.
  intros Hwf Hp Hn Hx Hgone.
  assert (regs s !! n = None) as Hnone.
  { destruct (regs s !! n) as [[b q]|] eqn:Hq; [|done]. destruct (wf_regs _ Hwf _ _ _ Hq) as (o & Ho & Hfd).
    by apply Hn in Ho. }
  split.
  { split; [intros o1; by rewrite Hp|]. intros q o1 Hq Hfd. by apply Hn in Hq. }
  unfold accept_at. rewrite Hx. do 2 f_equal. unfold put. rewrite Hgone. cbn [ofd]. f_equal.
  rewrite add_regs_map by (intros b q Hq; congruence). unfold start_interest. by rewrite Hnone.
Qed.

Lemma loop_wf_new : loop_wf (loop_new : loop).
Proof.
  split; simpl.
  - intros n b p. by rewrite lookup_empty.
  - intros p q o o'. by rewrite lookup_empty.
  - intros p o. by rewrite lookup_empty.
Qed.
End registrations.

(** For epoll. *)
Lemma epoll_regs_after (i : interest) es :
  regs_after (P := Epoll) i es = foldl (λ i e, (EpollExecutor_add_event e i).2) i es.
Proof.
  revert i. induction es as [|e es IH]; intros i; [done|]. cbn [foldl]. rewrite <-IH. unfold regs_after at 1.
  cbn [foldl]. f_equal. by destruct i, e.
Qed.
Lemma regs_after_epoll (i : interest) c c' : regs_after (P := Epoll) i (new_events c c') = epoll_events i c c'.
Proof. apply epoll_regs_after. Qed.

(** ** One event is the dispatch of [Poller], at its own socket *)
Section alone.
Context {E : Endpoint}.
Abbreviation loop := (loop E Epoll).
Abbreviation put := (put (E := E) (P := Epoll)).
Implicit Types (p : nat) (s : loop) (o : obj E) (a : epoll_answer).

Definition alone a (i : interest) : M (ep E) interest :=
  epoll_dispatch (ep_conn E) (ep_close E) (answer_read a) (answer_write a) (a_report a) i.

(** The connection is still there when its reader is resumed. *)
Definition survives a (x : ep E) (i : interest) : Prop :=
  a_hup a = false → is_Some (a_in a) → is_Some (a_out a) → i ≠ None →
  ∀ x', answer_write a x = Done (tt, x') → ep_gone E x' = false.

Lemma epoll_events_same (i : interest) c : epoll_events i c c = i.
Proof. unfold epoll_events. by rewrite drop_all. Qed.

(** Reading, when the connection has come to [x]. *)
Lemma read_after_put p a o x x' i s :
  ep_gone E x = false → answer_read a x = Done (tt, x') →
  run_at p (answer_read a) (put p o x i s) =
    Done (tt, put p o x' (epoll_events i (ep_conn E x) (ep_conn E x')) s).
Proof.
  intros Hx Hr.
  rewrite (run_at_done p (mkObj (ofd o) x) _ x'); [|by rewrite put_lookup, decide_True, Hx|done].
  rewrite moved_put by apply owns_put. rewrite put_twice by done. cbn [ofd body]. by rewrite interest_put, regs_after_epoll.
Qed.

Lemma epoll_event_alone p a o s i x :
  loop_wf s → objs s !! p = Some o → survives a (body o) (interest_of (ofd o) s) →
  alone a (interest_of (ofd o) s) (body o) = Done (i, x) →
  epoll_event (p, a) s = Done (tt, put p o x i s).
Proof.
  intros Hwf Ho Hsurv Hal. pose proof (wf_owns _ _ _ Hwf Ho) as Hown.
  pose proof (wf_alive _ Hwf _ _ Ho) as Hgone. pose proof (put_id _ _ _ Hwf Ho) as Hid.
  unfold epoll_event, deref_conn, mbind at 1, M_bind at 1. rewrite Ho.
  unfold alone, epoll_dispatch in Hal. cbn [a_report EPOLLHUP EPOLLOUT EPOLLIN] in *. unfold survives in Hsurv.
  destruct (a_hup a).
  { unfold mbind, M_bind in *. destruct (ep_close E (body o)) as [[[] x1]| |] eqn:Hc; [|done|done].
    injection Hal as <- <-. rewrite (run_at_done p o _ x1) by done. unfold modify.
    by rewrite moved_put, put_unregister. }
  unfold mbind at 1, M_bind at 1, gets at 1 in Hal. specialize (Hsurv eq_refl).
  destruct (decide (is_Some (a_out a))) as [Hout|Hout];
    [rewrite (bool_decide_eq_true_2 _ Hout) in *|rewrite (bool_decide_eq_false_2 _ Hout) in *].
  - destruct (interest_of (ofd o) s) as [b|] eqn:Hint.
    + assert (is_Some (regs s !! ofd o)) as Hsome
        by (unfold interest_of in Hint; destruct (regs s !! ofd o); [by eexists|done]).
      unfold mbind, M_bind, gets, modify in *. rewrite bool_decide_eq_true_2 by done.
      simpl in Hal. destruct (answer_write a (body o)) as [[[] x1]| |] eqn:Hw; [|done|done].
      rewrite (run_at_done p o _ x1) by done. rewrite moved_put by apply owns_register.
      rewrite put_register, interest_register, regs_after_epoll. case_bool_decide as Hin.
      * destruct (answer_read a x1) as [[[] x2]| |] eqn:Hr; [|done|done]. injection Hal as <- <-.
        apply read_after_put; [|done]. by apply (Hsurv Hin Hout).
      * injection Hal as <- <-. by rewrite epoll_events_same.
    + (* [epoll_ctl] fails *)
      assert (regs s !! ofd o = None) as Hnone by (unfold interest_of in Hint; by destruct (regs s !! ofd o)).
      injection Hal as <- <-. unfold mbind, M_bind, gets.
      rewrite bool_decide_eq_false_2 by (rewrite Hnone; by intros []).
      unfold mret, M_ret. do 2 f_equal. symmetry. exact Hid.
  - unfold mbind, M_bind, gets in Hal. unfold mret, M_ret in Hal. simpl in Hal. case_bool_decide as Hin.
    + destruct (answer_read a (body o)) as [[[] x2]| |] eqn:Hr; [|done|done]. injection Hal as <- <-.
      rewrite <-Hid at 1. rewrite (read_after_put _ _ _ _ x2) by done. by rewrite epoll_events_same.
    + injection Hal as <- <-. by rewrite !epoll_events_same, Hid.
Qed.
End alone.

(** ** The events of one [epoll_wait]

    They are for different sockets, and each leaves the others alone: the loop does at
    every socket what one dispatch does, in any order. *)
Section batch.
Context {E : Endpoint}.
Abbreviation loop := (loop E Epoll).
Abbreviation put := (put (E := E) (P := Epoll)).
Implicit Types (p q : nat) (s : loop) (o : obj E) (a : epoll_answer).

(** The dispatch of the event alone ends well. *)
Definition ends_well s (ev : nat * epoll_answer) : Prop :=
  ∃ o i x, objs s !! ev.1 = Some o ∧ survives ev.2 (body o) (interest_of (ofd o) s) ∧
    alone ev.2 (interest_of (ofd o) s) (body o) = Done (i, x).

(** They are what the dispatch alone makes of them. *)
Definition dispatched (ev : nat * epoll_answer) s s' : Prop :=
  ∀ o i x, objs s !! ev.1 = Some o → alone ev.2 (interest_of (ofd o) s) (body o) = Done (i, x) →
    if ep_gone E x then objs s' !! ev.1 = None
    else objs s' !! ev.1 = Some (mkObj (ofd o) x) ∧ interest_of (ofd o) s' = i.

Lemma ends_well_same s s' ev : same_at ev.1 s s' → ends_well s ev → ends_well s' ev.
Proof.
  intros [H1 H2] (o & i & x & Ho & Hrest). exists o, i, x. rewrite H1, H2 by done. done.
Qed.

Lemma dispatched_same ev s1 s2 s3 : same_at ev.1 s1 s2 → dispatched ev s2 s3 → dispatched ev s1 s3.
Proof. intros [H1 H2] Hd o i x Ho Hal. apply Hd; [congruence|]. by rewrite H2. Qed.

Lemma dispatched_put p a o x i s :
  objs s !! p = Some o → alone a (interest_of (ofd o) s) (body o) = Done (i, x) →
  dispatched (p, a) s (put p o x i s).
Proof.
  intros Ho Hal o' i' x' Ho' Hal'. simpl in Ho', Hal'. rewrite Ho in Ho'. injection Ho' as <-.
  rewrite Hal in Hal'. injection Hal' as <- <-. simpl. rewrite put_lookup, decide_True by done.
  destruct (ep_gone E x) eqn:Hx; [done|]. split; [done|]. by apply (interest_put (P := Epoll)).
Qed.

Lemma dispatched_then_same ev s1 s2 s3 : dispatched ev s1 s2 → same_at ev.1 s2 s3 → dispatched ev s1 s3.
Proof.
  intros Hd [H1 H2] o i x Ho Hal. specialize (Hd o i x Ho Hal). rewrite H1.
  destruct (ep_gone E x); [done|]. destruct Hd as [Hobj Hi]. split; [done|]. rewrite <-Hi. by apply (H2 (mkObj (ofd o) x)).
Qed.

Lemma batch_alone evs s :
  loop_wf s → NoDup evs.*1 → Forall (ends_well s) evs →
  ∃ s', epoll_events_handled evs s = Done (tt, s') ∧ loop_wf s' ∧
    (∀ ev, ev ∈ evs → dispatched ev s s') ∧ ∀ q, q ∉ evs.*1 → same_at q s s'.
Proof.
  revert s. induction evs as [|[p a] evs IH]; intros s Hwf Hnd Hall.
  { exists s. split_and!; try done. by intros ev ?%elem_of_nil. }
  apply NoDup_cons in Hnd as [Hp Hnd]. apply Forall_cons in Hall as [Hone Hall].
  destruct Hone as (o & i & x & Ho & Hsurv & Hal). simpl in Ho, Hsurv, Hal.
  set (s1 := put p o x i s).
  assert (∀ q, q ≠ p → same_at q s s1) as Hother by (intros q Hq; by apply same_at_put).
  destruct (IH s1) as (s' & Hrun & Hwf' & Hdisp & Hsame); [by apply put_wf|done| |].
  { apply Forall_forall. intros ev Hev. rewrite Forall_forall in Hall. eapply ends_well_same; [|by apply Hall].
    apply Hother. intros Heq. apply Hp. simpl. rewrite <-Heq. by apply (list_elem_of_fmap_2 fst). }
  exists s'. split_and!; [|done| |].
  - unfold epoll_events_handled in *. cbn [handle_all]. unfold mbind, M_bind.
    by rewrite (epoll_event_alone p a o s i x).
  - intros ev [->|Hev]%elem_of_cons.
    + eapply dispatched_then_same; [by apply dispatched_put|]. by apply Hsame.
    + eapply dispatched_same; [|by apply Hdisp]. apply Hother. intros Heq. apply Hp. simpl. rewrite <-Heq. by apply (list_elem_of_fmap_2 fst).
  - intros q Hq. apply not_elem_of_cons in Hq as [Hne Hq]. eapply same_at_trans; [by apply Hother|by apply Hsame].
Qed.

(** The connections and their interests are all there is to a state. *)
Lemma loop_eq s1 s2 :
  loop_wf s1 → loop_wf s2 → (∀ q, same_at q s1 s2) → s1 = s2.
Proof.
  intros Hwf1 Hwf2 Hsame. assert (objs s1 = objs s2) as Hobjs by (apply map_eq; intros q; by destruct (Hsame q)).
  assert (∀ q o, objs s1 !! q = Some o → regs s1 !! ofd o = regs s2 !! ofd o) as Hregs.
  { intros q o Ho. pose proof Ho as Ho2. rewrite Hobjs in Ho2. destruct (Hsame q) as [_ Hi]. specialize (Hi o Ho).
    unfold interest_of in Hi. pose proof (wf_owns _ _ _ Hwf1 Ho) as H1. pose proof (wf_owns _ _ _ Hwf2 Ho2) as H2.
    destruct (regs s1 !! ofd o) as [[b1 p1]|] eqn:E1, (regs s2 !! ofd o) as [[b2 p2]|] eqn:E2; simplify_eq/=; try done.
    by rewrite (H1 _ _ E1), (H2 _ _ E2). }
  destruct s1 as [os1 g1], s2 as [os2 g2]. simpl in *. f_equal; [done|]. apply map_eq. intros n.
  destruct (g1 !! n) as [[b p]|] eqn:E1.
  - destruct (wf_regs _ Hwf1 n b p E1) as (o & Ho & <-). exact (Hregs _ _ Ho).
  - destruct (g2 !! n) as [[b p]|] eqn:E2; [|by etrans].
    destruct (wf_regs _ Hwf2 n b p E2) as (o & Ho & <-). simpl in Ho. rewrite <-Hobjs in Ho.
    exact (Hregs _ _ Ho).
Qed.

Lemma batch_order evs evs' s :
  loop_wf s → NoDup evs.*1 → Forall (ends_well s) evs → evs ≡ₚ evs' →
  epoll_events_handled evs' s = epoll_events_handled evs s.
Proof.
  intros Hwf Hnd Hall Hperm.
  destruct (batch_alone evs s) as (s1 & -> & Hwf1 & Hd1 & Hs1); try done.
  destruct (batch_alone evs' s) as (s2 & -> & Hwf2 & Hd2 & Hs2);
    [done|by rewrite <-Hperm|by rewrite <-Hperm|]. do 2 f_equal. symmetry. apply loop_eq; [done|done|].
  intros q. destruct (decide (q ∈ evs.*1)) as [Hq|Hq].
  - apply list_elem_of_fmap_1 in Hq as ([p a] & -> & Hev). simpl.
    rewrite Forall_forall in Hall. destruct (Hall _ Hev) as (o & i & x & Ho & _ & Hal).
    specialize (Hd1 _ Hev o i x Ho Hal). rewrite Hperm in Hev. specialize (Hd2 _ Hev o i x Ho Hal). simpl in *.
    destruct (ep_gone E x).
    + split; [congruence|]. intros o' Ho'. congruence.
    + destruct Hd1 as [H1 H2], Hd2 as [H3 H4]. split; [congruence|]. intros o' Ho'. simplify_eq/=. congruence.
  - destruct (Hs1 q Hq) as [H1 H2]. rewrite Hperm in Hq. destruct (Hs2 q Hq) as [H3 H4].
    split; [congruence|]. intros o Ho. rewrite H1 in Ho. by rewrite H2, H4.
Qed.
End batch.

(** ** What an event leaves alone *)
Section frames.
Context {E : Endpoint} {P : Poller}.
Abbreviation loop := (loop E P).
Implicit Types (p q : nat) (s : loop) (o : obj E).

(** Only the connection at [p] has changed; if it is still there, so is its
    descriptor. *)
Definition only_at p s s' : Prop :=
  (∀ q, q ≠ p → same_at q s s') ∧
  ∀ o', objs s' !! p = Some o' → ∃ o, objs s !! p = Some o ∧ ofd o' = ofd o.
#[export] Instance only_at_preorder p : PreOrder (only_at p).
Proof.
  split.
  - intros s. split; [done|]. by eexists.
  - intros s1 s2 s3 [H1 H2] [H3 H4]. split.
    + intros q Hq. eapply same_at_trans; [by apply H1|by apply H3].
    + intros o' Ho'. destruct (H4 o' Ho') as (o & Ho & ->). by apply H2.
Qed.

Lemma put_only_at p o x i s : fits_at p o s → is_Some (objs s !! p) → only_at p s (put p o x i s).
Proof.
  intros Hfit [o1 Ho1]. split; [intros q; by apply fits_same_at|]. intros o'. rewrite put_lookup, decide_True by done.
  destruct (ep_gone E x); [done|]. intros [= <-]. exists o1. split; [done|]. symmetry. by apply (proj1 Hfit).
Qed.

Lemma run_at_frame p m s s' :
  loop_wf s → run_at p m s = Done (tt, s') → loop_wf s' ∧ only_at p s s'.
Proof.
  intros Hwf Hrun. unfold run_at in Hrun. destruct (objs s !! p) as [o|] eqn:Ho; [|done].
  destruct (m (body o)) as [[[] x]| |]; [|done|done]. injection Hrun as <-.
  rewrite moved_put by (by apply (wf_owns _ _ _ Hwf)). split; [by apply put_wf|].
  apply put_only_at; [by apply wf_fits|by eexists].
Qed.

(** The registration of [n] changes, which is that of [p] before and after. *)
Lemma reg_frame p (n : fd) s g :
  loop_wf s → (∀ m, m ≠ n → g !! m = regs s !! m) → (∀ b q, regs s !! n = Some (b, q) → q = p) →
  (∀ b q, g !! n = Some (b, q) → q = p ∧ ∃ o, objs s !! p = Some o ∧ ofd o = n) →
  loop_wf (mkLoop (objs s) g) ∧ only_at p s (mkLoop (objs s) g).
Proof.
  intros Hwf Hother Hbefore Hafter. split.
  - split; simpl; [|apply (wf_fds _ Hwf)|apply (wf_alive _ Hwf)]. intros m b q Hq.
    destruct (decide (m = n)) as [->|Hm].
    + by destruct (Hafter b q Hq) as [-> ?].
    + rewrite Hother in Hq by done. by eapply wf_regs.
  - split; [|by intros o' Ho'; exists o']. intros q Hq. split; [done|]. intros o Ho. unfold interest_of. simpl.
    destruct (decide (ofd o = n)) as [<-|Hn]; [|by rewrite Hother].
    assert (regs s !! ofd o = None) as ->.
    { destruct (regs s !! ofd o) as [[b q']|] eqn:Hr; [|done]. destruct Hq.
      rewrite <-(Hbefore b q' eq_refl). symmetry. by apply (wf_owns _ _ _ Hwf Ho b). }
    destruct (g !! ofd o) as [[b q']|] eqn:Hg; [|done].
    destruct (Hafter b q' eq_refl) as (-> & o' & Ho' & Hfd). destruct Hq. by apply (wf_fds _ Hwf q p o o').
Qed.

(** The registration of a descriptor of [p] is still that of [p]. *)
Lemma owner_stays p o s s1 b q :
  loop_wf s → objs s !! p = Some o → loop_wf s1 → only_at p s s1 → regs s1 !! ofd o = Some (b, q) → q = p.
Proof.
  intros Hwf Ho Hwf1 [Hs _] Hr. destruct (decide (q = p)) as [|Hq]; [done|].
  destruct (wf_regs _ Hwf1 _ _ _ Hr) as (o1 & Ho1 & Hfd). destruct (Hs q Hq) as [Hsame _]. rewrite Hsame in Ho1.
  by apply (wf_fds _ Hwf q p o1 o).
Qed.

Lemma unregister_frame p (n : fd) s :
  loop_wf s → (∀ b q, regs s !! n = Some (b, q) → q = p) →
  loop_wf (unregister n s) ∧ only_at p s (unregister n s).
Proof.
  intros Hwf Hn. apply (reg_frame p n); [done| |done|].
  - intros m Hm. by rewrite lookup_delete_ne.
  - intros b q. by rewrite lookup_delete_eq.
Qed.
Lemma register_frame p o b s :
  loop_wf s → objs s !! p = Some o →
  loop_wf (register (ofd o) b p s) ∧ only_at p s (register (ofd o) b p s).
Proof.
  intros Hwf Ho. apply (reg_frame p (ofd o)); [done| |by apply (wf_owns _ _ _ Hwf)|].
  - intros m Hm. by rewrite lookup_insert_ne.
  - intros b' q. rewrite lookup_insert_eq. intros [= _ <-]. split; [done|by exists o].
Qed.

(** Closing, and taking out the registration. *)
Lemma close_frame p o s s' :
  loop_wf s → objs s !! p = Some o →
  (run_at p (ep_close E);; modify (unregister (ofd o))) s = Done (tt, s') → loop_wf s' ∧ only_at p s s'.
Proof.
  intros Hwf Ho Hrun. unfold mbind, M_bind, modify in Hrun.
  destruct (run_at p (ep_close E) s) as [[[] s1]| |] eqn:Hclose; [|done|done]. injection Hrun as <-.
  apply run_at_frame in Hclose as [Hwf1 Hs1]; [|done].
  destruct (unregister_frame p (ofd o) s1 Hwf1) as [Hwf2 Hs2]; [intros b q; by apply (owner_stays p o s)|].
  split; [done|by etrans].
Qed.
Lemma close_put p o s x :
  loop_wf s → objs s !! p = Some o → ep_close E (body o) = Done (tt, x) →
  (run_at p (ep_close E);; modify (unregister (ofd o))) s = Done (tt, put p o x None s).
Proof.
  intros Hwf Ho Hc. unfold mbind, M_bind, modify. rewrite (run_at_done p o _ x) by done.
  by rewrite moved_put, put_unregister by apply (wf_owns _ _ _ Hwf Ho).
Qed.
End frames.

Lemma epoll_event_frame {E} p a (s s' : loop E Epoll) :
  loop_wf s → epoll_event (p, a) s = Done (tt, s') → loop_wf s' ∧ only_at p s s'.
Proof.
  intros Hwf Hrun. unfold epoll_event, deref_conn, mbind at 1, M_bind at 1 in Hrun.
  destruct (objs s !! p) as [o|] eqn:Ho; [|done].
  assert (∀ s1 s2 : loop E Epoll, loop_wf s1 →
    (if EPOLLIN (a_report a) then run_at p (answer_read a) else mret tt) s1 = Done (tt, s2) →
    loop_wf s2 ∧ only_at p s1 s2) as Hread.
  { intros s1 s2 Hwf1. destruct (EPOLLIN (a_report a)); [by apply run_at_frame|]. by intros [= <-]. }
  destruct (a_hup a); [by apply (close_frame p o)|]. destruct (EPOLLOUT (a_report a)); [|by apply Hread].
  unfold mbind, M_bind, gets, modify in Hrun. case_bool_decide; [|by injection Hrun as <-].
  destruct (register_frame (P := Epoll) p o false s Hwf Ho) as [Hwf1 Hs1].
  destruct (run_at p (answer_write a) _) as [[[] s2]| |] eqn:Hw; [|done|done].
  apply run_at_frame in Hw as [Hwf2 Hs2]; [|done]. apply Hread in Hrun as [Hwf3 Hs3]; [|done]. split; [done|].
  by do 2 (etrans; [eassumption|]).
Qed.

Lemma kqueue_event_frame {E} p o a (s s' : loop E Kqueue) :
  loop_wf s → objs s !! p = Some o → kqueue_event (p, (ofd o, a)) s = Done (tt, s') → loop_wf s' ∧ only_at p s s'.
Proof.
  intros Hwf Ho Hrun. destruct a as [r t|t|w]; cbn [kqueue_event] in Hrun; [by apply run_at_frame in Hrun| |by apply (close_frame p o)].
  assert (loop_wf (drop_write (ofd o) s) ∧ only_at p s (drop_write (ofd o) s)) as [Hwf1 Hs1].
  { unfold drop_write. destruct (regs s !! ofd o) as [[f q]|] eqn:Hr; [|done].
    pose proof (wf_owns _ _ _ Hwf Ho _ _ Hr) as ->. destruct (EVFILT_READ f); [by apply register_frame|].
    apply unregister_frame; [done|]. by apply (wf_owns _ _ _ Hwf). }
  unfold mbind, M_bind, modify in Hrun. apply run_at_frame in Hrun as [Hwf2 Hs2]; [|done].
  split; [done|by etrans].
Qed.

Lemma kqueue_event_alive {E} p n a (s s' : loop E Kqueue) :
  kqueue_event (p, (n, a)) s = Done (tt, s') → is_Some (objs s !! p).
Proof.
  assert (objs (drop_write n s) = objs s) as Heq by (unfold drop_write; by repeat case_match).
  intros Hrun. destruct a; cbn [kqueue_event] in Hrun; unfold mbind, M_bind, modify, run_at in Hrun;
    rewrite ?Heq in Hrun; by destruct (objs s !! p).
Qed.

(** ** Runs: the invariant, and what a step leaves alone *)

(** The events of a poller concern one connection each: a report is for one that is
    registered, and changes nothing but this.  A report of epoll is for whatever its
    pointer points to; one of kqueue carries the descriptor as well. *)
Class Framed {E : Endpoint} (K : Kernel E) := {
  meant_for : answer K → fd → Prop;
  framed_report (s : loop E (poller K)) evs p a : loop_wf s → may_report K s evs → (p, a) ∈ evs →
    ∃ o, objs s !! p = Some o ∧ meant_for a (ofd o) ∧ interest_of (ofd o) s ≠ None;
  framed_event (s s' : loop E (poller K)) p a :
    loop_wf s → (∀ o, objs s !! p = Some o → meant_for a (ofd o)) → handle K (p, a) s = Done (tt, s') →
    loop_wf s' ∧ only_at p s s';
}.

#[export] Instance epoll_framed E : Framed (EpollKernel E).
Proof.
  refine {| meant_for _ _ := True |}.
  - intros s evs p a Hwf [_ Hall] Hin. destruct (Hall p a Hin) as (n & b & Hr & _).
    destruct (wf_regs _ Hwf _ _ _ Hr) as (o & Ho & <-). exists o. split_and!; [done|done|].
    exact (interest_some _ _ _ _ Hr).
  - intros s s' p a Hwf _. by apply epoll_event_frame.
Defined.

#[export] Instance kqueue_framed E : Framed (KqueueKernel E).
Proof.
  refine {| meant_for (a : answer (KqueueKernel E)) n := a.1 = n |}.
  - intros s evs p [n a] Hwf [_ Hall] Hin. destruct (Hall p n a Hin) as (f & Hr & _).
    destruct (wf_regs _ Hwf _ _ _ Hr) as (o & Ho & <-). exists o. split_and!; [done|done|].
    exact (interest_some _ _ _ _ Hr).
  - intros s s' p [n a] Hwf Hn Hrun. simpl in Hn. destruct (objs s !! p) as [o|] eqn:Ho.
    + rewrite (Hn o Ho) in Hrun. by apply (kqueue_event_frame p o a).
    + destruct (kqueue_event_alive p n a s s' Hrun) as [o Ho']. discriminate (eq_trans (eq_sym Ho) Ho').
Defined.

Section runs.
Context {E : Endpoint} {K : Kernel E} `{!Framed K}.
Abbreviation loop := (loop E (poller K)).
Implicit Types (p q : nat) (s : loop) (o : obj E).

Lemma events_frame evs s s' :
  loop_wf s → (∀ p a o, (p, a) ∈ evs → objs s !! p = Some o → meant_for a (ofd o)) →
  handle_all (handle K) evs s = Done (tt, s') → loop_wf s' ∧ ∀ q, q ∉ evs.*1 → same_at q s s'.
Proof.
  revert s. induction evs as [|[p a] evs IH]; intros s Hwf Hfor Hrun; [by injection Hrun as <-|].
  cbn [handle_all] in Hrun. unfold mbind, M_bind in Hrun.
  destruct (handle K (p, a) s) as [[[] s1]| |] eqn:H1; [|done|done].
  apply framed_event in H1 as [Hwf1 [Hs1 Hp]]; [|done|intros o; by apply Hfor, elem_of_cons; left].
  apply IH in Hrun as [Hwf2 Hs2]; [|done|].
  - split; [done|]. intros q [Hq Hqs]%not_elem_of_cons. eapply same_at_trans; [by apply Hs1|by apply Hs2].
  - intros q b o' Hin Ho'. assert (∃ o, objs s !! q = Some o ∧ ofd o' = ofd o) as (o & Ho & ->).
    { destruct (decide (q = p)) as [->|Hq]; [by apply Hp|]. destruct (Hs1 q Hq) as [Heq _]. exists o'. by rewrite <-Heq. }
    apply (Hfor q b); [by apply elem_of_cons; right|done].
Qed.

Lemma reports_frame evs s s' :
  loop_wf s → may_report K s evs → handle_all (handle K) evs s = Done (tt, s') →
  loop_wf s' ∧ ∀ q, q ∉ evs.*1 → same_at q s s'.
Proof.
  intros Hwf Hpos. apply events_frame; [done|]. intros p a o Hin Ho.
  destruct (framed_report s evs p a Hwf Hpos Hin) as (o' & Ho' & Hfor & _). rewrite Ho in Ho'. by injection Ho' as ->.
Qed.

Hypothesis Hstart : ∀ x, ep_start E = Done x → ep_gone E x = false.

Lemma accept_frame p (n : fd) s s' :
  loop_wf s → possible s (Accepts p n) → loop_act (Accepts p n) s = Done (tt, s') →
  loop_wf s' ∧ ∀ q, q ≠ p → same_at q s s'.
Proof.
  intros Hwf [Hp Hn] Hrun. cbn [loop_act] in Hrun.
  destruct (ep_start E) as [x| |] eqn:Hx; [|by unfold accept_at in Hrun; rewrite Hx in Hrun..].
  destruct (accept_put p n s x Hwf Hp Hn Hx (Hstart x eq_refl)) as [Hfit Hacc].
  pose proof (eq_trans (eq_sym Hrun) Hacc) as [= ->]. split; [by apply fits_put_wf|].
  intros q. by apply (fits_same_at p q (mkObj n x)).
Qed.

Lemma steps_wf l s s' : loop_wf s → loop_steps s l s' → loop_wf s'.
Proof.
  intros Hwf Hl. induction Hl as [|l s1 b s2 Hl IH Hpos Hrun]; [done|]. destruct b as [p n|p k|evs].
  - by apply accept_frame in Hrun as [? _].
  - by apply run_at_frame in Hrun as [? _].
  - by apply reports_frame in Hrun as [? _].
Qed.

(** Where nothing is registered, nothing happens any more. *)
Definition frozen p o s : Prop := objs s !! p = Some o ∧ interest_of (ofd o) s = None.

Lemma frozen_same p o s s' : frozen p o s → same_at p s s' → frozen p o s'.
Proof. intros [H1 H2] [H3 H4]. split; [congruence|]. by rewrite H4. Qed.

Lemma frozen_step p o s b s' :
  loop_wf s → frozen p o s → possible s b → (∀ k, b ≠ Runs p k) →
  loop_act b s = Done (tt, s') → frozen p o s'.
Proof.
  intros Hwf Hf Hpos Hk Hrun. pose proof Hf as [Ho Hi]. apply (frozen_same p o s); [done|].
  destruct b as [q n|q k|evs].
  - apply accept_frame in Hrun as [_ Hs']; [|done..]. apply Hs'. intros <-. destruct Hpos as [Hp _]. congruence.
  - apply run_at_frame in Hrun as [_ [Hs' _]]; [|done]. apply Hs'. intros <-. by eapply Hk.
  - apply reports_frame in Hrun as [_ Hs']; [|done..]. apply Hs'.
    intros ([q a] & Hq & Hev)%list_elem_of_fmap_1. simpl in Hq. subst q.
    destruct (framed_report s evs p a Hwf Hpos Hev) as (o' & Ho' & _ & Hi'). rewrite Ho in Ho'. by injection Ho' as <-.
Qed.

Lemma frozen_steps p o s l s' :
  loop_wf s → frozen p o s → (∀ k, Runs p k ∉ l) → loop_steps s l s' → frozen p o s'.
Proof.
  intros Hwf Hf Hk Hl. induction Hl as [|l s1 b s2 Hl IH Hpos Hrun]; [done|].
  apply (frozen_step p o s1 b s2); [by apply (steps_wf l s)| |done| |done].
  - apply IH. intros k Hin. apply (Hk k), elem_of_app. by left.
  - intros k ->. apply (Hk k), elem_of_app. right. by left.
Qed.

(** A connection that is closed and not registered any more stays as it is. *)
Lemma closed_frozen p o s x l s' :
  loop_wf s → objs s !! p = Some o → ep_gone E x = false → (∀ k, Runs p k ∉ l) →
  loop_steps (put p o x None s) l s' → frozen p (mkObj (ofd o) x) s'.
Proof.
  intros Hwf Ho Hgone. apply frozen_steps; [by apply put_wf|].
  split; [by rewrite put_lookup, decide_True, Hgone|]. by apply (interest_put p o).
Qed.
End runs.
