(* ===== verification/ServerSide.v ===== *)
(** * The server as its peers see it

    A server on one connection: bytes arrive, its kernel reports something, and it
    writes bytes.  [ServerSide] is this interface and [ServerLaws] what it promises
    for given requests and the responses to them: bytes that arrive and events of
    its kernel never make it fail; what it has written is at any time a prefix of
    the responses to requests that have arrived; and when all requests have arrived
    its kernel can get all responses out.

    [PollServer] and [UringServer] are the server of server/rpc_server.cc on the two
    kinds of connections. *)
From stdpp Require Import strings.
From S2P Require Import Executor Sockets Start Prelude Block Segments InputStream OutputStream Streams Conn Connection ConnectionProofs Sender Uring Wire Protocol Receiver PollReceiver UringRead Server ServerProofs UringServer.

(** ** The interface *)
Record ServerSide := mkServerSide {
  srv : Type;
  srv_pre : Type;                              (** when only [send_fn] has been started *)
  srv_event : Type;
  srv_send : nat → outcome srv_pre;            (** the tasks that [RpcServer::start] spawns *)
  srv_recv : nat → srv_pre → outcome srv;
  srv_arrive : nat → list cell → list write_answer → M srv unit;
  srv_on : nat → srv_event → M srv unit;
  srv_wire : srv → list cell;
  srv_calm : nat → srv_event → Prop;           (** what is expected of its kernel *)
}.

(** Both tasks. *)
Definition srv_start (V : ServerSide) (fuel : nat) : outcome (srv V) :=
  match srv_send V fuel with
  | Done c => srv_recv V fuel c
  | Faulted f => Faulted f
  | OutOfFuel => OutOfFuel
  end.

Fixpoint srv_ons (V : ServerSide) (fuel : nat) (es : list (srv_event V)) : M (srv V) unit :=
  match es with
  | [] => mret tt
  | e :: es => srv_on V fuel e;; srv_ons V fuel es
  end.

Lemma wp_ons_app V fuel es1 es2 (Q : unit → srv V → Prop) s :
  wp (srv_ons V fuel es1) (λ _, wp (srv_ons V fuel es2) Q) s → wp (srv_ons V fuel (es1 ++ es2)) Q s.
Proof.
  revert s. induction es1 as [|e es1 IH]; intros s Hw; [done|]. simpl in *. apply wp_bind.
  apply wp_bind_inv in Hw. eapply wp_mono; [exact Hw|]. intros [] s1. apply IH.
Qed.

Class ServerLaws `{Protobuf} (V : ServerSide) (fuel : nat) (reqs : list (Header * list cell))
    (replies : list (list cell)) := {
  (** [future] is what is still to arrive. *)
  srv_inv : list cell → srv V → Prop;
  law_start : ∃ c s, srv_send V fuel = Done c ∧ srv_recv V fuel c = Done s ∧
    srv_inv (request_stream reqs) s;
  law_arrive b t future s :
    b ≠ [] → event_ok fuel (CanWrite t) → srv_inv (b ++ future) s →
    wp (srv_arrive V fuel b t) (λ _, srv_inv future) s;
  law_on e future s :
    srv_calm V fuel e → srv_inv future s → wp (srv_on V fuel e) (λ _, srv_inv future) s;
  law_wire future s :
    srv_inv future s →
    ∃ a, a ≤ length reqs ∧ srv_wire V s `prefix_of` concat (take a replies) ∧
      length (request_stream (take a reqs)) + length future ≤ length (request_stream reqs);
  law_flush s :
    srv_inv [] s →
    ∃ es, Forall (srv_calm V fuel) es ∧
      wp (srv_ons V fuel es) (λ _ s', srv_inv [] s' ∧ srv_wire V s' = concat replies) s;
}.

Lemma law_starts `{Protobuf} V fuel reqs replies {Laws : ServerLaws V fuel reqs replies} :
  ∃ s, srv_start V fuel = Done s ∧ srv_inv (request_stream reqs) s.
Proof. destruct law_start as (c & s & Hc & Hs & Hinv). exists s. unfold srv_start. by rewrite Hc, Hs. Qed.

(** The state after a program. *)
Definition final_state {A S} (o : outcome (A * S)) : outcome S :=
  match o with
  | Done (_, s) => Done s
  | Faulted f => Faulted f
  | OutOfFuel => OutOfFuel
  end.

(** A program on a part of the state. *)
Definition on_snd {A B R} (m : A → M B R) (k : R → A → A) : M (A * B) unit := λ s,
  match m s.1 s.2 with
  | Done (r, b) => Done (tt, (k r s.1, b))
  | Faulted f => Faulted f
  | OutOfFuel => OutOfFuel
  end.
Lemma wp_on_snd {A B R} (m : A → M B R) (k : R → A → A) (Q : unit → A * B → Prop) s :
  wp (m s.1) (λ r b, Q tt (k r s.1, b)) s.2 → wp (on_snd m k) Q s.
Proof. unfold wp, on_snd. by destruct (m s.1 s.2) as [[r b]| |]. Qed.

(** What has been answered when [future] is still to arrive. *)
Lemma run_post_answered {Pb : Protobuf} {PbLaws : ProtobufLaws} {C : Type} {Bufs : Buffers C}
    {Cn : Conn C} {CnLaws : ConnLaws C} name2service_ fuel future stop reqs replies x (c : C) :
  run_post name2service_ fuel [] future stop reqs replies x c →
  ∃ a out, a ≤ length reqs ∧ out = concat (take a replies) ∧ good fuel out c ∧
    length (request_stream (take a reqs)) + length future ≤ length (request_stream reqs).
Proof.
  intros (pc & pos & ans & left & r1 & r2 & _ & Hcalls & Hreplies & H1 & _ & Hl & _ & _ & Hpt & _).
  assert (length r1 = length ans) as Hlen by (symmetry; by eapply length_mapM).
  exists (length ans), (concat r1). split_and!.
  - rewrite Hcalls, length_app. lia.
  - by rewrite Hreplies, <-Hlen, take_app_length.
  - exact Hl.
  - apply at_point_length in Hpt. rewrite length_app in Hpt.
    rewrite Hcalls, take_app_length, request_stream_app, length_app. lia.
Qed.

(** ** Over a polled connection *)
Section poll.
Context `{Protobuf} (name2service_ : gmap string Service).

Definition poll_event (fuel : nat) (e : net_event) : M (recv_exit recv_pc unit * Connection) unit :=
  on_snd (λ x, match x with
               | Suspended pc => on_events name2service_ fuel pc [e]
               | Returned _ => after_return fuel [e]
               end) (λ x _, x).

Definition PollServer : ServerSide := {|
  srv := recv_exit recv_pc unit * Connection;
  srv_pre := Connection;
  srv_event := list write_answer;
  srv_send fuel := final_state (send_fn fuel (Connection_new [] []));
  srv_recv fuel c := recv_fn name2service_ fuel c;
  srv_arrive fuel b t := poll_event fuel (Arrives [RdBytes b] t);
  srv_on fuel t := poll_event fuel (CanWrite t);
  srv_wire s := wire s.2;
  srv_calm fuel t := event_ok fuel (CanWrite t);
|}.
End poll.

(** ** Over io_uring *)
Section uring.
Context `{Protobuf} (name2service_ : gmap string Service).

Definition UringServer : ServerSide := {|
  srv := recv_exit recv_pc unit * UringConn;
  srv_pre := UringConn;
  srv_event := uring_event;
  srv_send fuel := final_state (on_uc_out (uring_send_fn fuel) (UringConn_new []));
  srv_recv fuel c := recv_fn name2service_ fuel c;
  (** The bytes are with the kernel, which hands them over when a read completes. *)
  srv_arrive fuel b _ := modify (λ s, (s.1, set_uc_rx (uc_rx s.2 ++ [RdBytes b]) s.2));
  srv_on fuel e :=
    on_snd (λ x, match x with
                 | Suspended pc => on_completions name2service_ fuel pc [e]
                 | Returned _ => after_done fuel [e]
                 end) (λ x _, x);
  srv_wire s := u_wire (uc_out s.2);
  srv_calm _ e := in_full e;
|}.
End uring.

(** ** The laws *)
Section laws.
Context `{ProtobufLaws} (name2service_ : gmap string Service) (fuel : nat).
Context (reqs : list (Header * list cell)) (replies : list (list cell)).
Abbreviation requests := (request_stream reqs).
Hypothesis Hplaced : placed 0 reqs.
Hypothesis Hresp : mapM (respond name2service_) reqs = Some replies.
Hypothesis Hsmall : (length requests < 2 ^ 31 - 1)%Z.
Hypothesis Hfuel : length requests + 2 < fuel.
Hypothesis Hcalls : 4 * length reqs + 4 < fuel.
Hypothesis Hwindow : (length (concat replies) ≤ kWindow)%Z.
Hypothesis Hreplies : length (concat replies) + 10 < fuel.

Abbreviation waiting future s :=
  (run_post name2service_ fuel [] future (length requests) reqs replies s.1 s.2).

Lemma poll_event_spec e future (s : srv (PollServer name2service_)) :
  event_ok fuel e → waiting (event_bytes e ++ future) s →
  wp (poll_event name2service_ fuel e) (λ _ s', waiting future s') s.
Proof.
  destruct s as [x c]. intros He Hp. simpl in *.
  pose proof Hp as (pc & ? & ? & ? & ? & ? & -> & _). apply wp_on_snd. simpl. apply wp_bind.
  eapply wp_mono; [apply (on_event_spec name2service_ fuel _ _ _ pc e future c Hp He); try done; lia|].
  intros y c' Hp'. pose proof Hp' as (pc' & ? & ? & ? & ? & ? & -> & _). by apply wp_ret.
Qed.

#[export] Instance PollServer_laws : ServerLaws (PollServer name2service_) fuel reqs replies.
Proof.
  refine {| srv_inv future (s : srv (PollServer name2service_)) := waiting future s |}.
  - pose proof (serve_part name2service_ fuel reqs replies [] requests Hplaced Hresp eq_refl
      (Forall_nil_2 _) Hsmall Hfuel Hcalls Hwindow ltac:(lia)) as Hs.
    apply wp_done in Hs as (y & d & Hrun & Hp). unfold serve, mbind at 1, M_bind at 1 in Hrun. simpl.
    destruct (send_fn fuel _) as [[[] c1]| |]; try done. exists c1. unfold mbind, M_bind in Hrun.
    destruct (recv_fn name2service_ fuel c1) as [[x c2]| |] eqn:Hr; try done. exists (x, c2).
    split_and!; try done. destruct x as [pc|[]]; by injection Hrun as <- <-.
  - intros b t future s Hb (Ht & Hft & _) Hp. apply poll_event_spec.
    + split_and!; [done|done|by repeat constructor|simpl; lia].
    + simpl. unfold rx_bytes. simpl. by rewrite app_nil_r.
  - intros t future s Ht Hp. by apply poll_event_spec.
  - intros future s Hp. apply run_post_answered in Hp as (a & out & Ha & -> & Hl & Hle).
    exists a. split_and!; try done. destruct (live_sender _ _ _ Hl) as (_ & _ & _ & Hw).
    by exists (unsent s.2).
  - intros [x c] Hp. simpl in Hp.
    assert (∃ w : nat, (kWindow ≤ w)%Z) as [w Hw] by (exists (Z.to_nat kWindow); unfold kWindow; lia).
    exists [[WrAccept w]]. pose proof Hwindow as Hwin. unfold kWindow in Hwin.
    assert (event_ok fuel (CanWrite [WrAccept w])) as Hok.
    { split_and!; [|simpl; lia|done]. simpl. by rewrite bool_decide_eq_true_2. }
    split; [by constructor|]. cbn [srv_ons]. apply wp_bind.
    pose proof (poll_event_spec (CanWrite [WrAccept w]) [] (x, c) Hok Hp) as Hkeep.
    pose proof (run_post_end name2service_ _ _ _ _ _ _ Hp) as (-> & Hl & _).
    assert (wp (poll_event name2service_ fuel (CanWrite [WrAccept w]))
      (λ _ s', unsent s'.2 = []) (Suspended AtHeaderLen, c)) as Hall.
    { apply wp_on_snd. cbn [fst snd]. apply wp_bind, wp_bind, wp_modify, wp_bind.
      destruct (live_sender _ _ _ Hl) as (Ho & Hcl & Hset & Hout). eapply wp_mono.
      { apply (resume_flushes fuel (concat replies) w); simpl; try done;
          [by apply settled_open|lia]. }
      intros [] c' Hu. by apply wp_ret, wp_ret. }
    eapply wp_mono; [apply (wp_and _ _ _ _ Hkeep Hall)|]. intros [] [x' c'] [Hp' Hu]. apply wp_ret.
    simpl in *. split; [done|].
    pose proof (run_post_end name2service_ _ _ _ _ _ _ Hp') as (_ & Hl' & _).
    destruct (live_sender _ _ _ Hl') as (_ & _ & _ & Hout). by rewrite Hu, app_nil_r in Hout.
Qed.

(** *** Over io_uring *)
Abbreviation uring_inv future s := (waiting future s ∧ keeps_on (uc_rx (snd s))).
Abbreviation U := (UringServer name2service_).

Lemma uring_on_spec e future (s : srv U) :
  in_full e → uring_inv future s →
  wp (srv_on U fuel e) (λ _ s', uring_inv future s' ∧
    (e = ReadDone → rx_work (uc_rx s'.2) ≤ rx_work (uc_rx s.2) - 1)) s.
Proof.
  destruct s as [x c]. intros He [Hp Hk]. simpl in Hp, Hk |- *.
  pose proof Hp as (pc & ? & ? & ? & ? & ? & -> & _). apply wp_on_snd. cbn [fst snd on_completions].
  assert (length (concat replies) + 3 < fuel) as Hf by lia. apply wp_bind. destruct He as [->| ->].
  - destruct (uc_rx c) as [|a rest] eqn:Hrx.
    + apply wp_bind. unfold uring_read_complete. apply wp_bind, wp_gets, wp_bind, wp_gets. rewrite Hrx.
      destruct (uc_read c); apply wp_ret, wp_ret, wp_ret; simpl; rewrite Hrx; split_and!; try done; lia.
    + eapply wp_mono.
      { apply (waiting_read name2service_ fuel _ _ (run_post_waits name2service_ fuel reqs replies future _
          Hcalls Hwindow Hf) pc a rest [] c Hp); [by rewrite app_nil_r|done|done]. }
      intros [pc'|] c' (Hp' & rest' & Hrx' & Hk' & Hw); [|by destruct Hp']. rewrite app_nil_r in Hrx'.
      apply wp_ret. cbn [fst snd]. rewrite Hrx'. split_and!; try done. lia.
  - apply wp_bind. eapply wp_mono.
    { apply (waiting_write name2service_ fuel _ _ (run_post_waits name2service_ fuel reqs replies future _
        Hcalls Hwindow Hf) pc c Hp). }
    intros [] c' [Hp' Hrx']. apply wp_ret, wp_ret. cbn [fst snd]. by rewrite Hrx'.
Qed.

(** Enough reads complete. *)
Lemma uring_drains n future (s : srv U) :
  uring_inv future s → rx_work (uc_rx s.2) ≤ n →
  wp (srv_ons U fuel (replicate n ReadDone)) (λ _ s', uring_inv future s' ∧ uc_rx s'.2 = []) s.
Proof.
  revert s. induction n as [|n IH]; intros s Hinv Hn.
  { apply wp_ret. split; [done|]. unfold rx_work in Hn. destruct (uc_rx s.2); [done|simpl in Hn; lia]. }
  cbn [replicate srv_ons]. apply wp_bind. eapply wp_mono; [apply uring_on_spec; [by left|done]|].
  intros [] s1 [Hinv1 Hw1]. apply IH; [done|]. specialize (Hw1 eq_refl). lia.
Qed.

Lemma u_drained (s : srv U) :
  uring_inv [] s → uc_rx s.2 = [] → u_inv (concat replies) (uc_out s.2).
Proof.
  intros [Hp _] Hrx. apply (run_post_done name2service_) in Hp as (_ & Hl & _); [|simpl; by rewrite Hrx].
  apply Hl.
Qed.

(** A write completes. *)
Lemma uring_writes (s : srv U) :
  uring_inv [] s → uc_rx s.2 = [] →
  wp (srv_on U fuel (WriteDone None)) (λ _ s', uring_inv [] s' ∧ uc_rx s'.2 = [] ∧
    (idle (uc_out s'.2) ∨ writing (u_unsent (uc_out s'.2)) (uc_out s'.2)) ∧
    (idle (uc_out s.2) → uc_out s'.2 = uc_out s.2) ∧
    ∀ bytes, writing bytes (uc_out s.2) → u_wire (uc_out s'.2) = u_wire (uc_out s.2) ++ bytes) s.
Proof.
  intros Hinv Hrx. pose proof (u_drained _ Hinv Hrx) as Hu. destruct s as [x c].
  pose proof Hinv as [Hp _]. pose proof Hp as (pc & ? & ? & ? & ? & ? & Hx & _). simpl in Hx. subst x.
  pose proof (uring_on_spec (WriteDone None) [] _ ltac:(by right) Hinv) as Hkeep.
  pose proof Hwindow as Hwin. unfold kWindow in Hwin.
  assert (wp (srv_on U fuel (WriteDone None)) (λ _ s', uc_rx s'.2 = [] ∧
    (idle (uc_out s'.2) ∨ writing (u_unsent (uc_out s'.2)) (uc_out s'.2)) ∧
    (idle (uc_out c) → uc_out s'.2 = uc_out c) ∧
    ∀ bytes, writing bytes (uc_out c) → u_wire (uc_out s'.2) = u_wire (uc_out c) ++ bytes)
    (Suspended pc, c)) as Hall.
  { apply wp_on_snd. cbn [fst snd on_completions]. apply wp_bind, wp_bind, wp_on_uc_out, wp_bind, wp_gets.
    eapply wp_mono; [apply (u_inv_complete fuel (concat replies)); [done|lia|lia]|].
    intros [] u' (_ & Hw & Hi & Hsame). by apply wp_ret, wp_ret. }
  eapply wp_mono; [apply (wp_and _ _ _ _ Hkeep Hall)|]. by intros [] s' [[? _] (? & ? & ? & ?)].
Qed.

#[export] Instance UringServer_laws : ServerLaws (UringServer name2service_) fuel reqs replies.
Proof.
  refine {| srv_inv future (s : srv U) := uring_inv future s |}.
  - destruct (uring_serve_starts name2service_ fuel reqs replies [] requests) as (pc & c & Hrun & Hp & Hrx);
      try done. specialize (Hrun []). unfold uring_serve, mbind at 1, M_bind at 1 in Hrun. simpl.
    destruct (on_uc_out _ _) as [[[] c1]| |]; try done. exists c1. unfold mbind, M_bind in Hrun.
    destruct (recv_fn name2service_ fuel c1) as [[x c2]| |] eqn:Hr; try done. exists (x, c2).
    split_and!; try done; destruct x as [pc'|[]]; injection Hrun as ??; simplify_eq; simpl; try done.
    rewrite Hrx. constructor.
  - intros b t future [x c] Hb _ [Hp Hk]. apply wp_modify. cbn [fst snd] in *.
    pose proof (run_post_total name2service_ _ _ _ _ _ _ _ Hp) as Htot.
    apply (run_post_frame name2service_) in Hp as (pc & out & -> & Hlen & Hl & Hpk & Hframe).
    assert (∀ l, rx_bytes (l ++ [RdBytes b]) = rx_bytes l ++ b) as Hrxb.
    { intros l. unfold rx_bytes. rewrite fmap_app, concat_app. simpl. by rewrite app_nil_r. }
    split; [|apply Forall_app; split; [done|by repeat constructor; destruct b]].
    apply (Hframe b); try done; [|by uring_laws; simpl; rewrite Hrxb].
    unfold incoming in Htot. uring_laws. rewrite !length_app in Htot.
    destruct Hl. split; simpl; rewrite ?Hrxb, ?length_app; try done; lia.
  - intros e future s He Hinv. eapply wp_mono; [by apply uring_on_spec|]. by intros [] s' [? _].
  - intros future s [Hp _]. apply run_post_answered in Hp as (a & out & Ha & -> & Hl & Hle).
    exists a. split_and!; try done. uring_laws. destruct (ul_sender _ _ _ Hl) as (_ & Hw & _).
    by exists (u_unsent (uc_out s.2)).
  - intros s Hinv. exists (replicate (rx_work (uc_rx s.2)) ReadDone ++ [WriteDone None; WriteDone None]).
    split.
    { apply Forall_app. split; [by apply Forall_replicate; left|repeat constructor; by right]. }
    apply wp_ons_app. eapply wp_mono; [by apply (uring_drains _ [])|]. intros [] s1 [Hinv1 Hrx1].
    cbn [srv_ons]. apply wp_bind. eapply wp_mono; [by apply uring_writes|].
    intros [] s2 (Hinv2 & Hrx2 & Hst2 & _). apply wp_bind. eapply wp_mono; [by apply uring_writes|].
    intros [] s3 (Hinv3 & Hrx3 & _ & Hidle & Hwr). apply wp_ret. split; [done|].
    pose proof (u_drained _ Hinv2 Hrx2) as (_ & Hw2 & _). simpl. destruct Hst2 as [Hi|Hst2].
    + rewrite (Hidle Hi). destruct Hi as (_ & _ & _ & Hnil & _). by rewrite Hnil, app_nil_r in Hw2.
    + by rewrite (Hwr _ Hst2).
Qed.
End laws.

(** ** Which one [RpcServer::start] makes *)
Definition server_side `{Protobuf} (kind : conn_kind) (name2service_ : gmap string Service) : ServerSide :=
  match kind with
  | PollKind => PollServer name2service_
  | UringKind => UringServer name2service_
  end.

Lemma server_side_laws `{ProtobufLaws} (kind : conn_kind) (name2service_ : gmap string Service)
    (fuel : nat) (reqs : list (Header * list cell)) (replies : list (list cell)) :
  let requests := request_stream reqs in
  placed 0 reqs → mapM (respond name2service_) reqs = Some replies →
  (length requests < 2 ^ 31 - 1)%Z → length requests + 2 < fuel → 4 * length reqs + 4 < fuel →
  (length (concat replies) ≤ kWindow)%Z → length (concat replies) + 10 < fuel →
  ServerLaws (server_side kind name2service_) fuel reqs replies.
Proof. intros. destruct kind; [by apply PollServer_laws|by apply UringServer_laws]. Defined.
