(* ===== verification/ServerProcess.v ===== *)
(** * The whole server process (server/rpc_server.cc)

    [RpcServer::start] accepts connections on its own thread and hands the two tasks
    of each to one executor, which runs them and then, when the network wakes it,
    resumes the coroutines of any of the connections.  [Start] has the two threads
    with opaque tasks; here a task that the executor takes from its queue is run: the
    first one starts [send_fn] on its connection and the second one [recv_fn].

    A connection is made when it is accepted, sends when its first task has run and
    serves when its second one has.  Its peer's bytes are handed over in pieces of any
    size, and its kernel's events handled, while the executor handles events; before
    it serves, nothing is registered and the bytes stay with the kernel.

    What a connection does is that of [ServerSide], so that the theorems hold for both
    kinds of connections.  Whether the kernel serves a descriptor whose options it
    refused is not modelled: its bytes arrive or not like those of any other. *)
From stdpp Require Import strings.
From S2P Require Import Executor Sockets Start Prelude Block Conn Connection Sender Wire Protocol Receiver PollReceiver Server ServerProofs ServerSide.

(** ** Model *)
Inductive stage (V : ServerSide) :=
  | Made                               (** accepted, no task has run *)
  | Sending (c : srv_pre V)            (** [send_fn] has been started *)
  | Serving (s : srv V).               (** [recv_fn] too *)
Arguments Made {V}.
Arguments Sending {V} c.
Arguments Serving {V} s.

Record served (V : ServerSide) := mkServed {
  at_stage : stage V;
  arrived : nat;                       (** bytes of its peer handed over *)
}.
Arguments mkServed {V} _ _.
Arguments at_stage {V} _.
Arguments arrived {V} _.

Record ServerProcess (V : ServerSide) := mkServerProcess {
  threads : start_state;
  conns : list (served V);
}.
Arguments mkServerProcess {V} _ _.
Arguments threads {V} _.
Arguments conns {V} _.

Inductive process_action (V : ServerSide) :=
  | Thread (a : server_action)                          (** a thread makes a step *)
  | Bytes (n k : nat) (t : list write_answer)           (** [k] bytes for connection [n] *)
  | Event (n : nat) (e : srv_event V).                  (** an event of connection [n] *)
Arguments Thread {V} a.
Arguments Bytes {V} n k t.
Arguments Event {V} n e.

(** A run of something that starts from nothing. *)
Definition started {S A} (o : outcome A) : M S A := λ s,
  match o with
  | Done a => Done (a, s)
  | Faulted f => Faulted f
  | OutOfFuel => OutOfFuel
  end.

(** The task that the executor takes from its queue with its next step. *)
Definition next_task (e : @State server_task) : option server_task :=
  match at_ e, task_queue_ e with
  | Drain, t :: _ => Some t
  | _, _ => None
  end.

Definition handling (e : @State server_task) : bool :=
  match at_ e with Handle _ => true | _ => false end.

Section process.
Context `{Protobuf} {V : ServerSide} (apple : bool) (server : RpcServer) (fuel : nat).
Context (reqs : nat → list (Header * list cell)).
Abbreviation ServerProcess := (ServerProcess V).

Definition set_stage (g : stage V) (x : served V) : served V := mkServed g (arrived x).

(** The two tasks; a task before its turn is a fault. *)
Definition run_server_task (t : server_task) : M (served V) unit :=
  g ← gets at_stage;
  match t, g with
  | SendFn _, Made => c ← started (srv_send V fuel); modify (set_stage (Sending c))
  | RecvFn _, Sending c => s ← started (srv_recv V fuel c); modify (set_stage (Serving s))
  | _, _ => fail_with ResumeDestroyed
  end.
Definition task_conn (t : server_task) : nat :=
  match t with SendFn n | RecvFn n => n end.

(** A move of a connection that serves. *)
Definition serving (m : M (srv V) unit) : M (served V) unit := λ x,
  match at_stage x with
  | Serving s =>
      match m s with
      | Done (_, s') => Done (tt, mkServed (Serving s') (arrived x))
      | Faulted f => Faulted f
      | OutOfFuel => OutOfFuel
      end
  | _ => Done (tt, x)
  end.
Definition hand_over (n k : nat) (t : list write_answer) : M (served V) unit :=
  x ← gets id;
  let b := take k (drop (arrived x) (request_stream (reqs n))) in
  match at_stage x with
  | Serving _ =>
      if decide (b = []) then mret tt
      else modify (λ x, mkServed (at_stage x) (arrived x + length b));;
           serving (srv_arrive V fuel b t)
  | _ => mret tt
  end.

Definition at_conn (n : nat) (m : M (served V) unit) : M ServerProcess unit := λ s,
  match conns s !! n with
  | Some x =>
      match m x with
      | Done (_, x') => Done (tt, mkServerProcess (threads s) (<[n := x']> (conns s)))
      | Faulted f => Faulted f
      | OutOfFuel => OutOfFuel
      end
  | None => fail_with NullDeref s
  end.

(** The threads have gone on to [st]; a connection that was accepted is made. *)
Definition threads_at (st : start_state) (s : ServerProcess) : ServerProcess :=
  mkServerProcess st (conns s ++ replicate (length (accepted st) - length (conns s)) (mkServed Made 0)).

(** A step of a thread that sleeps or has ended changes nothing. *)
Definition process_act (a : process_action V) : M ServerProcess unit :=
  match a with
  | Thread a =>
      st ← gets threads;
      match server_act apple server a st with
      | None => mret tt
      | Some st' =>
          modify (threads_at st');;
          match a, next_task (exec st) with
          | ExecStep _ _, Some t => at_conn (task_conn t) (run_server_task t)
          | _, _ => mret tt
          end
      end
  | Bytes n k t =>
      s ← gets id;
      if handling (exec (threads s)) && bool_decide (n < length (conns s))
      then at_conn n (hand_over n k t) else mret tt
  | Event n e =>
      s ← gets id;
      if handling (exec (threads s)) && bool_decide (n < length (conns s))
      then at_conn n (serving (srv_on V fuel e)) else mret tt
  end.
Fixpoint process_acts (l : list (process_action V)) : M ServerProcess unit :=
  match l with
  | [] => mret tt
  | a :: l => process_act a;; process_acts l
  end.

Definition process_new (p : Process) : ServerProcess :=
  mkServerProcess (mkStart p [] AtAccept (exec_new (Scheduler_executor apple (scheduler_ server)))) [].

(** What is on the wire to the peer. *)
Definition wire_to (x : served V) : list cell :=
  match at_stage x with Serving s => srv_wire V s | _ => [] end.
End process.

(** The kernel is calm. *)
Definition process_ok {V} (fuel : nat) (a : process_action V) : Prop :=
  match a with
  | Thread _ => True
  | Bytes _ _ t => event_ok fuel (CanWrite t)
  | Event _ e => srv_calm V fuel e
  end.

(** ** The threads *)
Lemma length_conn_tasks N : length (conn_tasks N) = 2 * N.
Proof. induction N as [|N IH]; [done|]. simpl. rewrite length_app, IH. simpl. lia. Qed.

Lemma conn_tasks_lookup N i t :
  conn_tasks N !! i = Some t →
  ∃ n, n < N ∧ ((i = 2 * n ∧ t = SendFn n) ∨ (i = 2 * n + 1 ∧ t = RecvFn n)).
Proof.
  induction N as [|N IH]; [done|]. simpl.
  intros [Hi|[Hle Hi]]%lookup_app_Some.
  - destruct (IH Hi) as (n & ? & ?). exists n. split; [lia|done].
  - rewrite length_conn_tasks in Hle, Hi. exists N. split; [lia|].
    destruct (i - 2 * N) as [|[|]] eqn:Hsub; simplify_eq/=; [left|right]; (split; [lia|done]).
Qed.

Section threads.
Context (apple : bool) (server : RpcServer).
Abbreviation b := (Scheduler_executor apple (scheduler_ server)).
Abbreviation timeout := (timeout_ (scheduler_ server)).

Lemma exec_step_ran net expired (e e' : @State server_task) :
  exec_step b timeout net expired e = Some e' →
  ran e' = ran e ++ option_list (next_task e) ∧ stop_ e' = stop_ e ∧ (stop_ e = false → at_ e' ≠ Exited).
Proof.
  unfold exec_step, next_task. intros He.
  destruct (at_ e) as [| | | |[]|] eqn:Hat; simplify_eq/=; rewrite ?app_nil_r; try done.
  - split_and!; try done. by intros ->.
  - destruct (task_queue_ e); simplify_eq/=; rewrite ?app_nil_r; split_and!; try done. by rewrite Hat.
  - repeat case_match; simplify_eq/=; done.
  - by case_decide.
Qed.

Lemma spawn_step_ran i (e e' : @State server_task) :
  spawn_step b true i e = Some e' →
  ran e' = ran e ∧ stop_ e' = stop_ e ∧ at_ e' = at_ e.
Proof. unfold spawn_step. intros. repeat case_match; by simplify_eq/=. Qed.

Lemma spawn_next_ran i t pc st st' :
  spawn_next apple server i t pc st = Some st' →
  accepted st' = accepted st ∧ ran (exec st') = ran (exec st) ∧ stop_ (exec st') = stop_ (exec st) ∧
  at_ (exec st') = at_ (exec st).
Proof.
  unfold spawn_next. intros Hs.
  destruct (spawners (exec st) !! i) as [[t'| | |ok]|] eqn:Hi; simpl in Hs.
  4: by simplify_eq/=.
  1-3: apply bind_Some in Hs as (e & He%spawn_step_ran & [= <-]); by destruct He.
  rewrite Hi in Hs. by simplify_eq/=.
Qed.

Lemma start_step_ran st st' :
  start_step apple server st = Some st' →
  (accepted st' = accepted st ∨ ∃ a, accepted st' = accepted st ++ [a]) ∧
  ran (exec st') = ran (exec st) ∧ stop_ (exec st') = stop_ (exec st) ∧ at_ (exec st') = at_ (exec st).
Proof.
  unfold start_step. destruct (at_start st).
  - destruct (Accepter_accept _ _) as [[fd|] p']; [|done].
    case_decide; intros [= <-]; simpl; split_and!; auto; right; by eexists.
  - intros ?%spawn_next_ran. naive_solver.
  - intros ?%spawn_next_ran. naive_solver.
Qed.

Lemma server_runs_on p st :
  server_reachable apple server p st → stop_ (exec st) = false ∧ at_ (exec st) ≠ Exited.
Proof.
  induction 1 as [|st a st' _ [IH1 IH2] Ha]; [done|]. destruct a as [|net expired]; simpl in Ha.
  - apply start_step_ran in Ha as (_ & _ & -> & ->). done.
  - apply bind_Some in Ha as (e & He & [= <-]). simpl in *.
    apply exec_step_ran in He as (_ & -> & Hne). auto.
Qed.

Lemma server_ran p st :
  server_reachable apple server p st → ran (exec st) `prefix_of` conn_tasks (length (accepted st)).
Proof.
  intros Hs%start_inv_reachable. pose proof (start_pushed _ _ _ Hs) as [Hpre _]. destruct Hs as [Hr _].
  etrans; [|exact Hpre]. rewrite <-(fifo_inv _ _ _ Hr). by eexists.
Qed.

(** When the queue is empty and all has been spawned, everything has run. *)
Lemma server_all_ran p st :
  server_reachable apple server p st → at_start st = AtAccept → task_queue_ (exec st) = [] →
  length (ran (exec st)) = 2 * length (accepted st).
Proof.
  intros Hs%start_inv_reachable Hat Hq. pose proof (start_pushed _ _ _ Hs) as [_ Hacc].
  destruct Hs as [Hr _]. destruct (Hacc Hat) as [Hall _]. pose proof (fifo_inv _ _ _ Hr) as Hfifo.
  rewrite Hq, app_nil_r in Hfifo. by rewrite Hfifo, Hall, length_conn_tasks.
Qed.

(** *** An executor whose network is not silent comes to handle events, its queue
    being empty *)
Definition exec_moves (e e' : @State server_task) : Prop := exec_step b timeout true false e = Some e'.

Definition comes_to_handle (e : @State server_task) : Prop :=
  ∃ e', rtc exec_moves e e' ∧ handling e' = true ∧ task_queue_ e' = [].

Lemma comes_step e e1 : exec_moves e e1 → comes_to_handle e1 → comes_to_handle e.
Proof. intros H1 (e' & Hr & Hh). exists e'. split; [by eapply rtc_l|done]. Qed.

(** Asleep: with an empty queue that is the end, otherwise it goes round once more. *)
Lemma sleep_moves e :
  at_ e = Sleeping →
  ∃ e', exec_moves e e' ∧ handling e' = true ∧ task_queue_ e' = task_queue_ e ∧ stop_ e' = stop_ e.
Proof.
  intros Hat. unfold exec_moves, exec_step. rewrite Hat.
  destruct (event e); (eexists; split; [reflexivity|]); [simpl; by case_decide|done].
Qed.

Lemma drain_comes q e : at_ e = Drain → task_queue_ e = q → comes_to_handle e.
Proof.
  revert e. induction q as [|t q IH]; intros e Hat Hq.
  - destruct (sleep_moves (set_at Sleeping (set_notify true (set_missed false e)))) as (e1 & H1 & Hh & Hq1 & _);
      [done|].
    eapply comes_step, comes_step.
    + unfold exec_moves, exec_step. by rewrite Hat, Hq.
    + unfold exec_moves, exec_step. simpl. by rewrite Hq.
    + exists e1. split; [by apply rtc_once|]. split; [done|]. by rewrite Hq1.
  - eapply comes_step, (IH (run_task t q e)); [|done|done]. unfold exec_moves, exec_step. by rewrite Hat, Hq.
Qed.

Lemma top_comes e : stop_ e = false → at_ e = LoopTop → comes_to_handle e.
Proof.
  intros Hs Hat. eapply comes_step, (drain_comes _ (set_at Drain e)); [|done|done].
  unfold exec_moves, exec_step. by rewrite Hat, Hs.
Qed.

Lemma handle_comes e : stop_ e = false → handling e = true → comes_to_handle e.
Proof.
  intros Hs Hh. unfold handling in Hh. destruct (at_ e) as [| | | |n|] eqn:Hat; try done.
  eapply comes_step; [unfold exec_moves, exec_step; rewrite Hat; reflexivity|].
  apply top_comes; [|by destruct n]. destruct n; [|done]. by case_decide.
Qed.

Lemma sleep_comes e : stop_ e = false → at_ e = Sleeping → comes_to_handle e.
Proof.
  intros Hs Hat. destruct (sleep_moves e Hat) as (e1 & H1 & Hh & _ & Hs1).
  eapply comes_step; [exact H1|]. apply handle_comes; congruence.
Qed.

Lemma exec_comes_to_handle e : stop_ e = false → at_ e ≠ Exited → comes_to_handle e.
Proof.
  intros Hs Hne. destruct (at_ e) as [| | | |n|] eqn:Hat; [..|done];
    eauto using drain_comes, top_comes, sleep_comes.
  - eapply comes_step; [unfold exec_moves, exec_step; rewrite Hat; reflexivity|]. by apply sleep_comes.
  - apply handle_comes; [done|]. unfold handling. by rewrite Hat.
Qed.
End threads.

(** ** The process *)
Section proofs.
Context `{ProtobufLaws} {V : ServerSide} (apple : bool) (server : RpcServer) (fuel : nat).
Context (reqs : nat → list (Header * list cell)) (replies : nat → list (list cell)) (p : Process).
Context (Laws : ∀ n, ServerLaws V fuel (reqs n) (replies n)).
Abbreviation stream n := (request_stream (reqs n)).
Abbreviation act := (process_act (V := V) apple server fuel reqs).
Abbreviation acts := (process_acts (V := V) apple server fuel reqs).

(** Connection [n] when [r] tasks have run. *)
Definition served_inv (r n : nat) (x : served V) : Prop :=
  match at_stage x with
  | Made => r ≤ 2 * n
  | Sending c => r = 2 * n + 1 ∧ srv_send V fuel = Done c
  | Serving s => 2 * n + 2 ≤ r ∧ srv_inv (ServerLaws := Laws n) (drop (arrived x) (stream n)) s
  end ∧ (arrived x ≤ length (stream n)) ∧ (arrived x = 0 ∨ ∃ s, at_stage x = Serving s).

Definition process_inv (s : ServerProcess V) : Prop :=
  server_reachable apple server p (threads s) ∧
  length (conns s) = length (accepted (threads s)) ∧
  ∀ n x, conns s !! n = Some x → served_inv (length (ran (exec (threads s)))) n x.

Lemma process_inv_new : process_inv (process_new apple server p).
Proof. split_and!; [apply server_reach_new|done|by intros n x]. Qed.

(** A move of one connection. *)
Lemma wp_at_conn n m (Q : unit → ServerProcess V → Prop) s x :
  conns s !! n = Some x →
  wp m (λ _ x', Q tt (mkServerProcess (threads s) (<[n := x']> (conns s)))) x →
  wp (at_conn n m) Q s.
Proof. intros Hx. unfold wp, at_conn. rewrite Hx. by destruct (m x) as [[[] x']| |]. Qed.

Lemma process_inv_insert s n x' :
  process_inv s → served_inv (length (ran (exec (threads s)))) n x' →
  process_inv (mkServerProcess (threads s) (<[n := x']> (conns s))).
Proof.
  intros (Hr & Hl & Hc) Hx'. split_and!; simpl; [done|by rewrite length_insert|].
  intros m y [(-> & -> & _)|(_ & Hy)]%list_lookup_insert_Some; [done|by apply Hc].
Qed.

(** The task whose turn it is. *)
Lemma wp_run_server_task t r n x :
  (r = 2 * n ∧ t = SendFn n) ∨ (r = 2 * n + 1 ∧ t = RecvFn n) → served_inv r n x →
  wp (run_server_task fuel t) (λ _ x', served_inv (r + 1) n x') x.
Proof.
  destruct (law_start (ServerLaws := Laws n)) as (c & s & Hc & Hs & Hi). destruct x as [g k].
  intros Ht (Hg & Hk & Hz). apply wp_bind, wp_gets. cbn [at_stage arrived] in *.
  destruct Ht as [[-> ->]|[-> ->]]; destruct g as [|c'|s']; simpl in *; try lia.
  - unfold started, wp, mbind, M_bind. rewrite Hc. simpl. split_and!; simpl; [split; [lia|done]|lia|].
    destruct Hz as [->|[? ?]]; [by left|done].
  - destruct Hg as [_ Hc']. rewrite Hc in Hc'. injection Hc' as <-.
    destruct Hz as [->|[? ?]]; [|done]. unfold started, wp, mbind, M_bind. rewrite Hs. simpl.
    split_and!; simpl; [split; [lia|done]|lia|by left].
Qed.

(** Other connections do not mind that a task has run. *)
Lemma served_inv_ran r n m x t :
  (r = 2 * n ∧ t = SendFn n) ∨ (r = 2 * n + 1 ∧ t = RecvFn n) → m ≠ n →
  served_inv r m x → served_inv (r + 1) m x.
Proof.
  intros Ht Hne (Hg & Hk). split; [|done].
  destruct (at_stage x); [lia|lia|]. split; [lia|]. apply Hg.
Qed.

Lemma start_thread_inv st' s :
  process_inv s → start_step apple server (threads s) = Some st' → process_inv (threads_at st' s).
Proof.
  intros (Hr & Hl & Hc) Hst. pose proof (start_step_ran _ _ _ _ Hst) as (Hacc & Hran & _ & _).
  split_and!; simpl.
  - by eapply (server_reach_act _ _ _ _ StartStep).
  - rewrite length_app, length_replicate. destruct Hacc as [->|[a ->]]; rewrite ?length_app; simpl; lia.
  - rewrite Hran. intros n x [Hx|[Hle Hx]]%lookup_app_Some; [by apply Hc|].
    apply lookup_replicate in Hx as [-> Hn]. split_and!; simpl; [|lia|by left].
    pose proof (server_ran _ _ _ _ Hr) as Hpre%prefix_length. rewrite length_conn_tasks in Hpre. lia.
Qed.

Lemma exec_thread_inv net expired s :
  process_inv s → wp (act (Thread (ExecStep net expired))) (λ _, process_inv) s.
Proof.
  intros (Hr & Hl & Hc). cbn [process_act]. apply wp_bind, wp_gets. cbn [server_act].
  destruct (Executor.act _ _ (AExec net expired) (exec (threads s))) as [e|] eqn:He; cbn [mbind option_bind];
    [|by apply wp_ret].
  assert (server_reachable apple server p
    (mkStart (proc (threads s)) (accepted (threads s)) (at_start (threads s)) e)) as Hr'.
  { eapply (server_reach_act _ _ _ _ (ExecStep net expired)); [exact Hr|]. cbn [server_act]. by rewrite He. }
  pose proof (exec_step_ran _ _ _ _ _ _ He) as (Hran & _ & _). apply wp_bind, wp_modify.
  unfold threads_at. cbn [accepted]. rewrite <-Hl, Nat.sub_diag, app_nil_r.
  destruct (next_task (exec (threads s))) as [t|]; simpl in Hran; cycle 1.
  { rewrite app_nil_r in Hran. apply wp_ret. split_and!; simpl; [done|done|]. by rewrite Hran. }
  pose proof (server_ran _ _ _ _ Hr') as [l Hpre]. simpl in Hpre. rewrite Hran, <-app_assoc in Hpre.
  assert (conn_tasks (length (accepted (threads s))) !! length (ran (exec (threads s))) = Some t) as Ht.
  { rewrite Hpre. by apply list_lookup_middle. }
  apply conn_tasks_lookup in Ht as (n & Hn & Ht). rewrite <-Hl in Hn.
  apply lookup_lt_is_Some in Hn as [x Hx].
  replace (task_conn t) with n by (by destruct Ht as [[_ ->]|[_ ->]]).
  eapply wp_at_conn; [exact Hx|]. eapply wp_mono; [by eapply wp_run_server_task, Hc|].
  intros [] x' Hx'. split_and!; simpl; [done|by rewrite length_insert|].
  rewrite Hran, length_app. simpl.
  intros m y [(-> & -> & _)|(Hne & Hy)]%list_lookup_insert_Some; [done|].
  eapply served_inv_ran; [exact Ht|done|by apply Hc].
Qed.

Lemma serving_inv m r n x :
  (∀ s, srv_inv (ServerLaws := Laws n) (drop (arrived x) (stream n)) s →
     wp m (λ _, srv_inv (ServerLaws := Laws n) (drop (arrived x) (stream n))) s) →
  served_inv r n x → wp (serving m) (λ _ x', served_inv r n x') x.
Proof.
  intros Hm (Hg & Hk & Hz). unfold serving, wp. destruct (at_stage x) as [| |s] eqn:Hx.
  1-2: unfold served_inv; rewrite Hx; by exact (conj Hg (conj Hk Hz)).
  destruct Hg as [Hr Hs]. specialize (Hm s Hs). unfold wp in Hm.
  destruct (m s) as [[[] s']| |]; [|done|done]. simpl. split_and!; simpl; try done; eauto.
Qed.

Lemma hand_over_inv k t r n x :
  event_ok fuel (CanWrite t) → served_inv r n x →
  wp (hand_over fuel reqs n k t) (λ _ x', served_inv r n x') x.
Proof.
  intros Ht Hx. apply wp_bind, wp_gets. cbv zeta. unfold id.
  destruct (at_stage x) as [| |s] eqn:Hat; [by apply wp_ret..|]. set (b := take k _). case_decide as Hb; [by apply wp_ret|]. apply wp_bind, wp_modify.
  destruct Hx as (Hg & Hk & _). rewrite Hat in Hg. destruct Hg as [Hr Hs].
  unfold serving, wp. cbn [at_stage arrived]. rewrite Hat.
  assert (drop (arrived x) (stream n) = b ++ drop (arrived x + length b) (stream n)) as Hsplit.
  { unfold b. rewrite <-drop_drop. rewrite length_take.
    rewrite <-(take_drop k (drop (arrived x) (stream n))) at 1. f_equal.
    destruct (decide (k ≤ length (drop (arrived x) (stream n)))); [by rewrite Nat.min_l|].
    rewrite Nat.min_r by lia. rewrite !drop_ge; [done|lia|lia]. }
  rewrite Hsplit in Hs. pose proof (law_arrive b t _ s Hb Ht Hs) as Hw. unfold wp in Hw.
  destruct (srv_arrive V fuel b t s) as [[[] s']| |]; [|done|done].
  split_and!; simpl; [by split| |by eauto].
  apply (f_equal length) in Hsplit. rewrite length_app, !length_drop in Hsplit.
  assert (length b ≤ length (stream n) - arrived x) by (unfold b; rewrite length_take, length_drop; lia). lia.
Qed.

Lemma process_act_inv a s : process_ok fuel a → process_inv s → wp (act a) (λ _, process_inv) s.
Proof.
  intros Ha Hs. destruct a as [[|net expired]|n k t|n e]; simpl in Ha.
  - cbn [process_act]. apply wp_bind, wp_gets. cbn [server_act].
    destruct (start_step _ _ _) as [st'|] eqn:Hst; [|by apply wp_ret].
    apply wp_bind, wp_modify, wp_ret. by apply start_thread_inv.
  - by apply exec_thread_inv.
  - cbn [process_act]. apply wp_bind, wp_gets. case_match eqn:Hg; [|by apply wp_ret].
    apply andb_true_iff in Hg as [_ Hn%bool_decide_eq_true]. apply lookup_lt_is_Some in Hn as [x Hx].
    eapply wp_at_conn; [exact Hx|]. eapply wp_mono; [apply hand_over_inv; [done|]; by apply Hs|].
    intros [] x' Hx'. by apply process_inv_insert.
  - cbn [process_act]. apply wp_bind, wp_gets. case_match eqn:Hg; [|by apply wp_ret].
    apply andb_true_iff in Hg as [_ Hn%bool_decide_eq_true]. apply lookup_lt_is_Some in Hn as [x Hx].
    eapply wp_at_conn; [exact Hx|]. eapply wp_mono.
    { apply serving_inv; [|by apply Hs]. intros s0. by apply law_on. }
    intros [] x' Hx'. by apply process_inv_insert.
Qed.

Lemma process_acts_inv l s : Forall (process_ok fuel) l → process_inv s → wp (acts l) (λ _, process_inv) s.
Proof.
  intros Hl. revert s. induction Hl as [|a l Ha _ IH]; intros s Hs; [by apply wp_ret|].
  cbn [process_acts]. apply wp_bind. eapply wp_mono; [by apply process_act_inv|]. intros [] s'. apply IH.
Qed.

(** What a peer may see. *)
Lemma process_wire s n x :
  process_inv s → conns s !! n = Some x →
  ∃ a, a ≤ length (reqs n) ∧ wire_to x `prefix_of` concat (take a (replies n)) ∧
    length (request_stream (take a (reqs n))) ≤ arrived x ∧ arrived x ≤ length (stream n).
Proof.
  intros (_ & _ & Hc) Hx. destruct (Hc _ _ Hx) as (Hg & Hk & _). unfold wire_to.
  destruct (at_stage x) as [| |s0].
  1-2: exists 0; split_and!; [lia|apply prefix_nil|simpl; lia|done].
  destruct Hg as [_ Hs0]. destruct (law_wire _ _ Hs0) as (a & Ha & Hw & Hlen). exists a.
  rewrite length_drop in Hlen. split_and!; try done. lia.
Qed.

(** *** The server can finish *)

(** [s'] comes out of [s] by moves of the executor and of the network only. *)
Definition not_start (a : process_action V) : Prop := a ≠ Thread StartStep.
Definition reaches (s s' : ServerProcess V) : Prop :=
  ∃ l, Forall (λ a, process_ok fuel a ∧ not_start a) l ∧ acts l s = Done (tt, s').

Lemma reaches_refl s : reaches s s.
Proof. by exists []. Qed.
Lemma reaches_step a s s1 s2 :
  process_ok fuel a → not_start a → act a s = Done (tt, s1) → reaches s1 s2 → reaches s s2.
Proof.
  intros Ha Hn H1 (l & Hl & Hrun). exists (a :: l). split; [by constructor|].
  cbn [process_acts]. unfold mbind, M_bind. by rewrite H1.
Qed.
Lemma reaches_trans s1 s2 s3 : reaches s1 s2 → reaches s2 s3 → reaches s1 s3.
Proof.
  intros (l & Hl & Hrun) H2. revert s1 Hrun. induction Hl as [|a l [Ha Hn] _ IH]; intros s1 Hrun.
  { cbn in Hrun. by injection Hrun as ->. }
  cbn [process_acts] in Hrun. unfold mbind, M_bind in Hrun.
  destruct (act a s1) as [[[] s1']| |] eqn:H1; [|done|done]. eapply reaches_step; eauto.
Qed.
Lemma reaches_inv s s' : process_inv s → reaches s s' → process_inv s'.
Proof.
  intros Hs (l & Hl & Hrun). pose proof (process_acts_inv l s) as Hw.
  unfold wp in Hw. rewrite Hrun in Hw. apply Hw; [|done]. eapply Forall_impl; [exact Hl|]. by intros a [].
Qed.

(** The executor goes on, its tasks being run. *)
Lemma reaches_exec s e' :
  process_inv s → rtc (exec_moves apple server) (exec (threads s)) e' →
  ∃ s', reaches s s' ∧
    threads s' = mkStart (proc (threads s)) (accepted (threads s)) (at_start (threads s)) e' ∧
    length (conns s') = length (conns s).
Proof.
  intros Hs Hr. remember (exec (threads s)) as e eqn:He. revert s Hs He.
  induction Hr as [e|e e1 e' H1 _ IH]; intros s Hs He.
  { exists s. split_and!; [apply reaches_refl| |done]. subst e. by destruct (threads s). }
  pose proof (exec_thread_inv true false s Hs) as Hw. apply wp_done in Hw as ([] & s1 & Hrun & Hs1).
  assert (threads s1 = mkStart (proc (threads s)) (accepted (threads s)) (at_start (threads s)) e1) as Ht.
  { cbn [process_act] in Hrun. unfold mbind at 1, M_bind at 1, gets in Hrun. cbn [server_act] in Hrun.
    unfold exec_moves in H1. cbn [Executor.act] in Hrun. rewrite <-He, H1 in Hrun. simpl in Hrun.
    destruct (next_task e) as [t|]; [|by injection Hrun as <-].
    unfold mbind, M_bind, modify, at_conn in Hrun. repeat case_match; simplify_eq/=; done. }
  destruct (IH s1 Hs1) as (s' & Hre & Ht' & Hlen); [by rewrite Ht|].
  exists s'. split_and!.
  - by eapply reaches_step; [..|exact Hrun|exact Hre].
  - by rewrite Ht', Ht.
  - rewrite Hlen. destruct Hs1 as (_ & -> & _), Hs as (_ & -> & _). by rewrite Ht.
Qed.

(** Events of a connection that serves. *)
Lemma reaches_events es n s g g' k :
  handling (exec (threads s)) = true → conns s !! n = Some (mkServed (Serving g) k) →
  Forall (srv_calm V fuel) es → srv_ons V fuel es g = Done (tt, g') →
  reaches s (mkServerProcess (threads s) (<[n := mkServed (Serving g') k]> (conns s))).
Proof.
  intros Hh Hx Hes. revert s g Hh Hx. induction Hes as [|e es He _ IH]; intros s g Hh Hx Hrun.
  { cbn in Hrun. injection Hrun as <-. rewrite list_insert_id by done. destruct s. apply reaches_refl. }
  cbn [srv_ons] in Hrun. unfold mbind, M_bind in Hrun.
  destruct (srv_on V fuel e g) as [[[] g1]| |] eqn:H1; [|done|done].
  pose proof (lookup_lt_Some _ _ _ Hx) as Hn.
  eapply (reaches_step (Event n e)); [done|done| |].
  - cbn [process_act]. unfold mbind, M_bind, gets, id. rewrite Hh, bool_decide_eq_true_2 by done. simpl.
    unfold at_conn. rewrite Hx. unfold serving. cbn [at_stage]. by rewrite H1.
  - rewrite <-(list_insert_insert_eq (conns s) n (mkServed (Serving g') k) (mkServed (Serving g1) k)).
    apply (IH (mkServerProcess (threads s) (<[n := mkServed (Serving g1) k]> (conns s))) g1);
      [done|by apply list_lookup_insert_eq|done].
Qed.

Hypothesis Hfuel : 1 < fuel.

(** What is left of the requests arrives. *)
Lemma reaches_bytes n s x g :
  process_inv s → handling (exec (threads s)) = true → conns s !! n = Some x → at_stage x = Serving g →
  ∃ g', reaches s (mkServerProcess (threads s)
    (<[n := mkServed (Serving g') (length (stream n))]> (conns s))) ∧
    srv_inv (ServerLaws := Laws n) [] g'.
Proof.
  intros Hs Hh Hx Hg. pose proof (lookup_lt_Some _ _ _ Hx) as Hn.
  assert (process_ok (V := V) fuel (Bytes n (length (stream n)) [])) as Hok by (split_and!; simpl; done || lia).
  pose proof (process_act_inv _ s Hok Hs) as Hw. apply wp_done in Hw as ([] & s1 & Hrun & Hs1).
  assert (∃ g', s1 = mkServerProcess (threads s)
    (<[n := mkServed (Serving g') (length (stream n))]> (conns s))) as [g' ->].
  { destruct Hs as (_ & _ & Hc). destruct (Hc _ _ Hx) as (_ & Hk & _).
    cbn [process_act] in Hrun. unfold mbind at 1, M_bind at 1, gets, id in Hrun.
    rewrite Hh, bool_decide_eq_true_2 in Hrun by done. simpl in Hrun. unfold at_conn in Hrun. rewrite Hx in Hrun.
    unfold hand_over, mbind, M_bind, gets, id in Hrun. rewrite Hg in Hrun.
    rewrite take_ge in Hrun by (rewrite length_drop; lia). case_decide as Hd.
    - exists g. injection Hrun as <-. f_equal. f_equal. destruct x; simpl in *. f_equal; [done|].
      apply (f_equal length) in Hd. rewrite length_drop in Hd. simpl in Hd. lia.
    - unfold modify, serving in Hrun. cbn [at_stage arrived] in Hrun. rewrite Hg in Hrun.
      destruct (srv_arrive V fuel _ _ g) as [[[] g']| |]; [|done|done]. exists g'.
      injection Hrun as <-. do 3 f_equal. rewrite length_drop. lia. }
  exists g'. split; [by eapply reaches_step; [exact Hok|done|exact Hrun|apply reaches_refl]|].
  destruct Hs1 as (_ & _ & Hc). destruct (Hc n _ (list_lookup_insert_eq _ _ _ Hn)) as ([_ Hi] & _).
  simpl in Hi. by rewrite drop_all in Hi.
Qed.

Lemma reaches_all_replies n s x g :
  process_inv s → handling (exec (threads s)) = true → conns s !! n = Some x → at_stage x = Serving g →
  ∃ x', reaches s (mkServerProcess (threads s) (<[n := x']> (conns s))) ∧ wire_to x' = concat (replies n).
Proof.
  intros Hs Hh Hx Hg. pose proof (lookup_lt_Some _ _ _ Hx) as Hn.
  destruct (reaches_bytes n s x g Hs Hh Hx Hg) as (g1 & Hr1 & Hi1).
  destruct (law_flush g1 Hi1) as (es & Hes & Hw). apply wp_done in Hw as ([] & g2 & Hrun & _ & Hwire).
  exists (mkServed (Serving g2) (length (stream n))). split; [|done]. eapply reaches_trans; [exact Hr1|].
  rewrite <-(list_insert_insert_eq (conns s) n (mkServed (Serving g2) (length (stream n)))
    (mkServed (Serving g1) (length (stream n)))).
  by eapply (reaches_events es n (mkServerProcess (threads s)
    (<[n := mkServed (Serving g1) (length (stream n))]> (conns s)))); [|apply list_lookup_insert_eq| |].
Qed.

(** The connections below [m], one after the other. *)
Lemma reaches_every_reply m s :
  process_inv s → handling (exec (threads s)) = true → m ≤ length (conns s) →
  length (ran (exec (threads s))) = 2 * length (conns s) →
  ∃ s', reaches s s' ∧ threads s' = threads s ∧ length (conns s') = length (conns s) ∧
    ∀ n x, n < m → conns s' !! n = Some x → wire_to x = concat (replies n).
Proof.
  intros Hs Hh Hm Hran. induction m as [|m IH].
  { exists s. split_and!; try done; [apply reaches_refl|lia]. }
  destruct IH as (s1 & Hr1 & Ht1 & Hl1 & Hw1); [lia|]. pose proof (reaches_inv _ _ Hs Hr1) as Hs1.
  assert (m < length (conns s1)) as Hlt by lia. pose proof Hlt as [x Hx]%lookup_lt_is_Some.
  destruct (at_stage x) as [| |g] eqn:Hg.
  1-2: exfalso; destruct Hs1 as (_ & _ & Hc); destruct (Hc _ _ Hx) as (Hst & _);
    rewrite Hg, Ht1, Hran in Hst; lia.
  destruct (reaches_all_replies m s1 x g Hs1) as (x' & Hr2 & Hw); [by rewrite Ht1|done|done|].
  eexists. split_and!; [by eapply reaches_trans|done|simpl; by rewrite length_insert|].
  intros n y Hn [(-> & -> & _)|(Hne & Hy)]%list_lookup_insert_Some; [done|]. apply Hw1; [lia|done].
Qed.

(** When [start] waits in [accept], the executor and the network can get all
    responses of all connections out. *)
Lemma process_completes s :
  process_inv s → at_start (threads s) = AtAccept →
  ∃ s', reaches s s' ∧ length (conns s') = length (conns s) ∧
    ∀ n x, conns s' !! n = Some x → wire_to x = concat (replies n).
Proof.
  intros Hs Hat. destruct (server_runs_on _ _ _ _ (proj1 Hs)) as [Hstop Hex].
  destruct (exec_comes_to_handle apple server _ Hstop Hex) as (e & Hr & Hh & Hq).
  destruct (reaches_exec s e Hs Hr) as (s1 & Hr1 & Ht1 & Hl1). pose proof (reaches_inv _ _ Hs Hr1) as Hs1.
  destruct (reaches_every_reply (length (conns s1)) s1) as (s2 & Hr2 & _ & Hl2 & Hw); [done|by rewrite Ht1|done|..].
  { pose proof Hs1 as (Hre & -> & _). apply (server_all_ran _ _ _ _ Hre); by rewrite Ht1. }
  exists s2. split_and!; [by eapply reaches_trans|congruence|]. intros n x Hx.
  apply (Hw n x); [|done]. apply lookup_lt_Some in Hx. lia.
Qed.
End proofs.

(** ** The connections of [RpcServer::start] *)

(** Requests that a connection can serve. *)
Definition servable `{Protobuf} (name2service_ : gmap string Service) (fuel : nat)
    (reqs : list (Header * list cell)) (replies : list (list cell)) : Prop :=
  let requests := request_stream reqs in
  placed 0 reqs ∧ mapM (respond name2service_) reqs = Some replies ∧
  (length requests < 2 ^ 31 - 1)%Z ∧ length requests + 2 < fuel ∧ 4 * length reqs + 4 < fuel ∧
  (length (concat replies) ≤ kWindow)%Z ∧ length (concat replies) + 10 < fuel.

Definition process_side `{Protobuf} (apple : bool) (server : RpcServer)
    (name2service_ : gmap string Service) : ServerSide :=
  server_side (connection_kind apple (sched_policy (options_ server))) name2service_.

Lemma process_serves `{ProtobufLaws} (apple : bool) (server : RpcServer) (p : Process)
    (name2service_ : gmap string Service) (fuel : nat)
    (reqs : nat → list (Header * list cell)) (replies : nat → list (list cell))
    (l : list (process_action (process_side apple server name2service_))) :
  (∀ n, servable name2service_ fuel (reqs n) (replies n)) → Forall (process_ok fuel) l →
  wp (process_acts apple server fuel reqs l) (λ _ s,
    length (conns s) = length (accepted (threads s)) ∧
    (∀ n x, conns s !! n = Some x → ∃ a, a ≤ length (reqs n) ∧
       wire_to x `prefix_of` concat (take a (replies n)) ∧
       length (request_stream (take a (reqs n))) ≤ arrived x ≤ length (request_stream (reqs n))) ∧
    (at_start (threads s) = AtAccept → ∃ s', reaches apple server fuel reqs s s' ∧
       length (conns s') = length (conns s) ∧
       ∀ n x, conns s' !! n = Some x → wire_to x = concat (replies n))) (process_new apple server p).
Proof.
  intros Hserv Hl.
  assert (∀ n, ServerLaws (process_side apple server name2service_) fuel (reqs n) (replies n)) as Laws.
  { intros n. destruct (Hserv n) as (? & ? & ? & ? & ? & ? & ?). by apply server_side_laws. }
  eapply wp_mono; [apply (process_acts_inv apple server fuel reqs replies p Laws l); [done|apply process_inv_new]|].
  intros [] s Hs. split_and!; [apply Hs|intros n x; by eapply process_wire|].
  intros Hat. eapply process_completes; [|exact Hs|done].
  destruct (Hserv 0) as (_ & _ & _ & ? & _). lia.
Qed.
