(* ===== verification/Closing.v ===== *)
(** * How the server's side of a connection ends

    [RpcServer::recv_fn] and [RpcServer::send_fn] when the peer closes the stream,
    at whatever point, and when a request is refused.

    - The peer closes between two requests, or within the part of a frame before
      the body: both coroutines return and the socket is unregistered.
    - Within a body: the loop that waits for the body does not look at [closed()]
      and resumes [send_fn] a second time, after it has returned.
    - In the read that brings the end of a request: the answer is written to the
      send buffer and [send_fn], which has returned, is resumed.
    - A request is refused: [recv_fn] returns, [send_fn] stays suspended on a
      closed connection, and the socket stays registered, so that bytes that
      arrive later resume the returned [recv_fn]. *)
From stdpp Require Import strings.
From S2P Require Import Prelude Block Segments InputStream OutputStream Streams Conn Connection ConnectionProofs Sender Wire Protocol Receiver PollReceiver HangUp Server ServerProofs Refusal.

Section closing.
Context `{ProtobufLaws} (name2service_ : gmap string Service).

(** ** The peer closes *)
Lemma recv_run_hung fuel out pc c :
  hung fuel out c → (length (unread c) < pc_need pc)%Z →
  if in_body pc then recv_run name2service_ fuel pc c = Faulted ResumeDestroyed
  else wp (recv_run name2service_ fuel pc)
    (λ x c', x = Returned tt ∧ ended out c' ∧ ¬ registered c') c.
Proof.
  intros Hh Hneed. pose proof (hung_fuel _ _ _ Hh) as Hf. unfold recv_run.
  assert (if in_body pc then recv_step name2service_ fuel pc c = Faulted ResumeDestroyed
    else wp (recv_step name2service_ fuel pc)
      (λ x c', x = inr (Returned tt) ∧ ended out c' ∧ ¬ registered c') c) as Hstep.
  { destruct pc as [|n|h|h m n]; simpl in *; [by apply wait_then_hung..|].
    apply bind_faults. by apply (wait_hung_faults fuel out). }
  revert Hstep. generalize (recv_step name2service_ (C := Connection) fuel). intros step Hstep.
  destruct fuel as [|fuel]; [lia|]. destruct (in_body pc); [by apply iter_faults|].
  apply wp_iter_step. eapply wp_mono; [exact Hstep|]. by intros x c' (-> & ?).
Qed.

(** Sequences of events. *)
Lemma after_return_returns fuel es c x c' :
  after_return fuel es c = Done (x, c') → x = Returned tt.
Proof.
  revert c. induction es as [|e es IH]; intros c; simpl; [by intros [= <- _]|].
  unfold mbind at 1, M_bind at 1, gets. case_decide; [by intros [= <- _]|].
  destruct e; [done|]. unfold mbind, M_bind, modify.
  destruct (resume_write fuel _) as [[[] c1]| |]; try done. apply IH.
Qed.

Lemma on_events_app fuel pc es1 es2 pc' c c' :
  on_events name2service_ fuel pc es1 c = Done (Suspended pc', c') →
  on_events name2service_ fuel pc (es1 ++ es2) c = on_events name2service_ fuel pc' es2 c'.
Proof.
  revert pc c. induction es1 as [|e es1 IH]; intros pc c; simpl; [by intros [= -> ->]|].
  intros Hr. unfold mbind, M_bind in Hr |- *. revert Hr.
  destruct (on_event name2service_ fuel pc e c) as [[[pc1|] c1]| |]; try done; [apply IH|].
  intros Hr. by apply after_return_returns in Hr.
Qed.

Lemma serve_app fuel es1 es2 pc c c' :
  serve name2service_ fuel es1 c = Done (Suspended pc, c') →
  serve name2service_ fuel (es1 ++ es2) c = on_events name2service_ fuel pc es2 c'.
Proof.
  unfold serve, mbind, M_bind. destruct (send_fn fuel c) as [[[] c1]| |]; try done.
  destruct (recv_fn name2service_ fuel c1) as [[[pc1|] c2]| |]; try done; [apply on_events_app|].
  intros Hr. by apply after_return_returns in Hr.
Qed.

(** Nothing is reported once the socket is unregistered. *)
Lemma after_return_unregistered fuel es c :
  ¬ registered c → after_return fuel es c = Done (Returned tt, c).
Proof.
  unfold registered. intros Hreg. destruct es as [|e es]; [done|]. simpl. unfold mbind, M_bind, gets.
  by rewrite decide_True by (by apply dec_stable).
Qed.

Lemma on_events_hung fuel out pc t more c :
  live fuel out c → rx c = [] → placid t = true → S (length t) < fuel →
  (length out ≤ kWindow)%Z → length out + 3 < fuel → (length (unread c) < pc_need pc)%Z →
  let run := on_events name2service_ fuel pc (Arrives [RdEof] t :: more) in
  if in_body pc then run c = Faulted ResumeDestroyed
  else wp run (λ x c', x = Returned tt ∧ ended out c' ∧ ¬ registered c') c.
Proof.
  intros Hl Hrx Ht Hft Hwin Hf Hneed run.
  pose proof (hung_arrives fuel out t c Hl Hrx Ht Hft Hwin Hf) as Hh.
  pose proof (recv_run_hung fuel out pc _ Hh Hneed) as Hrun. subst run. simpl.
  destruct (in_body pc).
  - apply bind_faults. apply bind_wp, wp_modify. exact Hrun.
  - apply wp_bind, wp_bind, wp_modify. eapply wp_mono; [exact Hrun|].
    intros x c1 (-> & Hend & Hreg). unfold wp. by rewrite after_return_unregistered.
Qed.

(** Any complete requests, a part of one more, and the end of the stream. *)
Lemma serve_hang_up fuel calls replies k reply part es t more :
  let stream := request_stream (calls ++ [k]) in
  placed 0 (calls ++ [k]) → mapM (respond name2service_) calls = Some replies →
  respond name2service_ k = Some reply →
  part `prefix_of` request_frame k → part ≠ request_frame k →
  concat (event_bytes <$> es) = request_stream calls ++ part →
  Forall (event_ok fuel) es → placid t = true → S (length t) < fuel →
  (length stream < 2 ^ 31 - 1)%Z → length stream + 2 < fuel → 4 * length calls + 8 < fuel →
  (length (concat replies ++ reply) ≤ kWindow)%Z → length (concat replies ++ reply) + 3 < fuel →
  let run := serve name2service_ fuel (es ++ (Arrives [RdEof] t :: more)) in
  if decide (length part < 8 + length (header_encode k.1))
  then wp run (λ x c, x = Returned tt ∧ ended (concat replies) c ∧ ¬ registered c) (Connection_new [] [])
  else run (Connection_new [] []) = Faulted ResumeDestroyed.
Proof.
  intros stream Hplaced Hreplies Hreply [future Hpart] Hne Hes Hok Ht Hft Hsm Hf Hfc Hwin Hfw run.
  rewrite length_app in Hwin, Hfw.
  assert (future ≠ []) as Hfut by (intros ->; by rewrite app_nil_r in Hpart).
  assert (wp (serve name2service_ fuel es)
    (run_post name2service_ fuel [] future (length stream) (calls ++ [k]) (replies ++ [reply])) (Connection_new [] []))
    as Hserve.
  { apply serve_part; try done.
    - apply mapM_Some. apply Forall2_app; [by apply mapM_Some|]. by constructor.
    - by rewrite request_stream_app, request_stream_one, Hes, <-app_assoc, Hpart.
    - rewrite length_app. simpl. lia.
    - rewrite concat_app, length_app. csimpl. rewrite app_nil_r. lia.
    - rewrite concat_app, length_app. csimpl. rewrite app_nil_r. lia. }
  apply wp_done in Hserve as (x & c & Hrun & Hpost).
  destruct (run_post_cut name2service_ _ _ _ _ _ _ part future _ _ Hreplies (eq_sym Hpart) Hfut Hpost)
    as (pc & -> & Hl & Hrx & Hneed & Hbody); [by eapply run_post_kernel|].
  pose proof (on_events_hung fuel (concat replies) pc t more c Hl Hrx Ht Hft ltac:(lia) ltac:(lia) Hneed)
    as Hend. rewrite Hbody in Hend. unfold run, wp. rewrite (serve_app _ _ _ _ _ _ Hrun).
  destruct (decide (length part < 8 + length (header_encode k.1))) as [Hd|Hd].
  - rewrite bool_decide_eq_false_2 in Hend by lia. exact Hend.
  - rewrite bool_decide_eq_true_2 in Hend by lia. exact Hend.
Qed.

(** ** A request and the end of the stream in one read *)

(** What is waited for is there: the loop is passed without a read. *)
Lemma wait_then_ready {pc} fuel check need (p : pc) (m : M Connection (pc + recv_exit pc unit)) c :
  input_inv (read_buf_ c) → (length (unread c) < 2 ^ 31)%Z → (need ≤ length (unread c))%Z →
  0 < fuel →
  (suspended ← wait_bytes fuel check need;
   if (suspended : bool) then mret (inr (Suspended p)) else
   cut ← gets (cut_off need);
   if (cut : bool) then recv_finish tt else m) c = m c.
Proof.
  intros Hi Hsm Hneed Hf. pose proof (read_bytes_unread c Hi ltac:(lia)) as Hrb.
  apply bind_wp. unfold wait_bytes. destruct fuel as [|fuel]; [lia|]. apply wp_iter_step.
  unfold wait_step. apply wp_bind, wp_gets, wp_bind, wp_gets. rewrite Hrb.
  rewrite bool_decide_eq_false_2 by lia. apply wp_ret. apply bind_wp, wp_gets.
  unfold cut_off. rewrite Hrb, bool_decide_eq_false_2 by lia. by rewrite andb_false_r.
Qed.

(** A length prefix, or a message, that is in the buffer. *)
Lemma fetch_then pos (n : nat) rest c :
  input_inv (read_buf_ c) → at_pos pos c → fits pos → unread c = u32_bytes n ++ rest →
  (length (unread c) < 2 ^ 31)%Z →
  ∃ b, input_inv b ∧ input_contents b = rest ∧ at_pos (pos + 4) (set_read_buf b c) ∧
    ∀ A (k : bool * list cell → M Connection A),
      (r ← on_read_buf (InputBuffer_fetch_uint32 (replicate 4 None)); k r) c =
        k (true, u32_bytes n) (set_read_buf b c).
Proof.
  intros Hi Hpos Hfit Hun Hsm.
  pose proof (wp_fetch_buf pos n rest c Hi Hpos Hfit Hun Hsm) as Hw.
  apply wp_done in Hw as (r & c' & Hrun & b & -> & -> & Hib & Hct & _ & Hp).
  exists b. split_and!; try done. intros A k. by rewrite (bind_done _ _ _ _ _ Hrun).
Qed.

(** The header of a frame that is buffered whole. *)
Lemma recv_header_buffered fuel n k pos c :
  magic k.1 = MAGIC_NUM → version k.1 = VERSION → header_ok k.1 →
  (length (request_frame k) < 2 ^ 31 - 1)%Z → length (request_frame k) < fuel →
  fits pos → input_inv (read_buf_ c) → unread c = request_frame k → at_pos pos c →
  ∃ b, input_inv b ∧ input_contents b = u32_bytes (length k.2) ++ k.2 ∧
    at_pos (pos + 4 + length (header_encode k.1)) (set_read_buf b c) ∧
    iter (S (S n)) (recv_step name2service_ fuel) AtHeaderLen c =
    iter n (recv_step name2service_ fuel) (AtRequestLen k.1) (set_read_buf b c).
Proof.
  intros Hm Hv Hok Hsm Hf Hfit Hi Hun Hpos. unfold request_frame, frame in *.
  rewrite !length_app in Hsm, Hf. cbn [length u32_bytes] in Hsm, Hf.
  pose proof (f_equal length Hun) as Hlen. rewrite !length_app in Hlen. cbn [length u32_bytes] in Hlen.
  destruct (fetch_then pos (length (header_encode k.1)) _ c Hi Hpos Hfit Hun)
    as (b1 & Hi1 & Hct1 & Hpos1 & Hrun1); [lia|].
  set (c1 := set_read_buf b1 c) in *.
  assert (unread c1 = header_encode k.1 ++ u32_bytes (length k.2) ++ k.2) as Hun1 by exact Hct1.
  pose proof (f_equal length Hun1) as Hlen1. rewrite !length_app in Hlen1. cbn [length u32_bytes] in Hlen1.
  destruct (poll_parse_run fuel (pos + 4) header_decode _ _ c1 Hi1 Hpos1 Hun1)
    as (b2 & Hi2 & Hb2 & Hrun2); [lia|lia|].
  rewrite header_roundtrip in Hb2, Hrun2 by done. destruct (Hb2 ltac:(done)) as (_ & Hct2 & Hpos2).
  exists b2. split_and!; [done|done|exact Hpos2|].
  erewrite iter_next; cycle 1.
  { cbn [recv_step]. rewrite wait_then_ready; [|done|lia|lia|lia]. rewrite Hrun1.
    by rewrite u32_length_bytes by lia. }
  erewrite iter_next; [done|].
  cbn [recv_step]. rewrite wait_then_ready; [|done|lia|lia|lia]. rewrite Hrun2.
  rewrite decide_True by done. rewrite decide_True by done. done.
Qed.

(** A valid request that is buffered whole, on a connection whose sender has
    returned: the answer resumes it. *)
Lemma recv_returned_faults fuel n k reply pos c :
  respond name2service_ k = Some reply → header_ok k.1 → (length (request_frame k) < 2 ^ 31 - 1)%Z →
  length (request_frame k) < fuel → length reply + 3 < fuel → (length reply ≤ kWindow)%Z →
  fits pos → fits (pos + 4 + length (header_encode k.1)) →
  input_inv (read_buf_ c) → output_inv (write_buf_ c) → send_co c = SendDone →
  unread c = request_frame k → at_pos pos c →
  iter (4 + n) (recv_step name2service_ fuel) AtHeaderLen c = Faulted ResumeDestroyed.
Proof.
  intros Hresp Hok Hsm Hf Hfr Hwin Hfit1 Hfit2 Hi Ho Hco Hun Hpos.
  unfold respond in Hresp. destruct (decide _) as [[Hm Hv]|]; [|done].
  apply bind_Some in Hresp as (method & Hmth & (request & Hdec & [= Hr])%bind_Some).
  unfold find_method in Hmth. apply bind_Some in Hmth as (service & Hsvc & Hmth).
  destruct (recv_header_buffered fuel (S (S n)) k pos c) as (b2 & Hi2 & Hct2 & Hpos2 & Hrun); [done..|].
  change (4 + n) with (S (S (S (S n)))). rewrite Hrun. clear Hrun.
  unfold request_frame, frame in Hsm, Hf. rewrite !length_app in Hsm, Hf. cbn [length u32_bytes] in Hsm, Hf.
  set (c2 := set_read_buf b2 c) in *.
  assert (unread c2 = u32_bytes (length k.2) ++ k.2) as Hun2 by exact Hct2.
  pose proof (f_equal length Hun2) as Hlen2. rewrite !length_app in Hlen2. cbn [length u32_bytes] in Hlen2.
  destruct (fetch_then (pos + 4 + length (header_encode k.1)) (length k.2) _ c2 Hi2 Hpos2 Hfit2 Hun2)
    as (b3 & Hi3 & Hct3 & Hpos3 & Hrun3); [lia|].
  erewrite iter_next; cycle 1.
  { cbn [recv_step]. rewrite wait_then_ready; [|done|lia|lia|lia]. rewrite Hrun3.
    by rewrite Hsvc, Hmth, u32_length_bytes by lia. }
  set (c3 := set_read_buf b3 c2) in *. assert (unread c3 = k.2 ++ []) as Hun3 by (by rewrite app_nil_r).
  pose proof (f_equal length Hun3) as Hlen3. rewrite !length_app in Hlen3. cbn [length] in Hlen3.
  destruct (poll_parse_run fuel _ (req_decode method) _ _ c3 Hi3 Hpos3 Hun3)
    as (b4 & Hi4 & _ & Hrun4); [lia|lia|].
  rewrite Hdec in Hrun4. apply iter_faults. cbn [recv_step].
  rewrite wait_then_ready; [|done|lia|lia|lia]. rewrite Hrun4. apply bind_wp.
  rewrite <-Hr in Hfr, Hwin.
  eapply wp_mono; [by apply wp_write_frame|]. intros [] c5 (b5 & -> & _ & _).
  by apply bind_faults, resume_done.
Qed.

(** Room in a receive buffer with nothing unread. *)
Lemma recv_room_empty pos c :
  input_inv (read_buf_ c) → unread c = [] → at_pos pos c →
  Z.of_nat (recv_room (read_buf_ c)) = (kBlockSize - pos mod kBlockSize)%Z.
Proof.
  intros (pre & suf & Hs & Hset & _ & _ & Hal) Hun Hpos.
  rewrite (shape_contents _ _ _ Hs) in Hun.
  destruct (shape_cur_inv _ _ Hs) as (p & b & rest & -> & _ & _ & Hok & _).
  csimpl in Hun. rewrite contents_cons in Hun. apply app_nil in Hun as [Hnil _].
  apply (f_equal length), (f_equal Z.of_nat) in Hnil. rewrite length_slice in Hnil by done.
  simpl in Hnil. destruct (shape_last_inv _ _ Hs) as (ini & q & d & Hsuf & Hl & Hq & Hokd & He).
  destruct ini as [|x ini]; simplify_eq/=; cycle 1.
  { destruct Hs as [_ _ _ _ _ _ Hfill _]. destruct ini as [|y ini]; csimpl in Hfill; lia. }
  unfold recv_room. rewrite Hl. simpl. rewrite Hq. unfold at_pos in Hpos. poll.
  rewrite <-(u64_mod_block pos), <-Hpos, u64_mod_block, <-Hal. lia.
Qed.

(** The first waiting loop when one read brings a frame and the end of the stream:
    the sender returns, and the loop is left with the frame buffered. *)
Lemma wait_half_close fuel out check need bytes c :
  input_inv (read_buf_ c) → sender_inv out c → placid (tx c) = true →
  (length out ≤ kWindow)%Z → length out + 3 < fuel → S (length (tx c)) < fuel →
  rx c = [RdBytes bytes; RdEof] → unread c = [] → (0 < need ≤ length bytes)%Z →
  length bytes < recv_room (read_buf_ c) → (length bytes < 2 ^ 31)%Z →
  wp (wait_bytes fuel check need) (λ suspended c', suspended = false ∧ ended out c' ∧
    input_inv (read_buf_ c') ∧ unread c' = bytes ∧
    consumed_bytes_ (read_buf_ c') = consumed_bytes_ (read_buf_ c)) c.
Proof.
  intros Hi Hs Htx Hwin Hf Hft Hrx Hun Hneed Hroom Hsm. pose proof Hs as (_ & Hcl & _).
  assert (rx_effect (recv_room (read_buf_ c)) (rx c) = (bytes, [RdEof], true)) as Heff.
  { rewrite Hrx. destruct bytes as [|x bytes]; [simpl in *; lia|]. cbn [rx_effect].
    rewrite decide_False by lia. rewrite decide_True by (apply drop_ge; lia).
    rewrite decide_False by lia. simpl. by rewrite app_nil_r. }
  unfold wait_bytes. destruct fuel as [|[|fuel]]; [lia|lia|].
  apply wp_iter_step. unfold wait_step at 1. apply wp_bind, wp_gets, wp_bind, wp_gets. poll.
  rewrite Hcl, andb_false_r, read_bytes_unread, Hun by (done || rewrite Hun; done).
  rewrite bool_decide_eq_true_2 by (simpl; lia). simpl. apply wp_bind, wp_bind. eapply wp_mono.
  { apply (wp_async_read_open (S (S fuel)) out); try done. rewrite Hrx. simpl. lia. }
  rewrite Heff, Hun. simpl. intros suspend c' (Hi' & Hun' & _ & Hcl' & -> & _ & Hcb & Hend).
  unfold ReadAwaiter_await_suspend, add_event. apply wp_bind, wp_gets. rewrite Hcl'.
  wp_steps. apply wp_iter_step. unfold wait_step. apply wp_bind, wp_gets, wp_bind, wp_gets.
  change (read_bytes_ (read_buf_ (log_event DELETE c'))) with (read_bytes_ (read_buf_ c')).
  rewrite read_bytes_unread by (done || (simpl; rewrite Hun'; lia)). simpl. rewrite Hun'.
  rewrite bool_decide_eq_false_2 by lia. apply wp_ret. by split_and!.
Qed.

Lemma placed_app pos calls1 calls2 :
  placed pos (calls1 ++ calls2) ↔
  placed pos calls1 ∧ placed (pos + length (request_stream calls1)) calls2.
Proof.
  revert pos. induction calls1 as [|k calls1 IH]; intros pos.
  { simpl. rewrite Z.add_0_r. tauto. }
  cbn [app placed]. rewrite IH. change (request_stream (k :: calls1)) with (request_frame k ++ request_stream calls1).
  rewrite length_app, Nat2Z.inj_add, Z.add_assoc. tauto.
Qed.

Lemma on_event_half_close fuel out k reply pos t c :
  live fuel out c → rx c = [] → incoming c = [] → at_pos pos c → placed pos [k] →
  respond name2service_ k = Some reply → (pos mod kBlockSize + length (request_frame k) < kBlockSize)%Z →
  placid t = true → S (length t) < fuel →
  length (request_frame k) < fuel → 4 < fuel →
  (length (out ++ reply) ≤ kWindow)%Z → length (out ++ reply) + 3 < fuel →
  on_event name2service_ fuel AtHeaderLen (Arrives [RdBytes (request_frame k); RdEof] t) c =
    Faulted ResumeDestroyed.
Proof.
  intros Hl Hrx Hin Hpos ([Hok Hsm] & Hfit1 & Hfit2 & _) Hresp Hroom Ht Hft Hf Hf4 Hwin Hfw.
  change (frame _ _) with (request_frame k) in Hsm.
  rewrite length_app in Hwin, Hfw. apply app_nil in Hin as [Hun _].
  assert (8 ≤ length (request_frame k)) as H8
    by (unfold request_frame, frame; rewrite !length_app; simpl; lia).
  cbn [on_event]. apply bind_wp, wp_modify.
  set (c0 := set_rx (rx c ++ [RdBytes (request_frame k); RdEof]) (set_tx t c)).
  assert (wp (wait_bytes fuel true 4) (λ suspended c', suspended = false ∧ ended out c' ∧
    input_inv (read_buf_ c') ∧ unread c' = request_frame k ∧
    consumed_bytes_ (read_buf_ c') = consumed_bytes_ (read_buf_ c0)) c0) as Hwait.
  { pose proof (recv_room_empty pos c (live_input _ _ _ Hl) Hun Hpos) as Hrm.
    change (read_buf_ c) with (read_buf_ c0) in Hrm.
    apply wait_half_close; try done; try apply Hl; try lia. simpl. by rewrite Hrx. }
  apply wp_done in Hwait as (s & c1 & Hrun & -> & (Hdone & Hcl & Hout & Ho) & Hi1 & Hun1 & Hcb1).
  assert (recv_step name2service_ fuel AtHeaderLen c0 = recv_step name2service_ fuel AtHeaderLen c1) as Hsame.
  { cbn [recv_step]. rewrite (bind_done _ _ _ _ _ Hrun).
    rewrite wait_then_ready; [|done|rewrite Hun1; lia|rewrite Hun1; lia|lia].
    apply bind_wp, wp_gets. unfold cut_off.
    rewrite read_bytes_unread, Hun1, bool_decide_eq_false_2, andb_false_r by (done || rewrite ?Hun1; lia).
    done. }
  unfold recv_run. destruct fuel as [|[|[|[|fuel]]]]; [lia..|].
  rewrite (iter_same_step _ _ _ _ _ Hsame).
  pose proof kBlockSize_val. pose proof (Z.mod_pos_bound pos kBlockSize ltac:(lia)).
  apply (recv_returned_faults _ fuel k reply pos); try done; try lia.
  unfold at_pos in *. poll. by rewrite Hcb1.
Qed.

(** Any complete requests, then one more together with the end of the stream. *)
Lemma serve_half_close fuel calls replies k reply es t more :
  let stop := length (request_stream calls) in
  placed 0 (calls ++ [k]) → mapM (respond name2service_) calls = Some replies →
  respond name2service_ k = Some reply →
  concat (event_bytes <$> es) = request_stream calls → Forall (event_ok fuel) es →
  (stop mod kBlockSize + length (request_frame k) < kBlockSize)%Z →
  placid t = true → S (length t) < fuel →
  (stop < 2 ^ 31 - 1)%Z → stop + length (request_frame k) + 2 < fuel → 4 * length calls + 4 < fuel →
  (length (concat replies ++ reply) ≤ kWindow)%Z → length (concat replies ++ reply) + 3 < fuel →
  serve name2service_ fuel (es ++ (Arrives [RdBytes (request_frame k); RdEof] t :: more))
    (Connection_new [] []) = Faulted ResumeDestroyed.
Proof.
  intros stop [Hp1 Hp2]%placed_app Hreplies Hreply Hes Hok Hroom Ht Hft Hsm Hf Hfc Hwin Hfw.
  pose proof Hwin as Hwin'. pose proof Hfw as Hfw'. rewrite length_app in Hwin', Hfw'.
  pose proof (serve_part name2service_ fuel calls replies es [] Hp1 Hreplies) as Hserve.
  cbv zeta in Hserve. rewrite app_nil_r in Hserve.
  specialize (Hserve Hes Hok Hsm ltac:(lia) Hfc ltac:(lia) ltac:(lia)).
  apply wp_done in Hserve as (x & c & Hrun & (-> & Hl & Hin & Hrx & Hpos)%run_post_end).
  rewrite (serve_app _ _ _ _ _ _ Hrun). apply bind_faults.
  by apply (on_event_half_close fuel (concat replies) k reply stop); try done; lia.
Qed.

(** ** A refused request *)

(** The connection is closed, the sender is suspended for good and the socket is
    still registered; [out] was handed to the sender. *)
Definition stranded (out : list cell) (c : Connection) : Prop :=
  closed_ c = true ∧ (send_co c = SendWaiting ∨ send_co c = SendWriting) ∧
  registered c ∧ wire c ++ unsent c = out ∧ output_inv (write_buf_ c).

Lemma shut_strands fuel out (c' : Connection) : shut fuel out c' → stranded out c'.
Proof.
  intros (c & c1 & Hl & Hc1 & Hrun). destruct (live_sender _ _ _ Hl) as (Ho & Hcl & Hset & Hout).
  pose proof (settled_open _ Hcl Hset) as Hco. pose proof (live_registered _ _ _ Hl) as Hreg.
  poll. unfold Connection_close in Hrun. injection Hrun as <-.
  destruct Hc1 as [->|[b ->]]; by split_and!.
Qed.

(** An event at a connection that waits for requests, the last of which will be
    refused. *)
Lemma on_event_refused fuel calls replies k rest pc e future c :
  let total := length (request_stream (calls ++ [k]) ++ rest) in
  refuse_post name2service_ fuel [] (event_bytes e ++ future) calls replies k rest (Suspended pc) c →
  event_ok fuel e → respond name2service_ k = None → (total < 2 ^ 31 - 1)%Z → total + 2 < fuel →
  4 * length calls + 8 < fuel →
  (length (concat replies) ≤ kWindow)%Z → length (concat replies) + 3 < fuel →
  wp (on_event name2service_ fuel pc e) (refuse_post name2service_ fuel [] future calls replies k rest) c.
Proof.
  intros total Hpost He Hk Hsm Hf Hfc Hwin Hfw.
  pose proof (refuse_post_total name2service_ _ _ _ _ _ _ _ _ _ Hpost) as Htot. rewrite !length_app in Htot.
  unfold total in *. rewrite length_app in Hsm, Hf.
  destruct (refuse_post_frame name2service_ _ _ _ _ _ _ _ _ Hpost) as (out & Hlen & Hl & Hrx & Hframe).
  simpl in Hl, Hrx. destruct e as [r t|t]; cbn [event_bytes] in *.
  - apply wp_bind, wp_modify.
    assert (∀ out, live fuel out c → rx c = [] → let c' := set_rx (rx c ++ r) (set_tx t c) in
      live fuel out c' ∧ incoming c' = incoming c ++ rx_bytes r) as Hev.
    { intros out' Hl' _. apply live_arrives; try done; rewrite length_app; lia. }
    eapply (refuse_resume_spec name2service_); try done; [|by apply (Hev out)].
    intros out' Hl' Hp'. by apply Hev.
  - apply wp_bind, wp_modify, wp_bind.
    eapply wp_mono; [apply (live_can_write fuel out); try done; lia|].
    intros [] c2 (Hl2 & Hrb2 & Hrx2). apply wp_ret, Hframe; poll; by rewrite ?Hrb2, ?Hrx2.
Qed.

(** Any complete requests and one that is refused arrive in any pieces. *)
Lemma on_events_refused fuel calls replies k rest es pc c :
  let total := length (request_stream (calls ++ [k]) ++ rest) in
  refuse_post name2service_ fuel [] (concat (event_bytes <$> es)) calls replies k rest (Suspended pc) c →
  rx c = [] → Forall (event_ok fuel) es → respond name2service_ k = None →
  (total < 2 ^ 31 - 1)%Z → total + 2 < fuel → 4 * length calls + 8 < fuel →
  (length (concat replies) ≤ kWindow)%Z → length (concat replies) + 3 < fuel →
  ∃ es1 e es2, es = es1 ++ e :: es2 ∧
    wp (on_events name2service_ fuel pc (es1 ++ [e])) (λ x c', x = Returned tt ∧ stranded (concat replies) c') c ∧
    ∀ r t more, on_events name2service_ fuel pc (es1 ++ e :: Arrives r t :: more) c = Faulted ResumeDestroyed.
Proof.
  intros total Hpost Hrx Hes Hk Hsm Hf Hfc Hwin Hfw. revert pc c Hpost Hrx.
  induction es as [|e es IH]; intros pc c Hpost Hrx.
  { apply (refuse_post_missing name2service_) in Hpost. poll. by rewrite Hrx in Hpost. }
  apply Forall_cons in Hes as [He Hes].
  pose proof (on_event_refused fuel calls replies k rest pc e _ c Hpost He Hk Hsm Hf Hfc Hwin Hfw) as Hone.
  apply wp_done in Hone as ([pc1|[]] & c1 & Hrun & Hpost1).
  - assert (rx c1 = []) as Hrx1 by (by destruct Hpost1 as (? & ? & ? & ? & ? & _ & _ & _ & _ & _ & ? & _)).
    destruct (IH Hes pc1 c1 Hpost1 Hrx1) as (es1 & e' & es2 & -> & Hret & Hagain).
    exists (e :: es1), e', es2. unfold wp. cbn [app on_events].
    split_and!; [done|by rewrite (bind_done _ _ _ _ _ Hrun)|].
    intros r t more. by rewrite (bind_done _ _ _ _ _ Hrun).
  - apply shut_strands in Hpost1. exists [], e, es. unfold wp. cbn [app on_events].
    split_and!; [done|by rewrite (bind_done _ _ _ _ _ Hrun)|].
    intros r t more. rewrite (bind_done _ _ _ _ _ Hrun). cbn [after_return]. apply bind_wp, wp_gets.
    destruct Hpost1 as (_ & _ & Hreg & _). by rewrite decide_False by exact Hreg.
Qed.

(** The coroutines are started. *)
Lemma serve_toward_refusal fuel calls replies k rest :
  placed 0 (calls ++ [k]) → mapM (respond name2service_) calls = Some replies → 3 < fuel →
  wp (send_fn fuel;; recv_fn name2service_ fuel)
    (λ x c, x = Suspended AtHeaderLen ∧ rx c = [] ∧ refuse_post name2service_ fuel []
       (request_stream (calls ++ [k]) ++ rest) calls replies k rest x c)
    (Connection_new [] []).
Proof.
  intros Hplaced Hreplies Hf. apply wp_start; [lia|]. intros c Hl Hin Hpos Hrx.
  apply (recv_idle_spec name2service_ fuel fuel [] 0); try done; [lia|].
  intros c' Hl' Hp' Hpos' Hin' Hneed. split_and!; [done|done|].
  exists 0%Z, [], calls, [], replies. split_and!; try done. rewrite Hin'. by apply toward_start.
Qed.

(** Any complete requests, then a request that is refused, with anything behind it,
    in any pieces: at one of the events [recv_fn] returns; whatever arrives next
    resumes it. *)
Lemma serve_refused fuel calls replies k rest es :
  let stream := request_stream (calls ++ [k]) ++ rest in
  let s := Connection_new [] [] in
  placed 0 (calls ++ [k]) → mapM (respond name2service_) calls = Some replies →
  respond name2service_ k = None →
  concat (event_bytes <$> es) = stream → Forall (event_ok fuel) es →
  (length stream < 2 ^ 31 - 1)%Z → length stream + 2 < fuel → 4 * length calls + 8 < fuel →
  (length (concat replies) ≤ kWindow)%Z → length (concat replies) + 3 < fuel →
  ∃ es1 e es2, es = es1 ++ e :: es2 ∧
    wp (serve name2service_ fuel (es1 ++ [e])) (λ x c, x = Returned tt ∧ stranded (concat replies) c) s ∧
    ∀ r t more, serve name2service_ fuel (es1 ++ e :: Arrives r t :: more) s = Faulted ResumeDestroyed.
Proof.
  intros stream s Hplaced Hreplies Hk Hes Hok Hsm Hf Hfc Hwin Hfw.
  pose proof (serve_toward_refusal fuel calls replies k rest Hplaced Hreplies ltac:(lia)) as Hstart.
  apply wp_done in Hstart as (x & c & Hrun & -> & Hrx & Hpost).
  fold stream in Hpost. rewrite <-Hes in Hpost.
  destruct (on_events_refused fuel calls replies k rest es AtHeaderLen c Hpost Hrx Hok Hk Hsm Hf Hfc Hwin Hfw)
    as (es1 & e & es2 & -> & Hret & Hagain).
  assert (∀ es, serve name2service_ fuel es s = on_events name2service_ fuel AtHeaderLen es c) as Hserve.
  { intros es. unfold s, serve, mbind, M_bind in Hrun |- *.
    destruct (send_fn fuel _) as [[[] c1]| |]; [|done|done]. by rewrite Hrun. }
  exists es1, e, es2. unfold wp in *. rewrite Hserve. split_and!; [done|done|]. intros. by rewrite Hserve.
Qed.

(** The requests have been answered, and the one that is refused arrives at once. *)
Lemma serve_refused_whole fuel calls replies k es r t :
  let stream := request_stream (calls ++ [k]) in
  placed 0 (calls ++ [k]) → mapM (respond name2service_) calls = Some replies →
  respond name2service_ k = None →
  concat (event_bytes <$> es) = request_stream calls → rx_bytes r = request_frame k →
  Forall (event_ok fuel) es → event_ok fuel (Arrives r t) →
  (length stream < 2 ^ 31 - 1)%Z → length stream + 2 < fuel → 4 * length calls + 8 < fuel →
  (length (concat replies) ≤ kWindow)%Z → length (concat replies) + 3 < fuel →
  wp (serve name2service_ fuel (es ++ [Arrives r t]))
    (λ x c, x = Returned tt ∧ stranded (concat replies) c) (Connection_new [] []).
Proof.
  intros stream Hplaced Hreplies Hk Hes Hr Hok Hev Hsm Hf Hfc Hwin Hfw.
  assert (stream = request_stream calls ++ request_frame k) as Hstream
    by (unfold stream; by rewrite request_stream_app, request_stream_one).
  pose proof Hplaced as [Hp1 (Hfs & Hfit1 & Hfit2 & _)]%placed_app.
  pose proof (serve_part name2service_ fuel calls replies es [] Hp1 Hreplies) as Hserve.
  cbv zeta in Hserve. rewrite app_nil_r in Hserve. rewrite Hstream, length_app in Hsm, Hf.
  specialize (Hserve Hes Hok ltac:(lia) ltac:(lia) ltac:(lia) Hwin Hfw).
  apply wp_done in Hserve as (x & c & Hrun & (-> & Hl & Hin & Hrx & Hpos)%run_post_end).
  unfold wp. rewrite (serve_app _ _ _ _ _ _ Hrun). cbn [on_events].
  destruct (live_arrives fuel (concat replies) r t c) as [Hl' Hin']; rewrite ?Hin, ?Hr; try done.
  { cbn [app]. lia. } { cbn [app]. lia. }
  rewrite Hin, Hr in Hin'. simpl in Hin'.
  assert (wp (on_event name2service_ fuel AtHeaderLen (Arrives r t))
    (refuse_post name2service_ fuel (concat replies) [] [] [] k []) c) as Hone.
  { apply wp_bind, wp_modify. apply (recv_run_refused name2service_ fuel fuel [] [] k [] AtHeaderLen (length (request_stream calls)));
      rewrite ?app_nil_r; try done; [|unfold toward_left; simpl; lia].
    rewrite Hin'. exists (request_frame k). rewrite app_nil_r.
    split_and!; [by constructor|done|intros ?; simpl in *; lia|done]. }
  apply wp_done in Hone as ([pc|[]] & c2 & Hrun2 & Hpost).
  - exfalso. pose proof Hpost as (? & ? & ? & ? & ? & _ & _ & _ & _ & _ & Hp & _). poll.
    apply (refuse_post_missing name2service_) in Hpost. poll. by rewrite Hp in Hpost.
  - rewrite (bind_done _ _ _ _ _ Hrun2). split; [done|]. apply shut_strands in Hpost. by rewrite app_nil_r in Hpost.
Qed.
End closing.
