(* ===== verification/EventLoopServer.v ===== *)
(** * Servers on the executors with a poller (server/rpc_server.cc,
      scheduler/epoll_exector.cc, scheduler/kqueue_executor.cc)

    The connections of a server as endpoints of the event loop, and what their peers
    get: the loop never touches a destroyed connection, serves every connection as if
    it were alone, and has write events registered for a socket whenever its sender
    waits for them, so that one more report gets the rest of the responses out.  This
    is proved once, for any poller that is [serving]; epoll and kqueue both are.

    The registration is that of the calls of [add_event] that the coroutines make; so
    this is also where the events that other models let happen at any time are seen to
    be possible when they are needed. *)
From stdpp Require Import strings.
From S2P Require Import Prelude Block Segments InputStream OutputStream Streams Conn Connection ConnectionProofs Sender Poller Wire Protocol Receiver PollReceiver HangUp Server ServerProofs EventLoop EventLoopProofs ServerSide Closing ServerProcess.

(** ** A waiting sender has asked for its event *)

(** Events are only added, and a sender that has come to wait for its socket has
    added [WRITE]. *)
Definition asks (c c' : Connection) : Prop :=
  ∃ new, events c' = events c ++ new ∧
    (send_co c' = SendWriting → send_co c = SendWriting ∨ WRITE ∈ new).
#[export] Instance asks_preorder : PreOrder asks.
Proof.
  split.
  - intros c. exists []. rewrite app_nil_r. auto.
  - intros c1 c2 c3 (n1 & H1 & H2) (n2 & H3 & H4). exists (n1 ++ n2).
    rewrite H3, H1, app_assoc. split; [done|]. rewrite elem_of_app. naive_solver.
Qed.

Lemma asks_quiet c c' : events c' = events c → (send_co c' = SendWriting → send_co c = SendWriting) → asks c c'.
Proof. intros He Hs. exists []. rewrite app_nil_r. auto. Qed.
Lemma asks_more e c : asks c (log_event e c).
Proof. exists [e]. split; [done|]. by left. Qed.

Ltac quiet := intros; first [by apply asks_quiet | by apply asks_more].

Lemma follows_asks_modify (g : Connection → Connection) :
  (∀ c, asks c (g c)) → follows asks (modify g).
Proof. apply follows_modify. Qed.

Lemma asks_int32 z : follows (S := Connection) asks (int32 z).
Proof. unfold int32. preserve. Qed.
Lemma asks_read_buf {A} (m : M InputBuffer A) : follows (S := Connection) asks (on_read_buf m).
Proof. apply follows_read_buf. quiet. Qed.
Lemma asks_write_buf {A} (m : M OutputBuffer A) : follows (S := Connection) asks (on_write_buf m).
Proof. apply follows_write_buf. quiet. Qed.
#[local] Hint Resolve asks_int32 asks_read_buf asks_write_buf : preserves.

Lemma asks_send_write fuel : follows asks (send_write fuel).
Proof.
  assert (follows (S := Connection) asks
    (modify (set_send_co SendWriting);; add_event WRITE;; mret true)) as Hwait.
  { intros c a c' [= <- <-]. exists [WRITE]. split; [done|]. intros _. right. by left. }
  unfold send_write, PollConnection_async_write, async_write_step, sys_writev.
  preserve; try exact Hwait; apply follows_asks_modify; quiet.
Qed.

Lemma asks_resume_write fuel : follows asks (resume_write fuel).
Proof.
  pose proof (asks_send_write fuel) as Hw. unfold resume_write, send_loop, send_body.
  preserve; apply follows_asks_modify; quiet.
Qed.

Lemma asks_await_read fuel : follows (S := Connection) asks (await_read fuel).
Proof.
  pose proof (asks_resume_write fuel) as Hw. poll.
  unfold PollConnection_async_read, async_read_step, sys_read, ReadAwaiter_await_suspend, add_event, Connection_close.
  preserve; apply follows_asks_modify; quiet.
Qed.

Lemma asks_recv_run `{Protobuf} name2service_ fuel pc :
  follows (S := Connection) asks (recv_run name2service_ fuel pc).
Proof.
  apply (recv_run_follows _ asks); try (intros; by apply asks_quiet).
  - poll. unfold Connection_close. apply follows_asks_modify. quiet.
  - apply asks_await_read.
  - apply asks_resume_write.
Qed.

(** ** A connection of the server as an endpoint *)
Section endpoint.
Context `{Protobuf} (name2service_ : gmap string Service) (fuel : nat).
Abbreviation sock := (recv_exit recv_pc unit * Connection)%type.

(** [serve] without events: the two tasks. *)
Definition server_endpoint : Endpoint := {|
  ep := sock;
  ep_task := Empty_set;
  ep_conn := snd;
  ep_start := serve name2service_ fuel [] (Connection_new [] []);
  ep_run k := match k with end;
  ep_close := on_snd (λ _, Connection_close) (λ _ x, x);
  ep_read r t := on_snd (λ x, match x with
                              | Suspended pc => on_event name2service_ fuel pc (Arrives r t)
                              | Returned _ => fail_with ResumeDestroyed
                              end) (λ y _, y);
  ep_write t := on_snd (λ _, modify (set_tx t);; resume_write fuel) (λ _ x, x);
  ep_gone x := match x.1 with
               | Returned _ => bool_decide (send_co x.2 = SendDone)
               | Suspended _ => false
               end;
|}.
End endpoint.

(** ** A connection between two reports *)
Section sockets.
Context `{ProtobufLaws} (name2service_ : gmap string Service) (fuel : nat).
Context (reqs : nat → list (Header * list cell)) (replies : nat → list (list cell)).
Hypothesis Hserv : ∀ p, servable name2service_ fuel (reqs p) (replies p).
Abbreviation E := (server_endpoint name2service_ fuel).
Abbreviation stream p := (request_stream (reqs p)).

(** The connection at [p] serves, and [future] is still to arrive. *)
Definition waiting p (future : list cell) (x : ep E) : Prop :=
  run_post name2service_ fuel [] future (length (stream p)) (reqs p) (replies p) (fst x) (snd x).

Lemma waiting_alive p future x : waiting p future x → ep_gone E x = false ∧ registered (snd x).
Proof.
  intros (pc & ? & ? & ? & ? & ? & Hx & _ & _ & _ & _ & Hl & _). simpl. rewrite Hx. split; [done|]. apply Hl.
Qed.

Lemma waiting_event p e future pc c :
  event_ok fuel e → waiting p (event_bytes e ++ future) (Suspended pc : recv_exit recv_pc unit, c) →
  wp (on_event name2service_ fuel pc e) (λ x c', waiting p future (x, c') ∧ asks c c') c.
Proof.
  intros He Hw. destruct (Hserv p) as (? & ? & Hsm & Hf & Hfc & Hwin & Hfw).
  apply wp_follows.
  - destruct e as [r t|t]; simpl.
    + apply (follows_bind asks); [apply follows_asks_modify; quiet|]. intros _. apply asks_recv_run.
    + apply (follows_bind asks); [apply follows_asks_modify; quiet|]. intros _.
      apply (follows_bind asks); [apply asks_resume_write|]. intros _. apply (follows_ret asks).
  - apply (on_event_spec name2service_ fuel _ _ _ pc e future c); try done. lia.
Qed.

Lemma socket_read p r t future x :
  event_ok fuel (Arrives r t) → waiting p (rx_bytes r ++ future) x →
  wp (ep_read E r t) (λ _ x', waiting p future x' ∧ asks (snd x) (snd x')) x.
Proof.
  intros Ha Hw. pose proof Hw as (pc & ? & ? & ? & ? & ? & Hx & _). destruct x as [x c]. simpl in Hx. subst x.
  apply wp_on_snd. by apply (waiting_event p (Arrives r t)).
Qed.

(** A sender that is resumed for its event asks anew if it has to wait again. *)
Lemma socket_write p t future x :
  event_ok fuel (CanWrite t) → waiting p future x →
  wp (ep_write E t) (λ _ x', waiting p future x' ∧
    ∃ new, events (snd x') = events (snd x) ++ new ∧ (send_co (snd x') = SendWriting → WRITE ∈ new)) x.
Proof.
  intros Ha Hw.
  pose proof Hw as (pc & ? & ans & ? & r1 & ? & Hx & _ & Hreplies & _ & _ & Hl & _).
  destruct x as [x c]. simpl in Hx, Hl. subst x.
  apply wp_on_snd. cbn [fst snd]. pose proof (waiting_event p (CanWrite t) future pc c Ha Hw) as Hev.
  assert (wp (resume_write fuel) (send_post (set_tx t c)) (set_tx t c)) as Hsend.
  { destruct (live_sender _ _ _ Hl) as (Ho & Hcl & Hset & Hsent). destruct Ha as (Ht & Hft & _).
    destruct (Hserv p) as (_ & _ & _ & _ & _ & Hwin & Hfw). simpl in Ht, Hft.
    rewrite Hreplies, concat_app, length_app in Hwin, Hfw.
    apply (f_equal length) in Hsent. rewrite length_app in Hsent.
    apply wp_resume_write; [|by apply settled_open].
    split_and!; simpl; [done|lia|apply placid_calm; [lia|done]|lia|lia]. }
  apply wp_done in Hev as (y & c' & Hrun & Hpost & _). simpl in Hrun. unfold wp, mbind, M_bind in Hrun, Hsend |- *.
  unfold modify in *. destruct (resume_write fuel (set_tx t c)) as [[[] c1]| |]; [|done|done].
  injection Hrun as <- <-. split; [done|]. destruct Hsend as (_ & _ & Hev & _). eexists. split; [exact Hev|].
  intros ->. by left.
Qed.

(** With room for everything, everything is sent. *)
Lemma flush_window : ∃ w : nat, (kWindow ≤ w)%Z ∧ (2 < fuel → event_ok fuel (CanWrite [WrAccept w])).
Proof.
  assert (∃ w : nat, (kWindow ≤ w)%Z) as [w Hwd] by (exists (Z.to_nat kWindow); unfold kWindow; lia).
  exists w. split; [done|]. intros Hf. unfold kWindow in Hwd.
  split_and!; simpl; [by rewrite bool_decide_eq_true_2|lia|done].
Qed.
Lemma socket_flush p w x :
  (kWindow ≤ Z.of_nat w)%Z → waiting p [] x → wp (ep_write E [WrAccept w]) (λ _ x', unsent (snd x') = []) x.
Proof.
  intros Hwd Hw. pose proof (run_post_end name2service_ _ _ _ _ _ _ Hw) as (_ & Hl & _).
  destruct (live_sender _ _ _ Hl) as (Hob & Hcl & Hset & Hout).
  destruct (Hserv p) as (_ & _ & _ & _ & _ & Hwin & Hfw). destruct x as [y c]. simpl in *.
  apply wp_on_snd. cbn [fst snd]. apply wp_bind, wp_modify.
  apply (resume_flushes fuel (concat (replies p)) w); simpl; try done; [by apply settled_open|lia].
Qed.

(** *** The start *)
Lemma send_fn_quiet : 0 < fuel →
  wp (send_fn fuel) (λ _ c, events c = [] ∧ send_co c ≠ SendWriting) (Connection_new [] []).
Proof.
  intros Hf. destruct output_inv_new as [Hinv Hct].
  eapply wp_mono; [apply (wp_send_loop_idle fuel); [done|by right|done]|].
  intros [] c (Hsome & Hset & Hev & _). pose proof (ss_bytes _ _ Hsome) as Hb. simpl in Hb.
  assert (send_co c ≠ SendWriting) as Hco.
  { intros Hco. unfold send_settled in Hset. rewrite Hco in Hset. destruct Hset as [_ Hne].
    rewrite Hct in Hb. by destruct (unsent c), (wire c). }
  rewrite decide_False in Hev by done. by split.
Qed.

Lemma server_starts p :
  ∃ x new, ep_start E = Done x ∧ waiting p (stream p) x ∧ events (snd x) = READ :: new ∧
    (send_co (snd x) = SendWriting → WRITE ∈ new).
Proof.
  destruct (Hserv p) as (Hplaced & Hresp & Hsm & Hf & Hfc & Hwin & Hfw).
  pose proof (serve_part name2service_ fuel (reqs p) (replies p) [] (stream p) Hplaced Hresp eq_refl
    (Forall_nil_2 _) Hsm Hf Hfc Hwin ltac:(lia)) as Hs.
  apply wp_done in Hs as (y & c & Hrun & Hp). exists (y, c).
  pose proof (send_fn_quiet ltac:(lia)) as Hsend. pose proof Hrun as Hrun0.
  unfold serve, mbind, M_bind in Hrun.
  unfold wp in Hsend. destruct (send_fn fuel _) as [[[] c1]| |]; [|done|done]. destruct Hsend as [Hev1 Hco1].
  unfold recv_fn, mbind at 1, M_bind at 1 in Hrun. poll. unfold RegisterReadAwaiter_await, add_event in Hrun.
  unfold mbind, M_bind, modify in Hrun. simpl in Hrun.
  destruct (recv_run name2service_ fuel AtHeaderLen _) as [[z c2]| |] eqn:Hr; [|done|done].
  assert (c2 = c) as -> by (destruct z as [?|[]]; simpl in Hrun; by injection Hrun).
  destruct (asks_recv_run name2service_ fuel AtHeaderLen _ _ _ Hr) as (new & He & Hs).
  simpl in He, Hs. rewrite Hev1 in He. exists new. split_and!; [exact Hrun0|exact Hp|exact He|].
  intros Hw. by destruct (Hs Hw).
Qed.

(** The new events of a connection that still serves. *)
Lemma waiting_new p future (x x' : ep E) new :
  waiting p future x' → events (snd x') = events (snd x) ++ new → new_events (snd x) (snd x') = new ∧ DELETE ∉ new.
Proof.
  intros Hw He. pose proof (waiting_alive p future x' Hw) as [_ Hreg]. unfold registered in Hreg.
  rewrite He, elem_of_app in Hreg. split; [|naive_solver]. unfold new_events. by rewrite He, drop_app_events.
Qed.

(** ** What a server needs of a poller *)

(** [sv_bytes]: the bytes that an answer hands over; [sv_ok]: the answers of a kernel
    that delivers and is calm; [sv_armed]: read events are registered, and write events
    if the sender waits for its socket. *)
Record serving (K : Kernel E) `{!Framed K} := mkServing {
  sv_bytes : answer K → list cell;
  sv_ok : answer K → Prop;
  sv_armed : option (reg (poller K)) → ep E → Prop;
  sv_start (x : ep E) new : events (snd x) = READ :: new → DELETE ∉ new →
    (send_co (snd x) = SendWriting → WRITE ∈ new) → sv_armed (start_interest x) x;
  (** One event at a connection that serves. *)
  sv_event p a future (s : loop E (poller K)) (o : obj E) : loop_wf s → objs s !! p = Some o →
    sv_ok a → meant_for a (ofd o) →
    waiting p (sv_bytes a ++ future) (body o) → sv_armed (interest_of (ofd o) s) (body o) →
    ∃ (x : ep E) i, handle K (p, a) s = Done (tt, put p o x i s) ∧ waiting p future x ∧ sv_armed i x;
  sv_nothing (s : loop E (poller K)) : may_report K s [];
  (** A report that lets a sender which waits for its socket send everything. *)
  sv_flush p (s : loop E (poller K)) (o : obj E) : loop_wf s → objs s !! p = Some o → waiting p [] (body o) →
    sv_armed (interest_of (ofd o) s) (body o) → send_co (snd (body o)) = SendWriting →
    ∃ a (x : ep E) i, may_report K s [(p, a)] ∧ sv_ok a ∧ sv_bytes a = [] ∧
      handle K (p, a) s = Done (tt, put p o x i s) ∧ waiting p [] x ∧ unsent (snd x) = [];
}.
End sockets.
Arguments sv_bytes {_ _ _ _ _ _ _} _ _.
Arguments sv_ok {_ _ _ _ _ _ _} _ _.
Arguments sv_armed {_ _ _ _ _ _ _} _ _ _.
Arguments sv_start {_ _ _ _ _ _ _} _.
Arguments sv_event {_ _ _ _ _ _ _} _.
Arguments sv_nothing {_ _ _ _ _ _ _} _.
Arguments sv_flush {_ _ _ _ _ _ _} _.

(** *** Runs of such a server *)
Section arrivals.
Context {E : Endpoint} {K : Kernel E} (bytes : answer K → list cell) (ok : answer K → Prop).

(** The bytes for [p] that were handed over. *)
Definition arrived_in p (evs : list (nat * answer K)) : list cell :=
  concat ((λ ev, if decide (ev.1 = p) then bytes ev.2 else []) <$> evs).
Definition arrivals p (l : list (loop_action K)) : list cell :=
  concat ((λ b, match b with Reports evs => arrived_in p evs | _ => [] end) <$> l).

Definition act_ok (b : loop_action K) : Prop :=
  match b with Reports evs => Forall (λ ev, ok ev.2) evs | _ => True end.

Lemma arrivals_snoc p l b :
  arrivals p (l ++ [b]) = arrivals p l ++ match b with Reports evs => arrived_in p evs | _ => [] end.
Proof. unfold arrivals. rewrite fmap_app, concat_app. simpl. by rewrite app_nil_r. Qed.

Lemma arrived_cons q p a evs :
  arrived_in q ((p, a) :: evs) = (if decide (p = q) then bytes a else []) ++ arrived_in q evs.
Proof. done. Qed.
End arrivals.

Section loops.
Context `{ProtobufLaws} (name2service_ : gmap string Service) (fuel : nat).
Context (reqs : nat → list (Header * list cell)) (replies : nat → list (list cell)).
Hypothesis Hserv : ∀ p, servable name2service_ fuel (reqs p) (replies p).
Abbreviation E := (server_endpoint name2service_ fuel).
Abbreviation stream p := (request_stream (reqs p)).
Abbreviation waiting := (waiting name2service_ fuel reqs replies).
Context {K : Kernel E} `{!Framed K} (V : serving name2service_ fuel reqs replies K).
Abbreviation arrivals := (arrivals (sv_bytes V)).
Abbreviation arrived_in := (arrived_in (sv_bytes V)).
Abbreviation act_ok := (act_ok (sv_ok V)).
Implicit Types (s : loop E (poller K)) (o : obj E).

(** The socket at [p], of whose stream [got] has arrived. *)
Definition sock_inv (got : list cell) s o p : Prop :=
  ∃ future, got ++ future = stream p ∧ waiting p future (body o) ∧ sv_armed V (interest_of (ofd o) s) (body o).
Definition got_inv (got : nat → list cell) s : Prop :=
  loop_wf s ∧ ∀ p, match objs s !! p with Some o => sock_inv (got p) s o p | None => got p = [] end.
Definition loop_inv (l : list (loop_action K)) s : Prop := got_inv (λ p, arrivals p l) s.

(** The connections stay at their addresses and keep their descriptors. *)
Definition stay s s' : Prop := ∀ p o, objs s !! p = Some o → ∃ o', objs s' !! p = Some o' ∧ ofd o' = ofd o.

Lemma put_inv got got' p o x i s future :
  got_inv got s → fits_at p o s → waiting p future x → sv_armed V i x →
  got' p ++ future = stream p → (∀ q, q ≠ p → got' q = got q) →
  got_inv got' (put p o x i s) ∧ (objs s !! p = Some o → stay s (put p o x i s)).
Proof.
  intros [Hwf Hall] Hfit Hw Harm Hgot Hother. destruct (waiting_alive _ _ _ _ p future x Hw) as [Hgone _].
  split.
  - split; [by apply fits_put_wf|]. intros q. rewrite put_lookup. case_decide as Hq.
    + subst q. rewrite Hgone. exists future. split_and!; [done|done|]. cbn [ofd body].
      by rewrite (interest_put p o).
    + rewrite (Hother q Hq). specialize (Hall q). destruct (objs s !! q) as [o'|] eqn:Ho'; [|done].
      destruct (fits_same_at p q o x i s Hfit Hq) as [_ Hi]. destruct Hall as (f & Hf & Hw' & Ha').
      exists f. split_and!; [done|done|]. by rewrite (Hi o').
  - intros Ho q o' Ho'. rewrite put_lookup, Hgone. case_decide; [|by exists o'].
    subst q. rewrite Ho in Ho'. injection Ho' as <-. by eexists.
Qed.

(** The events of one report, one after the other. *)
Lemma reports_spec evs got s :
  got_inv got s → Forall (λ ev, sv_ok V ev.2) evs →
  (∀ p a, (p, a) ∈ evs → ∃ o, objs s !! p = Some o ∧ meant_for a (ofd o)) →
  (∀ p, (got p ++ arrived_in p evs) `prefix_of` stream p) →
  ∃ s', handle_all (handle K) evs s = Done (tt, s') ∧ got_inv (λ p, got p ++ arrived_in p evs) s'.
Proof.
  revert got s. induction evs as [|[p a] evs IH]; intros got s Hinv Hok Hfor Hpre.
  { exists s. split; [done|]. destruct Hinv as [Hwf Hall]. split; [done|]. intros p. specialize (Hall p).
    unfold arrived_in, EventLoopServer.arrived_in. simpl. by rewrite app_nil_r. }
  apply Forall_cons in Hok as [Ha Hok]. destruct (Hfor p a) as (o & Ho & Hfd); [by left|].
  pose proof Hinv as [Hwf Hall]. pose proof (Hall p) as Hp. rewrite Ho in Hp. destruct Hp as (f & Hf & Hw & Harm).
  set (got1 q := got q ++ if decide (p = q) then sv_bytes V a else []).
  assert (∀ q, got q ++ arrived_in q ((p, a) :: evs) = got1 q ++ arrived_in q evs) as Hgot1.
  { intros q. unfold got1. rewrite <-app_assoc. done. }
  destruct (Hpre p) as [future Hfuture]. rewrite Hgot1 in Hfuture. unfold got1 in Hfuture at 1.
  rewrite decide_True, <-!app_assoc in Hfuture by done. rewrite Hfuture in Hf. apply app_inv_head in Hf as ->.
  destruct (sv_event V p a (arrived_in p evs ++ future) s o Hwf Ho Ha Hfd Hw Harm)
    as (x & i & Hrun & Hw' & Harm').
  destruct (put_inv got got1 p o x i s (arrived_in p evs ++ future) Hinv (wf_fits _ _ _ Hwf Ho) Hw' Harm')
    as [Hinv1 Hstay].
  { unfold got1. by rewrite decide_True, <-app_assoc. }
  { intros q Hq. unfold got1. by rewrite decide_False, app_nil_r by done. }
  destruct (IH got1 (put p o x i s) Hinv1 Hok) as (s' & Hrun' & Hinv').
  { intros q b Hq. destruct (Hfor q b) as (o' & Ho' & Hfd'); [by right|].
    destruct (Hstay Ho q o' Ho') as (o2 & Ho2 & Hfd2). exists o2. by rewrite Hfd2. }
  { intros q. rewrite <-Hgot1. apply Hpre. }
  exists s'. cbn [handle_all]. unfold mbind, M_bind. rewrite Hrun. split; [done|].
  destruct Hinv' as [Hwf' Hall']. split; [done|]. intros q. rewrite Hgot1. apply Hall'.
Qed.

Lemma loop_inv_new : loop_inv [] loop_new.
Proof. split; [apply loop_wf_new|]. intros p. simpl. by rewrite lookup_empty. Qed.

Lemma loop_step l s b :
  loop_inv l s → possible s b → act_ok b → (∀ p, arrivals p (l ++ [b]) `prefix_of` stream p) →
  ∃ s', loop_act b s = Done (tt, s') ∧ loop_inv (l ++ [b]) s'.
Proof.
  intros Hinv Hpos Hok Harr. pose proof Hinv as [Hwf Hall]. destruct b as [p n|p []|evs].
  - destruct (server_starts _ _ _ _ Hserv p) as (x & new & Hx & Hw & He & Hs).
    destruct (waiting_alive _ _ _ _ p (stream p) x Hw) as [Hgone Hreg]. destruct Hpos as [Hp Hn].
    destruct (accept_put p n s x Hwf Hp Hn Hx Hgone) as [Hfit Hacc]. eexists. split; [exact Hacc|].
    unfold registered in Hreg. rewrite He in Hreg.
    destruct (put_inv (λ q, arrivals q l) (λ q, arrivals q (l ++ [Accepts p n])) p (mkObj n x) x (start_interest x)
      s (stream p) Hinv Hfit Hw) as [Hinv' _]; [apply (sv_start V x new); set_solver| | |done].
    + rewrite arrivals_snoc, app_nil_r. specialize (Hall p). rewrite Hp in Hall. by rewrite Hall.
    + intros q _. by rewrite arrivals_snoc, app_nil_r.
  - destruct (reports_spec evs (λ p, arrivals p l) s Hinv Hok) as (s' & Hrun & Hinv').
    + intros p a Hin. destruct (framed_report s evs p a Hwf Hpos Hin) as (o & Ho & Hfor & _). by exists o.
    + intros p. specialize (Harr p). by rewrite arrivals_snoc in Harr.
    + exists s'. split; [done|]. destruct Hinv' as [Hwf' Hall']. split; [done|]. intros p.
      rewrite arrivals_snoc. apply Hall'.
Qed.

Lemma loop_inv_steps l s :
  loop_steps loop_new l s → Forall act_ok l → (∀ p, arrivals p l `prefix_of` stream p) → loop_inv l s.
Proof.
  intros Hl. induction Hl as [|l s1 b s2 Hl IH Hpos Hrun]; intros Hok Harr; [apply loop_inv_new|].
  apply Forall_app in Hok as [Hok [Hb _]%Forall_cons].
  destruct (loop_step l s1 b) as (s' & Hrun' & Hinv); try done.
  - apply IH; [done|]. intros p. etrans; [|apply Harr]. rewrite arrivals_snoc. by eexists.
  - rewrite Hrun in Hrun'. by injection Hrun' as ->.
Qed.

(** *** What a peer sees, and how it gets the rest *)
Lemma loop_wire l s p o :
  loop_inv l s → objs s !! p = Some o →
  ∃ a, a ≤ length (reqs p) ∧ wire (snd (body o)) `prefix_of` concat (take a (replies p)) ∧
    length (request_stream (take a (reqs p))) ≤ length (arrivals p l).
Proof.
  intros [_ Hall] Ho. specialize (Hall p). rewrite Ho in Hall. destruct Hall as (future & Hf & Hw & _).
  apply run_post_answered in Hw as (a & out & Ha & -> & Hl & Hle). exists a.
  destruct (live_sender _ _ _ Hl) as (_ & _ & _ & Hout). split_and!; [done|by eexists|].
  apply (f_equal length) in Hf. rewrite length_app in Hf. lia.
Qed.

Lemma loop_completes l s p o :
  loop_inv l s → objs s !! p = Some o → arrivals p l = stream p →
  ∃ evs, possible s (Reports evs) ∧ act_ok (Reports evs) ∧
    wp (loop_act (Reports evs)) (λ _ s', ∃ o', objs s' !! p = Some o' ∧
      wire (snd (body o')) = concat (replies p)) s.
Proof.
  intros Hinv Ho Harr. pose proof Hinv as [Hwf Hall]. specialize (Hall p). rewrite Ho in Hall.
  destruct Hall as (future & Hf & Hw & Harm).
  assert (future = []) as -> by (rewrite Harr in Hf; apply (app_inv_head (stream p)); by rewrite app_nil_r).
  assert (∀ x, waiting p [] x → unsent (snd x) = [] → wire (snd x) = concat (replies p)) as Hwire.
  { intros x Hx Hu. pose proof (run_post_end name2service_ _ _ _ _ _ _ Hx) as (_ & Hl & _).
    destruct (live_sender _ _ _ Hl) as (_ & _ & _ & Hout). by rewrite Hu, app_nil_r in Hout. }
  destruct (decide (unsent (snd (body o)) = [])) as [Hnil|Hne].
  { pose proof (sv_nothing V s) as Hnothing.
    exists []. split_and!; [exact Hnothing|by constructor|]. apply wp_ret. exists o. split; [done|]. by apply Hwire. }
  assert (send_co (snd (body o)) = SendWriting) as Hco.
  { pose proof (run_post_end name2service_ _ _ _ _ _ _ Hw) as (_ & Hl & _).
    destruct (live_sender _ _ _ Hl) as (_ & Hcl & Hset & _).
    destruct (settled_open _ Hcl Hset) as [Hco|Hco]; [|done]. unfold send_settled in Hset. rewrite Hco in Hset.
    by destruct Hset. }
  destruct (sv_flush V p s o Hwf Ho Hw Harm Hco) as (a & x & i & Hrep & Hok & _ & Hrun & Hw' & Hu).
  exists [(p, a)]. split_and!; [done|by apply Forall_cons|].
  unfold wp. cbn [loop_act handle_all]. unfold mbind, M_bind. rewrite Hrun.
  destruct (waiting_alive _ _ _ _ p [] x Hw') as [Hgone _].
  exists (mkObj (ofd o) x). split; [by rewrite put_lookup, decide_True, Hgone|]. by apply Hwire.
Qed.

(** Together: progress, and what every peer gets. *)
Lemma loop_serves l s :
  loop_steps loop_new l s → Forall act_ok l → (∀ p, arrivals p l `prefix_of` stream p) →
  (∀ b, possible s b → act_ok b → (∀ p, arrivals p (l ++ [b]) `prefix_of` stream p) →
     ∃ s', loop_act b s = Done (tt, s')) ∧
  ∀ p o, objs s !! p = Some o →
    (∃ a, a ≤ length (reqs p) ∧ wire (snd (body o)) `prefix_of` concat (take a (replies p)) ∧
       length (request_stream (take a (reqs p))) ≤ length (arrivals p l)) ∧
    (arrivals p l = stream p →
       ∃ evs, possible s (Reports evs) ∧ act_ok (Reports evs) ∧
         wp (loop_act (Reports evs)) (λ _ s', ∃ o', objs s' !! p = Some o' ∧
           wire (snd (body o')) = concat (replies p)) s).
Proof.
  intros Hl Hok Harr. pose proof (loop_inv_steps l s Hl Hok Harr) as Hinv. split.
  - intros b Hpos Hb Hpre. destruct (loop_step l s b Hinv Hpos Hb Hpre) as (s' & Hrun & _). by exists s'.
  - intros p o Ho. split; [by eapply loop_wire|]. by eapply loop_completes.
Qed.
End loops.

(** ** The two pollers *)
Section pollers.
Context `{ProtobufLaws} (name2service_ : gmap string Service) (fuel : nat).
Context (reqs : nat → list (Header * list cell)) (replies : nat → list (list cell)).
Hypothesis Hserv : ∀ p, servable name2service_ fuel (reqs p) (replies p).
Abbreviation E := (server_endpoint name2service_ fuel).
Abbreviation waiting := (waiting name2service_ fuel reqs replies).
Abbreviation waiting_new := (waiting_new name2service_ fuel reqs replies).

(** *** epoll *)

(** Write events are registered if the sender waits for its socket; read events
    always are. *)
Definition epoll_serving (i : interest) (x : ep E) : Prop :=
  ∃ b, i = Some b ∧ (send_co (snd x) = SendWriting → b = true).

(** The bytes that a report hands over, and a calm kernel. *)
Definition answer_bytes (a : epoll_answer) : list cell :=
  match a_in a with Some (r, _) => rx_bytes r | None => [] end.
Definition answer_ok (a : epoll_answer) : Prop :=
  a_hup a = false ∧
  match a_in a with Some (r, t) => event_ok fuel (Arrives r t) | None => True end ∧
  match a_out a with Some t => event_ok fuel (CanWrite t) | None => True end.

Lemma epoll_regs_open es b :
  DELETE ∉ es → foldl (λ i e, (EpollExecutor_add_event e i).2) (Some b) es = Some (b || bool_decide (WRITE ∈ es)).
Proof.
  revert b. induction es as [|e es IH]; intros b Hd; [by destruct b|]. apply not_elem_of_cons in Hd as [Hne Hd].
  destruct e; cbn [foldl EpollExecutor_add_event snd]; rewrite ?IH by done; try done.
  - f_equal. f_equal. apply bool_decide_ext. rewrite elem_of_cons. naive_solver.
  - rewrite (bool_decide_eq_true_2 (WRITE ∈ WRITE :: es)) by (by left). by rewrite orb_true_r.
  - f_equal. f_equal. apply bool_decide_ext. rewrite elem_of_cons. naive_solver.
Qed.

(** A move that asks for what it waits for. *)
Lemma epoll_serving_moves p future b (x x' : ep E) :
  waiting p future x' → asks (snd x) (snd x') → epoll_serving (Some b) x →
  epoll_serving (epoll_events (Some b) (snd x) (snd x')) x'.
Proof.
  intros Hw (new & He & Hs) (b' & [= <-] & Hb). destruct (waiting_new p future x x' new Hw He) as [Hn Hd].
  unfold epoll_events. fold (new_events (snd x) (snd x')). rewrite Hn, epoll_regs_open by done.
  eexists. split; [done|]. intros Hco. apply orb_true_iff. destruct (Hs Hco) as [?|?]; [left; by apply Hb|right].
  by apply bool_decide_eq_true_2.
Qed.

(** The report for [EPOLLIN] and that for [EPOLLOUT], and one dispatch. *)
Lemma epoll_read p a future (x : ep E) :
  answer_ok a → waiting p (answer_bytes a ++ future) x →
  wp (answer_read (E := E) a) (λ _ x', waiting p future x' ∧ asks (snd x) (snd x')) x.
Proof.
  intros (_ & Ha & _) Hw. unfold answer_read, answer_bytes in *.
  destruct (a_in a) as [[r t]|]; [|by apply wp_ret]. by apply (socket_read name2service_ fuel reqs replies Hserv).
Qed.
Lemma epoll_write p a future (x : ep E) :
  answer_ok a → is_Some (a_out a) → waiting p future x →
  wp (answer_write (E := E) a) (λ _ x', waiting p future x' ∧ epoll_serving (epoll_events (Some false) (snd x) (snd x')) x') x.
Proof.
  intros (_ & _ & Ha) [t Hout] Hw. unfold answer_write. rewrite Hout in *.
  eapply wp_mono; [by apply (socket_write name2service_ fuel reqs replies Hserv p t future)|].
  intros [] x' [Hw' (new & He & Hs)]. split; [done|]. destruct (waiting_new p future x x' new Hw' He) as [Hn Hd].
  unfold epoll_events. fold (new_events (snd x) (snd x')). rewrite Hn, epoll_regs_open by done.
  eexists. split; [done|]. intros Hco. by apply bool_decide_eq_true_2, Hs.
Qed.

Lemma sock_dispatch p a future i (x : ep E) :
  answer_ok a → waiting p (answer_bytes a ++ future) x → epoll_serving i x →
  survives a x i ∧ wp (alone (E := E) a i) (λ j x', waiting p future x' ∧ epoll_serving j x') x.
Proof.
  intros Ha Hw (b & -> & Hb). split.
  { intros _ _ Hout _ x' Hx'. pose proof (epoll_write p a _ x Ha Hout Hw) as Hwrite.
    unfold wp in Hwrite. rewrite Hx' in Hwrite. destruct Hwrite as [Hw' _].
    by apply (waiting_alive name2service_ fuel reqs replies p _ _ Hw'). }
  pose proof Ha as [Hhup _]. unfold alone, epoll_dispatch. cbn [a_report EPOLLHUP EPOLLOUT EPOLLIN]. rewrite Hhup.
  apply wp_bind, wp_gets. rewrite (bool_decide_eq_false_2 (Some b = None)), andb_false_r by done.
  set (i1 := if bool_decide (is_Some (a_out a)) then Some false else Some b). apply wp_bind.
  apply (wp_mono _ (λ _ x1, waiting p (answer_bytes a ++ future) x1 ∧
    epoll_serving (epoll_events i1 (snd x) (snd x1)) x1)).
  { unfold i1. case_bool_decide as Hout; [by apply epoll_write|apply wp_ret; split; [done|]].
    rewrite epoll_events_same. by exists b. }
  intros [] x1 [Hw1 Harm1]. apply wp_bind, wp_gets, wp_bind.
  pose proof Harm1 as (b1 & Hi1 & Hb1). cbn [ep_conn server_endpoint] in *. rewrite Hi1 in *.
  apply (wp_mono _ (λ _ x2, waiting p future x2 ∧ asks (snd x1) (snd x2))).
  { case_bool_decide as Hin; [by apply epoll_read|]. apply wp_ret. split; [|done].
    unfold answer_bytes in Hw1. destruct (a_in a); [|done]. by contradict Hin; eexists. }
  intros [] x2 [Hw2 Hask]. apply wp_bind, wp_gets, wp_ret. split; [done|].
  apply (epoll_serving_moves p future); [done|done|]. by exists b1.
Qed.

Lemma epoll_event_serves p a future (s : loop E Epoll) (o : obj E) :
  loop_wf s → objs s !! p = Some o → answer_ok a → waiting p (answer_bytes a ++ future) (body o) →
  epoll_serving (interest_of (ofd o) s) (body o) →
  ∃ (x : ep E) i, epoll_event (p, a) s = Done (tt, put (P := Epoll) p o x i s) ∧
    waiting p future x ∧ epoll_serving i x ∧ alone a (interest_of (ofd o) s) (body o) = Done (i, x).
Proof.
  intros Hwf Ho Ha Hw Harm. destruct (sock_dispatch p a future _ _ Ha Hw Harm) as [Hsurv Hd].
  apply wp_done in Hd as (i & x & Hal & Hw' & Harm'). exists x, i. split_and!; try done.
  by apply epoll_event_alone.
Qed.

Lemma epoll_start (x : ep E) new :
  events (snd x) = READ :: new → DELETE ∉ new → (send_co (snd x) = SendWriting → WRITE ∈ new) →
  epoll_serving (start_interest (P := Epoll) x) x.
Proof.
  intros He Hd Hs. unfold start_interest. rewrite epoll_regs_after. cbn [ep_conn server_endpoint]. rewrite He.
  cbn [foldl EpollExecutor_add_event snd]. rewrite epoll_regs_open by done. eexists. split; [done|].
  intros Hco. by apply bool_decide_eq_true_2, Hs.
Qed.

Lemma epoll_flush p (s : loop E Epoll) (o : obj E) :
  loop_wf s → objs s !! p = Some o → waiting p [] (body o) → epoll_serving (interest_of (ofd o) s) (body o) →
  send_co (snd (body o)) = SendWriting →
  ∃ a (x : ep E) i, may_report (EpollKernel E) s [(p, a)] ∧ answer_ok a ∧ answer_bytes a = [] ∧
    epoll_event (p, a) s = Done (tt, put (P := Epoll) p o x i s) ∧ waiting p [] x ∧ unsent (snd x) = [].
Proof.
  intros Hwf Ho Hw Harm Hco. destruct (flush_window fuel) as (w & Hwd & Hev).
  set (a := mkAnswer None (Some [WrAccept w]) false).
  destruct (Hserv p) as (_ & _ & _ & _ & Hfc & _).
  assert (answer_ok a) as Ha by (split_and!; [done|done|apply Hev; lia]).
  destruct (epoll_event_serves p a [] s o Hwf Ho Ha Hw Harm) as (x & i & Hrun & Hw' & _ & Hal).
  destruct Harm as (b & Hi & Hb). rewrite (Hb Hco) in Hi. exists a, x, i. split_and!; try done.
  - split; [apply NoDup_singleton|]. intros q a' [= -> ->]%list_elem_of_singleton. exists (ofd o), true.
    unfold interest_of in Hi. destruct (regs s !! ofd o) as [[b' q]|] eqn:Hr; [|done].
    injection Hi as ->. by rewrite (wf_owns _ _ _ Hwf Ho _ _ Hr).
  - pose proof (socket_flush name2service_ fuel reqs replies Hserv p w (body o) Hwd Hw) as Hflush.
    apply wp_done in Hflush as ([] & x' & Hrun' & Hu). rewrite Hi in Hal.
    unfold alone, epoll_dispatch, answer_write in Hal. cbn [a a_report EPOLLHUP EPOLLOUT EPOLLIN a_hup a_in a_out] in Hal.
    rewrite bool_decide_eq_true_2, (bool_decide_eq_false_2 (Some true = None)) in Hal by (done || by eexists).
    cbn [andb] in Hal. unfold mbind, M_bind, gets in Hal. rewrite Hrun' in Hal. by injection Hal as _ <-.
Qed.

Definition epoll_server : serving name2service_ fuel reqs replies (EpollKernel E).
Proof.
  refine (mkServing _ _ _ _ (EpollKernel E) _ answer_bytes answer_ok epoll_serving epoll_start _ _ epoll_flush).
  - intros p a future s o Hwf Ho Ha _ Hw Harm.
    destruct (epoll_event_serves p a future s o Hwf Ho Ha Hw Harm) as (x & i & Hrun & Hw' & Harm' & _). by exists x, i.
  - intros s. split; [apply NoDup_nil_2|by intros ? ? ?%elem_of_nil].
Defined.

(** So the dispatch of every report ends well. *)
Lemma report_ends_well l (s : loop E Epoll) evs p a :
  loop_inv name2service_ fuel reqs replies epoll_server l s → may_report (EpollKernel E) s evs → (p, a) ∈ evs →
  answer_ok a → (arrivals (K := EpollKernel E) answer_bytes p l ++ answer_bytes a) `prefix_of` request_stream (reqs p) →
  ends_well s (p, a).
Proof.
  intros [Hwf Hall] [_ Hpos] Hin Ha [future Hpre]. destruct (Hpos p a Hin) as (n & b & Hr & _).
  destruct (wf_regs _ Hwf _ _ _ Hr) as (o & Ho & _). specialize (Hall p). rewrite Ho in Hall.
  destruct Hall as (f & Hf & Hw & Harm). rewrite <-app_assoc in Hpre. rewrite Hpre in Hf.
  apply app_inv_head in Hf as ->. destruct (sock_dispatch p a future _ _ Ha Hw Harm) as [Hsurv Hd].
  apply wp_done in Hd as (i & x & Hal & _). by exists o, i, x.
Qed.

(** *** kqueue *)
Definition kqueue_serving (i : option filters) (x : ep E) : Prop :=
  ∃ f, i = Some f ∧ EVFILT_READ f = true ∧ (send_co (snd x) = SendWriting → EVFILT_WRITE f = true).

Definition kanswer_bytes (a : fd * kqueue_answer) : list cell :=
  match a.2 with KRead r _ => rx_bytes r | _ => [] end.
Definition kanswer_ok (a : fd * kqueue_answer) : Prop :=
  match a.2 with
  | KRead r t => event_ok fuel (Arrives r t)
  | KWrite t => event_ok fuel (CanWrite t)
  | KEof _ => False
  end.

Lemma kqueue_regs_open es w :
  DELETE ∉ es →
  regs_after (P := Kqueue) (Some (mkFilters true w)) es = Some (mkFilters true (w || bool_decide (WRITE ∈ es))).
Proof.
  revert w. induction es as [|e es IH]; intros w Hd; [by destruct w|]. apply not_elem_of_cons in Hd as [Hne Hd].
  assert (∀ w' : bool, (w' || bool_decide (WRITE ∈ es)) = (w || bool_decide (WRITE ∈ e :: es)) →
    regs_after (P := Kqueue) (Some (mkFilters true w')) es =
      Some (mkFilters true (w || bool_decide (WRITE ∈ e :: es)))) as Hnext by (intros w' <-; by apply IH).
  assert (e ≠ WRITE → bool_decide (WRITE ∈ es) = bool_decide (WRITE ∈ e :: es)) as Hsame.
  { intros Hn. apply bool_decide_ext. rewrite elem_of_cons. naive_solver. }
  destruct e; [apply (Hnext w); by rewrite Hsame|apply (Hnext true)|done|apply (Hnext w); by rewrite Hsame].
  rewrite (bool_decide_eq_true_2 (WRITE ∈ WRITE :: es)) by (by left). by rewrite orb_true_r.
Qed.

Lemma kqueue_event_serves p a future (s : loop E Kqueue) (o : obj E) :
  loop_wf s → objs s !! p = Some o → kanswer_ok a → a.1 = ofd o →
  waiting p (kanswer_bytes a ++ future) (body o) → kqueue_serving (interest_of (ofd o) s) (body o) →
  ∃ (x : ep E) i, kqueue_event (p, a) s = Done (tt, put (P := Kqueue) p o x i s) ∧
    waiting p future x ∧ kqueue_serving i x ∧
    (∀ t, a.2 = KWrite t → ep_write E t (body o) = Done (tt, x)).
Proof.
  intros Hwf Ho Ha Hn Hw ([fr fw] & Hi & Hr & Hfw). simpl in Hr, Hfw. subst fr. destruct a as [n a].
  simpl in Hn. subst n. pose proof (wf_owns _ _ _ Hwf Ho) as Hown.
  destruct a as [r t|t|]; [| |done]; unfold kanswer_ok, kanswer_bytes in *; simpl in Ha, Hw.
  - pose proof (socket_read name2service_ fuel reqs replies Hserv p r t future (body o) Ha Hw) as Hread.
    apply wp_done in Hread as ([] & x & Hrun & Hw' & new & He & Hs).
    destruct (waiting_new p future (body o) x new Hw' He) as [Hnew Hd].
    eexists x, _. split; [cbn [kqueue_event]; rewrite (run_at_done p o _ x) by done; by rewrite moved_put|].
    split_and!; [done| |done]. cbn [ep_conn server_endpoint]. rewrite Hnew, Hi. rewrite kqueue_regs_open by done.
    eexists. split_and!; [done|done|]. intros Hco. simpl. apply orb_true_iff. destruct (Hs Hco) as [?|?].
    + left. by apply Hfw.
    + right. by apply bool_decide_eq_true_2.
  - pose proof (socket_write name2service_ fuel reqs replies Hserv p t future (body o) Ha Hw) as Hwrite.
    apply wp_done in Hwrite as ([] & x & Hrun & Hw' & new & He & Hs).
    destruct (waiting_new p future (body o) x new Hw' He) as [Hnew Hd].
    assert (drop_write (ofd o) s = register (P := Kqueue) (ofd o) (mkFilters true false) p s) as Hdrop.
    { unfold drop_write. unfold interest_of in Hi. destruct (regs s !! ofd o) as [[f q]|] eqn:Hreg; [|done].
      injection Hi as ->. by rewrite (Hown _ _ Hreg). }
    eexists x, _. split.
    { cbn [kqueue_event]. unfold mbind, M_bind, modify. rewrite Hdrop, (run_at_done p o _ x) by done.
      by rewrite moved_put, put_register, interest_register by apply owns_register. }
    split_and!; [done| |by intros ? [= ->]]. cbn [ep_conn server_endpoint]. rewrite Hnew.
    rewrite kqueue_regs_open by done. eexists. split_and!; [done|done|]. intros Hco. simpl.
    by apply bool_decide_eq_true_2, Hs.
Qed.

Lemma kqueue_start (x : ep E) new :
  events (snd x) = READ :: new → DELETE ∉ new → (send_co (snd x) = SendWriting → WRITE ∈ new) →
  kqueue_serving (start_interest (P := Kqueue) x) x.
Proof.
  intros He Hd Hs. unfold start_interest. cbn [ep_conn server_endpoint]. rewrite He.
  change (kqueue_serving (regs_after (P := Kqueue) (Some (mkFilters true false)) new) x).
  rewrite kqueue_regs_open by done. eexists. split_and!; [done|done|].
  intros Hco. by apply bool_decide_eq_true_2, Hs.
Qed.

Lemma kqueue_flush p (s : loop E Kqueue) (o : obj E) :
  loop_wf s → objs s !! p = Some o → waiting p [] (body o) → kqueue_serving (interest_of (ofd o) s) (body o) →
  send_co (snd (body o)) = SendWriting →
  ∃ a (x : ep E) i, may_report (KqueueKernel E) s [(p, a)] ∧ kanswer_ok a ∧ kanswer_bytes a = [] ∧
    kqueue_event (p, a) s = Done (tt, put (P := Kqueue) p o x i s) ∧ waiting p [] x ∧ unsent (snd x) = [].
Proof.
  intros Hwf Ho Hw Harm Hco. destruct (flush_window fuel) as (w & Hwd & Hev).
  set (a := (ofd o, KWrite [WrAccept w])). destruct (Hserv p) as (_ & _ & _ & _ & Hfc & _).
  assert (kanswer_ok a) as Ha by (apply Hev; lia).
  destruct (kqueue_event_serves p a [] s o Hwf Ho Ha eq_refl Hw Harm) as (x & i & Hrun & Hw' & _ & Hwrite).
  destruct Harm as (f & Hi & _ & Hf). exists a, x, i. split_and!; try done.
  - split; [apply NoDup_singleton|]. intros q n b [= -> -> ->]%list_elem_of_singleton. exists f.
    unfold interest_of in Hi. destruct (regs s !! ofd o) as [[f' q]|] eqn:Hr; [|done].
    injection Hi as ->. rewrite (wf_owns _ _ _ Hwf Ho _ _ Hr). split; [done|by apply Hf].
  - pose proof (socket_flush name2service_ fuel reqs replies Hserv p w (body o) Hwd Hw) as Hflush.
    unfold wp in Hflush. by rewrite (Hwrite _ eq_refl) in Hflush.
Qed.

Definition kqueue_server : serving name2service_ fuel reqs replies (KqueueKernel E).
Proof.
  refine (mkServing _ _ _ _ (KqueueKernel E) _ kanswer_bytes kanswer_ok kqueue_serving kqueue_start _ _ kqueue_flush).
  - intros p a future s o Hwf Ho Ha Hn Hw Harm.
    destruct (kqueue_event_serves p a future s o Hwf Ho Ha Hn Hw Harm) as (x & i & Hrun & Hw' & Harm' & _).
    by exists x, i.
  - intros s. split; [apply NoDup_nil_2|by intros ? ? ? ?%elem_of_nil].
Defined.
End pollers.

(** ** Connections that are left behind, and connections that are gone *)
Section ends.
Context `{ProtobufLaws} (name2service_ : gmap string Service) (fuel : nat).
Hypothesis Hfuel : 10 < fuel.
Abbreviation E := (server_endpoint name2service_ fuel).

Lemma server_start_alive x : ep_start E = Done x → ep_gone E x = false.
Proof.
  intros Hx. assert (∀ p : nat, servable name2service_ fuel [] []) as Hserv.
  { intros _. split_and!; simpl; done || lia. }
  destruct (server_starts name2service_ fuel (λ _, []) (λ _, []) Hserv 0) as (x' & new & Hx' & Hs & _).
  rewrite Hx in Hx'. injection Hx' as ->. by apply (waiting_alive _ _ (λ _, []) (λ _, []) 0 _ _ Hs).
Qed.

(** A socket hangs up: the connection is closed and stays as it is. *)
Definition hung (o : obj E) : ep E := ((body o).1, set_closed true (body o).2).

Lemma server_hung_up {K : Kernel E} `{!Framed K} l0 p (o : obj E) (s : loop E (poller K)) :
  loop_steps loop_new l0 s → objs s !! p = Some o →
  (run_at p (ep_close E);; modify (unregister (ofd o))) s = Done (tt, put p o (hung o) None s) ∧
  ∀ l s2, loop_steps (put p o (hung o) None s) l s2 →
    objs s2 !! p = Some (mkObj (E := E) (ofd o) (hung o)) ∧ interest_of (ofd o) s2 = None.
Proof.
  intros Hl0 Ho. pose proof (steps_wf server_start_alive _ _ _ loop_wf_new Hl0) as Hwf.
  split; [by apply close_put|]. intros l s2 Hl.
  apply (closed_frozen server_start_alive p o s (hung o) l s2 Hwf Ho); [|by intros []|done].
  exact (wf_alive _ Hwf _ _ Ho).
Qed.

Lemma epoll_hangs_up l0 p (o : obj E) a (s : loop E Epoll) :
  loop_steps loop_new l0 s → objs s !! p = Some o → a_hup a = true →
  epoll_event (p, a) s = Done (tt, put (P := Epoll) p o (hung o) None s).
Proof.
  intros Hl0 Ho Ha. unfold epoll_event, deref_conn, mbind at 1, M_bind at 1. rewrite Ho, Ha.
  exact (proj1 (server_hung_up (K := EpollKernel E) l0 p o s Hl0 Ho)).
Qed.

(** The receiver has returned and the sender waits for its socket: the event for both
    destroys the connection before it resumes the reader. *)
Lemma epoll_reads_destroyed p (o : obj E) c out r t t' (s : loop E Epoll) :
  objs s !! p = Some o → body o = (Returned tt, c) → is_Some (regs s !! ofd o) →
  stranded out c → (length out ≤ kWindow)%Z → length out + 3 < fuel → placid t = true → S (length t) < fuel →
  epoll_event (p, mkAnswer (Some (r, t')) (Some t) false) s = Faulted UseAfterFree.
Proof.
  intros Ho Hc Hreg (Hcl & Hco & _ & Hout & Hob) Hwin Hf Ht Hft.
  unfold epoll_event, deref_conn, mbind at 1, M_bind at 1. rewrite Ho.
  cbn [a_report EPOLLHUP EPOLLOUT EPOLLIN a_hup a_in a_out].
  rewrite !bool_decide_eq_true_2 by by eexists.
  unfold mbind, M_bind, gets, modify. rewrite bool_decide_eq_true_2 by done.
  assert (wp (resume_write fuel) (λ _ c', send_co c' = SendDone) (set_tx t c)) as Hw.
  { eapply wp_mono; [apply (resume_closed fuel out); done|]. by intros [] c' [? _]. }
  apply wp_done in Hw as ([] & c' & Hrun & Hdone).
  assert (run_at p (answer_write (E := E) (mkAnswer (Some (r, t')) (Some t) false))
    (register (P := Epoll) (ofd o) false p s) =
    Done (tt, moved p o ((Returned tt, c') : ep E) (register (P := Epoll) (ofd o) false p s))) as ->.
  { apply run_at_done; [done|]. rewrite Hc. unfold answer_write. cbn [a_out ep_write server_endpoint].
    unfold on_snd. cbn [fst snd]. unfold mbind, M_bind, modify. by rewrite Hrun. }
  unfold run_at, moved. simpl. rewrite bool_decide_eq_true_2 by done. simpl. by rewrite lookup_delete_eq.
Qed.

(** kqueue reports a socket once for each filter.  The stream ends in the read: both
    coroutines return, and the other event of the socket still points to the
    connection. *)
Lemma kqueue_writes_destroyed p (o : obj E) pc c out n t t' more (s : loop E Kqueue) :
  objs s !! p = Some o → body o = (Suspended pc, c) →
  live fuel out c → rx c = [] → in_body pc = false → (length (unread c) < pc_need pc)%Z →
  placid t = true → S (length t) < fuel → (length out ≤ kWindow)%Z → length out + 3 < fuel →
  kqueue_events_handled ((p, (n, KRead [RdEof] t)) :: (p, (n, KWrite t')) :: more) s = Faulted UseAfterFree.
Proof.
  intros Ho Hc Hl Hrx Hbody Hneed Ht Hft Hwin Hf.
  pose proof (hung_arrives fuel out t c Hl Hrx Ht Hft Hwin Hf) as Hh.
  pose proof (recv_run_hung name2service_ fuel out pc _ Hh Hneed) as Hrun. rewrite Hbody in Hrun.
  apply wp_done in Hrun as (x & c' & Hrun & -> & (Hdone & _) & _).
  unfold kqueue_events_handled. cbn [handle_all kqueue_event]. unfold mbind, M_bind.
  rewrite (run_at_done p o _ ((Returned tt, c') : ep E)); [|done|].
  - unfold modify. unfold run_at.
    assert (objs (drop_write n (moved p o ((Returned tt, c') : ep E) s)) !! p = None) as ->; [|done].
    unfold moved. simpl. rewrite bool_decide_eq_true_2 by done. unfold drop_write. simpl.
    assert (delete p (objs s) !! p = None) as Hnone by apply lookup_delete_eq.
    repeat case_match; exact Hnone.
  - rewrite Hc. cbn [ep_read server_endpoint]. unfold on_snd. cbn [fst snd on_event].
    unfold mbind, M_bind, modify. by rewrite Hrun.
Qed.

(** The two together with the requests that lead there. *)
Lemma epoll_refused_destroyed calls replies k es r t p (o : obj E) r' t1 t2 (s : loop E Epoll) :
  let stream := request_stream (calls ++ [k]) in
  placed 0 (calls ++ [k]) → mapM (respond name2service_) calls = Some replies →
  respond name2service_ k = None →
  concat (event_bytes <$> es) = request_stream calls → rx_bytes r = request_frame k →
  Forall (event_ok fuel) es → event_ok fuel (Arrives r t) →
  (length stream < 2 ^ 31 - 1)%Z → length stream + 2 < fuel → 4 * length calls + 8 < fuel →
  (length (concat replies) ≤ kWindow)%Z → length (concat replies) + 3 < fuel →
  objs s !! p = Some o → is_Some (regs s !! ofd o) →
  serve name2service_ fuel (es ++ [Arrives r t]) (Connection_new [] []) = Done (body o) →
  event_ok fuel (CanWrite t1) →
  epoll_event (p, mkAnswer (Some (r', t2)) (Some t1) false) s = Faulted UseAfterFree.
Proof.
  intros stream H1 H2 H3 H4 H5 H6 H7 H8 H9 H10 H11 H12 Ho Hreg Hbody (Ht & Hft & _).
  pose proof (serve_refused_whole name2service_ fuel calls replies k es r t
    H1 H2 H3 H4 H5 H6 H7 H8 H9 H10 H11 H12) as Hst.
  unfold wp in Hst. rewrite Hbody in Hst. destruct (body o) as [x c] eqn:Hb. destruct Hst as [-> Hst].
  by apply (epoll_reads_destroyed p o c (concat replies)).
Qed.

Lemma kqueue_closed_destroyed calls replies es p (o : obj E) n t t' more (s : loop E Kqueue) :
  let stop := length (request_stream calls) in
  placed 0 calls → mapM (respond name2service_) calls = Some replies →
  concat (event_bytes <$> es) = request_stream calls → Forall (event_ok fuel) es →
  (stop < 2 ^ 31 - 1)%Z → stop + 2 < fuel → 4 * length calls + 4 < fuel →
  (length (concat replies) ≤ kWindow)%Z → length (concat replies) + 3 < fuel →
  objs s !! p = Some o →
  serve name2service_ fuel es (Connection_new [] []) = Done (body o) → event_ok fuel (CanWrite t) →
  kqueue_events_handled ((p, (n, KRead [RdEof] t)) :: (p, (n, KWrite t')) :: more) s = Faulted UseAfterFree.
Proof.
  intros stop H1 H2 H3 H4 H5 H6 H7 H8 H9 Ho Hbody (Ht & Hft & _).
  pose proof (serve_part name2service_ fuel calls replies es [] H1 H2) as Hserve.
  cbv zeta in Hserve. rewrite app_nil_r in Hserve. specialize (Hserve H3 H4 H5 H6 H7 H8 H9).
  unfold wp in Hserve. rewrite Hbody in Hserve. destruct (body o) as [x c] eqn:Hb.
  apply run_post_end in Hserve as (-> & Hl & Hin & Hrx & _).
  apply (kqueue_writes_destroyed p o AtHeaderLen c (concat replies)); try done.
  assert (unread c = []) as Hun by (rewrite <-Hin; symmetry; by apply parked_unread).
  rewrite Hun. simpl. lia.
Qed.
End ends.
