(* ===== verification/RpcExamples.v ===== *)
(** * A service and requests for concrete runs

    A service with one method, which returns its request, and requests for it: the
    inputs of the witnesses of the theorems about calls. *)
From stdpp Require Import strings.
From S2P Require Import Prelude Block Segments InputStream OutputStream Streams Conn Connection ConnectionProofs Sender Wire Protocol Receiver PollReceiver Server ServerProofs ServerSide ServerProcess.

(** A service whose method returns its request. *)
Definition identity_method : Method := {|
  Req := list cell;
  Resp := list cell;
  req_decode := Some;
  resp_encode := id;
  CallMethod := id;
|}.
Definition test_services : gmap string Service :=
  register_service "S" {[ "id" := identity_method ]} ∅.

Definition test_header (id : Z) : Header :=
  mkHeader MAGIC_NUM VERSION REQUEST id (Some "S") (Some "id").
Definition test_request (id : Z) (body : list cell) : list cell :=
  @request_frame protobuf_model (test_header id, body).

Definition body3 : list cell := [Some 7; Some 8; Some 9]%Z.

(** The answer of the kernel to [writev]: it takes all. *)
Definition takes_all : list write_answer := [WrAccept 100].

(** A request with a wrong magic number. *)
Definition bad_magic : list cell :=
  @request_frame protobuf_model (mkHeader 0 VERSION REQUEST 5 (Some "S") (Some "id"), body3).

(** Three calls, and two peers: one makes these, the other makes one. *)
Definition three_calls : list (Header * list cell) :=
  [(test_header 1, body3); (test_header 2, []); (test_header 3, body3)].
Definition three_bytes : list cell := @request_stream protobuf_model three_calls.
Definition three_replies : list (list cell) :=
  default [] (mapM (@respond protobuf_model test_services) three_calls).

Definition two_peers (n : nat) : list (Header * list cell) :=
  match n with 0 => three_calls | 1 => [(test_header 7, body3)] | _ => [] end.
Definition two_peers_replies (n : nat) : list (list cell) :=
  default [] (mapM (@respond protobuf_model test_services) (two_peers n)).
Lemma two_peers_servable n : @servable protobuf_model test_services 200 (two_peers n) (two_peers_replies n).
Proof.
  destruct n as [|[|n]]; (split_and!; [decided|vm_compute; reflexivity|..]);
    vm_compute; (reflexivity || lia || discriminate).
Qed.
