(* ===== verification/Client.v ===== *)
(** * The client (client/client_channel.h, client/client_channel.cc)

    [ClientChannel::CallMethod] hands a closure to the executor that writes a
    request frame and remembers under the request's id where the response goes;
    [ClientChannel::recv_fn] takes response frames from the stream and completes
    the calls.  Both run on the thread of the executor, so they share the table of
    sessions without locks.

    [ClientChannel::send_fn] is the same code as [RpcServer::send_fn], modelled with
    the connections; both coroutines are written against the interface [Conn]. *)
From stdpp Require Import strings.
From S2P Require Import Prelude Block Segments InputStream OutputStream Streams Conn Wire Protocol Receiver.

(** ** Model *)

(** Where the response of a call goes: the format of the response message and
    the closure to run, if any; [Message] stands for the response objects. *)
Record Session (Message : Type) := mkSession {
  response : list cell → option Message;
  done : option nat;
}.
Arguments mkSession {Message} _ _.
Arguments response {Message} _ _.
Arguments done {Message} _.

(** The waiting loops of [recv_fn], with the locals that are live there. *)
Inductive client_pc :=
  | CAtHeaderLen
  | CAtHeader (header_len : Z)
  | CAtResponseLen (header : Header)
  | CAtResponse (header : Header) (response_len : Z).

Record Channel (Message : Type) := mkChannel {
  client_at : client_pc;                       (** where [recv_fn] stands *)
  id2session_ : gmap Z (Session Message);
  request_id_ : Z;                           (** [int64_t] *)
  completed : list (Session Message * Message);  (** history: calls completed *)
}.
Arguments mkChannel {Message} _ _ _ _.
Arguments client_at {Message} _.
Arguments id2session_ {Message} _.
Arguments request_id_ {Message} _.
Arguments completed {Message} _.

(** The arguments of [ClientChannel::CallMethod]: service, method, the serialized
    request and the session. *)
Record Call (Message : Type) := mkCall {
  call_service : string;
  call_method : string;
  call_request : list cell;
  call_session : Session Message;
}.
Arguments mkCall {Message} _ _ _ _.
Arguments call_service {Message} _.
Arguments call_method {Message} _.
Arguments call_request {Message} _.
Arguments call_session {Message} _.

Section client.
Context `{Protobuf} `{Conn C} {Message : Type}.
Implicit Types ch : Channel Message.

(** [ClientChannel::ClientChannel], for the state that is not the connection's. *)
Definition channel_new : Channel Message := mkChannel CAtHeaderLen ∅ 0 [].

Definition goto (pc : client_pc) ch : Channel Message :=
  mkChannel pc (id2session_ ch) (request_id_ ch) (completed ch).
Definition erase_session (id : Z) ch : Channel Message :=
  mkChannel (client_at ch) (delete id (id2session_ ch)) (request_id_ ch) (completed ch).
(** The response is filled in; [done] is run, or the response deleted. *)
Definition complete (s : Session Message) (m : Message) ch : Channel Message :=
  mkChannel (client_at ch) (id2session_ ch) (request_id_ ch) (completed ch ++ [(s, m)]).

(** [recv_fn] from one waiting loop to the next. *)
Definition client_step (fuel : nat) (ch : Channel Message)
    : M C (Channel Message + recv_exit (Channel Message) (Channel Message)) :=
  match client_at ch with
  | CAtHeaderLen =>
      suspended ← wait_bytes fuel true 4;
      if (suspended : bool) then mret (inr (Suspended ch)) else
      cut ← gets (cut_off 4);
      if (cut : bool) then recv_finish ch else
      r ← on_read_buf (InputBuffer_fetch_uint32 (replicate 4 None));
      if (r.1 : bool) then mret (inl (goto (CAtHeader (u32_value r.2)) ch)) else recv_finish ch
  | CAtHeader header_len =>
      suspended ← wait_bytes fuel true header_len;
      if (suspended : bool) then mret (inr (Suspended ch)) else
      cut ← gets (cut_off header_len);
      if (cut : bool) then recv_finish ch else
      parse_limited fuel header_decode header_len (recv_finish ch) (λ header,
      mret (inl (goto (CAtResponseLen header) ch)))
  | CAtResponseLen header =>
      suspended ← wait_bytes fuel true 4;
      if (suspended : bool) then mret (inr (Suspended ch)) else
      cut ← gets (cut_off 4);
      if (cut : bool) then recv_finish ch else
      r ← on_read_buf (InputBuffer_fetch_uint32 (replicate 4 None));
      if (r.1 : bool)
      then mret (inl (goto (CAtResponse header (u32_value r.2)) ch))
      else mret (inl (goto CAtHeaderLen ch))
  | CAtResponse header response_len =>
      suspended ← wait_bytes fuel true response_len;
      if (suspended : bool) then mret (inr (Suspended ch)) else
      cut ← gets (cut_off response_len);
      if (cut : bool) then recv_finish ch else
      match id2session_ ch !! request_id header with
      | None => mret (inl (goto CAtHeaderLen ch))
      | Some session =>
          let ch := erase_session (request_id header) ch in
          parse_limited fuel (response session) response_len
            (mret (inl (goto CAtHeaderLen ch))) (λ m,
          mret (inl (goto CAtHeaderLen (complete session m ch))))
      end
  end.

(** [recv_fn] until it gives up control, and its start. *)
Definition client_run (fuel : nat) (ch : Channel Message)
    : M C (recv_exit (Channel Message) (Channel Message)) :=
  iter fuel (client_step fuel) ch.
Definition client_recv_fn (fuel : nat) (ch : Channel Message)
    : M C (recv_exit (Channel Message) (Channel Message)) :=
  register_read;; client_run fuel ch.

(** The header of a request. *)
Definition req_header (id : Z) (service method : string) : Header :=
  mkHeader MAGIC_NUM VERSION REQUEST id (Some service) (Some method).

(** [request_id_++] on an [int64_t]. *)
Definition next_request_id (id : Z) : M C Z :=
  if decide (id < 2 ^ 63 - 1)%Z then mret (id + 1)%Z else fail_with SignedOverflow.

(** The closure [send_request] of [ClientChannel::CallMethod]; [request] is the
    serialized request. *)
Definition send_request (fuel : nat) (service method : string) (request : list cell)
    (session : Session Message) (ch : Channel Message) : M C (Channel Message) :=
  let id := request_id_ ch in
  id' ← next_request_id id;
  write_frame fuel (header_encode (req_header id service method)) request;;
  let ch := mkChannel (client_at ch) (<[id := session]> (id2session_ ch)) id' (completed ch) in
  resume_sender fuel;;
  mret ch.

(** [ClientChannel::CallMethod], when the executor runs the closure. *)
Definition ClientChannel_CallMethod (fuel : nat) (k : Call Message) (ch : Channel Message)
    : M C (Channel Message) :=
  send_request fuel (call_service k) (call_method k) (call_request k) (call_session k) ch.

(** [ClientChannel::close]; the coroutines are not resumed. *)
Definition ClientChannel_close : M C unit := close_conn.
End client.
