(* ===== verification/ClientProofs.v ===== *)
(** * The client completes its calls

    Responses that have arrived, in any fragmentation, complete the calls they
    belong to, once each and in the order of arrival.  A request is numbered with
    an id that no pending call has, and its frame reaches the sender whole. *)
From stdpp Require Import strings.
From S2P Require Import Prelude Block Segments InputStream OutputStream Streams Conn Connection ConnectionProofs Sender Wire Protocol Receiver PollReceiver Client.

Section client_proofs.
Context `{ProtobufLaws} {Message : Type}.
Implicit Types ch : Channel Message.

(** ** Receiving *)

(** A response: its header and its body. *)
Abbreviation resp := (Header * list cell)%type.
Definition response_frame (r : resp) : list cell := frame (header_encode r.1) r.2.
Definition response_stream (rs : list resp) : list cell := concat (response_frame <$> rs).

(** What a response does to the table of sessions; [None] if no call waits for
    it or it cannot be parsed. *)
Definition deliver (ch : Channel Message) (r : resp) : option (Channel Message) :=
  session ← id2session_ ch !! request_id r.1;
  m ← response session r.2;
  Some (complete session m (erase_session (request_id r.1) ch)).
Fixpoint deliver_all (ch : Channel Message) (rs : list resp) : option (Channel Message) :=
  match rs with
  | [] => Some ch
  | r :: rs => ch' ← deliver ch r; deliver_all ch' rs
  end.

(** As for requests: sizes, and length prefixes within blocks. *)
Fixpoint arranged (pos : Z) (rs : list resp) : Prop :=
  match rs with
  | [] => True
  | r :: rs =>
      frame_ok r ∧
      fits pos ∧ fits (pos + 4 + length (header_encode r.1)) ∧
      arranged (pos + length (response_frame r)) rs
  end.

#[export] Instance arranged_dec pos rs : Decision (arranged pos rs).
Proof. revert pos. induction rs as [|r rs IH]; intros pos; simpl; apply _. Defined.

(** Where the coroutine stands in a response: at [pc] and stream position [pos],
    [todo] is what is left of it. *)
Inductive resp_at (r : resp) : client_pc → Z → list cell → Prop :=
  | resp_header_len pos :
      fits pos → fits (pos + 4 + length (header_encode r.1)) →
      resp_at r CAtHeaderLen pos (response_frame r)
  | resp_in_header pos :
      fits (pos + length (header_encode r.1)) →
      resp_at r (CAtHeader (length (header_encode r.1))) pos
        (header_encode r.1 ++ u32_bytes (length r.2) ++ r.2)
  | resp_body_len pos :
      fits pos → resp_at r (CAtResponseLen r.1) pos (u32_bytes (length r.2) ++ r.2)
  | resp_in_body pos :
      resp_at r (CAtResponse r.1 (length r.2)) pos r.2.

Definition client_need (pc : client_pc) : Z :=
  match pc with
  | CAtHeaderLen | CAtResponseLen _ => 4
  | CAtHeader n | CAtResponse _ n => n
  end.
Definition client_left (pc : client_pc) : nat :=
  match pc with
  | CAtHeaderLen => 3 | CAtHeader _ => 2 | CAtResponseLen _ => 1 | CAtResponse _ _ => 0
  end.

Lemma resp_at_need r pc pos todo : resp_at r pc pos todo → (client_need pc ≤ length todo)%Z.
Proof.
  destruct 1; unfold response_frame, frame; rewrite ?length_app; simpl; rewrite ?length_app; lia.
Qed.

(** From one waiting loop to the next; the response is delivered if all of it has
    arrived, which leaves at most what follows it to come. *)
Definition client_post fuel out r ch ch' pos todo c
    (x : Channel Message + recv_exit (Channel Message) (Channel Message)) (c' : Connection) : Prop :=
  match x with
  | inr (Suspended ch1) => ch1 = ch ∧ live fuel out c' ∧ same_input c c' ∧ rx c' = [] ∧
      (length (unread c') < client_need (client_at ch))%Z
  | inr (Returned _) => False
  | inl ch1 => ∃ part, live fuel out c' ∧ incoming c = part ++ incoming c' ∧
      at_pos (pos + length part) c' ∧
      ((∃ pc' todo', ch1 = goto pc' ch ∧ resp_at r pc' (pos + length part) todo' ∧
          todo = part ++ todo' ∧ client_left pc' < client_left (client_at ch)) ∨
       (ch1 = ch' ∧ part = todo))
  end.

Lemma goto_goto pc pc' ch : goto pc (goto pc' ch) = goto pc ch.
Proof. done. Qed.

Lemma client_step_spec fuel out r ch ch' pos todo future rest c :
  live fuel out c → at_pos pos c → resp_at r (client_at ch) pos todo →
  frame_ok r → incoming c ++ future = todo ++ rest →
  (length future ≤ length rest → deliver (goto CAtHeaderLen ch) r = Some ch') →
  wp (client_step fuel ch) (client_post fuel out r ch ch' pos todo c) c.
Proof.
  intros Hl Hpos Hat [Hok Hsm] Hin Hdel.
  assert (∀ n, n = client_need (client_at ch) →
    suspends fuel out ch (client_post fuel out r ch ch' pos todo c) c n) as Hsus
    by (intros n -> c' ????; by split_and!).
  unfold frame in Hsm. rewrite !length_app in Hsm. cbn [length u32_bytes] in Hsm.
  unfold client_step. remember (client_at ch) as pc eqn:Hpc.
  destruct Hat as [pos Hfit1 Hfit2|pos Hfit|pos Hfit|pos].
  - unfold response_frame, frame in Hin. rewrite <-app_assoc in Hin.
    eapply (wp_wait_fetch fuel out true); try done; [by apply Hsus|]. intros c1 Hl1 Hin1 Hpos1. cbn [fst snd].
    rewrite u32_length_bytes by lia. apply wp_ret. eexists. split_and!; [done|done|done|].
    left. eexists _, _. split_and!; [done|by constructor|done|rewrite <-Hpc; simpl; lia].
  - rewrite <-app_assoc in Hin.
    eapply (wp_wait_parse fuel out true); try done; [by apply header_roundtrip|by apply Hsus|].
    intros c1 Hl1 Hin1 Hpos1. apply wp_ret. eexists. split_and!; [done|done|done|].
    left. eexists _, _. split_and!; [done|by constructor|done|rewrite <-Hpc; simpl; lia].
  - rewrite <-app_assoc in Hin.
    eapply (wp_wait_fetch fuel out true); try done; [by apply Hsus|]. intros c1 Hl1 Hin1 Hpos1. cbn [fst snd].
    rewrite u32_length_bytes by lia. apply wp_ret. eexists. split_and!; [done|done|done|].
    left. eexists _, _. split_and!; [done|by constructor|done|rewrite <-Hpc; simpl; lia].
  - eapply wp_wait_then; [done|by apply (Hsus _ eq_refl)|]. intros c1 Hl1 Hs1 Hlen1.
    destruct (app_split _ _ _ _ Hin) as (more & Hmore & Hrest).
    { destruct Hs1 as [<- _]. pose proof (unread_incoming c1). poll. lia. }
    specialize (Hdel ltac:(rewrite <-Hrest, length_app; lia)).
    apply bind_Some in Hdel as (session & Hses & (m & Hm & [= <-])%bind_Some).
    cbn [id2session_ goto] in Hses. rewrite Hses.
    pose proof (same_input_app _ _ _ _ Hs1 Hmore) as Hin1.
    eapply (wp_parse_limited fuel out); [done|by eapply at_pos_same|done|done|done|].
    intros c2 Hl2 Hin2 Hpos2. apply wp_ret. exists r.2. split_and!; [done|by rewrite Hin2|done|].
    by right.
Qed.

(** ** Runs *)

(** What has arrived is delivered: [togo] bytes are still to come, and the first
    response is complete if they all belong to later ones. *)
Fixpoint settle (ch : Channel Message) (rs : list resp) (togo : nat)
    : option (Channel Message * list resp) :=
  match rs with
  | [] => Some (ch, [])
  | r :: rs' =>
      if decide (togo ≤ length (response_stream rs'))
      then ch' ← deliver ch r; settle ch' rs' togo
      else Some (ch, rs)
  end.

Lemma settle_all ch rs ch' : deliver_all ch rs = Some ch' → settle ch rs 0 = Some (ch', []).
Proof.
  revert ch. induction rs as [|r rs IH]; intros ch Hdel; [by injection Hdel as <-|].
  cbn [settle deliver_all] in *. apply bind_Some in Hdel as (ch1 & Hdel1 & Hdel).
  rewrite decide_True by lia. rewrite Hdel1. by apply IH.
Qed.

(** The coroutine stands at [pc], at position [pos]; [stream] is what is left of
    the stream of the responses that are not yet delivered. *)
Definition client_point (rs : list resp) (pc : client_pc) (pos : Z) (stream : list cell) : Prop :=
  match rs with
  | [] => pc = CAtHeaderLen ∧ stream = []
  | r :: rs => ∃ todo, resp_at r pc pos todo ∧ frame_ok r ∧
      arranged (pos + length todo) rs ∧ stream = todo ++ response_stream rs
  end.

Lemma client_point_start rs pos :
  arranged pos rs → client_point rs CAtHeaderLen pos (response_stream rs).
Proof.
  destruct rs as [|r rs]; [done|]. intros (Hsm & H1 & H2 & H3).
  exists (response_frame r). split_and!; [by constructor|done|done|done].
Qed.

Definition client_loops (rs : list resp) (pc : client_pc) : nat :=
  match rs with
  | [] => 0
  | _ :: rs => client_left pc + 4 * length rs + 1
  end.

(** The client waits: [ch] is its table, [rs] are the responses to come, which end at
    position [stop] of the stream. *)
Definition client_waits fuel out (ch : Channel Message) rs future (stop : Z)
    (x : recv_exit (Channel Message) (Channel Message)) (c : Connection) : Prop :=
  ∃ pc pos, x = Suspended (goto pc ch) ∧ live fuel out c ∧ rx c = [] ∧ at_pos pos c ∧
    client_point rs pc pos (incoming c ++ future) ∧ (length (unread c) < client_need pc)%Z ∧
    (pos + length (incoming c ++ future) = stop)%Z.

Lemma deliver_at ch r ch' : deliver ch r = Some ch' → client_at ch' = client_at ch.
Proof. intros (? & _ & (? & _ & [= <-])%bind_Some)%bind_Some. done. Qed.

Lemma goto_at ch : goto (client_at ch) ch = ch.
Proof. by destruct ch. Qed.

Lemma client_run_spec fuel n out rs pc pos future ch ch' rs' c :
  live fuel out c → at_pos pos c → client_point rs pc pos (incoming c ++ future) →
  client_at ch = CAtHeaderLen →
  settle ch rs (length future) = Some (ch', rs') → client_loops rs pc < n →
  wp (iter n (client_step fuel) (goto pc ch))
    (client_waits fuel out ch' rs' future (pos + length (incoming c ++ future))) c.
Proof.
  revert rs pc pos ch c. induction n as [|n IH]; intros rs pc pos ch c Hl Hpos Hpt Hat Hset Hn; [lia|].
  destruct rs as [|r rs].
  - injection Hset as <- <-. destruct Hpt as [-> Hnil]. apply app_nil in Hnil as [Hnil ->].
    apply wp_iter_step. eapply wp_wait_then; [done|..].
    + intros c1 Hl1 [Hin1 Hcb1] Hrx1 Hlen1. exists CAtHeaderLen, pos. split_and!; try done.
      * by apply (at_pos_same _ c).
      * by rewrite Hin1, Hnil.
      * by rewrite Hin1.
    + intros c1 Hl1 [Hin1 _] Hlen1. pose proof (unread_incoming c1) as Hu.
      rewrite Hin1, Hnil in Hu. poll. simpl in Hu. lia.
  - destruct Hpt as (todo & Hresp & Hsm & Harr & Hin). simpl in Hset.
    assert (∃ ch1, (length future ≤ length (response_stream rs) → deliver ch r = Some ch1 ∧
      settle ch1 rs (length future) = Some (ch', rs'))) as (ch1 & Hdel).
    { case_decide; [|by exists ch]. apply bind_Some in Hset as (ch1 & ? & ?). by exists ch1. }
    apply wp_iter_step. eapply wp_mono.
    { eapply (client_step_spec fuel out r (goto pc ch) ch1 pos todo future (response_stream rs)); try done.
      intros Hle. rewrite goto_goto, <-Hat, goto_at. by apply Hdel. }
    intros [ch2|[ch2|ch2]] c2 Hpost; [| |done].
    + destruct Hpost as (part & Hl2 & Hin2 & Hpos2 & [(pc2 & todo2 & -> & Hresp2 & -> & Hlt)|[-> ->]]);
        rewrite Hin2, <-!app_assoc in Hin; apply app_inv_head in Hin.
      * replace (pos + length (incoming c ++ future))%Z
          with (pos + length part + length (incoming c2 ++ future))%Z by (rewrite Hin2, !length_app; lia).
        rewrite goto_goto. eapply (IH (r :: rs)); try done; [|simpl in *; lia].
        exists todo2. split_and!; try done.
        by rewrite length_app, Nat2Z.inj_add, Z.add_assoc in Harr.
      * destruct Hdel as [Hdel Hset2]; [rewrite <-Hin, length_app; lia|].
        pose proof (deliver_at _ _ _ Hdel) as Hat1. rewrite Hat in Hat1.
        replace (pos + length (incoming c ++ future))%Z
          with (pos + length todo + length (incoming c2 ++ future))%Z by (rewrite Hin2, !length_app; lia).
        rewrite <-(goto_at ch1), Hat1. eapply (IH rs); try done.
        -- rewrite Hin. by apply client_point_start.
        -- simpl in Hn. destruct rs; simpl in *; lia.
    + destruct Hpost as (-> & Hl2 & [Hin2 Hcb2] & Hrx2 & Hlen2). cbn [client_at goto] in Hlen2.
      assert (incoming c2 = unread c2) as Hiu by (by apply parked_unread).
      pose proof (resp_at_need _ _ _ _ Hresp) as Hneed.
      assert (length (incoming c2 ++ future) = length (todo ++ response_stream rs)) as Hlen
        by (by rewrite Hin2, Hin).
      rewrite !length_app, Hiu in Hlen. rewrite decide_False in Hset by lia. injection Hset as <- <-.
      exists pc, pos. split_and!; try done; [by apply (at_pos_same _ c)|..].
      * exists todo. split_and!; try done. by rewrite Hin2.
      * by rewrite Hin2.
Qed.

(** A response nobody waits for: its body is left in the stream, where the next
    header is looked for. *)
Lemma client_unknown fuel out ch header len c :
  live fuel out c → client_at ch = CAtResponse header len →
  id2session_ ch !! request_id header = None → (len ≤ length (incoming c))%Z →
  wp (client_step fuel ch) (λ x c', x = inl (goto CAtHeaderLen ch) ∧ live fuel out c' ∧
    same_input c c') c.
Proof.
  intros Hl Hat Hnone Hlen. unfold client_step. rewrite Hat.
  eapply wp_wait_then; [done| |].
  { exact (suspends_never fuel out ch (λ x c', x = inl (goto CAtHeaderLen ch) ∧ _ ∧ _) c len Hlen). }
  intros c1 Hl1 Hs1 _. rewrite Hnone. by apply wp_ret.
Qed.

(** ** Sending *)

(** Pending calls have ids that were given out before. *)
Definition ids_ok ch : Prop :=
  ∀ id, is_Some (id2session_ ch !! id) → (0 ≤ id < request_id_ ch)%Z.

Lemma ids_ok_new : ids_ok channel_new.
Proof. intros id [s Hs]. simpl in Hs. by rewrite lookup_empty in Hs. Qed.

Lemma send_request_spec fuel service method request session out ch c :
  let h := req_header (request_id_ ch) service method in
  let out' := out ++ frame (header_encode h) request in
  live fuel out c → ids_ok ch → (0 ≤ request_id_ ch < 2 ^ 63 - 1)%Z →
  (length out' ≤ kWindow)%Z → length out' + 3 < fuel →
  wp (send_request fuel service method request session ch) (λ ch' c',
    live fuel out' c' ∧ same_input c c' ∧ ids_ok ch' ∧
    id2session_ ch !! request_id_ ch = None ∧
    ch' = mkChannel (client_at ch) (<[request_id_ ch := session]> (id2session_ ch))
            (request_id_ ch + 1) (completed ch)) c.
Proof.
  intros h out' Hl Hids Hid Hwin Hf. unfold send_request, next_request_id.
  rewrite decide_True by lia. apply wp_bind, wp_ret.
  pose proof (wp_send_frame fuel out (header_encode h) request c Hl Hwin Hf) as Hsend.
  apply wp_done in Hsend as ([] & c1 & Hrun & Hl1 & Hs1).
  unfold mbind, M_bind in Hrun. unfold wp, mbind, M_bind. fold h.
  destruct (write_frame fuel (header_encode h) request c) as [[[] c']| |]; [|done|done].
  rewrite Hrun. simpl. split_and!; try done.
  - intros id Hsome. simpl in *. destruct (decide (id = request_id_ ch)) as [->|Hne]; [lia|].
    rewrite lookup_insert_ne in Hsome by done. specialize (Hids id Hsome). lia.
  - apply eq_None_not_Some. intros Hsome. specialize (Hids _ Hsome). lia.
Qed.

(** A sequence of calls. *)
Fixpoint send_requests (fuel : nat) (calls : list (Call Message)) (ch : Channel Message)
    : M Connection (Channel Message) :=
  match calls with
  | [] => mret ch
  | k :: calls =>
      ch' ← ClientChannel_CallMethod fuel k ch;
      send_requests fuel calls ch'
  end.

(** The frames of calls numbered from [id] on. *)
Fixpoint numbered (id : Z) (calls : list (Call Message)) : list (Header * list cell) :=
  match calls with
  | [] => []
  | k :: calls =>
      (req_header id (call_service k) (call_method k), call_request k) :: numbered (id + 1) calls
  end.

Lemma length_numbered id calls : length (numbered id calls) = length calls.
Proof. revert id. induction calls as [|k calls IH]; intros id; simpl; [done|]. by rewrite IH. Qed.

Lemma numbered_app id l1 l2 :
  numbered id (l1 ++ l2) = numbered id l1 ++ numbered (id + length l1) l2.
Proof.
  revert id. induction l1 as [|k l1 IH]; intros id; simpl; [by rewrite Z.add_0_r|].
  rewrite IH. do 3 f_equal. lia.
Qed.

(** The table after calls numbered from [id] on. *)
Fixpoint sessions_after (id : Z) (calls : list (Call Message)) (m : gmap Z (Session Message))
    : gmap Z (Session Message) :=
  match calls with
  | [] => m
  | k :: calls => sessions_after (id + 1) calls (<[id := call_session k]> m)
  end.

Lemma send_requests_spec fuel calls out ch c :
  let out' := out ++ response_stream (numbered (request_id_ ch) calls) in
  live fuel out c → ids_ok ch → (0 ≤ request_id_ ch)%Z →
  (request_id_ ch + length calls < 2 ^ 63)%Z →
  (length out' ≤ kWindow)%Z → length out' + 3 < fuel →
  wp (send_requests fuel calls ch) (λ ch' c',
    live fuel out' c' ∧ same_input c c' ∧ ids_ok ch' ∧
    ch' = mkChannel (client_at ch)
            (sessions_after (request_id_ ch) calls (id2session_ ch))
            (request_id_ ch + length calls) (completed ch)) c.
Proof.
  revert out ch c. induction calls as [|k calls IH]; intros out ch c out' Hl Hids Hid Hmax Hwin Hf.
  { unfold out', response_stream. simpl. rewrite app_nil_r, Z.add_0_r. apply wp_ret.
    split_and!; [done|done|done|by destruct ch]. }
  set (h := req_header (request_id_ ch) (call_service k) (call_method k)).
  assert (out' = (out ++ frame (header_encode h) (call_request k)) ++
    response_stream (numbered (request_id_ ch + 1) calls)) as Hout'
    by (rewrite <-app_assoc; done).
  assert (length (out ++ frame (header_encode h) (call_request k)) ≤ length out') as Hle
    by (rewrite Hout', (length_app (out ++ _)); lia).
  simpl in Hmax. simpl. unfold ClientChannel_CallMethod. apply wp_bind.
  eapply wp_mono; [apply (send_request_spec fuel _ _ _ _ out); try done; fold h; lia|].
  intros ch1 c1 (Hl1 & Hs1 & Hids1 & _ & Hch1). fold h in Hl1.
  eapply wp_mono; [apply (IH (out ++ frame (header_encode h) (call_request k)) ch1 c1 Hl1 Hids1);
    rewrite Hch1; simpl; try lia; by rewrite <-Hout'|].
  intros ch2 c2 (Hl2 & Hs2 & Hids2 & Hch2). rewrite Hch1 in Hl2, Hch2. simpl in Hl2, Hch2.
  rewrite <-Hout' in Hl2. split_and!; [done| |done|].
  - destruct Hs1, Hs2. split; congruence.
  - rewrite Hch2. f_equal. lia.
Qed.
End client_proofs.
