(* ===== verification/ClientLife.v ===== *)
(** * The life of a client

    The channel of a client with everything that happens to it, in any order: the
    executor runs the closures of calls, bytes of responses arrive, the socket
    becomes writable, the server closes the stream.

    The client refines a small machine that knows only the table of sessions and
    the responses that are on their way: a call enters the table, and each response
    completes its call as soon as all its bytes are there.  When the server has
    closed the stream, no pending call completes any more, and the next call resumes
    a coroutine that has returned. *)
From stdpp Require Import strings.
From S2P Require Import Prelude Block Segments InputStream OutputStream Streams Conn Connection ConnectionProofs Sender Wire Protocol Receiver PollReceiver HangUp Client ClientProofs.

(** ** Model *)
Section client_life.
Context `{Protobuf} {Message : Type}.
Implicit Types ch : Channel Message.
Abbreviation exit := (recv_exit (Channel Message) (Channel Message)).

(** A call, with what the kernel then answers to [writev], or an event of the
    socket. *)
Inductive client_event :=
  | Calls (k : Call Message) (t : list write_answer)
  | Net (e : net_event).

Definition client_on_event (fuel : nat) ch (e : client_event) : M Connection exit :=
  match e with
  | Calls k t =>
      modify (set_tx t);;
      ch' ← ClientChannel_CallMethod fuel k ch;
      mret (Suspended ch')
  | Net (Arrives r t) =>
      modify (λ c, set_rx (rx c ++ r) (set_tx t c));;
      client_run fuel ch
  | Net (CanWrite t) =>
      modify (set_tx t);;
      resume_write fuel;;
      mret (Suspended ch)
  end.

(** Events after [recv_fn] has returned; the channel still takes calls. *)
Fixpoint client_returned (fuel : nat) ch (es : list client_event) : M Connection exit :=
  match es with
  | [] => mret (Returned ch)
  | Calls k t :: es =>
      modify (set_tx t);;
      ch' ← ClientChannel_CallMethod fuel k ch;
      client_returned fuel ch' es
  | Net e :: es =>
      evs ← gets events;
      if decide (DELETE ∈ evs) then client_returned fuel ch es
      else
        match e with
        | Arrives _ _ => fail_with ResumeDestroyed
        | CanWrite t => modify (set_tx t);; resume_write fuel;; client_returned fuel ch es
        end
  end.

Fixpoint client_on_events (fuel : nat) ch (es : list client_event) : M Connection exit :=
  match es with
  | [] => mret (Suspended ch)
  | e :: es =>
      x ← client_on_event fuel ch e;
      match x with
      | Suspended ch' => client_on_events fuel ch' es
      | Returned ch' => client_returned fuel ch' es
      end
  end.

(** The two tasks that the constructor of [ClientChannel] spawns. *)
Definition client_start (fuel : nat) : M Connection exit :=
  send_fn fuel;; client_recv_fn fuel channel_new.

Definition client_life (fuel : nat) (es : list client_event) : M Connection exit :=
  x ← client_start fuel;
  match x with
  | Suspended ch => client_on_events fuel ch es
  | Returned ch => client_returned fuel ch es
  end.
End client_life.
Arguments client_event Message : clear implicits.

(** ** The machine *)
Section machine.
Context `{ProtobufLaws} {Message : Type}.
Implicit Types ch : Channel Message.

Abbreviation resp := (Header * list cell)%type.

(** A call enters the table. *)
Definition called (k : Call Message) ch : Channel Message :=
  mkChannel (client_at ch) (<[request_id_ ch := call_session k]> (id2session_ ch))
    (request_id_ ch + 1) (completed ch).

Definition client_event_bytes (e : client_event Message) : list cell :=
  match e with Calls _ _ => [] | Net e => event_bytes e end.
Definition calls_of (es : list (client_event Message)) : list (Call Message) :=
  concat ((λ e, match e with Calls k _ => [k] | Net _ => [] end) <$> es).

(** The table, the responses on their way, and how many of their bytes are still to
    come; [None] if a response arrives that no call waits for. *)
Record machine := mkMachine {
  table : Channel Message;
  on_the_way : list resp;
  togo : nat;
}.
Definition machine_step (s : machine) (e : client_event Message) : option machine :=
  match e with
  | Calls k _ => Some (mkMachine (called k (table s)) (on_the_way s) (togo s))
  | Net e =>
      let n := togo s - length (event_bytes e) in
      '(ch, rs) ← settle (table s) (on_the_way s) n;
      Some (mkMachine ch rs n)
  end.
Fixpoint machine_run (s : machine) (es : list (client_event Message)) : option machine :=
  match es with
  | [] => Some s
  | e :: es => s' ← machine_step s e; machine_run s' es
  end.
Definition machine_new (rs : list resp) : machine :=
  mkMachine channel_new rs (length (response_stream rs)).

Definition client_event_ok (fuel : nat) (e : client_event Message) : Prop :=
  match e with
  | Calls _ t => event_ok fuel (CanWrite t)
  | Net e => event_ok fuel e
  end.

(** ** Refinement *)
Lemma send_write_preserves_rx fuel : preserves rx (send_write fuel).
Proof.
  assert (∀ A (m : M OutputBuffer A), preserves rx (on_write_buf m)) as Ho
    by (intros; by apply follows_write_buf).
  assert (∀ g, (∀ c, rx (g c) = rx c) → preserves rx (modify g)) as Hm by apply preserves_modify.
  unfold send_write, PollConnection_async_write, async_write_step, sys_writev, add_event, int32.
  preserve; by apply Hm.
Qed.

Lemma resume_write_preserves_rx fuel : preserves rx (resume_write fuel).
Proof.
  pose proof (send_write_preserves_rx fuel) as Hw.
  assert (∀ g, (∀ c, rx (g c) = rx c) → preserves rx (modify g)) as Hm by apply preserves_modify.
  unfold resume_write, send_loop, send_body. preserve; by apply Hm.
Qed.

Lemma CallMethod_preserves_rx fuel (k : Call Message) ch :
  preserves rx (ClientChannel_CallMethod fuel k ch).
Proof.
  pose proof (resume_write_preserves_rx fuel) as Hw.
  assert (∀ A (m : M OutputBuffer A), preserves rx (on_write_buf m)) as Ho
    by (intros; by apply follows_write_buf).
  unfold ClientChannel_CallMethod, send_request, next_request_id, write_frame. poll. preserve.
Qed.

Lemma settle_suffix ch rs n ch' rs' :
  settle ch rs n = Some (ch', rs') →
  rs' `suffix_of` rs ∧ client_at ch' = client_at ch ∧ request_id_ ch' = request_id_ ch ∧
  (ids_ok ch → ids_ok ch').
Proof.
  revert ch. induction rs as [|r rs IH]; intros ch Hset; [by injection Hset as <- <-|].
  cbn [settle] in Hset. case_decide; [|by injection Hset as <- <-].
  apply bind_Some in Hset as (ch1 & Hdel & Hset).
  destruct (IH _ Hset) as (Hsuf & Hat & Hid & Hok).
  apply bind_Some in Hdel as (session & Hses & (m & Hm & [= <-])%bind_Some).
  simpl in *. split_and!; [by apply suffix_cons_r|done|done|]. intros Hids. apply Hok.
  intros id. simpl. intros [s0 [_ Hs0]%lookup_delete_Some]. apply Hids. by exists s0.
Qed.

Lemma response_stream_suffix (rs rs' : list resp) :
  rs' `suffix_of` rs → length (response_stream rs') ≤ length (response_stream rs).
Proof.
  intros [more ->]. unfold response_stream. rewrite fmap_app, concat_app, length_app. lia.
Qed.

Lemma client_point_length (rs : list resp) pc pos stream :
  client_point rs pc pos stream → length stream ≤ length (response_stream rs).
Proof.
  destruct rs as [|r rs]; [by intros [_ ->]|]. intros (todo & Hr & _ & _ & ->).
  change (response_stream (r :: rs)) with (response_frame r ++ response_stream rs).
  rewrite !length_app. enough (length todo ≤ length (response_frame r)) by lia.
  destruct Hr; unfold response_frame, frame; rewrite ?length_app; simpl; rewrite ?length_app; lia.
Qed.

(** A client that waits has delivered what it can. *)
Lemma client_waits_settled fuel out ch rs future stop x c :
  client_waits fuel out ch rs future stop x c → settle ch rs (length future) = Some (ch, rs).
Proof.
  intros (pc & pos & -> & Hl & Hrx & Hpos & Hpt & Hneed & _). destruct rs as [|r rs]; [done|].
  destruct Hpt as (todo & Hr & _ & _ & Hin). apply resp_at_need in Hr.
  apply (f_equal length) in Hin. rewrite !length_app in Hin.
  assert (incoming c = unread c) as Hiu by (by apply parked_unread). rewrite Hiu in Hin.
  cbn [settle]. by rewrite decide_False by lia.
Qed.

(** The client is where the machine is. *)
Definition client_matches fuel out (s : machine) future (stop : Z) (x : recv_exit (Channel Message) (Channel Message))
    (c : Connection) : Prop :=
  client_waits fuel out (table s) (on_the_way s) future stop x c ∧ togo s = length future ∧
  client_at (table s) = CAtHeaderLen ∧ ids_ok (table s) ∧ (0 ≤ request_id_ (table s))%Z.

(** The frame of the call that an event makes. *)
Definition event_sent (s : machine) (e : client_event Message) : list cell :=
  match e with
  | Calls k _ =>
      frame (header_encode (req_header (request_id_ (table s)) (call_service k) (call_method k)))
        (call_request k)
  | Net _ => []
  end.

Lemma client_event_spec fuel out s s' future stop ch e c :
  let total := length (response_stream (on_the_way s)) in
  let out' := out ++ event_sent s e in
  client_matches fuel out s (client_event_bytes e ++ future) stop (Suspended ch) c →
  machine_step s e = Some s' → client_event_ok fuel e →
  (total < 2 ^ 31 - 1)%Z → total + 2 < fuel → 4 * length (on_the_way s) + 4 < fuel →
  (request_id_ (table s) + length (calls_of [e]) < 2 ^ 63)%Z →
  (length out' ≤ kWindow)%Z → length out' + 3 < fuel →
  wp (client_on_event fuel ch e) (client_matches fuel out' s' future stop) c.
Proof.
  intros total out' [(pc & pos & [= ->] & Hl & Hrx & Hpos & Hpt & Hneed & Hstop) (Htg & Hat & Hids & Hid)]
    Hstep Hok Hsm Hf Hfr Hmax Hwin Hfw.
  pose proof (client_point_length _ _ _ _ Hpt) as Htot. fold total in Htot. rewrite !length_app in Htot.
  destruct e as [k t|[r t|t]]; cbn [client_event_bytes event_bytes] in *.
  - injection Hstep as <-. apply wp_bind, wp_modify, wp_bind. eapply wp_mono.
    { apply (wp_follows (kept rx)); [apply CallMethod_preserves_rx|].
      apply (send_request_spec fuel _ _ _ _ out); [by apply live_set_tx|done|simpl in *; lia|done|done]. }
    intros ch' c' [(Hl' & [Hin' Hcb'] & Hids' & _ & ->) Hrx']. apply wp_ret. unfold kept in Hrx'. simpl in Hrx'.
    assert (unread c' = unread c) as Hun'.
    { unfold incoming in Hin'. poll. simpl in Hin'. rewrite Hrx', Hrx in Hin'. by rewrite !app_nil_r in Hin'. }
    assert (incoming c' = incoming c) as Hsame by (unfold incoming; poll; by rewrite Hun', Hrx').
    split_and!; try done; [|simpl; lia]. exists pc, pos.
    split_and!; try done; [by rewrite Hrx'|unfold at_pos in *; poll; by rewrite Hcb'
      |by rewrite Hsame|by rewrite Hun'|by rewrite Hsame].
  - apply bind_Some in Hstep as ([ch' rs'] & Hset & [= <-]).
    destruct (settle_suffix _ _ _ _ _ Hset) as (Hsuf & Hat' & Hid' & Hok').
    assert (togo s - length (rx_bytes r) = length future) as Htg' by (rewrite Htg, length_app; lia).
    cbn [event_bytes] in Hset. rewrite Htg' in *. unfold out', event_sent. rewrite app_nil_r.
    destruct (live_arrives fuel out r t c) as [Hl' Hin']; try done; [rewrite length_app; lia..|].
    apply wp_bind, wp_modify. eapply wp_mono.
    { eapply (client_run_spec fuel fuel out (on_the_way s) pc pos future (table s)); try done.
      - by rewrite Hin', <-app_assoc.
      - destruct (on_the_way s); simpl in *; [lia|].
        assert (client_left pc ≤ 3) by (destruct pc; simpl; lia). lia. }
    intros x c' Hw. rewrite Hin', <-app_assoc, Hstop in Hw.
    split_and!; simpl; try done; [congruence|by apply Hok'|lia].
  - apply bind_Some in Hstep as ([ch' rs'] & Hset & [= <-]). cbn [event_bytes] in Hset.
    rewrite Htg, Nat.sub_0_r in *. simpl app in Hset, Hpt |- *.
    rewrite (client_waits_settled fuel out _ _ future stop (Suspended (goto pc (table s))) c) in Hset
      by (by exists pc, pos). injection Hset as <- <-. unfold out', event_sent. rewrite app_nil_r.
    unfold out', event_sent in Hwin, Hfw. rewrite app_nil_r in Hwin, Hfw.
    apply wp_bind, wp_modify, wp_bind. eapply wp_mono; [by apply live_can_write|].
    intros [] c2 (Hl2 & Hrb2 & Hrx2). apply wp_ret. split_and!; try done. exists pc, pos.
    unfold at_pos, incoming in *. poll. rewrite Hrb2, Hrx2. by split_and!.
Qed.

Lemma calls_of_cons e (es : list (client_event Message)) :
  calls_of (e :: es) = match e with Calls k _ => k :: calls_of es | Net _ => calls_of es end.
Proof. by destruct e. Qed.

Lemma machine_step_next s e s' :
  machine_step s e = Some s' →
  on_the_way s' `suffix_of` on_the_way s ∧
  (request_id_ (table s') = request_id_ (table s) + length (calls_of [e]))%Z ∧
  ∀ es, response_stream (numbered (request_id_ (table s)) (calls_of (e :: es))) =
    event_sent s e ++ response_stream (numbered (request_id_ (table s')) (calls_of es)).
Proof.
  destruct e as [k t|e]; intros Hstep.
  - injection Hstep as <-. split_and!; [done|done|]. intros es. by rewrite calls_of_cons.
  - apply bind_Some in Hstep as ([ch' rs'] & Hset & [= <-]).
    destruct (settle_suffix _ _ _ _ _ Hset) as (Hsuf & _ & Hid & _).
    simpl. split_and!; [done|lia|]. intros es. by rewrite calls_of_cons, Hid.
Qed.

Lemma client_events_spec fuel out s s' future stop es ch c :
  let total := length (response_stream (on_the_way s)) in
  let out' := out ++ response_stream (numbered (request_id_ (table s)) (calls_of es)) in
  client_matches fuel out s (concat (client_event_bytes <$> es) ++ future) stop (Suspended ch) c →
  machine_run s es = Some s' → Forall (client_event_ok fuel) es →
  (total < 2 ^ 31 - 1)%Z → total + 2 < fuel → 4 * length (on_the_way s) + 4 < fuel →
  (request_id_ (table s) + length (calls_of es) < 2 ^ 63)%Z →
  (length out' ≤ kWindow)%Z → length out' + 3 < fuel →
  wp (client_on_events fuel ch es) (client_matches fuel out' s' future stop) c.
Proof.
  revert out s ch c. induction es as [|e es IH];
    intros out s ch c total out' Hm Hrun Hok Hsm Hf Hfr Hmax Hwin Hfw.
  { injection Hrun as <-. unfold out'. simpl. unfold response_stream. simpl. rewrite app_nil_r.
    by apply wp_ret. }
  apply Forall_cons in Hok as [He Hok]. simpl in Hrun. apply bind_Some in Hrun as (s1 & Hstep & Hrun).
  destruct (machine_step_next _ _ _ Hstep) as (Hsuf & Hid & Hsent). unfold out' in *.
  rewrite Hsent, app_assoc in *. pose proof Hwin as Hwin1. pose proof Hfw as Hfw1.
  rewrite (length_app (out ++ event_sent s e)) in Hwin1, Hfw1.
  pose proof (response_stream_suffix _ _ Hsuf) as Hle. apply suffix_length in Hsuf.
  assert (length (calls_of (e :: es)) = length (calls_of [e]) + length (calls_of es)) as Hlen
    by (destruct e; done).
  assert (concat (client_event_bytes <$> e :: es) = client_event_bytes e ++ concat (client_event_bytes <$> es))
    as Hb by done. rewrite Hb, <-app_assoc in Hm.
  simpl. apply wp_bind. eapply wp_mono.
  { apply (client_event_spec fuel out s s1 (concat (client_event_bytes <$> es) ++ future) stop ch e c);
      try done; lia. }
  intros x c1 Hm1. pose proof Hm1 as [(pc & pos & -> & _) _].
  eapply (IH (out ++ event_sent s e)); try done; lia.
Qed.

Lemma client_starts fuel :
  10 < fuel →
  wp (client_start (Message := Message) fuel) (λ x c, x = Suspended channel_new ∧ live fuel [] c ∧
    incoming c = [] ∧ at_pos 0 c ∧ rx c = []) (Connection_new [] []).
Proof.
  intros Hf. apply wp_start; [lia|]. intros c1 Hl Hin Hpos Hrx.
  destruct fuel as [|fuel]; [lia|]. unfold client_run. apply wp_iter_step.
  eapply wp_wait_then; [done|..].
  - intros c2 Hl2 Hs2 Hrx2 _. split_and!; try done.
    + destruct Hs2 as [-> _]. done.
    + by apply (at_pos_same _ c1).
  - intros c2 Hl2 [Hin2 _] Hlen2. pose proof (unread_incoming c2) as Hu.
    rewrite Hin2, Hin in Hu. poll. simpl in Hu. lia.
Qed.

Lemma client_fresh fuel rs c :
  live fuel [] c → incoming c = [] → at_pos 0 c → rx c = [] → arranged 0 rs →
  client_matches fuel [] (machine_new rs) (response_stream rs) (length (response_stream rs)) (Suspended channel_new) c.
Proof.
  intros Hl Hin Hpos Hrx Harr. split_and!; try done; [|apply ids_ok_new].
  exists CAtHeaderLen, 0%Z. rewrite Hin. split_and!; try done; [by apply client_point_start|].
  unfold incoming in Hin. apply app_nil in Hin as [Hun _]. poll. rewrite Hun. simpl. lia.
Qed.

(** From the constructor on. *)
Lemma client_life_spec fuel rs future es s :
  let total := length (response_stream rs) in
  let sent := response_stream (numbered 0 (calls_of es)) in
  arranged 0 rs → concat (client_event_bytes <$> es) ++ future = response_stream rs →
  machine_run (machine_new rs) es = Some s → Forall (client_event_ok fuel) es →
  (total < 2 ^ 31 - 1)%Z → total + 10 < fuel → 4 * length rs + 4 < fuel →
  (length (calls_of es) < 2 ^ 63)%Z → (length sent ≤ kWindow)%Z → length sent + 3 < fuel →
  wp (client_life fuel es) (client_matches fuel sent s future total) (Connection_new [] []).
Proof.
  intros total sent Harr Hb Hrun Hok Hsm Hf Hfr Hmax Hwin Hfw. unfold client_life. apply wp_bind.
  eapply wp_mono; [apply client_starts; lia|]. intros x c (-> & Hl & Hin & Hpos & Hrx).
  eapply (client_events_spec fuel [] (machine_new rs)); try done; [|simpl; lia].
  rewrite Hb. by apply client_fresh.
Qed.

(** ** The server hangs up *)
Lemma client_run_hung fuel out ch c :
  hung fuel out c → (length (unread c) < client_need (client_at ch))%Z →
  wp (client_run fuel ch) (λ x c', x = Returned ch ∧ ended out c' ∧ ¬ registered c') c.
Proof.
  intros Hh Hneed. pose proof (hung_fuel _ _ _ Hh) as Hf. unfold client_run.
  assert (wp (client_step fuel ch) (λ x c', x = inr (Returned ch) ∧ ended out c' ∧ ¬ registered c') c)
    as Hstep.
  { unfold client_step. destruct (client_at ch); simpl in *; by apply wait_then_hung. }
  revert Hstep. generalize (client_step (C := Connection) (Message := Message) fuel). intros step Hstep.
  destruct fuel as [|fuel]; [lia|]. apply wp_iter_step. eapply wp_mono; [exact Hstep|].
  by intros x c' (-> & ?).
Qed.

Lemma client_returned_returns fuel es (ch ch1 : Channel Message) c c1 :
  client_returned fuel ch es c ≠ Done (Suspended ch1, c1).
Proof.
  revert ch c. induction es as [|[k t|e] es IH]; intros ch c; simpl; [done|..];
    unfold mbind, M_bind, modify, gets.
  - destruct (ClientChannel_CallMethod _ _ _ _) as [[? ?]| |]; [apply IH|done|done].
  - case_decide; [apply IH|]. destruct e as [r t|t]; [done|].
    destruct (resume_write fuel _) as [[[] ?]| |]; [apply IH|done|done].
Qed.

Lemma client_on_events_app fuel es1 es2 ch ch' c c' :
  client_on_events fuel ch es1 c = Done (Suspended ch', c') →
  client_on_events fuel ch (es1 ++ es2) c = client_on_events fuel ch' es2 c'.
Proof.
  revert ch c. induction es1 as [|e es1 IH]; intros ch c; simpl; [by intros [= -> ->]|].
  intros Hr. unfold mbind, M_bind in Hr |- *. revert Hr.
  destruct (client_on_event fuel ch e c) as [[[ch1|ch1] c1]| |]; try done; [apply IH|].
  intros Hr. by apply client_returned_returns in Hr.
Qed.

Lemma client_life_app fuel es1 es2 ch c c' :
  client_life (Message := Message) fuel es1 c = Done (Suspended ch, c') →
  client_life fuel (es1 ++ es2) c = client_on_events fuel ch es2 c'.
Proof.
  unfold client_life, mbind, M_bind. destruct (client_start fuel c) as [[[ch1|ch1] c1]| |]; try done.
  - apply client_on_events_app.
  - intros Hr. by apply client_returned_returns in Hr.
Qed.

(** Nothing is reported once the socket is unregistered. *)
Lemma client_returned_unregistered fuel ch es c :
  ¬ registered c → client_returned fuel ch (Net <$> es) c = Done (Returned ch, c).
Proof.
  unfold registered. intros Hreg. induction es as [|e es IH]; [done|]. simpl.
  unfold mbind, M_bind, gets. by rewrite decide_True by (by apply dec_stable).
Qed.

(** A call on a connection whose sender has returned. *)
Lemma call_after_end fuel out k ch c :
  let fr := frame (header_encode (req_header (request_id_ ch) (call_service k) (call_method k)))
    (call_request k) in
  ended out c → (request_id_ ch < 2 ^ 63 - 1)%Z →
  (length fr ≤ kWindow)%Z → length fr + 3 < fuel →
  ClientChannel_CallMethod fuel k ch c = Faulted ResumeDestroyed.
Proof.
  intros fr (Hco & Hcl & Hout & Ho) Hid Hwin Hf.
  unfold ClientChannel_CallMethod, send_request, next_request_id. rewrite decide_True by lia.
  apply bind_wp, wp_ret. apply bind_wp. eapply wp_mono; [by apply wp_write_frame|].
  intros [] c1 (b & -> & _). apply bind_faults. apply resume_done. simpl. by rewrite Hco.
Qed.

(** After any life, the server closes the stream: no call completes any more, and
    the next one resumes a coroutine that has returned. *)
Lemma client_hangs_up fuel rs future es s t :
  let total := length (response_stream rs) in
  let sent := response_stream (numbered 0 (calls_of es)) in
  arranged 0 rs → concat (client_event_bytes <$> es) ++ future = response_stream rs →
  machine_run (machine_new rs) es = Some s → Forall (client_event_ok fuel) es →
  (total < 2 ^ 31 - 1)%Z → total + 10 < fuel → 4 * length rs + 4 < fuel →
  (length (calls_of es) < 2 ^ 63)%Z → (length sent ≤ kWindow)%Z → length sent + 3 < fuel →
  placid t = true → S (length t) < fuel →
  ∃ ch, id2session_ ch = id2session_ (table s) ∧ completed ch = completed (table s) ∧
    request_id_ ch = request_id_ (table s) ∧
    (∀ more, wp (client_life fuel (es ++ Net (Arrives [RdEof] t) :: (Net <$> more)))
       (λ x c, x = Returned ch ∧ send_co c = SendDone ∧ wire c ++ unsent c = sent)
       (Connection_new [] [])) ∧
    ∀ k t' more,
      let fr := frame (header_encode (req_header (request_id_ ch) (call_service k) (call_method k)))
        (call_request k) in
      (request_id_ ch < 2 ^ 63 - 1)%Z → (length fr ≤ kWindow)%Z → length fr + 3 < fuel →
      client_life fuel (es ++ Net (Arrives [RdEof] t) :: Calls k t' :: more) (Connection_new [] []) =
        Faulted ResumeDestroyed.
Proof.
  intros total sent Harr Hb Hrun Hok Hsm Hf Hfr Hmax Hwin Hfw Ht Hft.
  pose proof (client_life_spec fuel rs future es s Harr Hb Hrun Hok Hsm Hf Hfr Hmax Hwin Hfw) as Hlife.
  apply wp_done in Hlife as (x & c & Hdone & (pc & pos & -> & Hl & Hrx & _ & _ & Hneed & _) & _).
  pose proof (hung_arrives fuel sent t c Hl Hrx Ht Hft Hwin Hfw) as Hh.
  pose proof (client_run_hung fuel sent (goto pc (table s)) _ Hh Hneed) as Hend.
  apply wp_done in Hend as (x & c1 & Hdone1 & -> & Hend & Hreg).
  assert (∀ es2, client_life fuel (es ++ Net (Arrives [RdEof] t) :: es2) (Connection_new [] []) =
    client_returned fuel (goto pc (table s)) es2 c1) as Hgo.
  { intros es2. rewrite (client_life_app _ _ _ _ _ _ Hdone). cbn [client_on_events client_on_event].
    unfold mbind, M_bind, modify. by rewrite Hdone1. }
  exists (goto pc (table s)). split_and!; try done.
  - intros more. unfold wp. rewrite Hgo, client_returned_unregistered by done.
    by destruct Hend as (? & _ & ? & _).
  - intros k t' more fr Hid Hwin' Hf'. rewrite Hgo. cbn [client_returned].
    apply bind_wp, wp_modify. apply bind_faults. by eapply (call_after_end fuel sent).
Qed.

Lemma machine_run_id s es s' :
  machine_run s es = Some s' →
  (request_id_ (table s') = request_id_ (table s) + length (calls_of es))%Z.
Proof.
  revert s. induction es as [|e es IH]; intros s Hrun; [injection Hrun as ->; simpl; lia|].
  simpl in Hrun. apply bind_Some in Hrun as (s1 & Hstep & Hrun).
  destruct (machine_step_next _ _ _ Hstep) as (_ & Hid & _). rewrite (IH _ Hrun), Hid.
  assert (length (calls_of (e :: es)) = length (calls_of [e]) + length (calls_of es)) by (by destruct e). lia.
Qed.

(** A request gets an id that no pending call has; its frame is handed to the
    sender whole, and its session is in the table under that id before the sender
    runs. *)
Theorem request_ids_fresh (fuel : nat)
    (service method : string) (request : list cell) (session : Session Message)
    (out : list cell) (ch : Channel Message) (c : Connection) :
  let h := req_header (request_id_ ch) service method in
  let out' := out ++ frame (header_encode h) request in
  live fuel out c → ids_ok ch → (0 ≤ request_id_ ch < 2 ^ 63 - 1)%Z →
  (length out' ≤ kWindow)%Z → length out' + 3 < fuel →
  wp (send_request fuel service method request session ch) (λ ch' c',
    id2session_ ch !! request_id_ ch = None ∧
    id2session_ ch' = <[request_id_ ch := session]> (id2session_ ch) ∧
    ids_ok ch' ∧ wire c' ++ unsent c' = out') c.
Proof.
  intros h out' Hl Hids Hid Hwin Hf. eapply wp_mono; [by apply send_request_spec|].
  intros ch' c' (Hl' & _ & Hids' & Hnone & Hch). rewrite Hch in Hids' |- *. split_and!; try done.
  by destruct (live_sender _ _ _ Hl') as (_ & _ & _ & Hw).
Qed.
End machine.
