(* ===== verification/ClientClose.v ===== *)
(** * A channel that its program closes (client/client_channel.cc)

    [ClientChannel::close] marks the connection as closed and shuts the sending side
    of the socket down; it resumes no coroutine and takes nothing out of the table.
    What happens next depends on which comes first:

    - a response: [recv_fn] is resumed, sees [closed()] and returns without reading
      it; it is resumed again, after its end, by whatever the server sends next;
    - a call: its session enters the table, [send_fn] is resumed and returns; the call
      after it resumes [send_fn] again.

    In either case the calls that are pending stay pending. *)
From stdpp Require Import strings.
From S2P Require Import Prelude Block Segments InputStream OutputStream Streams Conn Connection ConnectionProofs Sender Wire Protocol Receiver PollReceiver HangUp Client ClientProofs ClientLife.

(** ** Model *)

(** The channel is closed after the events [es], and [more] happens. *)
Definition client_closes `{Protobuf} {Message : Type} (fuel : nat) (es more : list (client_event Message))
    : M Connection (recv_exit (Channel Message) (Channel Message)) :=
  x ← client_life fuel es;
  ClientChannel_close;;
  match x with
  | Suspended ch => client_on_events fuel ch more
  | Returned ch => client_returned fuel ch more
  end.

(** ** Proofs *)
Section close.
Context `{ProtobufLaws} {Message : Type}.
Implicit Types ch : Channel Message.

(** A connection that was closed while both coroutines waited. *)
Record deaf (out : list cell) (c : Connection) : Prop := {
  deaf_closed : closed_ c = true;
  deaf_input : input_inv (read_buf_ c);
  deaf_output : output_inv (write_buf_ c);
  deaf_sender : send_co c = SendWaiting ∨ send_co c = SendWriting;
  deaf_sent : wire c ++ unsent c = out;
  deaf_registered : registered c;
}.

Lemma live_closed fuel out c :
  live fuel out c → wp ClientChannel_close (λ _ c', c' = set_closed true c ∧ deaf out c') c.
Proof.
  intros Hl. destruct (live_sender _ _ _ Hl) as (Ho & Hcl & Hset & Hout).
  pose proof (settled_open _ Hcl Hset). unfold ClientChannel_close. poll. unfold Connection_close.
  wp_steps. split; [done|]. split; try done; apply Hl.
Qed.

(** A response arrives: nothing of it is read. *)
Lemma client_run_deaf fuel out ch c :
  deaf out c → 0 < fuel → (length (unread c) < 2 ^ 64)%Z →
  (length (unread c) < client_need (client_at ch))%Z →
  client_run fuel ch c = Done (Returned ch, c).
Proof.
  intros Hd Hf Hsm Hneed.
  pose proof (read_bytes_contents c (deaf_input _ _ Hd) Hsm) as Hb. poll.
  assert (client_step fuel ch c = Done (inr (Returned ch), c)) as Hstep.
  { unfold client_step. destruct (client_at ch); simpl in Hneed;
      (apply wait_then_closed; [done|apply (deaf_closed _ _ Hd)|by rewrite Hb]). }
  unfold client_run. destruct fuel as [|fuel]; [lia|]. cbn [iter]. unfold mbind, M_bind at 1.
  by rewrite Hstep.
Qed.

(** A call: its request is put in the buffer behind what was sent, its session enters
    the table, and the sender returns. *)
Lemma call_deaf fuel out k ch c :
  let fr := frame (header_encode (req_header (request_id_ ch) (call_service k) (call_method k))) (call_request k) in
  deaf out c → (request_id_ ch < 2 ^ 63 - 1)%Z → placid (tx c) = true → S (length (tx c)) < fuel →
  (length (out ++ fr) ≤ kWindow)%Z → length (out ++ fr) + 3 < fuel →
  wp (ClientChannel_CallMethod fuel k ch) (λ ch' c', ch' = called k ch ∧ ended (out ++ fr) c') c.
Proof.
  intros fr Hd Hid Htx Hft Hwin Hf. pose proof Hwin as Hwin'. pose proof Hf as Hf'.
  rewrite length_app in Hwin', Hf'.
  unfold ClientChannel_CallMethod, send_request, next_request_id. rewrite decide_True by lia.
  apply wp_bind, wp_ret, wp_bind. eapply wp_mono; [apply wp_write_frame; [apply Hd|fold fr; lia|fold fr; lia]|].
  intros [] c1 (b & -> & Hb & Hct). apply wp_bind. eapply wp_mono.
  { apply (resume_closed fuel (out ++ fr)); poll; try done; try apply Hd.
    simpl. rewrite Hct, app_assoc. by rewrite (deaf_sent _ _ Hd). }
  intros [] c2 (Hco & Hcl & Hout & Ho & _). apply wp_ret. by split_and!.
Qed.

Lemma client_closes_spec fuel rs future es s :
  let total := length (response_stream rs) in
  let sent := response_stream (numbered 0 (calls_of es)) in
  arranged 0 rs → concat (client_event_bytes <$> es) ++ future = response_stream rs →
  machine_run (machine_new rs) es = Some s → Forall (client_event_ok fuel) es →
  (total < 2 ^ 31 - 1)%Z → total + 10 < fuel → 4 * length rs + 4 < fuel →
  (length (calls_of es) < 2 ^ 63)%Z → (length sent ≤ kWindow)%Z → length sent + 3 < fuel →
  ∃ ch c, id2session_ ch = id2session_ (table s) ∧ completed ch = completed (table s) ∧
    request_id_ ch = length (calls_of es) ∧ deaf sent c ∧ rx c = [] ∧
    (length (unread c) < 2 ^ 31)%Z ∧ (length (unread c) < client_need (client_at ch))%Z ∧
    ∀ more, client_closes fuel es more (Connection_new [] []) = client_on_events fuel ch more c.
Proof.
  intros total sent Harr Hb Hrun Hok Hsm Hf Hfr Hmax Hwin Hfw.
  pose proof (client_life_spec fuel rs future es s Harr Hb Hrun Hok Hsm Hf Hfr Hmax Hwin Hfw) as Hlife.
  apply wp_done in Hlife as (x & c & Hdone & (pc & pos & -> & Hl & Hrx & _ & _ & Hneed & _) & _).
  pose proof (live_closed _ _ _ Hl) as Hclose. apply wp_done in Hclose as ([] & c1 & Hdone1 & -> & Hd).
  pose proof (machine_run_id _ _ _ Hrun) as Hid. pose proof (live_small _ _ _ Hl) as Hs.
  rewrite length_app in Hs. exists (goto pc (table s)), (set_closed true c).
  split_and!; try done; [simpl in *; lia|].
  intros more. unfold client_closes. rewrite (bind_done _ _ _ _ _ Hdone). by rewrite (bind_done _ _ _ _ _ Hdone1).
Qed.

(** A response that arrives behind the closing, and anything behind that. *)
Lemma arrives_deaf fuel out ch c r t more :
  deaf out c → rx c = [] → 0 < fuel → (length (unread c) < 2 ^ 31)%Z →
  (length (unread c) < client_need (client_at ch))%Z →
  client_on_events fuel ch (Net (Arrives r t) :: more) c =
    client_returned fuel ch more (set_rx r (set_tx t c)).
Proof.
  intros [] Hrx Hf Hsm Hneed. cbn [client_on_events client_on_event]. unfold mbind, M_bind, modify.
  rewrite Hrx. cbn [app]. rewrite (client_run_deaf fuel out); [done|by split|done|simpl; lia|done].
Qed.

Lemma returned_resumed fuel out ch c r t more :
  deaf out c → client_returned fuel ch (Net (Arrives r t) :: more) c = Faulted ResumeDestroyed.
Proof.
  intros Hd. pose proof (deaf_registered _ _ Hd) as Hreg. unfold registered in Hreg.
  cbn [client_returned]. unfold mbind at 1, M_bind at 1, gets. by rewrite decide_False.
Qed.

(** A call behind the closing, and the call after it. *)
Lemma calls_deaf fuel out ch c k t more :
  let fr := frame (header_encode (req_header (request_id_ ch) (call_service k) (call_method k))) (call_request k) in
  deaf out c → (request_id_ ch < 2 ^ 63 - 1)%Z → placid t = true → S (length t) < fuel →
  (length (out ++ fr) ≤ kWindow)%Z → length (out ++ fr) + 3 < fuel →
  ∃ c', ended (out ++ fr) c' ∧
    client_on_events fuel ch (Calls k t :: more) c = client_on_events fuel (called k ch) more c'.
Proof.
  intros fr [] Hid Ht Hft Hwin Hf.
  assert (wp (ClientChannel_CallMethod fuel k ch) (λ ch' c', ch' = called k ch ∧ ended (out ++ fr) c')
    (set_tx t c)) as Hcall by (by apply call_deaf).
  apply wp_done in Hcall as (ch' & c' & Hrun & -> & Hend). exists c'. split; [done|].
  cbn [client_on_events client_on_event]. unfold mbind, M_bind, modify. by rewrite Hrun.
Qed.
End close.
