(* ===== verification/EndToEnd.v ===== *)
(** * Client and server together

    The calls a client makes, carried over the connection to the server and the
    responses back, each hop in any fragmentation: every call is completed with
    what the method returned for its request, in order, and the client's table of
    pending calls is empty again. *)
From stdpp Require Import strings.
From S2P Require Import Prelude Block Segments InputStream OutputStream Streams Conn Connection ConnectionProofs Sender Wire Protocol Receiver PollReceiver Server ServerProofs Client ClientProofs ClientLife.

Section end_to_end.
Context `{ProtobufLaws} {Message : Type} (name2service_ : gmap string Service).
Implicit Types ch : Channel Message.
Abbreviation Call := (Call Message).

(** The response body the server computes for a call, and what the client's
    session makes of it. *)
Definition call_body (k : Call) : option (list cell) :=
  method ← find_method name2service_ (req_header 0 (call_service k) (call_method k));
  request ← req_decode method (call_request k);
  Some (resp_encode method (Server.CallMethod method request)).
Definition call_result (k : Call) : option Message :=
  body ← call_body k;
  response (call_session k) body.

(** The responses to calls numbered from [id] on. *)
Fixpoint responses (id : Z) (bodies : list (list cell)) : list (Header * list cell) :=
  match bodies with
  | [] => []
  | body :: bodies =>
      (mkHeader MAGIC_NUM VERSION RESPONSE id None None, body) :: responses (id + 1) bodies
  end.

Lemma respond_numbered id calls bodies :
  mapM call_body calls = Some bodies →
  mapM (respond name2service_) (numbered id calls) =
    Some (response_frame <$> responses id bodies).
Proof.
  revert id bodies. induction calls as [|k calls IH]; intros id bodies Hb; simpl in Hb.
  { by injection Hb as <-. }
  apply bind_Some in Hb as (body & Hbody & (bodies' & Hb & [= <-])%bind_Some). simpl.
  assert (respond name2service_ (req_header id (call_service k) (call_method k), call_request k) =
    Some (response_frame (mkHeader MAGIC_NUM VERSION RESPONSE id None None, body))) as ->.
  { unfold respond. simpl. unfold call_body, find_method in *. simpl in *.
    apply bind_Some in Hbody as (method & Hmth & (request & Hreq & [= <-])%bind_Some).
    rewrite Hmth. simpl. rewrite Hreq. done. }
  simpl. by rewrite (IH (id + 1)%Z bodies' Hb).
Qed.

Lemma sessions_after_lookup_lt id j calls (m : gmap Z (Session Message)) :
  (j < id)%Z → sessions_after id calls m !! j = m !! j.
Proof.
  revert id m. induction calls as [|k calls IH]; intros id m Hj; [done|]. simpl.
  rewrite IH by lia. rewrite lookup_insert_ne; [done|lia].
Qed.

Lemma sessions_after_delete id j calls (m : gmap Z (Session Message)) :
  (j < id)%Z → delete j (sessions_after id calls m) = sessions_after id calls (delete j m).
Proof.
  revert id m. induction calls as [|k calls IH]; intros id m Hj; [done|]. simpl.
  rewrite IH by lia. by rewrite delete_insert_ne by lia.
Qed.

(** The responses empty the table and complete the calls. *)
Lemma deliver_responses id calls bodies msgs at_ next_id log :
  mapM call_body calls = Some bodies → mapM call_result calls = Some msgs →
  deliver_all (mkChannel at_ (sessions_after id calls ∅) next_id log) (responses id bodies) =
    Some (mkChannel at_ ∅ next_id (log ++ zip (call_session <$> calls) msgs)).
Proof.
  revert id bodies msgs log. induction calls as [|k calls IH]; intros id bodies msgs log Hb Hm;
    simpl in Hb, Hm.
  { injection Hb as <-. injection Hm as <-. simpl. by rewrite app_nil_r. }
  apply bind_Some in Hb as (body & Hbody & (bodies' & Hb & [= <-])%bind_Some).
  apply bind_Some in Hm as (msg & Hmsg & (msgs' & Hm & [= <-])%bind_Some).
  unfold call_result in Hmsg. rewrite Hbody in Hmsg. simpl in Hmsg.
  simpl. unfold deliver. simpl.
  rewrite sessions_after_lookup_lt, lookup_insert_eq by lia. simpl. rewrite Hmsg. simpl.
  unfold complete, erase_session. simpl.
  rewrite sessions_after_delete, delete_insert_id by (done || lia).
  rewrite (IH (id + 1)%Z bodies' msgs' _ Hb Hm). by rewrite <-app_assoc.
Qed.

(** ** The client's connection *)

(** The bytes of responses arrive at the client. *)
Lemma client_receives fuel out calls bodies msgs answers c :
  let rs := responses 0 bodies in
  live fuel out c → incoming c = [] → at_pos 0 c →
  mapM call_body calls = Some bodies → mapM call_result calls = Some msgs →
  arranged 0 rs → delivers answers → rx_bytes answers = response_stream rs →
  S (length answers) < fuel → length (response_stream rs) + 2 < fuel →
  (length (response_stream rs) < 2 ^ 31 - 1)%Z → 4 * length calls < fuel →
  wp (client_run fuel (mkChannel CAtHeaderLen (sessions_after 0 calls ∅) (length calls) []))
    (λ x c', x = Suspended (mkChannel CAtHeaderLen ∅ (length calls)
                              (zip (call_session <$> calls) msgs)) ∧
             live fuel out c' ∧ unread c' = []) (set_rx answers c).
Proof.
  intros rs Hl Hin Hpos Hb Hm Harr Hdel Hbytes Hf1 Hf2 Hsm Hf3.
  assert (incoming (set_rx answers c) = response_stream rs) as Hin'.
  { unfold incoming in *. poll. apply app_nil in Hin as [Hun _]. simpl. by rewrite Hun. }
  assert (live fuel out (set_rx answers c)) as Hl'.
  { unfold incoming in Hin'. poll. destruct Hl. split; rewrite ?Hin'; simpl; done. }
  assert (length rs = length calls) as Hlen.
  { apply length_mapM in Hb. rewrite Hb. unfold rs. clear. generalize 0%Z.
    induction bodies as [|b bs IH]; intros z; simpl; [done|]. by rewrite IH. }
  unfold client_run. eapply wp_mono.
  { eapply (client_run_spec fuel fuel out rs CAtHeaderLen 0 []
      (mkChannel CAtHeaderLen (sessions_after 0 calls ∅) (length calls) [])); try done.
    - rewrite Hin', app_nil_r. by apply client_point_start.
    - by apply settle_all, deliver_responses.
    - destruct rs; simpl in *; lia. }
  intros x c' (pc & pos & -> & Hl2 & Hrx2 & _ & [-> Hnil] & _).
  rewrite app_nil_r in Hnil. apply app_nil in Hnil as [Hun _]. by split_and!.
Qed.

(** A client makes all its calls, which the services accept and whose sessions
    understand the responses.  What it hands to its sender, carried to the server in
    any fragmentation, makes the server send responses which, received in one go, with
    reads that may be interrupted, complete every call with what its method returned
    for its request, in order, and leave no call pending.  ([System] has the two
    sides run together.) *)
Theorem rpc_end_to_end (fuel : nat) (calls : list Call) (bodies : list (list cell))
    (msgs : list Message) :
  let requests := request_stream (numbered 0 calls) in
  let replies := response_stream (responses 0 bodies) in
  mapM call_body calls = Some bodies →
  mapM call_result calls = Some msgs →
  placed 0 (numbered 0 calls) → arranged 0 (responses 0 bodies) →
  (length requests ≤ kWindow)%Z → (length replies ≤ kWindow)%Z →
  length requests + 10 < fuel → length replies + 10 < fuel → 4 * length calls + 4 < fuel →
  wp (client_start (Message := Message) fuel) (λ x c, x = Suspended channel_new ∧
    wp (send_requests fuel calls channel_new) (λ ch c1,
      wire c1 ++ unsent c1 = requests ∧
      (∀ es, concat (event_bytes <$> es) = requests → Forall (event_ok fuel) es →
         wp (serve name2service_ fuel es) (λ _ s, wire s ++ unsent s = replies)
           (Connection_new [] [])) ∧
      (∀ answers, delivers answers → rx_bytes answers = replies → S (length answers) < fuel →
         wp (client_run fuel ch) (λ x c2, ∃ ch', x = Suspended ch' ∧ id2session_ ch' = ∅ ∧
           completed ch' = zip (call_session <$> calls) msgs) (set_rx answers c1))) c)
    (Connection_new [] []).
Proof.
  intros requests replies Hb Hm Hplaced Harr Hw1 Hw2 Hf1 Hf2 Hf3. unfold kWindow in *.
  pose proof (length_numbered 0 calls) as Hnum.
  pose proof (length_request_stream (numbered 0 calls)) as Hcount. fold requests in Hcount.
  eapply wp_mono; [apply client_starts; lia|]. intros x c (-> & Hl & Hin & Hpos & Hrx). split; [done|].
  eapply wp_mono.
  { apply (send_requests_spec fuel calls [] channel_new c Hl); [apply ids_ok_new|simpl; lia|simpl; lia|exact Hw1|].
    change (length requests + 3 < fuel). lia. }
  intros ch c1 (Hl1 & [Hin1 Hcb1] & _ & ->). simpl in Hl1 |- *. split_and!.
  - destruct (live_sender _ _ _ Hl1) as (_ & _ & _ & Hw). exact Hw.
  - intros es Hes Hok. pose proof (respond_numbered 0 calls bodies Hb) as Hresp.
    eapply wp_mono; [eapply (serve_spec name2service_ fuel (numbered 0 calls)); try done; [..|]|].
    all: try (change (concat (response_frame <$> responses 0 bodies)) with replies);
      try (fold requests); unfold kWindow; try lia.
    intros x s (_ & _ & _ & (_ & _ & _ & Hws)). exact Hws.
  - intros answers Hd Hbytes Hfa.
    eapply wp_mono; [apply (client_receives fuel requests calls bodies msgs answers c1); try done|].
    all: fold replies; rewrite ?Hin1; try done; try lia.
    + unfold at_pos in *. by rewrite Hcb1.
    + intros x c2 (-> & _). eexists. by split_and!.
Qed.
End end_to_end.
