(* ===== verification/System.v ===== *)
(** * Client, server and the network between them

    A client and a server, each with its connection, its executor and its two
    coroutines, and a network that carries what one side has written to the other
    in pieces of any size.  The program makes its calls at any time; bytes arrive
    and sockets become writable in any order.

    Whatever the order, nothing faults, the calls that have completed are the first
    ones, each with what its method returned for its request, and the table holds
    exactly the others; when the network has carried everything, all calls have
    completed. *)
From stdpp Require Import strings.
From S2P Require Import Executor Sockets Start Prelude Block Segments InputStream OutputStream Streams Conn Connection ConnectionProofs Sender Wire Protocol Receiver PollReceiver Server ServerProofs ServerSide Client ClientProofs ClientLife EndToEnd.

(** ** Model *)
Record System (V : ServerSide) (Message : Type) := mkSystem {
  client : recv_exit (Channel Message) (Channel Message);
  client_conn : Connection;
  server : srv V;
  up : nat;                           (** bytes carried to the server *)
  down : nat;                         (** bytes carried to the client *)
}.
Arguments mkSystem {V Message} _ _ _ _ _.
Arguments client {V Message} _.
Arguments client_conn {V Message} _.
Arguments server {V Message} _.
Arguments up {V Message} _.
Arguments down {V Message} _.

(** What can happen; [t] is what the kernel then answers to [writev]. *)
Inductive action (V : ServerSide) (Message : Type) :=
  | MakeCall (k : Call Message) (t : list write_answer)
  | ToServer (n : nat) (t : list write_answer)
  | ToClient (n : nat) (t : list write_answer)
  | ClientWritable (t : list write_answer)
  | AtServer (e : srv_event V).
Arguments MakeCall {V Message} k t.
Arguments ToServer {V Message} n t.
Arguments ToClient {V Message} n t.
Arguments ClientWritable {V Message} t.
Arguments AtServer {V Message} e.

Section system.
Context `{Protobuf} {V : ServerSide} {Message : Type}.
Abbreviation System := (System V Message).
Abbreviation action := (action V Message).

(** An event at the client, and a move of the server. *)
Definition at_client (fuel : nat) (e : client_event Message) : M System unit := λ s,
  match (match client s with
         | Suspended ch => client_on_events fuel ch [e]
         | Returned ch => client_returned fuel ch [e]
         end) (client_conn s) with
  | Done (x, c) => Done (tt, mkSystem x c (server s) (up s) (down s))
  | Faulted f => Faulted f
  | OutOfFuel => OutOfFuel
  end.
Definition at_server (m : M (srv V) unit) : M System unit := λ s,
  match m (server s) with
  | Done (_, v) => Done (tt, mkSystem (client s) (client_conn s) v (up s) (down s))
  | Faulted f => Faulted f
  | OutOfFuel => OutOfFuel
  end.

(** The next [n] bytes that one side has written and the network has not carried. *)
Definition upward (n : nat) (s : System) : list cell := take n (drop (up s) (wire (client_conn s))).
Definition downward (n : nat) (s : System) : list cell := take n (drop (down s) (srv_wire V (server s))).

Definition carry_up (n : nat) (s : System) : System :=
  mkSystem (client s) (client_conn s) (server s) (up s + n) (down s).
Definition carry_down (n : nat) (s : System) : System :=
  mkSystem (client s) (client_conn s) (server s) (up s) (down s + n).

Definition act (fuel : nat) (a : action) : M System unit :=
  match a with
  | MakeCall k t => at_client fuel (Calls k t)
  | ClientWritable t => at_client fuel (Net (CanWrite t))
  | AtServer e => at_server (srv_on V fuel e)
  | ToServer n t =>
      bytes ← gets (upward n);
      if decide (bytes = []) then mret tt
      else modify (carry_up (length bytes));; at_server (srv_arrive V fuel bytes t)
  | ToClient n t =>
      bytes ← gets (downward n);
      if decide (bytes = []) then mret tt
      else modify (carry_down (length bytes));; at_client fuel (Net (Arrives [RdBytes bytes] t))
  end.
Fixpoint acts (fuel : nat) (l : list action) : M System unit :=
  match l with
  | [] => mret tt
  | a :: l => act fuel a;; acts fuel l
  end.

Lemma wp_acts_app fuel l1 l2 (Q : unit → System → Prop) s :
  wp (acts fuel l1) (λ _, wp (acts fuel l2) Q) s → wp (acts fuel (l1 ++ l2)) Q s.
Proof.
  revert s. induction l1 as [|a l1 IH]; intros s Hw; [done|]. simpl in *. apply wp_bind.
  apply wp_bind_inv in Hw. eapply wp_mono; [exact Hw|]. intros [] s1. apply IH.
Qed.

(** The connection is made and the four coroutines are started. *)
Definition system_start (fuel : nat) : outcome System :=
  match client_start fuel (Connection_new [] []), srv_start V fuel with
  | Done (x, c), Done v => Done (mkSystem x c v 0 0)
  | Faulted f, _ | Done _, Faulted f => Faulted f
  | OutOfFuel, _ | Done _, OutOfFuel => OutOfFuel
  end.
End system.

(** The calls that are made, in order. *)
Definition calls_made {V Message} (l : list (action V Message)) : list (Call Message) :=
  concat ((λ a, match a with MakeCall k _ => [k] | _ => [] end) <$> l).

(** The kernels are calm. *)
Definition action_ok {V Message} (fuel : nat) (a : action V Message) : Prop :=
  match a with
  | MakeCall _ t | ToServer _ t | ToClient _ t | ClientWritable t => event_ok fuel (CanWrite t)
  | AtServer e => srv_calm V fuel e
  end.

(** ** The calls of a program *)
Section calls.
Context `{ProtobufLaws} {Message : Type} (name2service_ : gmap string Service).
Context (calls : list (Call Message)) (bodies : list (list cell)) (msgs : list Message).
Hypothesis Hbodies : mapM (call_body name2service_) calls = Some bodies.
Hypothesis Hmsgs : mapM (call_result name2service_) calls = Some msgs.
Abbreviation resp := (Header * list cell)%type.
Abbreviation rs := (responses 0 bodies).

(** The table after [m] calls of which [d] have completed. *)
Definition call_state (m d : nat) : Channel Message :=
  mkChannel CAtHeaderLen (sessions_after d (drop d (take m calls)) ∅) m
    (zip (call_session <$> take d calls) (take d msgs)).

Lemma sessions_after_snoc id l k (m : gmap Z (Session Message)) :
  sessions_after id (l ++ [k]) m = <[(id + length l)%Z := call_session k]> (sessions_after id l m).
Proof.
  revert id m. induction l as [|k' l IH]; intros id m; simpl; [by rewrite Z.add_0_r|].
  rewrite IH. f_equal. lia.
Qed.

Lemma called_state m d k :
  calls !! m = Some k → d ≤ m → called k (call_state m d) = call_state (S m) d.
Proof.
  intros Hk Hd. pose proof (lookup_lt_Some _ _ _ Hk) as Hm. unfold called, call_state. simpl. f_equal; [|lia].
  rewrite (take_S_r _ _ _ Hk), drop_app_le by (rewrite length_take; lia). rewrite sessions_after_snoc.
  f_equal. rewrite length_drop, length_take. lia.
Qed.

Lemma responses_lookup id (bs : list (list cell)) d body :
  bs !! d = Some body →
  drop d (responses id bs) =
    (mkHeader MAGIC_NUM VERSION RESPONSE (id + d) None None, body) :: drop (S d) (responses id bs).
Proof.
  revert id d. induction bs as [|b bs IH]; intros id [|d] Hb; simplify_eq/=; [by rewrite Z.add_0_r|].
  rewrite (IH _ _ Hb). do 3 f_equal. lia.
Qed.

Lemma deliver_state m d body k msg :
  calls !! d = Some k → call_body name2service_ k = Some body → msgs !! d = Some msg →
  call_result name2service_ k = Some msg → d < m →
  deliver (call_state m d) (mkHeader MAGIC_NUM VERSION RESPONSE d None None, body) =
    Some (call_state m (S d)).
Proof.
  intros Hk Hbody Hmsg Hres Hd. unfold deliver. simpl.
  assert (drop d (take m calls) = k :: drop (S d) (take m calls)) as Hdrop.
  { apply drop_S. by rewrite lookup_take_lt. }
  unfold call_result in Hres. rewrite Hbody in Hres. simpl in Hres.
  rewrite Hdrop. simpl. rewrite sessions_after_lookup_lt, lookup_insert_eq by lia. simpl.
  rewrite Hres. simpl. unfold complete, erase_session, call_state. simpl. f_equal. f_equal.
  - rewrite Hdrop. cbn [sessions_after]. rewrite sessions_after_delete, delete_insert_id by (done || lia). f_equal. lia.
  - rewrite (take_S_r _ _ _ Hk), (take_S_r _ _ _ Hmsg), fmap_app, zip_with_app; [done|].
    rewrite length_fmap, !length_take. apply lookup_lt_Some in Hk, Hmsg. lia.
Qed.

Lemma length_responses id (bs : list (list cell)) : length (responses id bs) = length bs.
Proof. revert id. induction bs as [|b bs IH]; intros id; simpl; [done|]. by rewrite IH. Qed.

Lemma length_bodies : length bodies = length calls.
Proof. apply length_mapM in Hbodies. done. Qed.

(** What has arrived of the first [j] responses is delivered, as far as calls wait
    for it. *)
Lemma settle_calls j m d n :
  d ≤ m → m ≤ length calls →
  (∀ i, i < length calls → i < j → n ≤ length (response_stream (drop (S i) (take j rs))) → i < m) →
  ∃ d', d ≤ d' ≤ m ∧ (d ≤ j → d' ≤ j) ∧
    settle (call_state m d) (drop d (take j rs)) n = Some (call_state m d', drop d' (take j rs)).
Proof.
  intros Hd Hm Hcause. remember (length calls - d) as w eqn:Hw. revert d Hd Hw.
  assert (length (take j rs) ≤ length calls) as Hlen
    by (rewrite length_take, length_responses, length_bodies; lia).
  induction w as [|w IH]; intros d Hd Hw.
  { exists d. split_and!; [lia|lia|done|]. by rewrite drop_ge by lia. }
  assert (d < length calls) as Hlt by lia.
  destruct (decide (d < j)) as [Hj|Hj];
    [|exists d; split_and!; [lia|lia|done|]; by rewrite drop_ge by (rewrite length_take; lia)].
  destruct (lookup_lt_is_Some_2 calls d Hlt) as [k Hk].
  pose proof (mapM_Some_1 _ _ _ Hbodies) as Hfb. pose proof (mapM_Some_1 _ _ _ Hmsgs) as Hfm.
  destruct (Forall2_lookup_l _ _ _ _ _ Hfb Hk) as (body & Hb & Hbody).
  destruct (Forall2_lookup_l _ _ _ _ _ Hfm Hk) as (msg & Hmg & Hmsg).
  pose proof (responses_lookup 0 bodies d body Hb) as Hr. rewrite Z.add_0_l in Hr.
  assert (drop d (take j rs) = (mkHeader MAGIC_NUM VERSION RESPONSE d None None, body) :: drop (S d) (take j rs))
    as Hrj.
  { rewrite !skipn_firstn_comm, Hr. by replace (j - d) with (S (j - S d)) by lia. }
  rewrite Hrj. cbn [settle]. case_decide as Hn; [|exists d; split_and!; [lia|lia|done|]; by rewrite Hrj].
  specialize (Hcause d Hlt Hj Hn). rewrite (deliver_state m d body k msg Hk Hbody Hmg Hmsg Hcause).
  destruct (IH (S d)) as (d' & Hd' & Hj' & Hset); [lia|lia|].
  exists d'. split_and!; [lia|lia|intros _; by apply Hj'|]. exact Hset.
Qed.

(** ** Streams of frames *)
Lemma carried {A} (w r b : list A) u n :
  w `prefix_of` r → b = take n (drop u w) → drop u r = b ++ drop (u + length b) r.
Proof.
  intros [more ->] ->. destruct (decide (u ≤ length w)) as [Hu|Hu]; cycle 1.
  { rewrite (drop_ge w) by lia. rewrite take_nil. simpl. by rewrite Nat.add_0_r. }
  rewrite <-drop_drop, drop_app_le by done. rewrite length_take, length_drop.
  destruct (decide (n ≤ length w - u)) as [Hn|Hn].
  - rewrite Nat.min_l by lia. rewrite drop_app_le by (rewrite length_drop; lia).
    by rewrite app_assoc, take_drop.
  - rewrite Nat.min_r by lia. rewrite take_ge by (rewrite length_drop; lia). f_equal.
    rewrite drop_app_ge by (rewrite length_drop; lia). rewrite length_drop, Nat.sub_diag. done.
Qed.

Lemma numbered_take id m (l : list (Call Message)) : numbered id (take m l) = take m (numbered id l).
Proof.
  revert id m. induction l as [|k l IH]; intros id [|m]; simpl; try done. by rewrite IH.
Qed.

Lemma frames_nonempty (l : list resp) : Forall (λ f, f ≠ []) (response_frame <$> l).
Proof. apply Forall_fmap, Forall_true. intros r. unfold compose, response_frame, frame. done. Qed.
End calls.

(** ** The invariant *)
Section invariant.
Context `{ProtobufLaws} {Message : Type} (name2service_ : gmap string Service).
Context (fuel : nat) (calls : list (Call Message)) (bodies : list (list cell)) (msgs : list Message).
Hypothesis Hbodies : mapM (call_body name2service_) calls = Some bodies.
Hypothesis Hmsgs : mapM (call_result name2service_) calls = Some msgs.
Abbreviation rs := (responses 0 bodies).
Abbreviation reqs := (numbered 0 calls).
Abbreviation requests := (request_stream reqs).
Abbreviation replies := (response_stream rs).
Context (V : ServerSide) {Laws : ServerLaws V fuel reqs (response_frame <$> rs)}.
Hypothesis Harranged : arranged 0 rs.
Hypothesis Hup : (length requests ≤ kWindow)%Z.
Hypothesis Hdown : (length replies ≤ kWindow)%Z.
Hypothesis Hfup : length requests + 10 < fuel.
Hypothesis Hfdown : length replies + 10 < fuel.
Hypothesis Hfcalls : 4 * length calls + 4 < fuel.
Abbreviation System := (System V Message).

(** What the client has handed to its sender after [m] calls. *)
Definition asked (m : nat) : list cell := request_stream (take m reqs).

(** After [m] calls: [d] of them have completed; the first [a] responses have been
    on the wire. *)
Definition sys_inv (m : nat) (s : System) : Prop :=
  ∃ ch d a, client s = Suspended ch ∧
    client_matches fuel (asked m)
      (mkMachine (call_state calls msgs m d) (drop d rs) (length (drop (down s) replies)))
      (drop (down s) replies) (length replies) (Suspended ch) (client_conn s) ∧
    srv_inv (drop (up s) requests) (server s) ∧
    d ≤ m ∧ m ≤ length calls ∧ a ≤ length calls ∧ up s ≤ length (asked m) ∧
    down s ≤ length (response_stream (take a rs)) ∧ length (asked a) ≤ up s.

Lemma asked_prefix m : asked m `prefix_of` requests.
Proof. exists (request_stream (drop m reqs)). unfold asked. by rewrite <-request_stream_app, take_drop. Qed.

Lemma length_asked m : length (asked m) ≤ length requests.
Proof. by apply prefix_length, asked_prefix. Qed.

Lemma length_requests : length calls ≤ length requests.
Proof. rewrite <-(length_numbered 0 calls). apply length_request_stream. Qed.

Lemma asked_S m k :
  calls !! m = Some k →
  asked (S m) = asked m ++ frame (header_encode (req_header m (call_service k) (call_method k))) (call_request k).
Proof.
  intros Hk. assert (reqs !! m = Some (req_header m (call_service k) (call_method k), call_request k)) as Hr.
  { clear -Hk. rewrite <-(Z.add_0_l m). generalize 0%Z as id. revert m Hk.
    induction calls as [|k' l IH]; intros [|m] Hk id; simplify_eq/=; [by rewrite Z.add_0_r|].
    rewrite (IH _ Hk). by replace (id + 1 + m)%Z with (id + S m)%Z by lia. }
  unfold asked. rewrite (take_S_r _ _ _ Hr), request_stream_app, request_stream_one. done.
Qed.

(** The invariant bounds what a response can be: one that is complete at the client
    belongs to a call that has been made. *)
Lemma caused m a n (down' : nat) :
  m ≤ length calls → a ≤ length calls → length (asked a) ≤ n → n ≤ length (asked m) →
  down' ≤ length (response_stream (take a rs)) →
  ∀ j, j < length calls →
    length (drop down' replies) ≤ length (response_stream (drop (S j) rs)) → j < m.
Proof.
  intros Hm Ha Han Hnm Hda j Hj Hle.
  assert (length reqs = length calls) as Hlr by apply length_numbered.
  assert (length rs = length calls) as Hls
    by (rewrite length_responses; by apply (length_bodies name2service_)).
  assert (length replies = length (response_stream (take (S j) rs)) + length (response_stream (drop (S j) rs))) as Hsplit.
  { rewrite <-(take_drop (S j) rs) at 1. unfold response_stream. by rewrite fmap_app, concat_app, length_app. }
  rewrite length_drop in Hle.
  assert (a ≤ m) as Ham.
  { apply (concat_take_le (request_frame <$> reqs)).
    - apply (frames_nonempty reqs).
    - rewrite length_fmap. lia.
    - rewrite <-!fmap_take. unfold asked, request_stream in *. lia. }
  enough (S j ≤ a) by lia.
  apply (concat_take_le (response_frame <$> rs)).
  - apply frames_nonempty.
  - rewrite length_fmap. lia.
  - rewrite <-!fmap_take. unfold response_stream in *. lia.
Qed.

(** ** Steps *)
Lemma wp_at_client ch e (Q : unit → System → Prop) s :
  client s = Suspended ch →
  wp (client_on_event fuel ch e) (λ x c,
    Q tt (mkSystem x c (server s) (up s) (down s))) (client_conn s) →
  wp (at_client fuel e) Q s.
Proof.
  intros Hch Hw. unfold wp, at_client in *. rewrite Hch. cbn [client_on_events].
  unfold mbind, M_bind. destruct (client_on_event fuel ch e (client_conn s)) as [[[ch'|ch'] c]| |]; done.
Qed.

Lemma wp_at_server (m : M (srv V) unit) (Q : unit → System → Prop) s :
  wp m (λ _ v, Q tt (mkSystem (client s) (client_conn s) v (up s) (down s))) (server s) →
  wp (at_server m) Q s.
Proof. unfold wp, at_server. by destruct (m (server s)) as [[[] v]| |]. Qed.

Lemma drop_stream d : length (response_stream (drop d rs)) ≤ length replies.
Proof. apply response_stream_suffix, suffix_drop. Qed.

Lemma drop_frames d : length (drop d rs) ≤ length calls.
Proof. rewrite length_drop, length_responses, (length_bodies name2service_ calls bodies) by done. lia. Qed.

Lemma inv_call m s k t :
  sys_inv m s → calls !! m = Some k → event_ok fuel (CanWrite t) →
  wp (at_client fuel (Calls k t)) (λ _ s', sys_inv (S m) s') s.
Proof.
  intros (ch & d & a & Hch & Hm & Hp & Hd & Hmc & Ha & Hum & Hda & Hau) Hk Ht.
  pose proof (lookup_lt_Some _ _ _ Hk) as Hlt. pose proof (length_asked (S m)) as Hlen.
  pose proof (drop_stream d). pose proof (drop_frames d). pose proof length_requests. unfold kWindow in *.
  apply (wp_at_client ch); [done|].
  pose proof (client_event_spec fuel (asked m) _
    (mkMachine (call_state calls msgs (S m) d) (drop d rs) (length (drop (down s) replies)))
    (drop (down s) replies) (length replies) ch (Calls k t) (client_conn s) Hm) as Hspec.
  cbn [table on_the_way togo] in Hspec. unfold event_sent in Hspec. cbn [table request_id_ call_state] in Hspec.
  rewrite <-asked_S in Hspec by done. eapply wp_mono.
  { apply Hspec; try done; try lia; [|simpl; lia|unfold kWindow; lia].
    cbn [machine_step table on_the_way togo]. by rewrite called_state by done. }
  intros x c Hm'. pose proof Hm' as [(pc' & pos & -> & _) _].
  eexists _, d, a. simpl. split_and!; try done; try lia.
  rewrite (asked_S m k), length_app by done. lia.
Qed.

(** What is on the wires. *)
Lemma server_wire v n :
  srv_inv (drop n requests) v → n ≤ length requests →
  ∃ a, a ≤ length calls ∧ srv_wire V v `prefix_of` response_stream (take a rs) ∧ length (asked a) ≤ n.
Proof.
  intros Hinv Hn. apply law_wire in Hinv as (a & Ha & Hw & Hle). rewrite length_numbered in Ha.
  rewrite length_drop in Hle. exists a. split_and!; [done| |unfold asked; lia].
  unfold response_stream. by rewrite fmap_take.
Qed.

Lemma client_wire m mach future stop x c :
  client_matches (Message := Message) fuel (asked m) mach future stop x c → wire c `prefix_of` asked m.
Proof.
  intros [(pc & pos & _ & Hl & _) _]. destruct (live_sender _ _ _ Hl) as (_ & _ & _ & Hw).
  by exists (unsent c).
Qed.

Lemma response_take a : response_stream (take a rs) `prefix_of` replies.
Proof.
  exists (response_stream (drop a rs)). unfold response_stream.
  by rewrite <-concat_app, <-fmap_app, take_drop.
Qed.

Lemma inv_client_event m s e n :
  sys_inv m s → event_bytes e = take n (drop (down s) (srv_wire V (server s))) → event_ok fuel e →
  wp (at_client fuel (Net e)) (λ _ s', sys_inv m s') (carry_down (length (event_bytes e)) s).
Proof.
  intros (ch & d & a & Hch & Hm & Hp & Hd & Hmc & Ha & Hum & Hda & Hau) Hb He.
  pose proof (length_asked m) as Hlm. pose proof (drop_stream d). pose proof (drop_frames d).
  pose proof length_requests. unfold kWindow in *.
  destruct (server_wire _ _ Hp ltac:(lia)) as (a' & Ha' & Hw' & Hau').
  set (b := event_bytes e) in *. set (down' := down s + length b).
  assert (drop (down s) replies = b ++ drop down' replies) as Hdrop.
  { apply (carried (srv_wire V (server s)) replies b _ n); [|done]. etrans; [done|apply response_take]. }
  assert (∃ a1, a1 ≤ length calls ∧ down' ≤ length (response_stream (take a1 rs)) ∧
    length (asked a1) ≤ up s) as (a1 & Ha1 & Hda1 & Hau1).
  { destruct (decide (b = [])) as [Hnil|Hne].
    - exists a. unfold down'. rewrite Hnil. simpl. by rewrite Nat.add_0_r.
    - exists a'. split_and!; try done. apply prefix_length in Hw'.
      apply (f_equal length) in Hb. rewrite length_take, length_drop in Hb.
      destruct b; [done|]. unfold down'. simpl in *. lia. }
  assert (take (length rs) rs = rs) as Hrs by (by rewrite take_ge).
  destruct (settle_calls name2service_ calls bodies msgs Hbodies Hmsgs (length rs) m d
    (length (drop down' replies)) Hd Hmc) as (d' & Hd' & _ & Hset).
  { intros i Hi _. rewrite Hrs. by apply (caused m a1 (up s)). }
  rewrite Hrs in Hset.
  apply (wp_at_client ch); [done|]. simpl.
  rewrite Hdrop in Hm. change b with (client_event_bytes (Net (Message := Message) e)) in Hm.
  pose proof (client_event_spec fuel (asked m) _
    (mkMachine (call_state calls msgs m d') (drop d' rs) (length (drop down' replies)))
    (drop down' replies) (length replies) ch (Net e) (client_conn s) Hm) as Hspec.
  cbn [table on_the_way togo] in Hspec. unfold event_sent in Hspec. rewrite app_nil_r in Hspec.
  eapply wp_mono.
  { apply Hspec; try done; try lia; [|simpl; lia|unfold kWindow; lia].
    cbn [machine_step table on_the_way togo client_event_bytes]. fold b.
    rewrite length_app. replace (length b + length (drop down' replies) - length b)
      with (length (drop down' replies)) by lia. by rewrite Hset. }
  intros x c Hm'. pose proof Hm' as [(pc' & pos & -> & _) _].
  eexists _, d', a1. simpl. split_and!; try done; lia.
Qed.

Lemma inv_arrive m s n t :
  sys_inv m s → upward n s ≠ [] → event_ok fuel (CanWrite t) →
  wp (at_server (srv_arrive V fuel (upward n s) t)) (λ _ s', sys_inv m s')
    (carry_up (length (upward n s)) s).
Proof.
  intros (ch & d & a & Hch & Hm & Hp & Hd & Hmc & Ha & Hum & Hda & Hau) Hb Ht.
  pose proof (length_asked m) as Hlm.
  pose proof (client_wire _ _ _ _ _ _ Hm) as Hw. pose proof (prefix_length _ _ Hw) as Hwl.
  set (b := upward n s) in *. set (up' := up s + length b).
  assert (drop (up s) requests = b ++ drop up' requests) as Hdrop.
  { apply (carried (wire (client_conn s)) requests b _ n); [|done]. etrans; [done|apply asked_prefix]. }
  assert (length b = min n (length (wire (client_conn s)) - up s)) as Hlb
    by (unfold b, upward; by rewrite length_take, length_drop).
  apply wp_at_server. simpl. rewrite Hdrop in Hp. eapply wp_mono; [by apply law_arrive|].
  intros [] v Hp'. exists ch, d, a. simpl. split_and!; try done; unfold up'; lia.
Qed.

Lemma inv_server_event m s e :
  sys_inv m s → srv_calm V fuel e → wp (at_server (srv_on V fuel e)) (λ _ s', sys_inv m s') s.
Proof.
  intros (ch & d & a & Hch & Hm & Hp & Hrest) He. apply wp_at_server.
  eapply wp_mono; [by apply law_on|]. intros [] v Hp'. by exists ch, d, a.
Qed.

Lemma carry_down_0 (s : System) : carry_down 0 s = s.
Proof. destruct s. unfold carry_down. simpl. by rewrite Nat.add_0_r. Qed.

Lemma arrives_ok b t :
  b ≠ [] → event_ok fuel (CanWrite t) → event_ok fuel (Arrives [RdBytes b] t).
Proof. intros Hb (Ht & Hft & _). split_and!; [done|done|by repeat constructor|simpl; lia]. Qed.

(** Any action keeps the invariant; a call counts. *)
Lemma inv_act m s a :
  sys_inv m s → action_ok fuel a →
  match a with MakeCall k _ => calls !! m = Some k | _ => True end →
  wp (act fuel a) (λ _ s', sys_inv (m + length (calls_made [a])) s') s.
Proof.
  intros Hinv Hok Hcall.
  destruct a as [k t|n t|n t|t|e]; cbn [act action_ok] in *; simpl length; rewrite ?Nat.add_0_r, ?Nat.add_1_r.
  - by apply inv_call.
  - apply wp_bind, wp_gets. case_decide as Hb; [by apply wp_ret|]. apply wp_bind, wp_modify.
    by apply inv_arrive.
  - apply wp_bind, wp_gets. case_decide as Hb; [by apply wp_ret|]. apply wp_bind, wp_modify.
    pose proof (inv_client_event m s (Arrives [RdBytes (downward n s)] t) n Hinv) as Hev.
    cbn [event_bytes] in Hev. unfold rx_bytes in Hev. simpl in Hev. rewrite app_nil_r in Hev.
    apply Hev; [done|by apply arrives_ok].
  - pose proof (inv_client_event m s (CanWrite t) 0 Hinv) as Hev. simpl in Hev.
    rewrite carry_down_0 in Hev. by apply Hev.
  - by apply inv_server_event.
Qed.

Lemma inv_acts l m s rest :
  sys_inv m s → Forall (action_ok fuel) l → drop m calls = calls_made l ++ rest →
  wp (acts fuel l) (λ _ s', sys_inv (m + length (calls_made l)) s') s.
Proof.
  revert m s. induction l as [|a l IH]; intros m s Hinv Hok Hcalls.
  { apply wp_ret. simpl. by rewrite Nat.add_0_r. }
  apply Forall_cons in Hok as [Ha Hok].
  assert (calls_made (a :: l) = calls_made [a] ++ calls_made l) as Hcons
    by (unfold calls_made; csimpl; by rewrite app_nil_r).
  rewrite Hcons, <-app_assoc in Hcalls. cbn [acts]. apply wp_bind. eapply wp_mono.
  { apply inv_act; [done|done|]. destruct a as [k t| | | |]; try done. simpl in Hcalls.
    rewrite <-(Nat.add_0_r m), <-lookup_drop, Hcalls. done. }
  intros [] s1 Hinv1. rewrite Hcons, length_app, Nat.add_assoc. apply IH; [done|done|].
  by rewrite <-drop_drop, Hcalls, drop_app_length.
Qed.

Lemma system_starts : ∃ s, system_start (V := V) (Message := Message) fuel = Done s ∧ sys_inv 0 s.
Proof.
  pose proof (client_starts (Message := Message) fuel ltac:(lia)) as Hc.
  apply wp_done in Hc as (x & c & Hrun & -> & Hl & Hin & Hpos & Hrx).
  destruct (law_starts V fuel reqs (response_frame <$> rs)) as (v & Hrun' & Hp).
  unfold system_start. rewrite Hrun, Hrun'. eexists. split; [done|].
  exists channel_new, 0, 0. simpl. rewrite !drop_0. split_and!; try done; try lia.
  by apply client_fresh.
Qed.

(** ** What the invariant says about the calls *)
Lemma sessions_after_dom id l (j : Z) :
  is_Some (sessions_after id l (∅ : gmap Z (Session Message)) !! j) ↔ (id ≤ j < id + length l)%Z.
Proof.
  induction l as [|k l IH] using rev_ind; simpl.
  { rewrite lookup_empty. split; [by intros []|lia]. }
  rewrite sessions_after_snoc, length_app. simpl. destruct (decide (j = id + length l)%Z) as [->|Hne].
  - rewrite lookup_insert_eq. split; [lia|by intros; eexists].
  - rewrite lookup_insert_ne by done. rewrite IH. lia.
Qed.

Lemma length_msgs : length msgs = length calls.
Proof. apply length_mapM in Hmsgs. done. Qed.

Lemma inv_calls m s :
  sys_inv m s →
  ∃ ch d, client s = Suspended ch ∧ d ≤ m ∧
    completed ch = take d (zip (call_session <$> calls) msgs) ∧
    (∀ id, is_Some (id2session_ ch !! id) ↔ (d ≤ id < m)%Z) ∧
    up s ≤ length (asked m) ∧ down s ≤ length replies ∧
    (m = length calls → down s = length replies → d = m).
Proof.
  intros (ch & d & a & Hch & Hm & Hp & Hd & Hmc & Ha & Hum & Hda & Hau).
  pose proof (prefix_length _ _ (response_take a)) as Hra.
  destruct Hm as [(pc' & pos & [= ->] & Hl & Hrx & _ & Hpt & Hneed & _) _].
  exists (goto pc' (call_state calls msgs m d)), d. split_and!; try done; try lia.
  - simpl. rewrite zip_with_take, fmap_take. done.
  - intros id. simpl. rewrite sessions_after_dom, length_drop, length_take. lia.
  - intros Hlen Hall. cbn [on_the_way] in Hpt. rewrite (drop_ge replies), app_nil_r in Hpt by lia.
    destruct (drop d rs) as [|r l] eqn:Hdrop.
    + apply (f_equal length) in Hdrop.
      rewrite length_drop, length_responses, (length_bodies name2service_ calls bodies) in Hdrop by done.
      simpl in Hdrop. lia.
    + destruct Hpt as (todo & Hr & _ & _ & Hin). apply resp_at_need in Hr.
      rewrite (parked_unread _ Hrx) in Hin. rewrite Hin, length_app in Hneed. lia.
Qed.

(** ** Progress *)
Lemma at_client_preserves e :
  preserves (λ s : System, (server s, up s, down s)) (at_client fuel e).
Proof. intros s [] s'. unfold at_client. repeat case_match; intros; by simplify_eq/=. Qed.
Lemma at_server_preserves m :
  preserves (λ s : System, (client s, client_conn s, up s, down s)) (at_server m).
Proof. intros s [] s'. unfold at_server. repeat case_match; intros; by simplify_eq/=. Qed.

Section flush.
Context (w n : nat).
Hypothesis Hw : (kWindow ≤ w)%Z.
Hypothesis Hn : length requests ≤ n ∧ length replies ≤ n.
Abbreviation t := [WrAccept w].

Lemma takes_all_ok : event_ok fuel (CanWrite t).
Proof. split_and!; [|simpl; lia|done]. simpl. by rewrite bool_decide_eq_true_2. Qed.

Lemma live_flushes out c :
  live fuel out c → (length out ≤ kWindow)%Z → length out + 3 < fuel →
  wp (resume_write fuel) (λ _ c', unsent c' = []) (set_tx t c).
Proof.
  intros Hl Hwin Hf. destruct (live_sender _ _ _ Hl) as (Ho & Hcl & Hset & Hout).
  apply (resume_flushes fuel out w); simpl; try done. by apply settled_open.
Qed.

(** The client writes everything it has. *)
Lemma flush_client m s :
  sys_inv m s →
  wp (act fuel (ClientWritable t)) (λ _ s', sys_inv m s' ∧
    wire (client_conn s') = asked m ∧ up s' = up s ∧ down s' = down s) s.
Proof.
  intros Hinv. pose proof (length_asked m) as Hlm. unfold kWindow in *.
  pose proof (inv_act m s (ClientWritable t) Hinv takes_all_ok I) as Hkeep. simpl in Hkeep. rewrite Nat.add_0_r in Hkeep.
  assert (wp (act fuel (ClientWritable t)) (λ _ s', unsent (client_conn s') = []) s) as Hall.
  { destruct Hinv as (ch & d & a & Hch & [(? & ? & _ & Hl & _) _] & _).
    apply (wp_at_client ch); [done|]. simpl. apply wp_bind, wp_modify, wp_bind. eapply wp_mono.
    { apply (live_flushes (asked m)); [done|unfold kWindow; lia|lia]. }
    intros [] c Hu. by apply wp_ret. }
  pose proof (wp_and _ _ _ _ Hkeep Hall) as Hboth.
  apply (wp_follows _ _ _ _ (at_client_preserves (Net (CanWrite t)))) in Hboth.
  eapply wp_mono; [exact Hboth|]. intros [] s' [[Hinv' Hu] [= _ -> ->]]. split_and!; try done.
  destruct Hinv' as (ch & d & a & Hch & [(? & ? & _ & Hl & _) _] & _).
  destruct (live_sender _ _ _ Hl) as (_ & _ & _ & Hout). by rewrite Hu, app_nil_r in Hout.
Qed.

Lemma asked_all : asked (length calls) = requests.
Proof. unfold asked. by rewrite take_ge by (rewrite length_numbered; lia). Qed.

(** The network carries everything to the server. *)
Lemma flush_up s :
  sys_inv (length calls) s → wire (client_conn s) = requests →
  wp (act fuel (ToServer n t)) (λ _ s', sys_inv (length calls) s' ∧ up s' = length requests) s.
Proof.
  intros Hinv Hwire. pose proof Hinv as (_ & _ & _ & _ & _ & _ & _ & _ & _ & Hum & _).
  rewrite asked_all in Hum.
  assert (upward n s = drop (up s) requests) as Hup'.
  { unfold upward. rewrite Hwire, take_ge; [done|]. rewrite length_drop. lia. }
  assert (length (upward n s) = length requests - up s) as Hlen by (by rewrite Hup', length_drop).
  cbn [act]. apply wp_bind, wp_gets. case_decide as Hnil.
  - rewrite Hnil in Hlen. simpl in Hlen. apply wp_ret. split; [done|lia].
  - apply wp_bind, wp_modify. pose proof (inv_arrive _ s n t Hinv Hnil takes_all_ok) as Hev.
    apply (wp_follows _ _ _ _ (at_server_preserves _)) in Hev. eapply wp_mono; [exact Hev|].
    intros [] s' [Hinv' [= _ _ -> _]]. split; [done|lia].
Qed.

(** The server gets its responses out. *)
Lemma flush_server s :
  sys_inv (length calls) s → up s = length requests →
  ∃ es, Forall (srv_calm V fuel) es ∧
    wp (acts fuel (AtServer <$> es)) (λ _ s', sys_inv (length calls) s' ∧
      srv_wire V (server s') = replies) s.
Proof.
  intros Hinv Hall. pose proof Hinv as (ch & d & a & Hch & Hm & Hp & Hrest).
  rewrite drop_ge in Hp by lia. destruct (law_flush _ Hp) as (es & Hes & Hrun). exists es. split; [done|].
  assert (∀ v, wp (srv_ons V fuel es) (λ _ v', srv_inv [] v' ∧ srv_wire V v' = replies) v →
    wp (acts fuel (AtServer <$> es)) (λ _ s', ∃ v', s' = mkSystem (client s) (client_conn s) v' (up s) (down s) ∧
      srv_inv [] v' ∧ srv_wire V v' = replies) (mkSystem (client s) (client_conn s) v (up s) (down s))) as Hgo.
  { clear Hrun Hp Hes. induction es as [|e es IH]; intros v Hev; [apply wp_ret; by exists v|].
    cbn [fmap list_fmap acts act]. apply wp_bind, wp_at_server. cbn [srv_ons] in Hev.
    apply wp_bind_inv in Hev. eapply wp_mono; [exact Hev|]. intros [] v' Hv'. by apply IH. }
  specialize (Hgo (server s) Hrun). destruct s as [cl cc v u dn]. simpl in *.
  eapply wp_mono; [exact Hgo|]. intros [] s' (v' & -> & Hp' & Hw'). split; [|done].
  exists ch, d, a. simpl. rewrite (drop_ge requests) by lia. by split_and!; try apply Hrest.
Qed.

(** The network carries everything to the client. *)
Lemma flush_down s :
  sys_inv (length calls) s → srv_wire V (server s) = replies →
  wp (act fuel (ToClient n t)) (λ _ s', sys_inv (length calls) s' ∧
    down s' = length replies) s.
Proof.
  intros Hinv Hwire. pose proof Hinv as (_ & _ & a & _ & _ & _ & _ & _ & _ & _ & Hda & _).
  pose proof (prefix_length _ _ (response_take a)) as Hra.
  assert (downward n s = drop (down s) replies) as Hdown'.
  { unfold downward. rewrite Hwire, take_ge; [done|]. rewrite length_drop. lia. }
  pose proof (inv_client_event _ s (Arrives [RdBytes (downward n s)] t) n Hinv) as Hev.
  cbn [event_bytes] in Hev. unfold rx_bytes in Hev. simpl in Hev. rewrite app_nil_r in Hev.
  cbn [act]. apply wp_bind, wp_gets.
  assert (length (downward n s) = length replies - down s) as Hlen by (by rewrite Hdown', length_drop).
  case_decide as Hnil.
  - rewrite Hnil in Hlen. simpl in Hlen. apply wp_ret. split; [done|lia].
  - apply wp_bind, wp_modify.
    specialize (Hev eq_refl (arrives_ok _ _ Hnil takes_all_ok)).
    apply (wp_follows _ _ _ _ (at_client_preserves _)) in Hev. eapply wp_mono; [exact Hev|].
    intros [] s' [Hinv' [= _ _ ->]]. split; [done|lia].
Qed.

(** These moves, when every call has been made, complete them all. *)
Lemma flush_completes s :
  sys_inv (length calls) s →
  ∃ l, Forall (action_ok fuel) l ∧ calls_made l = [] ∧
    wp (acts fuel l) (λ _ s', sys_inv (length calls) s' ∧ down s' = length replies) s.
Proof.
  intros Hinv. pose proof (flush_client _ _ Hinv) as H1.
  apply wp_done in H1 as ([] & s1 & Hrun1 & Hinv1 & Hw1 & _). rewrite asked_all in Hw1.
  pose proof (flush_up _ Hinv1 Hw1) as H2. apply wp_done in H2 as ([] & s2 & Hrun2 & Hinv2 & Hup2).
  destruct (flush_server _ Hinv2 Hup2) as (es & Hes & Hgo).
  exists ([ClientWritable t; ToServer n t] ++ (AtServer <$> es) ++ [ToClient n t]). split_and!.
  - apply Forall_app. split; [repeat constructor; apply takes_all_ok|].
    apply Forall_app. split; [by apply Forall_fmap|constructor; [apply takes_all_ok|constructor]].
  - unfold calls_made. rewrite !fmap_app, !concat_app. simpl. rewrite app_nil_r. clear.
    induction es as [|e es IH]; [done|]. simpl. exact IH.
  - apply wp_acts_app. cbn [acts].
    unfold wp at 1. rewrite (bind_done _ _ _ _ _ Hrun1), (bind_done _ _ _ _ _ Hrun2). simpl.
    apply wp_acts_app. eapply wp_mono; [exact Hgo|]. intros [] s3 [Hinv3 Hw3]. cbn [acts]. apply wp_bind.
    eapply wp_mono; [by apply flush_down|]. intros [] s4 Hend. by apply wp_ret.
Qed.
End flush.
End invariant.

(** ** Runs *)
Lemma system_runs `{ProtobufLaws} {Message : Type} (name2service_ : gmap string Service)
    (fuel : nat) (V : ServerSide) (l : list (action V Message)) (bodies : list (list cell))
    (msgs : list Message) :
  let calls := calls_made l in
  let requests := request_stream (numbered 0 calls) in
  let replies := response_stream (responses 0 bodies) in
  ServerLaws V fuel (numbered 0 calls) (response_frame <$> responses 0 bodies) →
  mapM (call_body name2service_) calls = Some bodies →
  mapM (call_result name2service_) calls = Some msgs →
  arranged 0 (responses 0 bodies) →
  (length requests ≤ kWindow)%Z → (length replies ≤ kWindow)%Z →
  length requests + 10 < fuel → length replies + 10 < fuel → 4 * length calls + 4 < fuel →
  Forall (action_ok fuel) l →
  ∃ s0, system_start (V := V) (Message := Message) fuel = Done s0 ∧
    (∀ l1 l2, l = l1 ++ l2 →
       wp (acts fuel l1) (λ _ s, ∃ ch (d : nat), client s = Suspended ch ∧
         completed ch = take d (zip (call_session <$> calls) msgs) ∧
         (∀ id, is_Some (id2session_ ch !! id) ↔ (d ≤ id < length (calls_made l1))%Z) ∧
         (l2 = [] → down s = length replies → d = length calls)) s0) ∧
    ∃ l', Forall (action_ok fuel) l' ∧ calls_made l' = [] ∧
      wp (acts fuel (l ++ l')) (λ _ s, ∃ ch, client s = Suspended ch ∧
        completed ch = zip (call_session <$> calls) msgs ∧ id2session_ ch = ∅) s0.
Proof.
  intros calls requests replies Laws Hb Hm Harr Hup Hdown Hfup Hfdown Hfc Hok.
  destruct (system_starts fuel calls bodies msgs V Harr) as (s0 & Hstart & Hinv0); try done.
  assert (∀ l1 l2, l = l1 ++ l2 → wp (acts fuel l1)
    (λ _ s, sys_inv fuel calls bodies msgs V (length (calls_made l1)) s) s0) as Hrun.
  { intros l1 l2 Hl. change (length (calls_made l1)) with (0 + length (calls_made l1)).
    eapply (inv_acts name2service_ fuel calls bodies msgs Hb Hm V); try done.
    - rewrite Hl in Hok. by apply Forall_app in Hok as [? _].
    - rewrite drop_0. unfold calls. rewrite Hl. unfold calls_made. by rewrite fmap_app, concat_app. }
  exists s0. split_and!; [done| |].
  - intros l1 l2 Hl. eapply wp_mono; [by apply (Hrun l1 l2)|]. intros [] s Hinv.
    apply (inv_calls name2service_ fuel calls bodies msgs Hb V) in Hinv
      as (ch & d & Hch & _ & Hcomp & Htab & _ & _ & Hend); [|done..].
    exists ch, d. split_and!; try done. intros -> Hd. rewrite app_nil_r in Hl. subst l1.
    by apply Hend.
  - assert (∃ w : nat, (kWindow ≤ w)%Z) as [w Hw] by (exists (Z.to_nat kWindow); unfold kWindow; lia).
    pose proof (Hrun l [] (eq_sym (app_nil_r l))) as Hl. apply wp_done in Hl as ([] & s & Hgo & Hinv).
    destruct (flush_completes name2service_ fuel calls bodies msgs Hb Hm V) with
      (w := w) (n := length requests + length replies) (s := s) as (l' & Hok' & Hnone & Hend);
      try done; [unfold requests, replies; lia|].
    exists l'. split_and!; [done..|]. apply wp_acts_app. unfold wp at 1. rewrite Hgo.
    eapply wp_mono; [exact Hend|]. intros [] s' [Hinv' Hall].
    apply (inv_calls name2service_ fuel calls bodies msgs Hb V) in Hinv'
      as (ch & d & Hch & _ & Hcomp & Htab & _ & _ & Hdone); [|done..].
    exists ch. rewrite (Hdone eq_refl Hall) in Hcomp, Htab. split_and!; [done| |].
    + rewrite Hcomp, take_ge; [done|]. rewrite length_zip_with, length_fmap. lia.
    + apply map_empty. intros id. apply eq_None_not_Some. rewrite Htab. lia.
Qed.

(** The two servers of [RpcServer::start]. *)
Lemma system_completes `{ProtobufLaws} {Message : Type} (kind : conn_kind)
    (name2service_ : gmap string Service) (fuel : nat)
    (l : list (action (server_side kind name2service_) Message))
    (bodies : list (list cell)) (msgs : list Message) :
  let calls := calls_made l in
  let requests := request_stream (numbered 0 calls) in
  let replies := response_stream (responses 0 bodies) in
  mapM (call_body name2service_) calls = Some bodies →
  mapM (call_result name2service_) calls = Some msgs →
  placed 0 (numbered 0 calls) → arranged 0 (responses 0 bodies) →
  (length requests ≤ kWindow)%Z → (length replies ≤ kWindow)%Z →
  length requests + 10 < fuel → length replies + 10 < fuel → 4 * length calls + 4 < fuel →
  Forall (action_ok fuel) l →
  ∃ s0, system_start fuel = Done s0 ∧
    (∀ l1 l2, l = l1 ++ l2 →
       wp (acts fuel l1) (λ _ s, ∃ ch (d : nat), client s = Suspended ch ∧
         completed ch = take d (zip (call_session <$> calls) msgs) ∧
         (∀ id, is_Some (id2session_ ch !! id) ↔ (d ≤ id < length (calls_made l1))%Z) ∧
         (l2 = [] → down s = length replies → d = length calls)) s0) ∧
    ∃ l', Forall (action_ok fuel) l' ∧ calls_made l' = [] ∧
      wp (acts fuel (l ++ l')) (λ _ s, ∃ ch, client s = Suspended ch ∧
        completed ch = zip (call_session <$> calls) msgs ∧ id2session_ ch = ∅) s0.
Proof.
  intros calls requests replies Hb Hm Hplaced Harr Hup Hdown Hfup Hfdown Hfc Hok.
  apply (system_runs name2service_); try done. unfold requests, replies, calls in *.
  unfold kWindow in Hup. apply server_side_laws; try done; rewrite ?length_numbered; try lia.
  by apply respond_numbered.
Qed.
