(* ===== verification/Straddle.v ===== *)
(** * Length prefixes that lie in two blocks

    [InputBuffer::fetch_uint32] copies a length prefix that straddles two blocks past
    the variable of its caller.  Where the blocks begin depends only on how many
    bytes came before, so whether it happens is decided by the sizes of the messages.

    Here is what follows for the client: if the prefix of some response straddles,
    the client completes the calls before it and overruns as soon as the prefix is
    there, however the bytes arrive. *)
From stdpp Require Import strings.
From S2P Require Import Prelude Block Segments InputStream OutputStream Streams Conn Connection ConnectionProofs Sender Wire Protocol Receiver PollReceiver Server ServerProofs Client ClientProofs ClientLife EndToEnd System.

(** ** The waiting loop *)
Lemma fetch_straddles `{Buffers C} `{!BuffersLaws C} pos (c : C) :
  input_inv (in_buf c) → at_pos pos c → ¬ fits pos →
  (4 ≤ length (input_contents (in_buf c)) < 2 ^ 64)%Z →
  on_read_buf (InputBuffer_fetch_uint32 (replicate 4 None)) c = Faulted OutOfBounds.
Proof.
  intros Hinv Hpos Hfit Hlen. unfold on_read_buf. rewrite InputBuffer_fetch_straddle; try done.
  apply Z.lt_nge. intros Hav. apply Hfit.
  pose proof (current_avail_aligned (in_buf c) Hinv) as Hal.
  unfold fits. rewrite <-(u64_mod_block pos), <-Hpos, u64_mod_block.
  apply Hal; [|done]. lia.
Qed.

Lemma wait_straddles {pc R} fuel out check (p : pc)
    (fin : M Connection (pc + recv_exit pc R)) k pos c :
  live fuel out c → at_pos pos c → ¬ fits pos → 4 ≤ length (incoming c) →
  (suspended ← wait_bytes fuel check 4;
   if (suspended : bool) then mret (inr (Suspended p)) else
   cut ← gets (cut_off 4);
   if (cut : bool) then fin else
   r ← on_read_buf (InputBuffer_fetch_uint32 (replicate 4 None)); k r) c = Faulted OutOfBounds.
Proof.
  intros Hl Hpos Hfit Hlen. pose proof (wp_wait fuel out check 4 c Hl) as Hw.
  apply wp_done in Hw as (sus & c1 & Hrun & Hl1 & Hs1 & Hr). rewrite (bind_done _ _ _ _ _ Hrun).
  pose proof (good_bounds _ _ _ Hl1) as [_ Hsm]. pose proof (unread_incoming c1) as Hui.
  destruct Hs1 as [Hin1 Hcb1]. destruct sus.
  - destruct Hr as [Hp Hneed]. rewrite (parked_unread _ Hp) in Hin1. poll. rewrite Hin1 in Hneed. lia.
  - apply bind_wp, wp_gets. unfold cut_off. rewrite (good_open _ _ _ Hl1). cbn [andb].
    apply bind_faults. eapply (fetch_straddles pos); [by eapply good_input| |done|lia].
    unfold at_pos in *. by rewrite Hcb1.
Qed.

(** ** The client *)
Section client.
Context `{ProtobufLaws} {Message : Type}.
Implicit Types ch : Channel Message.
Abbreviation resp := (Header * list cell)%type.

(** All of [rs] and then [tail] can be read: the coroutine gets to [tail]. *)
Lemma client_reaches fuel out rs pc pos stream tail ch ch' n c :
  live fuel out c → at_pos pos c → client_point rs pc pos stream → incoming c = stream ++ tail →
  client_at ch = CAtHeaderLen → settle ch rs 0 = Some (ch', []) → client_loops rs pc + 2 < n →
  ∃ n' c', iter n (client_step fuel) (goto pc ch) c = iter (3 + n') (client_step fuel) ch' c' ∧
    client_at ch' = CAtHeaderLen ∧ live fuel out c' ∧ incoming c' = tail ∧
    at_pos (pos + length stream) c'.
Proof.
  revert rs pc pos stream ch c. induction n as [|n IH];
    intros rs pc pos stream ch c Hl Hpos Hpt Hin Hat Hset Hn; [lia|].
  destruct rs as [|r rs].
  { injection Hset as <-. destruct Hpt as [-> ->]. exists (n - 2), c. rewrite <-Hat, goto_at.
    replace (3 + (n - 2)) with (S n) by (simpl in Hn; lia).
    split_and!; try done. by rewrite Z.add_0_r. }
  destruct Hpt as (todo & Hresp & Hsm & Harr & ->). cbn [settle] in Hset.
  rewrite decide_True in Hset by lia. apply bind_Some in Hset as (ch1 & Hdel & Hset).
  pose proof (resp_at_need _ _ _ _ Hresp) as Hneed.
  assert (wp (client_step fuel (goto pc ch)) (client_post fuel out r (goto pc ch) ch1 pos todo c) c) as Hstep.
  { eapply (client_step_spec fuel out r (goto pc ch) ch1 pos todo [] (response_stream rs ++ tail)); try done.
    - rewrite app_nil_r, Hin. by rewrite <-app_assoc.
    - intros _. by rewrite goto_goto, <-Hat, goto_at. }
  apply wp_done in Hstep as ([ch2|[ch2|ch2]] & c2 & Hrun & Hpost); [| |done].
  - rewrite (iter_next _ _ _ _ _ _ Hrun).
    destruct Hpost as (part & Hl2 & Hin2 & Hpos2 & [(pc2 & todo2 & -> & Hresp2 & -> & Hlt)|[-> ->]]);
      rewrite Hin2, <-!app_assoc in Hin; apply app_inv_head in Hin; rewrite length_app.
    + rewrite goto_goto.
      destruct (IH (r :: rs) pc2 (pos + length part)%Z (todo2 ++ response_stream rs) ch c2)
        as (n' & c' & Hgo & Hat' & Hl' & Hin' & Hpos'); try done.
      * exists todo2. split_and!; try done. by rewrite length_app, Nat2Z.inj_add, Z.add_assoc in Harr.
      * by rewrite Hin, app_assoc.
      * cbn [settle]. rewrite decide_True by lia. by rewrite Hdel.
      * simpl in *. lia.
      * exists n', c'. split_and!; try done. rewrite !length_app in *.
        by replace (pos + (length part + length todo2 + length (response_stream rs))%nat)%Z
          with (pos + length part + (length todo2 + length (response_stream rs))%nat)%Z by lia.
    + pose proof (deliver_at _ _ _ Hdel) as Hat1. rewrite Hat in Hat1.
      destruct (IH rs CAtHeaderLen (pos + length todo)%Z (response_stream rs) ch1 c2)
        as (n' & c' & Hgo & Hat' & Hl' & Hin' & Hpos'); try done.
      * by apply client_point_start.
      * simpl in Hn. destruct rs; simpl in *; lia.
      * exists n', c'. rewrite <-(goto_at ch1), Hat1. split_and!; try done.
        by rewrite Nat2Z.inj_add, Z.add_assoc.
  - exfalso. destruct Hpost as (_ & _ & [Hin2 _] & Hrx2 & Hlen2). cbn [client_at goto] in Hlen2.
    rewrite <-Hin2 in Hin. rewrite (parked_unread c2) in Hin by done. rewrite Hin, !length_app in Hlen2. lia.
Qed.

Lemma machine_run_suffix (s : machine (Message := Message)) es s' :
  machine_run s es = Some s' → on_the_way s' `suffix_of` on_the_way s.
Proof.
  revert s. induction es as [|e es IH]; intros s Hrun; [by injection Hrun as <-|].
  apply bind_Some in Hrun as (s1 & Hstep & Hrun). apply machine_step_next in Hstep as [Hsuf _].
  etrans; [by apply IH|done].
Qed.

(** A header and the length of a body, of which the length prefixes do not both lie
    within blocks. *)
Lemma client_prefix_straddles fuel n out ch h pos tail c :
  live fuel out c → at_pos pos c → client_at ch = CAtHeaderLen → header_ok h →
  (length (header_encode h) < 2 ^ 31)%Z → ¬ (fits pos ∧ fits (pos + 4 + length (header_encode h))) →
  incoming c = u32_bytes (length (header_encode h)) ++ header_encode h ++ tail → 4 ≤ length tail →
  iter (3 + n) (client_step fuel) ch c = Faulted OutOfBounds.
Proof.
  intros Hl Hpos Hat Hok Hsm Hfit Hin Htail.
  assert (4 + length (header_encode h) + 4 ≤ length (incoming c)) as Hlen
    by (rewrite Hin, !length_app; simpl; lia).
  destruct (decide (fits pos)) as [Hfit1|Hfit1]; cycle 1.
  { apply iter_faults. unfold client_step. rewrite Hat.
    apply (wait_straddles fuel out _ _ _ _ pos); [done..|lia]. }
  assert (wp (client_step fuel ch) (λ x c', x = inl (goto (CAtHeader (length (header_encode h))) ch) ∧
    live fuel out c' ∧ incoming c' = header_encode h ++ tail ∧ at_pos (pos + 4) c') c) as H1.
  { unfold client_step. rewrite Hat. eapply (wp_wait_fetch fuel out true _ _ _ pos []); [done|done|done| | |].
    - by rewrite app_nil_r.
    - intros c' Hl' [Hin' _] Hp Hs. rewrite <-Hin', (parked_unread c' Hp) in Hlen. poll. lia.
    - intros c1 Hl1 Hin1 Hpos1. cbn [fst snd]. rewrite u32_length_bytes by done. apply wp_ret.
      rewrite Hin in Hin1. apply app_inv_head in Hin1. by split_and!. }
  apply wp_done in H1 as (x & c1 & Hrun1 & -> & Hl1 & Hin1 & Hpos1).
  change (3 + n) with (S (S (S n))). rewrite (iter_next _ _ _ _ _ _ Hrun1).
  assert (wp (client_step fuel (goto (CAtHeader (length (header_encode h))) ch)) (λ x c',
    x = inl (goto (CAtResponseLen h) ch) ∧ live fuel out c' ∧ incoming c' = tail ∧
    at_pos (pos + 4 + length (header_encode h)) c') c1) as H2.
  { cbn [client_step client_at goto].
    eapply (wp_wait_parse fuel out true _ _ _ (pos + 4) []); try done; [|by apply header_roundtrip|..].
    - by rewrite app_nil_r.
    - intros c' Hl' [Hin' _] Hp Hs.
      assert (length (header_encode h) ≤ length (incoming c1)) as Hlen1 by (rewrite Hin1, length_app; lia).
      rewrite <-Hin', (parked_unread c' Hp) in Hlen1. poll. lia.
    - intros c2 Hl2 Hin2 Hpos2. apply wp_ret. rewrite Hin1 in Hin2. apply app_inv_head in Hin2. by split_and!. }
  apply wp_done in H2 as (x & c2 & Hrun2 & -> & Hl2 & Hin2 & Hpos2).
  rewrite (iter_next _ _ _ _ _ _ Hrun2). apply iter_faults. cbn [client_step client_at goto].
  apply (wait_straddles fuel out _ _ _ _ (pos + 4 + length (header_encode h))); try done; [naive_solver|].
  by rewrite Hin2.
Qed.

(** A prefix of the response after [rs] straddles. *)
Lemma client_straddles fuel rs future h tail' es s ch' r t more :
  let total := length (response_stream rs) in
  let sent := response_stream (numbered 0 (calls_of es)) in
  let tail := u32_bytes (length (header_encode h)) ++ header_encode h ++ tail' in
  header_ok h → (length (header_encode h) < 2 ^ 31)%Z →
  arranged 0 rs → ¬ (fits total ∧ fits (total + 4 + length (header_encode h))) → concat (client_event_bytes <$> es) ++ future = response_stream rs →
  machine_run (machine_new rs) es = Some s → settle (table s) (on_the_way s) 0 = Some (ch', []) →
  Forall (client_event_ok fuel) es → event_ok fuel (Arrives r t) →
  rx_bytes r = future ++ tail → 4 ≤ length tail' →
  (total + length tail < 2 ^ 31 - 1)%Z → total + length tail + 10 < fuel → 4 * length rs + 4 < fuel →
  (length (calls_of es) < 2 ^ 63)%Z → (length sent ≤ kWindow)%Z → length sent + 3 < fuel →
  client_life fuel (es ++ Net (Arrives r t) :: more) (Connection_new [] []) = Faulted OutOfBounds.
Proof.
  intros total sent tail Hh Hhs Harr Hfit Hb Hrun Hset Hok Hev Hr Htail Hsm Hf Hfr Hmax Hwin Hfw.
  pose proof (client_life_spec fuel rs future es s Harr Hb Hrun Hok) as Hlife.
  fold total sent in Hlife. specialize (Hlife ltac:(lia) ltac:(lia) Hfr Hmax Hwin Hfw).
  apply wp_done in Hlife
    as (x & c & Hgo & (pc & pos & -> & Hl & Hrx & Hpos & Hpt & Hneed & Hstop) & _ & Hat & _).
  pose proof (client_point_length _ _ _ _ Hpt) as Hlen. rewrite length_app in Hlen.
  destruct (machine_run_suffix _ _ _ Hrun) as [more' Hsuf]. simpl in Hsuf.
  assert (length (response_stream (on_the_way s)) ≤ total) as Hle
    by (apply response_stream_suffix; by exists more').
  rewrite (client_life_app _ _ _ _ _ _ Hgo). cbn [client_on_events]. apply bind_faults.
  cbn [client_on_event]. apply bind_wp, wp_modify.
  destruct (live_arrives fuel sent r t c) as [Hl' Hin']; try done;
    [rewrite Hr, !length_app; lia..|]. rewrite Hr, app_assoc in Hin'.
  destruct (client_reaches fuel sent (on_the_way s) pc pos (incoming c ++ future) tail (table s) ch' fuel
    (set_rx (rx c ++ r) (set_tx t c))) as (n & c' & Hiter & Hat' & Hl2 & Hin2 & Hpos2); try done.
  { apply (f_equal length) in Hsuf. rewrite length_app in Hsuf.
    assert (client_left pc ≤ 3) by (destruct pc; simpl; lia).
    destruct (on_the_way s); simpl in *; lia. }
  rewrite Hstop in Hpos2. unfold client_run. rewrite Hiter.
  by apply (client_prefix_straddles fuel n sent ch' h total tail').
Qed.
End client.

(** ** Responses come after their requests *)
Section causal.
Context `{ProtobufLaws} {Message : Type} (name2service_ : gmap string Service).
Context (calls : list (Call Message)) (bodies : list (list cell)) (msgs : list Message).
Hypothesis Hbodies : mapM (call_body name2service_) calls = Some bodies.
Hypothesis Hmsgs : mapM (call_result name2service_) calls = Some msgs.
Abbreviation rs := (responses 0 bodies).
Abbreviation bytes_of es := (concat (client_event_bytes <$> es)).
Implicit Types es : list (client_event Message).

(** At any time only responses to calls that have been made have arrived. *)
Definition causal es : Prop :=
  ∀ es1 es2, es = es1 ++ es2 →
    length (bytes_of es1) ≤ length (response_stream (take (length (calls_of es1)) rs)).

Lemma bytes_of_app es1 es2 : bytes_of (es1 ++ es2) = bytes_of es1 ++ bytes_of es2.
Proof. by rewrite fmap_app, concat_app. Qed.
Lemma calls_of_app es1 es2 : calls_of (es1 ++ es2) = calls_of es1 ++ calls_of es2.
Proof. unfold calls_of. by rewrite fmap_app, concat_app. Qed.

Lemma machine_run_app es1 es2 s :
  machine_run s (es1 ++ es2) = (s' ← machine_run s es1; machine_run s' es2).
Proof.
  revert s. induction es1 as [|e es1 IH]; intros s; [done|]. simpl.
  destruct (machine_step s e); simpl; [apply IH|done].
Qed.

Lemma length_stream_split (l : list (Header * list cell)) i :
  length (response_stream l) = length (response_stream (take i l)) + length (response_stream (drop i l)).
Proof.
  rewrite <-(take_drop i l) at 1. unfold response_stream. by rewrite fmap_app, concat_app, length_app.
Qed.

(** So far has the table got. *)
Lemma causal_run j es :
  calls_of es `prefix_of` calls → causal es →
  length (bytes_of es) ≤ length (response_stream (take j rs)) →
  ∃ d, d ≤ length (calls_of es) ∧ d ≤ j ∧
    machine_run (machine_new (take j rs)) es =
      Some (mkMachine (call_state calls msgs (length (calls_of es)) d) (drop d (take j rs))
        (length (response_stream (take j rs)) - length (bytes_of es))).
Proof.
  induction es as [|e es IH] using rev_ind; intros Hpre Hca Hle.
  { exists 0. split_and!; [done|lia|]. simpl. by rewrite Nat.sub_0_r. }
  rewrite bytes_of_app, length_app in *. rewrite calls_of_app in *.
  destruct IH as (d & Hd & Hdj & Hrun); [by eapply prefix_app_l| |lia|].
  { intros es1 es2 ->. apply (Hca es1 (es2 ++ [e])). by rewrite app_assoc. }
  rewrite length_app, machine_run_app, Hrun. cbn [mbind option_bind machine_run].
  pose proof (prefix_length _ _ Hpre) as Hpl. rewrite length_app in Hpl.
  destruct e as [k t|e].
  - change (calls_of [Calls k t]) with [k] in *. change (bytes_of [Calls k t]) with ([] : list cell) in *.
    exists d. cbn [length]. split_and!; [lia|done|].
    cbn [machine_step table on_the_way togo mbind option_bind client_event_bytes].
    destruct Hpre as [more Hpre].
    rewrite (called_state calls msgs _ d k); [|rewrite Hpre, <-app_assoc; by apply list_lookup_middle|done].
    by rewrite !Nat.add_1_r, Nat.add_0_r.
  - change (calls_of [Net e]) with ([] : list (Call Message)) in *.
    assert (bytes_of [Net (Message := Message) e] = event_bytes e) as Hb by apply app_nil_r.
    rewrite Hb in *. rewrite !Nat.add_0_r in *. cbn [machine_step table on_the_way togo].
    set (n := length (response_stream (take j rs)) - length (bytes_of es) - length (event_bytes e)).
    destruct (settle_calls name2service_ calls bodies msgs Hbodies Hmsgs j (length (calls_of es)) d n)
      as (d' & Hd' & Hj' & Hset); [done|lia| |].
    + intros i Hi Hj Hn. pose proof (Hca (es ++ [Net e]) [] (eq_sym (app_nil_r _))) as Hle'.
      rewrite bytes_of_app, calls_of_app, Hb, !length_app, Nat.add_0_r in Hle'.
      pose proof (length_stream_split (take j rs) (S i)) as Hsplit.
      rewrite take_take, Nat.min_l in Hsplit by lia.
      assert (S i ≤ length (calls_of es)) as Hgoal; [|lia].
      apply (concat_take_le (response_frame <$> rs)); [apply frames_nonempty| |].
      * rewrite length_fmap, length_responses, (length_bodies name2service_ calls bodies) by done. lia.
      * rewrite <-!fmap_take. unfold response_stream in *. lia.
    + rewrite Hset. exists d'. split_and!; [lia|by apply Hj'|]. cbn [mbind option_bind].
      by replace (length (response_stream (take j rs)) - (length (bytes_of es) + length (event_bytes e))) with n by lia.
Qed.

Lemma settle_empties (ch : Channel Message) l ch' l' : settle ch l 0 = Some (ch', l') → l' = [].
Proof.
  revert ch. induction l as [|r l IH]; intros ch Hset; [by injection Hset as _ <-|].
  cbn [settle] in Hset. rewrite decide_True in Hset by lia.
  apply bind_Some in Hset as (ch1 & _ & Hset). by apply (IH ch1).
Qed.

(** All calls are made before anything arrives. *)
Lemma causal_calls_first es1 es2 :
  bytes_of es1 = [] → length (calls_of es1) = length calls →
  bytes_of es2 `prefix_of` response_stream rs → causal (es1 ++ es2).
Proof.
  intros Hnone Hall Hpre xs1 xs2 Heq. apply app_eq_inv in Heq as [(k & -> & ->)|(k & -> & ->)].
  - rewrite bytes_of_app in Hnone. apply app_nil in Hnone as [-> _]. simpl. lia.
  - rewrite bytes_of_app, calls_of_app, Hnone, take_ge by (rewrite length_app, Hall, length_responses,
      (length_bodies name2service_ calls bodies) by done; lia).
    rewrite bytes_of_app in Hpre. apply prefix_length. by eapply prefix_app_l.
Qed.

(** When the first [j] responses have arrived, the first [j] calls have completed. *)
Lemma client_completes_first j fuel es :
  let before := response_stream (take j rs) in
  let sent := response_stream (numbered 0 (calls_of es)) in
  arranged 0 (take j rs) → j ≤ length calls →
  calls_of es `prefix_of` calls → causal es → bytes_of es = before →
  Forall (client_event_ok fuel) es →
  (length before < 2 ^ 31 - 1)%Z → length before + 10 < fuel → 4 * length calls + 4 < fuel →
  (length calls < 2 ^ 63)%Z → (length sent ≤ kWindow)%Z → length sent + 3 < fuel →
  wp (client_life fuel es) (λ x _, ∃ ch, x = Suspended ch ∧
    completed ch = take j (zip (call_session <$> calls) msgs)) (Connection_new [] []).
Proof.
  intros before sent Harr Hj Hpre Hca Hb Hok Hsm Hf Hfr Hmax Hwin Hfw.
  pose proof (prefix_length _ _ Hpre) as Hcl.
  destruct (causal_run j es Hpre Hca) as (d & Hd & Hdj & Hrun); [by rewrite Hb|].
  eapply wp_mono.
  { eapply (client_life_spec fuel (take j rs) [] es); [done|by rewrite app_nil_r|exact Hrun|done..| |lia|done|done].
    rewrite length_take, length_responses, (length_bodies name2service_ calls bodies) by done. lia. }
  intros x c [Hw _]. pose proof (client_waits_settled _ _ _ _ _ _ _ _ Hw) as Hset.
  destruct Hw as (pc & pos & -> & _). cbn [table on_the_way] in Hset. apply settle_empties in Hset.
  apply (f_equal length) in Hset. rewrite length_drop, length_take, length_responses,
    (length_bodies name2service_ calls bodies) in Hset by done. simpl in Hset.
  assert (d = j) as -> by lia. eexists. split; [done|].
  cbn [goto completed table call_state]. by rewrite zip_with_take, fmap_take.
Qed.

(** A prefix of response [j] straddles: the event that brings both is the last. *)
Lemma client_overruns j h body fuel es r t more :
  let before := length (response_stream (take j rs)) in
  let total := length (response_stream rs) in
  let sent := response_stream (numbered 0 (calls_of es)) in
  rs !! j = Some (h, body) → header_ok h →
  arranged 0 (take j rs) → ¬ (fits before ∧ fits (before + 4 + length (header_encode h))) →
  calls_of es `prefix_of` calls → causal (es ++ [Net (Arrives r t)]) →
  bytes_of es ++ rx_bytes r `prefix_of` response_stream rs →
  length (bytes_of es) ≤ before →
  before + 8 + length (header_encode h) ≤ length (bytes_of es ++ rx_bytes r) →
  Forall (client_event_ok fuel) es → event_ok fuel (Arrives r t) →
  (total < 2 ^ 31 - 1)%Z → total + 10 < fuel → 4 * length calls + 4 < fuel →
  (length calls < 2 ^ 63)%Z → (length sent ≤ kWindow)%Z → length sent + 3 < fuel →
  client_life fuel (es ++ Net (Arrives r t) :: more) (Connection_new [] []) = Faulted OutOfBounds.
Proof.
  intros before total sent Hj Hh Harr Hfit Hpre Hca Hbytes Hle Hge Hok Hev Hsm Hf Hfr Hmax Hwin Hfw.
  pose proof (prefix_length _ _ Hbytes) as Hbl. pose proof (prefix_length _ _ Hpre) as Hcl.
  destruct (causal_run j es Hpre) as (d & Hd & Hdj & Hrun); [|done|].
  { intros es1 es2 ->. apply (Hca es1 (es2 ++ [Net (Arrives r t)])). by rewrite app_assoc. }
  assert (response_stream (take j rs) `prefix_of` response_stream rs) as Hjs.
  { exists (response_stream (drop j rs)). unfold response_stream.
    by rewrite <-concat_app, <-fmap_app, take_drop. }
  destruct (prefix_shorter (bytes_of es) (response_stream (take j rs)) (response_stream rs))
    as [future Hfut]; [by eapply prefix_app_l|done|done|].
  destruct (prefix_shorter (response_stream (take j rs)) (bytes_of es ++ rx_bytes r) (response_stream rs))
    as [tail Htail]; [done|done|unfold before in *; lia|].
  assert (before = length (bytes_of es) + length future) as Hbf
    by (unfold before; by rewrite Hfut, length_app).
  rewrite Hfut, <-app_assoc in Htail. apply app_inv_head in Htail.
  destruct Hbytes as [k Hk]. rewrite <-(take_drop j rs) in Hk. rewrite (drop_S _ _ _ Hj) in Hk.
  unfold response_stream in Hk. rewrite fmap_app, concat_app in Hk.
  fold (response_stream (take j rs)) in Hk. rewrite Hfut, Htail, <-!app_assoc in Hk.
  apply app_inv_head, app_inv_head in Hk. cbn [fmap list_fmap concat] in Hk.
  unfold response_frame at 1, frame in Hk. cbn [fst snd] in Hk. rewrite app_assoc, <-!app_assoc in Hk.
  rewrite Htail, !length_app in Hge, Hbl.
  rewrite (app_assoc (u32_bytes _)) in Hk. symmetry in Hk. apply app_split in Hk as (tail' & -> & _);
    [|rewrite length_app; simpl; lia]. rewrite <-app_assoc in *. rewrite !length_app in Hge, Hbl.
  cbn [length u32_bytes] in Hge, Hbl.
  destruct (settle_calls name2service_ calls bodies msgs Hbodies Hmsgs j (length (calls_of es)) d 0)
    as (d' & Hd' & _ & Hset); [done|done| |].
  { intros i Hi Hij _. pose proof (Hca (es ++ [Net (Arrives r t)]) [] (eq_sym (app_nil_r _))) as Hend.
    rewrite bytes_of_app, calls_of_app, !length_app in Hend. cbn in Hend. rewrite app_nil_r in Hend.
    rewrite Nat.add_0_r, Htail, length_app in Hend.
    assert (i < length (calls_of es)) as Hgoal; [|done].
    apply (concat_take_le (response_frame <$> rs)); [apply frames_nonempty| |].
    - rewrite length_fmap, length_responses, (length_bodies name2service_ calls bodies) by done. lia.
    - rewrite <-!fmap_take. pose proof (length_stream_split (take j rs) (S i)) as Hsplit.
      rewrite take_take, Nat.min_l in Hsplit by lia. unfold before, response_stream in *. lia. }
  rewrite (settle_empties _ _ _ _ Hset) in Hset.
  eapply (client_straddles fuel (take j rs) future h tail' es); try done; fold before;
    rewrite ?length_app; cbn [length u32_bytes]; try lia.
  rewrite length_take, length_responses, (length_bodies name2service_ calls bodies) by done. lia.
Qed.
End causal.
