(* ===== verification/Mpmc.v ===== *)
(** * The multi-producer multi-consumer queue (util/mpmc_queue.h,
    util/mpmc_queue.inl.h)

    An unbounded queue in chunks of [CHUNK_SIZE] slots.  [push] draws a ticket
    from [tail_index_] with a compare-and-swap and stores its value in the slot
    of that ticket; [pop] draws a ticket from [head_index_] and waits for the
    slot to become ready.  Chunks are linked as tickets reach their end and freed
    by the consumers.

    The model is a machine of threads over a shared store.  One step of a thread
    is one access to shared memory, in program order, each [pc] constructor being
    the point before one such access; memory is sequentially consistent.  A weak
    compare-and-swap may fail spuriously, which is the [bool] of [step].
    Locations are never reused, so an access to a freed chunk always is a fault.
    Two history variables, [push_log] and [pop_log], record the tickets: they are
    written when a ticket is drawn and when a value is taken out, and never read.
    *)
From S2P Require Import Prelude.

Definition CHUNK_SIZE : Z := 4096.
Lemma CHUNK_SIZE_val : CHUNK_SIZE = 4096%Z.
Proof. reflexivity. Qed.
#[global] Opaque CHUNK_SIZE.

Abbreviation cloc := positive.
Abbreviation tid := nat.

Section queue.
Context {T : Type}.

(** ** Shared memory *)

(** A slot; [None] is a value that was never stored or has been moved out. *)
Record Slot := mkSlot { value : option T; ready : bool }.

Record Chunk := mkChunk {
  slots : gmap Z Slot;         (** by offset; absent: as constructed *)
  begin_index : Z;
  next : option cloc;
  read_count : Z;
  ref_count : Z;
}.

Definition new_chunk (begin_index : Z) : Chunk := mkChunk ∅ begin_index None 0 0.

Definition slot_at (c : Chunk) (off : Z) : Slot := default (mkSlot None false) (slots c !! off).

Definition set_slot (off : Z) (sl : Slot) (c : Chunk) : Chunk :=
  mkChunk (<[off := sl]> (slots c)) (begin_index c) (next c) (read_count c) (ref_count c).
Definition set_next (p : option cloc) (c : Chunk) : Chunk :=
  mkChunk (slots c) (begin_index c) p (read_count c) (ref_count c).
Definition add_read_count (z : Z) (c : Chunk) : Chunk :=
  mkChunk (slots c) (begin_index c) (next c) (read_count c + z) (ref_count c).
Definition add_ref_count (z : Z) (c : Chunk) : Chunk :=
  mkChunk (slots c) (begin_index c) (next c) (read_count c) (ref_count c + z).

(** ** Threads *)
Inductive pc :=
  | Idle
  (** push(v) *)
  | PushLoadChunk (v : T)
  | PushLoadIndex (v : T) (tail_chunk : cloc)
  | PushCas (v : T) (tail_chunk : cloc) (tail_idx : Z)
  | PushCheck (v : T) (tail_chunk : cloc) (tail_idx : Z)
  | PushNew (v : T) (tail_chunk : cloc) (tail_idx : Z)
  | PushInstall (v : T) (tail_chunk : cloc) (tail_idx : Z) (next_chunk : cloc)
  | PushLink (v : T) (tail_chunk : cloc) (tail_idx : Z) (next_chunk : cloc)
  | PushDiscard (v : T) (tail_chunk : cloc) (tail_idx : Z) (next_chunk : cloc)
  | PushWalk (v : T) (write_chunk : cloc) (write_idx : Z)
  | PushSpin (v : T) (write_chunk : cloc) (write_idx : Z)
  | PushFollow (v : T) (write_chunk : cloc) (write_idx : Z)
  | PushWrite (v : T) (write_chunk : cloc) (write_idx : Z)
  | PushReady (v : T) (write_chunk : cloc) (write_idx : Z)
  | PushDone
  (** pop *)
  | PopLoadChunk
  | PopLoadIndex (head_chunk : cloc)
  | PopEmpty (head_chunk : cloc) (head_idx : Z)
  | PopReadCount (head_chunk : cloc) (head_idx : Z)
  | PopRefCount (head_chunk : cloc) (head_idx : Z)
  | PopHasNext (head_chunk : cloc)
  | PopLoadNext (head_chunk : cloc)
  | PopAdvance (head_chunk : cloc) (next_chunk : option cloc)
  | PopDelete (head_chunk : cloc)
  | PopRef (head_chunk : cloc) (head_idx : Z)
  | PopCas (head_chunk : cloc) (head_idx : Z)
  | PopWalk (head_chunk : cloc) (read_idx : Z) (read_chunk : cloc)
  | PopSpin (head_chunk : cloc) (read_idx : Z) (read_chunk : cloc)
  | PopFollow (head_chunk : cloc) (read_idx : Z) (read_chunk : cloc)
  | PopUnrefEarly (head_chunk : cloc) (read_idx : Z) (read_chunk : cloc)
  | PopWaitReady (head_chunk : cloc) (read_idx : Z) (read_chunk : cloc)
  | PopMove (head_chunk : cloc) (read_idx : Z) (read_chunk : cloc)
  | PopCount (head_chunk : cloc) (read_chunk : cloc) (v : option T)
  | PopUnref (head_chunk : cloc) (read_chunk : cloc) (v : option T)
  | PopDone (result : option (option T)).  (** [None]: returned [false] *)

Record qstate := mkQ {
  chunks : gmap cloc Chunk;    (** the live chunks *)
  next_loc : cloc;             (** the location of the next allocation *)
  head_chunk_ : option cloc;
  head_index_ : Z;             (** [size_t] *)
  tail_chunk_ : option cloc;
  tail_index_ : Z;             (** [size_t] *)
  threads : gmap tid pc;
  push_log : list T;           (** history: the value of each push ticket *)
  pop_log : list (Z * option T); (** history: pop tickets and what they took *)
}.

Definition set_chunks f q := mkQ (f (chunks q)) (next_loc q) (head_chunk_ q) (head_index_ q)
  (tail_chunk_ q) (tail_index_ q) (threads q) (push_log q) (pop_log q).
Definition bump_loc q := mkQ (chunks q) (Pos.succ (next_loc q)) (head_chunk_ q) (head_index_ q)
  (tail_chunk_ q) (tail_index_ q) (threads q) (push_log q) (pop_log q).
Definition set_head_chunk p q := mkQ (chunks q) (next_loc q) p (head_index_ q)
  (tail_chunk_ q) (tail_index_ q) (threads q) (push_log q) (pop_log q).
Definition set_head_index z q := mkQ (chunks q) (next_loc q) (head_chunk_ q) z
  (tail_chunk_ q) (tail_index_ q) (threads q) (push_log q) (pop_log q).
Definition set_tail_chunk p q := mkQ (chunks q) (next_loc q) (head_chunk_ q) (head_index_ q)
  p (tail_index_ q) (threads q) (push_log q) (pop_log q).
Definition set_tail_index z q := mkQ (chunks q) (next_loc q) (head_chunk_ q) (head_index_ q)
  (tail_chunk_ q) z (threads q) (push_log q) (pop_log q).
Definition set_pc t p q := mkQ (chunks q) (next_loc q) (head_chunk_ q) (head_index_ q)
  (tail_chunk_ q) (tail_index_ q) (<[t := p]> (threads q)) (push_log q) (pop_log q).
Definition log_push v q := mkQ (chunks q) (next_loc q) (head_chunk_ q) (head_index_ q)
  (tail_chunk_ q) (tail_index_ q) (threads q) (push_log q ++ [v]) (pop_log q).
Definition log_pop e q := mkQ (chunks q) (next_loc q) (head_chunk_ q) (head_index_ q)
  (tail_chunk_ q) (tail_index_ q) (threads q) (push_log q) (pop_log q ++ [e]).

(** [MPMCQueue::MPMCQueue] *)
Definition queue_new : qstate :=
  mkQ {[ 1%positive := new_chunk 0 ]} 2%positive (Some 1%positive) 0 (Some 1%positive) 0
    ∅ [] [].

(** ** Steps *)

(** [f] applied to the chunk at [p]; accessing a chunk that is not live is a
    fault. *)
Definition with_chunk {A} (q : qstate) (p : cloc) (f : Chunk → outcome A) : outcome A :=
  match chunks q !! p with
  | None => Faulted UseAfterFree
  | Some c => f c
  end.

Definition upd_chunk (p : cloc) (c : Chunk) (q : qstate) : qstate :=
  set_chunks <[p := c]> q.

(** Offset of a ticket in a chunk, an index into [slots]. *)
Definition with_slot {A} (c : Chunk) (idx : Z) (f : Z → outcome A) : outcome A :=
  let off := u64 (idx - begin_index c) in
  if decide (off < CHUNK_SIZE)%Z then f off else Faulted OutOfBounds.

(** Whether the ticket [idx] lies beyond the chunk. *)
Definition beyond (c : Chunk) (idx : Z) : bool :=
  bool_decide (u64 (begin_index c + CHUNK_SIZE) ≤ idx)%Z.

(** Loading a chunk pointer; a null pointer would be dereferenced next. *)
Definition load_ptr (p : option cloc) (f : cloc → outcome qstate) : outcome qstate :=
  match p with Some l => f l | None => Faulted NullDeref end.

Definition step_push (t : tid) (spurious : bool) (q : qstate) (p : pc) : outcome qstate :=
  let goto p := set_pc t p in
  match p with
  | PushLoadChunk v => load_ptr (tail_chunk_ q) (λ tc, Done (goto (PushLoadIndex v tc) q))
  | PushLoadIndex v tc => Done (goto (PushCas v tc (tail_index_ q)) q)
  | PushCas v tc ti =>
      if decide (tail_index_ q = ti ∧ spurious = false)
      then Done (goto (PushCheck v tc ti) (log_push v (set_tail_index (u64 (ti + 1)) q)))
      else Done (goto (PushLoadChunk v) q)
  | PushCheck v tc ti =>
      with_chunk q tc (λ c,
        if beyond c ti then Done (goto (PushNew v tc ti) q)
        else Done (goto (PushWrite v tc ti) q))
  | PushNew v tc ti =>
      with_chunk q tc (λ c,
        let nc := next_loc q in
        Done (goto (PushInstall v tc ti nc)
          (bump_loc (upd_chunk nc (new_chunk (u64 (begin_index c + CHUNK_SIZE))) q))))
  | PushInstall v tc ti nc =>
      if decide (tail_chunk_ q = Some tc)
      then Done (goto (PushLink v tc ti nc) (set_tail_chunk (Some nc) q))
      else Done (goto (PushDiscard v tc ti nc) q)
  | PushLink v tc ti nc =>
      with_chunk q tc (λ c,
        Done (goto (PushWalk v tc ti) (upd_chunk tc (set_next (Some nc) c) q)))
  | PushDiscard v tc ti nc =>
      with_chunk q nc (λ _, Done (goto (PushWalk v tc ti) (set_chunks (delete nc) q)))
  | PushWalk v wc wi =>
      with_chunk q wc (λ c,
        if beyond c wi then Done (goto (PushSpin v wc wi) q)
        else Done (goto (PushWrite v wc wi) q))
  | PushSpin v wc wi =>
      with_chunk q wc (λ c,
        match next c with
        | None => Done q
        | Some _ => Done (goto (PushFollow v wc wi) q)
        end)
  | PushFollow v wc wi =>
      with_chunk q wc (λ c, load_ptr (next c) (λ nx, Done (goto (PushWalk v nx wi) q)))
  | PushWrite v wc wi =>
      with_chunk q wc (λ c, with_slot c wi (λ off,
        Done (goto (PushReady v wc wi)
          (upd_chunk wc (set_slot off (mkSlot (Some v) (ready (slot_at c off))) c) q))))
  | PushReady v wc wi =>
      with_chunk q wc (λ c, with_slot c wi (λ off,
        Done (goto PushDone
          (upd_chunk wc (set_slot off (mkSlot (value (slot_at c off)) true) c) q))))
  | _ => Done q
  end.

Definition step_pop (t : tid) (spurious : bool) (q : qstate) (p : pc) : outcome qstate :=
  let goto p := set_pc t p in
  match p with
  | PopLoadChunk => load_ptr (head_chunk_ q) (λ hc, Done (goto (PopLoadIndex hc) q))
  | PopLoadIndex hc => Done (goto (PopEmpty hc (head_index_ q)) q)
  | PopEmpty hc hi =>
      if decide (hi = tail_index_ q) then Done (goto (PopDone None) q)
      else Done (goto (PopReadCount hc hi) q)
  | PopReadCount hc hi =>
      with_chunk q hc (λ c,
        if decide (read_count c = CHUNK_SIZE) then Done (goto (PopRefCount hc hi) q)
        else Done (goto (PopRef hc hi) q))
  | PopRefCount hc hi =>
      with_chunk q hc (λ c,
        if decide (ref_count c = 0)%Z then Done (goto (PopHasNext hc) q)
        else Done (goto (PopRef hc hi) q))
  | PopHasNext hc =>
      with_chunk q hc (λ c,
        match next c with
        | None => Done (goto PopLoadChunk q)
        | Some _ => Done (goto (PopLoadNext hc) q)
        end)
  | PopLoadNext hc => with_chunk q hc (λ c, Done (goto (PopAdvance hc (next c)) q))
  | PopAdvance hc nx =>
      if decide (head_chunk_ q = Some hc ∧ spurious = false)
      then Done (goto (PopDelete hc) (set_head_chunk nx q))
      else Done (goto PopLoadChunk q)
  | PopDelete hc => with_chunk q hc (λ _, Done (goto PopLoadChunk (set_chunks (delete hc) q)))
  | PopRef hc hi =>
      with_chunk q hc (λ c, Done (goto (PopCas hc hi) (upd_chunk hc (add_ref_count 1 c) q)))
  | PopCas hc hi =>
      if decide (head_index_ q = hi ∧ spurious = false)
      then Done (goto (PopWalk hc hi hc) (set_head_index (u64 (hi + 1)) q))
      else Done (goto PopLoadChunk q)
  | PopWalk hc ri rc =>
      with_chunk q rc (λ c,
        if beyond c ri then Done (goto (PopSpin hc ri rc) q)
        else if decide (rc = hc) then Done (goto (PopWaitReady hc ri rc) q)
        else Done (goto (PopUnrefEarly hc ri rc) q))
  | PopSpin hc ri rc =>
      with_chunk q rc (λ c,
        match next c with
        | None => Done q
        | Some _ => Done (goto (PopFollow hc ri rc) q)
        end)
  | PopFollow hc ri rc =>
      with_chunk q rc (λ c, load_ptr (next c) (λ nx, Done (goto (PopWalk hc ri nx) q)))
  | PopUnrefEarly hc ri rc =>
      with_chunk q hc (λ c,
        Done (goto (PopWaitReady hc ri rc) (upd_chunk hc (add_ref_count (-1) c) q)))
  | PopWaitReady hc ri rc =>
      with_chunk q rc (λ c, with_slot c ri (λ off,
        if ready (slot_at c off) then Done (goto (PopMove hc ri rc) q) else Done q))
  | PopMove hc ri rc =>
      with_chunk q rc (λ c, with_slot c ri (λ off,
        let v := value (slot_at c off) in
        Done (goto (PopCount hc rc v)
          (log_pop (ri, v) (upd_chunk rc (set_slot off (mkSlot None (ready (slot_at c off))) c) q)))))
  | PopCount hc rc v =>
      with_chunk q rc (λ c,
        Done (goto (if decide (rc = hc) then PopUnref hc rc v else PopDone (Some v))
          (upd_chunk rc (add_read_count 1 c) q)))
  | PopUnref hc rc v =>
      with_chunk q hc (λ c,
        Done (goto (PopDone (Some v)) (upd_chunk hc (add_ref_count (-1) c) q)))
  | _ => Done q
  end.

Definition is_push (p : pc) : bool :=
  match p with
  | PushLoadChunk _ | PushLoadIndex _ _ | PushCas _ _ _ | PushCheck _ _ _ | PushNew _ _ _
  | PushInstall _ _ _ _ | PushLink _ _ _ _ | PushDiscard _ _ _ _ | PushWalk _ _ _
  | PushSpin _ _ _ | PushFollow _ _ _ | PushWrite _ _ _ | PushReady _ _ _ | PushDone => true
  | _ => false
  end.

(** One step of thread [t]. *)
Definition step (t : tid) (spurious : bool) (q : qstate) : outcome qstate :=
  let p := default Idle (threads q !! t) in
  if is_push p then step_push t spurious q p else step_pop t spurious q p.

(** A thread that is idle, or whose last call has returned, makes a call. *)
Definition may_call (p : pc) : bool :=
  match p with Idle | PushDone | PopDone _ => true | _ => false end.
Definition call_push (t : tid) (v : T) (q : qstate) : qstate :=
  if may_call (default Idle (threads q !! t)) then set_pc t (PushLoadChunk v) q else q.
Definition call_pop (t : tid) (q : qstate) : qstate :=
  if may_call (default Idle (threads q !! t)) then set_pc t PopLoadChunk q else q.

(** [MPMCQueue::~MPMCQueue], when no thread uses the queue any more: delete the
    chunks from [head_chunk_] on. *)
Fixpoint queue_destroy (fuel : nat) (curr : option cloc) (q : qstate) : outcome qstate :=
  match fuel, curr with
  | _, None => Done q
  | O, Some _ => OutOfFuel
  | S n, Some l => with_chunk q l (λ c, queue_destroy n (next c) (set_chunks (delete l) q))
  end.

(** ** Executions *)
Inductive action :=
  | ACallPush (t : tid) (v : T)
  | ACallPop (t : tid)
  | AStep (t : tid) (spurious : bool).

Definition act (a : action) (q : qstate) : outcome qstate :=
  match a with
  | ACallPush t v => Done (call_push t v q)
  | ACallPop t => Done (call_pop t q)
  | AStep t b => step t b q
  end.

Fixpoint run (acts : list action) (q : qstate) : outcome qstate :=
  match acts with
  | [] => Done q
  | a :: acts => match act a q with
                 | Done q' => run acts q'
                 | Faulted f => Faulted f
                 | OutOfFuel => OutOfFuel
                 end
  end.

(** The states reachable by any interleaving, as long as the [size_t] indices
    have not wrapped around. *)
Inductive reachable : qstate → Prop :=
  | reachable_new : reachable queue_new
  | reachable_act q a q' :
      reachable q → act a q = Done q' →
      (length (push_log q') < 2 ^ 64 - CHUNK_SIZE)%Z → reachable q'.

(** Storing a slot changes that slot only. *)
Lemma slot_at_set c off sl off' :
  slot_at (set_slot off sl c) off' = if decide (off = off') then sl else slot_at c off'.
Proof. unfold slot_at, set_slot. simpl. rewrite lookup_insert. by case_decide. Qed.

End queue.
Arguments qstate T : clear implicits.
Arguments Chunk T : clear implicits.
Arguments pc T : clear implicits.
Arguments action T : clear implicits.
