(* ===== verification/MpmcSafety.v ===== *)
(** * Safety of the queue under every interleaving

    The invariant says, for every reachable state: each ticket below
    [tail_index_] has one value, each slot holds the value of its ticket, and the
    tickets drawn by the consumers are distinct and below [head_index_].  It
    gives that whatever a [pop] returns is the value of its ticket, that no value
    is returned twice, and that [pop] never draws a ticket no [push] has drawn.

    The statements are about executions up to the first access to a freed
    chunk; that such an access can happen is shown in MpmcBugs.v. *)
From S2P Require Import Prelude Mpmc.

Section safety.
Context {T : Type}.
Implicit Types (q : qstate T) (p : pc T) (c : Chunk T) (t : tid).

(** ** Invariant *)

(** The value and ticket a pushing thread has drawn. *)
Definition push_claim p : option (T * Z) :=
  match p with
  | PushCheck v _ i | PushNew v _ i | PushInstall v _ i _ | PushLink v _ i _
  | PushDiscard v _ i _ | PushWalk v _ i | PushSpin v _ i | PushFollow v _ i
  | PushWrite v _ i | PushReady v _ i => Some (v, i)
  | _ => None
  end.

(** The ticket a popping thread has drawn and not used yet. *)
Definition pop_ticket p : option Z :=
  match p with
  | PopWalk _ i _ | PopSpin _ i _ | PopFollow _ i _ | PopUnrefEarly _ i _
  | PopWaitReady _ i _ | PopMove _ i _ => Some i
  | _ => None
  end.

(** The ticket a popping thread is about to try to draw. *)
Definition pop_candidate p : option Z :=
  match p with
  | PopReadCount _ i | PopRefCount _ i | PopRef _ i | PopCas _ i => Some i
  | _ => None
  end.

Definition slot_ok q c (off : Z) : Prop :=
  (∀ v, value (slot_at c off) = Some v →
        push_log q !! Z.to_nat (begin_index c + off) = Some v) ∧
  (ready (slot_at c off) = true →
   is_Some (value (slot_at c off)) ∨ (begin_index c + off)%Z ∈ (pop_log q).*1).

Definition chunk_ok q c : Prop :=
  (0 ≤ begin_index c ≤ tail_index_ q)%Z ∧
  ∀ off, (0 ≤ off < CHUNK_SIZE)%Z → slot_ok q c off.

(** What a thread relies on at its program point. *)
Definition local_ok q p : Prop :=
  match p with
  | PushNew _ l i =>
      (l < next_loc q)%positive ∧
      ∀ c, chunks q !! l = Some c → (begin_index c + CHUNK_SIZE ≤ i)%Z
  | PushReady _ l i =>
      (l < next_loc q)%positive ∧
      ∀ c, chunks q !! l = Some c → (0 ≤ i - begin_index c < CHUNK_SIZE)%Z →
        is_Some (value (slot_at c (i - begin_index c))) ∨ i ∈ (pop_log q).*1
  | PopEmpty _ i => (0 ≤ i ≤ head_index_ q)%Z
  | PopMove _ i l =>
      (l < next_loc q)%positive ∧
      ∀ c, chunks q !! l = Some c → (0 ≤ i - begin_index c < CHUNK_SIZE)%Z →
        ready (slot_at c (i - begin_index c)) = true
  | PopCount _ _ r | PopUnref _ _ r | PopDone (Some r) => ∃ i, (i, r) ∈ pop_log q
  | _ => True
  end.

Record thread_ok q p : Prop := {
  th_push v i : push_claim p = Some (v, i) →
    (0 ≤ i < tail_index_ q)%Z ∧ push_log q !! Z.to_nat i = Some v;
  th_pop i : pop_ticket p = Some i →
    (0 ≤ i < head_index_ q)%Z ∧ i ∉ (pop_log q).*1;
  th_cand i : pop_candidate p = Some i → (0 ≤ i < tail_index_ q)%Z;
  th_local : local_ok q p;
}.

Record queue_inv q : Prop := {
  inv_tail : tail_index_ q = length (push_log q);
  inv_head : (0 ≤ head_index_ q ≤ tail_index_ q)%Z;
  inv_loc l c : chunks q !! l = Some c → (l < next_loc q)%positive;
  inv_chunk l c : chunks q !! l = Some c → chunk_ok q c;
  inv_log_nodup : NoDup (pop_log q).*1;
  inv_log i r : (i, r) ∈ pop_log q →
    (0 ≤ i < head_index_ q)%Z ∧ is_Some r ∧ r = push_log q !! Z.to_nat i;
  inv_thread t p : threads q !! t = Some p → thread_ok q p;
  inv_unique t1 t2 p1 p2 i : threads q !! t1 = Some p1 → threads q !! t2 = Some p2 →
    pop_ticket p1 = Some i → pop_ticket p2 = Some i → t1 = t2;
}.

(** The indices have not come close to wrapping around. *)
Abbreviation no_wrap q := (length (push_log q) < 2 ^ 64 - CHUNK_SIZE)%Z.

Lemma slot_offset q c i :
  queue_inv q → chunk_ok q c → no_wrap q → (0 ≤ i < 2 ^ 64 - CHUNK_SIZE)%Z →
  (u64 (i - begin_index c) < CHUNK_SIZE)%Z →
  (0 ≤ i - begin_index c < CHUNK_SIZE)%Z ∧ u64 (i - begin_index c) = (i - begin_index c)%Z.
Proof.
  intros Hinv [Hb _] Hw Hi Hoff. rewrite (inv_tail _ Hinv) in Hb.
  pose proof CHUNK_SIZE_val. destruct (decide (begin_index c ≤ i)%Z).
  - rewrite u64_small in Hoff |- * by lia. lia.
  - unfold u64 in Hoff. rewrite <-(Z_mod_plus_full _ 1), Z.mod_small in Hoff by lia. lia.
Qed.

(** ** Evolution

    How the store may change under the feet of a thread: everything only grows,
    except that a value may be moved out of its slot, which puts its ticket in
    the log. *)
Record evolves q q' : Prop := {
  ev_push : push_log q `prefix_of` push_log q';
  ev_tail : (tail_index_ q ≤ tail_index_ q')%Z;
  ev_head : (head_index_ q ≤ head_index_ q')%Z;
  ev_loc : (next_loc q ≤ next_loc q')%positive;
  ev_log e : e ∈ pop_log q → e ∈ pop_log q';
  ev_chunk l c' : (l < next_loc q)%positive → chunks q' !! l = Some c' →
    ∃ c, chunks q !! l = Some c ∧ begin_index c' = begin_index c ∧
      ∀ off, (ready (slot_at c off) = true → ready (slot_at c' off) = true) ∧
        (is_Some (value (slot_at c off)) →
         is_Some (value (slot_at c' off)) ∨ (begin_index c + off)%Z ∈ (pop_log q').*1);
}.

Lemma ev_pop q q' i : evolves q q' → i ∈ (pop_log q).*1 → i ∈ (pop_log q').*1.
Proof.
  intros Hev (e & -> & He)%list_elem_of_fmap. apply list_elem_of_fmap_2. by apply (ev_log _ _ Hev).
Qed.

Lemma prefix_lookup_keep (l l' : list T) i v :
  l `prefix_of` l' → l !! i = Some v → l' !! i = Some v.
Proof. intros [k ->] H. by apply lookup_app_l_Some. Qed.

Lemma thread_ok_evolves q q' p :
  evolves q q' → thread_ok q p →
  (∀ i, pop_ticket p = Some i → i ∉ (pop_log q').*1) → thread_ok q' p.
Proof.
  intros Hev [H1 H2 H3 H4] Hnew. pose proof (λ i, ev_pop _ _ i Hev) as Hpop.
  destruct Hev as [Hpush Htail Hhead Hloc Hlog Hch]. split.
  - intros v i Hc. destruct (H1 v i Hc) as [Hi Hv].
    split; [lia|]. by eapply prefix_lookup_keep.
  - intros i Hc. destruct (H2 i Hc) as [Hi _]. split; [lia|]. by apply Hnew.
  - intros i Hc. specialize (H3 i Hc). lia.
  - destruct p; simpl in *; try done; try lia.
    + destruct H4 as [Hl H4]. split; [lia|]. intros c' Hc'.
      destruct (Hch _ _ Hl Hc') as (c & Hc & Hb & _). rewrite Hb. by apply H4.
    + destruct H4 as [Hl H4]. split; [lia|]. intros c' Hc' Hoff.
      destruct (Hch _ _ Hl Hc') as (c & Hc & Hb & Hs). rewrite Hb in Hoff |- *.
      destruct (H4 c Hc Hoff) as [Hv|Hv]; [|by right; apply Hpop].
      destruct (proj2 (Hs _) Hv) as [?|Hin]; [by left|right].
      by replace (begin_index c + (write_idx - begin_index c))%Z with write_idx in Hin by lia.
    + destruct H4 as [Hl H4]. split; [lia|]. intros c' Hc' Hoff.
      destruct (Hch _ _ Hl Hc') as (c & Hc & Hb & Hs). rewrite Hb in Hoff |- *.
      apply (proj1 (Hs _)). by apply H4.
    + naive_solver.
    + naive_solver.
    + destruct result; naive_solver.
Qed.

Lemma chunk_ok_evolves q q' c : evolves q q' → chunk_ok q c → chunk_ok q' c.
Proof.
  intros Hev [Hb Hs]. pose proof (λ i, ev_pop _ _ i Hev) as Hpop.
  destruct Hev as [Hpush Htail _ _ _ _]. split; [lia|].
  intros off Hoff. destruct (Hs off Hoff) as [H1 H2]. split.
  - intros v Hv. eapply prefix_lookup_keep; [done|]. by apply H1.
  - intros Hr. destruct (H2 Hr) as [?|?]; [by left|]. right. by apply Hpop.
Qed.

(** A change of the store alone. *)
Lemma queue_inv_effect q q' :
  queue_inv q → evolves q q' → threads q' = threads q →
  tail_index_ q' = length (push_log q') → (0 ≤ head_index_ q' ≤ tail_index_ q')%Z →
  (∀ l c, chunks q' !! l = Some c → (l < next_loc q')%positive ∧ chunk_ok q' c) →
  NoDup (pop_log q').*1 →
  (∀ i r, (i, r) ∈ pop_log q' →
     (0 ≤ i < head_index_ q')%Z ∧ is_Some r ∧ r = push_log q' !! Z.to_nat i) →
  (∀ t p i, threads q !! t = Some p → pop_ticket p = Some i → i ∉ (pop_log q').*1) →
  queue_inv q'.
Proof.
  intros Hinv Hev Hth H1 H2 H3 H4 H5 H6. split; [done|done| | |done|done| |].
  - intros l c Hc. by apply (H3 l c).
  - intros l c Hc. by apply (H3 l c).
  - rewrite Hth. intros t p Ht. eapply thread_ok_evolves; [done|by eapply (inv_thread _ Hinv)|].
    intros i Hi. by eapply H6.
  - rewrite Hth. apply (inv_unique _ Hinv).
Qed.

(** The common case: the logs and indices stay, a chunk changes. *)
Lemma queue_inv_memory q q' :
  queue_inv q → evolves q q' → threads q' = threads q →
  push_log q' = push_log q → pop_log q' = pop_log q →
  head_index_ q' = head_index_ q → tail_index_ q' = tail_index_ q →
  (∀ l c, chunks q' !! l = Some c → (l < next_loc q')%positive ∧ chunk_ok q c) →
  queue_inv q'.
Proof.
  intros Hinv Hev Hth Hpl Hql Hh Ht H. apply (queue_inv_effect q); [done|done|done| | | | | |].
  - rewrite Ht, Hpl. apply (inv_tail _ Hinv).
  - rewrite Hh, Ht. apply (inv_head _ Hinv).
  - intros l c Hc. split; [by apply (H l c)|]. eapply chunk_ok_evolves; [done|]. by apply (H l c).
  - rewrite Hql. apply (inv_log_nodup _ Hinv).
  - intros i r. rewrite Hql, Hh, Hpl. apply (inv_log _ Hinv).
  - intros t p i Htp Hi. rewrite Hql. by apply (th_pop _ _ (inv_thread _ Hinv _ _ Htp)).
Qed.

Lemma thread_ok_set_pc q t p p0 : thread_ok q p0 → thread_ok (set_pc t p q) p0.
Proof. by intros [H1 H2 H3 H4]. Qed.

(** A thread moves to another program point. *)
Lemma queue_inv_goto q t p :
  queue_inv q → thread_ok q p →
  (∀ i, pop_ticket p = Some i →
     ∀ t0 p0, t0 ≠ t → threads q !! t0 = Some p0 → pop_ticket p0 ≠ Some i) →
  queue_inv (set_pc t p q).
Proof.
  intros [H1 H2 H3 H4 H5 H6 H7 H8] Hp Hu. split; try done; simpl.
  - intros t0 p0. rewrite lookup_insert. intros Ht. apply thread_ok_set_pc.
    case_decide; [by injection Ht as <-|by eapply H7].
  - intros t1 t2 p1 p2 i. rewrite !lookup_insert.
    destruct (decide (t = t1)) as [<-|N1], (decide (t = t2)) as [<-|N2]; intros E1 E2 Hi1 Hi2.
    + done.
    + injection E1 as <-. by destruct (Hu _ Hi1 t2 p2).
    + injection E2 as <-. by destruct (Hu _ Hi2 t1 p1).
    + by eapply H8.
Qed.

(** The same when the new point holds no ticket, or the old one's. *)
Lemma queue_inv_goto_same q t p0 p :
  queue_inv q → threads q !! t = Some p0 → thread_ok q p →
  pop_ticket p = None ∨ pop_ticket p = pop_ticket p0 →
  queue_inv (set_pc t p q).
Proof.
  intros Hinv Ht Hp Htk. apply queue_inv_goto; [done|done|].
  intros i Hi t1 p1 Hne Ht1 Hi1. destruct Htk as [Htk|Htk]; [congruence|].
  apply Hne. eapply (inv_unique _ Hinv); [done|done|done|]. by rewrite <-Htk.
Qed.

(** ** The changes of the store *)

(** [c'] is [c] with other slots: nothing ready or stored is lost. *)
Definition slots_grow c c' : Prop :=
  begin_index c' = begin_index c ∧
  ∀ off, (ready (slot_at c off) = true → ready (slot_at c' off) = true) ∧
         (is_Some (value (slot_at c off)) → is_Some (value (slot_at c' off))).

Lemma evolves_chunk q l c c' :
  chunks q !! l = Some c → slots_grow c c' → evolves q (upd_chunk l c' q).
Proof.
  intros Hc [Hb Hs]. split; simpl; try done; try lia.
  intros l0 c0 _. rewrite lookup_insert. case_decide as Hl.
  - intros [= <-]. subst l0. exists c. split_and!; [done|done|].
    intros off. destruct (Hs off). naive_solver.
  - intros H0. exists c0. naive_solver.
Qed.

Lemma queue_inv_chunk q l c c' :
  queue_inv q → chunks q !! l = Some c → slots_grow c c' → chunk_ok q c' →
  queue_inv (upd_chunk l c' q).
Proof.
  intros Hinv Hc Hg Hok. apply (queue_inv_memory q); try done; [by eapply evolves_chunk|].
  intros l0 c0. simpl. rewrite lookup_insert. case_decide as Hl.
  - intros [= <-]. subst l0. split; [by eapply (inv_loc _ Hinv)|done].
  - intros H0. split; [by eapply (inv_loc _ Hinv)|by eapply (inv_chunk _ Hinv)].
Qed.

(** [c'] differs from [c] in the link and the counters only. *)
Lemma queue_inv_chunk_same q l c c' :
  queue_inv q → chunks q !! l = Some c → slots c' = slots c →
  begin_index c' = begin_index c → queue_inv (upd_chunk l c' q).
Proof.
  intros Hinv Hc Hs Hb. pose proof (inv_chunk _ Hinv _ _ Hc) as Hok.
  assert (∀ off, slot_at c' off = slot_at c off) as Hsl by (intros; unfold slot_at; by rewrite Hs).
  eapply queue_inv_chunk; [done|done| |].
  - split; [done|]. intros off. by rewrite Hsl.
  - unfold chunk_ok, slot_ok in *. rewrite Hb. split; [naive_solver|].
    intros off Hoff. rewrite Hsl. naive_solver.
Qed.

Lemma queue_inv_alloc q b :
  queue_inv q → (0 ≤ b ≤ tail_index_ q)%Z →
  queue_inv (bump_loc (upd_chunk (next_loc q) (new_chunk b) q)).
Proof.
  intros Hinv Hb. apply (queue_inv_memory q); try done.
  - split; simpl; try done; try lia. intros l c Hl. rewrite lookup_insert_ne by lia.
    intros Hc. exists c. naive_solver.
  - intros l c. simpl. rewrite lookup_insert. case_decide as Hl.
    + intros [= <-]. split; [lia|]. split; [done|]. intros off _. by split.
    + intros Hc. split; [|by eapply (inv_chunk _ Hinv)]. apply (inv_loc _ Hinv) in Hc. lia.
Qed.

Lemma queue_inv_delete q l : queue_inv q → queue_inv (set_chunks (delete l) q).
Proof.
  intros Hinv. apply (queue_inv_memory q); try done.
  - split; simpl; try done; try lia. intros l0 c Hl. rewrite lookup_delete_Some.
    intros [_ Hc]. exists c. naive_solver.
  - intros l0 c. simpl. rewrite lookup_delete_Some. intros [_ Hc].
    split; [by eapply (inv_loc _ Hinv)|by eapply (inv_chunk _ Hinv)].
Qed.

Lemma queue_inv_tail_chunk q l : queue_inv q → queue_inv (set_tail_chunk l q).
Proof. intros [? ? ? ? ? ? Hth ?]. split; try done. intros t p Ht. by destruct (Hth t p Ht). Qed.

Lemma queue_inv_head_chunk q l : queue_inv q → queue_inv (set_head_chunk l q).
Proof. intros [? ? ? ? ? ? Hth ?]. split; try done. intros t p Ht. by destruct (Hth t p Ht). Qed.

(** A producer draws the ticket [tail_index_]. *)
Lemma queue_inv_push_ticket q v :
  queue_inv q → (length (push_log q) + 1 < 2 ^ 64)%Z →
  queue_inv (log_push v (set_tail_index (u64 (tail_index_ q + 1)) q)).
Proof.
  intros Hinv Hw. pose proof (inv_tail _ Hinv) as Ht. pose proof (inv_head _ Hinv) as Hh.
  assert (u64 (tail_index_ q + 1) = (tail_index_ q + 1)%Z) as Hu by (apply u64_small; lia).
  assert (evolves q (log_push v (set_tail_index (u64 (tail_index_ q + 1)) q))) as Hev.
  { split; simpl; try done; try lia; [by exists [v]|]. intros l c _ Hc. exists c. naive_solver. }
  apply (queue_inv_effect q); try done; simpl.
  - rewrite length_app. simpl. lia.
  - lia.
  - intros l c Hc. split; [by eapply (inv_loc _ Hinv)|].
    eapply chunk_ok_evolves; [done|]. by eapply (inv_chunk _ Hinv).
  - apply (inv_log_nodup _ Hinv).
  - intros i r Hin. destruct (inv_log _ Hinv i r Hin) as (H1 & [w ->] & H2).
    split_and!; [lia|lia|done|]. symmetry. by apply lookup_app_l_Some.
  - intros t p i Htp Hi. by apply (th_pop _ _ (inv_thread _ Hinv _ _ Htp)).
Qed.

(** A consumer draws the ticket [head_index_]. *)
Lemma queue_inv_pop_ticket q :
  queue_inv q → (head_index_ q < tail_index_ q)%Z → (length (push_log q) < 2 ^ 64)%Z →
  queue_inv (set_head_index (u64 (head_index_ q + 1)) q).
Proof.
  intros Hinv Hlt Hw. pose proof (inv_tail _ Hinv) as Ht. pose proof (inv_head _ Hinv) as Hh.
  assert (u64 (head_index_ q + 1) = (head_index_ q + 1)%Z) as Hu by (apply u64_small; lia).
  assert (evolves q (set_head_index (u64 (head_index_ q + 1)) q)) as Hev.
  { split; simpl; try done; try lia. intros l c _ Hc. exists c. naive_solver. }
  apply (queue_inv_effect q); try done; simpl.
  - lia.
  - intros l c Hc. split; [by eapply (inv_loc _ Hinv)|].
    eapply chunk_ok_evolves; [done|]. by eapply (inv_chunk _ Hinv).
  - apply (inv_log_nodup _ Hinv).
  - intros i r Hin. destruct (inv_log _ Hinv i r Hin) as (H1 & H2). split; [lia|done].
  - intros t p i Htp Hi. by apply (th_pop _ _ (inv_thread _ Hinv _ _ Htp)).
Qed.

(** A producer stores the value of its ticket. *)
Lemma queue_inv_write q l c off v :
  queue_inv q → chunks q !! l = Some c → (0 ≤ off < CHUNK_SIZE)%Z →
  push_log q !! Z.to_nat (begin_index c + off) = Some v →
  queue_inv (upd_chunk l (set_slot off (mkSlot (Some v) (ready (slot_at c off))) c) q).
Proof.
  intros Hinv Hc Hoff Hv. destruct (inv_chunk _ Hinv _ _ Hc) as [Hb Hs].
  eapply (queue_inv_chunk q l c); [done|done| |].
  - split; [done|]. intros off'. rewrite slot_at_set. case_decide; naive_solver.
  - split; [done|]. intros off' Hoff'. unfold slot_ok. rewrite slot_at_set. simpl.
    case_decide as Heq; [|by apply Hs]. subst off'. simpl. naive_solver.
Qed.

(** A producer marks its slot ready. *)
Lemma queue_inv_ready q l c off :
  queue_inv q → chunks q !! l = Some c → (0 ≤ off < CHUNK_SIZE)%Z →
  is_Some (value (slot_at c off)) ∨ (begin_index c + off)%Z ∈ (pop_log q).*1 →
  queue_inv (upd_chunk l (set_slot off (mkSlot (value (slot_at c off)) true) c) q).
Proof.
  intros Hinv Hc Hoff Hv. destruct (inv_chunk _ Hinv _ _ Hc) as [Hb Hs].
  eapply (queue_inv_chunk q l c); [done|done| |].
  - split; [done|]. intros off'. rewrite slot_at_set. case_decide; naive_solver.
  - split; [done|]. intros off' Hoff'. unfold slot_ok. rewrite slot_at_set. simpl.
    destruct (Hs off' Hoff'). case_decide as Heq; [|done]. by subst off'.
Qed.

(** A consumer moves the value of its ticket out of the slot. *)
Lemma queue_inv_take q l c off v :
  let i := (begin_index c + off)%Z in
  queue_inv q → chunks q !! l = Some c → (0 ≤ off < CHUNK_SIZE)%Z →
  value (slot_at c off) = Some v → (0 ≤ i < head_index_ q)%Z → i ∉ (pop_log q).*1 →
  (∀ t p, threads q !! t = Some p → pop_ticket p ≠ Some i) →
  queue_inv (log_pop (i, Some v)
    (upd_chunk l (set_slot off (mkSlot None (ready (slot_at c off))) c) q)).
Proof.
  intros i Hinv Hc Hoff Hv Hi Hni Hth. destruct (inv_chunk _ Hinv _ _ Hc) as [Hb Hs].
  set (q' := log_pop _ _). assert (evolves q q') as Hev.
  { split; simpl; try done; try lia.
    - set_solver.
    - intros l0 c0 _. rewrite lookup_insert. case_decide as Hl.
      + intros [= <-]. subst l0. exists c. split_and!; [done|done|]. intros off'.
        rewrite slot_at_set. case_decide as Heq; simpl; [|naive_solver].
        subst off'. split; [done|]. intros _. right. rewrite fmap_app. fold i. set_solver.
      + intros H0. exists c0. naive_solver. }
  apply (queue_inv_effect q); try done; simpl.
  - apply (inv_tail _ Hinv).
  - apply (inv_head _ Hinv).
  - intros l0 c0. rewrite lookup_insert. case_decide as Hl.
    + intros [= <-]. subst l0. split; [by eapply (inv_loc _ Hinv)|].
      destruct (chunk_ok_evolves _ _ _ Hev (inv_chunk _ Hinv _ _ Hc)) as [Hb' Hs'].
      split; [done|]. intros off' Hoff'. unfold slot_ok. rewrite slot_at_set.
      case_decide as Heq; [|by apply Hs']. subst off'. simpl. split; [done|].
      intros _. right. rewrite fmap_app. fold i. set_solver.
    + intros H0. split; [by eapply (inv_loc _ Hinv)|].
      eapply chunk_ok_evolves; [done|by eapply (inv_chunk _ Hinv)].
  - rewrite fmap_app. apply NoDup_app. split_and!; [apply (inv_log_nodup _ Hinv)| |].
    + intros j Hj Hj'. csimpl in Hj'. apply list_elem_of_singleton in Hj'. by subst j.
    + apply NoDup_singleton.
  - intros j r [Hin|Hin]%elem_of_app; [by apply (inv_log _ Hinv)|].
    apply list_elem_of_singleton in Hin as [= -> ->]. split_and!; [lia|lia|done|].
    symmetry. by apply (Hs off Hoff).
  - intros t p j Htp Hj. rewrite fmap_app. csimpl. intros [Hin|Hin]%elem_of_app.
    + by apply (th_pop _ _ (inv_thread _ Hinv _ _ Htp)) in Hj as [_ Hj].
    + apply list_elem_of_singleton in Hin as ->. by eapply Hth.
Qed.

(** ** Every step preserves the invariant *)

(** Thread [t], at [p], moves to [p'] after the store has become [q]. *)
Lemma queue_inv_move q t p p' :
  queue_inv q → threads q !! t = Some p →
  (∀ v i, push_claim p' = Some (v, i) → push_claim p = Some (v, i)) →
  (∀ i, pop_ticket p' = Some i → pop_ticket p = Some i) →
  (∀ i, pop_candidate p' = Some i → pop_candidate p = Some i) →
  local_ok q p' → queue_inv (set_pc t p' q).
Proof.
  intros Hinv Ht H1 H2 H3 H4. destruct (inv_thread _ Hinv _ _ Ht) as [T1 T2 T3 T4].
  apply (queue_inv_goto_same _ _ p); [done|done| |].
  - split; eauto.
  - destruct (pop_ticket p') as [i|] eqn:Hi; [|by left]. right. by rewrite (H2 i).
Qed.

(** Close the side conditions of a move; what is left is the invariant of the
    store and what the new point relies on, where they are not immediate. *)
Ltac goto_move Ht :=
  eapply queue_inv_move; [ |exact Ht|simpl; naive_solver..| ]; [try assumption|simpl; try done].

Lemma beyond_spec q c i :
  queue_inv q → chunk_ok q c → no_wrap q → beyond c i = true →
  u64 (begin_index c + CHUNK_SIZE) = (begin_index c + CHUNK_SIZE)%Z ∧
  (begin_index c + CHUNK_SIZE ≤ i)%Z.
Proof.
  intros Hinv [Hb _] Hw Hbe. rewrite (inv_tail _ Hinv) in Hb. pose proof CHUNK_SIZE_val.
  unfold beyond in Hbe. apply bool_decide_eq_true in Hbe.
  rewrite u64_small in Hbe |- * by lia. done.
Qed.

(** The slot of a ticket a producer holds. *)
Lemma push_slot q t p l c v i :
  queue_inv q → no_wrap q → threads q !! t = Some p → push_claim p = Some (v, i) →
  chunks q !! l = Some c → (u64 (i - begin_index c) < CHUNK_SIZE)%Z →
  (0 ≤ i - begin_index c < CHUNK_SIZE)%Z ∧ u64 (i - begin_index c) = (i - begin_index c)%Z ∧
  push_log q !! Z.to_nat (begin_index c + (i - begin_index c)) = Some v.
Proof.
  intros Hinv Hw Ht Hcl Hc Hoff.
  destruct (th_push _ _ (inv_thread _ Hinv _ _ Ht) _ _ Hcl) as [Hi Hv].
  rewrite (inv_tail _ Hinv) in Hi.
  destruct (slot_offset q c i Hinv (inv_chunk _ Hinv _ _ Hc) Hw ltac:(lia) Hoff) as [H1 H2].
  split_and!; [lia|lia|done|]. by replace (begin_index c + (i - begin_index c))%Z with i by lia.
Qed.

Lemma step_push_inv q t b p q' :
  queue_inv q → no_wrap q' → threads q !! t = Some p →
  step_push t b q p = Done q' → queue_inv q'.
Proof.
  intros Hinv Hw Ht Hstep. pose proof (inv_thread _ Hinv _ _ Ht) as Hth.
  pose proof CHUNK_SIZE_val as HC.
  destruct p; simpl in Hstep; unfold with_chunk, with_slot, load_ptr in Hstep;
    repeat case_match; simplify_eq; simpl in Hw; try assumption.
  all: try (by goto_move Ht).
  - (* PushCas *)
    rewrite length_app in Hw. simpl in Hw. destruct_and!. subst tail_idx.
    pose proof (queue_inv_push_ticket q v Hinv ltac:(lia)) as Hinv1.
    pose proof (inv_tail _ Hinv) as Htl. pose proof (inv_tail _ Hinv1) as Htl1.
    simpl in Htl1. rewrite length_app in Htl1. simpl in Htl1.
    apply queue_inv_goto; [done| |done]. split; [|done..]. intros v' i [= <- <-]. simpl.
    split; [lia|]. by rewrite Htl, Nat2Z.id, list_lookup_middle.
  - (* PushCheck *)
    goto_move Ht. split; [by eapply (inv_loc _ Hinv)|]. intros c' Hc'. simplify_eq.
    by apply (beyond_spec q); [|eapply (inv_chunk _ Hinv)| |].
  - (* PushNew *)
    destruct (th_local _ _ Hth) as [_ Hb]. specialize (Hb _ H).
    destruct (th_push _ _ Hth v tail_idx eq_refl) as [Hi _].
    pose proof (inv_tail _ Hinv). destruct (inv_chunk _ Hinv _ _ H) as [Hb0 _].
    rewrite u64_small by lia. goto_move Ht. apply queue_inv_alloc; [done|lia].
  - goto_move Ht. by apply queue_inv_tail_chunk.
  - goto_move Ht. by apply (queue_inv_chunk_same _ _ c).
  - goto_move Ht. by apply queue_inv_delete.
  - (* PushWrite *)
    edestruct (push_slot q t) as (Hoff & Hu & Hv); [done|done|exact Ht|done|exact H|done|].
    rewrite Hu. pose proof (queue_inv_write q _ c _ v Hinv H Hoff Hv) as Hinv1.
    goto_move Ht. split; [by eapply (inv_loc _ Hinv)|]. intros c' Hc' _. left.
    rewrite lookup_insert_eq in Hc'. injection Hc' as <-. simpl.
    rewrite slot_at_set, decide_True by done. done.
  - (* PushReady *)
    edestruct (push_slot q t) as (Hoff & Hu & Hv); [done|done|exact Ht|done|exact H|done|].
    rewrite Hu. goto_move Ht. apply queue_inv_ready; [done|done|done|].
    destruct (th_local _ _ Hth) as [_ Hl]. specialize (Hl _ H Hoff).
    by replace (begin_index c + (write_idx - begin_index c))%Z with write_idx by lia.
Qed.

(** The slot of a ticket a consumer holds. *)
Lemma pop_slot q t p l c i :
  queue_inv q → no_wrap q → threads q !! t = Some p → pop_ticket p = Some i →
  chunks q !! l = Some c → (u64 (i - begin_index c) < CHUNK_SIZE)%Z →
  (0 ≤ i - begin_index c < CHUNK_SIZE)%Z ∧ u64 (i - begin_index c) = (i - begin_index c)%Z.
Proof.
  intros Hinv Hw Ht Hcl Hc Hoff.
  destruct (th_pop _ _ (inv_thread _ Hinv _ _ Ht) _ Hcl) as [Hi _].
  pose proof (inv_head _ Hinv) as Hh. rewrite (inv_tail _ Hinv) in Hh.
  apply (slot_offset q c i Hinv (inv_chunk _ Hinv _ _ Hc) Hw ltac:(lia) Hoff).
Qed.

(** A consumer takes the value of its ticket: the slot holds it. *)
Lemma take_inv q t hc i rc c :
  queue_inv q → no_wrap q → threads q !! t = Some (PopMove hc i rc) →
  chunks q !! rc = Some c → (u64 (i - begin_index c) < CHUNK_SIZE)%Z →
  let off := u64 (i - begin_index c) in
  let v := value (slot_at c off) in
  queue_inv (set_pc t (PopCount hc rc v)
    (log_pop (i, v) (upd_chunk rc (set_slot off (mkSlot None (ready (slot_at c off))) c) q))).
Proof.
  intros Hinv Hw Ht Hc Hlt off v.
  destruct (pop_slot q t _ rc c i Hinv Hw Ht eq_refl Hc Hlt) as [Hoff Hu].
  destruct (inv_thread _ Hinv _ _ Ht) as [_ T2 _ T4].
  destruct (T2 i eq_refl) as [Hi Hni]. destruct T4 as [_ Hrdy]. specialize (Hrdy _ Hc Hoff).
  destruct (inv_chunk _ Hinv _ _ Hc) as [_ Hs].
  destruct (Hs _ Hoff) as [_ Hval]. specialize (Hval Hrdy).
  assert ((begin_index c + (i - begin_index c))%Z = i) as Hi' by lia.
  rewrite Hi' in Hval. destruct Hval as [[w Hw']|Hin]; [|done].
  unfold v, off. rewrite Hu, Hw'.
  assert (queue_inv (set_pc t PopLoadChunk q)) as Hinv1 by (by goto_move Ht).
  assert (queue_inv (log_pop (i, Some w) (upd_chunk rc
    (set_slot (i - begin_index c) (mkSlot None (ready (slot_at c (i - begin_index c)))) c)
    (set_pc t PopLoadChunk q)))) as Hinv2.
  { pose proof (queue_inv_take (set_pc t PopLoadChunk q) rc c (i - begin_index c) w) as Htk.
    cbv zeta in Htk. rewrite Hi' in Htk. apply Htk; try done.
    intros t0 p0. simpl. rewrite lookup_insert. case_decide as Heq; [by intros [= <-]|].
    intros Ht0 Hp0. apply Heq. symmetry. by eapply (inv_unique _ Hinv). }
  eapply (queue_inv_goto _ t (PopCount hc rc (Some w))) in Hinv2; [|split; [done..|]|done].
  - unfold set_pc, log_pop, upd_chunk, set_chunks in Hinv2 |- *. simpl in Hinv2 |- *.
    by rewrite insert_insert_eq in Hinv2.
  - simpl. exists i. set_solver.
Qed.

Lemma step_pop_inv q t b p q' :
  queue_inv q → no_wrap q' → threads q !! t = Some p →
  step_pop t b q p = Done q' → queue_inv q'.
Proof.
  intros Hinv Hw Ht Hstep. pose proof (inv_thread _ Hinv _ _ Ht) as Hth.
  pose proof CHUNK_SIZE_val as HC. pose proof (inv_head _ Hinv) as Hh.
  pose proof (inv_tail _ Hinv) as Htl.
  destruct p; simpl in Hstep; unfold with_chunk, with_slot, load_ptr in Hstep;
    repeat case_match; simplify_eq; simpl in Hw; try assumption.
  all: try (by goto_move Ht).
  all: try (by goto_move Ht; first [by apply (queue_inv_chunk_same _ _ c)|exact (th_local _ _ Hth)]).
  - (* PopLoadIndex *) goto_move Ht. lia.
  - (* PopEmpty *)
    pose proof (th_local _ _ Hth) as Hl. simpl in Hl.
    apply queue_inv_goto; [done| |done]. split; [done|done| |done].
    intros i [= <-]. lia.
  - (* PopAdvance *) goto_move Ht. by apply queue_inv_head_chunk.
  - (* PopDelete *) goto_move Ht. by apply queue_inv_delete.
  - (* PopCas *)
    destruct_and!. subst head_idx. pose proof (th_cand _ _ Hth _ eq_refl) as Hc.
    pose proof (queue_inv_pop_ticket q Hinv ltac:(lia) ltac:(lia)) as Hinv1.
    apply queue_inv_goto; [done| |].
    + split; [done| |done|done]. intros i [= <-]. simpl. rewrite u64_small by lia.
      split; [lia|]. intros Hin. apply list_elem_of_fmap in Hin as ([j r] & Heq & Hin).
      simpl in Heq. subst j. apply (inv_log _ Hinv) in Hin. lia.
    + intros i [= <-] t0 p0 _ Ht0 Hp0.
      apply (th_pop _ _ (inv_thread _ Hinv _ _ Ht0)) in Hp0. lia.
  - (* PopWaitReady *)
    destruct (pop_slot q t _ read_chunk c read_idx Hinv Hw Ht eq_refl H ltac:(done)) as [Hoff Hu].
    goto_move Ht. split; [by eapply (inv_loc _ Hinv)|]. intros c' Hc' _. simplify_eq.
    by rewrite <-Hu.
  - (* PopMove *) by apply take_inv.
Qed.

Lemma act_inv q a q' :
  queue_inv q → no_wrap q' → act a q = Done q' → queue_inv q'.
Proof.
  intros Hinv Hw Hact. destruct a as [t v|t|t b]; simpl in Hact.
  - injection Hact as <-. unfold call_push. case_match; [|done].
    apply queue_inv_goto; [done|by split|done].
  - injection Hact as <-. unfold call_pop. case_match; [|done].
    apply queue_inv_goto; [done|by split|done].
  - unfold step in Hact. destruct (threads q !! t) as [p|] eqn:Ht; simpl in Hact;
      [|by injection Hact as <-].
    case_match; [by eapply step_push_inv|by eapply step_pop_inv].
Qed.

Lemma reachable_inv q : reachable q → queue_inv q.
Proof.
  induction 1 as [|q a q' _ IH Hact Hw]; [|by eapply act_inv].
  pose proof CHUNK_SIZE_val. split; simpl; try done.
  - intros l c [<- <-]%lookup_singleton_Some. lia.
  - intros l c [<- <-]%lookup_singleton_Some. split; [done|]. intros off _. by split.
  - apply NoDup_nil_2.
  - intros i r Hin. by apply not_elem_of_nil in Hin.
Qed.
End safety.
