(* ===== verification/MpmcSeq.v ===== *)
(** * The queue used by one call at a time

    Calls that do not overlap, from whatever threads: the chunks form one list
    from [head_chunk_] to [tail_chunk_], nothing faults, every call returns within
    a bound however its compare-and-swaps fail spuriously, and the results are
    those of a list used first in, first out. *)
From S2P Require Import Prelude Mpmc.

(** Arithmetic with the size of a chunk. *)
Ltac clia := rewrite ?CHUNK_SIZE_val in *; lia.

Section sequential.
Context {T : Type}.
Implicit Types (q : qstate T) (c : Chunk T) (ch : gmap cloc (Chunk T)) (ls : list cloc).

(** ** Calls *)

(** Thread [t] returns within [n] of its own steps, of which at most [k] fail
    spuriously, in a state that satisfies [Q]; nothing faults on the way. *)
Fixpoint total (t : tid) (Q : qstate T → Prop) (n k : nat) (q : qstate T) : Prop :=
  (may_call (default Idle (threads q !! t)) = true ∧ Q q) ∨
  match n with
  | O => False
  | S n =>
      (∃ q', step t false q = Done q' ∧ total t Q n k q') ∧
      match k with
      | O => True
      | S k => ∃ q', step t true q = Done q' ∧ total t Q n k q'
      end
  end.

(** ** The shape of the queue between two steps *)

(** A chunk whose first ticket is [bg], when [h] tickets have been taken out and
    the slots of the tickets below [d] have been filled. *)
Record chunk_holds (log : list T) (nx : option cloc) (bg h d : Z) (c : Chunk T) : Prop := {
  ch_begin : begin_index c = bg;
  ch_next : next c = nx;
  ch_ref : (0 ≤ ref_count c)%Z;
  ch_read : read_count c = Z.max 0 (Z.min CHUNK_SIZE (h - bg));
  ch_ready off : (0 ≤ off < CHUNK_SIZE)%Z → (bg + off < d)%Z → ready (slot_at c off) = true;
  ch_value off : (0 ≤ off < CHUNK_SIZE)%Z → (h ≤ bg + off < d)%Z →
    value (slot_at c off) = log !! Z.to_nat (bg + off);
}.

(** The live chunks are [ls], linked in order, from ticket [b] on. *)
Record layout ch (log : list T) ls (b h d : Z) : Prop := {
  ly_nodup : NoDup ls;
  ly_dom l : is_Some (ch !! l) → l ∈ ls;
  ly_chunk i l : ls !! i = Some l →
    ∃ c, ch !! l = Some c ∧ chunk_holds log (ls !! S i) (b + i * CHUNK_SIZE) h d c;
}.

(** The queue when no call is active. *)
Record rest q ls (b : Z) : Prop := {
  rest_layout : layout (chunks q) (push_log q) ls b (head_index_ q) (tail_index_ q);
  rest_head : head_chunk_ q = head ls;
  rest_tail : tail_chunk_ q = last ls;
  rest_loc : Forall (λ l, l < next_loc q)%positive ls;
  rest_log : tail_index_ q = length (push_log q);
  rest_begin : (0 ≤ b ≤ head_index_ q)%Z;
  rest_order : (head_index_ q ≤ tail_index_ q)%Z;
  rest_last : (b + length ls * CHUNK_SIZE - CHUNK_SIZE ≤ tail_index_ q ≤ b + length ls * CHUNK_SIZE)%Z;
  rest_wrap : (tail_index_ q < 2 ^ 64 - CHUNK_SIZE)%Z;
  rest_ne : ls ≠ [];
}.

(** What the queue holds. *)
Definition held q : list T := drop (Z.to_nat (head_index_ q)) (push_log q).

(** ** Changes of the layout *)
Lemma layout_update ch log ls b h d h' d' i l c' :
  layout ch log ls b h d → ls !! i = Some l →
  chunk_holds log (ls !! S i) (b + i * CHUNK_SIZE) h' d' c' →
  (∀ j c nx, j ≠ i → chunk_holds log nx (b + j * CHUNK_SIZE) h d c →
     chunk_holds log nx (b + j * CHUNK_SIZE) h' d' c) →
  layout (<[l := c']> ch) log ls b h' d'.
Proof.
  intros [Hnd Hdom Hch] Hl Hc' Hothers. split; [done| |].
  - intros l'. destruct (decide (l' = l)) as [->|].
    + intros _. by eapply list_elem_of_lookup_2.
    + rewrite lookup_insert_ne by done. apply Hdom.
  - intros j l' Hl'. destruct (decide (j = i)) as [->|Hji].
    + rewrite Hl in Hl'. injection Hl' as <-. exists c'. by rewrite lookup_insert_eq.
    + destruct (Hch j l' Hl') as (c & Hc & Hok).
      assert (l' ≠ l) by (intros ->; apply Hji; by eapply NoDup_lookup).
      exists c. rewrite lookup_insert_ne by done. split; [done|]. by apply Hothers.
Qed.

Lemma layout_log ch log log' ls b h d :
  layout ch log ls b h d → (d ≤ length log)%Z → (0 ≤ b)%Z → layout ch (log ++ log') ls b h d.
Proof.
  intros [Hnd Hdom Hch] Hd Hb. split; [done|done|]. intros i l Hl.
  destruct (Hch i l Hl) as (c & Hc & [H1 H2 H3 H4 H5 H6]). exists c. split; [done|]. split; try done.
  intros off Hoff Hlt. rewrite lookup_app_l by clia. by apply H6.
Qed.

Lemma layout_drop ch log l ls b h d :
  layout ch log (l :: ls) b h d → layout (delete l ch) log ls (b + CHUNK_SIZE) h d.
Proof.
  intros [Hnd Hdom Hch]. apply NoDup_cons in Hnd as [Hl Hnd]. split; [done| |].
  - intros l' Hl'. destruct (decide (l' = l)) as [->|]; [by rewrite lookup_delete_eq in Hl'; destruct Hl'|].
    rewrite lookup_delete_ne in Hl' by done. apply Hdom in Hl'. set_solver.
  - intros i l' Hl'. destruct (Hch (S i) l' Hl') as (c & Hc & Hok).
    assert (l' ≠ l) by (intros ->; apply Hl; by eapply list_elem_of_lookup_2).
    exists c. rewrite lookup_delete_ne by done. split; [done|].
    replace (b + CHUNK_SIZE + i * CHUNK_SIZE)%Z with (b + S i * CHUNK_SIZE)%Z by lia. done.
Qed.

Lemma new_chunk_holds log bg h d :
  (h ≤ bg)%Z → (d ≤ bg)%Z → chunk_holds log None bg h d (new_chunk bg).
Proof. intros. split; simpl; try done; lia. Qed.

(** A chunk is linked behind the last one. *)
Lemma layout_extend ch log ls l c nc b h d :
  let bg := (b + length (ls ++ [l]) * CHUNK_SIZE)%Z in
  layout ch log (ls ++ [l]) b h d → ch !! l = Some c → ch !! nc = None →
  (h ≤ bg)%Z → (d ≤ bg)%Z →
  layout (<[l := set_next (Some nc) c]> (<[nc := new_chunk bg]> ch)) log (ls ++ [l; nc]) b h d.
Proof.
  intros bg [Hnd Hdom Hch] Hl Hnc Hh Hd.
  assert (nc ∉ ls ++ [l]) as Hnew.
  { intros (i & Hi)%list_elem_of_lookup. destruct (Hch i nc Hi) as (c' & Hc' & _). congruence. }
  assert (l ≠ nc) as Hne by set_solver.
  replace (ls ++ [l; nc]) with ((ls ++ [l]) ++ [nc]) by (by rewrite <-app_assoc). split.
  - apply NoDup_app. split_and!; [done|set_solver|by apply NoDup_singleton].
  - intros l'. destruct (decide (l' = l)) as [->|]; [set_solver|]. rewrite lookup_insert_ne by done.
    destruct (decide (l' = nc)) as [->|]; [set_solver|]. rewrite lookup_insert_ne by done.
    intros ?%Hdom. set_solver.
  - intros i l' Hi. apply lookup_app_Some in Hi as [Hi|[Hlen Hi]]; cycle 1.
    { apply list_lookup_singleton_Some in Hi as [Hi <-].
      assert (i = length (ls ++ [l])) as -> by lia.
      exists (new_chunk bg). rewrite lookup_insert_ne, lookup_insert_eq by done. split; [done|].
      rewrite lookup_ge_None_2 by (rewrite length_app; simpl; lia). by apply new_chunk_holds. }
    destruct (Hch i l' Hi) as (c' & Hc' & [H1 H2 H3 H4 H5 H6]).
    apply lookup_app_Some in Hi as Hi'. destruct Hi' as [Hi'|[Hlen Hi']].
    + assert (l' ≠ l).
      { intros ->. apply NoDup_app in Hnd as (_ & Hnd & _). apply (Hnd l); [by eapply list_elem_of_lookup_2|set_solver]. }
      assert (l' ≠ nc) by (intros ->; congruence).
      exists c'. rewrite !lookup_insert_ne by done. split; [done|]. split; try done.
      rewrite H2. apply lookup_lt_Some in Hi'. by rewrite (lookup_app_l (ls ++ [l])) by (rewrite length_app; simpl; lia).
    + apply list_lookup_singleton_Some in Hi' as [Hi' <-]. rewrite Hc' in Hl. injection Hl as ->.
      exists (set_next (Some nc) c). rewrite lookup_insert_eq. split; [done|]. split; try done. simpl.
      by rewrite (list_lookup_middle (ls ++ [l]) [] nc) by (rewrite length_app; simpl; lia).
Qed.

(** ** Steps of the calling thread *)
Section call.
Context (t : tid) (Q : qstate T → Prop).

Lemma total_mono n k n' k' q : n ≤ n' → k' ≤ k → total t Q n k q → total t Q n' k' q.
Proof.
  revert k n' k' q. induction n as [|n IH]; intros k n' k' q Hn Hk.
  { intros [?|[]]. destruct n'; by left. }
  destruct n' as [|n']; [lia|]. intros [?|[(q1 & H1 & Ht1) Htrue]]; [by left|right].
  split; [exists q1; split; [done|by apply (IH k); [lia|lia|]]|].
  destruct k' as [|k']; [done|]. destruct k as [|k]; [lia|].
  destruct Htrue as (q2 & H2 & Ht2). exists q2. split; [done|by apply (IH k); [lia|lia|]].
Qed.

(** A step that is not a weak compare-and-swap. *)
Lemma total_next p q' n k q :
  threads q !! t = Some p →
  (∀ b, (if is_push p then step_push t b q p else step_pop t b q p) = Done q') →
  total t Q n k q' → total t Q (S n) k q.
Proof.
  intros Hp Hstep Ht. right. unfold step. rewrite Hp. simpl. split; [by exists q'|].
  destruct k as [|k]; [done|]. exists q'. split; [done|]. by apply (total_mono n (S k)); [lia|lia|].
Qed.

(** A weak compare-and-swap that finds what it expects. *)
Lemma total_cas p q1 q2 n k q :
  threads q !! t = Some p →
  (if is_push p then step_push t false q p else step_pop t false q p) = Done q1 →
  (if is_push p then step_push t true q p else step_pop t true q p) = Done q2 →
  total t Q n k q1 → (∀ k', k = S k' → total t Q n k' q2) → total t Q (S n) k q.
Proof.
  intros Hp H1 H2 Ht1 Ht2. right. unfold step. rewrite Hp. simpl. split; [by exists q1|].
  destruct k as [|k]; [done|]. exists q2. split; [done|]. by apply Ht2.
Qed.

Lemma total_ret p n k q :
  threads q !! t = Some p → may_call p = true → Q q → total t Q n k q.
Proof. intros Hp Hm HQ. destruct n; left; by rewrite Hp. Qed.

(** Where a ticket lies. *)
Lemma beyond_holds log nx bg h d c idx :
  chunk_holds log nx bg h d c → (0 ≤ bg < 2 ^ 64 - CHUNK_SIZE)%Z →
  beyond c idx = bool_decide (bg + CHUNK_SIZE ≤ idx)%Z.
Proof. intros [Hb _ _ _ _ _] Hr. unfold beyond. rewrite Hb, u64_small by clia. done. Qed.

Lemma with_slot_spec {A} log nx bg h d c idx (f : Z → outcome A) :
  chunk_holds log nx bg h d c → (0 ≤ idx - bg < CHUNK_SIZE)%Z → with_slot c idx f = f (idx - bg)%Z.
Proof.
  intros [Hb _ _ _ _ _] Hr. unfold with_slot. rewrite Hb, u64_small by clia.
  by rewrite decide_True by lia.
Qed.

(** What a call leaves alone while it works in the chunks. *)
Record framed q q' : Prop := {
  fr_loc : next_loc q' = next_loc q;
  fr_head_chunk : head_chunk_ q' = head_chunk_ q;
  fr_head : head_index_ q' = head_index_ q;
  fr_tail_chunk : tail_chunk_ q' = tail_chunk_ q;
  fr_tail : tail_index_ q' = tail_index_ q;
  fr_push : push_log q' = push_log q;
  fr_threads t' : t' ≠ t → threads q' !! t' = threads q !! t';
}.

(** The value and then the flag are stored. *)
Lemma total_push_write n k v l i ls b h (j : nat) q :
  threads q !! t = Some (PushWrite v l i) → layout (chunks q) (push_log q) ls b h i →
  ls !! j = Some l → (0 ≤ i - (b + j * CHUNK_SIZE) < CHUNK_SIZE)%Z → (0 ≤ i)%Z →
  push_log q !! Z.to_nat i = Some v →
  (∀ q', framed q q' → threads q' !! t = Some PushDone →
     layout (chunks q') (push_log q) ls b h (i + 1) → Q q') →
  total t Q (2 + n) k q.
Proof.
  intros Hp Hly Hj Hoff Hi Hv HQ. destruct (ly_chunk _ _ _ _ _ _ Hly j l Hj) as (c & Hc & Hok).
  pose proof Hok as [Hb Hn Hr Hrc Hrd Hvl]. set (off := (i - (b + j * CHUNK_SIZE))%Z) in *.
  eapply total_next; [exact Hp|intros; simpl; unfold with_chunk; rewrite Hc;
    by rewrite (with_slot_spec _ _ _ _ _ _ _ _ Hok Hoff)|].
  eapply total_next; [simpl; apply lookup_insert_eq|intros; simpl; unfold with_chunk; simpl; rewrite lookup_insert_eq|].
  { unfold with_slot. simpl. rewrite Hb, u64_small by (subst off; clia). rewrite decide_True by (subst off; lia). done. }
  eapply total_ret; [simpl; apply lookup_insert_eq|done|].
  apply HQ; [split; try done|simpl; apply lookup_insert_eq|].
  - intros t' Ht'. simpl. by rewrite !lookup_insert_ne.
  - simpl. rewrite insert_insert_eq. fold off.
    eapply layout_update; [exact Hly|done| |].
    + split; simpl; try done.
      * intros off' Hoff' Hlt. rewrite !slot_at_set.
        destruct (decide (off = off')); [done|]. apply Hrd; [done|]. subst off. lia.
      * intros off' Hoff' Hlt. rewrite !slot_at_set. rewrite (decide_True (P := off = off)) by done.
        destruct (decide (off = off')) as [<-|]; simpl.
        -- subst off. rewrite <-Hv. f_equal. lia.
        -- apply Hvl; [done|]. subst off. lia.
    + intros j' c' nx Hj' [H1 H2 H3 H4 H5 H6]. split; try done.
      * intros off' Hoff' Hlt. apply H5; [done|]. subst off. clia.
      * intros off' Hoff' Hlt. apply H6; [done|]. subst off. clia.
Qed.

Lemma rest_set_pc p ls b q : rest q ls b → rest (set_pc t p q) ls b.
Proof. intros []. by split. Qed.

Lemma fresh_loc ls b q : rest q ls b → chunks q !! next_loc q = None.
Proof.
  intros Hr. apply eq_None_not_Some. intros Hs. apply (ly_dom _ _ _ _ _ _ (rest_layout _ _ _ Hr)) in Hs.
  pose proof (rest_loc _ _ _ Hr) as Hloc. rewrite Forall_forall in Hloc. apply Hloc in Hs. lia.
Qed.

Lemma rest_eq ls b q q' :
  rest q ls b → chunks q' = chunks q → next_loc q' = next_loc q →
  head_chunk_ q' = head_chunk_ q → head_index_ q' = head_index_ q →
  tail_chunk_ q' = tail_chunk_ q → tail_index_ q' = tail_index_ q →
  push_log q' = push_log q → rest q' ls b.
Proof. intros [] H1 H2 H3 H4 H5 H6 H7. split; by rewrite ?H1, ?H2, ?H3, ?H4, ?H5, ?H6, ?H7. Qed.

(** What [push] promises. *)
Definition pushed (v : T) ls b q ls' q' : Prop :=
  rest q' ls' b ∧ length ls' ≤ S (length ls) ∧ push_log q' = push_log q ++ [v] ∧
  head_index_ q' = head_index_ q ∧ threads q' !! t = Some PushDone ∧
  ∀ t', t' ≠ t → threads q' !! t' = threads q !! t'.

(** The ticket has been drawn and there is room in the last chunk. *)
Lemma total_push_room n k v l i ls b q0 q :
  rest q0 (ls ++ [l]) b → (tail_index_ q0 + 1 < 2 ^ 64 - CHUNK_SIZE)%Z → i = tail_index_ q0 →
  q = set_pc t (PushCheck v l i) (log_push v (set_tail_index (u64 (i + 1)) q0)) →
  (i < b + length (ls ++ [l]) * CHUNK_SIZE)%Z →
  (∀ ls' q', pushed v (ls ++ [l]) b q0 ls' q' → Q q') → total t Q (3 + n) k q.
Proof.
  intros Hr Hw -> -> Hroom HQ. pose proof Hr as [Hly Hh Ht Hloc Hlog Hb Ho Hlast _ _].
  rewrite length_app in Hroom, Hlast. simpl in Hroom, Hlast.
  assert ((ls ++ [l]) !! length ls = Some l) as Hl by (by apply list_lookup_middle).
  destruct (ly_chunk _ _ _ _ _ _ Hly _ _ Hl) as (c & Hc & Hok).
  eapply total_next; [simpl; apply lookup_insert_eq|intros ?; simpl; unfold with_chunk; simpl; rewrite Hc|].
  { rewrite (beyond_holds _ _ _ _ _ _ _ Hok) by clia. by rewrite bool_decide_eq_false_2 by clia. }
  eapply (total_push_write n k v l (tail_index_ q0) (ls ++ [l]) b (head_index_ q0) (length ls)).
  - simpl. apply lookup_insert_eq.
  - simpl. apply layout_log; [done|lia|lia].
  - done.
  - clia.
  - lia.
  - simpl. rewrite Hlog, Nat2Z.id. by apply list_lookup_middle.
  - intros q' [H1 H2 H3 H4 H5 H6 H7] Hp Hly'. simpl in *. rewrite u64_small in H5 by clia.
    apply (HQ (ls ++ [l])). split_and!; try done; [|lia|].
    + split; rewrite ?H1, ?H2, ?H3, ?H4, ?H5, ?H6; try done; rewrite ?length_app; simpl; try clia.
      by destruct ls.
    + intros t' Ht'. rewrite H7 by done. by rewrite !lookup_insert_ne.
Qed.

(** The ticket has been drawn and the last chunk is full. *)
Lemma total_push_full n k v l i ls b q0 q :
  rest q0 (ls ++ [l]) b → (tail_index_ q0 + 1 < 2 ^ 64 - CHUNK_SIZE)%Z → i = tail_index_ q0 →
  q = set_pc t (PushCheck v l i) (log_push v (set_tail_index (u64 (i + 1)) q0)) →
  i = (b + length (ls ++ [l]) * CHUNK_SIZE)%Z →
  (∀ ls' q', pushed v (ls ++ [l]) b q0 ls' q' → Q q') → total t Q (10 + n) k q.
Proof.
  intros Hr Hw Hi -> Hfull HQ. pose proof Hr as [Hly Hh Ht Hloc Hlog Hb Ho Hlast _ _].
  pose proof (fresh_loc _ _ _ Hr) as Hfresh.
  rewrite length_app in Hfull. simpl in Hfull.
  assert ((ls ++ [l]) !! length ls = Some l) as Hl by (by apply list_lookup_middle).
  destruct (ly_chunk _ _ _ _ _ _ Hly _ _ Hl) as (c & Hc & Hok).
  assert (l ≠ next_loc q0) as Hne by (intros ->; congruence).
  assert (u64 (begin_index c + CHUNK_SIZE) = i) as Hbg
    by (rewrite (ch_begin _ _ _ _ _ _ Hok), u64_small by clia; clia).
  assert (beyond c i = true) as Hbey.
  { rewrite (beyond_holds _ _ _ _ _ _ _ Hok) by clia. apply bool_decide_eq_true_2. clia. }
  set (nc := next_loc q0) in *.
  eapply total_next; [simpl; apply lookup_insert_eq|intros ?; simpl; unfold with_chunk; simpl; by rewrite Hc, Hbey|].
  eapply total_next; [simpl; apply lookup_insert_eq|intros ?; simpl; unfold with_chunk; simpl; by rewrite Hc, Hbg|].
  eapply total_next; [simpl; apply lookup_insert_eq|intros ?; simpl|].
  { by rewrite decide_True by (rewrite Ht; apply last_snoc). }
  eapply total_next; [simpl; apply lookup_insert_eq|intros ?; simpl; unfold with_chunk; simpl;
    by rewrite lookup_insert_ne, Hc by done|].
  eapply total_next; [simpl; apply lookup_insert_eq|intros ?; simpl; unfold with_chunk; simpl;
    rewrite lookup_insert_eq; unfold beyond; simpl; rewrite Hbg;
    by rewrite bool_decide_eq_true_2 by done|].
  eapply total_next; [simpl; apply lookup_insert_eq|intros ?; simpl; unfold with_chunk; simpl; by rewrite lookup_insert_eq|].
  eapply total_next; [simpl; apply lookup_insert_eq|intros ?; simpl; unfold with_chunk; simpl; by rewrite lookup_insert_eq|].
  eapply total_next; [simpl; apply lookup_insert_eq|intros ?; simpl; unfold with_chunk; simpl;
    rewrite lookup_insert_ne, lookup_insert_eq by done|].
  { unfold beyond. simpl. rewrite u64_small by clia. by rewrite bool_decide_eq_false_2 by clia. }
  eapply (total_push_write n k v nc i (ls ++ [l; nc]) b (head_index_ q0) (S (length ls))).
  - simpl. apply lookup_insert_eq.
  - simpl. replace i with (b + length (ls ++ [l]) * CHUNK_SIZE)%Z at 1 by (rewrite length_app; simpl; lia).
    apply layout_log; [|lia|lia]. rewrite Hi. by apply layout_extend; rewrite ?length_app; simpl; try lia.
  - by rewrite lookup_app_r, Nat.sub_succ_l, Nat.sub_diag by lia.
  - clia.
  - lia.
  - simpl. rewrite Hi, Hlog, Nat2Z.id. by apply list_lookup_middle.
  - intros q' [H1 H2 H3 H4 H5 H6 H7] Hp Hly'. simpl in *. rewrite u64_small in H5 by clia.
    apply (HQ (ls ++ [l; nc])). split_and!; try done; [|rewrite !length_app; simpl; lia|].
    + split; rewrite ?H1, ?H2, ?H3, ?H4, ?H5, ?H6; try done; rewrite ?length_app; simpl; try clia.
      * rewrite Hh. by destruct ls.
      * by rewrite (last_app_cons ls).
      * apply Forall_app in Hloc as [Hloc Hll]. apply Forall_app. split.
        { eapply Forall_impl; [exact Hloc|]. simpl. lia. }
        apply Forall_inv in Hll. repeat constructor; lia.
      * by destruct ls.
    + intros t' Ht'. rewrite H7 by done. by rewrite !lookup_insert_ne.
Qed.

Lemma total_push n k v ls b q :
  threads q !! t = Some (PushLoadChunk v) → rest q ls b →
  (tail_index_ q + 1 < 2 ^ 64 - CHUNK_SIZE)%Z → 13 + 3 * k ≤ n →
  (∀ ls' q', pushed v ls b q ls' q' → Q q') → total t Q n k q.
Proof.
  revert n q. induction k as [k IH] using lt_wf_ind. intros n q Hp Hr Hw Hn HQ.
  destruct ls as [|l ls0 _] using rev_ind; [by destruct (rest_ne _ _ _ Hr)|].
  pose proof (rest_tail _ _ _ Hr) as Htl. rewrite last_snoc in Htl.
  apply (total_mono (13 + 3 * k) k); [lia|lia|].
  eapply total_next; [exact Hp|intros ?; simpl; by rewrite Htl|].
  eapply total_next; [simpl; apply lookup_insert_eq|intros ?; done|].
  set (q1 := set_pc t (PushLoadIndex v l) q) in *.
  set (q2 := set_pc t (PushCas v l (tail_index_ q)) q1).
  assert (rest q2 (ls0 ++ [l]) b) as Hr2 by (by repeat apply rest_set_pc).
  assert (∀ ls' q', pushed v (ls0 ++ [l]) b q2 ls' q' → Q q') as HQ2.
  { intros ls' q' (P1 & P2 & P3 & P4 & P5 & P6). apply (HQ ls'). split_and!; try done.
    intros t' Ht'. rewrite P6 by done. simpl. by rewrite !lookup_insert_ne. }
  eapply total_cas; [simpl; apply lookup_insert_eq|simpl; by rewrite decide_True|
    simpl; by rewrite decide_False by (by intros [])| |].
  - destruct (decide (tail_index_ q = b + length (ls0 ++ [l]) * CHUNK_SIZE)%Z) as [Hd|Hd].
    + by apply (total_push_full (3 * k) k v l (tail_index_ q) ls0 b q2).
    + apply (total_mono (3 + (3 * k)) k); [lia|lia|].
      apply (total_push_room (3 * k) k v l (tail_index_ q) ls0 b q2); try done.
      pose proof (rest_last _ _ _ Hr2). simpl in *. lia.
  - intros k' ->. apply (IH k'); [lia|simpl; apply lookup_insert_eq|by apply rest_set_pc|done|lia|].
    intros ls' q' (P1 & P2 & P3 & P4 & P5 & P6). apply (HQ2 ls'). split_and!; try done.
    intros t' Ht'. rewrite P6 by done. simpl. by rewrite lookup_insert_ne.
Qed.

(** ** [pop] *)
Lemma holds_ref log nx bg h d c z :
  chunk_holds log nx bg h d c → (0 ≤ ref_count c + z)%Z →
  chunk_holds log nx bg h d (add_ref_count z c).
Proof. intros [] Hz. by split. Qed.

(** The value of ticket [h] is moved out of its slot and counted. *)
Lemma holds_take log nx bg h d c :
  chunk_holds log nx bg h d c → (0 ≤ h - bg < CHUNK_SIZE)%Z →
  let sl := mkSlot None (ready (slot_at c (h - bg))) in
  chunk_holds log nx bg (h + 1) d (add_read_count 1 (set_slot (h - bg) sl c)).
Proof.
  intros [H1 H2 H3 H4 H5 H6] Hh sl. split; simpl; try done.
  - clia.
  - intros off Hoff Hlt. change (slot_at _ off) with (slot_at (set_slot (h - bg) sl c) off).
    rewrite slot_at_set. case_decide as Hd; [subst; by apply H5|by apply H5].
  - intros off Hoff Hlt. change (slot_at _ off) with (slot_at (set_slot (h - bg) sl c) off).
    rewrite slot_at_set, decide_False by lia. apply H6; [done|lia].
Qed.

Lemma holds_elsewhere log nx bg h d c :
  chunk_holds log nx bg h d c → ¬ (0 ≤ h - bg < CHUNK_SIZE)%Z → chunk_holds log nx bg (h + 1) d c.
Proof.
  intros [H1 H2 H3 H4 H5 H6] Hh. split; try done; [clia|].
  intros off Hoff Hlt. apply H6; [done|lia].
Qed.

Lemma layout_ref ch log ls b h d i l c z :
  layout ch log ls b h d → ls !! i = Some l → ch !! l = Some c → (0 ≤ ref_count c + z)%Z →
  layout (<[l := add_ref_count z c]> ch) log ls b h d.
Proof.
  intros Hly Hl Hc Hz. destruct (ly_chunk _ _ _ _ _ _ Hly i l Hl) as (c' & Hc' & Hok).
  rewrite Hc in Hc'. injection Hc' as <-.
  eapply layout_update; [done|done|by apply holds_ref|done].
Qed.

Lemma layout_take ch log ls b h d (i : nat) l c :
  layout ch log ls b h d → ls !! i = Some l → ch !! l = Some c →
  (0 ≤ h - (b + i * CHUNK_SIZE) < CHUNK_SIZE)%Z →
  let off := (h - (b + i * CHUNK_SIZE))%Z in
  layout (<[l := add_read_count 1 (set_slot off (mkSlot None (ready (slot_at c off))) c)]> ch)
    log ls b (h + 1) d.
Proof.
  intros Hly Hl Hc Hh off. destruct (ly_chunk _ _ _ _ _ _ Hly i l Hl) as (c' & Hc' & Hok).
  rewrite Hc in Hc'. injection Hc' as <-.
  eapply layout_update; [done|done|by apply holds_take|].
  intros j c' nx Hj Hok'. apply holds_elsewhere; [done|]. clia.
Qed.

(** The thread is past the wait for the slot; it holds a reference on the first
    chunk if that is where it reads. *)
Lemma total_pop_take n k hc rc v ls b h d (j : nat) q :
  threads q !! t = Some (PopWaitReady hc h rc) → layout (chunks q) (push_log q) ls b h d →
  ls !! j = Some rc → (0 ≤ h - (b + j * CHUNK_SIZE) < CHUNK_SIZE)%Z → (h < d)%Z →
  push_log q !! Z.to_nat h = Some v →
  (∀ c, rc = hc → chunks q !! hc = Some c → (1 ≤ ref_count c)%Z) →
  (∀ q', framed q q' → threads q' !! t = Some (PopDone (Some (Some v))) →
     layout (chunks q') (push_log q) ls b (h + 1) d → Q q') →
  total t Q (4 + n) k q.
Proof.
  intros Hp Hly Hj Hoff Hd Hv Href HQ. destruct (ly_chunk _ _ _ _ _ _ Hly j rc Hj) as (c & Hc & Hok).
  pose proof (layout_take _ _ _ _ _ _ _ _ _ Hly Hj Hc Hoff) as Hly1. cbv zeta in Hly1.
  pose proof (ch_ready _ _ _ _ _ _ Hok _ Hoff ltac:(lia)) as Hrdy.
  pose proof (ch_value _ _ _ _ _ _ Hok _ Hoff ltac:(lia)) as Hval.
  replace (b + j * CHUNK_SIZE + (h - (b + j * CHUNK_SIZE)))%Z with h in Hval by lia.
  rewrite Hv in Hval.
  eapply total_next; [exact Hp|intros ?; simpl; unfold with_chunk; rewrite Hc;
    rewrite (with_slot_spec _ _ _ _ _ _ _ _ Hok Hoff); by rewrite Hrdy|].
  eapply total_next; [simpl; apply lookup_insert_eq|intros ?; simpl; unfold with_chunk; simpl; rewrite Hc;
    rewrite (with_slot_spec _ _ _ _ _ _ _ _ Hok Hoff); by rewrite Hval|].
  eapply total_next; [simpl; apply lookup_insert_eq|intros ?; simpl; unfold with_chunk; simpl;
    by rewrite lookup_insert_eq|].
  destruct (decide (rc = hc)) as [->|Hne].
  - eapply total_next; [simpl; apply lookup_insert_eq|intros ?; simpl; unfold with_chunk; simpl;
      rewrite !insert_insert_eq, lookup_insert_eq; reflexivity|].
    eapply total_ret; [simpl; apply lookup_insert_eq|done|].
    apply HQ; [split; try done|simpl; apply lookup_insert_eq|].
    + intros t' Ht'. simpl. by rewrite !lookup_insert_ne.
    + simpl. rewrite !insert_insert_eq. rewrite <-(insert_insert_eq (chunks q) hc
        (add_ref_count (-1) _) (add_read_count 1 (set_slot (h - (b + j * CHUNK_SIZE))
          (mkSlot None (ready (slot_at c (h - (b + j * CHUNK_SIZE))))) c))).
      eapply layout_ref; [exact Hly1|done|by rewrite lookup_insert_eq|].
      simpl. specialize (Href c eq_refl Hc). lia.
  - eapply total_ret; [simpl; apply lookup_insert_eq|done|].
    apply HQ; [split; try done|simpl; apply lookup_insert_eq|].
    + intros t' Ht'. simpl. by rewrite !lookup_insert_ne.
    + simpl. by rewrite insert_insert_eq.
Qed.

Lemma framed_trans q1 q2 q3 : framed q1 q2 → framed q2 q3 → framed q1 q3.
Proof.
  intros [A1 A2 A3 A4 A5 A6 A7] [B1 B2 B3 B4 B5 B6 B7]. split; try congruence.
  intros t' Ht'. by rewrite B7, A7.
Qed.
Lemma framed_set_pc p q : framed q (set_pc t p q).
Proof. split; try done. intros t' Ht'. simpl. by rewrite lookup_insert_ne. Qed.
Lemma framed_upd_chunk l c q : framed q (upd_chunk l c q).
Proof. by split. Qed.

(** From chunk [m] of the list to the chunk of the ticket. *)
Lemma total_pop_walk n k hc rc v ls b h d (j m : nat) q :
  threads q !! t = Some (PopWalk hc h rc) → layout (chunks q) (push_log q) ls b h d →
  ls !! 0 = Some hc → ls !! m = Some rc → m ≤ j → j < length ls →
  (0 ≤ h - (b + j * CHUNK_SIZE) < CHUNK_SIZE)%Z → (h < d < 2 ^ 64 - CHUNK_SIZE)%Z → (0 ≤ b)%Z →
  push_log q !! Z.to_nat h = Some v →
  (∀ c, chunks q !! hc = Some c → (1 ≤ ref_count c)%Z) → 3 * (j - m) + 6 ≤ n →
  (∀ q', framed q q' → threads q' !! t = Some (PopDone (Some (Some v))) →
     layout (chunks q') (push_log q) ls b (h + 1) d → Q q') →
  total t Q n k q.
Proof.
  remember (j - m) as x eqn:Hx. revert m rc n q Hx.
  induction x as [|x IH]; intros m rc n q Hx Hp Hly H0 Hm Hle Hlt Hh Hd Hb Hv Href Hn HQ;
    destruct (ly_chunk _ _ _ _ _ _ Hly m rc Hm) as (c & Hc & Hok).
  - assert (m = j) as -> by lia. apply (total_mono (6 + 0) k); [lia|lia|].
    assert (beyond c h = false) as Hbey.
    { rewrite (beyond_holds _ _ _ _ _ _ _ Hok) by clia. apply bool_decide_eq_false_2. clia. }
    destruct (decide (rc = hc)) as [->|Hne].
    + eapply total_next; [exact Hp|intros ?; simpl; unfold with_chunk;
        by rewrite Hc, Hbey, decide_True by done|].
      eapply (total_pop_take 1 k hc hc v ls b h d j); simpl; try done; [apply lookup_insert_eq|lia|naive_solver|].
      intros q' Hfr Hp' Hly'. apply HQ; [|done|done]. eapply framed_trans; [apply framed_set_pc|done].
    + eapply total_next; [exact Hp|intros ?; simpl; unfold with_chunk;
        by rewrite Hc, Hbey, decide_False by done|].
      destruct (ly_chunk _ _ _ _ _ _ Hly 0 hc H0) as (c0 & Hc0 & Hok0).
      eapply total_next; [simpl; apply lookup_insert_eq|intros ?; simpl; unfold with_chunk; simpl; by rewrite Hc0|].
      eapply (total_pop_take 0 k hc rc v ls b h d j); simpl; try done; [apply lookup_insert_eq| |lia|].
      * eapply layout_ref; [done|done|done|]. specialize (Href c0 Hc0). lia.
      * intros q' Hfr Hp' Hly'. apply HQ; [|done|done].
        eapply framed_trans; [|exact Hfr].
        eapply framed_trans; [apply (framed_set_pc (PopUnrefEarly hc h rc))|].
        eapply framed_trans; [apply (framed_upd_chunk hc (add_ref_count (-1) c0))|apply framed_set_pc].
  - assert (beyond c h = true) as Hbey.
    { rewrite (beyond_holds _ _ _ _ _ _ _ Hok) by clia. apply bool_decide_eq_true_2. clia. }
    destruct (lookup_lt_is_Some_2 ls (S m)) as [rc' Hm']; [lia|].
    pose proof (ch_next _ _ _ _ _ _ Hok) as Hnx. rewrite Hm' in Hnx.
    destruct n as [|[|[|n]]]; [lia..|].
    eapply total_next; [exact Hp|intros ?; simpl; unfold with_chunk; by rewrite Hc, Hbey|].
    eapply total_next; [simpl; apply lookup_insert_eq|intros ?; simpl; unfold with_chunk; simpl; by rewrite Hc, Hnx|].
    eapply total_next; [simpl; apply lookup_insert_eq|intros ?; simpl; unfold with_chunk; simpl; by rewrite Hc, Hnx|].
    eapply (IH (S m) rc'); simpl; try done; try lia; [apply lookup_insert_eq|].
    intros q' Hfr Hp' Hly'. apply HQ; [|done|done].
    eapply framed_trans; [|exact Hfr].
    do 2 (eapply framed_trans; [apply framed_set_pc|]). apply framed_set_pc.
Qed.

(** What [pop] promises. *)
Definition popped ls q ls' b' q' : Prop :=
  rest q' ls' b' ∧ length ls' ≤ length ls ∧ push_log q' = push_log q ∧
  (∀ t', t' ≠ t → threads q' !! t' = threads q !! t') ∧
  match held q with
  | [] => threads q' !! t = Some (PopDone None) ∧ head_index_ q' = head_index_ q
  | v :: _ => threads q' !! t = Some (PopDone (Some (Some v))) ∧
      head_index_ q' = (head_index_ q + 1)%Z
  end.

(** A state that differs from [q0] in the chunks and in the calling thread. *)
Definition same_queue q0 q : Prop :=
  push_log q = push_log q0 ∧ head_index_ q = head_index_ q0 ∧
  ∀ t', t' ≠ t → threads q !! t' = threads q0 !! t'.

Lemma same_queue_set_pc q0 p q : same_queue q0 q → same_queue q0 (set_pc t p q).
Proof. intros (H1 & H2 & H3). split_and!; try done. intros t' Ht'. simpl. by rewrite lookup_insert_ne, H3. Qed.

Lemma popped_same ls ls1 q0 q ls' b' q' :
  same_queue q0 q → length ls1 ≤ length ls → popped ls1 q ls' b' q' → popped ls q0 ls' b' q'.
Proof.
  intros (H1 & H2 & H3) Hle (P1 & P2 & P3 & P4 & P5). unfold held in *. rewrite H1, H2 in P5.
  split_and!; [done|lia|congruence| |done]. intros t' Ht'. by rewrite P4, H3.
Qed.

Lemma held_cons q v vs : held q = v :: vs → push_log q !! Z.to_nat (head_index_ q) = Some v.
Proof.
  unfold held. intros Hh. rewrite <-(Nat.add_0_r (Z.to_nat _)), <-lookup_drop, Hh. done.
Qed.

Lemma held_empty ls b q : rest q ls b → head_index_ q = tail_index_ q ↔ held q = [].
Proof.
  intros [_ _ _ _ Hlog Hb Ho _ _ _]. unfold held. split; intros Hd.
  - apply drop_ge. lia.
  - apply (f_equal length) in Hd. rewrite length_drop in Hd. simpl in Hd. lia.
Qed.

(** The reference is taken and the ticket is drawn. *)
Lemma total_pop_ref n k hc ls b q :
  threads q !! t = Some (PopRef hc (head_index_ q)) → rest q ls b → head ls = Some hc →
  held q ≠ [] → 3 * length ls + 8 ≤ n →
  (∀ ls' b' q', popped ls q ls' b' q' → Q q') →
  (∀ n' k' q', k = S k' → n ≤ n' + 2 → same_queue q q' → rest q' ls b →
     threads q' !! t = Some PopLoadChunk → total t Q n' k' q') →
  total t Q n k q.
Proof.
  intros Hp Hr Hhd Hne Hn HQ Hretry. pose proof Hr as [Hly Hh Htl Hloc Hlog Hb Ho Hlast Hw _].
  destruct (held q) as [|v vs] eqn:Hheld; [done|]. pose proof (held_cons _ _ _ Hheld) as Hv.
  assert (head_index_ q < tail_index_ q)%Z as Hlt.
  { apply lookup_lt_Some in Hv. lia. }
  assert (ls !! 0 = Some hc) as H0 by (by destruct ls).
  destruct (ly_chunk _ _ _ _ _ _ Hly 0 hc H0) as (c & Hc & Hok).
  pose proof (ch_ref _ _ _ _ _ _ Hok) as Href. destruct n as [|[|n]]; [lia..|].
  pose proof (layout_ref _ _ _ _ _ _ _ _ _ 1 Hly H0 Hc ltac:(lia)) as Hly1.
  eapply total_next; [exact Hp|intros ?; simpl; unfold with_chunk; by rewrite Hc|].
  eapply total_cas; [simpl; apply lookup_insert_eq|simpl; by rewrite decide_True|
    simpl; by rewrite decide_False by (by intros [])| |].
  - set (j := Z.to_nat ((head_index_ q - b) / CHUNK_SIZE)).
    assert ((0 ≤ head_index_ q - (b + j * CHUNK_SIZE) < CHUNK_SIZE)%Z ∧ j < length ls) as [Hj1 Hj2].
    { subst j. rewrite CHUNK_SIZE_val in *.
      pose proof (Z.div_pos (head_index_ q - b) 4096 ltac:(lia) ltac:(lia)).
      pose proof (Z.div_mod (head_index_ q - b) 4096 ltac:(lia)).
      pose proof (Z.mod_pos_bound (head_index_ q - b) 4096 ltac:(lia)). rewrite Z2Nat.id by lia. lia. }
    eapply (total_pop_walk n k hc hc v ls b (head_index_ q) (tail_index_ q) j 0); simpl; try done; try lia.
    + apply lookup_insert_eq.
    + rewrite lookup_insert_eq. intros c' [= <-]. simpl. lia.
    + intros q' [F1 F2 F3 F4 F5 F6 F7] Hp' Hly'. simpl in *. rewrite u64_small in F3 by clia.
      apply (HQ ls b). unfold popped. rewrite Hheld. split_and!; try done.
      * split; rewrite ?F1, ?F2, ?F3, ?F4, ?F5, ?F6; try done; try lia. apply Hr.
      * intros t' Ht'. rewrite F7 by done. by rewrite !lookup_insert_ne.
  - intros k' ->. apply (Hretry n k'); [done|lia| | |simpl; apply lookup_insert_eq].
    + split_and!; try done. intros t' Ht'. simpl. by rewrite !lookup_insert_ne.
    + split; simpl; try done. apply Hr.
Qed.

(** The first chunk has been read whole and nobody refers to it: it is freed. *)
Lemma rest_free l ls b q :
  rest q (l :: ls) b → (b + CHUNK_SIZE ≤ head_index_ q < tail_index_ q)%Z →
  ∃ l2, head ls = Some l2 ∧
  rest (set_chunks (delete l) (set_head_chunk (Some l2) q)) ls (b + CHUNK_SIZE).
Proof.
  intros [Hly Hh Htl Hloc Hlog Hb Ho Hlast Hw _] Hd. simpl in Hlast.
  destruct ls as [|l2 ls]; [simpl in Hlast; lia|]. exists l2. split; [done|].
  split; simpl in *; try done; try clia.
  - by apply layout_drop in Hly.
  - by apply Forall_cons in Hloc as [_ Hloc].
Qed.

(** [pop] on a queue at rest. *)
Lemma total_pop n k ls b q :
  threads q !! t = Some PopLoadChunk → rest q ls b → 12 * length ls + 20 * (k + 1) ≤ n →
  (∀ ls' b' q', popped ls q ls' b' q' → Q q') → total t Q n k q.
Proof.
  remember (k + length ls) as m eqn:Hm. revert k ls b n q Hm.
  induction m as [m IH] using lt_wf_ind. intros k ls b n q -> Hp Hr Hn HQ.
  pose proof Hr as [Hly Hh Htl Hloc Hlog Hb Ho Hlast Hw Hnil].
  destruct ls as [|hc ls]; [done|]. simpl in Hh. cbn [length] in Hn.
  destruct n as [|[|[|[|[|n]]]]]; [lia..|].
  eapply total_next; [exact Hp|intros ?; simpl; by rewrite Hh|].
  eapply total_next; [simpl; apply lookup_insert_eq|intros ?; done|].
  set (q2 := set_pc t (PopEmpty hc _) (set_pc t (PopLoadIndex hc) q)).
  assert (rest q2 (hc :: ls) b) as Hr2 by (by repeat apply rest_set_pc).
  assert (same_queue q q2) as Hs2 by (by repeat apply same_queue_set_pc).
  destruct (decide (head_index_ q = tail_index_ q)) as [Heq|Hne].
  { eapply total_next; [simpl; apply lookup_insert_eq|intros ?; simpl; by rewrite decide_True|].
    eapply total_ret; [simpl; apply lookup_insert_eq|done|]. apply (HQ (hc :: ls) b).
    unfold popped. rewrite (proj1 (held_empty _ _ _ Hr) Heq). split_and!; try done.
    - by destruct (same_queue_set_pc q (PopDone None) q2 Hs2) as (_ & _ & Hoth).
    - simpl. by rewrite lookup_insert_eq. }
  eapply total_next; [simpl; apply lookup_insert_eq|intros ?; simpl; by rewrite decide_False|].
  assert (held q ≠ []) as Hheld by (by rewrite <-(held_empty _ _ _ Hr)).
  (** the two ways to [PopRef] *)
  assert (∀ n' q', same_queue q q' → rest q' (hc :: ls) b → n ≤ n' + 1 →
    threads q' !! t = Some (PopRef hc (head_index_ q)) → total t Q n' k q') as Href.
  { intros n' q' Hs' Hr' Hn' Hp'. pose proof Hs' as (S1 & S2 & S3). rewrite <-S2 in Hp'.
    eapply (total_pop_ref n' k hc (hc :: ls) b q' Hp' Hr'); simpl; try done; try lia.
    - unfold held. by rewrite S1, S2.
    - intros ls' b' q'' Hpop. apply (HQ ls' b'). by eapply popped_same.
    - intros n'' k' q'' -> Hn'' (U1 & U2 & U3) Hr'' Hp''.
      assert (same_queue q q'') as Hs''
        by (split_and!; [congruence|congruence|]; intros t' Ht'; by rewrite U3, S3).
      apply (IH (k' + length (hc :: ls)) ltac:(lia) k' (hc :: ls) b); try done; [simpl; lia|].
      intros ls' b' q3 Hpop. apply (HQ ls' b'). by eapply popped_same. }
  destruct (ly_chunk _ _ _ _ _ _ Hly 0 hc eq_refl) as (c & Hc & Hok). rewrite Z.add_0_r in Hok.
  destruct (decide (read_count c = CHUNK_SIZE)) as [Hrc|Hrc]; cycle 1.
  { eapply total_next; [simpl; apply lookup_insert_eq|intros ?; simpl; unfold with_chunk; simpl;
      by rewrite Hc, decide_False|].
    apply Href; [by do 2 apply same_queue_set_pc|by do 2 apply rest_set_pc|lia|simpl; apply lookup_insert_eq]. }
  eapply total_next; [simpl; apply lookup_insert_eq|intros ?; simpl; unfold with_chunk; simpl;
      by rewrite Hc, decide_True|].
  destruct n as [|[|[|[|[|n]]]]]; [lia..|].
  destruct (decide (ref_count c = 0)%Z) as [Hz|Hz]; cycle 1.
  { eapply total_next; [simpl; apply lookup_insert_eq|intros ?; simpl; unfold with_chunk; simpl;
      by rewrite Hc, decide_False|].
    apply Href; [by do 3 apply same_queue_set_pc|by do 3 apply rest_set_pc|lia|simpl; apply lookup_insert_eq]. }
  rewrite (ch_read _ _ _ _ _ _ Hok) in Hrc.
  destruct (rest_free hc ls b q Hr ltac:(clia)) as (l2 & Hl2 & Hr3).
  pose proof (ch_next _ _ _ _ _ _ Hok) as Hnx. simpl in Hnx.
  assert (next c = Some l2) as Hnx2 by (rewrite Hnx; by destruct ls).
  eapply total_next; [simpl; apply lookup_insert_eq|intros ?; simpl; unfold with_chunk; simpl;
    by rewrite Hc, decide_True|].
  eapply total_next; [simpl; apply lookup_insert_eq|intros ?; simpl; unfold with_chunk; simpl;
    by rewrite Hc, Hnx2|].
  eapply total_next; [simpl; apply lookup_insert_eq|intros ?; simpl; unfold with_chunk; simpl;
    by rewrite Hc, Hnx2|].
  eapply total_cas; [simpl; apply lookup_insert_eq|simpl; by rewrite decide_True|
    simpl; by rewrite decide_False by (by intros [])| |].
  - eapply total_next; [simpl; apply lookup_insert_eq|intros ?; simpl; unfold with_chunk; simpl; by rewrite Hc|].
    eapply (IH (k + length ls)); [simpl; lia|done|simpl; apply lookup_insert_eq| |lia|].
    + by eapply (rest_eq _ _ _ _ Hr3).
    + intros ls' b' q' Hpop. apply (HQ ls' b'). eapply (popped_same (hc :: ls) ls); [|simpl; lia|exact Hpop].
      split_and!; try done. intros t' Ht'. simpl. by rewrite !lookup_insert_ne.
  - intros k' ->. apply (IH (k' + length (hc :: ls)) ltac:(simpl; lia) k' (hc :: ls) b);
      [done|simpl; apply lookup_insert_eq|by repeat apply rest_set_pc|cbn [length]; lia|].
    intros ls' b' q' Hpop. apply (HQ ls' b'). eapply (popped_same _ (hc :: ls)); [|done|exact Hpop].
    by repeat apply same_queue_set_pc.
Qed.
End call.

(** ** Runs *)
Lemma step_returned t b q :
  may_call (default Idle (threads q !! t)) = true → step t b q = Done q.
Proof. unfold step. by destruct (default Idle (threads q !! t)). Qed.

Definition failures (bs : list bool) : nat := length (filter (λ b, b = true) bs).

Lemma total_run t Q n k bs q :
  total t Q n k q → failures bs ≤ k → n ≤ length bs →
  ∃ q', run (AStep t <$> bs) q = Done q' ∧ Q q' ∧
    may_call (default Idle (threads q' !! t)) = true.
Proof.
  revert n k q. induction bs as [|b bs IH]; intros n k q Ht Hk Hn; simpl in Hn.
  { destruct n; [|lia]. destruct Ht as [[Hm HQ]|[]]. by exists q. }
  destruct n as [|n]; [|destruct Ht as [[Hm HQ]|[(q1 & H1 & Ht1) Ht2]]].
  1,2: destruct Ht as [[Hm HQ]|[]] || idtac; csimpl; rewrite step_returned by done;
    apply (IH 0 (failures bs)); [by left|done|lia].
  unfold failures in Hk. rewrite filter_cons in Hk. csimpl. destruct b; case_decide; try done; simpl in Hk.
  - destruct k as [|k]; [lia|]. destruct Ht2 as (q2 & H2 & Ht2). rewrite H2.
    apply (IH n k); [done|unfold failures; lia|lia].
  - rewrite H1. apply (IH n k); [done|done|lia].
Qed.

(** A call of thread [t] and its steps, with what it returned: [Some v] pushes
    [v], [None] pops. *)
Definition seq_call (x : tid * option T * list bool) (q : qstate T)
    : outcome (option (option T) * qstate T) :=
  let t := x.1.1 in
  let call := match x.1.2 with Some v => ACallPush t v | None => ACallPop t end in
  match run (call :: (AStep t <$> x.2)) q with
  | Done q' =>
      match threads q' !! t with
      | Some PushDone => Done (None, q')
      | Some (PopDone r) => Done (r, q')
      | _ => OutOfFuel
      end
  | Faulted f => Faulted f
  | OutOfFuel => OutOfFuel
  end.

Fixpoint seq_run (xs : list (tid * option T * list bool)) (q : qstate T)
    : outcome (list (option (option T)) * qstate T) :=
  match xs with
  | [] => Done ([], q)
  | x :: xs =>
      match seq_call x q with
      | Done (r, q1) =>
          match seq_run xs q1 with
          | Done (rs, q2) => Done (r :: rs, q2)
          | Faulted f => Faulted f
          | OutOfFuel => OutOfFuel
          end
      | Faulted f => Faulted f
      | OutOfFuel => OutOfFuel
      end
  end.

(** The reference: a list. *)
Definition fifo_call (op : option T) (l : list T) : option (option T) * list T :=
  match op, l with
  | Some v, _ => (None, l ++ [v])
  | None, [] => (None, [])
  | None, v :: l => (Some (Some v), l)
  end.

Fixpoint fifo_run (ops : list (option T)) (l : list T) : list (option (option T)) * list T :=
  match ops with
  | [] => ([], l)
  | op :: ops =>
      let r := fifo_call op l in
      let rs := fifo_run ops r.2 in
      (r.1 :: rs.1, rs.2)
  end.

Definition idle q : Prop := ∀ t, may_call (default Idle (threads q !! t)) = true.

Lemma rest_new : rest (queue_new (T := T)) [1%positive] 0.
Proof.
  split; simpl; try done; try clia; [|by repeat constructor].
  split; [apply NoDup_singleton| |].
  - intros l [c Hc]. apply lookup_singleton_Some in Hc as [<- _]. set_solver.
  - intros i l Hi. apply list_lookup_singleton_Some in Hi as [-> <-]. exists (new_chunk 0).
    rewrite lookup_singleton_eq. split; [done|]. by apply new_chunk_holds.
Qed.

Lemma seq_call_spec x k ls b q :
  rest q ls b → idle q → (tail_index_ q + 1 < 2 ^ 64 - CHUNK_SIZE)%Z →
  failures x.2 ≤ k → 12 * length ls + 20 * (k + 1) ≤ length x.2 →
  ∃ q' ls' b', seq_call x q = Done ((fifo_call x.1.2 (held q)).1, q') ∧
    held q' = (fifo_call x.1.2 (held q)).2 ∧ rest q' ls' b' ∧ idle q' ∧
    length ls' ≤ S (length ls) ∧ length (push_log q') ≤ S (length (push_log q)).
Proof.
  destruct x as [[t op] bs]. simpl. intros Hr Hidle Hw Hk Hn.
  pose proof Hr as [_ _ _ _ Hlog Hb Ho _ _ _]. unfold seq_call. cbn [fst snd].
  destruct op as [v|]; cbn [run act].
  - unfold call_push. rewrite Hidle.
    destruct (total_run t (λ q', ∃ ls', pushed t v ls b (set_pc t (PushLoadChunk v) q) ls' q')
      (13 + 3 * k) k bs (set_pc t (PushLoadChunk v) q)) as (q' & Hrun & (ls' & P1 & P2 & P3 & P4 & P5 & P6) & _);
      [|done|lia|].
    { eapply (total_push t _ _ k v ls b); simpl; try done; [apply lookup_insert_eq|by apply rest_set_pc|].
      intros ls' q' Hpu. by exists ls'. }
    rewrite Hrun, P5. exists q', ls', b. simpl in *. split_and!; try done.
    + unfold held. rewrite P3, P4. rewrite drop_app_le by lia. done.
    + intros t'. destruct (decide (t' = t)) as [->|Ht']; [by rewrite P5|].
      rewrite P6 by done. rewrite lookup_insert_ne by done. apply Hidle.
    + rewrite P3, length_app. simpl. lia.
  - unfold call_pop. rewrite Hidle.
    destruct (total_run t (λ q', ∃ ls' b', popped t ls (set_pc t PopLoadChunk q) ls' b' q')
      (12 * length ls + 20 * (k + 1)) k bs (set_pc t PopLoadChunk q))
      as (q' & Hrun & (ls' & b' & P1 & P2 & P3 & P4 & P5) & _); [|done|lia|].
    { eapply (total_pop t _ _ k ls b); simpl; try done; [apply lookup_insert_eq|by apply rest_set_pc|].
      intros ls' b' q' Hpo. by exists ls', b'. }
    rewrite Hrun. change (held (set_pc t PopLoadChunk q)) with (held q) in P5. simpl in P3, P4, P5.
    assert (∀ r, threads q' !! t = Some (PopDone r) → idle q') as Hidle'.
    { intros r Hr' t'. destruct (decide (t' = t)) as [->|Ht']; [by rewrite Hr'|].
      rewrite P4 by done. rewrite lookup_insert_ne by done. apply Hidle. }
    exists q', ls', b'. destruct (held q) as [|v vs] eqn:Hh; destruct P5 as [P5 P6]; rewrite P5; simpl.
    + split_and!; try done; [|by eapply Hidle'|lia|rewrite P3; lia].
      unfold held in *. by rewrite P3, P6.
    + split_and!; try done; [|by eapply Hidle'|lia|rewrite P3; lia].
      unfold held in *. rewrite P3, P6, Z2Nat.inj_add by lia. rewrite <-drop_drop, Hh. done.
Qed.

(** The state of the queue does not matter beyond [rest]. *)
Lemma seq_run_spec xs k ls b q :
  rest q ls b → idle q → (length (push_log q) + length xs < 2 ^ 64 - CHUNK_SIZE)%Z →
  Forall (λ x, failures x.2 ≤ k ∧ 12 * (length ls + length xs) + 20 * (k + 1) ≤ length x.2) xs →
  ∃ q', seq_run xs q = Done ((fifo_run xs.*1.*2 (held q)).1, q') ∧
    held q' = (fifo_run xs.*1.*2 (held q)).2 ∧
    ∃ ls' b', rest q' ls' b' ∧ length ls' ≤ length ls + length xs.
Proof.
  revert ls b q. induction xs as [|x xs IH]; intros ls b q Hr Hidle Hlen Hxs.
  { exists q. split_and!; try done. exists ls, b. split; [done|lia]. }
  apply Forall_cons in Hxs as [[Hk Hn] Hxs]. simpl in Hlen, Hn.
  pose proof (rest_log _ _ _ Hr) as Hlog.
  destruct (seq_call_spec x k ls b q) as (q1 & ls1 & b1 & Hcall & Hheld & Hr1 & Hidle1 & Hl1 & Hp1);
    [done|done|lia|done|lia|].
  destruct (IH ls1 b1 q1) as (q2 & Hrun & Hheld2 & ls2 & b2 & Hr2 & Hl2); [done|done|lia| |].
  { eapply Forall_impl; [exact Hxs|]. intros y [Hyk Hyn]. simpl in Hyn. split; [done|lia]. }
  rewrite Hheld in Hrun, Hheld2. exists q2. cbn [seq_run]. rewrite Hcall, Hrun. csimpl.
  split_and!; try done. exists ls2, b2. split; [done|lia].
Qed.

(** The destructor frees every chunk. *)
Lemma destroy_layout n log ls b h d q :
  layout (chunks q) log ls b h d → length ls ≤ n →
  ∃ q', queue_destroy n (head ls) q = Done q' ∧ chunks q' = ∅.
Proof.
  revert n b q. induction ls as [|l ls IH]; intros n b q Hly Hn.
  { exists q. split; [by destruct n|]. apply map_empty. intros l. apply eq_None_not_Some.
    intros Hl%(ly_dom _ _ _ _ _ _ Hly). by apply elem_of_nil in Hl. }
  destruct n as [|n]; simpl in Hn; [lia|].
  destruct (ly_chunk _ _ _ _ _ _ Hly 0 l eq_refl) as (c & Hc & Hok).
  simpl. unfold with_chunk. rewrite Hc, (ch_next _ _ _ _ _ _ Hok). simpl.
  rewrite <-head_lookup. apply (IH n (b + CHUNK_SIZE)%Z); [by apply layout_drop|lia].
Qed.

Lemma destroy_rest n ls b q :
  rest q ls b → length ls ≤ n →
  ∃ q', queue_destroy n (head_chunk_ q) q = Done q' ∧ chunks q' = ∅.
Proof. intros [Hly Hh _ _ _ _ _ _ _ _] Hn. rewrite Hh. by eapply destroy_layout. Qed.
End sequential.
