(* ===== verification/MpmcBugs.v ===== *)
(** * Executions of the queue that go wrong

    Concrete interleavings, run by the model: a producer that reads a freed
    chunk, a reference count that is never given back, and a [push] that waits
    for a chunk nobody will link.  All three need only one or two other threads
    that make complete calls. *)
From S2P Require Import Prelude Mpmc.

Section traces.
Context {T : Type}.

(** A complete call of thread [t], no other thread stepping in between; the
    numbers of steps are enough for every branch, and steps of a thread that has
    returned have no effect. *)
Definition full_push (t : tid) (v : T) : list (action T) :=
  ACallPush t v :: replicate 13 (AStep t false).
Definition full_pop (t : tid) : list (action T) :=
  ACallPop t :: replicate 20 (AStep t false).

Lemma run_app acts1 acts2 (q : qstate T) :
  run (acts1 ++ acts2) q =
    match run acts1 q with
    | Done q' => run acts2 q'
    | Faulted f => Faulted f
    | OutOfFuel => OutOfFuel
    end.
Proof.
  revert q. induction acts1 as [|a acts1 IH]; intros q; simpl; [done|].
  destruct (act a q); [apply IH|done|done].
Qed.

Lemma act_log_length a (q q' : qstate T) :
  act a q = Done q' → length (push_log q') ≤ S (length (push_log q)).
Proof.
  destruct a as [t v|t|t b]; simpl.
  - intros [= <-]. unfold call_push. case_match; simpl; lia.
  - intros [= <-]. unfold call_pop. case_match; simpl; lia.
  - unfold step. destruct (default Idle (threads q !! t)); simpl;
      unfold with_chunk, with_slot, load_ptr; repeat case_match; intros; simplify_eq;
      simpl; rewrite ?length_app; simpl; lia.
Qed.

Lemma run_reachable acts (q q' : qstate T) :
  reachable q → run acts q = Done q' →
  (length (push_log q) + length acts < 2 ^ 64 - CHUNK_SIZE)%Z → reachable q'.
Proof.
  revert q. induction acts as [|a acts IH]; intros q Hq Hrun Hlen; simpl in *.
  { by injection Hrun as <-. }
  destruct (act a q) as [q1| |] eqn:Ha; [|done|done].
  pose proof (act_log_length _ _ _ Ha). apply (IH q1); [|done|lia].
  eapply reachable_act; [done|done|lia].
Qed.
End traces.

(** Thread 1 has loaded [tail_chunk_] and nothing else; thread 0 pushes one
    value more than a chunk holds, thread 2, the only consumer, pops them all,
    freeing the chunk; then thread 1 goes on. *)
Definition stale_producer : list (action nat) :=
  [ACallPush 1 7; AStep 1 false] ++
  concat (replicate (S (Z.to_nat CHUNK_SIZE)) (full_push 0 5)) ++
  concat (replicate (S (Z.to_nat CHUNK_SIZE)) (full_pop 2)) ++
  replicate 3 (AStep 1 false).

Lemma stale_producer_faults : run stale_producer queue_new = Faulted UseAfterFree.
Proof. vm_compute. reflexivity. Qed.

(** Two consumers race for one value: the loser's reference stays. *)
Definition leaky_consumer : list (action nat) :=
  full_push 0 5 ++
  (ACallPop 1 :: replicate 5 (AStep 1 false)) ++   (** up to its [compare_exchange] *)
  full_pop 2 ++
  replicate 5 (AStep 1 false).                      (** fails, and finds the queue empty *)

(** Thread 1 has loaded [tail_chunk_]; thread 0 pushes two chunks full; then
    thread 1 goes on. *)
Definition stuck_producer : list (action nat) :=
  [ACallPush 1 7; AStep 1 false] ++
  concat (replicate (2 * Z.to_nat CHUNK_SIZE) (full_push 0 5)) ++
  replicate 11 (AStep 1 false).

Definition all_idle (q : qstate nat) : bool :=
  forallb (λ e, may_call e.2) (map_to_list (threads q)).

Definition check_leak (o : outcome (qstate nat)) : bool :=
  match o with
  | Done q => all_idle q &&
      match chunks q !! 1%positive with Some c => (ref_count c =? 1)%Z | None => false end
  | _ => false
  end.

Definition check_stuck (o : outcome (qstate nat)) : bool :=
  match o with
  | Done q =>
      match threads q !! 1, threads q !! 0 with
      | Some (PushSpin _ 2%positive _), Some PushDone =>
          (size (threads q) =? 2)%nat &&
          match chunks q !! 2%positive with
          | Some c => bool_decide (next c = None)
          | None => false
          end
      | _, _ => false
      end
  | _ => false
  end.

Lemma check_stuck_spec o :
  check_stuck o = true →
  ∃ q c, o = Done q ∧ threads q !! 0 = Some PushDone ∧ size (threads q) = 2 ∧
    chunks q !! 2%positive = Some c ∧ next c = None ∧ ∀ b, step 1 b q = Done q.
Proof.
  unfold check_stuck. destruct o as [q| |]; [|done|done].
  destruct (threads q !! 1) as [p1|] eqn:H1; [|done]. destruct p1; try done.
  case_match; try done. case_match; try done.
  destruct (threads q !! 0) as [p0|] eqn:Hp0; [|done]. destruct p0; try done.
  intros [Hsz Hnx]%andb_true_iff. destruct (chunks q !! 2%positive) as [c|] eqn:Hc; [|done].
  apply bool_decide_eq_true in Hnx. apply Nat.eqb_eq in Hsz.
  exists q, c. split_and!; try done. intros b. unfold step. rewrite H1. simpl. subst.
  unfold with_chunk. by rewrite Hc, Hnx.
Qed.

Lemma leaky_consumer_check : check_leak (run leaky_consumer queue_new) = true.
Proof. vm_compute. reflexivity. Qed.

Lemma stuck_producer_check : check_stuck (run stuck_producer queue_new) = true.
Proof. vm_compute. reflexivity. Qed.
