(* ===== verification/ExecutorFds.v ===== *)
(** * Descriptors of the executors (the constructors and destructors of
      scheduler/epoll_exector.cc, kqueue_executor.cc, uring_exector.cc)

    An executor owns the descriptor its thread sleeps on and, through its dummy
    connection, the one that wakes it.  The constructors report refused calls and
    go on; the destructors join the thread and close what they own.  The thread
    itself is the subject of [Executor]. *)
From S2P Require Import Prelude Executor Sockets.

(** ** epoll: [epoll_fd_] and the descriptor of [dummy_conn_] *)
Record EpollFds := mkEpollFds { epoll_fd_ : Z; epoll_dummy_conn_ : Socket }.

Definition EpollExecutor_new : P EpollFds :=
  r ← next_refusal;
  epoll_fd_ ← new_fd r;
  r ← next_refusal;
  event_fd ← new_fd r;
  let dummy_conn_ := Socket_new event_fd in
  refused_on epoll_fd_;;
  mret (mkEpollFds epoll_fd_ dummy_conn_).

(** [EpollExecutor::~EpollExecutor], after the thread has been joined, and the
    destructor of [dummy_conn_]. *)
Definition EpollExecutor_destroy (e : EpollFds) : P unit :=
  (if decide (epoll_fd_ e = -1)%Z then mret tt else sys_close (epoll_fd_ e));;
  Socket_destroy (epoll_dummy_conn_ e).

(** ** kqueue: [kq_fd_]; the user event needs no descriptor *)
Definition KqueueExecutor_new : P Z :=
  r ← next_refusal;
  kq_fd_ ← new_fd r;
  if decide (kq_fd_ = -1)%Z then mret kq_fd_
  else refused_on kq_fd_;; mret kq_fd_.

Definition KqueueExecutor_destroy (kq_fd_ : Z) : P unit :=
  if decide (kq_fd_ = -1)%Z then mret tt else sys_close kq_fd_.

(** ** io_uring: the ring and the descriptor of [dummy_conn_]

    [epoll_fd_] is a member that no constructor sets: [garbage] is its value.  The
    ring has a descriptor, which [io_uring_queue_init] opens and
    [io_uring_queue_exit] closes; the result of the former is not looked at. *)
Record UringFds := mkUringFds { ring_fd : Z; uring_dummy_conn_ : Socket; uring_epoll_fd_ : Z }.

Definition UringExecutor_new (garbage : Z) : P UringFds :=
  r ← next_refusal;
  ring ← new_fd r;
  r ← next_refusal;
  event_fd ← new_fd r;
  let dummy_conn_ := Socket_new event_fd in
  mret (mkUringFds ring dummy_conn_ garbage).

Definition UringExecutor_destroy (e : UringFds) : P unit :=
  sys_close (ring_fd e);;
  (if decide (uring_epoll_fd_ e = -1)%Z then mret tt else sys_close (uring_epoll_fd_ e));;
  Socket_destroy (uring_dummy_conn_ e).

(** ** What is left open *)

(** An executor is made and destroyed. *)
Definition executor_round (b : backend) (garbage : Z) : P unit :=
  match b with
  | EPOLL => e ← EpollExecutor_new; EpollExecutor_destroy e
  | KQUEUE => fd ← KqueueExecutor_new; KqueueExecutor_destroy fd
  | URING => e ← UringExecutor_new garbage; UringExecutor_destroy e
  end.

(** Whether the kernel refuses call [n] of the coming ones. *)
Definition refuses (n : nat) (p : Process) : bool := default false (refusals p !! n).

Definition with_fd (refused : bool) (p : Process) (rs : list bool) : Z * Process :=
  if refused then ((-1)%Z, mkProcess (open_fds p) (bad_closes p) (shutdowns p) rs)
  else let fd := least_free (size (open_fds p)) 0 (open_fds p) in
       (fd, mkProcess (open_fds p ∪ {[fd]}) (bad_closes p) (shutdowns p) rs).

(** A call that makes a descriptor. *)
Lemma make_fd_run {A} (k : Z → P A) p :
  let r := with_fd (refuses 0 p) p (tail (refusals p)) in
  (r ← next_refusal; fd ← new_fd r; k fd) p = k r.1 r.2.
Proof.
  unfold with_fd, refuses, mbind, P_bind, next_refusal, new_fd. rewrite <-head_lookup.
  by destruct (default false (head (refusals p))).
Qed.

Lemma with_fd_spec refused p rs fd p' :
  with_fd refused p rs = (fd, p') →
  bad_closes p' = bad_closes p ∧ refusals p' = rs ∧
  if refused then fd = (-1)%Z ∧ open_fds p' = open_fds p
  else fd ≠ (-1)%Z ∧ ¬ (fd ∈ open_fds p) ∧ open_fds p' = open_fds p ∪ {[fd]}.
Proof.
  unfold with_fd. destruct (new_fd_fresh p) as [Hf Hp]. destruct refused; intros [= <- <-]; simpl; [done|].
  split_and!; [done|done|lia|done|done].
Qed.

(** [close] of a descriptor that is open, or of [-1]. *)
Lemma sys_close_spec fd p :
  ∃ p', sys_close fd p = (Return tt, p') ∧ open_fds p' = open_fds p ∖ {[fd]} ∧
    bad_closes p' = bad_closes p ++ (if decide (fd ∈ open_fds p) then [] else [fd]).
Proof.
  unfold sys_close. case_decide; eexists; (split; [done|]); simpl; rewrite ?app_nil_r; [done|].
  split; [set_solver|done].
Qed.

Lemma refuses_tail n p p' : refusals p' = tail (refusals p) → refuses n p' = refuses (S n) p.
Proof. unfold refuses. intros ->. by destruct (refusals p). Qed.

Lemma close_unless fd p :
  ∃ p', (if decide (fd = -1)%Z then mret tt else sys_close fd) p = (Return tt, p') ∧
    ((-1)%Z ∉ open_fds p → open_fds p' = open_fds p ∖ {[fd]}) ∧
    bad_closes p' = bad_closes p ++ (if decide (fd = (-1)%Z ∨ fd ∈ open_fds p) then [] else [fd]).
Proof.
  case_decide as Hd.
  - exists p. rewrite decide_True by auto. rewrite app_nil_r. split_and!; [done| |done]. set_solver.
  - destruct (sys_close_spec fd p) as (p' & -> & H1 & H2). exists p'. split_and!; [done|done|].
    rewrite H2. f_equal. do 2 case_decide; naive_solver.
Qed.

(** Two descriptors are made and closed: nothing stays open, and the only bad
    [close] is that of a second descriptor that was refused. *)
Lemma two_fds_round p fd1 p1 fd2 p2 p3 :
  (-1)%Z ∉ open_fds p →
  with_fd (refuses 0 p) p (tail (refusals p)) = (fd1, p1) →
  with_fd (refuses 0 p1) p1 (tail (refusals p1)) = (fd2, p2) →
  open_fds p3 = open_fds p2 → bad_closes p3 = bad_closes p2 →
  ∃ p', ((if decide (fd1 = -1)%Z then mret tt else sys_close fd1);; sys_close fd2) p3 = (Return tt, p') ∧
    open_fds p' = open_fds p ∧
    bad_closes p' = bad_closes p ++ (if refuses 1 p then [-1]%Z else []).
Proof.
  intros Hneg (B1 & R1 & H1)%with_fd_spec (B2 & R2 & H2)%with_fd_spec HO HB.
  rewrite (refuses_tail 0 p p1 R1) in H2.
  destruct (close_unless fd1 p3) as (p4 & Hrun & HO4 & HB4). unfold mbind, P_bind. rewrite Hrun.
  destruct (sys_close_spec fd2 p4) as (p5 & -> & HO5 & HB5). exists p5. split; [done|].
  assert (¬ ((-1)%Z ∈ open_fds p2) ∧ (fd1 = (-1)%Z ∨ fd1 ∈ open_fds p2) ∧
    open_fds p2 ∖ {[fd1]} ∖ {[fd2]} = open_fds p ∧
    (fd2 ∈ open_fds p2 ∖ {[fd1]} ↔ refuses 1 p = false) ∧
    (refuses 1 p = true → fd2 = (-1)%Z)) as (N2 & D1 & HO2 & D2 & D3).
  { destruct (refuses 0 p), (refuses 1 p); destruct_and!; simplify_eq;
      repeat match goal with H : open_fds _ = _ |- _ => rewrite H end;
      split_and!; set_solver. }
  rewrite HO in HO4, HB4. specialize (HO4 N2). rewrite decide_True in HB4 by done.
  rewrite HB5, HB4, HB, B2, B1, HO5, HO4, app_nil_r. split; [done|]. f_equal.
  destruct (refuses 1 p); [rewrite decide_False by naive_solver; by rewrite D3|].
  by rewrite decide_True by naive_solver.
Qed.

(** An executor that is made and destroyed leaves the descriptors as they were. *)
Lemma epoll_round p :
  (-1)%Z ∉ open_fds p →
  ∃ p', executor_round EPOLL 0 p = (Return tt, p') ∧ open_fds p' = open_fds p ∧
    bad_closes p' = bad_closes p ++ (if refuses 1 p then [-1]%Z else []).
Proof.
  intros Hneg. destruct (with_fd (refuses 0 p) p (tail (refusals p))) as [fd1 p1] eqn:E1.
  destruct (with_fd (refuses 0 p1) p1 (tail (refusals p1))) as [fd2 p2] eqn:E2.
  destruct (two_fds_round p fd1 p1 fd2 p2
    (mkProcess (open_fds p2) (bad_closes p2) (shutdowns p2) (tail (refusals p2)))) as (p' & Hrun & Hp');
    [done..|]. exists p'. split; [|done]. rewrite <-Hrun.
  unfold executor_round. unfold mbind at 1, P_bind at 1. unfold EpollExecutor_new.
  rewrite make_fd_run, E1. cbn [fst snd]. rewrite make_fd_run, E2. done.
Qed.

Lemma kqueue_round p :
  (-1)%Z ∉ open_fds p →
  ∃ p', executor_round KQUEUE 0 p = (Return tt, p') ∧ open_fds p' = open_fds p ∧
    bad_closes p' = bad_closes p.
Proof.
  intros Hneg. destruct (with_fd (refuses 0 p) p (tail (refusals p))) as [fd p1] eqn:E1.
  unfold executor_round. unfold mbind at 1, P_bind at 1. unfold KqueueExecutor_new.
  rewrite make_fd_run, E1. cbn [fst snd]. apply with_fd_spec in E1 as (B1 & _ & H1).
  unfold KqueueExecutor_destroy. destruct (refuses 0 p).
  - destruct H1 as [-> HO]. rewrite decide_True by done. cbn [mret P_ret]. rewrite decide_True by done.
    by exists p1.
  - destruct H1 as (Hd & Hfresh & HO). rewrite decide_False by done.
    unfold mbind, P_bind, refused_on, mret, P_ret. rewrite decide_False by done.
    set (p2 := mkProcess _ _ _ _). destruct (sys_close_spec fd p2) as (p' & -> & HO' & HB').
    exists p'. split; [done|]. rewrite HO', HB'. simpl. rewrite HO, decide_True by set_solver.
    rewrite app_nil_r. split; [set_solver|done].
Qed.

(** The uninitialised member is closed too. *)
Lemma uring_round garbage p :
  (-1)%Z ∉ open_fds p → refuses 0 p = false →
  ∃ p', executor_round URING garbage p = (Return tt, p') ∧
    open_fds p' = open_fds p ∖ {[garbage]}.
Proof.
  intros Hneg Hr. destruct (with_fd (refuses 0 p) p (tail (refusals p))) as [fd1 p1] eqn:E1.
  destruct (with_fd (refuses 0 p1) p1 (tail (refusals p1))) as [fd2 p2] eqn:E2.
  unfold executor_round. unfold mbind at 1, P_bind at 1. unfold UringExecutor_new.
  rewrite make_fd_run, E1. cbn [fst snd]. rewrite make_fd_run, E2. cbn [fst snd mret P_ret].
  apply with_fd_spec in E1 as (_ & _ & H1). rewrite Hr in H1. destruct H1 as (Hd1 & Hf1 & HO1).
  apply with_fd_spec in E2 as (_ & _ & H2).
  unfold UringExecutor_destroy. cbn [ring_fd uring_epoll_fd_ uring_dummy_conn_].
  destruct (sys_close_spec fd1 p2) as (p3 & Hrun3 & HO3 & _).
  unfold mbind at 1, P_bind at 1. rewrite Hrun3.
  destruct (close_unless garbage p3) as (p4 & Hrun4 & HO4 & _).
  unfold mbind at 1, P_bind at 1. rewrite Hrun4.
  destruct (sys_close_spec fd2 p4) as (p5 & Hrun5 & HO5 & _).
  unfold Socket_destroy. cbn [Socket_new sockfd_]. rewrite Hrun5. exists p5. split; [done|].
  assert (open_fds p3 ∖ {[fd2]} = open_fds p ∧ ¬ ((-1)%Z ∈ open_fds p3)) as [HO23 Hneg3].
  { rewrite HO3. destruct (refuses 0 p1); destruct_and!; simplify_eq;
      repeat match goal with H : open_fds _ = _ |- _ => rewrite H end; split; set_solver. }
  rewrite HO5, (HO4 Hneg3), <-HO23. set_solver.
Qed.
