(* ===== verification/Press.v ===== *)
(** * The pressure tool (press/rpc_press.cc)

    [kConcurrency] worker threads draw indices from the shared counter [g_sent] and
    issue one call per index below [kTotalRequests]; [handle_response] counts the
    completed calls in [g_completed]; [main] polls that counter until every call has
    completed or a minute has passed, stops the scheduler and joins the workers.

    A transition is one access to a shared counter, or a call.  That a call, once
    issued, completes at most once is what the client promises; here completing is
    a move of the environment, enabled for the calls in flight. *)
From stdpp Require Import strings pretty.
From S2P Require Import Prelude.

Definition kConcurrency : nat := 32.
Definition kTotalRequests : Z := 100000.

(** The message of the call with index [idx]. *)
Definition press_message (idx : Z) : string := "echo_req_" +:+ pretty idx.

(** ** Threads *)
Inductive worker_pc :=
  | AtFetch              (** before [g_sent.fetch_add(1)] *)
  | AtCall (idx : Z)     (** the request has been built *)
  | WorkerExit.

(** [main]: in the polling loop, waiting for the workers, or returned; [timed_out]
    says how the loop was left. *)
Inductive main_pc :=
  | AtPoll
  | AtJoin (timed_out : bool)
  | MainExit (timed_out : bool).

Record Press := mkPress {
  g_sent : Z;                    (** [atomic<int>] *)
  g_completed : Z;               (** [atomic<int>] *)
  workers : list worker_pc;
  main_at : main_pc;
  in_flight : list Z;            (** calls issued and not completed *)
  issued : list Z;               (** history: the indices of the calls *)
  worked : nat;                  (** history: the number of worker steps *)
}.

Section press.
Context (total : Z).

Definition press_new (n : nat) : Press := mkPress 0 0 (replicate n AtFetch) AtPoll [] [] 0.

(** A round of [worker_thread], in two steps. *)
Definition worker_step (i : nat) (s : Press) : option Press :=
  match workers s !! i with
  | Some AtFetch =>
      let idx := g_sent s in
      let pc := if decide (total ≤ idx)%Z then WorkerExit else AtCall idx in
      Some (mkPress (to_int32 (idx + 1)) (g_completed s) (<[i := pc]> (workers s)) (main_at s)
              (in_flight s) (issued s) (S (worked s)))
  | Some (AtCall idx) =>
      Some (mkPress (g_sent s) (g_completed s) (<[i := AtFetch]> (workers s)) (main_at s)
              (in_flight s ++ [idx]) (issued s ++ [idx]) (S (worked s)))
  | _ => None
  end.

(** [handle_response], for the [j]-th of the calls in flight. *)
Definition handle_response (j : nat) (s : Press) : option Press :=
  match in_flight s !! j with
  | Some _ =>
      Some (mkPress (g_sent s) (to_int32 (g_completed s + 1)) (workers s) (main_at s)
              (delete j (in_flight s)) (issued s) (worked s))
  | None => None
  end.

(** [main] after the threads have been started; [elapsed] says whether the minute
    has passed. *)
Definition main_step (elapsed : bool) (s : Press) : option Press :=
  let goto pc := mkPress (g_sent s) (g_completed s) (workers s) pc (in_flight s) (issued s) (worked s) in
  match main_at s with
  | AtPoll =>
      if decide (g_completed s < total)%Z
      then Some (goto (if elapsed then AtJoin true else AtPoll))
      else Some (goto (AtJoin false))
  | AtJoin timed_out =>
      if forallb (λ w, match w with WorkerExit => true | _ => false end) (workers s)
      then Some (goto (MainExit timed_out)) else None
  | MainExit _ => None
  end.

Inductive press_action :=
  | AWorker (i : nat)
  | AResponse (j : nat)
  | AMain (elapsed : bool).

Definition press_act (a : press_action) (s : Press) : option Press :=
  match a with
  | AWorker i => worker_step i s
  | AResponse j => handle_response j s
  | AMain elapsed => main_step elapsed s
  end.

Fixpoint press_run (acts : list press_action) (s : Press) : option Press :=
  match acts with
  | [] => Some s
  | a :: acts => s' ← press_act a s; press_run acts s'
  end.

(** ** Invariant *)

(** The indices that workers hold, and the workers that have ended. *)
Definition held_by (w : worker_pc) : list Z := match w with AtCall idx => [idx] | _ => [] end.
Definition exited (w : worker_pc) : nat := match w with WorkerExit => 1 | _ => 0 end.
Definition held (s : Press) : list Z := concat (held_by <$> workers s).
Definition exits (s : Press) : nat := sum_list (exited <$> workers s).

Record press_inv (n : nat) (s : Press) : Prop := {
  pi_workers : length (workers s) = n;
  pi_sent : g_sent s = (Z.of_nat (length (issued s) + length (held s)) + exits s)%Z;
  pi_drawn : issued s ++ held s ≡ₚ seqZ 0 (length (issued s) + length (held s));
  pi_bound : (Z.of_nat (length (issued s) + length (held s)) ≤ total)%Z;
  pi_exited : 0 < exits s → Z.of_nat (length (issued s) + length (held s)) = total;
  pi_completed : g_completed s = (length (issued s) - length (in_flight s))%Z;
  pi_flight : length (in_flight s) ≤ length (issued s);
  pi_worked : Z.of_nat (worked s) = (g_sent s + length (issued s))%Z;
  pi_main : main_at s = AtJoin false ∨ main_at s = MainExit false → g_completed s = total;
  pi_join : (∃ b, main_at s = MainExit b) → exits s = n;
}.

Lemma sum_insert (l : list nat) i x y :
  l !! i = Some x → sum_list (<[i := y]> l) + x = sum_list l + y.
Proof.
  revert i. induction l as [|z l IH]; intros [|i]; simpl; [done|done|intros [= ->]; lia|].
  intros Hi. specialize (IH i Hi). lia.
Qed.

Lemma exits_insert i w w' s :
  workers s !! i = Some w →
  sum_list (exited <$> <[i := w']> (workers s)) + exited w = exits s + exited w'.
Proof.
  intros Hi. rewrite list_fmap_insert. apply sum_insert. by rewrite list_lookup_fmap, Hi.
Qed.

Lemma held_insert i w w' s :
  workers s !! i = Some w →
  concat (held_by <$> <[i := w']> (workers s)) ++ held_by w ≡ₚ held s ++ held_by w'.
Proof.
  unfold held. generalize (workers s). clear s. intros l. revert i.
  induction l as [|z l IH]; intros [|i]; simpl; [done|done| |].
  - intros [= ->]. solve_Permutation.
  - intros Hi. specialize (IH i Hi). rewrite <-!app_assoc, IH. done.
Qed.

Lemma exits_le s : exits s ≤ length (workers s).
Proof.
  unfold exits. induction (workers s) as [|w l IH]; csimpl; [lia|]. destruct w; csimpl; lia.
Qed.

Lemma exits_all s :
  exits s = length (workers s) →
  held s = [] ∧ forallb (λ w, match w with WorkerExit => true | _ => false end) (workers s) = true.
Proof.
  unfold exits, held. induction (workers s) as [|w l IH]; csimpl; [done|]. intros H.
  pose proof (exits_le (mkPress 0 0 l AtPoll [] [] 0)) as Hle. unfold exits in Hle. csimpl in Hle.
  destruct w; csimpl in *; try lia. by apply IH; lia.
Qed.

Lemma forallb_exits s :
  forallb (λ w, match w with WorkerExit => true | _ => false end) (workers s) = true →
  exits s = length (workers s).
Proof.
  unfold exits. induction (workers s) as [|w l IH]; csimpl; [done|]. destruct w; csimpl; try done.
  intros H. by rewrite IH.
Qed.

Lemma press_inv_new n : (0 ≤ total)%Z → press_inv n (press_new n).
Proof.
  intros Ht. assert (held (press_new n) = []) as Hh.
  { unfold held, press_new. simpl. induction n; csimpl; done. }
  assert (exits (press_new n) = 0) as He.
  { unfold exits, press_new. simpl. clear Hh. induction n; csimpl; done. }
  split; rewrite ?Hh, ?He; simpl; try done; try lia.
  - by rewrite length_replicate.
  - naive_solver.
  - naive_solver.
Qed.

Lemma worker_step_inv (n : nat) i s s' :
  (total + n < 2 ^ 31)%Z → press_inv n s → worker_step i s = Some s' → press_inv n s'.
Proof.
  intros Hsmall [H1 H2 H3 H4 H5 H6 H7 H8 H9 H10] Hstep. unfold worker_step in Hstep.
  pose proof (exits_le s) as Hle. rewrite H1 in Hle.
  destruct (workers s !! i) as [[|idx|]|] eqn:Hi; try done; injection Hstep as <-.
  - assert (g_sent s < 2 ^ 31 - 1 ∨ exits s = n)%Z as Hroom by lia.
    assert (exits s < n) as Hlt.
    { destruct (decide (exits s = n)) as [He|]; [|lia]. rewrite <-H1 in He.
      destruct (exits_all s He) as [_ Hall]. rewrite forallb_forall in Hall.
      specialize (Hall AtFetch). apply list_elem_of_lookup_2, list_elem_of_In in Hi. by apply Hall in Hi. }
    pose proof (exits_insert i AtFetch
      (if decide (total ≤ g_sent s)%Z then WorkerExit else AtCall (g_sent s)) s Hi) as He.
    pose proof (held_insert i AtFetch
      (if decide (total ≤ g_sent s)%Z then WorkerExit else AtCall (g_sent s)) s Hi) as Hh.
    simpl in He, Hh. rewrite app_nil_r in Hh. rewrite to_int32_small by (unfold INT32_MIN, INT32_MAX; lia).
    case_decide as Hd; simpl in He, Hh.
    + rewrite app_nil_r in Hh. pose proof (Permutation_length Hh) as Hlen.
      assert (Z.of_nat (length (issued s) + length (held s)) = total) as Hfull
        by (destruct (decide (exits s = 0)); [lia|apply H5; lia]).
      split; unfold held, exits; simpl; rewrite ?Hlen; try done; try lia.
      * by rewrite length_insert.
      * by rewrite Hh.
      * intros Hx. specialize (H10 Hx). lia.
    + assert (exits s = 0) as H0 by (destruct (decide (exits s = 0)); [done|]; specialize (H5 ltac:(lia)); lia).
      pose proof (Permutation_length Hh) as Hlen. rewrite length_app in Hlen. simpl in Hlen.
      split; unfold held, exits; simpl; rewrite ?Hlen; try done; try lia.
      * by rewrite length_insert.
      * rewrite Hh, app_assoc, H3, H2, H0.
        set (m := (Z.of_nat (length (issued s)) + Z.of_nat (length (held s)))%Z).
        replace (Z.of_nat (length (issued s)) + Z.of_nat (length (held s) + 1))%Z with (m + 1)%Z by lia.
        rewrite (seqZ_app 0 m 1) by lia. f_equiv. rewrite seqZ_cons, seqZ_nil by lia. apply reflexive_eq. f_equal. lia.
      * intros Hx. specialize (H10 Hx). lia.
  - pose proof (exits_insert i (AtCall idx) AtFetch s Hi) as He.
    pose proof (held_insert i (AtCall idx) AtFetch s Hi) as Hh.
    simpl in He, Hh. rewrite app_nil_r in Hh. pose proof (Permutation_length Hh) as Hlen.
    rewrite length_app in Hlen. simpl in Hlen.
    assert (length (issued s ++ [idx]) = S (length (issued s))) as Hli by (rewrite length_app; simpl; lia).
    split; unfold held, exits; simpl; rewrite ?Hli; try done; rewrite ?length_app; simpl; try lia;
      [by rewrite length_insert| |intros Hx; first [specialize (H5 ltac:(lia)); lia|specialize (H10 Hx); lia]..].
    rewrite <-app_assoc, (Permutation_app_comm [idx]), Hh, H3. apply reflexive_eq. f_equal. lia.
Qed.

Lemma press_act_inv (n : nat) a s s' :
  (total + n < 2 ^ 31)%Z → press_inv n s → press_act a s = Some s' → press_inv n s'.
Proof.
  intros Hsmall Hinv Hact. destruct a as [i|j|elapsed]; simpl in Hact.
  - by eapply worker_step_inv.
  - destruct Hinv as [H1 H2 H3 H4 H5 H6 H7 H8 H9 H10]. unfold handle_response in Hact.
    destruct (in_flight s !! j) as [idx|] eqn:Hj; [|done]. injection Hact as <-.
    pose proof (lookup_lt_Some _ _ _ Hj) as Hlt. pose proof (length_delete (in_flight s) j (mk_is_Some _ _ Hj)) as Hdel.
    rewrite to_int32_small by (unfold INT32_MIN, INT32_MAX; lia).
    split; simpl; try done; try lia. intros Hx. specialize (H9 Hx). lia.
  - destruct Hinv as [H1 H2 H3 H4 H5 H6 H7 H8 H9 H10]. unfold main_step in Hact.
    destruct (main_at s) as [|b|b] eqn:Hm; [| |done].
    + case_decide; injection Hact as <-; split; simpl; try done.
      * destruct elapsed; naive_solver.
      * destruct elapsed; naive_solver.
      * intros _. lia.
      * naive_solver.
    + destruct (forallb _ (workers s)) eqn:Hall; [|done]. injection Hact as <-.
      split; simpl; try done; [naive_solver|]. intros _. rewrite <-H1. exact (forallb_exits s Hall).
Qed.

Lemma press_run_inv (n : nat) acts s s' :
  (total + n < 2 ^ 31)%Z → press_inv n s → press_run acts s = Some s' → press_inv n s'.
Proof.
  intros Hsmall. revert s. induction acts as [|a acts IH]; intros s Hinv; simpl; [by intros [= <-]|].
  intros (s1 & H1 & H2)%bind_Some. eapply IH; [|done]. by eapply press_act_inv.
Qed.

(** ** Progress *)

(** A worker that has not ended can take a step. *)
Lemma worker_can_step i s w :
  workers s !! i = Some w → w ≠ WorkerExit → is_Some (worker_step i s).
Proof. intros Hi Hw. unfold worker_step. rewrite Hi. by destruct w. Qed.
End press.
