(* ===== verification/Service.v ===== *)
(** * RpcController (util/service.h, util/service.cc) and the echo service
    (example/echo_service.cc)

    [RpcController] is the per-call status object of the client; [EchoServiceImpl]
    is the service the example server registers and the one the pressure tool
    calls. *)
From stdpp Require Import strings.
From S2P Require Import Prelude.

(** ** RpcController *)
Record RpcController := mkController {
  failed_ : bool;
  canceled_ : bool;
  error_text_ : string;
  timeout_ms_ : Z;             (** [int64_t], -1: no timeout *)
}.

(** The default member initialisers. *)
Definition RpcController_new : RpcController := mkController false false "" (-1).

Definition Failed (c : RpcController) : bool := failed_ c.
Definition ErrorText (c : RpcController) : string := error_text_ c.
Definition IsCanceled (c : RpcController) : bool := canceled_ c.
Definition timeout_ms (c : RpcController) : Z := timeout_ms_ c.

Definition Reset (c : RpcController) : RpcController := mkController false false "" (-1).
Definition StartCancel (c : RpcController) : RpcController :=
  mkController (failed_ c) true (error_text_ c) (timeout_ms_ c).
(** [NotifyOnCancel] has an empty body: the callback is dropped. *)
Definition NotifyOnCancel {A} (callback : A) (c : RpcController) : RpcController := c.
Definition SetFailed (reason : string) (c : RpcController) : RpcController :=
  mkController true (canceled_ c) reason (timeout_ms_ c).

(** The calls a user of a controller can make. *)
Inductive ctl_op :=
  | CtlReset
  | CtlStartCancel
  | CtlNotifyOnCancel
  | CtlSetFailed (reason : string).

Definition ctl_run_op (c : RpcController) (op : ctl_op) : RpcController :=
  match op with
  | CtlReset => Reset c
  | CtlStartCancel => StartCancel c
  | CtlNotifyOnCancel => NotifyOnCancel tt c
  | CtlSetFailed reason => SetFailed reason c
  end.
Definition ctl_run (c : RpcController) (ops : list ctl_op) : RpcController :=
  foldl ctl_run_op c ops.

(** The calls since the last [Reset]. *)
Fixpoint since_reset (ops : list ctl_op) : list ctl_op :=
  match ops with
  | [] => []
  | op :: ops => if existsb (λ o, match o with CtlReset => true | _ => false end) ops
                 then since_reset ops
                 else match op with CtlReset => ops | _ => op :: ops end
  end.

Definition failure_of (op : ctl_op) : option string :=
  match op with CtlSetFailed r => Some r | _ => None end.
Definition is_cancel (op : ctl_op) : bool :=
  match op with CtlStartCancel => true | _ => false end.

Definition is_reset (op : ctl_op) : bool :=
  match op with CtlReset => true | _ => false end.

(** ** EchoServiceImpl *)
Definition Echo (message : string) : string := "[Echo] " +:+ message.
Definition Echo1 (message : string) : string := "[Echo1] " +:+ message.

(** ** What a controller reports *)
Lemma ctl_run_snoc c ops op : ctl_run c (ops ++ [op]) = ctl_run_op (ctl_run c ops) op.
Proof. unfold ctl_run. by rewrite foldl_app. Qed.

Lemma since_reset_snoc ops op :
  since_reset (ops ++ [op]) = if is_reset op then [] else since_reset ops ++ [op].
Proof.
  induction ops as [|o ops IH]; simpl; [by destruct op|].
  rewrite existsb_app, IH. simpl. rewrite orb_false_r.
  destruct op; simpl; rewrite ?orb_true_r, ?orb_false_r; try done;
    by destruct (existsb _ ops), o.
Qed.

Lemma ctl_run_spec ops :
  let c := ctl_run RpcController_new ops in
  let recent := since_reset ops in
  ErrorText c = default ""%string (last (omap failure_of recent)) ∧
  Failed c = bool_decide (omap failure_of recent ≠ []) ∧
  IsCanceled c = existsb is_cancel recent ∧
  timeout_ms c = (-1)%Z.
Proof.
  induction ops as [|op ops IH] using rev_ind; [done|]. cbv zeta in *.
  rewrite ctl_run_snoc, since_reset_snoc.
  destruct IH as (IH1 & IH2 & IH3 & IH4). unfold Failed, ErrorText, IsCanceled, timeout_ms in *.
  destruct op as [| | |r]; simpl; [done| | |];
    rewrite omap_app, existsb_app; simpl; rewrite ?app_nil_r, ?orb_false_r, ?orb_true_r;
    split_and!; try done.
  - by rewrite last_snoc.
  - symmetry. apply bool_decide_eq_true. by destruct (omap _ _).
Qed.
