(* ===== verification/Example.v ===== *)
(** * The example programs (example/echo.proto, echo_service.cc, echo_server.cc,
      echo_client.cc)

    [echo_server] registers the echo service and serves it on port 8888, over io_uring
    by default; [echo_client] makes 1001 calls of [Echo1] on one channel.

    The code that protobuf generates of echo.proto is a parameter, [EchoProto]; what is
    used of it is that parsing undoes serializing and how many bytes the documented
    format takes.  The sizes decide where the length prefixes of the 1001 frames lie:
    all requests fit, so the server answers every one; response 361 begins one byte
    before the end of a block, so the client completes the first 361 calls and then
    overruns. *)
From stdpp Require Import strings pretty.
From S2P Require Import Executor Sockets Start Prelude Block Segments InputStream OutputStream Streams Conn Connection ConnectionProofs Sender Uring Wire Protocol Receiver PollReceiver Server ServerProofs UringRead UringServer ServerSide Client ClientProofs ClientLife EndToEnd System Service Straddle.

(** ** Messages *)

(** [EchoRequest] and [EchoResponse] have one field, [string message = 1], which is
    omitted when it is empty. *)
Definition wire_echo (message : string) : list cell :=
  if decide (message = ""%string) then [] else string_field 1 (Some message).

Class EchoProto := {
  echo_encode : string → list cell;
  echo_decode : list cell → option string;
}.
Class EchoProtoLaws `{Protobuf} `{!EchoProto} := {
  echo_roundtrip message : name_ok message → echo_decode (echo_encode message) = Some message;
  (** The sizes of the documented format. *)
  echo_size message : name_ok message → length (echo_encode message) = length (wire_echo message);
  header_size h : header_ok h → length (header_encode h) = length (wire_header h);
}.

(** ** The server *)
Section programs.
Context `{EchoProto}.

Definition echo_method (call : string → string) : Method := {|
  Req := string;
  Resp := string;
  req_decode := echo_decode;
  resp_encode := echo_encode;
  Server.CallMethod := call;
|}.

(** [EchoServiceImpl]: the methods by name. *)
Definition EchoServiceImpl : Service :=
  <[ "Echo" := echo_method Echo ]> {[ "Echo1" := echo_method Echo1 ]}.

(** [main] of echo_server.cc. *)
Definition echo_options : RpcServerOptions := RpcServerOptions_default 8888.
Definition echo_services : gmap string Service :=
  register_service "EchoService" EchoServiceImpl ∅.

(** ** The client *)

(** A round of the loop in [main] of echo_client.cc. *)
Definition echo_text (i : nat) : string := "echo request" +:+ pretty i.
Definition echo_call (i : nat) : Call string :=
  mkCall "EchoService" "Echo1" (echo_encode (echo_text i)) (mkSession echo_decode (Some i)).
Definition echo_calls : list (Call string) := echo_call <$> seq 0 1001.

Definition echo_bodies : list (list cell) := (λ i, echo_encode (Echo1 (echo_text i))) <$> seq 0 1001.
Definition echo_results : list string := (λ i, Echo1 (echo_text i)) <$> seq 0 1001.
End programs.

(** ** Sizes *)

(** Header and body of each frame. *)
Fixpoint sizes_fit (pos : Z) (l : list (Z * Z)) : bool :=
  match l with
  | [] => true
  | (h, b) :: l =>
      bool_decide (fits pos) && bool_decide (fits (pos + 4 + h)) && sizes_fit (pos + (8 + h + b)) l
  end.
Definition sizes_total (l : list (Z * Z)) : Z := foldr (λ '(h, b) n, 8 + h + b + n)%Z 0%Z l.

Section sizes.
Context `{Protobuf}.
Definition frame_sizes (k : Header * list cell) : Z * Z :=
  (Z.of_nat (length (header_encode k.1)), Z.of_nat (length k.2)).

Lemma length_request_frame k :
  Z.of_nat (length (request_frame k)) = (8 + (frame_sizes k).1 + (frame_sizes k).2)%Z.
Proof. unfold request_frame, frame, frame_sizes. rewrite !length_app. cbn [length u32_bytes fst snd]. lia. Qed.

Lemma placed_sizes pos ks :
  Forall (λ k, header_ok k.1) ks → sizes_fit pos (frame_sizes <$> ks) = true →
  (sizes_total (frame_sizes <$> ks) < 2 ^ 31)%Z → placed pos ks.
Proof.
  revert pos. induction ks as [|k ks IH]; intros pos Hok Hfit Hsm; [done|].
  apply Forall_cons in Hok as [Hk Hok]. cbn [fmap list_fmap sizes_fit sizes_total foldr] in *.
  pose proof (length_request_frame k) as Hlen. destruct (frame_sizes k) as [h b] eqn:Hkb. cbn [fst snd] in Hlen.
  apply andb_true_iff in Hfit as [[H1 H2]%andb_true_iff Hfit]. apply bool_decide_eq_true in H1, H2.
  injection Hkb as Hh Hb. fold (sizes_total (frame_sizes <$> ks)) in Hsm.
  assert (0 ≤ sizes_total (frame_sizes <$> ks))%Z as Hpos.
  { clear. induction ks as [|k ks IH]; [done|]. unfold sizes_total in *. csimpl. lia. }
  cbn [placed]. rewrite Hlen, Hh. split_and!; [|done|done|apply IH; [done|done|lia]].
  split; [done|]. change (length (request_frame k) < 2 ^ 31)%Z. lia.
Qed.

Lemma length_stream_sizes ks :
  Z.of_nat (length (request_stream ks)) = sizes_total (frame_sizes <$> ks).
Proof.
  induction ks as [|k ks IH]; [done|].
  change (request_stream (k :: ks)) with (request_frame k ++ request_stream ks).
  rewrite length_app, Nat2Z.inj_add, IH, length_request_frame. simpl. done.
Qed.
End sizes.

(** The two directions have the same frames. *)
Lemma placed_arranged `{Protobuf} pos ks : placed pos ks → arranged pos ks.
Proof. revert pos. induction ks as [|k ks IH]; intros pos; [done|]. intros (? & ? & ? & ?). by split_and!; [..|apply IH]. Qed.
Lemma response_request_stream `{Protobuf} ks : response_stream ks = request_stream ks.
Proof. done. Qed.

(** ** The example *)
Section example.
Context {Pb : Protobuf} {PbLaws : ProtobufLaws} {Ep : EchoProto} {EpLaws : EchoProtoLaws}.
Abbreviation reqs := (numbered 0 echo_calls).
Abbreviation rs := (responses 0 echo_bodies).

(** The same frames in the documented format. *)
Definition request_sizes (i : nat) : Z * Z :=
  (Z.of_nat (length (wire_header (req_header i "EchoService" "Echo1"))), Z.of_nat (length (wire_echo (echo_text i)))).
Definition response_sizes (i : nat) : Z * Z :=
  (Z.of_nat (length (wire_header (mkHeader MAGIC_NUM VERSION RESPONSE i None None))),
   Z.of_nat (length (wire_echo (Echo1 (echo_text i))))).

(** Every header and text is in range. *)
Definition echo_ok (i : nat) : Prop :=
  header_ok (req_header i "EchoService" "Echo1") ∧ header_ok (mkHeader MAGIC_NUM VERSION RESPONSE i None None) ∧
  name_ok (echo_text i) ∧ name_ok (Echo1 (echo_text i)).

Lemma echo_all_ok : Forall echo_ok (seq 0 1001).
Proof. unfold echo_ok. decided. Qed.
Lemma echo_i_ok i : i < 1001 → echo_ok i.
Proof. intros Hi. pose proof echo_all_ok as Hall. rewrite Forall_seq in Hall. apply Hall. lia. Qed.

Lemma numbered_seq (id : Z) f (a n : nat) :
  numbered (Message := string) (id + a) (f <$> seq a n) =
    (λ i : nat, (req_header (id + i) (call_service (f i)) (call_method (f i)), call_request (f i))) <$> seq a n.
Proof.
  revert a. induction n as [|n IH]; intros a; [done|]. cbn [seq fmap list_fmap numbered].
  replace (id + a + 1)%Z with (id + S a)%Z by lia. by rewrite IH.
Qed.
Lemma responses_seq (id : Z) f (a n : nat) :
  responses (id + a) (f <$> seq a n) =
    (λ i : nat, (mkHeader MAGIC_NUM VERSION RESPONSE (id + i) None None, f i)) <$> seq a n.
Proof.
  revert a. induction n as [|n IH]; intros a; [done|]. cbn [seq fmap list_fmap responses].
  replace (id + a + 1)%Z with (id + S a)%Z by lia. by rewrite IH.
Qed.

Lemma echo_reqs : reqs = (λ i : nat, (req_header i "EchoService" "Echo1", echo_encode (echo_text i))) <$> seq 0 1001.
Proof. exact (numbered_seq 0 echo_call 0 1001). Qed.
Lemma echo_rs :
  rs = (λ i : nat, (mkHeader MAGIC_NUM VERSION RESPONSE i None None, echo_encode (Echo1 (echo_text i)))) <$> seq 0 1001.
Proof. exact (responses_seq 0 _ 0 1001). Qed.

Lemma sizes_reqs : frame_sizes <$> reqs = request_sizes <$> seq 0 1001.
Proof.
  rewrite echo_reqs, <-list_fmap_compose. apply list_fmap_ext. intros i ? [-> Hi]%lookup_seq. rewrite Nat.add_0_l.
  destruct (echo_i_ok i Hi) as (Hh & _ & Ht & _). unfold compose, frame_sizes, request_sizes. cbn [fst snd].
  by rewrite header_size, echo_size.
Qed.
Lemma sizes_rs j : j ≤ 1001 → frame_sizes <$> take j rs = response_sizes <$> seq 0 j.
Proof.
  intros Hj. rewrite echo_rs, <-fmap_take, take_seq, Nat.min_l by lia.
  rewrite <-list_fmap_compose. apply list_fmap_ext. intros i ? [-> Hi]%lookup_seq. rewrite Nat.add_0_l.
  destruct (echo_i_ok i) as (_ & Hh & _ & Ht); [lia|]. unfold compose, frame_sizes, response_sizes. cbn [fst snd].
  by rewrite header_size, echo_size.
Qed.

(** ** Where the prefixes lie *)
Lemma reqs_placed : placed 0 reqs.
Proof.
  apply placed_sizes; rewrite ?sizes_reqs; [|vm_compute; reflexivity..].
  rewrite echo_reqs. apply Forall_fmap, Forall_forall. intros i [_ Hi]%elem_of_seq. by apply echo_i_ok.
Qed.
Lemma length_reqs : Z.of_nat (length (request_stream reqs)) = 57819%Z.
Proof. rewrite length_stream_sizes, sizes_reqs. vm_compute. reflexivity. Qed.

Lemma rs_ok : Forall (λ k, header_ok k.1) rs.
Proof.
  rewrite echo_rs. apply Forall_fmap, Forall_forall. intros i [_ Hi]%elem_of_seq. by apply echo_i_ok.
Qed.
Lemma rs_arranged : arranged 0 (take 361 rs).
Proof.
  apply placed_arranged, placed_sizes; [apply Forall_take, rs_ok|rewrite sizes_rs by lia; vm_compute; reflexivity..].
Qed.
Lemma length_rs j n :
  j ≤ 1001 → sizes_total (response_sizes <$> seq 0 j) = n → Z.of_nat (length (response_stream (take j rs))) = n.
Proof. intros Hj <-. by rewrite response_request_stream, length_stream_sizes, sizes_rs. Qed.
Lemma length_361 : Z.of_nat (length (response_stream (take 361 rs))) = 16366%Z.
Proof. apply length_rs; [lia|]. vm_compute. reflexivity. Qed.
Lemma length_all : Z.of_nat (length (response_stream rs)) = 45807%Z.
Proof.
  rewrite <-(take_ge rs 1001); [apply length_rs; [lia|vm_compute; reflexivity]|].
  rewrite echo_rs, length_fmap, length_seq. lia.
Qed.

(** Response 361: the length of its body begins one byte before the end of the second
    block. *)
Definition header_361 : Header := mkHeader MAGIC_NUM VERSION RESPONSE 361 None None.
Lemma rs_361 : rs !! 361 = Some (header_361, echo_encode (Echo1 (echo_text 361))).
Proof. rewrite echo_rs, list_lookup_fmap, lookup_seq_lt by lia. done. Qed.
Lemma length_header_361 : length (header_encode header_361) = 13.
Proof. rewrite header_size by apply (echo_i_ok 361 ltac:(lia)). vm_compute. reflexivity. Qed.
Lemma rs_straddles :
  ¬ fits (length (response_stream (take 361 rs)) + 4 + length (header_encode header_361)).
Proof.
  rewrite length_361, length_header_361. apply (bool_decide_eq_false_1 _). vm_compute. reflexivity.
Qed.

(** ** What the calls return *)
Lemma echo_body i : i < 1001 → call_body echo_services (echo_call i) = Some (echo_encode (Echo1 (echo_text i))).
Proof.
  intros Hi. destruct (echo_i_ok i Hi) as (_ & _ & Ht & _). unfold call_body, find_method, echo_services, register_service.
  simpl. rewrite lookup_insert_eq. simpl. unfold EchoServiceImpl.
  rewrite lookup_insert_ne, lookup_singleton_eq by done. simpl. by rewrite echo_roundtrip.
Qed.
Lemma echo_bodies_ok : mapM (call_body echo_services) echo_calls = Some echo_bodies.
Proof.
  apply mapM_Some_2. unfold echo_calls, echo_bodies. apply Forall2_fmap, Forall_Forall2_diag, Forall_forall.
  intros i [_ Hi]%elem_of_seq. by apply echo_body.
Qed.
Lemma echo_results_ok : mapM (call_result echo_services) echo_calls = Some echo_results.
Proof.
  apply mapM_Some_2. unfold echo_calls, echo_results. apply Forall2_fmap, Forall_Forall2_diag, Forall_forall.
  intros i [_ Hi]%elem_of_seq. unfold call_result. rewrite echo_body by done. simpl.
  apply echo_roundtrip. by apply echo_i_ok.
Qed.

(** ** Both programs *)
Lemma length_echo_calls : length echo_calls = 1001.
Proof. unfold echo_calls. by rewrite length_fmap, length_seq. Qed.

#[local] Opaque echo_calls echo_bodies echo_results.

Lemma echo_server_run (fuel : nat) answers es :
  (60000 < fuel)%Z → rx_bytes answers = request_stream reqs → keeps_on answers →
  Forall in_full es → rx_work answers ≤ reads es →
  wp (uring_serve echo_services fuel es) (λ x c,
    x = Suspended AtHeaderLen ∧ uc_unread c = [] ∧ u_inv (response_stream rs) (uc_out c)) (UringConn_new answers).
Proof.
  intros Hf Hrx Hk Hes Hw. pose proof length_reqs as Hl. pose proof length_all as Hla.
  apply (uring_serve_spec echo_services fuel reqs (response_frame <$> rs) answers es reqs_placed); try done.
  - apply respond_numbered, echo_bodies_ok.
  - lia.
  - lia.
  - rewrite length_numbered, length_echo_calls. lia.
  - change (concat _) with (response_stream rs). unfold kWindow. lia.
  - change (concat _) with (response_stream rs). lia.
Qed.

Abbreviation bytes_of es := (concat (client_event_bytes <$> es)).

Lemma echo_client_run (fuel : nat) es r t more :
  let sent := response_stream (numbered 0 (calls_of es)) in
  (60000 < fuel)%Z → calls_of es `prefix_of` echo_calls → Forall (client_event_ok fuel) es →
  causal echo_bodies (es ++ [Net (Arrives r t)]) → event_ok fuel (Arrives r t) →
  bytes_of es ++ rx_bytes r `prefix_of` response_stream rs →
  (bytes_of es = response_stream (take 361 rs) →
   wp (client_life fuel es) (λ x _, ∃ ch, x = Suspended ch ∧
     completed ch = take 361 (zip (call_session <$> echo_calls) echo_results)) (Connection_new [] [])) ∧
  ((length (bytes_of es) ≤ 16366)%Z → (16387 ≤ length (bytes_of es ++ rx_bytes r))%Z →
   client_life fuel (es ++ Net (Arrives r t) :: more) (Connection_new [] []) = Faulted OutOfBounds).
Proof.
  intros sent Hf Hpre Hok Hca Hev Hbytes. pose proof length_361 as H361. pose proof length_all as Hall.
  pose proof length_echo_calls as Hcl.
  pose proof (prefix_length _ _ Hpre) as Hpl.
  assert (length sent ≤ length (request_stream reqs)) as Hsent.
  { unfold sent. rewrite response_request_stream. destruct Hpre as [k ->].
    rewrite numbered_app, request_stream_app, length_app. lia. }
  pose proof length_reqs as Hlr. split.
  - intros Hb. apply (client_completes_first echo_services echo_calls echo_bodies echo_results echo_bodies_ok
      echo_results_ok 361).
    + apply rs_arranged.
    + lia.
    + exact Hpre.
    + intros es1 es2 ->. apply (Hca es1 (es2 ++ [Net (Arrives r t)])). by rewrite app_assoc.
    + exact Hb.
    + exact Hok.
    + lia.
    + lia.
    + lia.
    + lia.
    + fold sent. unfold kWindow. lia.
    + fold sent. lia.
  - intros Hle Hge.
    apply (client_overruns echo_services echo_calls echo_bodies echo_results echo_bodies_ok echo_results_ok
      361 header_361 (echo_encode (Echo1 (echo_text 361)))).
    + apply rs_361.
    + apply (echo_i_ok 361). lia.
    + apply rs_arranged.
    + intros [_ Hfit]. by apply rs_straddles.
    + exact Hpre.
    + exact Hca.
    + exact Hbytes.
    + lia.
    + rewrite length_header_361. lia.
    + exact Hok.
    + exact Hev.
    + lia.
    + lia.
    + lia.
    + lia.
    + fold sent. unfold kWindow. lia.
    + fold sent. lia.
Qed.
End example.
