(* ===== verification/StreamTheorems.v ===== *)
(** * Theorems about the stream buffers

    The properties of [InputBuffer], [OutputBuffer] and their protobuf views that
    the rest of the program relies on, each with a concrete instance. *)
From S2P Require Import Prelude Block Segments InputStream OutputStream Streams Types Wire Protocol.

(** ** Concrete buffers *)

(** The buffer after a sequence of operations. *)
Definition in_state (ops : list in_op) : InputBuffer :=
  match run_in ops InputBuffer_new with
  | Done (_, s) => s
  | _ => InputBuffer_new
  end.
Definition out_state (ops : list out_op) : OutputBuffer :=
  match run_out 100 ops OutputBuffer_new with
  | Done (_, s) => s
  | _ => OutputBuffer_new
  end.

Definition six : list cell := Some <$> [5; 0; 0; 0; 8; 9]%Z.

(** Six bytes received, and six bytes of which the first three cells are the last
    of a block. *)
Definition in_six : InputBuffer := in_state [OpReceive six].
Definition in_straddle : InputBuffer :=
  in_state [OpReceive (replicate (Z.to_nat 8189) (Some 1%Z)); OpNext; OpReceive (take 3 six);
            OpReceive (drop 3 six)].

Lemma in_state_inv ops :
  Forall in_op_legal ops → (in_size ops < 2 ^ 64)%Z → input_inv (in_state ops).
Proof.
  intros Hlegal Hsize. destruct input_inv_new as [Hinv Hct]. unfold in_state.
  pose proof (run_in_spec ops InputBuffer_new Hinv Hlegal) as Hrun. rewrite Hct in Hrun.
  specialize (Hrun Hsize). by destruct (run_in ops InputBuffer_new) as [[[got out] s]|f|]; [apply Hrun|..].
Qed.

Lemma out_state_inv ops : out_legal 100 0 ops → output_inv (out_state ops).
Proof.
  intros Hlegal. destruct output_inv_new as [Hinv Hct]. unfold out_state.
  pose proof (run_out_spec 100 ops OutputBuffer_new Hinv) as Hrun. rewrite Hct in Hrun.
  unfold wp in Hrun. specialize (Hrun Hlegal).
  by destruct (run_out 100 ops OutputBuffer_new) as [[[] s]|f|]; [apply Hrun|..].
Qed.

Lemma in_six_inv : input_inv in_six.
Proof. apply in_state_inv; [by repeat constructor|unfold in_size; simpl; lia]. Qed.

Lemma in_straddle_inv : input_inv in_straddle.
Proof.
  apply in_state_inv; [|vm_compute; reflexivity].
  repeat constructor; [|done|done]. intros Heq. apply (f_equal length) in Heq.
  rewrite length_replicate in Heq. simpl length in Heq. lia.
Qed.

(** ** Life-long properties *)






(** [BackUp] below the start of the data, and a count of bytes sent that were never
    submitted. *)
Definition odd_in_calls : list in_call :=
  [CallFill (mkSpan (Some 1%positive) 0 6) six; CallRecvAdd 6; CallPushLimit 3; CallNext; CallBackUp 5; CallSkip 7;
   CallRead (mkSpan (Some 1%positive) 2 3)].


(** ** Length prefixes *)

(** C21: [fetch_uint32] with at least four unread bytes.  If the first is not among
    the last three of its block, it returns exactly those four and consumes them; the
    value they hold is the [uint32_t] that was written with [append].  Otherwise the
    second [memcpy] writes past the caller's variable, for every such buffer. *)
Theorem fetch_uint32_spec (n : Z) (rest : list cell) (s : InputBuffer) :
  input_inv s → input_contents s = u32_bytes n ++ rest → (0 ≤ n < 2 ^ 32)%Z →
  (length (input_contents s) < 2 ^ 64)%Z →
  if decide (consumed_bytes_ s mod kBlockSize ≤ kBlockSize - 4)%Z then
    wp (InputBuffer_fetch_uint32 (replicate 4 None)) (λ r s',
      r.1 = true ∧ u32_value r.2 = n ∧ input_inv s' ∧ input_contents s' = rest) s
  else InputBuffer_fetch_uint32 (replicate 4 None) s = Faulted OutOfBounds.
Proof.
  intros Hinv Hct Hn Hlen.
  assert (4 ≤ length (input_contents s)) as H4 by (rewrite Hct; simpl; lia).
  pose proof (current_avail_aligned s Hinv ltac:(lia)) as Hav. case_decide as Hpos.
  - eapply wp_mono; [apply InputBuffer_fetch_spec; [done|done|by apply Hav|done]|].
    intros [ok v] s' (Hinv' & Hok & Hct' & Hv & _). cbn [fst snd] in *. rewrite Hct in Hct'.
    apply app_inj_1 in Hct' as [<- <-]; [|done]. split_and!; [done|by apply u32_roundtrip|done|done].
  - apply InputBuffer_fetch_straddle; [done|done| |lia]. lia.
Qed.

Lemma fetch_uint32_spec_witness :
  wp (InputBuffer_fetch_uint32 (replicate 4 None)) (λ r s',
    r.1 = true ∧ u32_value r.2 = 5%Z ∧ input_inv s' ∧
    input_contents s' = [Some 8; Some 9]%Z) in_six ∧
  InputBuffer_fetch_uint32 (replicate 4 None) in_straddle = Faulted OutOfBounds.
Proof.
  split.
  - assert (consumed_bytes_ in_six mod kBlockSize ≤ kBlockSize - 4)%Z as Hpos
      by (vm_compute; discriminate).
    pose proof (fetch_uint32_spec 5 [Some 8; Some 9]%Z in_six in_six_inv) as H.
    rewrite decide_True in H by exact Hpos. apply H; [vm_compute; reflexivity|lia|vm_compute; reflexivity].
  - assert (¬ (consumed_bytes_ in_straddle mod kBlockSize ≤ kBlockSize - 4)%Z) as Hpos
      by (intros Hc; vm_compute in Hc; by apply Hc).
    pose proof (fetch_uint32_spec 5 [Some 8; Some 9]%Z in_straddle in_straddle_inv) as H.
    rewrite decide_False in H by exact Hpos. apply H; [vm_compute; reflexivity|lia|vm_compute; reflexivity].
Defined.

(** ** The parser's side of the receive buffer *)

(** [Next] hands out a non-empty run of the oldest unread bytes, as long as the
    current block and the limit allow, and moves them from unread to consumed; it
    fails, without effect, exactly when nothing is unread or the limit is used
    up. *)
Theorem input_next_spec (s : InputBuffer) :
  input_inv s →
  wp InputBuffer_next (λ r s', input_inv s' ∧
    match r with
    | None => s' = s ∧ (input_contents s = [] ∨ limit_ s = 0%Z)
    | Some sp => ∃ bytes,
        wp (read_span sp) (λ bs s'', bs = bytes ∧ s'' = s') s' ∧
        bytes ≠ [] ∧ input_contents s = bytes ++ input_contents s' ∧
        (length bytes : Z) = Z.min (current_avail s) (limit_ s) ∧
        limit_ s' = (if decide (limit_ s = INT32_MAX) then INT32_MAX
                     else limit_ s - length bytes)%Z ∧
        consumed_bytes_ s' = u64 (consumed_bytes_ s + length bytes)
    end) s.
Proof.
  intros Hinv. eapply wp_mono; [by apply InputBuffer_next_spec|].
  intros [sp|] s' [Hinv' Hr]; [|done]. split; [done|].
  destruct Hr as (bytes & H1 & H2 & H3 & H4 & H5 & H6 & _). by exists bytes.
Qed.

Lemma input_next_spec_witness :
  wp InputBuffer_next (λ r s', input_inv s' ∧ r ≠ None) in_six.
Proof.
  eapply wp_mono; [apply (input_next_spec in_six), in_six_inv|].
  intros [sp|] s' [Hinv Hr]; [done|]. destruct Hr as [_ [Hnil|Hlim]].
  - by vm_compute in Hnil.
  - by vm_compute in Hlim.
Defined.

(** [BackUp n] makes the last [n] bytes taken from the current block unread
    again, in place; if fewer were taken from it, it gives back only those.  Every
    block before the current one is freed.  A block that has been filled is left as
    soon as [Next] has handed it out to its end, so that a [BackUp] that follows
    gives nothing back, whatever count it is called with: all bytes of the chunk are
    lost to the reader. *)
Theorem input_back_up_spec (s : InputBuffer) :
  input_inv s →
  (∀ fuel n, (0 ≤ n ≤ INT32_MAX)%Z → size (in_heap s) < fuel →
     limit_ s = INT32_MAX ∨ (limit_ s + n ≤ INT32_MAX)%Z →
     wp (InputBuffer_back_up fuel n) (λ _ s', input_inv s' ∧
       let back := drop (length (current_read s) - Z.to_nat n) (current_read s) in
       input_contents s' = back ++ input_contents s ∧
       first_block_ s' = cur_block_ s' ∧
       consumed_bytes_ s' = u64 (consumed_bytes_ s - length back)) s) ∧
  (input_contents s ≠ [] → limit_ s = INT32_MAX →
   (length (current_read s) + current_avail s = kBlockSize)%Z →
   wp InputBuffer_next (λ r s', is_Some r ∧ ∀ fuel n,
     size (in_heap s') < fuel → (0 ≤ n ≤ INT32_MAX)%Z →
     wp (InputBuffer_back_up fuel n) (λ _ s'',
       input_contents s'' = drop (Z.to_nat (current_avail s)) (input_contents s)) s') s).
Proof.
  intros Hinv. split.
  { intros fuel n Hn Hf Hlim. eapply wp_mono; [by apply InputBuffer_back_up_spec|].
    intros [] s' (H1 & H2 & H3 & _ & H4 & _). by split_and!. }
  intros Hne Hlim Hfull. pose proof (current_avail_pos s Hinv Hne) as Hpos.
  pose proof kBlockSize_val as HK.
  eapply wp_mono; [by apply InputBuffer_next_spec|]. intros [sp|] s' [Hinv' H]; cycle 1.
  { destruct H as [_ [?|H0]]; [done|]. by rewrite Hlim in H0. }
  destruct H as (bytes & _ & _ & Hct & Hlen & Hlim' & _ & _ & Hread). rewrite Hlim in Hlen, Hlim'.
  assert ((length bytes : Z) = current_avail s) as Hb by (unfold INT32_MAX in Hlen; lia).
  split; [done|]. intros fuel n Hf Hn.
  eapply wp_mono; [apply InputBuffer_back_up_spec; [done|done|done|by left]|].
  intros [] s'' (_ & Hct' & _). rewrite Hct'.
  rewrite decide_True in Hread by (rewrite length_app; lia).
  rewrite Hread, drop_nil, Hct. simpl. by rewrite <-Hb, Nat2Z.id, drop_app_length.
Qed.

(** A whole block has arrived. *)
Definition full_block : InputBuffer := in_state [OpReceive (replicate (Z.to_nat 8192) (Some 1%Z))].

Lemma full_block_inv : input_inv full_block.
Proof.
  apply in_state_inv; [|vm_compute; reflexivity].
  repeat constructor. intros Heq. apply (f_equal length) in Heq.
  rewrite length_replicate in Heq. simpl length in Heq. lia.
Qed.

Lemma input_back_up_spec_witness :
  wp (InputBuffer_back_up 5 2) (λ _ s', input_contents s' = [Some 8; Some 9]%Z)
    (in_state [OpReceive six; OpNext]) ∧
  wp InputBuffer_next (λ r s', is_Some r ∧
    wp (InputBuffer_back_up 5 2) (λ _ s'', input_contents s'' = []) s') full_block.
Proof.
  split.
  - destruct (input_back_up_spec (in_state [OpReceive six; OpNext])) as [Hback _].
    { apply in_state_inv; [by repeat constructor|unfold in_size; simpl; lia]. }
    eapply wp_mono; [apply (Hback 5 2%Z)|].
    + unfold INT32_MAX. lia.
    + vm_compute. lia.
    + left. vm_compute. reflexivity.
    + intros [] s' (_ & Hct & _). rewrite Hct. vm_compute. reflexivity.
  - destruct (input_back_up_spec full_block full_block_inv) as [_ Hfull].
    eapply wp_mono; [apply wp_with_run, Hfull|].
    + intros Heq. apply (f_equal length) in Heq. vm_compute in Heq. discriminate Heq.
    + vm_compute. reflexivity.
    + vm_compute. reflexivity.
    + intros r s' [Hrun [Hr Hback]]. split; [exact Hr|].
      eapply wp_mono; [apply (Hback 5 2%Z); [|unfold INT32_MAX; lia]|].
      * assert (match InputBuffer_next full_block with
                | Done (_, x) => size (in_heap x) | _ => 9 end < 5) as Hsize by (vm_compute; lia).
        by rewrite Hrun in Hsize.
      * intros [] s'' Hct. rewrite Hct. vm_compute. reflexivity.
Defined.

(** C22: [Skip n] on every branch.  It is guarded by the number of bytes consumed
    before: with fewer consumed than [n] it refuses, though the bytes may be there;
    otherwise it drops the next [n] unread bytes and returns true if that many are
    unread, and never returns if not, whatever fuel its loop is given. *)
Theorem input_skip_spec (n : Z) (s : InputBuffer) :
  input_inv s → (0 ≤ n ≤ INT32_MAX)%Z →
  if decide (InputBuffer_byte_count s < n)%Z then
    ∀ fuel, InputBuffer_skip fuel n s = Done (false, s)
  else if decide (n ≤ length (input_contents s))%Z then
    ∀ fuel : nat, (n < fuel)%Z → wp (InputBuffer_skip fuel n) (λ r s', r = true ∧ input_inv s' ∧
      input_contents s' = drop (Z.to_nat n) (input_contents s)) s
  else ∀ fuel, InputBuffer_skip fuel n s = OutOfFuel.
Proof.
  intros Hinv Hn. case_decide; [intros fuel; by apply InputBuffer_skip_refuses|].
  case_decide; intros fuel.
  - intros Hf. eapply wp_mono; [apply InputBuffer_skip_spec; try done; lia|]. naive_solver.
  - apply InputBuffer_skip_diverges; [done|lia..].
Qed.

(** After a length prefix. *)
Definition after_fetch : InputBuffer := in_state [OpReceive six; OpFetch].

Lemma after_fetch_inv : input_inv after_fetch.
Proof. apply in_state_inv; [by repeat constructor|unfold in_size; simpl; lia]. Qed.

Lemma input_skip_spec_witness :
  (∀ fuel, InputBuffer_skip fuel 6 in_six = Done (false, in_six)) ∧
  wp (InputBuffer_skip 5 2) (λ r s', r = true ∧ input_contents s' = []) after_fetch ∧
  (∀ fuel, InputBuffer_skip fuel 4 after_fetch = OutOfFuel).
Proof.
  split_and!.
  - pose proof (input_skip_spec 6 in_six in_six_inv ltac:(unfold INT32_MAX; lia)) as H.
    rewrite decide_True in H by (vm_compute; reflexivity). exact H.
  - pose proof (input_skip_spec 2 after_fetch after_fetch_inv ltac:(unfold INT32_MAX; lia)) as H.
    rewrite decide_False in H by (vm_compute; discriminate).
    rewrite decide_True in H by (vm_compute; discriminate).
    eapply wp_mono; [apply (H 5); lia|]. intros r s' (-> & _ & Hct). split; [done|].
    rewrite Hct. vm_compute. reflexivity.
  - pose proof (input_skip_spec 4 after_fetch after_fetch_inv ltac:(unfold INT32_MAX; lia)) as H.
    rewrite decide_False in H by (vm_compute; discriminate).
    rewrite decide_False in H by (vm_compute; intros Hc; by apply Hc). exact H.
Defined.

(** ** The serializer's and the kernel's side of the send buffer *)

(** Protobuf's writing protocol: [Next] hands out a non-empty region behind
    the contents, and storing bytes at its start and returning the rest with
    [BackUp] appends exactly those bytes. *)
Theorem output_next_protocol (s : OutputBuffer) (bytes : list cell) :
  output_inv s →
  wp OutputBuffer_next (λ sp s', (0 < sp_len sp ≤ kBlockSize)%Z ∧
    ((length bytes ≤ sp_len sp)%Z →
     wp (write_span sp bytes;; OutputBuffer_back_up (sp_len sp - length bytes))
       (λ _ s'', output_inv s'' ∧ output_contents s'' = output_contents s ++ bytes) s')) s.
Proof.
  intros Hinv. eapply wp_mono; [by apply OutputBuffer_next_spec|].
  intros sp s' (_ & Hlen & _ & Hw). by split; [|apply Hw].
Qed.

Lemma output_next_protocol_witness :
  wp OutputBuffer_next (λ sp s',
    wp (write_span sp six;; OutputBuffer_back_up (sp_len sp - 6))
      (λ _ s'', output_contents s'' = six) s') OutputBuffer_new.
Proof.
  unfold wp at 1. destruct output_inv_new as [Hinv Hct].
  pose proof (output_next_protocol OutputBuffer_new six Hinv) as Hnext. unfold wp at 1 in Hnext.
  destruct (OutputBuffer_next OutputBuffer_new) as [[sp s']| |] eqn:Hrun; [|done|done].
  destruct Hnext as [Hlen Hw]. eapply wp_mono; [apply Hw|].
  - vm_compute in Hrun. injection Hrun as <- _. simpl. lia.
  - intros [] s'' [_ Hct']. by rewrite Hct', Hct.
Defined.

(** The regions of [get_iovecs] hold the unsent bytes in order, all of them if
    they lie in at most [IOV_MAX] blocks, and some if there are any. *)
Theorem output_get_iovecs_spec (fuel : nat) (s : OutputBuffer) :
  output_inv s → size (out_heap s) < fuel →
  wp (OutputBuffer_get_iovecs fuel) (λ iovs s', s' = s ∧ (length iovs ≤ IOV_MAX)%Z ∧
    wp (mapM read_span iovs) (λ bss s'', s'' = s ∧
      concat bss `prefix_of` output_contents s ∧
      ((size (out_heap s) ≤ IOV_MAX)%Z → concat bss = output_contents s) ∧
      (output_contents s ≠ [] → concat bss ≠ [])) s) s.
Proof. apply OutputBuffer_get_iovecs_spec. Qed.

Lemma output_get_iovecs_spec_witness :
  wp (OutputBuffer_get_iovecs 5) (λ iovs s', wp (mapM read_span iovs) (λ bss _,
    concat bss = six) s') (out_state [OpAppend six]).
Proof.
  eapply wp_mono; [apply (output_get_iovecs_spec 5)|].
  - apply out_state_inv. simpl. unfold INT32_MAX. split_and!; lia.
  - vm_compute. lia.
  - intros iovs s' (-> & _ & Hrd). eapply wp_mono; [exact Hrd|].
    intros bss s'' (_ & _ & Hall & _). rewrite Hall; [vm_compute; reflexivity|].
    vm_compute. discriminate.
Defined.

(** [send_add n] takes the [n] oldest bytes out if there are that many; told
    that more was sent than there was, it never returns. *)
Theorem output_send_add_spec (n : Z) (s : OutputBuffer) :
  output_inv s → (0 ≤ n ≤ INT32_MAX)%Z →
  ((n ≤ length (output_contents s))%Z → ∀ fuel : nat, (n < fuel)%Z →
     wp (OutputBuffer_send_add fuel n) (λ _ s', output_inv s' ∧
       output_contents s' = drop (Z.to_nat n) (output_contents s)) s) ∧
  ((length (output_contents s) < n)%Z →
     ∀ fuel, OutputBuffer_send_add fuel n s = OutOfFuel).
Proof.
  intros Hinv Hn. split.
  - intros Hle fuel Hf. apply OutputBuffer_send_add_spec; [done|lia|lia|done].
  - intros Hlt fuel. apply OutputBuffer_send_add_diverges; [done|lia].
Qed.

Lemma output_send_add_spec_witness :
  wp (OutputBuffer_send_add 9 4) (λ _ s', output_contents s' = [Some 8; Some 9]%Z)
    (out_state [OpAppend six]) ∧
  ∀ fuel, OutputBuffer_send_add fuel 7 (out_state [OpAppend six]) = OutOfFuel.
Proof.
  assert (output_inv (out_state [OpAppend six])) as Hinv.
  { apply out_state_inv. simpl. unfold INT32_MAX. split_and!; lia. }
  split.
  - eapply wp_mono; [apply (output_send_add_spec 4); [done|unfold INT32_MAX; lia| |lia]|].
    + vm_compute. discriminate.
    + intros [] s' [_ Hct]. rewrite Hct. vm_compute. reflexivity.
  - apply (output_send_add_spec 7); [done|unfold INT32_MAX; lia|]. vm_compute. reflexivity.
Defined.

(** C23: The destructors of both buffers free every block, each once, and touch no
    freed one. *)
Theorem buffers_destroyed (fuel : nat) (s : InputBuffer) (o : OutputBuffer) :
  input_inv s → output_inv o → size (in_heap s) < fuel → size (out_heap o) < fuel →
  wp (InputBuffer_destroy fuel) (λ _ s', in_heap s' = ∅) s ∧
  wp (OutputBuffer_destroy fuel) (λ _ o', out_heap o' = ∅) o.
Proof.
  intros. split; [by apply InputBuffer_destroy_spec|by apply OutputBuffer_destroy_spec].
Qed.

Lemma buffers_destroyed_witness :
  wp (InputBuffer_destroy 5) (λ _ s', in_heap s' = ∅) in_straddle ∧
  wp (OutputBuffer_destroy 5) (λ _ o', out_heap o' = ∅) (out_state [OpAppend six]).
Proof.
  apply buffers_destroyed.
  - apply in_straddle_inv.
  - apply out_state_inv. simpl. unfold INT32_MAX. split_and!; lia.
  - vm_compute. lia.
  - vm_compute. lia.
Defined.

(** A parser that sees only the [ZeroCopyInputStream] interface and takes
    chunks until [Next] fails gets exactly the bytes up to the limit, in order, and
    leaves the rest; this holds of every implementation of the interface's laws. *)
Theorem parser_reads_to_limit {St : Type} `{ZeroCopyInputLaws St} (fuel : nat) (s : St) :
  zin_ok s → length (zin_bytes s) < fuel → zin_limit s ≠ INT32_MAX →
  (zin_limit s ≤ length (zin_bytes s))%Z →
  wp (drain fuel) (λ bytes s',
    bytes = take (Z.to_nat (zin_limit s)) (zin_bytes s) ∧
    zin_bytes s' = drop (Z.to_nat (zin_limit s)) (zin_bytes s) ∧ zin_ok s') s.
Proof.
  intros Hok Hf Hlim Hle. eapply wp_mono; [by apply drain_spec|].
  intros bytes s' (Hok' & _ & Hlen & Hct & _). rewrite <-Hlen, Nat2Z.id, Hct.
  by rewrite take_app_length, drop_app_length.
Qed.

Lemma parser_reads_to_limit_witness :
  wp (drain (S := InputBuffer) 9) (λ bytes s',
    bytes = take 4 six ∧ zin_bytes s' = drop 4 six ∧ zin_ok s') (in_state [OpReceive six; OpLimit 4]).
Proof.
  assert (input_inv (in_state [OpReceive six; OpLimit 4])) as Hinv.
  { apply in_state_inv; [repeat constructor; unfold INT32_MAX; simpl; try done; lia|].
    unfold in_size. simpl. lia. }
  eapply wp_mono; [apply (parser_reads_to_limit (St := InputBuffer) 9); [exact Hinv|..]|].
  - vm_compute. lia.
  - vm_compute. discriminate.
  - vm_compute. discriminate.
  - intros bytes s' (-> & Hct & Hok). simpl in Hct, Hok |- *. rewrite Hct.
    split_and!; [vm_compute; reflexivity|vm_compute; reflexivity|done].
Defined.
