(* ===== verification/ConnectionTheorems.v ===== *)
(** * Theorems about connections

    What a connection does to the two byte streams, over poll and over io_uring,
    and that a sender which waits for its socket is resumed. *)
From S2P Require Import Prelude Block Segments InputStream OutputStream Streams Conn Connection Coroutine ConnectionProofs Sender Poller Uring Wire Protocol Receiver PollReceiver UringRead StreamTheorems.

(** ** Sending over a polled socket *)



(** C27: Each round of the loop of [PollConnection::async_write] offers the same
    bytes to [writev]: when the kernel takes a part twice in one call, the start of
    the buffer is sent twice and as many bytes behind it are dropped unsent. *)
Theorem poll_write_resends (fuel n1 n2 : nat) (c : Connection) :
  let u := unsent c in
  output_inv (write_buf_ c) → (length u ≤ kWindow)%Z →
  tx c = [WrAccept n1; WrAccept n2] → 0 < n1 → 0 < n2 → n1 + n2 ≤ length u →
  length u + 3 < fuel →
  wp (PollConnection_async_write fuel) (λ _ c',
    wire c' = wire c ++ take n1 u ++ take n2 u ∧ unsent c' = drop (n1 + n2) u) c.
Proof.
  intros u Hinv Hwin Htx H1 H2 Hsum Hf. pose proof (window_writable c Hinv Hwin) as Hwr.
  pose proof (output_blocks_bound _ Hinv) as Hb. rewrite kBlockSize_val in Hb.
  assert (tx_effect (length u) u 0 (tx c) = ((n1 + n2)%Z, [], take n1 u ++ take n2 u)) as Heff.
  { rewrite Htx. cbn [tx_effect]. rewrite decide_True by lia. rewrite !length_take.
    rewrite decide_True by lia. simpl. rewrite app_nil_r. f_equal. f_equal. lia. }
  fold u in Hb.
  eapply wp_mono.
  { apply wp_async_write; [done| | | |]; fold u; rewrite ?Heff; simpl; rewrite ?Htx; simpl; lia. }
  fold u. rewrite Heff. simpl. intros _ c' (Hw & _ & _ & Hu & _). split; [done|].
  rewrite Hu. f_equal. lia.
Qed.

(** The connection of the instance: six bytes buffered, four accepted, then two
    accepted again. *)
Definition resend_conn : Connection :=
  set_write_buf (out_state [OpAppend six]) (Connection_new [] [WrAccept 4; WrAccept 2]).

Lemma poll_write_resends_witness :
  wp (PollConnection_async_write 20) (λ _ c',
    wire c' = Some <$> [5; 0; 0; 0; 5; 0]%Z ∧ unsent c' = []) resend_conn.
Proof.
  eapply wp_mono; [apply (poll_write_resends 20 4 2)|].
  - apply out_state_inv. simpl. unfold INT32_MAX. split_and!; lia.
  - vm_compute. discriminate.
  - reflexivity.
  - lia.
  - lia.
  - vm_compute. lia.
  - vm_compute. lia.
  - intros _ c' [Hw Hu]. rewrite Hw, Hu. split; vm_compute; reflexivity.
Defined.

(** ** Coroutines *)

(** C17: The coroutines in direct style are the ones of the source.  Calling [send_fn]
    and resuming its handle do exactly what the code with its awaiters does, one
    [co_await] after the other, unless the fuel runs out; so do the two awaiters of the
    receiver. *)
Theorem coroutines_agree (fuel : nat) (c : Connection) :
  (send_fn fuel c ≠ OutOfFuel → send_call fuel c = send_fn fuel c) ∧
  (resume_write fuel c ≠ OutOfFuel → resume_handle fuel c = resume_write fuel c) ∧
  await_read (C := Connection) fuel c =
    (should_suspend ← PollConnection_async_read (resume_write fuel) fuel;
     co_await (ReadAwaiter should_suspend) SendNotStarted) c ∧
  register_read (C := Connection) c = (co_await RegisterReadAwaiter SendNotStarted;; mret tt) c.
Proof.
  split_and!; [by apply coroutine_send|by apply coroutine_resume
    |apply coroutine_read|apply coroutine_register].
Qed.

Lemma coroutines_agree_witness :
  send_call 5 (Connection_new [] []) = send_fn 5 (Connection_new [] []) ∧
  resume_handle 5 (set_send_co SendWaiting (Connection_new [] [])) =
    resume_write 5 (set_send_co SendWaiting (Connection_new [] [])).
Proof.
  split.
  - apply (coroutines_agree 5 (Connection_new [] [])). vm_compute. discriminate.
  - apply (coroutines_agree 5 (set_send_co SendWaiting (Connection_new [] []))). vm_compute. discriminate.
Defined.

(** ** Receiving over a polled socket *)

(** C14: [PollConnection::async_read] on an open connection whose sender waits moves
    bytes from the kernel to the end of the receive buffer, unchanged and in order,
    and asks for suspension exactly when it got none and the connection is still
    open.  End of stream and errors close the connection; the sender then returns,
    with what it was handed accounted for.  Otherwise the sending side is left
    alone. *)
Theorem poll_read_appends (fuel : nat) (out : list cell) (c : Connection) :
  let r := rx_effect (recv_room (read_buf_ c)) (rx c) in
  input_inv (read_buf_ c) → sender_inv out c → placid (tx c) = true →
  (length out ≤ kWindow)%Z → length out + 3 < fuel →
  S (length (rx c)) < fuel → S (length (tx c)) < fuel →
  wp (PollConnection_async_read (resume_write fuel) fuel) (λ suspend c',
    input_inv (read_buf_ c') ∧ unread c' = unread c ++ r.1.1 ∧ rx c' = r.1.2 ∧
    closed_ c' = r.2 ∧ suspend = negb r.2 && bool_decide (r.1.1 = []) ∧
    wire c' ++ unsent c' = out ∧
    if r.2 then send_co c' = SendDone else sender_inv out c' ∧ tx c' = tx c) c.
Proof.
  intros r Hi Hs Htx Hwin Hf Hfr Hft. eapply wp_mono; [by apply (wp_async_read_open fuel out)|].
  fold r. intros suspend c' (H1 & H2 & H3 & H4 & H5 & _ & _ & H6). split_and!; try done.
  - destruct (r.2); [apply H6|]. destruct H6 as [(_ & _ & _ & Hout) _]. done.
  - destruct (r.2); [apply H6|]. by destruct H6 as (Hs' & Htx' & _).
Qed.

(** A connection whose sender waits for something to send. *)
Definition reading_conn (answers : list read_answer) : Connection :=
  set_send_co SendWaiting (Connection_new answers []).

Lemma poll_read_appends_witness :
  wp (PollConnection_async_read (resume_write 9) 9) (λ suspend c',
    unread c' = six ∧ suspend = false ∧ send_co c' = SendDone)
    (reading_conn [RdBytes (take 2 six); RdErr EINTR; RdBytes (drop 2 six); RdEof]).
Proof.
  eapply wp_mono; [apply (poll_read_appends 9 [])|].
  - apply input_inv_new.
  - split_and!; [apply output_inv_new|reflexivity|split; reflexivity|reflexivity].
  - reflexivity.
  - vm_compute. discriminate.
  - simpl. lia.
  - simpl. lia.
  - simpl. lia.
  - intros suspend c' (_ & Hu & _ & _ & -> & _ & Hco). rewrite Hu. split_and!; [vm_compute; reflexivity..|exact Hco].
Defined.

(** ** Registration *)

(** After a write event is dispatched the registration of the socket includes
    write events if the sender waits for the socket (for epoll: exactly if), so a
    sender that waits for its socket will be resumed; read events stay
    registered. *)
Theorem dispatch_keeps_sender_armed (fuel : nat) (resume_read : M Connection unit)
    (o : bool) (f : filters) (c : Connection) :
  send_ready fuel c → send_co c = SendWaiting ∨ send_co c = SendWriting →
  wp (epoll_dispatch id Connection_close resume_read (resume_write fuel) (mkReport false true false) (Some o))
    (λ i c', sent_some c c' ∧ i = Some (bool_decide (send_co c' = SendWriting))) c ∧
  wp (kqueue_dispatch id Connection_close resume_read (resume_write fuel) (mkKReport true false) f)
    (λ f' c', sent_some c c' ∧ (send_co c' = SendWriting → EVFILT_WRITE f' = true) ∧
              EVFILT_READ f' = EVFILT_READ f) c.
Proof.
  intros Hr Hco. split.
  - eapply wp_mono; [by apply epoll_dispatch_write|]. naive_solver.
  - eapply wp_mono; [by apply kqueue_dispatch_write|]. naive_solver.
Qed.

Definition blocked_conn : Connection :=
  set_send_co SendWriting
    (set_write_buf (out_state [OpAppend six]) (Connection_new [] [WrAccept 4; WrErr EAGAIN])).

Lemma dispatch_keeps_sender_armed_witness :
  wp (epoll_dispatch id Connection_close (mret tt) (resume_write 20) (mkReport false true false) (Some true))
    (λ i c', wire c' ++ unsent c' = six ∧ i = Some (bool_decide (send_co c' = SendWriting)))
    blocked_conn.
Proof.
  destruct (dispatch_keeps_sender_armed 20 (mret tt) true (mkFilters true true) blocked_conn)
    as [H _].
  - split_and!; [apply out_state_inv; simpl; unfold INT32_MAX; split_and!; lia|..].
    + vm_compute. discriminate.
    + vm_compute. reflexivity.
    + vm_compute. lia.
    + vm_compute. lia.
  - by right.
  - eapply wp_mono; [exact H|]. intros i c' [Hs Hi]. split; [|exact Hi].
    rewrite (ss_bytes _ _ Hs). vm_compute. reflexivity.
Defined.

(** ** io_uring *)

(** C15: Over io_uring, with writes that complete in full, the bytes written
    followed by the bytes buffered are the bytes submitted, in order; at most one
    write is in flight, it holds the oldest unsent bytes, and there is one whenever
    bytes are unsent. *)
Theorem uring_stream (fuel : nat) (ops : list u_op) :
  (length (u_submitted ops) ≤ 1022 * 8192)%Z → 2 * length (u_submitted ops) + 10 < fuel →
  Forall (λ op, match op with USubmit bytes => bytes ≠ [] | UComplete => True end) ops →
  wp (uring_send_fn fuel;; run_u fuel ops) (λ _ u,
    u_wire u ++ u_unsent u = u_submitted ops ∧
    match inflight u with
    | Some bytes => bytes ≠ [] ∧ bytes `prefix_of` u_unsent u ∧ back_left_ u = length bytes
    | None => u_unsent u = [] ∧ back_left_ u = 0%Z
    end) UringConnection_new.
Proof.
  intros Hlen Hf Hops. apply wp_bind. eapply wp_mono; [apply uring_starts; lia|].
  intros [] u Hinv. eapply wp_mono; [apply (run_u_spec fuel ops [] u Hinv); [done|simpl; lia|done]|].
  intros [] u' (_ & Hw & Hcase). split; [done|].
  destruct Hcase as [(-> & _ & ? & ? & _)|(bytes & -> & _ & ? & ? & ? & _)]; by split_and!.
Qed.

Lemma uring_stream_witness :
  wp (uring_send_fn 40;; run_u 40 [USubmit six; USubmit six; UComplete; UComplete]) (λ _ u,
    u_wire u ++ u_unsent u = six ++ six) UringConnection_new.
Proof.
  eapply wp_mono; [apply (uring_stream 40)|].
  - vm_compute. discriminate.
  - vm_compute. lia.
  - by repeat constructor.
  - intros [] u [Hw _]. exact Hw.
Defined.

(** C31: After a write that completes short, or with an error, [back_left_] stays
    positive with nothing in flight: whatever is submitted afterwards, nothing is
    ever written again. *)
Theorem uring_short_write_stalls (fuel : nat) (bytes : list cell) (res : Z) (ops : list u_op)
    (u : Uring) :
  let sent := take (Z.to_nat res) bytes in
  writing bytes u → u_ready fuel u → (- 2 ^ 31 ≤ res < length bytes)%Z →
  (length (u_unsent u ++ u_submitted ops) ≤ 1022 * 8192)%Z →
  2 * length (u_unsent u ++ u_submitted ops) + 3 < fuel →
  wp (uring_complete fuel res;; run_u fuel ops) (λ _ u', stalled u' ∧
    u_wire u' = u_wire u ++ sent) u.
Proof.
  intros sent Hw Hr Hres Hlen Hf. apply wp_bind.
  assert (wp (uring_complete fuel res) (λ _ u', stalled u' ∧ output_inv (u_buf u') ∧
    u_wire u' = u_wire u ++ sent ∧ length (u_unsent u') ≤ length (u_unsent u)) u) as H1.
  { destruct (decide (res < 0)%Z) as [Hneg|Hpos].
    - pose proof (uring_complete_error fuel bytes res u Hw Hr ltac:(lia)) as H1.
      pose proof Hr as (Hinv & _). unfold sent. replace (Z.to_nat res) with 0 by lia.
      rewrite take_0, app_nil_r. eapply wp_mono; [exact H1|].
      intros [] u' (Hst & Hwire & Hb & _). by rewrite Hb.
    - replace res with (Z.of_nat (Z.to_nat res)) by lia.
      eapply wp_mono; [apply (uring_complete_spec fuel bytes (Z.to_nat res) u Hw Hr); lia|].
      intros [] u' (Hinv' & Hwire & Hun & Hst). rewrite decide_False in Hst by lia.
      split_and!; [done|done|done|]. rewrite Hun, length_drop. lia. }
  eapply wp_mono; [exact H1|]. intros [] u1 (Hst & Hinv & Hwire & Hle).
  rewrite length_app in Hlen, Hf.
  eapply wp_mono; [apply run_u_stalled; [done|done|rewrite length_app; lia..]|].
  intros [] u2 (Hst2 & Hw2 & _). split; [done|congruence].
Qed.

(** The connection of the instance: six bytes submitted. *)
Definition uring_busy : Uring :=
  match (uring_send_fn 40;; run_u 40 [USubmit six]) UringConnection_new with
  | Done (_, u) => u
  | _ => UringConnection_new
  end.

Lemma uring_busy_inv : u_inv six uring_busy ∧ writing six uring_busy.
Proof.
  assert (wp (uring_send_fn 40;; run_u 40 [USubmit six]) (λ _ u, u_inv six u) UringConnection_new) as H.
  { apply wp_bind. eapply wp_mono; [apply uring_starts; lia|]. intros [] u Hinv.
    apply (run_u_spec 40 [USubmit six] [] u Hinv); [vm_compute; discriminate|vm_compute; lia|].
    by repeat constructor. }
  assert (u_inv six uring_busy) as Hinv.
  { unfold wp in H. unfold uring_busy.
    by destruct ((uring_send_fn 40;; run_u 40 [USubmit six]) UringConnection_new) as [[_ u]| |]. }
  split; [done|]. destruct Hinv as (_ & _ & Hcase).
  assert (inflight uring_busy = Some six) as Hfl by (vm_compute; reflexivity).
  destruct Hcase as [(Hno & _)|(bytes & Hw)]; [rewrite Hfl in Hno; discriminate Hno|].
  pose proof Hw as (Hb & _). rewrite Hfl in Hb. by injection Hb as <-.
Qed.

Lemma uring_short_write_stalls_witness :
  wp (uring_complete 40 4;; run_u 40 [USubmit six; UComplete]) (λ _ u',
    stalled u' ∧ u_wire u' = take 4 six) uring_busy.
Proof.
  destruct uring_busy_inv as [(Hinv & _) Hw].
  eapply wp_mono; [apply (uring_short_write_stalls 40 six 4 [USubmit six; UComplete] uring_busy Hw)|].
  - split_and!; [done|vm_compute; discriminate|vm_compute; lia].
  - vm_compute. split; [discriminate|reflexivity].
  - vm_compute. discriminate.
  - vm_compute. lia.
  - intros [] u' [Hst Hwire]. split; [done|]. rewrite Hwire. vm_compute. reflexivity.
Defined.

(** ** Receiving over io_uring *)

(** The tag of a submission gives back the kind of the event and the address
    of the connection, for every address below [2 ^ 56]; so tags of different events
    or connections differ. *)
Theorem user_data_roundtrip (e : EventType) (conn : Z) :
  (0 ≤ conn < 2 ^ 56)%Z →
  data_type (user_data e conn) = event_code e ∧ data_conn (user_data e conn) = conn ∧
  ∀ e' conn', (0 ≤ conn' < 2 ^ 56)%Z → user_data e conn = user_data e' conn' → e = e' ∧ conn = conn'.
Proof.
  intros Hc. destruct (user_data_decodes e conn Hc) as [He Hconn]. split_and!; [done|done|].
  intros e' conn' Hc' Heq. destruct (user_data_decodes e' conn' Hc') as [He' Hconn'].
  rewrite <-Heq, ?He, ?Hconn in *. split; [by destruct e, e'|done].
Qed.

Lemma user_data_roundtrip_witness :
  user_data WRITE 140000000000000 = 72197594037927936%Z ∧
  data_type (user_data WRITE 140000000000000) = 1%Z ∧
  data_conn (user_data WRITE 140000000000000) = 140000000000000%Z.
Proof.
  split; [reflexivity|].
  destruct (user_data_roundtrip WRITE 140000000000000) as (H1 & H2 & _); [lia|by split].
Defined.
