(* ===== verification/RpcTheorems.v ===== *)
(** * Theorems about calls

    The server answers valid requests in order, the client completes its calls,
    and the two together; then the ways in which a connection ends badly. *)
From stdpp Require Import strings.
From S2P Require Import Executor Sockets Start Prelude Block Segments InputStream OutputStream Streams Conn Connection ConnectionProofs Sender Wire Protocol Receiver PollReceiver Server ServerProofs HangUp Client ClientProofs ClientLife ClientClose EndToEnd Closing ServerSide ServerProcess System UringRead UringServer Uring RpcExamples.

(** ** Concrete calls *)
(** The three requests in two pieces, cut inside a length prefix, and room on the
    wire for some of the answer. *)
Definition three_events : list net_event :=
  [Arrives [RdBytes (take 14 three_bytes); RdErr EINTR] [WrAccept 5; WrErr EAGAIN];
   CanWrite [WrAccept 9];
   Arrives [RdBytes (drop 14 three_bytes)] []].

(** ** The server *)



(** ** The server over io_uring *)


(** The three requests in pieces, with a failed read, and completions. *)
Definition three_answers : list read_answer :=
  [RdBytes (take 14 three_bytes); RdErr EINTR; RdBytes (drop 14 three_bytes)].
Definition three_completions : list uring_event :=
  replicate 100 ReadDone ++ [WriteDone None] ++ replicate 100 ReadDone.


(** C34: The peer of a server over io_uring closes its side after any complete
    requests and a part of one more.  If the part ends before the body, [recv_fn]
    returns, and [send_fn] too, at once or when the write in flight has completed;
    if it ends inside the body, the loop that waits for the body submits reads for
    ever and the thread of the executor never comes back, for any fuel. *)
Theorem uring_hang_up `{ProtobufLaws} (name2service_ : gmap string Service)
    (fuel : nat) (calls : list (Header * list cell)) (replies : list (list cell))
    (k : Header * list cell) (reply part : list cell) (answers : list read_answer)
    (es : list uring_event) :
  let stream := request_stream (calls ++ [k]) in
  placed 0 (calls ++ [k]) → mapM (respond name2service_) calls = Some replies →
  respond name2service_ k = Some reply →
  part `prefix_of` request_frame k → part ≠ request_frame k →
  rx_bytes answers = request_stream calls ++ part → keeps_on answers →
  Forall in_full es → rx_work answers < reads es →
  (length stream < 2 ^ 31 - 1)%Z → length stream + 2 < fuel → 4 * length calls + 8 < fuel →
  (length (concat replies ++ reply) ≤ kWindow)%Z → length (concat replies ++ reply) + 10 < fuel →
  let s := UringConn_new (answers ++ [RdEof]) in
  if decide (length part < 8 + length (header_encode k.1))
  then wp (uring_serve name2service_ fuel es) (λ x c, x = Returned tt ∧ uc_closed c = true ∧
    u_wire (uc_out c) ++ u_unsent (uc_out c) = concat replies ∧
    (u_send (uc_out c) = SendDone ∨ inflight (uc_out c) ≠ None ∧
       wp (write_done fuel None) (λ _ u, u_send u = SendDone) (uc_out c))) s
  else uring_serve name2service_ fuel es s = OutOfFuel.
Proof.
  intros stream H1 H2 H3 H4 H5 H6 H7 H8 H9 H10 H11 H12 H13 H14 s.
  pose proof (uring_hangs_up name2service_ fuel calls replies k reply part answers es
    H1 H2 H3 H4 H5 H6 H7 H8 H9 H10 H11 H12 H13 H14) as Hend. cbv zeta in Hend. fold s in Hend.
  rewrite length_app in H13, H14. case_decide; [|done]. eapply wp_mono; [exact Hend|].
  intros x c (-> & Hu). pose proof Hu as (Hcl & Ho & Hout & Hst). split_and!; try done.
  destruct (u_send (uc_out c)) eqn:Hco; try done; [|by left]. right.
  destruct Hst as (bytes & Hfl & _). split; [by rewrite Hfl|]. apply wp_bind, wp_gets.
  eapply wp_mono; [apply (u_ended_complete fuel (concat replies)); [done|lia|lia]|].
  by intros [] u (_ & ? & _).
Qed.

Lemma uring_hang_up_witness :
  wp (@uring_serve protobuf_model test_services 200 (replicate 100 ReadDone))
    (λ x c, x = Returned tt ∧ uc_closed c = true)
    (UringConn_new [RdBytes (test_request 5 body3); RdBytes (take 4 (test_request 6 body3)); RdEof]) ∧
  @uring_serve protobuf_model test_services 200 (replicate 100 ReadDone)
    (UringConn_new [RdBytes (test_request 5 body3); RdBytes (take 28 (test_request 6 body3)); RdEof]) =
    OutOfFuel.
Proof.
  assert (∀ n, take n (test_request 6 body3) `prefix_of` @request_frame protobuf_model (test_header 6, body3))
    as Hpre by (intros n; exists (drop n (test_request 6 body3)); by rewrite take_drop).
  assert (Forall in_full (replicate 100 ReadDone)) as Hfull by (by apply Forall_replicate; left).
  split.
  - eapply wp_mono; [apply (@uring_hang_up protobuf_model protobuf_model_laws test_services 200
      [(test_header 5, body3)] [frame (@header_encode protobuf_model (resp_header (test_header 5))) body3]
      (test_header 6, body3) (frame (@header_encode protobuf_model (resp_header (test_header 6))) body3)
      (take 4 (test_request 6 body3))
      [RdBytes (test_request 5 body3); RdBytes (take 4 (test_request 6 body3))] (replicate 100 ReadDone));
      try done|].
    + decided.
    + by repeat constructor.
    + vm_compute. lia.
    + vm_compute. lia.
    + vm_compute. lia.
    + vm_compute. lia.
    + intros x c (-> & ? & _). by split.
  - apply (@uring_hang_up protobuf_model protobuf_model_laws test_services 200
      [(test_header 5, body3)] [frame (@header_encode protobuf_model (resp_header (test_header 5))) body3]
      (test_header 6, body3) (frame (@header_encode protobuf_model (resp_header (test_header 6))) body3)
      (take 28 (test_request 6 body3))
      [RdBytes (test_request 5 body3); RdBytes (take 28 (test_request 6 body3))] (replicate 100 ReadDone));
      try done.
    + decided.
    + by repeat constructor.
    + vm_compute. lia.
    + vm_compute. lia.
    + vm_compute. lia.
    + vm_compute. lia.
Defined.

(** ** The client *)


(** A session that takes any response, and a fresh client connection. *)
Definition any_session : Session (list cell) := mkSession Some None.
Definition client_conn : Connection :=
  match @client_start protobuf_model (list cell) 200 (Connection_new [] []) with
  | Done (_, c) => c
  | _ => Connection_new [] []
  end.

Lemma client_conn_live :
  live 200 [] client_conn ∧ incoming client_conn = [] ∧ at_pos 0 client_conn ∧ rx client_conn = [].
Proof.
  pose proof (@client_starts protobuf_model (list cell) 200 ltac:(lia)) as H.
  apply wp_done in H as (x & c & Hrun & -> & Hl & Hin & Hpos & Hrx). unfold client_conn.
  by rewrite Hrun.
Qed.

(** Two calls, with the response to the first arriving in pieces around the second. *)
Definition two_events : list (client_event (list cell)) :=
  let r := @response_stream protobuf_model (responses 0 [body3; []]) in
  [Calls (mkCall "S" "id" body3 any_session) [WrAccept 6]; Net (Arrives [RdBytes (take 12 r)] []);
   Calls (mkCall "S" "id" [] any_session) []; Net (CanWrite takes_all);
   Net (Arrives [RdErr EINTR; RdBytes (take 11 (drop 12 r))] [])].


(** C28: After any such life the server closes the stream.  The coroutines of the
    client return, the calls that are pending stay in the table for good, and the
    next call resumes [send_fn], which has returned. *)
Theorem client_hang_up_strands_calls `{ProtobufLaws} {Message : Type} (fuel : nat)
    (rs : list (Header * list cell)) (future : list cell) (es : list (client_event Message))
    (s : machine) (t : list write_answer) :
  let total := length (response_stream rs) in
  let sent := request_stream (numbered 0 (calls_of es)) in
  arranged 0 rs → concat (client_event_bytes <$> es) ++ future = response_stream rs →
  machine_run (machine_new rs) es = Some s → Forall (client_event_ok fuel) es →
  (total < 2 ^ 31 - 1)%Z → total + 10 < fuel → 4 * length rs + 4 < fuel →
  (length (calls_of es) < 2 ^ 63)%Z → (length sent ≤ kWindow)%Z → length sent + 3 < fuel →
  placid t = true → S (length t) < fuel →
  (∀ more, wp (client_life fuel (es ++ Net (Arrives [RdEof] t) :: (Net <$> more)))
     (λ x c, ∃ ch, x = Returned ch ∧ id2session_ ch = id2session_ (table s) ∧
        completed ch = completed (table s) ∧ send_co c = SendDone) (Connection_new [] [])) ∧
  ∀ k t' more,
    let fr := frame (header_encode (req_header (length (calls_of es)) (call_service k) (call_method k)))
      (call_request k) in
    (length (calls_of es) < 2 ^ 63 - 1)%Z → (length fr ≤ kWindow)%Z → length fr + 3 < fuel →
    client_life fuel (es ++ Net (Arrives [RdEof] t) :: Calls k t' :: more) (Connection_new [] []) =
      Faulted ResumeDestroyed.
Proof.
  intros total sent H1 H2 H3 H4 H5 H6 H7 H8 H9 H10 H11 H12.
  destruct (client_hangs_up fuel rs future es s t H1 H2 H3 H4 H5 H6 H7 H8 H9 H10 H11 H12)
    as (ch & Htab & Hcomp & Hid & Hend & Hcall).
  pose proof (machine_run_id _ _ _ H3) as Hid'. rewrite <-Hid in Hid'. simpl in Hid'. split.
  - intros more. eapply wp_mono; [apply Hend|]. intros x c (-> & ? & _). by exists ch.
  - intros k t' more fr Hm Hwin Hf. apply Hcall; rewrite Hid'; done.
Qed.

Lemma client_hang_up_strands_calls_witness :
  let one := [Calls (mkCall "S" "id" body3 any_session) takes_all] in
  wp (@client_life protobuf_model (list cell) 200 (one ++ [Net (Arrives [RdEof] [])]))
    (λ x c, ∃ ch, x = Returned ch ∧ id2session_ ch = {[ 0%Z := any_session ]}) (Connection_new [] []) ∧
  @client_life protobuf_model (list cell) 200
    (one ++ [Net (Arrives [RdEof] []); Calls (mkCall "S" "id" body3 any_session) takes_all])
    (Connection_new [] []) = Faulted ResumeDestroyed.
Proof.
  intros one.
  destruct (@client_hang_up_strands_calls protobuf_model protobuf_model_laws (list cell) 200 [] [] one
    (mkMachine (mkChannel CAtHeaderLen {[ 0%Z := any_session ]} 1 []) [] 0) []) as [H1 H2].
  - exact I.
  - reflexivity.
  - vm_compute. reflexivity.
  - repeat constructor; vm_compute; (lia || discriminate || reflexivity).
  - vm_compute. reflexivity.
  - vm_compute. lia.
  - vm_compute. lia.
  - vm_compute. reflexivity.
  - vm_compute. discriminate.
  - vm_compute. lia.
  - reflexivity.
  - simpl. lia.
  - split.
    + eapply wp_mono; [apply (H1 [])|]. intros x c (ch & -> & Ht & _). exists ch. split; [reflexivity|exact Ht].
    + specialize (H2 (mkCall "S" "id" body3 any_session) takes_all []). cbv zeta in H2.
      refine (H2 _ _ _); [|vm_compute; discriminate|vm_compute; lia]. vm_compute. reflexivity.
Defined.





(** ** Client and server *)


(** The two calls with bytes carried in between, cut inside frames. *)
Definition two_actions (V : ServerSide) (e : srv_event V) : list (action V (list cell)) :=
  [MakeCall (mkCall "S" "id" body3 any_session) [WrAccept 6]; ToServer 5 []; ClientWritable takes_all;
   ToServer 100 takes_all; AtServer e; MakeCall (mkCall "S" "id" [] any_session) takes_all;
   ToClient 7 []; ToServer 9 []].

(** The two servers. *)
Abbreviation test_server kind := (@server_side protobuf_model kind test_services).



(** Two connections are accepted; the executor has run the tasks of the first one
    and handled some of its bytes when the second one is accepted. *)
Definition linux_server (policy : SchedPolicy) : RpcServer :=
  mkRpcServer (mkRpcServerOptions 8888 256 1 (-1) policy) 0 (mkSchedulerOptions (-1) policy).
Definition two_accepted {V : ServerSide} (e : srv_event V) : list (process_action V) :=
  replicate 9 (Thread StartStep) ++ replicate 6 (Thread (ExecStep true false)) ++
  [Bytes 0 40 takes_all; Event 0 e] ++ replicate 10 (Thread StartStep).

Abbreviation linux_side policy := (@process_side protobuf_model false (linux_server policy) test_services).
Abbreviation two_peers_end policy e :=
  (λ Q, wp (@process_acts protobuf_model (linux_side policy) false (linux_server policy)
      200 two_peers (@two_accepted (linux_side policy) e)) Q
    (process_new false (linux_server policy) (mkProcess {[ 0 ]}%Z [] [] []))).
Abbreviation finishes policy s :=
  (∃ s', @reaches protobuf_model (linux_side policy) false (linux_server policy) 200 two_peers s s' ∧ length (conns s') = length (conns s) ∧
    ∀ n x, conns s' !! n = Some x → wire_to x = concat (two_peers_replies n)).


(** ** Connections that end badly *)

(** C33: After any complete requests and a part of one more, the peer closes its
    side.  If the part ends before the body, both coroutines return and the socket
    is unregistered; if it ends inside the body, the server resumes a coroutine
    that has returned, because the loop that waits for the body does not look at
    [closed()]. *)
Theorem hang_up_ends_or_faults `{ProtobufLaws} (name2service_ : gmap string Service)
    (fuel : nat) (calls : list (Header * list cell)) (replies : list (list cell))
    (k : Header * list cell) (reply part : list cell) (es more : list net_event)
    (t : list write_answer) :
  let stream := request_stream (calls ++ [k]) in
  placed 0 (calls ++ [k]) → mapM (respond name2service_) calls = Some replies →
  respond name2service_ k = Some reply →
  part `prefix_of` request_frame k → part ≠ request_frame k →
  concat (event_bytes <$> es) = request_stream calls ++ part →
  Forall (event_ok fuel) es → placid t = true → S (length t) < fuel →
  (length stream < 2 ^ 31 - 1)%Z → length stream + 2 < fuel → 4 * length calls + 8 < fuel →
  (length (concat replies ++ reply) ≤ kWindow)%Z → length (concat replies ++ reply) + 3 < fuel →
  let run := serve name2service_ fuel (es ++ (Arrives [RdEof] t :: more)) in
  if decide (length part < 8 + length (header_encode k.1))
  then wp run (λ x c, x = Returned tt ∧ send_co c = SendDone ∧ closed_ c = true ∧
    DELETE ∈ events c ∧ wire c ++ unsent c = concat replies) (Connection_new [] [])
  else run (Connection_new [] []) = Faulted ResumeDestroyed.
Proof.
  intros stream H1 H2 H3 H4 H5 H6 H7 H8 H9 H10 H11 H12 H13 H14 run.
  pose proof (serve_hang_up name2service_ fuel calls replies k reply part es t more
    H1 H2 H3 H4 H5 H6 H7 H8 H9 H10 H11 H12 H13 H14) as Hend.
  fold run in Hend. cbv zeta in Hend. case_decide; [|done]. eapply wp_mono; [exact Hend|].
  intros x c (-> & (Hco & Hcl & Hout & _) & Hreg). split_and!; try done. by apply dec_stable.
Qed.

(** One request, then [n] bytes of another, then the end. *)
Definition cut_events (n : nat) : list net_event :=
  [Arrives [RdBytes (test_request 5 body3)] takes_all;
   Arrives [RdBytes (take n (test_request 6 body3))] takes_all].

Lemma hang_up_ends_or_faults_witness :
  wp (@serve protobuf_model test_services 200 (cut_events 4 ++ [Arrives [RdEof] []]))
    (λ x c, x = Returned tt ∧ send_co c = SendDone) (Connection_new [] []) ∧
  @serve protobuf_model test_services 200 (cut_events 28 ++ [Arrives [RdEof] []])
    (Connection_new [] []) = Faulted ResumeDestroyed.
Proof.
  split.
  - eapply wp_mono; [apply (@hang_up_ends_or_faults protobuf_model protobuf_model_laws test_services 200
      [(test_header 5, body3)] [frame (@header_encode protobuf_model (resp_header (test_header 5))) body3]
      (test_header 6, body3) (frame (@header_encode protobuf_model (resp_header (test_header 6))) body3)
      (take 4 (test_request 6 body3)) (cut_events 4) [] [])|].
    all: try (vm_compute; (reflexivity || discriminate || lia)).
    + decided.
    + by eexists (drop 4 _); rewrite take_drop.
    + repeat constructor; vm_compute; (lia || discriminate || reflexivity).
    + intros x c (-> & Hco & _). by split.
  - apply (@hang_up_ends_or_faults protobuf_model protobuf_model_laws test_services 200
      [(test_header 5, body3)] [frame (@header_encode protobuf_model (resp_header (test_header 5))) body3]
      (test_header 6, body3) (frame (@header_encode protobuf_model (resp_header (test_header 6))) body3)
      (take 28 (test_request 6 body3)) (cut_events 28) [] []).
    all: try (vm_compute; (reflexivity || discriminate || lia)).
    + decided.
    + by eexists (drop 28 _); rewrite take_drop.
    + repeat constructor; vm_compute; (lia || discriminate || reflexivity).
Defined.



(** C35: A request that the server refuses, for its magic number, its version, its
    service, its method or its body, after any complete requests and before anything
    else, in any pieces: [recv_fn] returns and the connection is closed, with all
    requests before it answered.  On a polled connection [send_fn] stays suspended and
    the socket stays registered, so that whatever arrives next resumes the coroutine
    that has returned.  Over io_uring no read is left submitted; [send_fn] returns with
    the write in flight, but if none is, it stays suspended and nothing that may
    complete changes the connection any more. *)
Theorem refused_request_strands_sender `{ProtobufLaws} (name2service_ : gmap string Service)
    (fuel : nat) (calls : list (Header * list cell)) (replies : list (list cell))
    (k : Header * list cell) (rest : list cell) (es : list net_event)
    (answers : list read_answer) (cs : list uring_event) :
  let stream := request_stream (calls ++ [k]) ++ rest in
  placed 0 (calls ++ [k]) → mapM (respond name2service_) calls = Some replies →
  respond name2service_ k = None →
  concat (event_bytes <$> es) = stream → Forall (event_ok fuel) es →
  rx_bytes answers = stream → keeps_on answers → Forall in_full cs → rx_work answers ≤ reads cs →
  (length stream < 2 ^ 31 - 1)%Z → length stream + 2 < fuel → 4 * length calls + 8 < fuel →
  (length (concat replies) ≤ kWindow)%Z → length (concat replies) + 10 < fuel →
  (∃ es1 e es2, es = es1 ++ e :: es2 ∧
     wp (serve name2service_ fuel (es1 ++ [e])) (λ x c,
       x = Returned tt ∧ closed_ c = true ∧ send_co c ≠ SendDone ∧ ¬ (DELETE ∈ events c) ∧
       wire c ++ unsent c = concat replies) (Connection_new [] []) ∧
     ∀ r t more, serve name2service_ fuel (es1 ++ e :: Arrives r t :: more) (Connection_new [] []) =
       Faulted ResumeDestroyed) ∧
  wp (uring_serve name2service_ fuel cs) (λ x c, x = Returned tt ∧ uc_closed c = true ∧ uc_read c = None ∧
    u_wire (uc_out c) `prefix_of` concat replies ∧
    match u_send (uc_out c) with
    | SendWaiting => u_wire (uc_out c) = concat replies ∧
        ∀ cs', Forall in_full cs' → after_done fuel cs' c = Done (Returned tt, c)
    | SendWriting => wp (write_done fuel None) (λ _ u, u_send u = SendDone) (uc_out c)
    | SendDone => True
    | SendNotStarted => False
    end) (UringConn_new answers).
Proof.
  intros stream H1 H2 H3 H4 H5 H6 H7 H8 H9 H10 H11 H12 H13 H14. split.
  - destruct (serve_refused name2service_ fuel calls replies k rest es H1 H2 H3 H4 H5 H10 H11 H12 H13 ltac:(lia))
      as (es1 & e & es2 & -> & Hst & Hagain). exists es1, e, es2. split_and!; [done| |done].
    eapply wp_mono; [exact Hst|]. intros x c (-> & Hcl & Hco & Hreg & Hout & _).
    split_and!; try done. by destruct Hco as [-> | ->].
  - eapply wp_mono; [by apply (uring_refuses name2service_ fuel calls replies k rest)|].
    intros x c (-> & Hu & Hrd). destruct (refused_ends fuel (concat replies) c Hu Hrd H13) as (Hcl & Hw & Hst); [lia|].
    by split_and!.
Qed.

(** A request with a wrong magic number. *)
Definition bad_header : Header := mkHeader 0 VERSION REQUEST 5 (Some "S") (Some "id").

Lemma refused_request_strands_sender_witness :
  (∃ es1 e es2, [Arrives [RdBytes (take 10 bad_magic)] []; Arrives [RdBytes (drop 10 bad_magic)] takes_all] =
       es1 ++ e :: es2 ∧
     @serve protobuf_model test_services 200 (es1 ++ e :: [Arrives [RdEof] []]) (Connection_new [] []) =
       Faulted ResumeDestroyed) ∧
  wp (@uring_serve protobuf_model test_services 200 (replicate 100 ReadDone))
    (λ x c, x = Returned tt ∧ uc_closed c = true) (UringConn_new [RdBytes bad_magic]).
Proof.
  destruct (@refused_request_strands_sender protobuf_model protobuf_model_laws test_services 200
    [] [] (bad_header, body3) []
    [Arrives [RdBytes (take 10 bad_magic)] []; Arrives [RdBytes (drop 10 bad_magic)] takes_all]
    [RdBytes bad_magic] (replicate 100 ReadDone)) as [(es1 & e & es2 & Hes & _ & Hagain) Huring].
  - decided.
  - reflexivity.
  - vm_compute. reflexivity.
  - vm_compute. reflexivity.
  - repeat constructor; vm_compute; (lia || discriminate || reflexivity).
  - vm_compute. reflexivity.
  - by repeat constructor.
  - apply Forall_replicate. by left.
  - vm_compute. lia.
  - vm_compute. reflexivity.
  - vm_compute. lia.
  - vm_compute. lia.
  - vm_compute. discriminate.
  - vm_compute. lia.
  - split; [exists es1, e, es2; split; [exact Hes|apply Hagain]|].
    eapply wp_mono; [exact Huring|]. intros x c (-> & ? & _). by split.
Defined.
