(* ===== verification/LoopTheorems.v ===== *)
(** * Theorems about the event loop

    Many sockets on one executor: what the loop does at each of them, what the peers
    of a server get, and what happens to connections that hang up or that are
    destroyed while reports still point to them. *)
From stdpp Require Import strings.
From S2P Require Import Prelude Block Segments InputStream OutputStream Streams Conn Connection ConnectionProofs Sender Poller Wire Protocol Receiver PollReceiver HangUp Server ServerProofs EventLoop EventLoopProofs ServerSide Closing ServerProcess EventLoopServer RpcExamples.

(** ** The server with three calls at one peer and one at the other *)
Abbreviation test_endpoint := (@server_endpoint protobuf_model test_services 200).

Abbreviation EReports := (Reports (K := EpollKernel test_endpoint)).
Abbreviation KReports := (Reports (K := KqueueKernel test_endpoint)).

(** The state after a run. *)
Definition after_actions {K : Kernel test_endpoint} (l : list (loop_action K)) : loop test_endpoint (poller K) :=
  fold_left (λ s b, match loop_act b s with Done (_, s') => s' | _ => s end) l loop_new.
Definition obj_at {P} (p : nat) (s : loop test_endpoint P) : obj test_endpoint :=
  default (mkObj (E := test_endpoint) 0 (Returned tt, Connection_new [] [])) (objs s !! p).

Definition handed (p k n : nat) (t : list write_answer) : nat * epoll_answer :=
  (p, mkAnswer (Some ([RdBytes (take n (drop k (@request_stream protobuf_model (two_peers p))))], t)) None false).
(** Two connections; some bytes of the first peer arrive, and its socket takes little;
    then the rest of both peers' bytes arrives. *)
Definition two_batches : list (loop_action (EpollKernel test_endpoint)) :=
  [Accepts 0 5; Accepts 1 6; EReports [handed 0 0 40 [WrAccept 5; WrErr EAGAIN]];
   EReports [handed 1 0 100 []; handed 0 40 100 []]].
Definition two_sockets : loop test_endpoint Epoll := after_actions two_batches.

Lemma steps_after {K : Kernel test_endpoint} (l : list (loop_action K)) b l' :
  l' = l ++ [b] → loop_steps loop_new l (after_actions l) → possible (after_actions l) b →
  (if loop_act b (after_actions l) is Done _ then true else false) = true →
  loop_steps loop_new l' (after_actions l').
Proof.
  intros -> Hl Hpos Hrun. unfold after_actions. rewrite fold_left_app. simpl. fold (after_actions l).
  eapply steps_more; [exact Hl|exact Hpos|].
  by destruct (loop_act b (after_actions l)) as [[[] s']| |].
Qed.

(** A list of reports that the registrations allow. *)
Lemma possible_reports (s : loop test_endpoint Epoll) evs :
  NoDup evs.*1 → Forall (λ ev, ∃ n b, regs s !! n = Some (b, ev.1) ∧ (is_Some (a_out ev.2) → b = true)) evs →
  possible s (EReports evs).
Proof. intros Hnd Hall. split; [done|]. intros p a Hin. rewrite Forall_forall in Hall. by apply (Hall (p, a)). Qed.

(** Computed with a [bool] in front, so that only that is evaluated. *)
Definition used {P} (s : loop test_endpoint P) (p : nat) : bool := if objs s !! p is Some _ then true else false.

Lemma used_obj_at {P} (s : loop test_endpoint P) p : used s p = true → objs s !! p = Some (obj_at p s).
Proof. unfold used, obj_at. by destruct (objs s !! p). Qed.

Lemma accepts_new {K : Kernel test_endpoint} (s : loop test_endpoint (poller K)) p n :
  used s p = false → forallb (λ o, negb (ofd o.2 =? n)) (map_to_list (objs s)) = true →
  possible (K := K) s (Accepts p n).
Proof.
  unfold used. intros Hp Hl. split; [by destruct (objs s !! p)|]. intros q o Ho%elem_of_map_to_list Hn.
  rewrite forallb_forall in Hl. specialize (Hl (q, o)). rewrite list_elem_of_In in Ho. apply Hl in Ho.
  simpl in Ho. by rewrite Hn, Nat.eqb_refl in Ho.
Qed.

(** Before the second batch. *)
Definition one_batch : list (loop_action (EpollKernel test_endpoint)) := take 3 two_batches.
Definition second_batch : list (nat * epoll_answer) := [handed 1 0 100 []; handed 0 40 100 []].

Lemma one_batch_steps : loop_steps loop_new one_batch (after_actions one_batch).
Proof.
  eapply (steps_after [Accepts 0 5; Accepts 1 6]); [reflexivity| | |vm_compute; reflexivity].
  - eapply (steps_after [Accepts 0 5]); [reflexivity| | |vm_compute; reflexivity].
    + eapply (steps_after []); [reflexivity|apply steps_none| |vm_compute; reflexivity].
      apply accepts_new; vm_compute; reflexivity.
    + apply accepts_new; vm_compute; reflexivity.
  - apply possible_reports; [apply NoDup_singleton|]. constructor; [|constructor].
    exists 5, false. split; [vm_compute; reflexivity|by intros [? [=]]].
Qed.

Lemma second_batch_possible : possible (after_actions one_batch) (EReports second_batch).
Proof.
  apply possible_reports; [by apply (bool_decide_unpack _)|].
  constructor; [exists 6, false|constructor; [exists 5, true|constructor]];
    (split; [vm_compute; reflexivity|by intros [? [=]]]).
Qed.

Lemma two_batches_steps : loop_steps loop_new two_batches two_sockets.
Proof.
  eapply (steps_after one_batch); [reflexivity|apply one_batch_steps|apply second_batch_possible|].
  vm_compute. reflexivity.
Qed.

(** The same bytes with kqueue; in the second batch the first socket is reported
    readable and, after that, writable. *)
Definition khanded (p : nat) (n : fd) (k m : nat) (t : list write_answer) : nat * (fd * kqueue_answer) :=
  (p, (n, KRead [RdBytes (take m (drop k (@request_stream protobuf_model (two_peers p))))] t)).
Definition kqueue_batches : list (loop_action (KqueueKernel test_endpoint)) :=
  [Accepts 0 5; Accepts 1 6; KReports [khanded 0 5 0 40 [WrAccept 5; WrErr EAGAIN]];
   KReports [khanded 1 6 0 100 []; khanded 0 5 40 100 []; (0, (5, KWrite [WrAccept 3; WrErr EAGAIN]))]].
Definition kqueue_sockets : loop test_endpoint Kqueue := after_actions kqueue_batches.

Lemma possible_kreports (s : loop test_endpoint Kqueue) evs :
  NoDup ((λ ev : nat * (fd * kqueue_answer), (ev.1, on_write ev.2.2)) <$> evs) →
  Forall (λ ev, ∃ f, regs s !! ev.2.1 = Some (f, ev.1) ∧
    (if on_write ev.2.2 then EVFILT_WRITE f else EVFILT_READ f) = true) evs →
  possible s (KReports evs).
Proof.
  intros Hnd Hall. split; [done|]. intros p n a Hin. rewrite Forall_forall in Hall. by apply (Hall (p, (n, a))).
Qed.

Lemma kqueue_batches_steps : loop_steps loop_new kqueue_batches kqueue_sockets.
Proof.
  eapply (steps_after (take 3 kqueue_batches)); [reflexivity| | |vm_compute; reflexivity].
  - eapply (steps_after [Accepts 0 5; Accepts 1 6]); [reflexivity| | |vm_compute; reflexivity].
    + eapply (steps_after [Accepts 0 5]); [reflexivity| | |vm_compute; reflexivity].
      * eapply (steps_after []); [reflexivity|apply steps_none| |vm_compute; reflexivity].
        apply accepts_new; vm_compute; reflexivity.
      * apply accepts_new; vm_compute; reflexivity.
    + apply possible_kreports; [apply NoDup_singleton|]. constructor; [|constructor].
      exists (mkFilters true false). by split; vm_compute.
  - apply possible_kreports; [by apply (bool_decide_unpack _)|].
    repeat (constructor; [exists (mkFilters true false) + exists (mkFilters true true); by split; vm_compute|]).
    constructor.
Qed.

Ltac acts_ok :=
  unfold act_ok, answer_ok, kanswer_ok, event_ok, delivers, one_batch, two_batches, second_batch, handed, kqueue_batches, khanded;
  simpl take; simpl snd;
  repeat first [apply Forall_nil; exact I | apply Forall_cons | split]; first [done | vm_compute; (lia || discriminate)].





(** C16: The events of one [epoll_wait] are for different sockets.  If the dispatch of each
    of them alone ends well, the loop does at every socket exactly what its dispatch
    does, for the connection and for the registration, leaves all other sockets as they
    are, and comes to the same state in whatever order the events are handled. *)
Theorem epoll_batch_is_pointwise {E : Endpoint} (evs : list (nat * epoll_answer)) (s : loop E Epoll) :
  loop_wf s → NoDup evs.*1 → Forall (ends_well s) evs →
  ∃ s', epoll_events_handled evs s = Done (tt, s') ∧ loop_wf s' ∧
    (∀ ev, ev ∈ evs → dispatched ev s s') ∧ (∀ q, q ∉ evs.*1 → same_at q s s') ∧
    ∀ evs', evs ≡ₚ evs' → epoll_events_handled evs' s = Done (tt, s').
Proof.
  intros Hwf Hnd Hall. destruct (batch_alone evs s Hwf Hnd Hall) as (s' & Hrun & Hwf' & Hd & Hs).
  exists s'. split_and!; try done. intros evs' Hperm. by rewrite (batch_order evs evs' s).
Qed.

Lemma epoll_batch_is_pointwise_witness :
  ∃ s', epoll_events_handled second_batch (after_actions one_batch) = Done (tt, s') ∧
    epoll_events_handled (reverse second_batch) (after_actions one_batch) = Done (tt, s').
Proof.
  assert (loop_inv (H := protobuf_model) test_services 200 two_peers two_peers_replies
    (epoll_server (H0 := protobuf_model_laws) _ _ _ _ two_peers_servable) one_batch (after_actions one_batch)) as Hloop.
  { apply (loop_inv_steps (H0 := protobuf_model_laws)); [exact two_peers_servable|exact one_batch_steps|acts_ok|].
    intros [|[|p]]; [exists (drop 40 three_bytes)|exists (@request_stream protobuf_model (two_peers 1))|exists []];
      vm_compute; reflexivity. }
  destruct (@epoll_batch_is_pointwise test_endpoint second_batch (after_actions one_batch))
    as (s' & Hrun & _ & _ & _ & Hperm).
  - exact (proj1 Hloop).
  - by apply (bool_decide_unpack _).
  - apply Forall_forall. intros [p a] Hin.
    apply (report_ends_well (H0 := protobuf_model_laws) _ _ _ _ two_peers_servable one_batch _ second_batch p a Hloop
      second_batch_possible Hin).
    + assert (Forall (λ ev, answer_ok 200 ev.2) second_batch) as Hok by acts_ok.
      rewrite Forall_forall in Hok. exact (Hok (p, a) Hin).
    + apply elem_of_cons in Hin as [[= -> ->]|[[= -> ->]|[]%elem_of_nil]%elem_of_cons]; exists []; vm_compute; reflexivity.
  - exists s'. split; [exact Hrun|]. apply Hperm. symmetry. apply reverse_Permutation.
Defined.



(** C36: Reports that outlive their connection.  With epoll: after a request that it refuses
    [recv_fn] returns while [send_fn] waits for the socket; the report that the socket
    is readable and writable destroys the connection when the sender is resumed, and the
    reader is then resumed through the dangling pointer.  With kqueue, which reports a
    socket once for each filter: the stream ends in the read of the first report, both
    coroutines return, and the second report, already taken from the kernel, points to
    the connection they have destroyed. *)
Theorem reports_outlive_connections `{ProtobufLaws} (name2service_ : gmap string Service) (fuel : nat)
    (calls : list (Header * list cell)) (replies : list (list cell)) (k : Header * list cell)
    (es : list net_event) (r : list read_answer) (t t1 : list write_answer) (p : nat)
    (s : loop (server_endpoint name2service_ fuel) Epoll) (q : loop (server_endpoint name2service_ fuel) Kqueue)
    (o o' : obj (server_endpoint name2service_ fuel)) :
  let stream := request_stream (calls ++ [k]) in
  10 < fuel → placed 0 (calls ++ [k]) → mapM (respond name2service_) calls = Some replies →
  respond name2service_ k = None →
  concat (event_bytes <$> es) = request_stream calls → rx_bytes r = request_frame k →
  Forall (event_ok fuel) es → event_ok fuel (Arrives r t) → event_ok fuel (CanWrite t1) →
  (length stream < 2 ^ 31 - 1)%Z → length stream + 2 < fuel → 4 * length calls + 8 < fuel →
  (length (concat replies) ≤ kWindow)%Z → length (concat replies) + 3 < fuel →
  objs s !! p = Some o → regs s !! ofd o = Some (true, p) →
  serve name2service_ fuel (es ++ [Arrives r t]) (Connection_new [] []) = Done (body o) →
  objs q !! p = Some o' → regs q !! ofd o' = Some (mkFilters true true, p) →
  serve name2service_ fuel es (Connection_new [] []) = Done (body o') →
  (∀ r' t2, epoll_event (p, mkAnswer (Some (r', t2)) (Some t1) false) s = Faulted UseAfterFree) ∧
  (∀ t2 more, kqueue_events_handled ((p, (ofd o', KRead [RdEof] t1)) :: (p, (ofd o', KWrite t2)) :: more) q =
     Faulted UseAfterFree).
Proof.
  intros stream Hf Hplaced Hreplies Hresp Hes Hr Hok Hev Ht Hsm Hft Hfc Hwin Hfw Ho Hreg Hserve Ho' _ Hserve'.
  split.
  - intros r' t2. by apply (epoll_refused_destroyed name2service_ fuel calls replies k es r t p o).
  - intros t2 more. unfold stream in *. rewrite request_stream_app, length_app in Hsm, Hft.
    apply placed_app in Hplaced as [Hplaced _].
    apply (kqueue_closed_destroyed name2service_ fuel Hf calls replies es p o'); try done; lia.
Qed.

(** One request is answered, but the socket takes five bytes of the response; with epoll
    the next request is refused. *)
Definition one_call : list (Header * list cell) := [(test_header 7, body3)].
Definition bad_call : Header * list cell := (mkHeader 0 VERSION REQUEST 5 (Some "S") (Some "id"), body3).
Definition blocked : list write_answer := [WrAccept 5; WrErr EAGAIN].
Definition one_bytes : list cell := @request_stream protobuf_model one_call.

Definition refused_socket : loop test_endpoint Epoll :=
  after_actions [Accepts 0 5; EReports [(0, mkAnswer (Some ([RdBytes one_bytes], blocked)) None false)];
    EReports [(0, mkAnswer (Some ([RdBytes bad_magic], [])) None false)]].
Definition kqueue_socket : loop test_endpoint Kqueue :=
  after_actions [Accepts 0 5; KReports [(0, (5, KRead [RdBytes one_bytes] blocked))]].

Lemma reports_outlive_connections_witness :
  epoll_event (0, mkAnswer (Some ([], [])) (Some takes_all) false) refused_socket = Faulted UseAfterFree ∧
  kqueue_events_handled [(0, (5, KRead [RdEof] takes_all)); (0, (5, KWrite takes_all))] kqueue_socket =
    Faulted UseAfterFree.
Proof.
  destruct (@reports_outlive_connections protobuf_model protobuf_model_laws test_services 200 one_call
    (default [] (mapM (@respond protobuf_model test_services) one_call)) bad_call
    [Arrives [RdBytes one_bytes] blocked] [RdBytes bad_magic] [] takes_all 0 refused_socket kqueue_socket
    (obj_at 0 refused_socket) (obj_at 0 kqueue_socket)) as [H1 H2].
  - lia.
  - decided.
  - vm_compute. reflexivity.
  - vm_compute. reflexivity.
  - vm_compute. reflexivity.
  - vm_compute. reflexivity.
  - repeat constructor; vm_compute; (lia || discriminate || reflexivity).
  - repeat constructor; vm_compute; (lia || discriminate || reflexivity).
  - repeat constructor; vm_compute; (lia || discriminate || reflexivity).
  - vm_compute. reflexivity.
  - vm_compute. lia.
  - vm_compute. lia.
  - vm_compute. discriminate.
  - vm_compute. lia.
  - apply used_obj_at. vm_compute. reflexivity.
  - vm_compute. reflexivity.
  - vm_compute. reflexivity.
  - apply used_obj_at. vm_compute. reflexivity.
  - vm_compute. reflexivity.
  - vm_compute. reflexivity.
  - split; [apply H1|exact (H2 takes_all [])].
Defined.
