(* ===== verification/QueueTheorems.v ===== *)
(** * Theorems about the task queue

    Safety under every interleaving, and the executions that go wrong. *)
From S2P Require Import Prelude Mpmc MpmcSafety MpmcSeq MpmcBugs.

(** C9: In every state that threads can reach by any interleaving of [push] and
    [pop] calls (before the indices wrap around), no two pops have the same
    ticket, a pop with ticket [i] took exactly the value of the [i]-th push, and
    tickets are drawn in order: pops never run ahead of pushes.  A [pop] that has
    returned a value returned one that was pushed. *)
Theorem queue_tickets {T : Type} (q : qstate T) :
  reachable q →
  NoDup (pop_log q).*1 ∧
  (∀ i r, (i, r) ∈ pop_log q → (0 ≤ i < head_index_ q)%Z ∧ is_Some r ∧
     r = push_log q !! Z.to_nat i) ∧
  (head_index_ q ≤ tail_index_ q)%Z ∧ tail_index_ q = length (push_log q) ∧
  (∀ t r, threads q !! t = Some (PopDone (Some r)) →
     ∃ v, r = Some v ∧ v ∈ push_log q).
Proof.
  intros Hq. pose proof (reachable_inv q Hq) as Hinv. split_and!.
  - apply (inv_log_nodup _ Hinv).
  - apply (inv_log _ Hinv).
  - apply (inv_head _ Hinv).
  - apply (inv_tail _ Hinv).
  - intros t r Ht. destruct (th_local _ _ (inv_thread _ Hinv _ _ Ht)) as [i Hin].
    destruct (inv_log _ Hinv _ _ Hin) as (_ & [v ->] & Hr). exists v. split; [done|].
    by eapply list_elem_of_lookup_2.
Qed.

(** Two producers and a consumer, interleaved. *)
Definition three_threads : list (action nat) :=
  [ACallPush 0 5; ACallPush 1 7; ACallPop 2] ++
  concat (replicate 14 [AStep 0 false; AStep 1 true; AStep 2 false; AStep 1 false]).

Definition three_threads_end : qstate nat :=
  match run three_threads queue_new with Done q => q | _ => queue_new end.

Lemma queue_tickets_witness :
  (head_index_ three_threads_end ≤ tail_index_ three_threads_end)%Z ∧
  NoDup (pop_log three_threads_end).*1.
Proof.
  assert (reachable three_threads_end) as Hq.
  { apply (run_reachable three_threads queue_new); [apply reachable_new|vm_compute; reflexivity|].
    vm_compute. reflexivity. }
  destruct (queue_tickets three_threads_end Hq) as (H1 & _ & H3 & _). by split.
Defined.

(** C12: Calls that do not overlap, made by any threads, return what a list used
    first in, first out returns, and leave in the queue what it would hold: each
    call returns within a number of steps that depends on the number of calls and
    of spurious failures of its compare-and-swaps only, and no call touches a
    freed chunk or waits for ever.  The destructor then frees every chunk. *)
Theorem queue_sequential_fifo {T : Type} (k : nat) (xs : list (tid * option T * list bool)) :
  (length xs < 2 ^ 64 - CHUNK_SIZE)%Z →
  Forall (λ x, failures x.2 ≤ k ∧ 12 * (1 + length xs) + 20 * (k + 1) ≤ length x.2) xs →
  let reference := fifo_run xs.*1.*2 [] in
  ∃ q, seq_run xs queue_new = Done (reference.1, q) ∧ held q = reference.2 ∧
    ∃ q', queue_destroy (S (length xs)) (head_chunk_ q) q = Done q' ∧ chunks q' = ∅.
Proof.
  intros Hlen Hxs reference.
  destruct (seq_run_spec xs k [1%positive] 0 queue_new) as (q & Hrun & Hheld & ls & b & Hr & Hls);
    [apply rest_new|done|done|done|].
  exists q. split_and!; [done|done|]. by eapply destroy_rest.
Qed.

(** Two producers and a consumer that take turns; the last push and the first pop
    have a spurious failure. *)
Definition taking_turns : list (tid * option nat * list bool) :=
  [(0, Some 5, replicate 160 false); (1, Some 7, [false; false; true] ++ replicate 160 false);
   (2, None, [false; false; false; false; false; true] ++ replicate 160 false);
   (2, None, replicate 160 false); (0, None, replicate 160 false)].

Lemma queue_sequential_fifo_witness :
  ∃ q, seq_run taking_turns queue_new =
    Done ([None; None; Some (Some 5); Some (Some 7); None], q) ∧ held q = [].
Proof.
  destruct (queue_sequential_fifo 1 taking_turns) as (q & Hrun & Hheld & _).
  - vm_compute. reflexivity.
  - repeat constructor; vm_compute; lia.
  - exists q. split; [exact Hrun|exact Hheld].
Defined.

