(* ===== verification/ExecutorTheorems.v ===== *)
(** * Theorems about executors, the accept loop, sockets, controllers and the
      pressure tool *)
From stdpp Require Import strings pretty.
From S2P Require Import Prelude Executor Sockets Service Start ExecutorFds Press.

(** ** Executors *)

(** C19: The wake-up protocol: while the executor sleeps with [should_notify_]
    cleared, its event is signalled or a spawner is about to signal it; and while it
    sleeps over a non-empty queue, its event is signalled, or a spawner is still
    going to look at [should_notify_] or to signal, unless a task was already in the
    queue when [should_notify_] was set. *)
Theorem sleeping_executor_is_woken {Task : Type} (b : backend) (timeout : Z) (s : @State Task) :
  reachable b timeout s → at_ s = Sleeping →
  (should_notify_ s = false → event s = true ∨ calling (λ q, q = AtSignal) s) ∧
  (task_queue_ s ≠ [] → missed s = false →
     event s = true ∨ calling (λ q, q = AtSignal ∨ q = AtCas) s).
Proof. intros Hs Hat. by apply (reachable_wake b timeout s Hs). Qed.

(** The executor sleeps, and a thread is between pushing its task and looking at
    [should_notify_]. *)
Definition asleep : list (@action nat) :=
  [AExec false false; AExec false false; AExec false false; ACall 0 5; ASpawn 0].
Definition asleep_end : @State nat := default (exec_new URING) (run URING (-1) asleep (exec_new URING)).

Lemma sleeping_executor_is_woken_witness :
  event asleep_end = true ∨ calling (λ q, q = AtSignal ∨ q = AtCas) asleep_end.
Proof.
  apply (sleeping_executor_is_woken URING (-1)).
  - apply (exec_run_reachable URING (-1) asleep (exec_new URING)); [apply reach_new|]. vm_compute. reflexivity.
  - vm_compute. reflexivity.
  - vm_compute. discriminate.
  - vm_compute. reflexivity.
Defined.

(** C39: The lost wake-up and its end: for every executor and every task there is a
    run in which [spawn] returns true after the executor has found the queue empty
    and before it sets [should_notify_]; the executor then sleeps with the task in
    its queue, its event not signalled and every call of [spawn] returned.  From
    every state in which an executor sleeps with [should_notify_] set, this one
    included, the next call of [spawn] signals the event, and the executor runs
    everything in its queue and goes back to sleep. *)
Theorem lost_spawn_needs_next {Task : Type} (b : backend) (t : Task) :
  (∃ s, reachable b (-1) s ∧ at_ s = Sleeping ∧ task_queue_ s = [t] ∧ event s = false ∧
    should_notify_ s = true ∧ stop_ s = false ∧
    (∀ i q, spawners s !! i = Some q → q = SpawnReturned true) ∧
    ∀ expired, exec_step b (-1) false expired s = None) ∧
  ∀ timeout i (s : @State Task),
    at_ s = Sleeping → should_notify_ s = true → stop_ s = false → spawners s !! i = None →
    ∃ s1 s2, run b timeout [ACall i t; ASpawn i; ASpawn i; ASpawn i] s = Some s1 ∧
      exec_steps b timeout (5 + length (task_queue_ s1)) s1 = Some s2 ∧
      at_ s2 = Sleeping ∧ ran s2 = ran s ++ task_queue_ s ++ [t] ∧ task_queue_ s2 = [].
Proof.
  split.
  - set (step := AExec (Task := Task) false false).
    set (acts := [step; step; step; ACall 0 t; ASpawn 0; ASpawn 0; ASpawn 0; step; step; step; step;
                  step; ACall 1 t; ASpawn 1; ASpawn 1; step]).
    exists (mkState Sleeping [t] true false false
      (<[1 := SpawnReturned true]> {[ 0 := SpawnReturned true ]}) [t] [t; t] true).
    split_and!; try done.
    + apply (exec_run_reachable b (-1) acts (exec_new b)); [apply reach_new|].
      destruct b; vm_compute; reflexivity.
    + intros i q. simpl. rewrite lookup_insert_Some, lookup_singleton_Some. naive_solver.
    + intros expired. unfold exec_step. simpl. by destruct expired.
  - intros timeout i s Hat Hn Hst Hi.
    destruct (spawn_signals b timeout i t s Hi Hn) as (s1 & Hrun & Hev & Hat1 & Hst1 & Hran1 & Hq1 & _).
    exists s1. eexists. split_and!; [done|apply exec_wakes; congruence|done| |done].
    simpl. by rewrite Hran1, Hq1.
Qed.

Lemma lost_spawn_needs_next_witness :
  ∃ s1 s2, run KQUEUE (-1) [ACall 1 6; ASpawn 1; ASpawn 1; ASpawn 1]
      (mkState Sleeping [5] true false false {[ 0 := SpawnReturned true ]} [] [5] true) = Some s1 ∧
    exec_steps KQUEUE (-1) (5 + length (task_queue_ s1)) s1 = Some s2 ∧
    at_ s2 = Sleeping ∧ ran s2 = [] ++ [5] ++ [6] ∧ task_queue_ s2 = [].
Proof.
  destruct (lost_spawn_needs_next KQUEUE 6) as [_ Hnext].
  apply (Hnext (-1)%Z 1 (mkState Sleeping [5] true false false {[ 0 := SpawnReturned true ]} [] [5] true));
    reflexivity.
Defined.



(** ** Sockets *)

(** C25: [Accepter::accept] gives out a fresh descriptor; it is open exactly if the
    kernel refuses none of the five calls that configure it.  After a refusal the
    descriptor is closed, once by the refused call and again by every later one, and
    is returned all the same. *)
Theorem accept_returns_descriptor (sockfd : Z) (p : Process) :
  let rs := next_refusals 5 (mkProcess ∅ [] [] (tail (refusals p))) in
  sockfd ∈ open_fds p → default false (head (refusals p)) = false →
  ∃ fd p', Accepter_accept sockfd p = (Return fd, p') ∧ (0 ≤ fd)%Z ∧ (fd ∉ open_fds p) ∧
    (fd ∈ open_fds p' ↔ true ∉ rs) ∧
    bad_closes p' = bad_closes p ++ replicate (closes_again rs) fd.
Proof.
  intros rs Hin Hr. destruct (accept_spec sockfd p Hin Hr) as (fd & p' & H1 & H2 & H3 & H4 & H5).
  exists fd, p'. split_and!; try done. fold rs in H4. rewrite H4. case_decide; set_solver.
Qed.

Lemma accept_returns_descriptor_witness :
  ∃ fd p', Accepter_accept 3 (mkProcess {[ 3 ]}%Z [] [] [false; false; true]) = (Return fd, p') ∧
    (fd ∉ open_fds p') ∧ bad_closes p' = [fd; fd; fd].
Proof.
  destruct (accept_returns_descriptor 3 (mkProcess {[ 3 ]}%Z [] [] [false; false; true]))
    as (fd & p' & H1 & _ & _ & H4 & H5).
  - simpl. by apply elem_of_singleton.
  - reflexivity.
  - exists fd, p'. split_and!; [exact H1| |exact H5]. rewrite H4. intros Hno. apply Hno. apply list_elem_of_In.
    vm_compute. auto.
Defined.

(** C26: The constructor of a client channel ends the process if the socket, the
    address or the connection is refused; else it returns, and the channel has a
    connection on a fresh descriptor if the policy is to poll, and none at all
    otherwise.  As in [Accepter::accept], a refused option closes the descriptor,
    which the connection keeps. *)
Theorem client_channel_connects (policy : SchedPolicy) (p : Process) :
  let rs := next_refusals 4 (after_calls 4 p) in
  let fd := least_free (size (open_fds p)) 0 (open_fds p) in
  (true ∈ take 3 (refusals p) → fst (ClientChannel_new policy p) = Exit) ∧
  (true ∉ take 3 (refusals p) →
   ∃ p', ClientChannel_new policy p =
           (Return (match policy with POLL_POLICY => Some (Socket_new fd) | URING_POLICY => None end), p') ∧
     (fd ∉ open_fds p) ∧ (fd ∈ open_fds p' ↔ true ∉ rs) ∧
     bad_closes p' = bad_closes p ++ replicate (closes_again rs) fd).
Proof.
  intros rs fd. split; [apply client_new_exits|]. intros Hno.
  destruct (client_new_spec policy p) as (p' & H1 & H2 & H3); [by apply not_refused|].
  destruct (new_fd_fresh p) as [Hfresh _]. fold fd rs in Hfresh, H1, H2, H3.
  exists p'. split_and!; [done|done| |done]. rewrite H2. case_decide; set_solver.
Qed.

(** Nothing is refused but the second option. *)
Lemma client_channel_connects_witness :
  ∃ p', ClientChannel_new POLL_POLICY
          (mkProcess {[ 0 ]}%Z [] [] [false; false; false; false; false; true]) =
          (Return (Some (Socket_new 1)), p') ∧ (1%Z ∉ open_fds p') ∧ bad_closes p' = [1; 1]%Z.
Proof.
  destruct (proj2 (client_channel_connects POLL_POLICY
    (mkProcess {[ 0 ]}%Z [] [] [false; false; false; false; false; true])))
    as (p' & H1 & _ & H3 & H4).
  - simpl. set_solver.
  - exists p'. split_and!; [exact H1| |exact H4]. rewrite H3. intros Hno. apply Hno.
    apply list_elem_of_In. vm_compute. auto.
Defined.

(** Closing a [Socket] any number of times shuts the connection down once, and
    leaves the descriptor to the destructor. *)
Lemma socket_shut_down_once (n : nat) (fd : Z) (p : Process) :
  ∃ p', Socket_close_times (S n) (Socket_new fd) p = (Return (mkSocket fd true), p') ∧
    shutdowns p' = shutdowns p ++ [fd] ∧ open_fds p' = open_fds p.
Proof. apply Socket_close_once. Qed.

(** ** RpcController *)

(** A controller reports exactly what happened since it was last reset: the
    reason of the last failure, whether there was one, and whether the call was
    cancelled; the timeout cannot be set. *)
Lemma controller_reports (ops : list ctl_op) :
  let c := ctl_run RpcController_new ops in
  let recent := since_reset ops in
  ErrorText c = default EmptyString (last (omap failure_of recent)) ∧
  Failed c = bool_decide (omap failure_of recent ≠ []) ∧
  IsCanceled c = existsb is_cancel recent ∧
  timeout_ms c = (-1)%Z.
Proof. apply ctl_run_spec. Qed.

(** ** The accept loop *)

(** The server hands over what it accepts: however its thread and the
    executor's interleave, the executor runs the tasks of the connections in the
    order in which they were accepted, [send_fn] before [recv_fn], each once.  While
    the server waits in [accept], the tasks that have not run are in the queue, and
    an executor that sleeps over them is signalled, unless it had missed one of them
    when it set [should_notify_]. *)
Theorem server_hands_over (apple : bool) (srv : RpcServer) (p : Process) (s : start_state) :
  server_reachable apple srv p s →
  let n := length (accepted s) in
  ran (exec s) `prefix_of` conn_tasks n ∧
  (at_start s = AtAccept → ran (exec s) ++ task_queue_ (exec s) = conn_tasks n ∧
    (at_ (exec s) = Sleeping → task_queue_ (exec s) ≠ [] → missed (exec s) = false →
       event (exec s) = true)).
Proof.
  intros Hs%start_inv_reachable n. pose proof (start_pushed _ _ _ Hs) as [Hpre Hacc].
  destruct Hs as [Hr _]. pose proof (fifo_inv _ _ _ Hr) as Hfifo. split.
  - etrans; [|exact Hpre]. rewrite <-Hfifo. by eexists.
  - intros Hat. destruct (Hacc Hat) as [Hall Hret]. split; [by rewrite Hfifo|].
    intros Hsl Hq Hm. destruct (reachable_wake _ _ _ Hr Hsl) as [_ Hw].
    destruct (Hw Hq Hm) as [?|Hcall]; [done|]. apply Hret in Hcall. naive_solver.
Qed.

(** A server on Linux that polls has accepted a connection; its executor has run
    the first task. *)
Definition test_server : RpcServer :=
  mkRpcServer (mkRpcServerOptions 8888 256 1 (-1) POLL_POLICY) 0 (mkSchedulerOptions (-1) POLL_POLICY).
Definition one_accepted : list server_action :=
  ExecStep false false :: replicate 9 StartStep ++ [ExecStep false false].
Definition one_accepted_end : start_state :=
  default (mkStart (mkProcess {[ 0 ]}%Z [] [] []) [] AtAccept (exec_new EPOLL))
    (server_run false test_server one_accepted
      (mkStart (mkProcess {[ 0 ]}%Z [] [] []) [] AtAccept (exec_new EPOLL))).

Lemma server_hands_over_witness :
  ran (exec one_accepted_end) ++ task_queue_ (exec one_accepted_end) = [SendFn 0; RecvFn 0] ∧
  ran (exec one_accepted_end) = [SendFn 0] ∧ accepted one_accepted_end = [(1%Z, PollKind)].
Proof.
  destruct (server_hands_over false test_server (mkProcess {[ 0 ]}%Z [] [] []) one_accepted_end)
    as [_ Hacc].
  - eapply (server_run_reachable _ _ _ one_accepted); [apply server_reach_new|]. vm_compute. reflexivity.
  - destruct Hacc as [Hall _]; [vm_compute; reflexivity|]. split; [exact Hall|].
    vm_compute. by split.
Defined.

(** ** Descriptors of the executors *)

(** Making an executor and destroying it leaves the open descriptors of the
    process as they were, also when the kernel refuses some of them, for epoll and
    kqueue; of the [close]s only that of a refused event descriptor is a bad one.
    The io_uring executor also closes whatever descriptor its uninitialised member
    [epoll_fd_] happens to name. *)
Theorem executor_closes_descriptors (p : Process) :
  (-1)%Z ∉ open_fds p →
  (∃ p', executor_round EPOLL 0 p = (Return tt, p') ∧ open_fds p' = open_fds p ∧
     bad_closes p' = bad_closes p ++ (if refuses 1 p then [-1]%Z else [])) ∧
  (∃ p', executor_round KQUEUE 0 p = (Return tt, p') ∧ open_fds p' = open_fds p ∧
     bad_closes p' = bad_closes p) ∧
  (refuses 0 p = false → ∀ garbage, ∃ p', executor_round URING garbage p = (Return tt, p') ∧
     open_fds p' = open_fds p ∖ {[garbage]}).
Proof.
  intros Hneg. split_and!; [by apply epoll_round|by apply kqueue_round|].
  intros Hr garbage. by apply uring_round.
Qed.

Lemma executor_closes_descriptors_witness :
  ∃ p', executor_round URING 2 (mkProcess {[ 0; 1; 2 ]}%Z [] [] []) = (Return tt, p') ∧
    open_fds p' = {[ 0; 1; 2 ]}%Z ∖ {[ 2%Z ]}.
Proof.
  destruct (executor_closes_descriptors (mkProcess {[ 0; 1; 2 ]}%Z [] [] [])) as (_ & _ & H).
  - simpl. set_solver.
  - apply H. reflexivity.
Defined.

(** ** The pressure tool *)

(** C24: However many workers there are and however they interleave, the indices of
    the calls issued are distinct and below the total, and so are their messages; no
    counter overflows; the workers take at most two steps per call and one each to
    end, and one that has not ended can take a step; and if [main] ends other than
    by its timeout, every index was issued and every call has completed. *)
Theorem press_issues_once (total : Z) (n : nat) (acts : list press_action) (s : Press) :
  (0 ≤ total)%Z → (total + n < 2 ^ 31)%Z → press_run total acts (press_new n) = Some s →
  NoDup (issued s) ∧ NoDup (press_message <$> issued s) ∧
  Forall (λ idx, 0 ≤ idx < total)%Z (issued s) ∧
  (0 ≤ g_sent s ≤ total + n)%Z ∧ (0 ≤ g_completed s ≤ total)%Z ∧
  (Z.of_nat (worked s) ≤ 2 * total + n)%Z ∧
  (∀ i w, workers s !! i = Some w → w ≠ WorkerExit → is_Some (worker_step total i s)) ∧
  (main_at s = MainExit false → issued s ≡ₚ seqZ 0 total ∧ in_flight s = [] ∧ g_completed s = total).
Proof.
  intros Ht Hsmall Hrun.
  pose proof (press_run_inv total n _ _ _ Hsmall (press_inv_new total n Ht) Hrun)
    as [H1 H2 H3 H4 H5 H6 H7 H8 H9 H10].
  pose proof (exits_le s) as Hle. rewrite H1 in Hle.
  assert (NoDup (issued s)) as Hnd.
  { assert (NoDup (issued s ++ held s)) as Happ by (rewrite H3; apply NoDup_seqZ).
    by apply NoDup_app in Happ as [? _]. }
  split_and!; try lia; try done.
  - apply NoDup_fmap_2; [|done]. intros x y Hxy. unfold press_message in Hxy.
    apply (inj (String.append _)) in Hxy. by apply (inj pretty) in Hxy.
  - apply Forall_forall. intros idx Hidx.
    assert (idx ∈ seqZ 0 (length (issued s) + length (held s))) as Hin.
    { rewrite <-H3. apply elem_of_app. by left. }
    apply elem_of_seqZ in Hin. lia.
  - intros i w. apply worker_can_step.
  - intros Hm. pose proof (H9 (or_intror Hm)) as Hdone.
    assert (length (in_flight s) = 0 ∧ length (held s) = 0 ∧ Z.of_nat (length (issued s)) = total)
      as (Hf & Hh & Hi) by lia.
    apply nil_length_inv in Hf. apply nil_length_inv in Hh. split_and!; [|done|done].
    rewrite Hh, app_nil_r in H3. by rewrite H3, Hi, Z.add_0_r.
Qed.

(** Two workers and two calls; the second worker draws the first index. *)
Definition short_press : list press_action :=
  [AMain false; AWorker 1; AWorker 0; AWorker 0; AWorker 1; AResponse 1; AMain false; AResponse 0;
   AWorker 0; AWorker 1; AMain false; AMain false].

Lemma press_issues_once_witness :
  (∃ s, press_run 2 short_press (press_new 2) = Some s ∧ issued s = [1; 0]%Z ∧
     issued s ≡ₚ seqZ 0 2 ∧ in_flight s = []) ∧
  ∃ s, press_run kTotalRequests [AWorker 0; AWorker 9; AWorker 9; AWorker 0] (press_new kConcurrency) = Some s ∧
    issued s = [1; 0]%Z ∧ NoDup (press_message <$> issued s).
Proof.
  split; cycle 1.
  { eexists. split; [vm_compute; reflexivity|]. split; [reflexivity|].
    edestruct (press_issues_once kTotalRequests kConcurrency
      [AWorker 0; AWorker 9; AWorker 9; AWorker 0]) as (_ & Hnd & _);
      [vm_compute; discriminate|vm_compute; reflexivity|vm_compute; reflexivity|exact Hnd]. }
  eexists. split; [vm_compute; reflexivity|]. split; [reflexivity|].
  edestruct (press_issues_once 2 2 short_press) as (_ & _ & _ & _ & _ & _ & _ & Hend);
    [lia|lia|vm_compute; reflexivity|].
  destruct Hend as (Hp & Hf & _); [reflexivity|]. split; [exact Hp|exact Hf].
Defined.
