(* ===== verification/ExampleTheorems.v ===== *)
(** * Theorems about the example programs

    The echo server answers all calls of the echo client; the echo client overruns a
    variable on the response to its call 361. *)
From stdpp Require Import strings pretty.
From S2P Require Import Executor Sockets Start Prelude Block Segments InputStream OutputStream Streams Conn Connection ConnectionProofs Sender Uring Wire Protocol Receiver PollReceiver Server ServerProofs UringRead UringServer ServerSide Client ClientProofs ClientLife EndToEnd System Service Straddle Example.

(** ** Messages in the documented format *)
Definition parse_echo (bs : list cell) : option string :=
  match bs with
  | [] => Some ""%string
  | _ =>
      '(tag, bs) ← read_varint kVarint bs;
      if decide (tag = 10%Z) then
        '(n, bs) ← read_varint kVarint bs;
        rest ← skip (Z.to_nat n) bs;
        of_bytes (take (Z.to_nat n) bs)
      else None
  end.
Definition echo_model : EchoProto := {| echo_encode := wire_echo; echo_decode := parse_echo |}.

Lemma echo_model_laws : @EchoProtoLaws protobuf_model echo_model.
Proof.
  split; [|done..]. intros s [Hlen _]. simpl. unfold wire_echo. case_decide as Hs; [by subst|].
  cbn [string_field parse_echo]. rewrite read_tag by done. cbn [mbind option_bind].
  rewrite decide_True by done. rewrite read_varint_spec by (unfold kVarint; lia). cbn [mbind option_bind].
  rewrite Nat2Z.id, <-length_string_bytes. unfold skip. rewrite decide_True by done. cbn [mbind option_bind].
  rewrite take_ge by done. apply of_string_bytes.
Qed.

(** ** The server *)


Abbreviation model_calls := (@echo_calls echo_model).
Abbreviation model_requests := (@request_stream protobuf_model (numbered 0 model_calls)).
Abbreviation model_responses := (responses 0 (@echo_bodies echo_model)).

Lemma reads_replicate n : reads (replicate n ReadDone) = n.
Proof. unfold reads. induction n as [|n IH]; [done|]. cbn [replicate]. rewrite filter_cons_True by done. simpl. by rewrite IH. Qed.


(** ** The client *)


(** All calls, then 361 responses in one read, then more. *)
Definition all_calls : list (client_event string) := (λ k, Calls k []) <$> model_calls.
Definition first_replies : list cell := @response_stream protobuf_model (take 361 model_responses).
Definition more_replies : list cell := take 100 (@response_stream protobuf_model (drop 361 model_responses)).

Lemma calls_of_all (l : list (Call string)) :
  calls_of ((λ k, Calls k []) <$> l) = l ∧ concat (client_event_bytes <$> ((λ k, Calls k []) <$> l)) = [].
Proof. induction l as [|k l [IH1 IH2]]; [done|]. csimpl. rewrite calls_of_cons. by rewrite IH1, IH2. Qed.

Lemma model_361 : Z.of_nat (length first_replies) = 16366%Z.
Proof. exact (@length_361 protobuf_model echo_model echo_model_laws). Qed.
Lemma model_more : 21 ≤ length more_replies.
Proof. vm_compute. lia. Qed.
Lemma model_prefix : first_replies ++ more_replies `prefix_of` @response_stream protobuf_model model_responses.
Proof.
  unfold first_replies, more_replies. generalize model_responses. intros rs.
  rewrite <-(take_drop 361 rs) at 3. unfold response_stream. rewrite fmap_app, concat_app.
  apply prefix_app, prefix_take.
Qed.
Lemma arrives_bytes b : b ≠ [] → event_ok (Z.to_nat 70000) (Arrives [RdBytes b] []).
Proof. intros Hb. split_and!; [done|simpl; lia|by repeat constructor|simpl; lia]. Qed.
Lemma all_calls_ok : Forall (client_event_ok (Z.to_nat 70000)) all_calls.
Proof. apply Forall_fmap, Forall_true. intros k. split_and!; [done|simpl; lia|done]. Qed.
Lemma first_nonempty : first_replies ≠ [].
Proof. intros Hnil. pose proof model_361 as H. by rewrite Hnil in H. Qed.
Lemma more_nonempty : more_replies ≠ [].
Proof. intros Hnil. pose proof model_more as H. rewrite Hnil in H. simpl in H. lia. Qed.
#[local] Opaque first_replies more_replies echo_calls echo_bodies.

Definition until_361 : list (client_event string) := all_calls ++ [Net (Arrives [RdBytes first_replies] [])].
Lemma bytes_of_one b : concat (client_event_bytes <$> [Net (Message := string) (Arrives [RdBytes b] [])]) = b.
Proof. cbn. by rewrite !app_nil_r. Qed.
Lemma until_361_bytes : concat (client_event_bytes <$> until_361) = first_replies.
Proof.
  unfold until_361, all_calls. rewrite bytes_of_app, (proj2 (calls_of_all model_calls)). apply bytes_of_one.
Qed.
Lemma until_361_causal :
  @causal protobuf_model string (@echo_bodies echo_model) (until_361 ++ [Net (Arrives [RdBytes more_replies] [])]).
Proof.
  destruct (calls_of_all model_calls) as [Hcalls Hnone]. unfold until_361. rewrite <-app_assoc.
  apply (causal_calls_first (@echo_services echo_model) model_calls).
  - exact (@echo_bodies_ok protobuf_model echo_model echo_model_laws).
  - exact Hnone.
  - by unfold all_calls; rewrite Hcalls.
  - rewrite bytes_of_app, !bytes_of_one. apply model_prefix.
Qed.

